(* ===== verification/_CoqProject ===== *)
-Q . S2P
Prelude.v
GoStrings.v
GoSlog.v
GoPath.v
GoEncoding.v
GoNetip.v
GoIO.v
Wire.v
Policy.v
Secret.v
Yaml.v
Config.v
Watcher.v
Watch.v
Device.v
GoFloat.v
Limiter.v
Server.v
ReloadLog.v
Lifecycle.v
Loggers.v
Conn.v
ConnReload.v
ConnLog.v
Run.v
Secrecy.v
Pipe.v
GoNet.v
Deadlines.v
Client.v
EndToEnd.v
Dial.v
ClientSecrecy.v
DialTime.v
Timeouts.v
GoBufio.v
Msg.v
AwsSecrets.v
GoFlag.v
CmdGocloak.v
CmdSend.v
