(* ===== verification/Prelude.v ===== *)
(** * goCloak: a verification development

    goCloak is a private network overlay in Go: a server holds one WireGuard
    device in user space and, inside its tunnel, one TCP port; a client opens a
    tunnel to it and asks for a service by name; the server looks the peer and
    the name up in a policy and pipes the connection to the backend the policy
    names.  Peers live in a file that is reloaded while the server runs.  This
    library models the program at the level of its functions and shows what each
    part promises and what the parts promise together.

    ** The program's parts and the files that model them

    The path of a connection, from the client to the backend:

    - [Client] ([client.go]): [newClient] from the endpoint's text to the pinned
      device, [hello], the errors a caller can test for;
    - [Dial] ([client.go]): any number of concurrent [Dial]s of one client, with
      [dialControl]'s retries and [refreshEndpoint]'s serialized re-resolution;
      [DialTime]: those dials with a clock, calls that obey their contexts and
      steps that are taken as soon as [Dial] lets them;
    - [Wire] ([wire.go]): the two frames of the hello exchange;
    - [Conn] ([server.go]): the accept loop, [handleConn], reloads,
      [drainConnections] and the goroutines that close the listener and the pipes
      of a cancelled context, interleaved, with the counter of the WaitGroup;
      [ConnReload]: left alone, the reloading goroutine of [Conn] computes
      [Server.refreshPeers], and what the watcher loads is what [Conn] may swap in;
    - [Policy] ([policy.go]): [newPolicy] and [Resolve];
    - [Limiter] ([server.go]): [peerLimiter], its token bucket in float64;
    - [ConnLog] ([server.go]): the lines [handleConn] and [drainConnections] write,
      as a layer over [Conn] with the name each handler keeps for them;
      [Deadlines]: the calls by which a handler sets deadlines or is bound by them,
      and the time those allow it;
    - [Pipe] ([server.go]): [pipeConns];
    - [EndToEnd]: one connection seen from both ends.

    The path of a configuration, from the file to the device:

    - [Yaml] and [Config] ([config.go]): [decodeStrict] and the redaction of the
      decoder's messages; [LoadServerConfig], [LoadPeersConfig];
    - [Watcher] ([config.go]): [diffPeers] and [peerWatcher]; [Watch]: the timer
      behind its debounce, with its channel and the clock, and the calls of
      fsnotify that open, re-arm and close the watch;
    - [Secret] ([secret.go], and [scrubRef] of [server.go]): references, what they
      resolve to, and keeping them out of messages; [AwsSecrets]
      ([awssecrets/awssecrets.go]) is one external resolver;
    - [Device] ([device.go]): the configuration text sent to wireguard-go;
      [Loggers]: where what wireguard-go reports goes;
    - [Server] ([server.go]): the name and limiter maps, the secret cache, the
      diff applied to the device, [handleReload]; [ReloadLog]: the lines those
      write to the log; [Lifecycle]: the watcher's loop with all of it behind its
      callback, from startup on;
    - [Run] ([server.go]): [Server.Run] as one startup sequence; [Secrecy] and
      [ClientSecrecy]: two servers, two clients that differ in their keys only;
    - [Timeouts] ([server.go], [client.go]): the lookups of a reload and of
      [newClient] with a clock.

    The programs: [Msg] ([internal/msg/msg.go]) is the example protocol,
    [CmdGocloak] ([cmd/gocloak]) the keygen and serve commands, [CmdSend]
    ([cmd/gocloak-send], [cmd/gocloak-sink]) the example client and backend.

    [GoStrings], [GoSlog], [GoPath], [GoEncoding], [GoNetip], [GoIO], [GoFloat],
    [GoNet], [GoBufio] and [GoFlag] are the parts of Go's standard library the source uses, written
    out from its documented behaviour; this file has the notations, the error
    type, the order of map iteration and the runs of a step function.

    ** How state and operations are modelled

    A Go function is a Rocq function of the same name.  Values it returns beside
    an error are a [result]; what it mutates is passed in and handed back; what it
    asks of the outside (a read, a lookup, the clock) is an argument.  An error is
    its text together with the sentinels [errors.Is] finds in it, so both
    messages and tests on errors are statements one can prove.  Strings and byte
    slices are lists of bytes; integers are [Z], with their width where they can
    overflow; pointers that are compared (a limiter, a connection) are addresses
    in a heap.

    A part that logs is layered: the state moves by the definitions that leave
    the lines out, and the layer adds what is handed to slog ([ReloadLog] over
    [Server], [ConnLog] over [Conn]), with a proof that the state below moves as
    before ([ReloadLog.handleReload_logged_same], [ConnLog.logging_stops_nothing]).
    A clock is a layer too: [DialTime.timed_step] lets an action of [Dial] happen
    or time pass, and lets time pass only as far as no call, no timer and no step
    that [Dial] enables is late.  What [Dial] does not enable is not hurried: a
    wait that nothing ends is unbounded.  Its runs are runs of [Dial]
    ([DialTime.timed_runs_are_runs]), and no state stops the clock
    ([DialTime.dials_end_within_their_budget]).  The functions of [Timeouts] are
    those of [Server] and [Client] with the instant threaded through, and equal
    to them once it is forgotten.

    Concurrent parts ([Conn], [Dial], [Watcher], [Pipe], [Msg]) are step
    functions: [step s ev] is one atomic action of one goroutine, a critical
    section, the result of one call, a deferred call, and [run step s evs] is a
    schedule.  A theorem about every [evs] is one about every interleaving.  What
    must happen is told from what may by [forced_step] ([Conn], [Pipe], [Msg]):
    the actions that need nothing from the other end, a call that obeys a
    deadline, a read of a connection that has been closed, an [Accept] of a
    listener that has been closed.  That a part ends is a bound on every run of
    forced actions, with one enabled until the end.
    Loops that call out ([Watcher.Run_step]) also return those calls, in order.

    ** What the theorems show

    - Access.  A dial that succeeds is connected to what the policy names for that
      peer and that service, and to nothing else: the policy is the one in force
      when that very connection was decided, which is the configuration the run
      started with or the last it swapped in before
      ([EndToEnd.successful_dials_are_authorised],
      [Conn.granted_answers_are_authorised], with [Conn.in_force]); such a policy is
      the peers file and nothing else ([Config.LoadPeersConfig_authorizes],
      [Policy.Resolve_refines_grants], [ConnReload.loaded_event_ok]).  A dial that is
      granted and that nothing stops does succeed
      ([EndToEnd.granted_dials_succeed]).
    - Revocation.  A departed peer's connections are closed, whatever is in
      flight ([Conn.revocation_closes_connections], [Server.refreshPeers_reaps]);
      no change of the file is lost ([Watcher.Run_accounts_for_every_change],
      [Watcher.rearm_tick_catches_up]) or put off for ever
      ([Watch.reloads_wait_for_quiet]); and over a whole life of reloads the device
      serves the file in force as long as each was applied
      ([Lifecycle.reloads_keep_the_device_in_sync], from
      [Device.applyPeer_puts_in_force] and [Server.applyDiff_syncs]).
    - The log.  One that has no error line means every reload was applied
      ([ReloadLog.quiet_reloads_are_in_force]); every connection leaves one line,
      before the device is closed ([ConnLog.every_connection_is_logged_once]), and
      the line tells what the peer was answered, names it as the peers in force
      when its name was looked up do, and holds nothing the peer chose but a
      valid service name ([ConnLog.log_lines_are_accurate]).
    - Limits.  Dials are bounded in any window, across reloads of the limits
      ([Limiter.admitted_at_most]), and a slot taken is given back
      ([Conn.slots_are_returned]).
    - Startup and shutdown.  [Run] serves exactly when every step of startup
      succeeds, and leaves nothing open when not
      ([Run.Run_starts_whole_or_not_at_all]); shutdown closes every live connection
      and ends by forced actions alone ([Conn.shutdown_drains]); the bound of the
      drain is longer than any handler's deadlines, as it sets them, add up to
      ([Deadlines.handlers_finish_within_the_drain_bound]); a pipe and the example's
      accept loop end likewise ([Pipe.pipe_delivers_prefixes_and_ends],
      [Msg.Serve_returns_behind_its_handlers]).
    - The client keeps to the pinned server key and address while its endpoint
      moves ([Dial.reresolution_keeps_the_pin]), tells refusals apart
      ([Client.refusals_are_told_apart]) and ends: within a number of actions once
      its budget is spent ([Dial.expired_dials_end]) and, with a clock, within the
      budget and what those actions can be delayed, also while another dial holds
      the slot ([DialTime.dials_end_within_their_budget]).  The time a timeout reports is
      the time it took ([DialTime.handshake_timeouts_are_punctual]).
    - Slow stores.  A reload and the construction of a client end in time however
      slow the secret store is ([Timeouts.reloads_end_within_one_budget],
      [Timeouts.newClient_ends_in_time]), though one slow lookup can fail the rest
      of a reload ([Timeouts.slow_lookups_fail_the_rest]).
    - Formats: frames, messages, UAPI text, key files and references round-trip
      or are accepted exactly as stated ([Wire], [Msg], [Device], [Secret]); what
      [keygen] makes the other commands take ([CmdGocloak.keygen_keys_are_usable]).
    - Secrecy.  No error, line or call of a server depends on the bytes of its keys
      ([Secrecy.keys_do_not_show], over [Run] and [Lifecycle]), and no error or
      step of a client's dials on the bytes of its own
      ([ClientSecrecy.client_keys_do_not_show]).
    - Redaction: decoder messages and scrubbed errors show only what is stated
      ([Yaml.sanitizeYAMLMessage_shows_only], [Secret.scrubRef_hides_reference]).

    ** Bounds and fuel

    Recursion is structural except where noted here.  [strip_left] of
    [TrimSpace], [duration_terms] of [ParseDuration] and [scrub_suffixes] of
    [scrubRef] take at least a byte of their text a turn, and their fuel is its
    length; [utoa] has a digit more than the number's logarithm
    ([GoStrings.utoa_fuel_enough]) and [octal] prints at most nine bits.
    [readMessage]'s fuel is the 64 KiB it may buffer, and it is proved equal to a
    specification without fuel ([Msg.readMessage_is_frame]); [ServeConn]'s is the
    length of the stream, which is never used up
    ([Msg.ServeConn_serves_the_stream]).  A [ReadByte] that meets a hundred empty
    reads fails, as [bufio] does.  Progress is shown by a measure that every forced
    action decreases: a dial whose budget is spent, a pipe that is ending, a
    shutdown and [Serve] each end within a bound their theorems state.

    Time is in nanoseconds.  [DialTime] has a parameter [delay], the most by which
    a step that is enabled, a timer that is due or a call whose context is over
    can be late; when its budget ends a dial has at most thirteen such waits left,
    and the end of the budget may itself be late, whence the fourteen delays of
    its bound.

    ** Parameters, and what is assumed of them

    - [WireGuard] (class, [Device]): [IpcSet], [Up], the public key of a private
      one, and [view], what the configuration protocol makes observable; its laws
      are that protocol.  [plain_device] is an instance.
    - [GoRange] (class, here): some order of map iteration, a permutation.
    - [GoUnicode] (class, [GoNet]): the Unicode table behind [strconv.IsPrint].
    - The YAML decoder, the file system, the environment, DNS, the two AWS
      clients, [curve25519.X25519], the entropy source, the calls of fsnotify, and
      the text of [netip.ParseAddr]'s errors in the commands: functions or results
      given as arguments, with no law except where a theorem names one.
    - That a resolver or store answers by the end of the context it is given, or
      at most [delay] later ([Timeouts.punctual]); in [Deadlines] and [DialTime],
      that a call under a deadline or a context returns by its end, or at most
      [delay] later.
    - That a rewritten file has another size or modification time
      ([Watcher.honest_identity]); that no peers file holds one key in two
      spellings or the server's own key ([Server.one_spelling], [Server.not_self]),
      which the loader does not check.
    - The numbers of wireguard-go's log levels ([Loggers]): only that they are
      ordered.

    ** Not modelled

    - What a slog handler does with a line, and the lines of [Run] about listening.
    - wireguard-go, netstack and the packets themselves; fsnotify below its calls.
    - Time outside [Limiter], [Watch], [Deadlines], [DialTime] and [Timeouts]:
      elsewhere an expiry is a result that may come at any moment.  That a call
      ends when its context does is assumed of the name resolver, the secret
      store and netstack; the lookups of [Server.Run] at startup have no timeout in
      the code but the caller's context.
    - Hooks only tests set ([onReloadApplied]). *)

From stdpp Require Export prelude strings list gmap sets fin_maps.
From Stdlib Require Export ZArith Lia.
From Stdlib Require Import Strings.Byte Strings.String.

#[export] Set Default Goal Selector "!".

(** ** Go strings and byte slices

    A Go string is an immutable sequence of bytes and a [[]byte] a mutable
    one; both are lists of bytes here, so the conversions [string(b)] and
    [[]byte(s)] of the source are identities. *)

Export Byte.ByteSyntaxNotations.
Delimit Scope byte_scope with byte.
Abbreviation byte := Byte.byte.
Abbreviation gostring := (list byte).

Declare Scope go_scope.
Delimit Scope go_scope with go.

Definition lit (s : String.string) : gostring := String.list_byte_of_string s.
Arguments lit : simpl never.
Notation "# s" := (lit s%string) (at level 1, format "# s") : go_scope.
Global Open Scope go_scope.

#[export] Instance byte_eq_dec : EqDecision byte.
Proof. intros x y. exact (Byte.byte_eq_dec x y). Defined.

#[export] Instance byte_countable : Countable byte :=
  inj_countable Byte.to_N Byte.of_N Byte.of_to_N.

(** The unsigned value of a byte, and Go's [byte(z)] conversion, which keeps
    the low eight bits. *)
Definition bval (b : byte) : Z := Z.of_N (Byte.to_N b).
Definition byte_of_Z (z : Z) : byte :=
  default Byte.x00 (Byte.of_N (Z.to_N (z mod 256))).

Lemma bval_range b : (0 ≤ bval b < 256)%Z.
Proof. unfold bval. pose proof (Byte.to_N_bounded b). lia. Qed.

Lemma bval_inj b1 b2 : bval b1 = bval b2 → b1 = b2.
Proof.
  unfold bval. intros H%N2Z.inj.
  pose proof (Byte.of_to_N b1) as E1. pose proof (Byte.of_to_N b2) as E2. congruence.
Qed.

#[export] Instance bval_Inj : Inj (=) (=) bval.
Proof. intros b1 b2. apply bval_inj. Qed.

Lemma bval_byte_of_Z z : bval (byte_of_Z z) = (z mod 256)%Z.
Proof.
  unfold byte_of_Z, bval. pose proof (Z.mod_pos_bound z 256 eq_refl).
  destruct (Byte.of_N (Z.to_N (z mod 256))) as [b|] eqn:E; simpl.
  - apply Byte.to_of_N in E. rewrite E. lia.
  - apply Byte.of_N_None_iff in E. lia.
Qed.

Lemma byte_of_Z_bval b : byte_of_Z (bval b) = b.
Proof.
  apply bval_inj. rewrite bval_byte_of_Z.
  apply Z.mod_small, bval_range.
Qed.

Lemma byte_of_Z_small z : (0 ≤ z < 256)%Z → bval (byte_of_Z z) = z.
Proof. intros. rewrite bval_byte_of_Z. by apply Z.mod_small. Qed.

(** Case analysis over all 256 byte values, for facts that compute. *)
Lemma byte_forall (P : byte → Prop) `{∀ b, Decision (P b)} :
  forallb (λ n, bool_decide (P (byte_of_Z (Z.of_nat n)))) (seq 0 256) = true → ∀ b, P b.
Proof.
  intros HF b. rewrite forallb_forall in HF.
  rewrite <- (byte_of_Z_bval b). pose proof (bval_range b).
  specialize (HF (Z.to_nat (bval b))). rewrite Z2Nat.id in HF by lia.
  apply (proj1 (bool_decide_eq_true _)), HF, in_seq. lia.
Qed.

(** ** Go errors

    An error is its text and the sentinels [errors.Is] finds along its wrap
    chain; [errors.New] has none and [fmt.Errorf] with one [%w] keeps those
    of the wrapped error. *)

Inductive sentinel :=
  | errMalformedFrame                       (* wire.go *)
  | ErrHandshakeTimeout | ErrDenied | ErrBackendUnavailable | ErrRateLimited
  | ErrMalformedRequest | ErrClientClosed | ErrInvalidServiceName   (* client.go *)
  | ErrMessageTooLarge | errIncompleteMessage                       (* internal/msg *)
  | io_EOF | io_ErrUnexpectedEOF | context_Canceled | context_DeadlineExceeded
  | os_ErrExist | flag_ErrHelp
  | foreign (n : nat).                      (* any other package's sentinel *)

#[export] Instance sentinel_eq_dec : EqDecision sentinel.
Proof. solve_decision. Defined.

Record error := mkError { e_msg : gostring; e_chain : list sentinel }.

#[export] Instance error_eq_dec : EqDecision error.
Proof. solve_decision. Defined.

Definition errors_New (msg : gostring) : error := mkError msg [].
Definition wrapf (pre : gostring) (e : error) : error :=
  mkError (pre ++ e_msg e) (e_chain e).
Definition errors_Is (e : error) (s : sentinel) : bool := bool_decide (s ∈ e_chain e).
(** A sentinel declared with [errors.New(msg)]. *)
Definition sentinel_error (s : sentinel) (msg : gostring) : error := mkError msg [s].

(** ** Fallible code: [(T, error)] returns *)

Inductive result (A : Type) :=
  | Ok (a : A)
  | Err (e : error).
Arguments Ok {A} _.
Arguments Err {A} _.

Definition rbind {A B} (m : result A) (k : A → result B) : result B :=
  match m with Ok a => k a | Err e => Err e end.
(** [if err != nil { return fmt.Errorf(pre + "%w", err) }] *)
Definition rwrap {A} (pre : gostring) (m : result A) : result A :=
  match m with Ok a => Ok a | Err e => Err (wrapf pre e) end.

Notation "'let?' x ':=' m 'in' k" := (rbind m (λ x, k))
  (at level 10, x name, m at level 100, k at level 200) : go_scope.
Notation "'let?' ' p ':=' m 'in' k" := (rbind m (λ p, k))
  (at level 10, p strict pattern, m at level 100, k at level 200) : go_scope.

#[export] Instance result_eq_dec `{EqDecision A} : EqDecision (result A).
Proof. solve_decision. Defined.

Definition is_Ok {A} (m : result A) : bool := match m with Ok _ => true | Err _ => false end.

(** The value of a computation known to succeed. *)
Definition from_Ok {A} (d : A) (m : result A) : A := match m with Ok a => a | Err _ => d end.
Lemma from_Ok_eq {A} (d : A) m : is_Ok m = true → m = Ok (from_Ok d m).
Proof. by destruct m. Qed.

Lemma rbind_Ok {A B} (m : result A) (k : A → result B) b :
  rbind m k = Ok b ↔ ∃ a, m = Ok a ∧ k a = Ok b.
Proof. destruct m; simpl; naive_solver. Qed.

Lemma rwrap_Ok {A} pre (m : result A) a : rwrap pre m = Ok a ↔ m = Ok a.
Proof. destruct m; simpl; naive_solver. Qed.

Lemma rwrap_Err {A} pre (m : result A) e :
  rwrap pre m = Err e ↔ ∃ e', m = Err e' ∧ e = wrapf pre e'.
Proof. destruct m; simpl; naive_solver. Qed.

(** ** Ranging over a Go map

    [for k, v := range m] visits every entry once in an order the language
    leaves open.  Code that ranges over a map takes the order from this
    interface, so what is proved about it holds for every order. *)

Class GoRange := {
  go_range : ∀ {K} `{Countable K} {V}, gmap K V → list (K * V);
  go_range_perm : ∀ {K} `{Countable K} {V} (m : gmap K V), go_range m ≡ₚ map_to_list m
}.

Lemma elem_of_go_range `{GoRange} {K} `{Countable K} {V} (m : gmap K V) k v :
  (k, v) ∈ go_range m ↔ m !! k = Some v.
Proof. rewrite go_range_perm. apply elem_of_map_to_list. Qed.

Lemma NoDup_go_range `{GoRange} {K} `{Countable K} {V} (m : gmap K V) :
  NoDup (fst <$> go_range m).
Proof. rewrite go_range_perm. apply NoDup_fst_map_to_list. Qed.

Lemma list_to_map_go_range `{GoRange} {K} `{Countable K} {V} (m : gmap K V) :
  list_to_map (go_range m) =@{gmap K V} m.
Proof.
  apply map_eq. intros k. apply option_eq. intros v.
  rewrite <- elem_of_list_to_map by apply NoDup_go_range. apply elem_of_go_range.
Qed.

(** Inserting entries one by one, as a loop [m[k] = v] does. *)
Lemma foldl_insert_list `{Countable K} {V} (es : list (K * V)) (m : gmap K V) :
  NoDup (fst <$> es) →
  foldl (λ m e, <[fst e := snd e]> m) m es = list_to_map es ∪ m.
Proof.
  revert m. induction es as [|[k v] es IH]; intros m Hnd; simpl.
  - by rewrite (left_id_L ∅ (∪)).
  - apply NoDup_cons in Hnd as [Hk Hnd]. rewrite IH by done.
    rewrite <- insert_union_l. apply map_eq. intros i.
    destruct (decide (i = k)) as [->|Hi].
    + rewrite lookup_insert_eq, lookup_union, lookup_insert_eq.
      rewrite (not_elem_of_list_to_map_1 es k) by done. done.
    + rewrite lookup_insert_ne by done. by rewrite !lookup_union, lookup_insert_ne.
Qed.

(** The value of an option known to be there. *)
Lemma from_Some {A} (d : A) (o : option A) : bool_decide (is_Some o) = true → o = Some (default d o).
Proof. intros H. apply bool_decide_eq_true in H as [x ->]. done. Qed.

(** ** Lists indexed by a key *)

Section keyed.
Context {A K : Type} `{Countable K} (f : A → K).

Lemma NoDup_key_inj (l : list A) x y :
  NoDup (f <$> l) → x ∈ l → y ∈ l → f x = f y → x = y.
Proof.
  intros Hnd [i Hi]%list_elem_of_lookup [j Hj]%list_elem_of_lookup E.
  assert (i = j) as ->; [|congruence].
  eapply NoDup_lookup; [exact Hnd|..]; rewrite list_lookup_fmap.
  - by rewrite Hi.
  - rewrite Hj. simpl. by rewrite E.
Qed.

Lemma NoDup_key_sublist (l k : list A) : l `sublist_of` k → NoDup (f <$> k) → NoDup (f <$> l).
Proof. intros Hs Hk. eapply sublist_NoDup; [exact Hk|]. by apply fmap_sublist. Qed.

(** The loop [for _, x := range l { m[f(x)] = x }]. *)
Lemma lookup_foldl_insert (l : list A) (m : gmap K A) k x :
  NoDup (f <$> l) →
  foldl (λ m x, <[f x := x]> m) m l !! k = Some x ↔
  (x ∈ l ∧ f x = k) ∨ ((∀ y, y ∈ l → f y ≠ k) ∧ m !! k = Some x).
Proof.
  revert m. induction l as [|a l IH]; intros m Hnd; simpl; [set_solver|].
  apply NoDup_cons in Hnd as [Ha Hnd]. rewrite IH by done.
  rewrite lookup_insert_Some. setoid_rewrite elem_of_cons. split.
  - intros [[Hx Hk]|[Hl [[<- ->]|[Hne Hm]]]]; [by left; auto|by left; auto|].
    right. split; [|done]. intros y [->|Hy]; [done|by apply Hl].
  - intros [[[->|Hx] <-]|[Hl Hm]].
    + right. split; [|by left]. intros y Hy E. apply Ha. rewrite <- E. by apply list_elem_of_fmap_2.
    + by left.
    + right. split; [by auto|]. right. split; [|done]. apply Hl. by left.
Qed.

(** The loop [for _, x := range l { delete(m, f(x)) }]. *)
Lemma lookup_foldl_delete (l : list A) (m : gmap K A) k x :
  foldl (λ m x, delete (f x) m) m l !! k = Some x ↔
  (∀ y, y ∈ l → f y ≠ k) ∧ m !! k = Some x.
Proof.
  revert m. induction l as [|a l IH]; intros m; simpl; [set_solver|].
  rewrite IH, lookup_delete_Some. setoid_rewrite elem_of_cons. naive_solver.
Qed.

End keyed.

Lemma list_filter_sublist {A} (g : A → bool) (l : list A) : List.filter g l `sublist_of` l.
Proof. induction l as [|a l IH]; simpl; [done|]. destruct (g a); by constructor. Qed.

Lemma elem_of_list_filter_b {A} (g : A → bool) (l : list A) x :
  x ∈ List.filter g l ↔ g x = true ∧ x ∈ l.
Proof. rewrite !list_elem_of_In, filter_In. naive_solver. Qed.

Lemma list_filter_nil {A} (g : A → bool) (l : list A) :
  (∀ x, x ∈ l → g x = false) → List.filter g l = [].
Proof.
  intros H. induction l as [|a l IH]; simpl; [done|].
  rewrite (H a) by by left. apply IH. intros x Hx. apply H. by right.
Qed.

(** One possible order, for evaluating the model. *)
Definition canonical_range : GoRange.
Proof. refine {| go_range K _ _ V m := map_to_list m |}. done. Defined.

(** ** Runs of a step function *)

Section run.
Context {S E : Type} (step : S → E → option S).

Fixpoint run (s : S) (evs : list E) : option S :=
  match evs with
  | [] => Some s
  | ev :: evs' => s' ← step s ev; run s' evs'
  end.

Lemma run_app evs evs' s : run s (evs ++ evs') = s' ← run s evs; run s' evs'.
Proof.
  revert s. induction evs as [|ev evs IH]; intros s; simpl; [done|].
  destruct (step s ev); simpl; [apply IH|done].
Qed.

(** What every allowed step preserves holds at the end of a run. *)
Lemma run_reachable (R : S → Prop) (ok : E → Prop) :
  (∀ s ev s', R s → ok ev → step s ev = Some s' → R s') →
  ∀ evs s s', R s → Forall ok evs → run s evs = Some s' → R s'.
Proof.
  intros Hstep evs s s' Hs Hok. revert s Hs. induction Hok as [|ev evs Hev _ IH]; intros s Hs H.
  - by injection H as <-.
  - apply bind_Some in H as (s1 & H1 & H). eapply IH; [|exact H]. by eapply Hstep.
Qed.

(** A measure that every chosen event lowers bounds the run to its end. *)
Lemma run_to_end (P done_ : S → Prop) (chosen : E → Prop) (measure : S → nat) :
  (∀ s, P s → done_ s ∨ ∃ ev s', chosen ev ∧ step s ev = Some s' ∧ P s' ∧ measure s' < measure s) →
  ∀ s, P s → ∃ evs s', run s evs = Some s' ∧ P s' ∧ done_ s' ∧ List.length evs ≤ measure s ∧ Forall chosen evs.
Proof.
  intros Hstep s. remember (measure s) as n eqn:Hn. assert (measure s ≤ n) as Hle by lia. clear Hn.
  revert s Hle. induction n as [|n IH]; intros s Hle Hs;
    (destruct (Hstep s Hs) as [Hd|(ev & s1 & Hc & E1 & H1 & Hm)];
     [exists [], s; split_and!; [done|done|done|simpl; lia|constructor]|]); [lia|].
  destruct (IH s1) as (evs & s2 & R & H2 & Hd & Hl & HF); [lia|done|].
  exists (ev :: evs), s2. cbn [run]. rewrite E1. split_and!; [done|done|done|simpl; lia|by constructor].
Qed.

End run.

(** ** Automation *)

Create HintDb gocloak discriminated.
Create Rewrite HintDb gocloak.
#[export] Hint Resolve bval_range : gocloak.
#[export] Hint Rewrite @rwrap_Ok @rbind_Ok : gocloak.

(** Invert a hypothesis that a guarded computation returned: every condition
    on the way becomes a hypothesis. *)
Ltac inv_result :=
  repeat (match goal with
  | H : Ok _ = Ok _ |- _ => injection H as H
  | H : Err _ = Err _ |- _ => injection H as H
  | H : Ok _ = Err _ |- _ => discriminate H
  | H : Err _ = Ok _ |- _ => discriminate H
  | H : Some _ = None |- _ => discriminate H
  | H : None = Some _ |- _ => discriminate H
  | H : rbind _ _ = Ok _ |- _ => apply rbind_Ok in H as (? & ? & H)
  | H : rwrap _ _ = Ok _ |- _ => apply rwrap_Ok in H
  | H : (if ?c then _ else _) = Ok _ |- _ => let E := fresh "E" in destruct c eqn:E
  | H : (match ?c with _ => _ end) = Ok _ |- _ => let E := fresh "E" in destruct c eqn:E
  end; simplify_eq).

(** Turn boolean facts into propositions. *)
Ltac bool_props :=
  repeat match goal with
  | H : (_ && _)%bool = true |- _ => apply andb_true_iff in H as [? ?]
  | H : (_ || _)%bool = false |- _ => apply orb_false_iff in H as [? ?]
  | H : negb _ = true |- _ => apply negb_true_iff in H
  | H : negb _ = false |- _ => apply negb_false_iff in H
  | H : (_ <? _)%Z = true |- _ => apply Z.ltb_lt in H
  | H : (_ <? _)%Z = false |- _ => apply Z.ltb_ge in H
  | H : (_ <=? _)%Z = true |- _ => apply Z.leb_le in H
  | H : (_ <=? _)%Z = false |- _ => apply Z.leb_gt in H
  | H : (_ =? _)%Z = true |- _ => apply Z.eqb_eq in H
  | H : (_ =? _)%Z = false |- _ => apply Z.eqb_neq in H
  | H : (_ <=? _)%nat = true |- _ => apply Nat.leb_le in H
  | H : (_ <=? _)%nat = false |- _ => apply Nat.leb_gt in H
  | H : (_ <? _)%nat = true |- _ => apply Nat.ltb_lt in H
  | H : (_ <? _)%nat = false |- _ => apply Nat.ltb_ge in H
  | H : bool_decide _ = true |- _ => apply bool_decide_eq_true in H
  | H : bool_decide _ = false |- _ => apply bool_decide_eq_false in H
  end.

(** Rewrite the goal with the boolean facts of the context. *)
Ltac use_bools :=
  repeat (match goal with
  | H : ?x = true |- context [?x] => rewrite H
  | H : ?x = false |- context [?x] => rewrite H
  | H : ?x ≠ ?y |- context [(?x =? ?y)%Z] => rewrite (proj2 (Z.eqb_neq x y) H)
  end; simpl).
