(* ===== verification/GoStrings.v ===== *)
(** * The parts of Go's [strings], [strconv] and [regexp] the program uses

    Every function is executable on [gostring].  An index that Go returns as
    [-1] is [None].  [ReplaceAll] and [LastIndex] come with the lemmas that
    the redaction code of [config.go] and [server.go] rests on. *)

From S2P Require Import Prelude.

(** The newline, ['\n']. *)
Definition nl : byte := byte_of_Z 10.

(** ** Searching *)

Fixpoint IndexByte (s : gostring) (c : byte) : option nat :=
  match s with
  | [] => None
  | b :: s' => if decide (b = c) then Some 0 else S <$> IndexByte s' c
  end.

Fixpoint LastIndexByte (s : gostring) (c : byte) : option nat :=
  match s with
  | [] => None
  | b :: s' =>
      match LastIndexByte s' c with
      | Some i => Some (S i)
      | None => if decide (b = c) then Some 0 else None
      end
  end.

Fixpoint HasPrefix (s p : gostring) {struct p} : bool :=
  match p, s with
  | [], _ => true
  | _ :: _, [] => false
  | c :: p', b :: s' => bool_decide (b = c) && HasPrefix s' p'
  end.

Fixpoint Index (s p : gostring) : option nat :=
  if HasPrefix s p then Some 0
  else match s with
       | [] => None
       | _ :: s' => S <$> Index s' p
       end.

Fixpoint LastIndex (s p : gostring) : option nat :=
  match s with
  | [] => if HasPrefix s p then Some 0 else None
  | _ :: s' =>
      match LastIndex s' p with
      | Some i => Some (S i)
      | None => if HasPrefix s p then Some 0 else None
      end
  end.

Definition Contains (s p : gostring) : bool :=
  match Index s p with Some _ => true | None => false end.

(** [strings.Cut(s, sep)] for a one-byte separator. *)
Definition Cut (s : gostring) (sep : byte) : gostring * gostring * bool :=
  match IndexByte s sep with
  | Some i => (take i s, drop (S i) s, true)
  | None => (s, [], false)
  end.

Fixpoint Join (parts : list gostring) (sep : gostring) : gostring :=
  match parts with
  | [] => []
  | [p] => p
  | p :: parts' => p ++ sep ++ Join parts' sep
  end.

(** ** Replacing

    [skip] counts the bytes of a match still to be passed over.  An empty
    [old] inserts [new] before every byte and at the end (Go does so before
    every rune, the same thing for ASCII text). *)
Fixpoint replace_from (skip : nat) (s old new : gostring) : gostring :=
  match s with
  | [] => []
  | c :: s' =>
      match skip with
      | S k => replace_from k s' old new
      | O => if HasPrefix s old then new ++ replace_from (length old - 1) s' old new
             else c :: replace_from 0 s' old new
      end
  end.

Definition ReplaceAll (s old new : gostring) : gostring :=
  match old with
  | [] => new ++ flat_map (λ c, c :: new) s
  | _ :: _ => replace_from 0 s old new
  end.

(** ** Trimming

    The UTF-8 encodings of the code points [unicode.IsSpace] accepts. *)
Definition space_encodings : list gostring :=
  map (map byte_of_Z)
    ([[9]; [10]; [11]; [12]; [13]; [32]; [194; 133]; [194; 160]; [225; 154; 128];
      [226; 128; 168]; [226; 128; 169]; [226; 128; 175]; [226; 129; 159]; [227; 128; 128]]
     ++ map (λ n, [226; 128; Z.of_nat n]) (seq 128 11))%Z.

Definition strip_one (encs : list gostring) (s : gostring) : option gostring :=
  match find (HasPrefix s) encs with
  | Some e => Some (drop (length e) s)
  | None => None
  end.

Fixpoint strip_left (fuel : nat) (encs : list gostring) (s : gostring) : gostring :=
  match fuel with
  | O => s
  | S n => match strip_one encs s with
           | Some s' => strip_left n encs s'
           | None => s
           end
  end.

Definition TrimSpace (s : gostring) : gostring :=
  let l := strip_left (length s) space_encodings s in
  reverse (strip_left (length l) (map reverse space_encodings) (reverse l)).

(** ** Decimal numbers *)

Definition is_digit (b : byte) : bool := (48 <=? bval b)%Z && (bval b <=? 57)%Z.
Definition digit_val (b : byte) : Z := (bval b - 48)%Z.
Definition digit_byte (d : Z) : byte := byte_of_Z (48 + d).

(** The decimal digits of [n >= 0], most significant first; [fuel] bounds
    their number. *)
Fixpoint utoa_fuel (fuel : nat) (n : Z) : gostring :=
  match fuel with
  | O => []
  | S k => if (n <? 10)%Z then [digit_byte n]
           else utoa_fuel k (n / 10) ++ [digit_byte (n mod 10)]
  end.
Definition utoa (n : Z) : gostring := utoa_fuel (S (Z.to_nat (Z.log2 n))) n.
(** [%d] *)
Definition itoa (n : Z) : gostring :=
  if (n <? 0)%Z then #"-" ++ utoa (- n) else utoa n.

(** The value of a digit string read after [acc]; [None] on a non-digit. *)
Fixpoint dec_value (acc : Z) (s : gostring) : option Z :=
  match s with
  | [] => Some acc
  | c :: s' => if is_digit c then dec_value (10 * acc + digit_val c) s' else None
  end.

(** [strconv.ParseUint(s, 10, bits)]: no sign, no underscores, leading zeros
    allowed; [None] is a syntax or range error. *)
Definition ParseUint (s : gostring) (bits : Z) : option Z :=
  match s with
  | [] => None
  | _ => match dec_value 0 s with
         | Some v => if (v <? 2 ^ bits)%Z then Some v else None
         | None => None
         end
  end.

(** ** Anchored regular expressions

    [^item item ...$] where an item is a byte class repeated between [min]
    and [max] times.  Go's [$] without the [m] flag matches at the end of
    the text only.  The matcher tries the longest repetition first and backs
    off, which accepts the same strings as any other strategy. *)
Record re_item := { re_class : byte → bool; re_min : nat; re_max : nat }.

Fixpoint re_item_matches (cls : byte → bool) (mn mx : nat) (k : gostring → bool)
    (s : gostring) {struct s} : bool :=
  match s, mx with
  | c :: s', S mx' =>
      (cls c && re_item_matches cls (pred mn) mx' k s')
      || (match mn with O => k s | S _ => false end)
  | _, _ => match mn with O => k s | S _ => false end
  end.

Fixpoint re_match (items : list re_item) (s : gostring) : bool :=
  match items with
  | [] => bool_decide (s = [])
  | it :: items' =>
      re_item_matches (re_class it) (re_min it) (re_max it) (re_match items') s
  end.

Definition in_range (lo hi : Z) (b : byte) : bool := (lo <=? bval b)%Z && (bval b <=? hi)%Z.
Definition is_lower (b : byte) : bool := in_range 97 122 b.

(** ** Lemmas: searching *)

Lemma IndexByte_Some s c i :
  IndexByte s c = Some i ↔ s !! i = Some c ∧ c ∉ take i s.
Proof.
  revert i. induction s as [|b s IH]; intros i; simpl.
  - split; [done | intros [H _]; by rewrite lookup_nil in H].
  - destruct (decide (b = c)) as [->|Hne].
    + destruct i as [|i]; simpl; [set_solver | split; [done | set_solver]].
    + destruct i as [|i]; simpl.
      * split; [destruct (IndexByte s c); done | naive_solver].
      * destruct (IndexByte s c) as [j|] eqn:E; simpl.
        -- split.
           ++ intros [= ->]. destruct (proj1 (IH i) eq_refl). set_solver.
           ++ intros [H1 H2]. f_equal. f_equal.
              assert (Some j = Some i) by (apply IH; set_solver). congruence.
        -- split; [done|]. intros [H1 H2].
           assert (None = Some i) by (apply IH; set_solver). done.
Qed.

Lemma IndexByte_None s c : IndexByte s c = None ↔ c ∉ s.
Proof.
  induction s as [|b s IH]; simpl; [set_solver|].
  destruct (decide (b = c)) as [->|Hne]; [set_solver|].
  destruct (IndexByte s c); simpl; set_solver.
Qed.

Lemma IndexByte_app s c t : c ∉ s → IndexByte (s ++ c :: t) c = Some (length s).
Proof.
  intros H. apply IndexByte_Some. rewrite list_lookup_middle by done.
  by rewrite take_app_length.
Qed.

Lemma LastIndexByte_None s c : LastIndexByte s c = None ↔ c ∉ s.
Proof.
  induction s as [|b s IH]; simpl; [set_solver|].
  destruct (LastIndexByte s c) as [j|]; [set_solver|].
  destruct (decide (b = c)); set_solver.
Qed.

Lemma LastIndexByte_app s c t : c ∉ t → LastIndexByte (s ++ c :: t) c = Some (length s).
Proof.
  intros Ht. induction s as [|b s IH]; simpl.
  - rewrite (proj2 (LastIndexByte_None t c) Ht). by rewrite decide_True.
  - by rewrite IH.
Qed.

Lemma LastIndexByte_Some s c i :
  LastIndexByte s c = Some i → s = take i s ++ c :: drop (S i) s ∧ c ∉ drop (S i) s.
Proof.
  revert i. induction s as [|b s IH]; intros i; simpl; [done|].
  destruct (LastIndexByte s c) as [j|] eqn:E.
  - intros [= <-]. destruct (IH j eq_refl) as [H1 H2]. simpl. split; [by f_equal|done].
  - destruct (decide (b = c)) as [->|]; [|done]. intros [= <-]. simpl.
    rewrite drop_0. split; [done|]. by apply LastIndexByte_None.
Qed.

(** ** Lemmas: substrings *)

Definition infix_of (p s : gostring) : Prop := ∃ a b, s = a ++ p ++ b.

Lemma infix_of_app_l p a b : infix_of p a → infix_of p (a ++ b).
Proof. intros (x & y & ->). exists x, (y ++ b). by rewrite !app_assoc. Qed.
Lemma infix_of_app_r p a b : infix_of p b → infix_of p (a ++ b).
Proof. intros (x & y & ->). exists (a ++ x), y. by rewrite !app_assoc. Qed.
Lemma infix_of_refl p : infix_of p p.
Proof. exists [], []. by rewrite app_nil_r. Qed.
Lemma infix_of_trans p q s : infix_of p q → infix_of q s → infix_of p s.
Proof. intros H (a & b & ->). by apply infix_of_app_r, infix_of_app_l. Qed.
Lemma infix_of_nil p : infix_of p [] → p = [].
Proof. intros (a & b & H). by destruct a, p. Qed.
Lemma infix_of_length p s : infix_of p s → length p ≤ length s.
Proof. intros (a & b & ->). rewrite !length_app. lia. Qed.
#[export] Hint Resolve infix_of_refl infix_of_app_l infix_of_app_r : gocloak.

(** An occurrence cannot cross a byte it does not contain. *)
Lemma infix_of_split p a c b :
  c ∉ p → infix_of p (a ++ c :: b) → infix_of p a ∨ infix_of p b.
Proof.
  intros Hc (x & y & E).
  destruct (decide (length x + length p ≤ length a)) as [Hle|Hgt].
  - left. exists x, (take (length a - length x - length p) y).
    assert (take (length a) (a ++ c :: b) = take (length a) (x ++ p ++ y)) as E' by (by f_equal).
    rewrite take_app_length, !take_app, (take_ge x), (take_ge p) in E' by lia. exact E'.
  - destruct (decide (length a < length x)) as [Hlt|Hge].
    + right. exists (drop (S (length a)) x), y.
      assert (drop (S (length a)) (a ++ c :: b) = drop (S (length a)) (x ++ p ++ y)) as E' by (by f_equal).
      rewrite !drop_app, (drop_ge a) in E' by lia.
      replace (S (length a) - length a) with 1 in E' by lia.
      replace (S (length a) - length x) with 0 in E' by lia. simpl in E'.
      by rewrite !drop_0 in E'.
    + exfalso. apply Hc. apply list_elem_of_lookup. exists (length a - length x).
      assert ((x ++ p ++ y) !! length a = Some c) as L by (rewrite <- E; by apply list_lookup_middle).
      rewrite lookup_app_r, lookup_app_l in L by lia. done.
Qed.

Lemma HasPrefix_true s p : HasPrefix s p = true ↔ ∃ t, s = p ++ t.
Proof.
  revert s. induction p as [|c p IH]; intros s; simpl.
  - split; [eauto | done].
  - destruct s as [|b s]; [split; [done | by intros [? ?]]|].
    rewrite andb_true_iff, bool_decide_eq_true, IH. naive_solver.
Qed.

Lemma HasPrefix_app p t : HasPrefix (p ++ t) p = true.
Proof. apply HasPrefix_true. eauto. Qed.

Lemma HasPrefix_infix s p : HasPrefix s p = true → infix_of p s.
Proof. intros [t ->]%HasPrefix_true. by exists [], t. Qed.

Lemma Index_None s p : Index s p = None ↔ ¬ infix_of p s.
Proof.
  induction s as [|b s IH]; simpl.
  - destruct (HasPrefix [] p) eqn:E.
    + split; [done | intros H; destruct H; by apply HasPrefix_infix].
    + split; [|done]. intros _ H%infix_of_nil. subst. done.
  - destruct (HasPrefix (b :: s) p) eqn:E.
    + split; [done | intros H; destruct H; by apply HasPrefix_infix].
    + rewrite fmap_None, IH. split.
      * intros H (x & y & Ex). destruct x as [|x0 x].
        -- rewrite <- not_true_iff_false in E. apply E, HasPrefix_true. eauto.
        -- apply H. exists x, y. by injection Ex.
      * intros H (x & y & ->). apply H. by exists (b :: x), y.
Qed.

#[export] Instance infix_of_dec p s : Decision (infix_of p s).
Proof.
  destruct (Index s p) eqn:E.
  - left. clear -E. revert n E. induction s as [|b s IH]; intros n; simpl.
    + destruct (HasPrefix [] p) eqn:E; [intros _; by apply HasPrefix_infix | done].
    + destruct (HasPrefix (b :: s) p) eqn:E; [intros _; by apply HasPrefix_infix|].
      destruct (Index s p) as [m|]; [|done]. intros _.
      apply (infix_of_app_r _ [b]), (IH m). done.
  - right. by apply Index_None.
Defined.

Lemma Contains_true s p : Contains s p = true ↔ infix_of p s.
Proof.
  unfold Contains. pose proof (Index_None s p) as HN.
  destruct (Index s p) as [n|].
  - split; [intros _|done]. destruct (decide (infix_of p s)) as [|Hn]; [done|].
    by apply HN in Hn.
  - split; [done|]. intros H. by apply HN in H.
Qed.

(** [LastIndex] finds the last occurrence: the one after which there is no
    other, overlapping ones included. *)
Lemma LastIndex_None s p : LastIndex s p = None ↔ ¬ infix_of p s.
Proof.
  induction s as [|b s IH]; simpl.
  - destruct (HasPrefix [] p) eqn:E.
    + split; [done | intros []; by apply HasPrefix_infix].
    + split; [|done]. intros _ ->%infix_of_nil. done.
  - destruct (LastIndex s p) as [j|].
    + split; [done|]. intros H. destruct H.
      apply (infix_of_app_r _ [b]). destruct (decide (infix_of p s)); [done|].
      by apply IH in n.
    + destruct (HasPrefix (b :: s) p) eqn:E.
      * split; [done | intros []; by apply HasPrefix_infix].
      * split; [intros _|done]. intros (x & y & Ex). destruct x as [|x0 x].
        -- rewrite <- not_true_iff_false in E. apply E, HasPrefix_true. eauto.
        -- apply (proj1 IH eq_refl). exists x, y. by injection Ex.
Qed.

Lemma LastIndex_app x p y :
  p ≠ [] → ¬ infix_of p (tail (p ++ y)) → LastIndex (x ++ p ++ y) p = Some (length x).
Proof.
  intros Hp Hno. induction x as [|b x IH]; simpl.
  - destruct p as [|c p]; [done|]. simpl in *.
    rewrite (proj2 (LastIndex_None (p ++ y) (c :: p)) Hno).
    by rewrite bool_decide_true, HasPrefix_app.
  - by rewrite IH.
Qed.

(** ** Lemmas: replacing *)

Fixpoint join_with (sep : gostring) (t0 : gostring) (segs : list gostring) : gostring :=
  match segs with
  | [] => t0
  | t1 :: segs' => t0 ++ sep ++ join_with sep t1 segs'
  end.

Lemma replace_from_skip k s old new :
  replace_from k s old new = replace_from 0 (drop k s) old new.
Proof.
  revert s. induction k as [|k IH]; intros s; [by rewrite drop_0|].
  destruct s as [|c s]; simpl; [done|apply IH].
Qed.

(** [ReplaceAll] splits the text at the matches and joins it again with the
    replacement; no segment between matches contains [old]. *)
Lemma ReplaceAll_segments s old new :
  old ≠ [] →
  ∃ t0 segs, s = join_with old t0 segs ∧ ReplaceAll s old new = join_with new t0 segs
    ∧ Forall (λ t, ¬ infix_of old t) (t0 :: segs).
Proof.
  intros Hold. assert (ReplaceAll s old new = replace_from 0 s old new) as -> by (by destruct old).
  remember (length s) as n eqn:En. revert s En.
  induction (lt_wf n) as [n _ IH]. intros s ->.
  destruct s as [|c s].
  { exists [], []. split_and!; [done..|]. constructor; [|done].
    by intros ?%infix_of_nil. }
  cbn [replace_from]. destruct (HasPrefix (c :: s) old) eqn:E.
  - apply HasPrefix_true in E as [t Et].
    destruct old as [|o old]; [done|]. injection Et as -> Et.
    rewrite replace_from_skip. replace (length (o :: old) - 1) with (length old) by (simpl; lia).
    rewrite Et, drop_app_length.
    destruct (IH (length t)) with (s := t) as (t0 & segs & H1 & H2 & H3); [|done|].
    { rewrite Et. simpl. rewrite length_app. lia. }
    exists [], (t0 :: segs). split_and!.
    + simpl. by rewrite <- H1.
    + simpl. by rewrite <- H2.
    + constructor; [by intros ?%infix_of_nil | done].
  - destruct (IH (length s)) with (s := s) as (t0 & segs & H1 & H2 & H3); [simpl; lia|done|].
    exists (c :: t0), segs. split_and!.
    + rewrite H1. by destruct segs.
    + rewrite H2. by destruct segs.
    + apply Forall_cons in H3 as [H3 H4]. constructor; [|done].
      intros (x & y & Ex). destruct x as [|x0 x].
      * rewrite <- not_true_iff_false in E. apply E. rewrite H1.
        apply HasPrefix_true. simpl in Ex.
        destruct segs; simpl in *; [eauto|].
        rewrite app_comm_cons, Ex, <- app_assoc. eauto.
      * injection Ex as -> Ex. apply H3. by exists x, y.
Qed.

Lemma join_with_segments sep t0 segs : Forall (λ t, infix_of t (join_with sep t0 segs)) (t0 :: segs).
Proof.
  revert t0. induction segs as [|t1 segs IH]; intros t0; simpl.
  - constructor; eauto with gocloak.
  - constructor; [eauto with gocloak|].
    eapply Forall_impl; [apply IH|]. simpl. eauto with gocloak.
Qed.

(** If a string without brackets occurs in the text joined with a bracketed
    placeholder, it occurs in one of the segments or inside the brackets. *)
Lemma infix_of_join_bracketed p lb core rb t0 segs :
  lb ∉ p → rb ∉ p → infix_of p (join_with (lb :: core ++ [rb]) t0 segs) →
  infix_of p core ∨ Exists (infix_of p) (t0 :: segs).
Proof.
  intros Hl Hr. revert t0. induction segs as [|t1 segs IH]; intros t0; simpl.
  - intros H. right. by left.
  - intros H. apply infix_of_split in H as [H|H]; [right; by left| |done].
    rewrite <- app_assoc in H. simpl in H.
    apply infix_of_split in H as [H|H]; [by left| |done].
    destruct (IH _ H) as [?|?]; [by left|]. right. by right.
Qed.

(** A bracket-free [q] that the text does not contain still does not occur
    after replacing [old] by a bracketed placeholder, unless it hides in the
    placeholder itself. *)
Lemma ReplaceAll_absent q s old lb core rb :
  old ≠ [] → lb ∉ q → rb ∉ q → ¬ infix_of q core →
  (q = old ∨ ¬ infix_of q s) → ¬ infix_of q (ReplaceAll s old (lb :: core ++ [rb])).
Proof.
  intros Hold Hl Hr Hc Hq.
  destruct (ReplaceAll_segments s old (lb :: core ++ [rb]) Hold) as (t0 & segs & Es & -> & Hno).
  intros [H|H]%infix_of_join_bracketed; [done| |done..].
  apply Exists_exists in H as (t & Ht & Hinf).
  destruct Hq as [->|Hq].
  - rewrite Forall_forall in Hno. by eapply Hno.
  - apply Hq. rewrite Es. eapply infix_of_trans; [exact Hinf|].
    pose proof (join_with_segments old t0 segs) as HF. rewrite Forall_forall in HF. by apply HF.
Qed.

(** ** Lemmas: decimal numbers *)

Lemma digit_byte_val d : (0 ≤ d < 10)%Z → bval (digit_byte d) = (48 + d)%Z.
Proof. intros. unfold digit_byte. rewrite bval_byte_of_Z. apply Z.mod_small. lia. Qed.

Lemma is_digit_digit_byte d : (0 ≤ d < 10)%Z → is_digit (digit_byte d) = true.
Proof. intros. unfold is_digit. rewrite digit_byte_val by done. apply andb_true_iff. lia. Qed.

Lemma digit_val_digit_byte d : (0 ≤ d < 10)%Z → digit_val (digit_byte d) = d.
Proof. intros. unfold digit_val. rewrite digit_byte_val by done. lia. Qed.

Lemma dec_value_app acc s t :
  dec_value acc (s ++ t) = dec_value acc s ≫= λ v, dec_value v t.
Proof.
  revert acc. induction s as [|c s IH]; intros acc; simpl; [done|].
  destruct (is_digit c); [apply IH|done].
Qed.

Lemma utoa_fuel_value fuel n :
  (0 ≤ n < 10 ^ Z.of_nat fuel)%Z → dec_value 0 (utoa_fuel fuel n) = Some n.
Proof.
  revert n. induction fuel as [|k IH]; intros n Hn; [change (10 ^ Z.of_nat 0)%Z with 1%Z in Hn; cbn; f_equal; lia|].
  cbn [utoa_fuel]. destruct (n <? 10)%Z eqn:E; bool_props.
  - simpl. rewrite is_digit_digit_byte, digit_val_digit_byte by lia. done.
  - rewrite Nat2Z.inj_succ, Z.pow_succ_r in Hn by lia.
    rewrite dec_value_app, IH.
    + simpl. pose proof (Z.mod_pos_bound n 10 eq_refl).
      rewrite is_digit_digit_byte, digit_val_digit_byte by lia.
      f_equal. pose proof (Z.div_mod n 10). lia.
    + split; [apply Z.div_pos; lia | apply Z.div_lt_upper_bound; lia].
Qed.

Lemma utoa_fuel_enough n : (0 ≤ n)%Z → (n < 10 ^ Z.of_nat (S (Z.to_nat (Z.log2 n))))%Z.
Proof.
  intros Hn. destruct (decide (n = 0)%Z) as [->|]; [done|].
  rewrite Nat2Z.inj_succ, Z2Nat.id by apply Z.log2_nonneg.
  destruct (Z.log2_spec n) as [_ H]; [lia|].
  eapply Z.lt_le_trans; [exact H|]. apply Z.pow_le_mono_l. lia.
Qed.

Lemma utoa_value n : (0 ≤ n)%Z → dec_value 0 (utoa n) = Some n.
Proof. intros. apply utoa_fuel_value. by split; [|apply utoa_fuel_enough]. Qed.

Lemma utoa_fuel_digits fuel n : (0 ≤ n)%Z → Forall (λ c, is_digit c = true) (utoa_fuel fuel n).
Proof.
  revert n. induction fuel as [|k IH]; intros n Hn; cbn [utoa_fuel]; [done|].
  destruct (n <? 10)%Z eqn:E; bool_props.
  - constructor; [|done]. apply is_digit_digit_byte. lia.
  - apply Forall_app. split; [apply IH, Z.div_pos; lia|].
    constructor; [|done]. apply is_digit_digit_byte, Z.mod_pos_bound. lia.
Qed.

Lemma utoa_digits n : (0 ≤ n)%Z → Forall (λ c, is_digit c = true) (utoa n).
Proof. apply utoa_fuel_digits. Qed.

Lemma utoa_no_byte c n : (0 ≤ n)%Z → is_digit c = false → c ∉ utoa n.
Proof.
  intros Hn Hc Hin. pose proof (utoa_digits n Hn) as HF. rewrite Forall_forall in HF.
  apply HF in Hin. congruence.
Qed.

Lemma utoa_nonempty n : utoa n ≠ [].
Proof.
  unfold utoa. cbn [utoa_fuel]. destruct (n <? 10)%Z; [done|].
  by intros [_ ?]%app_eq_nil.
Qed.

Lemma utoa_inj n m : (0 ≤ n)%Z → (0 ≤ m)%Z → utoa n = utoa m → n = m.
Proof.
  intros Hn Hm E. apply (f_equal (dec_value 0)) in E.
  rewrite !utoa_value in E by done. congruence.
Qed.

(** Printing a number in range and parsing it back. *)
Lemma ParseUint_utoa n bits : (0 ≤ n < 2 ^ bits)%Z → ParseUint (utoa n) bits = Some n.
Proof.
  intros [H1 H2]. unfold ParseUint. pose proof (utoa_nonempty n).
  destruct (utoa n) as [|c s] eqn:E; [done|]. rewrite <- E, utoa_value by done.
  by rewrite (proj2 (Z.ltb_lt _ _) H2).
Qed.

Lemma dec_value_nonneg acc s v : (0 ≤ acc)%Z → dec_value acc s = Some v → (0 ≤ v)%Z.
Proof.
  revert acc. induction s as [|c s IH]; intros acc Ha; simpl; [naive_solver|].
  destruct (is_digit c) eqn:E; [|done]. apply IH.
  unfold is_digit in E. bool_props. unfold digit_val. lia.
Qed.

Lemma ParseUint_range s bits n : ParseUint s bits = Some n → (0 ≤ n < 2 ^ bits)%Z.
Proof.
  unfold ParseUint. destruct s as [|c s]; [done|].
  destruct (dec_value 0 (c :: s)) as [v|] eqn:E; [|done].
  destruct (v <? 2 ^ bits)%Z eqn:E2; [|done]. intros [= <-]. bool_props.
  split; [by eapply dec_value_nonneg|done].
Qed.

(** ** Lemmas: regular expressions *)

Lemma re_item_matches_spec cls mn mx k s :
  re_item_matches cls mn mx k s = true ↔
  ∃ n, mn ≤ n ∧ n ≤ length s ∧ n ≤ mx ∧ Forall (λ c, cls c = true) (take n s) ∧ k (drop n s) = true.
Proof.
  revert mn mx. induction s as [|c s IH]; intros mn mx; simpl.
  - destruct mn; split.
    + intros H. exists 0. repeat split; simpl; [lia..|done|done].
    + intros (n & ? & ? & _ & _ & H). by replace n with 0 in H by lia.
    + done.
    + intros (n & ? & ? & _). lia.
  - destruct mx as [|mx].
    + destruct mn; split.
      * intros H. exists 0. repeat split; simpl; [lia..|done|done].
      * intros (n & ? & ? & ? & _ & H). by replace n with 0 in H by lia.
      * done.
      * intros (n & ? & ? & ? & _). lia.
    + rewrite orb_true_iff, andb_true_iff, IH. split.
      * intros [[Hc (n & H1 & H2 & H3 & H4 & H5)]|H].
        -- exists (S n). repeat split; [lia..| |done]. simpl. by constructor.
        -- destruct mn; [|done]. exists 0. repeat split; simpl; [lia..|done|done].
      * intros (n & H1 & H2 & H3 & H4 & H5). destruct n as [|n].
        -- right. destruct mn; [done|lia].
        -- left. simpl in *. apply Forall_cons in H4 as [? ?].
           split; [done|]. exists n. repeat split; [lia..|done|done].
Qed.

(** A leading class followed by a bounded run, anchored at both ends: the
    shape of every pattern the program compiles. *)
Definition head_tail_re (hd tl : byte → bool) (mx : nat) : list re_item :=
  [ {| re_class := hd; re_min := 1; re_max := 1 |};
    {| re_class := tl; re_min := 0; re_max := mx |} ].

Lemma head_tail_re_match hd tl mx s :
  re_match (head_tail_re hd tl mx) s = true ↔
  ∃ c t, s = c :: t ∧ hd c = true ∧ Forall (λ c, tl c = true) t ∧ length t ≤ mx.
Proof.
  unfold head_tail_re. cbn [re_match re_class re_min re_max].
  rewrite re_item_matches_spec. split.
  - intros (n & H1 & H2 & H3 & H4 & H5). assert (n = 1) as -> by lia.
    apply re_item_matches_spec in H5 as (m & G1 & G2 & G3 & G4 & G5).
    destruct s as [|c t]; simpl in *; [lia|]. rewrite drop_0 in *.
    apply bool_decide_eq_true in G5. exists c, t.
    apply (f_equal length) in G5. rewrite length_drop in G5. simpl in G5.
    rewrite take_ge in G4 by lia. apply Forall_cons in H4 as [? _].
    split_and!; [done..|lia].
  - intros (c & t & -> & H1 & H2 & H3). exists 1. simpl. rewrite drop_0.
    split_and!; [lia..|by repeat constructor|].
    apply re_item_matches_spec. exists (length t). rewrite firstn_all, drop_all.
    split_and!; [lia..|done|by apply bool_decide_eq_true].
Qed.
