(* ===== verification/GoSlog.v ===== *)
(** * [log/slog] as the program uses it

    A line is what a call hands to the logger: its level, its message and its
    attributes in order.  How a handler renders it is not modelled. *)

From S2P Require Import Prelude GoStrings.

Inductive level := Info | Warn | Error.
#[export] Instance level_eq_dec : EqDecision level.
Proof. solve_decision. Defined.

Inductive value := Text (s : gostring) | Int (n : Z) | Names (l : list gostring).
#[export] Instance value_eq_dec : EqDecision value.
Proof. solve_decision. Defined.

Record line := { ln_level : level; ln_msg : gostring; ln_attrs : list (gostring * value) }.
#[export] Instance line_eq_dec : EqDecision line.
Proof. solve_decision. Defined.

(** The texts of a value, and the attributes of a line under a key. *)
Definition value_texts (v : value) : list gostring :=
  match v with Text s => [s] | Int _ => [] | Names l => l end.
Definition attr (k : gostring) (ln : line) : list value :=
  omap (λ kv, if bool_decide (fst kv = k) then Some (snd kv) else None) (ln_attrs ln).
Definition line_texts (ln : line) : list gostring :=
  ln_msg ln :: concat (value_texts ∘ snd <$> ln_attrs ln).

(** Nobody needs to act on it. *)
Definition quiet_line (ln : line) : bool := negb (bool_decide (ln_level ln = Error)).
Definition quiet (lns : list line) : bool := forallb quiet_line lns.

Lemma quiet_app l1 l2 : quiet (l1 ++ l2) = quiet l1 && quiet l2.
Proof. apply forallb_app. Qed.

Lemma quiet_filter lns : quiet lns = true ↔ length (List.filter (λ ln, negb (quiet_line ln)) lns) = 0.
Proof.
  induction lns as [|ln lns IH]; [done|]. cbn. destruct (quiet_line ln); cbn; [exact IH|].
  split; [done|lia].
Qed.

Lemma elem_of_attr k v ln : v ∈ attr k ln ↔ (k, v) ∈ ln_attrs ln.
Proof.
  unfold attr. rewrite list_elem_of_omap. split.
  - intros ([k' v'] & Hin & H). cbn in H. case_bool_decide; [|done]. by simplify_eq.
  - intros H. exists (k, v). split; [done|]. cbn. by rewrite bool_decide_true.
Qed.
