(* ===== verification/GoPath.v ===== *)
(** * [path/filepath] on Unix

    [Base], [Dir], [Clean], [Join] and [Abs], which are functions of the path's
    text; the working directory is an argument of [Abs]. *)

From S2P Require Import Prelude GoStrings.

(** ** [Base] *)

(** [filepath.Base] on a slash-separated path. *)
Definition strip_slashes (s : gostring) : gostring :=
  reverse ((fix go s := match s with
                        | c :: s' => if bool_decide (c = "/"%byte) then go s' else s
                        | [] => [] end) (reverse s)).
Definition Base (path : gostring) : gostring :=
  if bool_decide (path = []) then #"."
  else let p := strip_slashes path in
       let b := match LastIndexByte p "/"%byte with Some i => drop (S i) p | None => p end in
       if bool_decide (b = []) then #"/" else b.

(** ** [Clean] and [Join] *)

Definition slash : byte := "/"%byte.

(** The elements of a path, between its slashes. *)
Fixpoint segments (cur s : gostring) : list gostring :=
  match s with
  | [] => [cur]
  | c :: s' => if bool_decide (c = slash) then cur :: segments [] s' else segments (cur ++ [c]) s'
  end.

Definition dot : gostring := #".".
Definition dotdot : gostring := #"..".

(** One element of [Clean], on the elements kept so far, last first. *)
Definition clean_step (rooted : bool) (out : list gostring) (seg : gostring) : list gostring :=
  if bool_decide (seg = []) || bool_decide (seg = dot) then out
  else if bool_decide (seg = dotdot)
       then match out with
            | last :: out' => if bool_decide (last = dotdot) then seg :: out else out'
            | [] => if rooted then [] else [seg]
            end
       else seg :: out.
Definition rooted (path : gostring) : bool := match path with c :: _ => bool_decide (c = slash) | [] => false end.
Definition clean_elems (path : gostring) : list gostring :=
  reverse (foldl (clean_step (rooted path)) [] (segments [] path)).
Definition render_path (root : bool) (elems : list gostring) : gostring :=
  match elems, root with
  | [], false => dot
  | _, true => slash :: Join elems [slash]
  | _, false => Join elems [slash]
  end.
Definition Clean (path : gostring) : gostring := render_path (rooted path) (clean_elems path).

(** [filepath.Join(dir, file)] *)
Definition filepath_Join (dir file : gostring) : gostring :=
  match dir, file with
  | [], [] => []
  | [], _ => Clean file
  | _, [] => Clean dir
  | _, _ => Clean (dir ++ [slash] ++ file)
  end.

(** ** [Dir] and [Abs] *)

Definition Dir (path : gostring) : gostring :=
  Clean (match LastIndexByte path slash with Some i => take (S i) path | None => [] end).

(** [wd] is what [os.Getwd] returns. *)
Definition filepath_Abs (wd : result gostring) (path : gostring) : result gostring :=
  if rooted path then Ok (Clean path) else let? d := wd in Ok (filepath_Join d path).

Example paths :
  (Base (#"/etc/gocloak/peers.yaml"), Dir (#"/etc/gocloak/peers.yaml"), Dir (#"peers.yaml"), Dir (#"/peers.yaml"))
  = (#"peers.yaml", #"/etc/gocloak", #".", #"/")
  ∧ filepath_Abs (Ok (#"/srv")) (#"conf/../peers.yaml") = Ok (#"/srv/peers.yaml")
  ∧ filepath_Abs (Err (errors_New [])) (#"/a//b/./c") = Ok (#"/a/b/c").
Proof. split_and!; by vm_compute. Qed.

(** ** Lemmas *)

Lemma segments_app cur s t :
  segments cur (s ++ slash :: t) = segments cur s ++ segments [] t.
Proof.
  revert cur. induction s as [|c s IH]; intros cur; cbn [segments app].
  - by rewrite bool_decide_true.
  - case_bool_decide; [by rewrite IH|apply IH].
Qed.

Lemma segments_plain cur s : slash ∉ s → segments cur s = [cur ++ s].
Proof.
  revert cur. induction s as [|c s IH]; intros cur Hs; cbn [segments]; [by rewrite app_nil_r|].
  apply not_elem_of_cons in Hs as [Hc Hs]. rewrite bool_decide_false by done.
  rewrite IH by done. by rewrite <- app_assoc.
Qed.

Definition plain_elem (f : gostring) : Prop := (slash ∉ f) ∧ f ≠ [] ∧ f ≠ dot ∧ f ≠ dotdot.

(** A plain name joined to a directory is an entry of that directory. *)
Lemma filepath_Join_plain dir f :
  dir ≠ [] → plain_elem f →
  filepath_Join dir f = render_path (rooted dir) (clean_elems dir ++ [f]).
Proof.
  intros Hd (Hs & Hne & H1 & H2). unfold filepath_Join. destruct dir as [|c dir]; [done|].
  destruct f as [|b f]; [done|]. set (f' := b :: f) in *. unfold Clean.
  assert (rooted ((c :: dir) ++ [slash] ++ f') = rooted (c :: dir)) as -> by done.
  f_equal. unfold clean_elems. assert (rooted ((c :: dir) ++ [slash] ++ f') = rooted (c :: dir)) as -> by done.
  change ([slash] ++ f') with (slash :: f'). rewrite segments_app, foldl_app, (segments_plain [] f') by done.
  cbn [app foldl]. unfold clean_step at 1. rewrite !bool_decide_false by done. cbn [orb].
  by rewrite reverse_cons.
Qed.

Lemma Join_snoc elems f : elems ≠ [] → Join (elems ++ [f]) [slash] = Join elems [slash] ++ slash :: f.
Proof.
  induction elems as [|e elems IH]; [done|]. intros _. destruct elems as [|e' elems]; [done|].
  cbn [app Join] in *. rewrite IH by done. by rewrite <- !app_assoc.
Qed.

Lemma render_path_snoc r elems f :
  render_path r (elems ++ [f]) = (if r then slash :: (if decide (elems = []) then f else Join elems [slash] ++ slash :: f)
                             else if decide (elems = []) then f else Join elems [slash] ++ slash :: f).
Proof.
  destruct (decide (elems = [])) as [->|Hne]; [by destruct r|].
  unfold render_path. destruct (elems ++ [f]) eqn:E; [by destruct elems|]. rewrite <- E, Join_snoc by done.
  by destruct r.
Qed.

Lemma filepath_Join_inj dir f g :
  dir ≠ [] → plain_elem f → plain_elem g → filepath_Join dir f = filepath_Join dir g → f = g.
Proof.
  intros Hd Hf Hg. rewrite !filepath_Join_plain, !render_path_snoc by done.
  destruct (rooted dir), (decide _); intros E; simplify_eq; try done.
Qed.
