(* ===== verification/GoEncoding.v ===== *)
(** * [encoding/hex] and [encoding/base64] as the program uses them

    [base64.StdEncoding] is the padded standard alphabet; its decoder skips
    carriage returns and newlines anywhere and, not being in strict mode,
    ignores the unused trailing bits of the last quantum. *)

From S2P Require Import Prelude GoStrings.

(** ** Hexadecimal *)

Definition hex_digit (n : Z) : byte := byte_of_Z (if (n <? 10)%Z then 48 + n else 87 + n)%Z.
Definition hex_byte (b : byte) : gostring := [hex_digit (bval b / 16); hex_digit (bval b mod 16)].
(** [hex.EncodeToString] *)
Definition hex_encode (s : gostring) : gostring := flat_map hex_byte s.

Definition is_hex_lower (b : byte) : bool := is_digit b || in_range 97 102 b.

(** ** Base64 *)

Definition b64_char (v : Z) : byte :=
  byte_of_Z (if v <? 26 then 65 + v else if v <? 52 then 71 + v
             else if v <? 62 then v - 4 else if v =? 62 then 43 else 47)%Z.

Definition b64_val (b : byte) : option Z :=
  let c := bval b in
  if (65 <=? c)%Z && (c <=? 90)%Z then Some (c - 65)%Z
  else if (97 <=? c)%Z && (c <=? 122)%Z then Some (c - 71)%Z
  else if (48 <=? c)%Z && (c <=? 57)%Z then Some (c + 4)%Z
  else if (c =? 43)%Z then Some 62%Z
  else if (c =? 47)%Z then Some 63%Z
  else None.

Definition pad : byte := "="%byte.
Definition is_newline (b : byte) : bool :=
  bool_decide (b = byte_of_Z 10) || bool_decide (b = byte_of_Z 13).

(** [base64.StdEncoding.EncodeToString] *)
Fixpoint b64_encode (s : gostring) : gostring :=
  match s with
  | a :: b :: c :: rest =>
      let v := (bval a * 65536 + bval b * 256 + bval c)%Z in
      b64_char (v / 262144) :: b64_char (v / 4096 mod 64)
        :: b64_char (v / 64 mod 64) :: b64_char (v mod 64) :: b64_encode rest
  | [a; b] =>
      let v := (bval a * 65536 + bval b * 256)%Z in
      [b64_char (v / 262144); b64_char (v / 4096 mod 64); b64_char (v / 64 mod 64); pad]
  | [a] =>
      let v := (bval a * 65536)%Z in
      [b64_char (v / 262144); b64_char (v / 4096 mod 64); pad; pad]
  | [] => []
  end.

Fixpoint b64_quanta (s : gostring) : option gostring :=
  match s with
  | [] => Some []
  | c1 :: c2 :: c3 :: c4 :: rest =>
      match b64_val c1, b64_val c2, b64_val c3, b64_val c4 with
      | Some x, Some y, Some z, Some w =>
          t ← b64_quanta rest;
          Some (byte_of_Z (x * 4 + y / 16) :: byte_of_Z (y mod 16 * 16 + z / 4)
                :: byte_of_Z (z mod 4 * 64 + w) :: t)
      | Some x, Some y, Some z, None =>
          if decide (c4 = pad ∧ rest = []) then
            Some [byte_of_Z (x * 4 + y / 16); byte_of_Z (y mod 16 * 16 + z / 4)]
          else None
      | Some x, Some y, None, _ =>
          if decide (c3 = pad ∧ c4 = pad ∧ rest = []) then Some [byte_of_Z (x * 4 + y / 16)]
          else None
      | _, _, _, _ => None
      end
  | _ => None
  end.

(** [base64.StdEncoding.DecodeString]; [None] is a [CorruptInputError]. *)
Definition b64_decode (s : gostring) : option gostring :=
  b64_quanta (List.filter (λ b, negb (is_newline b)) s).

(** ** Lemmas *)

Ltac zdiv := Z.to_euclidean_division_equations; lia.

Lemma hex_digit_lower n : (0 ≤ n < 16)%Z → is_hex_lower (hex_digit n) = true.
Proof.
  intros Hn. unfold is_hex_lower, is_digit, in_range, hex_digit.
  rewrite bval_byte_of_Z, Z.mod_small by (destruct (n <? 10)%Z; lia).
  destruct (n <? 10)%Z eqn:E; bool_props;
    apply orb_true_iff; rewrite !andb_true_iff, !Z.leb_le; lia.
Qed.

Lemma hex_encode_lower s : Forall (λ c, is_hex_lower c = true) (hex_encode s).
Proof.
  induction s as [|b s IH]; simpl; [done|]. pose proof (bval_range b).
  repeat constructor; [apply hex_digit_lower; zdiv..|done].
Qed.

Lemma hex_encode_length s : length (hex_encode s) = 2 * length s.
Proof. induction s; simpl; [done|]. lia. Qed.

Lemma hex_digit_inj n m : (0 ≤ n < 16)%Z → (0 ≤ m < 16)%Z → hex_digit n = hex_digit m → n = m.
Proof.
  intros ?? E%(f_equal bval). unfold hex_digit in E. rewrite !bval_byte_of_Z in E.
  destruct (n <? 10)%Z eqn:?, (m <? 10)%Z eqn:?; bool_props; rewrite !Z.mod_small in E; lia.
Qed.

Lemma hex_encode_inj s t : hex_encode s = hex_encode t → s = t.
Proof.
  revert t. induction s as [|b s IH]; intros [|c t]; simpl; [done..|].
  pose proof (bval_range b). pose proof (bval_range c). intros [= E1 E2 E3].
  apply hex_digit_inj in E1; [|zdiv..]. apply hex_digit_inj in E2; [|zdiv..].
  f_equal; [|by apply IH]. apply bval_inj. zdiv.
Qed.

Lemma b64_val_char v : (0 ≤ v < 64)%Z → b64_val (b64_char v) = Some v.
Proof.
  intros Hv. assert (forallb (λ n, bool_decide (b64_val (b64_char (Z.of_nat n)) = Some (Z.of_nat n)))
    (seq 0 64) = true) as H by (vm_compute; reflexivity).
  rewrite forallb_forall in H. specialize (H (Z.to_nat v)).
  rewrite Z2Nat.id, bool_decide_eq_true in H by lia. apply H, in_seq. lia.
Qed.

(** Every character of an encoding is alphabet or padding. *)
Definition b64_alphabet (b : byte) : bool :=
  bool_decide (is_Some (b64_val b)) || bool_decide (b = pad).

Lemma b64_char_alphabet v : (0 ≤ v < 64)%Z → b64_alphabet (b64_char v) = true.
Proof.
  intros Hv. unfold b64_alphabet. rewrite b64_val_char by done.
  by rewrite bool_decide_true by eauto.
Qed.

(** Induction three bytes at a time, the way the encoder consumes its input. *)
Lemma list_ind3 {A} (P : list A → Prop) :
  P [] → (∀ a, P [a]) → (∀ a b, P [a; b]) →
  (∀ a b c l, P l → P (a :: b :: c :: l)) → ∀ l, P l.
Proof.
  intros H0 H1 H2 H3 l.
  enough (P l ∧ (∀ a, P (a :: l)) ∧ (∀ a b, P (a :: b :: l))) by tauto.
  induction l as [|x l (IH1 & IH2 & IH3)]; eauto.
Qed.

(** The bounds of the bytes in the context, for [zdiv]. *)
Ltac byte_bounds :=
  repeat match goal with
  | b : Byte.byte |- _ =>
      lazymatch goal with
      | _ : (0 ≤ bval b < 256)%Z |- _ => fail
      | _ => pose proof (bval_range b)
      end
  end.

Lemma b64_encode_alphabet s : Forall (λ c, b64_alphabet c = true) (b64_encode s).
Proof.
  induction s as [|a|a b|a b c s IH] using list_ind3; simpl; byte_bounds;
    repeat (constructor; [first [done | apply b64_char_alphabet; zdiv]|]); done.
Qed.

Lemma b64_alphabet_not_newline b : b64_alphabet b = true → negb (is_newline b) = true.
Proof.
  revert b. apply (byte_forall (λ b, b64_alphabet b = true → negb (is_newline b) = true)).
  vm_compute. reflexivity.
Qed.

Lemma b64_alphabet_not_colon b : b64_alphabet b = true → b ≠ ":"%byte.
Proof. intros H ->. by vm_compute in H. Qed.

Lemma filter_all_true {A} (f : A → bool) l :
  Forall (λ x, f x = true) l → List.filter f l = l.
Proof. induction 1 as [|x l Hx _ IH]; simpl; [done|]. by rewrite Hx, IH. Qed.

Lemma b64_val_pad : b64_val pad = None.
Proof. reflexivity. Qed.

Lemma byte_of_Z_eq z b : z = bval b → byte_of_Z z = b.
Proof. intros ->. apply byte_of_Z_bval. Qed.

Lemma b64_quanta_encode s : b64_quanta (b64_encode s) = Some s.
Proof.
  induction s as [|a|a b|a b c s IH] using list_ind3; byte_bounds; cbn [b64_encode b64_quanta];
    rewrite ?b64_val_char, ?b64_val_pad by zdiv; [done|..].
  - rewrite decide_True by done. do 2 f_equal. apply byte_of_Z_eq. zdiv.
  - rewrite decide_True by done. do 2 f_equal; [|f_equal]; apply byte_of_Z_eq; zdiv.
  - rewrite IH. simpl. do 2 f_equal; [|f_equal; [|f_equal]]; apply byte_of_Z_eq; zdiv.
Qed.

(** Encoding and decoding again gives the bytes back. *)
Lemma b64_decode_encode s : b64_decode (b64_encode s) = Some s.
Proof.
  unfold b64_decode. rewrite filter_all_true; [apply b64_quanta_encode|].
  eapply Forall_impl; [apply b64_encode_alphabet|]. simpl. apply b64_alphabet_not_newline.
Qed.
