(* ===== verification/GoNetip.v ===== *)
(** * [net/netip]: addresses, address-ports, prefixes, and their text forms

    An [Addr] is the zero (invalid) address, a 32-bit IPv4 value or a
    128-bit IPv6 value with a zone; Go's [==] on [netip.Addr] is equality
    here.  [ParseAddr], [ParseAddrPort], [String], [Unmap] and
    [Prefix.Contains] follow the library's code, so two spellings of one
    address parse to values that differ exactly where they do in Go. *)

From S2P Require Import Prelude GoStrings GoEncoding.

Inductive Addr :=
  | AddrNone
  | Addr4 (v : Z)
  | Addr6 (v : Z) (zone : gostring).

#[export] Instance Addr_eq_dec : EqDecision Addr.
Proof. solve_decision. Defined.

Definition Addr_to_sum (a : Addr) : unit + (Z + Z * gostring) :=
  match a with
  | AddrNone => inl ()
  | Addr4 v => inr (inl v)
  | Addr6 v z => inr (inr (v, z))
  end.
Definition Addr_of_sum (s : unit + (Z + Z * gostring)) : Addr :=
  match s with
  | inl _ => AddrNone
  | inr (inl v) => Addr4 v
  | inr (inr (v, z)) => Addr6 v z
  end.
#[export] Instance Addr_countable : Countable Addr.
Proof. refine (inj_countable' Addr_to_sum Addr_of_sum _). by intros [| |]. Defined.

Record AddrPort := { ap_ip : Addr; ap_port : Z }.
#[export] Instance AddrPort_eq_dec : EqDecision AddrPort.
Proof. solve_decision. Defined.
Definition AddrPort_zero : AddrPort := {| ap_ip := AddrNone; ap_port := 0 |}.
Definition AddrPortFrom (a : Addr) (p : Z) : AddrPort := {| ap_ip := a; ap_port := p |}.

Record Prefix := { pfx_ip : Addr; pfx_bits : Z }.

(** ** Predicates and conversions *)

Definition IsValid (a : Addr) : bool := match a with AddrNone => false | _ => true end.
Definition Is4 (a : Addr) : bool := match a with Addr4 _ => true | _ => false end.
Definition Is6 (a : Addr) : bool := match a with Addr6 _ _ => true | _ => false end.
Definition Is4In6 (a : Addr) : bool :=
  match a with Addr6 v _ => (v / 2 ^ 32 =? 65535)%Z | _ => false end.
Definition Unmap (a : Addr) : Addr :=
  match a with
  | Addr6 v _ => if Is4In6 a then Addr4 (v mod 2 ^ 32) else a
  | _ => a
  end.
Definition IsUnspecified (a : Addr) : bool := bool_decide (a = Addr4 0 ∨ a = Addr6 0 []).
Definition Zone (a : Addr) : gostring := match a with Addr6 _ z => z | _ => [] end.
Definition ap_IsValid (ap : AddrPort) : bool := IsValid (ap_ip ap).

(** Big-endian value of a list of octets. *)
Definition be_value (l : list Z) : Z := fold_left (λ acc b, acc * 256 + b)%Z l 0%Z.
Definition octet (v : Z) (k : Z) : Z := (v / 2 ^ (8 * k) mod 256)%Z.
Definition As4 (a : Addr) : list Z :=
  match a with
  | Addr4 v => [octet v 3; octet v 2; octet v 1; octet v 0]
  | _ => []
  end.
Definition AddrFrom4 (l : list Z) : Addr := Addr4 (be_value l).

(** [netip.AddrFromSlice] *)
Definition AddrFromSlice (s : gostring) : option Addr :=
  match length s with
  | 4 => Some (Addr4 (be_value (bval <$> s)))
  | 16 => Some (Addr6 (be_value (bval <$> s)) [])
  | _ => None
  end.

Definition Masked (p : Prefix) : Prefix :=
  match pfx_ip p with
  | Addr4 v => let m := (2 ^ (32 - pfx_bits p))%Z in
               {| pfx_ip := Addr4 (v / m * m); pfx_bits := pfx_bits p |}
  | _ => p
  end.

(** [Prefix.Contains] for an IPv4 prefix: an address of another family, a
    mapped one included, and an address with a zone are outside. *)
Definition Contains4 (p : Prefix) (a : Addr) : bool :=
  match pfx_ip p, a with
  | Addr4 pv, Addr4 v => (Z.shiftr (Z.lxor v pv) (32 - pfx_bits p) =? 0)%Z
  | _, _ => false
  end.

(** ** Parsing *)

(** [parseIPv4Fields].  [digLen = 0] at a dot means the dot is first or
    follows another dot. *)
Fixpoint ipv4_fields (s : gostring) (val digLen : Z) (fields : list Z) : option (list Z) :=
  match s with
  | [] => if (length fields <? 3) then None else Some (fields ++ [val])
  | c :: s' =>
      if is_digit c then
        if ((digLen =? 1) && (val =? 0))%Z then None
        else let val' := (val * 10 + digit_val c)%Z in
             if (255 <? val')%Z then None else ipv4_fields s' val' (digLen + 1) fields
      else if bool_decide (c = "."%byte) then
        if (digLen =? 0)%Z || bool_decide (s' = []) then None
        else if (length fields =? 3) then None
        else ipv4_fields s' 0 0 (fields ++ [val])
      else None
  end.

Definition parseIPv4 (s : gostring) : option Addr :=
  AddrFrom4 <$> ipv4_fields s 0 0 [].

Definition hex_val (c : byte) : option Z :=
  if is_digit c then Some (digit_val c)
  else if in_range 97 102 c then Some (bval c - 87)%Z
  else if in_range 65 70 c then Some (bval c - 55)%Z
  else None.

(** The hex digits of one group: their number, value and what follows. *)
Fixpoint hex_group (off : nat) (acc : Z) (s : gostring) : option (nat * Z * gostring) :=
  match s with
  | [] => Some (off, acc, s)
  | c :: s' =>
      match hex_val c with
      | None => Some (off, acc, s)
      | Some d => if 3 <? off then None else hex_group (S off) (acc * 16 + d) s'
      end
  end.

(** The group loop of [parseIPv6]; [groups] is how many 16-bit groups are
    still missing, [ip] the bytes so far. *)
Fixpoint ipv6_loop (groups : nat) (ip : list Z) (ellipsis : option nat) (s : gostring)
    : option (list Z * option nat * gostring) :=
  match groups with
  | O => Some (ip, ellipsis, s)
  | S groups' =>
      match hex_group 0 0 s with
      | None | Some (O, _, _) => None
      | Some (_, acc, rest) =>
          let ip' := ip ++ [acc / 256; acc mod 256]%Z in
          match rest with
          | [] => Some (ip', ellipsis, [])
          | c :: s1 =>
              if bool_decide (c = "."%byte) then
                if bool_decide (ellipsis = None) && negb (length ip =? 12) then None
                else if 16 <? length ip + 4 then None
                else match ipv4_fields s 0 0 [] with
                     | None => None
                     | Some fs => Some (ip ++ fs, ellipsis, [])
                     end
              else if bool_decide (c = ":"%byte) then
                match s1 with
                | [] => None
                | c2 :: s2 =>
                    if bool_decide (c2 = ":"%byte) then
                      if bool_decide (ellipsis = None) then
                        match s2 with
                        | [] => Some (ip', Some (length ip'), [])
                        | _ => ipv6_loop groups' ip' (Some (length ip')) s2
                        end
                      else None
                    else ipv6_loop groups' ip' ellipsis s1
                end
              else None
          end
      end
  end.

Definition ipv6_finish (r : list Z * option nat * gostring) : option Z :=
  let '(ip, ellipsis, s) := r in
  if bool_decide (s ≠ []) then None
  else if length ip <? 16 then
    e ← ellipsis;
    Some (be_value (take e ip ++ repeat 0%Z (16 - length ip) ++ drop e ip))
  else match ellipsis with Some _ => None | None => Some (be_value ip) end.

Definition parseIPv6 (inp : gostring) : option Addr :=
  '(s, zone) ← match IndexByte inp "%"%byte with
               | None => Some (inp, [])
               | Some i => if bool_decide (drop (S i) inp = []) then None
                           else Some (take i inp, drop (S i) inp)
               end;
  if HasPrefix s (#"::") then
    match drop 2 s with
    | [] => Some (Addr6 0 zone)
    | s' => r ← ipv6_loop 8 [] (Some 0) s'; v ← ipv6_finish r; Some (Addr6 v zone)
    end
  else r ← ipv6_loop 8 [] None s; v ← ipv6_finish r; Some (Addr6 v zone).

(** [netip.ParseAddr]: the first of ['.'], [':'], ['%'] picks the family. *)
Definition ParseAddr (s : gostring) : option Addr :=
  match List.find (λ c, bool_decide (c = "."%byte) || bool_decide (c = ":"%byte)
                        || bool_decide (c = "%"%byte)) s with
  | Some c => if bool_decide (c = "."%byte) then parseIPv4 s
              else if bool_decide (c = ":"%byte) then parseIPv6 s
              else None
  | None => None
  end.

(** [netip.ParseAddrPort] with its [splitAddrPort]. *)
Definition splitAddrPort (s : gostring) : option (gostring * gostring * bool) :=
  i ← LastIndexByte s ":"%byte;
  let ip := take i s in
  let port := drop (S i) s in
  match ip, port with
  | [], _ | _, [] => None
  | c :: ip', _ =>
      if bool_decide (c = "["%byte) then
        if (length ip <? 2) || negb (bool_decide (last ip = Some "]"%byte)) then None
        else Some (take (length ip - 2) ip', port, true)
      else Some (ip, port, false)
  end.

Definition ParseAddrPort (s : gostring) : option AddrPort :=
  '(ip, port, v6) ← splitAddrPort s;
  p ← ParseUint port 16;
  a ← ParseAddr ip;
  if v6 && Is4 a then None
  else if negb v6 && Is6 a then None
  else Some {| ap_ip := a; ap_port := p |}.

(** ** Printing *)

Definition string4 (v : Z) : gostring :=
  utoa (octet v 3) ++ #"." ++ utoa (octet v 2) ++ #"." ++ utoa (octet v 1)
    ++ #"." ++ utoa (octet v 0).

(** A 16-bit group in hex without leading zeros. *)
Fixpoint strip_zeros (l : list Z) : list Z :=
  match l with
  | d :: ((_ :: _) as t) => if (d =? 0)%Z then strip_zeros t else l
  | _ => l
  end.
Definition hex16 (g : Z) : gostring :=
  hex_digit <$> strip_zeros [g / 4096; g / 256 mod 16; g / 16 mod 16; g mod 16]%Z.

Definition group16 (v : Z) (i : nat) : Z := (v / 2 ^ (16 * (7 - Z.of_nat i)) mod 65536)%Z.
Definition groups16 (v : Z) : list Z := group16 v <$> seq 0 8.

Fixpoint zero_run (l : list Z) : nat :=
  match l with
  | g :: l' => if (g =? 0)%Z then S (zero_run l') else 0
  | [] => 0
  end.

(** The first longest run of at least two zero groups: start and end. *)
Definition longest_zero_run (v : Z) : nat * nat :=
  fold_left (λ best i,
    let l := zero_run (drop i (groups16 v)) in
    if (2 <=? l) && (snd best - fst best <? l) then (i, i + l) else best)
    (seq 0 8) (255, 255).

Definition string6 (v : Z) : gostring :=
  let '(zs, ze) := longest_zero_run v in
  let gs := hex16 <$> groups16 v in
  if 8 <=? zs then Join gs (#":")
  else Join (take zs gs) (#":") ++ #"::" ++ Join (drop ze gs) (#":").

Definition zone_suffix (zone : gostring) : gostring :=
  match zone with [] => [] | _ => #"%" ++ zone end.

(** [Addr.String] *)
Definition Addr_String (a : Addr) : gostring :=
  match a with
  | AddrNone => #"invalid IP"
  | Addr4 v => string4 v
  | Addr6 v zone =>
      (if Is4In6 a then #"::ffff:" ++ string4 (v mod 2 ^ 32) else string6 v)
        ++ zone_suffix zone
  end.

(** [AddrPort.String] *)
Definition AddrPort_String (ap : AddrPort) : gostring :=
  match ap_ip ap with
  | AddrNone => #"invalid AddrPort"
  | Addr4 v => string4 v ++ #":" ++ utoa (ap_port ap)
  | a => #"[" ++ Addr_String a ++ #"]:" ++ utoa (ap_port ap)
  end.

Example parse_v4 : ParseAddr (#"10.99.0.7") = Some (Addr4 174260231).
Proof. reflexivity. Qed.
Example parse_mapped : Unmap <$> ParseAddr (#"::ffff:10.99.0.7") = Some (Addr4 174260231).
Proof. reflexivity. Qed.
Example parse_v6 :
  Addr_String <$> ParseAddr (#"2001:db8:0:0:1:0:0:1%eth0") = Some (#"2001:db8::1:0:0:1%eth0").
Proof. reflexivity. Qed.
Example parse_v6b : Addr_String <$> ParseAddr (#"fe80:0000::") = Some (#"fe80::").
Proof. reflexivity. Qed.
Example parse_bad : ParseAddr <$> [ #"1.2.3"; #"01.2.3.4"; #"1.2.3.256"; #"::1::"; #"1:2"; #"%x"; #"abc"]
  = [None; None; None; None; None; None; None].
Proof. reflexivity. Qed.
Example parse_ap : ParseAddrPort (#"[::1]:80") = Some (AddrPortFrom (Addr6 1 []) 80).
Proof. reflexivity. Qed.
Example parse_ap_bad : ParseAddrPort <$> [ #"::1:80"; #"[1.2.3.4]:80"; #"1.2.3.4:65536"; #"db:80"]
  = [None; None; None; None].
Proof. reflexivity. Qed.

(** ** Lemmas *)

(** Addresses whose value fits their width, which is every address the
    library can build. *)
Definition Addr_wf (a : Addr) : Prop :=
  match a with
  | AddrNone => True
  | Addr4 v => (0 ≤ v < 2 ^ 32)%Z
  | Addr6 v _ => (0 ≤ v < 2 ^ 128)%Z
  end.

Lemma Unmap_idemp a : Unmap (Unmap a) = Unmap a.
Proof. destruct a as [|v|v z]; simpl; try done. destruct (v / _ =? _)%Z eqn:E; simpl; by rewrite ?E. Qed.

Lemma Unmap_IsValid a : IsValid (Unmap a) = IsValid a.
Proof. destruct a as [|v|v z]; simpl; try done. by destruct (v / _ =? _)%Z. Qed.

Lemma Unmap_wf a : Addr_wf a → Addr_wf (Unmap a).
Proof.
  destruct a as [|v|v z]; simpl; try done. intros Hv.
  destruct (v / _ =? _)%Z; simpl; [|done]. apply Z.mod_pos_bound. lia.
Qed.

Lemma Unmap_Is4In6 a : Is4In6 (Unmap a) = false.
Proof. destruct a as [|v|v z]; simpl; try done. destruct (v / _ =? _)%Z eqn:E; by simpl. Qed.

Lemma be_value_app l b : be_value (l ++ [b]) = (be_value l * 256 + b)%Z.
Proof. unfold be_value. by rewrite fold_left_app. Qed.

Lemma be_value_range l :
  Forall (λ b, 0 ≤ b < 256)%Z l → (0 ≤ be_value l < 2 ^ (8 * Z.of_nat (length l)))%Z.
Proof.
  induction l as [|b l IH] using rev_ind; intros H; [done|].
  apply Forall_app in H as [H1 [H2 _]%Forall_cons]. apply IH in H1.
  rewrite be_value_app, length_app. simpl length.
  replace (8 * Z.of_nat (length l + 1))%Z with (8 * Z.of_nat (length l) + 8)%Z by lia.
  rewrite Z.pow_add_r by lia. change (2 ^ 8)%Z with 256%Z. lia.
Qed.

Lemma AddrFromSlice_wf s a : AddrFromSlice s = Some a → Addr_wf a ∧ IsValid a = true.
Proof.
  unfold AddrFromSlice. assert (Forall (λ b, 0 ≤ b < 256)%Z (bval <$> s)) as HF.
  { apply Forall_fmap, Forall_forall. intros b _. apply bval_range. }
  apply be_value_range in HF. rewrite length_fmap in HF.
  destruct (length s) as [|[|[|[|[|[|[|[|[|[|[|[|[|[|[|[|[|]]]]]]]]]]]]]]]]]; try done;
    intros [= <-]; (split; [exact HF|done]).
Qed.

Lemma As4_value v : (0 ≤ v < 2 ^ 32)%Z → be_value (As4 (Addr4 v)) = v.
Proof.
  intros Hv. unfold be_value, As4, octet. cbn [fold_left].
  change (2 ^ (8 * 3))%Z with 16777216%Z. change (2 ^ (8 * 2))%Z with 65536%Z.
  change (2 ^ (8 * 1))%Z with 256%Z. change (2 ^ (8 * 0))%Z with 1%Z.
  change (2 ^ 32)%Z with 4294967296%Z in Hv. zdiv.
Qed.

(** *** IPv4 text round trip *)

Fixpoint ipv4_digits (s : gostring) (val digLen : Z) : option (Z * Z) :=
  match s with
  | [] => Some (val, digLen)
  | c :: s' =>
      if is_digit c && negb ((digLen =? 1) && (val =? 0))%Z
         && negb (255 <? val * 10 + digit_val c)%Z
      then ipv4_digits s' (val * 10 + digit_val c) (digLen + 1) else None
  end.

Lemma ipv4_fields_digits ds rest val dl fields v' dl' :
  ipv4_digits ds val dl = Some (v', dl') →
  ipv4_fields (ds ++ rest) val dl fields = ipv4_fields rest v' dl' fields.
Proof.
  revert val dl. induction ds as [|c ds IH]; intros val dl; simpl; [by intros [= -> ->]|].
  destruct (is_digit c); simpl; [|done].
  destruct ((dl =? 1) && (val =? 0))%Z; simpl; [done|].
  destruct (255 <? val * 10 + digit_val c)%Z; simpl; [done|]. apply IH.
Qed.

Lemma ipv4_digits_octet n :
  (0 ≤ n < 256)%Z → ∃ d, ipv4_digits (utoa n) 0 0 = Some (n, d) ∧ (0 < d)%Z.
Proof.
  intros Hn. assert (forallb (λ k, match ipv4_digits (utoa (Z.of_nat k)) 0 0 with
    | Some (v, d) => (v =? Z.of_nat k)%Z && (0 <? d)%Z | None => false end) (seq 0 256) = true)
    as H by (vm_compute; reflexivity).
  rewrite forallb_forall in H. specialize (H (Z.to_nat n)). rewrite Z2Nat.id in H by lia.
  destruct (ipv4_digits (utoa n) 0 0) as [[v d]|].
  - rewrite andb_true_iff, Z.eqb_eq, Z.ltb_lt in H.
    destruct H as [-> ?]; [apply in_seq; lia|]. eauto.
  - assert (false = true) by (apply H, in_seq; lia). done.
Qed.

Lemma ipv4_fields_octet_dot n rest fields :
  (0 ≤ n < 256)%Z → rest ≠ [] → length fields < 3 →
  ipv4_fields (utoa n ++ #"." ++ rest) 0 0 fields = ipv4_fields rest 0 0 (fields ++ [n]).
Proof.
  intros Hn Hr Hl. destruct (ipv4_digits_octet n Hn) as (d & Hd & Hpos).
  rewrite (ipv4_fields_digits _ _ _ _ _ _ _ Hd).
  change (#"." ++ rest) with ("."%byte :: rest). cbn [ipv4_fields].
  change (is_digit "."%byte) with false. rewrite bool_decide_true by done.
  rewrite (proj2 (Z.eqb_neq d 0)) by lia. rewrite bool_decide_false by done. simpl.
  by rewrite (proj2 (Nat.eqb_neq (length fields) 3)) by lia.
Qed.

Lemma ipv4_fields_octet_end n fields :
  (0 ≤ n < 256)%Z → length fields = 3 →
  ipv4_fields (utoa n) 0 0 fields = Some (fields ++ [n]).
Proof.
  intros Hn Hl. destruct (ipv4_digits_octet n Hn) as (d & Hd & _).
  rewrite <- (app_nil_r (utoa n)), (ipv4_fields_digits _ _ _ _ _ _ _ Hd). simpl.
  by rewrite Hl.
Qed.

Lemma octet_range v k : (0 ≤ octet v k < 256)%Z.
Proof. apply Z.mod_pos_bound. lia. Qed.
#[export] Hint Resolve octet_range : gocloak.

Lemma parseIPv4_string4 v : (0 ≤ v < 2 ^ 32)%Z → parseIPv4 (string4 v) = Some (Addr4 v).
Proof.
  intros Hv. unfold parseIPv4, string4. pose proof (octet_range v).
  assert (∀ k (r : gostring), utoa (octet v k) ++ r ≠ []) as Hne
    by (intros k r [E _]%app_eq_nil; by apply utoa_nonempty in E).
  rewrite !ipv4_fields_octet_dot by (eauto using utoa_nonempty; simpl; lia).
  rewrite ipv4_fields_octet_end by (simpl; eauto).
  simpl. f_equal. unfold AddrFrom4. f_equal. by apply (As4_value v).
Qed.

Lemma string4_elem v c : c ∈ string4 v → is_digit c = true ∨ c = "."%byte.
Proof.
  unfold string4. intros H. destruct (is_digit c) eqn:E; [by left|right].
  assert (∀ k, c ∉ utoa (octet v k)) as Hn
    by (intros k; apply utoa_no_byte; [apply octet_range|done]).
  rewrite !elem_of_app in H. change (#".") with ["."%byte] in H.
  rewrite !list_elem_of_singleton in H. naive_solver.
Qed.

Lemma ParseAddr_string4 v : (0 ≤ v < 2 ^ 32)%Z → ParseAddr (string4 v) = Some (Addr4 v).
Proof.
  intros Hv. unfold ParseAddr.
  destruct (List.find _ (string4 v)) as [c|] eqn:E.
  - apply find_some in E as [Hin Hc]. apply list_elem_of_In, string4_elem in Hin.
    destruct Hin as [Hd| ->].
    + revert c Hd Hc. apply (byte_forall (λ c, is_digit c = true → _ = true → _)).
      vm_compute. reflexivity.
    + rewrite bool_decide_true by done. by apply parseIPv4_string4.
  - exfalso. apply (find_none _ _) with (x := "."%byte) in E; [done|].
    apply list_elem_of_In. unfold string4. rewrite !elem_of_app.
    right; left. by apply list_elem_of_here.
Qed.

(** ** Bytes of a printed address: hex digits, punctuation and the zone *)

Definition addr_punct : gostring := #"invalid IPAddrPort.:[]%".

Lemma strip_zeros_elem x l : x ∈ strip_zeros l → x ∈ l.
Proof.
  induction l as [|d [|e l] IH]; simpl in *; [done|done|].
  destruct (d =? 0)%Z; [|done]. intros H%IH. by right.
Qed.

Lemma hex16_elem c g : (0 ≤ g < 65536)%Z → c ∈ hex16 g → is_hex_lower c = true.
Proof.
  intros Hg (d & -> & Hd%strip_zeros_elem)%list_elem_of_fmap. apply hex_digit_lower.
  rewrite !elem_of_cons, elem_of_nil in Hd.
  destruct Hd as [->|[->|[->|[->|[]]]]]; zdiv.
Qed.

Lemma Join_elem c parts sep : c ∈ Join parts sep → c ∈ sep ∨ ∃ p, p ∈ parts ∧ c ∈ p.
Proof.
  induction parts as [|p [|q parts] IH]; cbn [Join]; [set_solver|set_solver|].
  rewrite !elem_of_app. intros [H|[H|H%IH]]; set_solver.
Qed.

Lemma string6_elem c v : c ∈ string6 v → is_hex_lower c = true ∨ c = ":"%byte.
Proof.
  assert (∀ gs, gs ⊆ hex16 <$> groups16 v → c ∈ Join gs (#":") → is_hex_lower c = true ∨ c = ":"%byte) as HJ.
  { intros gs Hs [H|(p & Hp & H)]%Join_elem; [right; set_solver|left].
    apply Hs in Hp. apply list_elem_of_fmap in Hp as (g & -> & Hg).
    unfold groups16 in Hg. apply list_elem_of_fmap in Hg as (i & -> & _).
    eapply hex16_elem; [|exact H]. apply Z.mod_pos_bound. lia. }
  assert (∀ n, take n (hex16 <$> groups16 v) ⊆ hex16 <$> groups16 v) as Ht
    by (intros n x Hx; by apply elem_of_take in Hx as (? & ?%list_elem_of_lookup_2 & ?)).
  assert (∀ n, drop n (hex16 <$> groups16 v) ⊆ hex16 <$> groups16 v) as Hd
    by (intros n x Hx; rewrite <- (take_drop n (hex16 <$> groups16 v)); set_solver).
  unfold string6. destruct (longest_zero_run v) as [zs ze]. destruct (8 <=? zs).
  - by apply HJ.
  - rewrite !elem_of_app. intros [H|[H|H]]; [exact (HJ _ (Ht _) H)| |exact (HJ _ (Hd _) H)].
    right. change (#"::") with ([":"%byte; ":"%byte]) in H. set_solver.
Qed.

(** Bytes of a literal made of hex digits and punctuation. *)
Lemma punct_no_byte c x :
  forallb (λ y, is_hex_lower y || bool_decide (y ∈ addr_punct)) x = true →
  is_hex_lower c = false → c ∉ addr_punct → c ∉ x.
Proof.
  intros HF Hc Hp Hin. rewrite forallb_forall in HF. apply list_elem_of_In, HF in Hin.
  rewrite Hc in Hin. by apply bool_decide_eq_true in Hin.
Qed.

Lemma Addr_String_no_byte c a :
  is_hex_lower c = false → c ∉ addr_punct → c ∉ Zone a → c ∉ Addr_String a.
Proof.
  intros Hc Hp Hz. assert (is_digit c = false) as Hdig
    by (unfold is_hex_lower in Hc; by apply orb_false_iff in Hc as [? ?]).
  assert (∀ x, forallb (λ y, is_hex_lower y || bool_decide (y ∈ addr_punct)) x = true → c ∉ x) as Hl
    by (intros; by apply punct_no_byte).
  assert (∀ v, c ∉ string4 v) as H4.
  { intros v [H| ->]%string4_elem; [congruence|]. by apply (Hl (#".")); [|left]. }
  assert (∀ z, c ∉ z → c ∉ zone_suffix z) as Hzs.
  { intros [|b z] H; [set_solver|]. unfold zone_suffix. rewrite elem_of_app.
    intros [E|E]; [by apply (Hl (#"%"))|done]. }
  destruct a as [|v|v z]; cbn [Addr_String Zone] in *; [by apply Hl|apply H4|].
  rewrite elem_of_app. intros [H|H]; [|by eapply Hzs]. destruct (Is4In6 _).
  - rewrite elem_of_app in H. destruct H as [H|H]; [by apply (Hl (#"::ffff:"))|by eapply H4].
  - apply string6_elem in H as [H| ->]; [congruence|]. by apply (Hl (#":")); [|left].
Qed.

Lemma AddrPort_String_no_byte c ap :
  (0 ≤ ap_port ap)%Z → is_hex_lower c = false → c ∉ addr_punct → c ∉ Zone (ap_ip ap) →
  c ∉ AddrPort_String ap.
Proof.
  intros Hn Hc Hp Hz. pose proof (Addr_String_no_byte c (ap_ip ap) Hc Hp Hz) as Ha.
  assert (c ∉ utoa (ap_port ap)) as Hu.
  { apply utoa_no_byte; [done|]. unfold is_hex_lower in Hc. by apply orb_false_iff in Hc as [? ?]. }
  assert (∀ x, forallb (λ y, is_hex_lower y || bool_decide (y ∈ addr_punct)) x = true → c ∉ x) as Hl
    by (intros; by apply punct_no_byte).
  pose proof (Hl (#":")). pose proof (Hl (#"[")). pose proof (Hl (#"]:")).
  unfold AddrPort_String. destruct (ap_ip ap) as [|v|v z]; [by apply Hl| |];
    rewrite !elem_of_app; cbn in Ha; tauto.
Qed.

(** ** Lemmas: zones *)

(** A zone is text of the address it was read from. *)
Lemma ParseAddr_zone s a c : ParseAddr s = Some a → c ∈ Zone a → c ∈ s.
Proof.
  unfold ParseAddr. destruct (List.find _ s) as [b|]; [|done].
  destruct (bool_decide (b = "."%byte)).
  { unfold parseIPv4. intros H Hc. apply fmap_Some in H as (l & _ & ->). by apply elem_of_nil in Hc. }
  destruct (bool_decide (b = ":"%byte)); [|done]. unfold parseIPv6. intros H Hc.
  apply bind_Some in H as ([s' zone] & Hz & H).
  assert (Zone a = zone) as Ha.
  { repeat case_match; try done; repeat (apply bind_Some in H as (? & _ & H)); by simplify_eq. }
  rewrite Ha in Hc. destruct (IndexByte s "%"%byte) as [i|] eqn:Ei; [|injection Hz as _ <-; by apply elem_of_nil in Hc].
  destruct (bool_decide _); [done|]. injection Hz as _ <-.
  rewrite <- (take_drop (S i) s). apply elem_of_app. by right.
Qed.

Lemma Unmap_zone a c : c ∈ Zone (Unmap a) → c ∈ Zone a.
Proof.
  destruct a as [|v|v z]; [done|done|]. unfold Unmap. destruct (Is4In6 _); [|done].
  intros Hc. by apply elem_of_nil in Hc.
Qed.
