(* ===== verification/GoIO.v ===== *)
(** * [io.Reader], [io.ReadFull] and [io.Writer]

    A reader delivers its bytes in chunks, one per [Read] call at most, and
    then fails with its final error ([io.EOF] for a peer that closed, a
    deadline error, ...).  A writer accepts bytes until the room it has runs
    out. *)

From S2P Require Import Prelude GoStrings.

Record reader := mkReader { r_chunks : list gostring; r_end : error }.

Definition EOF_error : error := sentinel_error io_EOF (#"EOF").
Definition UnexpectedEOF_error : error := sentinel_error io_ErrUnexpectedEOF (#"unexpected EOF").

(** The bytes a reader still holds. *)
Definition r_bytes (r : reader) : gostring := concat (r_chunks r).

(** [io.ReadFull(r, buf)] with [len(buf) = need]: [Read] into the rest of
    the buffer until it is full or [Read] fails.  Returns what was read. *)
Fixpoint read_loop (need : nat) (cs : list gostring) : gostring * list gostring :=
  match need with
  | O => ([], cs)
  | S _ =>
      match cs with
      | [] => ([], [])
      | c :: cs' =>
          if length c <=? need then
            let '(got, rest) := read_loop (need - length c) cs' in (c ++ got, rest)
          else (take need c, drop need c :: cs')
      end
  end.

Definition ReadFull (need : nat) (r : reader) : result gostring * reader :=
  let '(got, rest) := read_loop need (r_chunks r) in
  let r' := mkReader rest (r_end r) in
  if need <=? length got then (Ok got, r')
  else if (0 <? length got) && bool_decide (r_end r = EOF_error)
       then (Err UnexpectedEOF_error, r')
       else (Err (r_end r), r').

Record writer := mkWriter { w_out : gostring; w_room : option (nat * error) }.

(** [w.Write(p)], its error only; a failing write may be partial. *)
Definition Write (p : gostring) (w : writer) : option error * writer :=
  match w_room w with
  | None => (None, mkWriter (w_out w ++ p) None)
  | Some (n, e) =>
      if length p <=? n then (None, mkWriter (w_out w ++ p) (Some (n - length p, e)))
      else (Some e, mkWriter (w_out w ++ take n p) (Some (0, e)))
  end.

(** ** Lemmas *)

(** What [ReadFull] does depends only on the bytes, not on how they arrive
    in chunks. *)
Lemma read_loop_bytes need cs :
  fst (read_loop need cs) = take need (concat cs)
  ∧ concat (snd (read_loop need cs)) = drop need (concat cs).
Proof.
  revert need. induction cs as [|c cs IH]; intros [|need]; simpl.
  - done.
  - done.
  - done.
  - destruct (length c <=? S need) eqn:E; bool_props.
    + destruct (read_loop (S need - length c) cs) as [got rest] eqn:Er.
      destruct (IH (S need - length c)) as [H1 H2]. rewrite Er in H1, H2. simpl in H1, H2.
      cbn [fst snd]. rewrite take_app, drop_app, H1, H2.
      by rewrite (take_ge c), (drop_ge c) by lia.
    + cbn [fst snd concat]. rewrite take_app, drop_app.
      replace (S need - length c) with 0 by lia. by rewrite take_0, drop_0, app_nil_r.
Qed.

Lemma ReadFull_Ok need r :
  need ≤ length (r_bytes r) →
  ∃ r', ReadFull need r = (Ok (take need (r_bytes r)), r')
        ∧ r_bytes r' = drop need (r_bytes r) ∧ r_end r' = r_end r.
Proof.
  intros Hn. unfold ReadFull, r_bytes in *.
  destruct (read_loop_bytes need (r_chunks r)) as [H1 H2].
  destruct (read_loop need (r_chunks r)) as [got rest]. simpl in *. subst got.
  rewrite length_take, (proj2 (Nat.leb_le _ _)) by lia. eauto.
Qed.

Lemma ReadFull_short need r :
  length (r_bytes r) < need →
  ∃ e r', ReadFull need r = (Err e, r') ∧ r_bytes r' = []
    ∧ (e = r_end r ∨ e = UnexpectedEOF_error ∧ r_end r = EOF_error ∧ r_bytes r ≠ []).
Proof.
  intros Hn. unfold ReadFull, r_bytes in *.
  destruct (read_loop_bytes need (r_chunks r)) as [H1 H2].
  destruct (read_loop need (r_chunks r)) as [got rest]. simpl in *. subst got.
  rewrite length_take, (proj2 (Nat.leb_gt _ _)) by lia.
  rewrite drop_ge in H2 by lia.
  rewrite (Nat.min_r _ _) by lia.
  destruct (0 <? _)%nat eqn:E1; simpl; [|by eauto 10].
  destruct (bool_decide (r_end r = EOF_error)) eqn:E2; bool_props; [|by eauto 10].
  eexists _, _. split_and!; [done..|]. right. split_and!; [done..|].
  destruct (concat _); simpl in *; [lia|done].
Qed.

Lemma ReadFull_length need r s r' : ReadFull need r = (Ok s, r') → length s = need.
Proof.
  intros E. destruct (le_lt_dec need (length (r_bytes r))) as [Hl|Hl].
  - destruct (ReadFull_Ok need r Hl) as (r1 & E1 & _). rewrite E in E1. injection E1 as -> _.
    rewrite length_take. lia.
  - destruct (ReadFull_short need r Hl) as (e & r1 & E1 & _). by rewrite E in E1.
Qed.
