(* ===== verification/Wire.v ===== *)
(** * The hello frame codec ([wire.go])

    [ValidServiceName], the status codes, and the four frame routines.  A
    frame routine takes the connection's read or write side and returns what
    is left of it with the routine's result. *)

From S2P Require Import Prelude GoStrings GoEncoding GoIO.

Module Wire.

(** ** Constants and the service name charset *)

Definition helloReadDeadline : Z := (5 * 1000000000)%Z.
Definition frameVersion : byte := byte_of_Z 1.
Definition maxNameLen : Z := 63.

Definition name_head (b : byte) : bool := is_lower b || is_digit b.
Definition name_tail (b : byte) : bool := is_lower b || is_digit b || bool_decide (b = "-"%byte).

(** [^[a-z0-9][a-z0-9-]{0,62}$] *)
Definition nameRE : list re_item := head_tail_re name_head name_tail 62.

Definition ValidServiceName (name : gostring) : bool := re_match nameRE name.

(** ** Status codes: a Go [status] is any byte *)

Definition errMalformedFrame_error : error :=
  sentinel_error errMalformedFrame (#"gocloak: malformed hello frame").
Definition malformed (detail : gostring) : error :=
  mkError (e_msg errMalformedFrame_error ++ #": " ++ detail) [errMalformedFrame].

Definition statusOK : byte := byte_of_Z 0.
Definition statusDenied : byte := byte_of_Z 1.
Definition statusBackendUnavailable : byte := byte_of_Z 2.
Definition statusRateLimited : byte := byte_of_Z 3.
Definition statusMalformed : byte := byte_of_Z 4.

(** [%02x] of a byte *)
Definition hex02 (b : byte) : gostring := #"0x" ++ hex_byte b.

Definition status_String (s : byte) : gostring :=
  if bool_decide (s = statusOK) then #"ok"
  else if bool_decide (s = statusDenied) then #"denied"
  else if bool_decide (s = statusBackendUnavailable) then #"backend unavailable"
  else if bool_decide (s = statusRateLimited) then #"rate limited"
  else if bool_decide (s = statusMalformed) then #"malformed request"
  else #"unknown status " ++ hex02 s.

Definition validStatus (s : byte) : bool :=
  bool_decide (s ∈ [statusOK; statusDenied; statusBackendUnavailable; statusRateLimited;
                    statusMalformed]).

(** ** Frames *)

Definition hello_request_frame (name : gostring) : gostring :=
  frameVersion :: byte_of_Z (Z.of_nat (length name)) :: name.

Definition writeHelloRequest (w : writer) (name : gostring) : option error * writer :=
  if negb (ValidServiceName name) then
    (Some (errors_New (#"gocloak: invalid service name")), w)
  else
    let '(err, w') := Write (hello_request_frame name) w in
    (wrapf (#"gocloak: write hello request: ") <$> err, w').

Definition readHelloRequest (r : reader) : result gostring * reader :=
  let '(head, r1) := ReadFull 2 r in
  match head with
  | Err e => (Err (wrapf (#"gocloak: read hello request header: ") e), r1)
  | Ok hd =>
      let h0 := nth 0 hd Byte.x00 in
      let n := bval (nth 1 hd Byte.x00) in
      if bool_decide (h0 ≠ frameVersion) then
        (Err (malformed (#"unsupported version " ++ hex02 h0)), r1)
      else if (n =? 0)%Z || (maxNameLen <? n)%Z then
        (Err (malformed (#"invalid name length " ++ itoa n)), r1)
      else
        let '(nameBytes, r2) := ReadFull (Z.to_nat n) r1 in
        match nameBytes with
        | Err _ => (Err (malformed (#"short read of name")), r2)
        | Ok name =>
            if negb (ValidServiceName name) then
              (Err (malformed (#"invalid service name")), r2)
            else (Ok name, r2)
        end
  end.

Definition writeHelloResponse (w : writer) (status : byte) : option error * writer :=
  if negb (validStatus status) then
    (Some (errors_New (#"gocloak: invalid status " ++ hex02 status)), w)
  else
    let '(err, w') := Write [frameVersion; status] w in
    (wrapf (#"gocloak: write hello response: ") <$> err, w').

Definition readHelloResponse (r : reader) : result byte * reader :=
  let '(frame, r1) := ReadFull 2 r in
  match frame with
  | Err e => (Err (wrapf (#"gocloak: read hello response: ") e), r1)
  | Ok fr =>
      let f0 := nth 0 fr Byte.x00 in
      let status := nth 1 fr Byte.x00 in
      if bool_decide (f0 ≠ frameVersion) then
        (Err (malformed (#"unsupported version " ++ hex02 f0)), r1)
      else if negb (validStatus status) then
        (Err (malformed (#"unknown status " ++ hex02 status)), r1)
      else (Ok status, r1)
  end.

(** ** Lemmas *)

Lemma ValidServiceName_spec name :
  ValidServiceName name = true ↔
  ∃ c t, name = c :: t ∧ name_head c = true ∧ Forall (λ c, name_tail c = true) t ∧ length t ≤ 62.
Proof. apply head_tail_re_match. Qed.

Lemma ValidServiceName_length name : ValidServiceName name = true → 1 ≤ length name ≤ 63.
Proof. intros (c & t & -> & _ & _ & ?)%ValidServiceName_spec. simpl. lia. Qed.

(** No control character, space, colon, slash or quote is in a valid name. *)
Lemma name_tail_printable b : name_tail b = true → (45 <= bval b <= 122)%Z ∧ b ≠ ":"%byte ∧ b ≠ "/"%byte.
Proof.
  revert b. apply (byte_forall (λ b, name_tail b = true →
    (45 <= bval b <= 122)%Z ∧ b ≠ ":"%byte ∧ b ≠ "/"%byte)). vm_compute. reflexivity.
Qed.

Lemma ValidServiceName_Forall name :
  ValidServiceName name = true → Forall (λ c, name_tail c = true) name.
Proof.
  intros (c & t & -> & Hc & Ht & _)%ValidServiceName_spec. constructor; [|done].
  unfold name_head, name_tail in *. by rewrite Hc.
Qed.

Lemma frame_length_byte name :
  ValidServiceName name = true → bval (byte_of_Z (Z.of_nat (length name))) = Z.of_nat (length name).
Proof. intros H%ValidServiceName_length. apply byte_of_Z_small. lia. Qed.

(** The reader's verdict on a stream with both header bytes, as a function of
    the bytes alone, and what it leaves unread. *)
Definition hello_verdict (v l : byte) (rest : gostring) : result gostring * gostring :=
  let n := Z.to_nat (bval l) in
  if bool_decide (v ≠ frameVersion) then
    (Err (malformed (#"unsupported version " ++ hex02 v)), rest)
  else if (bval l =? 0)%Z || (maxNameLen <? bval l)%Z then
    (Err (malformed (#"invalid name length " ++ itoa (bval l))), rest)
  else if length rest <? n then (Err (malformed (#"short read of name")), [])
  else if ValidServiceName (take n rest) then (Ok (take n rest), drop n rest)
  else (Err (malformed (#"invalid service name")), drop n rest).

Lemma readHelloRequest_long r v l s :
  r_bytes r = v :: l :: s →
  (fst (readHelloRequest r), r_bytes (snd (readHelloRequest r))) = hello_verdict v l s.
Proof.
  intros Hr. unfold readHelloRequest, hello_verdict.
  destruct (ReadFull_Ok 2 r) as (r1 & -> & Hr1 & _); [rewrite Hr; simpl; lia|].
  rewrite Hr in *. cbn [take nth] in *. simpl drop in Hr1. rewrite ?drop_0 in Hr1.
  destruct (bool_decide (v ≠ frameVersion)); [simpl; by rewrite Hr1|].
  destruct ((bval l =? 0) || (maxNameLen <? bval l))%Z; [simpl; by rewrite Hr1|].
  destruct (length s <? Z.to_nat (bval l)) eqn:El; bool_props.
  - destruct (ReadFull_short (Z.to_nat (bval l)) r1) as (e & r2 & -> & H2 & _); [by rewrite Hr1|].
    simpl. by rewrite H2.
  - destruct (ReadFull_Ok (Z.to_nat (bval l)) r1) as (r2 & -> & H2 & _); [by rewrite Hr1|].
    rewrite Hr1 in *. destruct (ValidServiceName _); simpl; by rewrite H2.
Qed.

Lemma readHelloRequest_short r :
  length (r_bytes r) < 2 →
  ∃ e, fst (readHelloRequest r) = Err (wrapf (#"gocloak: read hello request header: ") e)
       ∧ (e = r_end r ∨ e = UnexpectedEOF_error) ∧ r_bytes (snd (readHelloRequest r)) = [].
Proof.
  intros Hr. unfold readHelloRequest.
  destruct (ReadFull_short 2 r) as (e & r1 & -> & H2 & He); [lia|]. exists e. naive_solver.
Qed.

Lemma hello_verdict_frame name rest :
  ValidServiceName name = true →
  hello_verdict frameVersion (byte_of_Z (Z.of_nat (length name))) (name ++ rest) = (Ok name, rest).
Proof.
  intros Hv. pose proof (ValidServiceName_length _ Hv). unfold hello_verdict.
  rewrite frame_length_byte, Nat2Z.id, bool_decide_false by (done || tauto).
  rewrite (proj2 (Z.eqb_neq _ _)), (proj2 (Z.ltb_ge _ _)) by (unfold maxNameLen; lia).
  simpl. rewrite length_app, (proj2 (Nat.ltb_ge _ _)) by lia.
  by rewrite take_app_length, drop_app_length, Hv.
Qed.

Lemma hello_verdict_Ok v l s name rest :
  hello_verdict v l s = (Ok name, rest) →
  ValidServiceName name = true ∧ v :: l :: s = hello_request_frame name ++ rest.
Proof.
  unfold hello_verdict. intros H. repeat case_match; simplify_eq. bool_props.
  split; [done|]. pose proof (bval_range l).
  unfold hello_request_frame. rewrite length_take, Nat.min_l by lia.
  rewrite Z2Nat.id, byte_of_Z_bval by lia. cbn [app]. rewrite take_drop.
  f_equal. by apply dec_stable.
Qed.

Lemma short_or_long (s : gostring) : length s < 2 ∨ ∃ v l t, s = v :: l :: t.
Proof. destruct s as [|v [|l t]]; simpl; [left; lia..|right; eauto]. Qed.

Lemma readHelloResponse_Ok r s :
  fst (readHelloResponse r) = Ok s ↔
  validStatus s = true ∧ ∃ rest, r_bytes r = frameVersion :: s :: rest.
Proof.
  unfold readHelloResponse. destruct (decide (2 ≤ length (r_bytes r))) as [Hlen|Hlen].
  - destruct (ReadFull_Ok 2 r Hlen) as (r1 & -> & _).
    destruct (r_bytes r) as [|v [|l rest]]; [simpl in Hlen; lia..|]. cbn [take nth].
    destruct (bool_decide (v ≠ frameVersion)) eqn:E1; bool_props.
    + split; [done|]. intros [_ [rest' [= ? ? ?]]]. by subst.
    + apply dec_stable in E1 as ->. destruct (validStatus l) eqn:E2; simpl.
      * split; [intros [= <-]; eauto | intros [_ [? [= -> _]]]; done].
      * split; [done|]. intros [Hs [? [= -> _]]]. congruence.
  - destruct (ReadFull_short 2 r) as (e & r1 & -> & _); [lia|]. simpl.
    split; [done|]. intros [_ [rest Hr]]. rewrite Hr in Hlen. simpl in Hlen. lia.
Qed.

(** ** Properties *)

(** A request frame is read back as the name that was written, however
    the bytes arrive in chunks, and the reader consumes the frame exactly:
    application bytes sent right behind it stay for the pipe. *)
Theorem hello_request_roundtrip w w' name r rest :
  writeHelloRequest w name = (None, w') →
  w_out w' ++ rest = w_out w ++ r_bytes r →
  fst (readHelloRequest r) = Ok name ∧ r_bytes (snd (readHelloRequest r)) = rest.
Proof.
  unfold writeHelloRequest. destruct (ValidServiceName name) eqn:Ev; simpl; [|done].
  intros Hw Hb.
  assert (w_out w' = w_out w ++ hello_request_frame name) as Hout.
  { unfold Write in Hw. destruct (w_room w) as [[n e]|]; [|by injection Hw as <-].
    destruct (_ <=? n); [by injection Hw as <-|done]. }
  rewrite Hout, <- app_assoc in Hb. apply app_inv_head in Hb.
  pose proof (readHelloRequest_long r _ _ _ (eq_sym Hb)) as H.
  rewrite hello_verdict_frame in H by done. by injection H.
Qed.

Definition roundtrip_reader : reader :=
  mkReader [[byte_of_Z 1]; [byte_of_Z 2; "d"%byte]; #"bSELECT"] EOF_error.
Lemma hello_request_roundtrip_witness :
  fst (readHelloRequest roundtrip_reader) = Ok (#"db")
  ∧ r_bytes (snd (readHelloRequest roundtrip_reader)) = #"SELECT".
Proof.
  apply (hello_request_roundtrip (mkWriter [] None) (mkWriter (hello_request_frame (#"db")) None));
    reflexivity.
Defined.

(** What the server reads. *)
Lemma readHelloRequest_Ok r name :
  fst (readHelloRequest r) = Ok name ↔
  ValidServiceName name = true ∧ ∃ rest, r_bytes r = hello_request_frame name ++ rest.
Proof.
  split.
  - intros Hr. destruct (short_or_long (r_bytes r)) as [Hs|(v & l & t & Hs)].
    + apply readHelloRequest_short in Hs as (e & He & _). congruence.
    + pose proof (readHelloRequest_long r v l t Hs) as H. rewrite Hr in H.
      symmetry in H. apply hello_verdict_Ok in H as [Hv Heq].
      split; [done|]. rewrite Hs, Heq. eauto.
  - intros [Hv [rest Hb]]. pose proof (readHelloRequest_long r _ _ _ Hb) as H.
    rewrite hello_verdict_frame in H by done. by injection H.
Qed.

(** C34: the server accepts a name exactly when the stream starts with a
    well-formed frame for a valid service name: version, true length, and
    the restricted charset.  Nothing else is ever accepted. *)
Theorem readHelloRequest_accepts_exactly r name :
  fst (readHelloRequest r) = Ok name ↔
  ValidServiceName name = true ∧ ∃ rest, r_bytes r = hello_request_frame name ++ rest.
Proof. apply readHelloRequest_Ok. Qed.

(** A failed read is classified so that the server knows whether it owes
    an answer: with both header bytes received the error is malformed, with
    fewer it is the I/O error of the connection and is not malformed. *)
Theorem readHelloRequest_malformed_iff r e :
  errMalformedFrame ∉ e_chain (r_end r) →
  fst (readHelloRequest r) = Err e →
  errors_Is e errMalformedFrame = bool_decide (2 ≤ length (r_bytes r)).
Proof.
  intros Hend He. destruct (short_or_long (r_bytes r)) as [Hs|(v & l & t & Hs)].
  - rewrite bool_decide_false by lia.
    apply readHelloRequest_short in Hs as (e' & H & Hcase & _).
    rewrite He in H. injection H as ->. apply bool_decide_eq_false_2.
    destruct Hcase as [->| ->]; simpl; [done|set_solver].
  - pose proof (readHelloRequest_long r v l t Hs) as H. rewrite He in H.
    rewrite (bool_decide_true (2 ≤ _)) by (rewrite Hs; simpl; lia).
    unfold hello_verdict in H. repeat case_match; by simplify_eq.
Qed.

Definition slow_reader : reader :=
  mkReader [[byte_of_Z 1]] (errors_New (#"i/o timeout")).
Lemma readHelloRequest_malformed_iff_witness :
  errors_Is (wrapf (#"gocloak: read hello request header: ") (errors_New (#"i/o timeout")))
    errMalformedFrame = false.
Proof.
  apply (readHelloRequest_malformed_iff slow_reader); [apply not_elem_of_nil | reflexivity].
Defined.

(** At most 65 bytes are taken from the stream and at most 63 of them
    buffered as a name, whatever length the peer declares. *)
Theorem readHelloRequest_bounded r :
  length (r_bytes r) ≤ length (r_bytes (snd (readHelloRequest r))) + 65
  ∧ ∀ name, fst (readHelloRequest r) = Ok name → 1 ≤ length name ≤ 63.
Proof.
  destruct (short_or_long (r_bytes r)) as [Hs|(v & l & t & Hs)].
  - split; [lia|]. intros name Hr. apply readHelloRequest_short in Hs as (e & He & _). congruence.
  - pose proof (readHelloRequest_long r v l t Hs) as H. split.
    + rewrite Hs. apply (f_equal snd) in H. simpl in H. rewrite H. clear H.
      unfold hello_verdict, maxNameLen.
      repeat case_match; bool_props; simpl; rewrite ?length_drop; lia.
    + intros name Hr. rewrite Hr in H. symmetry in H.
      apply hello_verdict_Ok in H as [? _]. by apply ValidServiceName_length.
Qed.

(** The client takes a status from the wire only if it is one of the
    five defined ones in a frame of the one version; any other pair of bytes
    and any short frame is an error. *)
Theorem readHelloResponse_fails_closed r s :
  fst (readHelloResponse r) = Ok s ↔
  validStatus s = true ∧ ∃ rest, r_bytes r = frameVersion :: s :: rest.
Proof. apply readHelloResponse_Ok. Qed.

End Wire.
