(* ===== verification/Policy.v ===== *)
(** * The authorization engine ([policy.go])

    A policy is built once from the peer definitions and then only read.
    [Spec] states what it promises: the grant a peer's own [allow] map holds
    and nothing else. *)

From S2P Require Import Prelude GoStrings GoEncoding GoNetip GoIO Wire.
Import Wire.

Module Policy.

Record peerPolicy := {
  pp_TunnelIP : Addr;
  pp_Allow : gmap gostring AddrPort
}.

Record policy := { pol_peers : gmap Addr (gmap gostring AddrPort) }.

Section with_range.
Context {RO : GoRange}.

Definition backend_usable (b : AddrPort) : bool :=
  ap_IsValid b && negb (ap_port b =? 0)%Z && negb (IsUnspecified (ap_ip b)).

(** The inner loop of [newPolicy], over one peer's [Allow] map. *)
Fixpoint newPolicy_allow (tunnelIP : Addr) (entries : list (gostring * AddrPort))
    (allow : gmap gostring AddrPort) : result (gmap gostring AddrPort) :=
  match entries with
  | [] => Ok allow
  | (name, backend) :: entries' =>
      if negb (ValidServiceName name) then
        Err (errors_New (#"gocloak: policy: peer " ++ Addr_String tunnelIP
                         ++ #": invalid service name"))
      else if negb (ap_IsValid backend) || (ap_port backend =? 0)%Z
              || IsUnspecified (ap_ip backend) then
        Err (errors_New (#"gocloak: policy: peer " ++ Addr_String tunnelIP
                         ++ #": service " ++ name ++ #": invalid backend address"))
      else newPolicy_allow tunnelIP entries' (<[name := backend]> allow)
  end.

Fixpoint newPolicy_peers (peers : list peerPolicy) (m : gmap Addr (gmap gostring AddrPort))
    : result (gmap Addr (gmap gostring AddrPort)) :=
  match peers with
  | [] => Ok m
  | p :: peers' =>
      if negb (IsValid (pp_TunnelIP p)) then
        Err (errors_New (#"gocloak: policy: peer has an invalid tunnel ip"))
      else
        let tunnelIP := Unmap (pp_TunnelIP p) in
        if IsUnspecified tunnelIP then
          Err (errors_New (#"gocloak: policy: peer " ++ Addr_String tunnelIP
                           ++ #": unspecified tunnel ip is not allowed"))
        else if bool_decide (is_Some (m !! tunnelIP)) then
          Err (errors_New (#"gocloak: policy: duplicate tunnel ip " ++ Addr_String tunnelIP))
        else
          let? allow := newPolicy_allow tunnelIP (go_range (pp_Allow p)) ∅ in
          newPolicy_peers peers' (<[tunnelIP := allow]> m)
  end.

Definition newPolicy (peers : list peerPolicy) : result policy :=
  let? m := newPolicy_peers peers ∅ in Ok {| pol_peers := m |}.

Definition Resolve (p : policy) (peerTunnelIP : Addr) (serviceName : gostring) : AddrPort * bool :=
  match pol_peers p !! Unmap peerTunnelIP with
  | None => (AddrPort_zero, false)
  | Some allow =>
      match allow !! serviceName with
      | None => (AddrPort_zero, false)
      | Some backend => (backend, true)
      end
  end.

(** ** What a policy promises *)

Definition entry_ok (e : gostring * AddrPort) : bool :=
  ValidServiceName (fst e) && backend_usable (snd e).

Definition peer_key (p : peerPolicy) : Addr := Unmap (pp_TunnelIP p).

Definition peer_ok (p : peerPolicy) : Prop :=
  IsValid (pp_TunnelIP p) = true ∧ IsUnspecified (peer_key p) = false
  ∧ ∀ name b, pp_Allow p !! name = Some b → entry_ok (name, b) = true.

Definition peers_ok (peers : list peerPolicy) : Prop :=
  Forall peer_ok peers ∧ NoDup (peer_key <$> peers).

Definition grant (peers : list peerPolicy) (ip : Addr) (name : gostring) : option AddrPort :=
  match List.find (λ p, bool_decide (peer_key p = Unmap ip)) peers with
  | Some p => pp_Allow p !! name
  | None => None
  end.

(** ** Lemmas *)

Lemma newPolicy_allow_Ok ip es m m' :
  newPolicy_allow ip es m = Ok m' →
  Forall (λ e, entry_ok e = true) es ∧ m' = foldl (λ m e, <[fst e := snd e]> m) m es.
Proof.
  revert m. induction es as [|[name b] es IH]; intros m; simpl; [naive_solver|].
  intros H. inv_result. bool_props. apply IH in H as [A1 A2].
  split; [|done]. constructor; [|done]. unfold entry_ok, backend_usable; simpl.
  by use_bools.
Qed.

Lemma newPolicy_allow_complete ip es m :
  Forall (λ e, entry_ok e = true) es → is_Ok (newPolicy_allow ip es m) = true.
Proof.
  revert m. induction es as [|[name b] es IH]; intros m; simpl; [done|].
  intros [H1 H2]%Forall_cons. unfold entry_ok, backend_usable in H1. simpl in H1. bool_props.
  use_bools. by apply IH.
Qed.

Lemma newPolicy_allow_map ip m m' :
  newPolicy_allow ip (go_range m) ∅ = Ok m' →
  m' = m ∧ ∀ name b, m !! name = Some b → entry_ok (name, b) = true.
Proof.
  intros [HF ->]%newPolicy_allow_Ok. split.
  - rewrite foldl_insert_list by apply NoDup_go_range.
    by rewrite list_to_map_go_range, (right_id_L ∅ (∪)).
  - intros name b Hb. rewrite Forall_forall in HF. apply HF. by apply elem_of_go_range.
Qed.

Lemma newPolicy_peers_Ok peers m m' :
  newPolicy_peers peers m = Ok m' →
  Forall peer_ok peers ∧ NoDup (peer_key <$> peers)
  ∧ (∀ p, p ∈ peers → m !! peer_key p = None)
  ∧ ∀ ip, m' !! ip = match List.find (λ p, bool_decide (peer_key p = ip)) peers with
                     | Some p => Some (pp_Allow p) | None => m !! ip end.
Proof.
  revert m. induction peers as [|p peers IH]; intros m H; cbn [newPolicy_peers] in H.
  { injection H as <-. split_and!; [constructor|constructor|set_solver|done]. }
  inv_result. bool_props. apply newPolicy_allow_map in H0 as [-> Hes].
  apply eq_None_not_Some in E1.
  apply IH in H as (H1 & H2 & H3 & H4). change (Unmap (pp_TunnelIP p)) with (peer_key p) in *.
  assert (Hnew : ∀ q, q ∈ peers → peer_key q ≠ peer_key p).
  { intros q Hq Heq. apply H3 in Hq. by rewrite Heq, lookup_insert_eq in Hq. }
  split_and!.
  - by constructor.
  - simpl. constructor; [|done]. intros (q & Hq & Hin)%list_elem_of_fmap. by eapply Hnew.
  - intros q [->|Hq]%elem_of_cons; [done|].
    specialize (H3 q Hq). rewrite lookup_insert_ne in H3; [done|]. by apply not_eq_sym, Hnew.
  - intros ip. rewrite H4. simpl. destruct (decide (peer_key p = ip)) as [<-|Hne].
    + rewrite bool_decide_true by done.
      destruct (List.find _ peers) as [q|] eqn:Ef; [|by rewrite lookup_insert_eq].
      apply find_some in Ef as [Hin Heq]. bool_props.
      exfalso. eapply Hnew; [by apply list_elem_of_In|done].
    + rewrite bool_decide_false by done. by rewrite lookup_insert_ne.
Qed.

Lemma newPolicy_peers_complete peers m :
  Forall peer_ok peers → NoDup (peer_key <$> peers) →
  (∀ p, p ∈ peers → m !! peer_key p = None) → is_Ok (newPolicy_peers peers m) = true.
Proof.
  revert m. induction peers as [|p peers IH]; intros m HF Hnd Hm; [done|].
  apply Forall_cons in HF as [(H1 & H2 & H3) HF]. apply NoDup_cons in Hnd as [Hp Hnd].
  cbn [newPolicy_peers]. rewrite H1. simpl. change (Unmap (pp_TunnelIP p)) with (peer_key p).
  rewrite H2, bool_decide_false by (rewrite Hm by set_solver; apply is_Some_None).
  destruct (newPolicy_allow _ _ _) as [allow|e] eqn:Ea.
  - simpl. apply IH; [done..|]. intros q Hq. rewrite lookup_insert_ne by set_solver.
    apply Hm. set_solver.
  - assert (is_Ok (newPolicy_allow (peer_key p) (go_range (pp_Allow p)) ∅) = true) as Hc.
    { apply newPolicy_allow_complete, Forall_forall. intros [name b] Hin.
      by apply H3, elem_of_go_range. }
    by rewrite Ea in Hc.
Qed.

Lemma newPolicy_Ok_iff peers : is_Ok (newPolicy peers) = true ↔ peers_ok peers.
Proof.
  unfold newPolicy, peers_ok. split.
  - destruct (newPolicy_peers peers ∅) as [m|] eqn:E; [|done].
    intros _. apply newPolicy_peers_Ok in E. tauto.
  - intros [HF Hnd]. assert (is_Ok (newPolicy_peers peers ∅) = true) as H.
    { apply newPolicy_peers_complete; [done..|]. intros; apply lookup_empty. }
    by destruct (newPolicy_peers peers ∅).
Qed.

Lemma Resolve_grant peers p ip name :
  newPolicy peers = Ok p →
  Resolve p ip name = match grant peers ip name with
                      | Some b => (b, true) | None => (AddrPort_zero, false) end.
Proof.
  unfold newPolicy. intros H. inv_result. apply newPolicy_peers_Ok in H0 as (_ & _ & _ & Hl).
  unfold Resolve, grant. simpl. rewrite Hl. by destruct (List.find _ peers).
Qed.

Lemma grant_Some peers ip name b :
  NoDup (peer_key <$> peers) →
  grant peers ip name = Some b ↔
  ∃ p, p ∈ peers ∧ peer_key p = Unmap ip ∧ pp_Allow p !! name = Some b.
Proof.
  intros Hnd. unfold grant. split.
  - destruct (List.find _ peers) as [p|] eqn:E; [|done]. intros Hb.
    apply find_some in E as [Hin Heq]. bool_props. exists p. by rewrite list_elem_of_In.
  - intros (p & Hin & Hk & Hb). destruct (List.find _ peers) as [q|] eqn:E.
    + apply find_some in E as [Hq Heq]. bool_props. apply list_elem_of_In in Hq.
      assert (p = q) as <-; [|done].
      rewrite <- Hk in Heq.
      by eapply NoDup_key_inj.
    + apply list_elem_of_In in Hin. eapply find_none in E; [|exact Hin]. bool_props. done.
Qed.

(** ** Properties *)

(** C23: a built policy decides exactly as the peer definitions say: the
    grant is the backend the one peer at that address has for that name, and
    everything else, an unknown peer or an ungranted service alike, is the
    same denial.  IPv4-mapped spellings of an address are the same peer. *)
Theorem Resolve_refines_grants peers p ip name :
  newPolicy peers = Ok p →
  Resolve p ip name = match grant peers ip name with
                      | Some b => (b, true)
                      | None => (AddrPort_zero, false)
                      end
  ∧ ∀ b, Resolve p ip name = (b, true) ↔
         ∃ q, q ∈ peers ∧ peer_key q = Unmap ip ∧ pp_Allow q !! name = Some b.
Proof.
  intros H. pose proof (Resolve_grant peers p ip name H) as HR. split; [done|]. intros b.
  assert (peers_ok peers) as [_ Hnd] by (apply newPolicy_Ok_iff; by rewrite H).
  rewrite <- grant_Some by done. rewrite HR. destruct (grant peers ip name); naive_solver.
Qed.

(** Construction succeeds exactly on well-formed peer lists: every
    tunnel address valid and specified, distinct after unmapping, every
    service name in the charset and every backend usable.  The verdict does
    not depend on the order in which the maps are ranged over. *)
Theorem newPolicy_validates peers : is_Ok (newPolicy peers) = true ↔ peers_ok peers.
Proof. apply newPolicy_Ok_iff. Qed.

(** What a policy hands out is dialable: a valid name, a valid specified
    address and a non-zero port; the zero address-port is never a grant. *)
Theorem Resolve_grants_are_usable peers p ip name b :
  newPolicy peers = Ok p → Resolve p ip name = (b, true) →
  ValidServiceName name = true ∧ backend_usable b = true ∧ b ≠ AddrPort_zero.
Proof.
  intros H Hr. assert (peers_ok peers) as [HF Hnd] by (apply newPolicy_Ok_iff; by rewrite H).
  rewrite (Resolve_grant _ _ _ _ H) in Hr.
  destruct (grant peers ip name) as [b'|] eqn:Eg; [|done]. injection Hr as ->.
  apply grant_Some in Eg as (q & Hq & _ & Hb); [|done].
  rewrite Forall_forall in HF. destruct (HF q Hq) as (_ & _ & Hok).
  apply Hok in Hb. unfold entry_ok in Hb. simpl in Hb. bool_props.
  split_and!; [done..|]. by intros ->.
Qed.

End with_range.

#[local] Existing Instance canonical_range.

Definition demo_backend : AddrPort := AddrPortFrom (Addr4 3221225994) 3306.
Definition demo_peers : list peerPolicy :=
  [ {| pp_TunnelIP := Addr4 174260231; pp_Allow := {[ #"primary-db" := demo_backend ]} |};
    {| pp_TunnelIP := Addr6 (65535 * 2 ^ 32 + 174260232) [];
       pp_Allow := {[ #"cache" := demo_backend ]} |} ].
Definition demo_policy : policy := from_Ok {| pol_peers := ∅ |} (newPolicy demo_peers).

Lemma Resolve_refines_grants_witness :
  Resolve demo_policy (Addr6 (65535 * 2 ^ 32 + 174260231) []) (#"primary-db") = (demo_backend, true).
Proof.
  destruct (Resolve_refines_grants demo_peers demo_policy
    (Addr6 (65535 * 2 ^ 32 + 174260231) []) (#"primary-db")) as [-> _];
    [apply from_Ok_eq|]; vm_compute; reflexivity.
Defined.

Lemma Resolve_grants_are_usable_witness :
  ValidServiceName (#"cache") = true ∧ backend_usable demo_backend = true
  ∧ demo_backend ≠ AddrPort_zero.
Proof.
  apply (Resolve_grants_are_usable demo_peers demo_policy (Addr4 174260232));
    [apply from_Ok_eq|]; vm_compute; reflexivity.
Defined.

End Policy.
