(* ===== verification/Secret.v ===== *)
(** * Secret references ([secret.go]) and their scrubbing ([server.go])

    The operating system (open files, the environment) is a record of
    functions; the caller's [SecretResolver] is an optional function from a
    reference to bytes.  [scrubRef] is here because the client and the
    server share it. *)

From S2P Require Import Prelude GoStrings GoEncoding.

Module Secret.

Abbreviation SecretRef := (list Byte.byte).

Record secret := { sec_value : gostring }.
Definition bytes (s : secret) : gostring := sec_value s.
Definition String (s : secret) : gostring := #"[REDACTED]".
Definition GoString (s : secret) : gostring := #"[REDACTED]".

(** An open file: what [Stat] says its permission bits are and what
    [io.ReadAll] returns, both on the one handle. *)
Record openFile := { of_mode : result Z; of_content : result gostring }.
Record osEnv := {
  os_Open : gostring → result openFile;
  os_LookupEnv : gostring → option gostring
}.

Definition dquote : byte := byte_of_Z 34.
Definition colon : byte := ":"%byte.

Definition noSchemeMessage : gostring :=
  #"secret: reference has no scheme: want <scheme>:<value>, for example " ++
  #"file:/etc/gocloak/server.key or env:GOCLOAK_PSK, or a scheme your SecretResolver " ++
  #"handles such as aws:sm:<secret-id>. The value given is not repeated here, because a " ++
  #"reference with no scheme is usually a literal key pasted where a reference belongs".

Definition badSchemeMessage : gostring :=
  #"secret: reference does not start with a usable scheme: a scheme is a " ++
  #"lowercase letter followed by lowercase letters, digits, '+', '-' or '.', as in file:, " ++
  #"env: or aws:sm:. The value given is not repeated here, because it may be a literal key " ++
  #"pasted where a reference belongs".

Definition scheme_rest (c : byte) : bool :=
  is_digit c || bool_decide (c = "+"%byte) || bool_decide (c = "-"%byte)
  || bool_decide (c = "."%byte).

(** The loop of [validSchemeName] from index [i] on. *)
Fixpoint validSchemeName_from (i : nat) (s : gostring) : bool :=
  match s with
  | [] => true
  | c :: s' =>
      if is_lower c then validSchemeName_from (S i) s'
      else if (0 <? i) && scheme_rest c then validSchemeName_from (S i) s'
      else false
  end.
Definition validSchemeName (s : gostring) : bool :=
  match s with [] => false | _ => validSchemeName_from 0 s end.

Definition emptyRef_error : error := errors_New (#"secret: empty reference").
Definition emptyPayload_error (scheme : gostring) : error :=
  errors_New (#"secret: scheme " ++ scheme ++ #" has an empty payload: want "
              ++ scheme ++ #":<value>").

Definition parseSecretRef (ref : SecretRef) : result (gostring * gostring) :=
  if bool_decide (ref = []) then Err emptyRef_error
  else match IndexByte ref colon with
       | None => Err (errors_New noSchemeMessage)
       | Some i =>
           let scheme := take i ref in
           let payload := drop (S i) ref in
           if negb (validSchemeName scheme) then Err (errors_New badSchemeMessage)
           else if bool_decide (payload = []) then Err (emptyPayload_error scheme)
           else Ok (scheme, payload)
       end.

(** [validSecretRef] of [config.go]: the same shape check behind two fixed
    messages. *)
Definition validSecretRef (ref : SecretRef) : option error :=
  if bool_decide (ref = []) then Some (errors_New (#"is required"))
  else match parseSecretRef ref with
       | Err _ => Some (errors_New (#"must be a reference of the form <scheme>:<value>, for example file:<path> or env:<VAR>"))
       | Ok _ => None
       end.

(** [%#o] of a permission value. *)
Fixpoint oct_digits (fuel : nat) (n : Z) : gostring :=
  match fuel with
  | O => []
  | S k => if (n <? 8)%Z then [digit_byte n] else oct_digits k (n / 8) ++ [digit_byte (n mod 8)]
  end.
Definition octal (n : Z) : gostring := #"0" ++ oct_digits 12 n.

Definition Perm (mode : Z) : Z := Z.land mode 511.

Definition resolveFile (os : osEnv) (path : gostring) : result secret :=
  let pre := #"secret: file:" ++ path ++ #": " in
  let? f := rwrap pre (os_Open os path) in
  let? mode := rwrap pre (of_mode f) in
  if negb (Z.land (Perm mode) 63 =? 0)%Z then
    Err (errors_New (pre ++ #"permissions " ++ octal (Perm mode) ++ #" are looser than 0600"))
  else
    let? data := rwrap pre (of_content f) in
    Ok {| sec_value := data |}.

Definition resolveEnv (os : osEnv) (name : gostring) : result secret :=
  match os_LookupEnv os name with
  | None => Err (errors_New (#"secret: env:" ++ name ++ #": not set"))
  | Some value => Ok {| sec_value := value |}
  end.

(** A caller's [SecretResolver], [None] when the config sets none. *)
Abbreviation SecretResolver := (option (SecretRef → result gostring)).

Definition needsResolver_error (scheme : gostring) : error :=
  errors_New (#"secret: scheme " ++ [dquote] ++ scheme ++ [dquote] ++
    #" needs a Resolver: this package resolves file: and env: itself, and every other scheme comes from the SecretResolver set on ClientConfig.Resolver or ServerConfig.Resolver (aws:sm: and aws:ssm: live in github.com/jbrahy/gocloak/awssecrets)").

Definition Resolve (os : osEnv) (external : SecretResolver) (ref : SecretRef) : result secret :=
  let? '(scheme, payload) := parseSecretRef ref in
  if bool_decide (scheme = #"file") then resolveFile os payload
  else if bool_decide (scheme = #"env") then resolveEnv os payload
  else match external with
       | None => Err (needsResolver_error scheme)
       | Some resolve =>
           let? value := rwrap (#"secret: " ++ scheme ++ #": resolver: ") (resolve ref) in
           if bool_decide (value = []) then
             Err (errors_New (#"secret: " ++ scheme ++ #": resolver returned no value"))
           else Ok {| sec_value := value |}
       end.

(** ** [scrubRef] *)

Definition redactedRefPlaceholder : gostring := #"[REDACTED REF]".

(** The loop that scrubs every non-empty suffix of the reference that
    follows a colon. *)
Fixpoint scrub_suffixes (fuel : nat) (rest msg : gostring) : gostring :=
  match fuel with
  | O => msg
  | S k =>
      match IndexByte rest colon with
      | None => msg
      | Some i =>
          let rest' := drop (S i) rest in
          if bool_decide (rest' = []) then msg
          else scrub_suffixes k rest' (ReplaceAll msg rest' redactedRefPlaceholder)
      end
  end.

(** A [redactedError]: [Error] is its text, and [Unwrap] keeps the chain. *)
Definition redactedError (msg : gostring) (err : error) : error := mkError msg (e_chain err).

Definition scrubRef (err : error) (ref : SecretRef) : error :=
  redactedError (scrub_suffixes (length ref) ref (ReplaceAll (e_msg err) ref redactedRefPlaceholder)) err.

(** ** Lemmas *)

Lemma validSchemeName_from_chars i s :
  validSchemeName_from i s = true → Forall (λ c, (is_lower c || scheme_rest c) = true) s.
Proof.
  revert i. induction s as [|c s IH]; intros i; simpl; [done|].
  destruct (is_lower c) eqn:E; [intros H; constructor; [by rewrite E|by eapply IH]|].
  destruct (0 <? i); simpl; [|done]. destruct (scheme_rest c) eqn:E2; [|done].
  intros H. constructor; [by rewrite E, E2|by eapply IH].
Qed.

Lemma validSchemeName_no_colon s : validSchemeName s = true → colon ∉ s.
Proof.
  destruct s as [|c s]; [done|]. intros H%validSchemeName_from_chars Hin.
  rewrite Forall_forall in H. apply H in Hin. by vm_compute in Hin.
Qed.

Lemma parseSecretRef_Ok ref scheme payload :
  parseSecretRef ref = Ok (scheme, payload) ↔
  validSchemeName scheme = true ∧ payload ≠ [] ∧ ref = scheme ++ (colon :: payload).
Proof.
  unfold parseSecretRef. split.
  - intros H. inv_result. bool_props. apply IndexByte_Some in E0 as [Hc Hno].
    split_and!; [done..|]. by rewrite take_drop_middle.
  - intros (Hv & Hp & ->). rewrite bool_decide_false by (by destruct scheme).
    rewrite IndexByte_app by by apply validSchemeName_no_colon.
    rewrite take_app_length, Hv. simpl.
    replace (drop (S (length scheme)) (scheme ++ colon :: payload)) with payload.
    + by rewrite bool_decide_false.
    + rewrite drop_app, drop_ge by lia. by replace (S (length scheme) - length scheme) with 1 by lia.
Qed.

(** Dropping up to the first colon: the tails [scrub_suffixes] visits. *)
Inductive colon_tail : gostring → gostring → Prop :=
  | colon_tail_here s i : IndexByte s colon = Some i → colon_tail s (drop (S i) s)
  | colon_tail_next s i t :
      IndexByte s colon = Some i → colon_tail (drop (S i) s) t → colon_tail s t.

(** A text that survives scrubbing: no bracket, and not part of the
    placeholder's own words. *)
Definition scrubbable (q : gostring) : Prop :=
  ("["%byte ∉ q) ∧ ("]"%byte ∉ q) ∧ ¬ infix_of q (#"REDACTED REF").

Lemma placeholder_shape :
  redactedRefPlaceholder = "["%byte :: (#"REDACTED REF" ++ ["]"%byte]).
Proof. reflexivity. Qed.

Lemma ReplaceAll_scrubs q s old :
  old ≠ [] → scrubbable q → q = old ∨ ¬ infix_of q s →
  ¬ infix_of q (ReplaceAll s old redactedRefPlaceholder).
Proof.
  intros Hold (H1 & H2 & H3) Hq. rewrite placeholder_shape. by apply ReplaceAll_absent.
Qed.

Lemma scrub_suffixes_keeps fuel rest msg q :
  scrubbable q → ¬ infix_of q msg → ¬ infix_of q (scrub_suffixes fuel rest msg).
Proof.
  revert rest msg. induction fuel as [|k IH]; intros rest msg Hq Hno; simpl; [done|].
  destruct (IndexByte rest colon) as [i|]; [|done].
  destruct (bool_decide (drop (S i) rest = [])) eqn:E; [done|]. bool_props.
  apply IH; [done|]. apply ReplaceAll_scrubs; [done..|by right].
Qed.

Lemma scrub_suffixes_removes fuel rest msg q :
  length rest ≤ fuel → colon_tail rest q → q ≠ [] → scrubbable q →
  ¬ infix_of q (scrub_suffixes fuel rest msg).
Proof.
  revert rest msg. induction fuel as [|k IH]; intros rest msg Hlen Ht Hne Hq.
  { destruct rest; [|simpl in Hlen; lia]. inversion Ht; simplify_eq. }
  simpl. assert (∃ i, IndexByte rest colon = Some i
    ∧ (q = drop (S i) rest ∨ colon_tail (drop (S i) rest) q)) as (i & Ei & Hcase)
    by (inversion Ht; simplify_eq; eauto).
  rewrite Ei. assert (length (drop (S i) rest) ≤ k) as Hk.
  { rewrite length_drop. apply IndexByte_Some in Ei as [Hl _].
    apply lookup_lt_Some in Hl. lia. }
  destruct (bool_decide (drop (S i) rest = [])) eqn:E; bool_props.
  - destruct Hcase as [->|Ht']; [done|]. rewrite E in Ht'. inversion Ht'; simplify_eq.
  - destruct Hcase as [->|Ht'].
    + apply scrub_suffixes_keeps; [done|]. apply ReplaceAll_scrubs; [done..|by left].
    + by apply IH.
Qed.

Lemma b64_alphabet_no_colon s : Forall (λ c, b64_alphabet c = true) s → colon ∉ s.
Proof.
  intros HF Hin. rewrite Forall_forall in HF. apply HF in Hin.
  by apply b64_alphabet_not_colon in Hin.
Qed.

Lemma hex_lower_alphabet c : is_hex_lower c = true → b64_alphabet c = true.
Proof.
  revert c. apply (byte_forall (λ c, is_hex_lower c = true → b64_alphabet c = true)).
  vm_compute. reflexivity.
Qed.

Lemma parseSecretRef_no_colon s :
  colon ∉ s → parseSecretRef s =
    Err (if decide (s = []) then emptyRef_error else errors_New noSchemeMessage).
Proof.
  intros Hs. unfold parseSecretRef. destruct (decide (s = [])) as [->|Hne]; [done|].
  rewrite bool_decide_false by done. by rewrite (proj2 (IndexByte_None s colon) Hs).
Qed.

(** ** Properties *)

(** A key pasted where a reference belongs, in base64 or in hex, has no
    scheme: it is refused with one fixed message that carries no byte of it,
    and is never used as a value. *)
Theorem literal_keys_are_refused key os ext :
  key ≠ [] →
  Resolve os ext (b64_encode key) = Err (errors_New noSchemeMessage)
  ∧ Resolve os ext (hex_encode key) = Err (errors_New noSchemeMessage).
Proof.
  intros Hk. unfold Resolve. rewrite !parseSecretRef_no_colon.
  - rewrite !decide_False; [done| |].
    + by destruct key.
    + destruct key as [|a [|b [|c t]]]; done.
  - apply b64_alphabet_no_colon. eapply Forall_impl; [apply hex_encode_lower|].
    apply hex_lower_alphabet.
  - apply b64_alphabet_no_colon, b64_encode_alphabet.
Qed.

Definition no_os : osEnv :=
  {| os_Open := λ _, Err (errors_New []); os_LookupEnv := λ _, None |}.
Lemma literal_keys_are_refused_witness :
  Resolve no_os (Some (λ r, Ok r)) (b64_encode (#"k")) = Err (errors_New noSchemeMessage).
Proof. apply (literal_keys_are_refused (#"k")). discriminate. Defined.

(** No error of [parseSecretRef] quotes its input: it is one of three
    constants, or names a scheme that passed [validSchemeName] and was the
    whole of the reference but its colon. *)
Theorem parseSecretRef_errors_do_not_echo ref e :
  parseSecretRef ref = Err e →
  e ∈ [emptyRef_error; errors_New noSchemeMessage; errors_New badSchemeMessage]
  ∨ ∃ scheme, validSchemeName scheme = true ∧ ref = scheme ++ [colon]
              ∧ e = emptyPayload_error scheme.
Proof.
  unfold parseSecretRef. intros H. case_bool_decide; [left; simplify_eq; set_solver|].
  destruct (IndexByte ref colon) as [i|] eqn:Ei; [|left; simplify_eq; set_solver].
  destruct (validSchemeName (take i ref)) eqn:Ev; simpl in H; [|left; simplify_eq; set_solver].
  case_bool_decide as Hp; simplify_eq. right. exists (take i ref). split_and!; [done| |done].
  apply IndexByte_Some in Ei as [Hc _]. rewrite <- Hp. by rewrite take_drop_middle.
Qed.

Lemma parseSecretRef_errors_do_not_echo_witness :
  errors_New badSchemeMessage
    ∈ [emptyRef_error; errors_New noSchemeMessage; errors_New badSchemeMessage].
Proof.
  destruct (parseSecretRef_errors_do_not_echo (#"S3cret:key") (errors_New badSchemeMessage))
    as [H|(scheme & Hv & Hr & He)]; [reflexivity|exact H|].
  exfalso. discriminate He.
Defined.

(** C37: exactly what resolves, and to what.  A [file:] value is the content
    of a file whose group and other permission bits are all clear, checked
    on the handle that is read; an [env:] value is a set variable; any other
    well-formed scheme is the caller's resolver's non-empty answer, and a
    resolver is never asked about [file:] or [env:]. *)
Theorem Resolve_exactly os ext ref v :
  Resolve os ext ref = Ok {| sec_value := v |} ↔
  ∃ scheme payload, validSchemeName scheme = true ∧ payload ≠ []
    ∧ ref = scheme ++ (colon :: payload)
    ∧ (   (scheme = #"file" ∧ ∃ f mode, os_Open os payload = Ok f ∧ of_mode f = Ok mode
             ∧ Z.land (Perm mode) 63 = 0%Z ∧ of_content f = Ok v)
        ∨ (scheme = #"env" ∧ os_LookupEnv os payload = Some v)
        ∨ (scheme ≠ #"file" ∧ scheme ≠ #"env" ∧ v ≠ []
             ∧ ∃ resolve, ext = Some resolve ∧ resolve ref = Ok v)).
Proof.
  unfold Resolve. split.
  - intros H. apply rbind_Ok in H as ([scheme payload] & Hp & H).
    apply parseSecretRef_Ok in Hp as (Hv & Hne & Href).
    exists scheme, payload. split_and!; [done..|].
    case_bool_decide; [left|right; case_bool_decide; [left|right]].
    + unfold resolveFile in H. inv_result. bool_props. naive_solver.
    + unfold resolveEnv in H. destruct (os_LookupEnv os payload); naive_solver.
    + destruct ext as [resolve|]; [|done]. inv_result. bool_props. naive_solver.
  - intros (scheme & payload & Hv & Hne & Href & Hcase).
    rewrite (proj2 (parseSecretRef_Ok ref scheme payload)) by done. simpl.
    destruct Hcase as [(-> & f & mode & Ho & Hm & Hl & Hc)|[(-> & He)|(H1 & H2 & H3 & r & -> & Hr)]].
    + rewrite bool_decide_true by done. unfold resolveFile.
      rewrite Ho. simpl. rewrite Hm. simpl. rewrite Hl. simpl. by rewrite Hc.
    + rewrite bool_decide_false, bool_decide_true by done. unfold resolveEnv. by rewrite He.
    + rewrite !bool_decide_false by done. rewrite Hr. simpl. by rewrite bool_decide_false.
Qed.

(** C38: a scrubbed error carries neither the reference nor any tail of it
    after a colon, whatever the wrapped error's text was, provided the tail
    has no bracket and is not itself a piece of the placeholder; and
    [errors.Is] still sees through it. *)
Theorem scrubRef_hides_reference err ref q :
  q = ref ∨ colon_tail ref q → q ≠ [] → scrubbable q →
  ¬ infix_of q (e_msg (scrubRef err ref))
  ∧ ∀ s, errors_Is (scrubRef err ref) s = errors_Is err s.
Proof.
  intros Hq Hne Hs. split; [|done]. simpl.
  destruct Hq as [->|Ht].
  - apply scrub_suffixes_keeps; [done|]. apply ReplaceAll_scrubs; [done..|by left].
  - by apply scrub_suffixes_removes.
Qed.

Definition store_error : error :=
  errors_New (#"GetSecretValue prod/db/key: aws:sm:prod/db/key: AccessDenied for sm:prod/db/key").
Lemma scrubRef_hides_reference_witness :
  ¬ infix_of (#"prod/db/key") (e_msg (scrubRef store_error (#"aws:sm:prod/db/key"))).
Proof.
  apply (scrubRef_hides_reference store_error (#"aws:sm:prod/db/key") (#"prod/db/key")).
  - right. eapply colon_tail_next; [reflexivity|]. exact (colon_tail_here (#"sm:prod/db/key") 2 eq_refl).
  - discriminate.
  - split_and!; [by apply (bool_decide_eq_false_1 _)..|].
    by apply (bool_decide_eq_false_1 (infix_of (#"prod/db/key") (#"REDACTED REF"))).
Defined.

End Secret.
