(* ===== verification/Yaml.v ===== *)
(** * Strict YAML decoding and error redaction ([decodeStrict],
    [sanitizeYAMLError], [sanitizeYAMLMessage] of [config.go])

    The YAML library is a parameter: what its two [Decode] calls report is
    the input here.  The message shapes of its [TypeError] are stated as
    functions of the document text they embed, so that redaction is a
    statement about every such text. *)

From S2P Require Import Prelude GoStrings GoEncoding.

Module Yaml.

(** ** What [Decode] reports

    The end of the stream, an error (a [TypeError]
    carries its list of messages), or a value. *)
Record yaml_error := { ye_text : gostring; ye_TypeError : option (list gostring) }.
Inductive decoded (T : Type) :=
  | DecodeEOF
  | DecodeErr (e : yaml_error)
  | DecodeOk (v : T).
Arguments DecodeEOF {T}.
Arguments DecodeErr {T} _.
Arguments DecodeOk {T} _.
(** The first [Decode(v)] and the second, into a [yaml.Node]. *)
Record yaml_stream (T : Type) := { ys_first : decoded T; ys_second : decoded () }.
Arguments ys_first {T} _.
Arguments ys_second {T} _.

Definition yamlDupKeyPrefix : gostring := #"mapping key ".
Definition yamlDupKeySuffix : gostring := #" already defined at line ".
Definition yamlFieldPrefix : gostring := #"field ".
Definition yamlUnknownFieldMarker : gostring := #" not found in type ".
Definition yamlFieldSetMarker : gostring := #" already set in type ".
Definition redacted : gostring := #"(redacted)".

Definition field_tail (b : byte) : bool := is_lower b || is_digit b || bool_decide (b = "_"%byte).
(** [^[a-z][a-z0-9_]{0,39}$] *)
Definition yamlFieldNameRE : list re_item := head_tail_re is_lower field_tail 39.

Definition yamlLinePrefix (msg : gostring) : gostring :=
  if negb (HasPrefix msg (#"line ")) then []
  else match Index msg (#": ") with
       | None => []
       | Some i => take (i + 2) msg
       end.

Definition redactedValue : gostring := #"value is not valid for this field (value redacted)".

(** The last two classes of [sanitizeYAMLMessage]. *)
Definition sanitize_tail (m prefix rest : gostring) : gostring :=
  if Contains rest yamlFieldSetMarker then m else prefix ++ redactedValue.

Definition sanitize_field (m prefix rest : gostring) : gostring :=
  if HasPrefix rest yamlFieldPrefix then
    match LastIndex rest yamlUnknownFieldMarker with
    | Some i =>
        let name := drop (length yamlFieldPrefix) (take i rest) in
        if re_match yamlFieldNameRE name then m
        else prefix ++ yamlFieldPrefix ++ redacted ++ drop i rest
    | None => sanitize_tail m prefix rest
    end
  else sanitize_tail m prefix rest.

Definition sanitizeYAMLMessage (m : gostring) : gostring :=
  let prefix := yamlLinePrefix m in
  let rest := drop (length prefix) m in
  if HasPrefix rest yamlDupKeyPrefix then
    match LastIndex rest yamlDupKeySuffix with
    | Some i => prefix ++ yamlDupKeyPrefix ++ redacted ++ drop i rest
    | None => sanitize_field m prefix rest
    end
  else sanitize_field m prefix rest.

Definition sanitizeYAMLError (e : yaml_error) : error :=
  match ye_TypeError e with
  | None => errors_New (ye_text e)
  | Some msgs => errors_New (#"yaml: " ++ Join (sanitizeYAMLMessage <$> msgs) (#"; "))
  end.

Definition decodeStrict {T} (ys : yaml_stream T) : result T :=
  match ys_first ys with
  | DecodeEOF => Err (errors_New (#"empty document"))
  | DecodeErr e => Err (sanitizeYAMLError e)
  | DecodeOk v =>
      match ys_second ys with
      | DecodeOk _ => Err (errors_New (#"file contains more than one YAML document"))
      | DecodeErr e => Err (sanitizeYAMLError e)
      | DecodeEOF => Ok v
      end
  end.

(** ** The messages yaml.v3 puts into a [TypeError]

    One constructor per class the comments of [config.go] describe, with the
    line number and the text embedded: a duplicated key and the line of its
    first occurrence, an unknown field, a field set twice, and any other
    complaint. *)
Inductive yaml_message :=
  | Duplicate (key : gostring) (m : Z)
  | Unknown (name ty : gostring)
  | AlreadySet (name ty : gostring)
  | Mismatch (text : gostring).

Definition message_text (y : yaml_message) : gostring :=
  match y with
  | Duplicate key m => yamlDupKeyPrefix ++ key ++ yamlDupKeySuffix ++ itoa m
  | Unknown name ty => yamlFieldPrefix ++ name ++ yamlUnknownFieldMarker ++ ty
  | AlreadySet name ty => yamlFieldPrefix ++ name ++ yamlFieldSetMarker ++ ty
  | Mismatch text => #"cannot unmarshal " ++ text
  end.
Definition line_prefix (n : Z) : gostring := #"line " ++ itoa n ++ #": ".
Definition render (n : Z) (y : yaml_message) : gostring := line_prefix n ++ message_text y.

(** The Go types the program decodes into, as they are printed. *)
Definition go_types : list gostring :=
  [ #"gocloak.serverYAML"; #"gocloak.peersYAML"; #"gocloak.peerYAML"; #"gocloak.limitsYAML" ].

(** What the library guarantees of each class: line numbers are positive,
    types are the program's own, and a field set twice is one of the struct
    tags, hence a field name. *)
Definition message_wf (y : yaml_message) : Prop :=
  match y with
  | Duplicate _ m => (0 ≤ m)%Z
  | Unknown _ ty => ty ∈ go_types
  | AlreadySet name ty => ty ∈ go_types ∧ re_match yamlFieldNameRE name = true
  | Mismatch _ => True
  end.

(** What may be shown of a message: nothing of a duplicated key, an unknown
    field's name when it looks like one, nothing of a mismatch. *)
Definition shown (n : Z) (y : yaml_message) : gostring :=
  match y with
  | Duplicate _ m => render n (Duplicate redacted m)
  | Unknown name ty =>
      if re_match yamlFieldNameRE name then render n y else render n (Unknown redacted ty)
  | AlreadySet _ _ => render n y
  | Mismatch _ => line_prefix n ++ redactedValue
  end.

(** ** Lemmas *)

Lemma infix_of_app_disjoint p x y :
  p ≠ [] → Forall (λ c, c ∉ p) y → infix_of p (x ++ y) → infix_of p x.
Proof.
  intros Hp. revert x. induction y as [|c y IH]; intros x HF H; [by rewrite app_nil_r in H|].
  apply Forall_cons in HF as [Hc HF]. apply infix_of_split in H as [H|H]; [done| |done].
  apply (IH []) in H; [|done]. apply infix_of_nil in H. done.
Qed.

Lemma infix_of_tail_self p : p ≠ [] → ¬ infix_of p (tail p).
Proof. intros Hp H%infix_of_length. destruct p; simpl in *; [done|lia]. Qed.

Lemma Index_app_first x c p y :
  c ∉ x → Index (x ++ (c :: p) ++ y) (c :: p) = Some (length x).
Proof.
  intros Hc. induction x as [|b x IH].
  - cbn [app Index length]. change (c :: p ++ y) with ((c :: p) ++ y). by rewrite HasPrefix_app.
  - cbn [app Index HasPrefix]. rewrite bool_decide_false by set_solver.
    cbn [andb]. cbn [app] in IH. rewrite IH by set_solver. done.
Qed.

Lemma field_not_dup x : HasPrefix (yamlFieldPrefix ++ x) yamlDupKeyPrefix = false.
Proof. reflexivity. Qed.
Lemma mismatch_not_dup x : HasPrefix (#"cannot unmarshal " ++ x) yamlDupKeyPrefix = false.
Proof. reflexivity. Qed.
Lemma mismatch_not_field x : HasPrefix (#"cannot unmarshal " ++ x) yamlFieldPrefix = false.
Proof. reflexivity. Qed.

Lemma yamlLinePrefix_line n m :
  (0 ≤ n)%Z → yamlLinePrefix (line_prefix n ++ m) = line_prefix n.
Proof.
  intros Hn. unfold yamlLinePrefix, line_prefix. rewrite <- !app_assoc.
  rewrite HasPrefix_app. cbn [negb].
  rewrite (app_assoc (#"line ") (itoa n)).
  assert (":"%byte ∉ #"line " ++ itoa n) as Hc.
  { unfold itoa. rewrite (proj2 (Z.ltb_ge n 0)) by done. rewrite not_elem_of_app.
    split; [by apply (bool_decide_eq_true_1 _)|by apply utoa_no_byte]. }
  pose proof (Index_app_first _ _ [" "%byte] m Hc) as E.
  change (Index ((#"line " ++ itoa n) ++ #": " ++ m) (#": ")
          = Some (length (#"line " ++ itoa n))) in E. rewrite E.
  rewrite !app_assoc. apply take_app_length'.
  rewrite (length_app _ (#": ")). done.
Qed.

Lemma drop_line_prefix n m : drop (length (line_prefix n)) (line_prefix n ++ m) = m.
Proof. apply drop_app_length. Qed.

(** The last marker is the library's, whatever the document put before it. *)
Lemma LastIndex_marker x p y :
  p ≠ [] → Forall (λ c, c ∉ p) y → LastIndex (x ++ p ++ y) p = Some (length x).
Proof.
  intros Hp HF. apply LastIndex_app; [done|]. destruct p as [|c p]; [done|]. simpl.
  intros H%infix_of_app_disjoint; [|done|done]. by apply (infix_of_tail_self (c :: p)).
Qed.

Lemma digits_disjoint p m :
  (0 ≤ m)%Z → Forall (λ c, is_digit c = false) p → Forall (λ c, c ∉ p) (itoa m).
Proof.
  intros Hm HF. unfold itoa. rewrite (proj2 (Z.ltb_ge m 0)) by done.
  eapply Forall_impl; [by apply utoa_digits|]. intros c Hc Hin.
  rewrite Forall_forall in HF. apply HF in Hin. congruence.
Qed.

Lemma go_type_no_marker ty : ty ∈ go_types →
  ¬ infix_of yamlUnknownFieldMarker (tail (yamlUnknownFieldMarker ++ ty)).
Proof.
  intros H. apply (bool_decide_eq_true_1 _).
  unfold go_types in H. repeat (apply elem_of_cons in H as [->|H]; [by vm_compute|]).
  by apply elem_of_nil in H.
Qed.

(** A field name holds no blank, so no marker can start inside it. *)
Lemma field_name_no_blank name : re_match yamlFieldNameRE name = true → " "%byte ∉ name.
Proof.
  intros (c & t & -> & Hc & HF & _)%head_tail_re_match. rewrite Forall_forall in HF.
  intros [<-|Hin%HF]%elem_of_cons; vm_compute in *; discriminate.
Qed.

Lemma infix_of_drop_free p c x s : c ∉ x → infix_of (c :: p) (x ++ s) → infix_of (c :: p) s.
Proof.
  intros Hc. induction x as [|b x IH]; [done|]. intros (a & t & E).
  destruct a as [|a0 a]; simplify_eq/=; [set_solver|].
  apply IH; [set_solver|]. by exists a, t.
Qed.

Lemma app_cut_inj (c : byte) x s y t :
  c ∉ x → c ∉ y → x ++ c :: s = y ++ c :: t → x = y ∧ s = t.
Proof.
  intros Hx Hy E. pose proof (IndexByte_app x c s Hx) as H1. rewrite E in H1.
  rewrite IndexByte_app in H1 by done. injection H1 as H1.
  apply app_inj_1 in E as [-> E]; [|done]. by simplify_eq.
Qed.

Lemma already_set_no_unknown name ty :
  re_match yamlFieldNameRE name = true → ty ∈ go_types →
  LastIndex (message_text (AlreadySet name ty)) yamlUnknownFieldMarker = None.
Proof.
  intros Hn%field_name_no_blank Hty. apply LastIndex_None. unfold message_text.
  assert (¬ infix_of yamlUnknownFieldMarker (yamlFieldSetMarker ++ ty)) as Htl.
  { apply (bool_decide_eq_true_1 _). unfold go_types in Hty.
    repeat (apply elem_of_cons in Hty as [->|Hty]; [by vm_compute|]).
    by apply elem_of_nil in Hty. }
  intros H. apply Htl. change yamlFieldPrefix with (#"field" ++ #" ") in H.
  rewrite <- app_assoc in H.
  change yamlUnknownFieldMarker with (" "%byte :: #"not found in type ") in *.
  apply infix_of_drop_free in H; [|by apply (bool_decide_eq_true_1 _)].
  destruct H as ([|a0 a] & t & E); cbn in E; injection E as E.
  - change (name ++ " "%byte :: (#"already set in type " ++ ty)
            = #"not" ++ " "%byte :: (#"found in type " ++ t)) in E.
    apply app_cut_inj in E as [_ E]; [discriminate E|done|by apply (bool_decide_eq_true_1 _)].
  - apply (infix_of_drop_free _ _ name); [done|]. by exists a, t.
Qed.

(** ** Properties *)

(** C39: [sanitizeYAMLMessage] is exactly the redaction the comments promise on
    every well-formed message of the library: a duplicated key is never
    shown, whatever text it holds (the library's markers included); an
    unknown field's name is shown only when it has the shape of a field
    name; a resolved struct field name is kept; any other complaint loses its
    text, provided the complaint does not itself contain the already-set marker. *)
Theorem sanitizeYAMLMessage_shows_only n y :
  (0 ≤ n)%Z → message_wf y →
  match y with Mismatch _ => ¬ infix_of yamlFieldSetMarker (message_text y) | _ => True end →
  sanitizeYAMLMessage (render n y) = shown n y.
Proof.
  intros Hn Hwf Hm. unfold sanitizeYAMLMessage, render.
  rewrite yamlLinePrefix_line, drop_line_prefix by done.
  destruct y as [key m|name ty|name ty|text]; simpl in Hwf; unfold message_text.
  - rewrite HasPrefix_app. rewrite (app_assoc yamlDupKeyPrefix key).
    rewrite LastIndex_marker; [|done|].
    + rewrite drop_app_length. done.
    + apply digits_disjoint; [done|]. by apply (bool_decide_eq_true_1 _).
  - rewrite field_not_dup.
    unfold sanitize_field. rewrite HasPrefix_app, (app_assoc yamlFieldPrefix name).
    rewrite LastIndex_app; [|done|by apply go_type_no_marker].
    rewrite take_app_length, drop_app_length, drop_app_length.
    unfold shown, render, message_text. by destruct (re_match _ name).
  - rewrite field_not_dup.
    destruct Hwf as [Hty Hname]. unfold sanitize_field. rewrite HasPrefix_app.
    pose proof (already_set_no_unknown name ty Hname Hty) as E. unfold message_text in E. rewrite E.
    unfold sanitize_tail. rewrite (proj2 (Contains_true _ _)); [done|].
    eauto with gocloak.
  - rewrite mismatch_not_dup.
    unfold sanitize_field. rewrite mismatch_not_field.
    unfold sanitize_tail. destruct (Contains _ _) eqn:E; [|done].
    by apply Contains_true in E.
Qed.

Definition mismatch_witness_text : gostring := #"!!str " ++ [byte_of_Z 96] ++ #"secret" ++ [byte_of_Z 96] ++ #" into int".

Lemma sanitizeYAMLMessage_shows_only_witness :
  sanitizeYAMLMessage (render 3 (Duplicate (#"k already defined at line 9 field x already set in type t") 2))
  = #"line 3: mapping key (redacted) already defined at line 2" ∧
  sanitizeYAMLMessage (render 7 (Mismatch mismatch_witness_text))
  = #"line 7: value is not valid for this field (value redacted)".
Proof.
  split.
  - rewrite (sanitizeYAMLMessage_shows_only 3 (Duplicate _ 2)); [reflexivity|lia|simpl; lia|exact I].
  - rewrite (sanitizeYAMLMessage_shows_only 7 (Mismatch _)); [reflexivity|lia|exact I|].
    apply (bool_decide_eq_true_1 _). by vm_compute.
Defined.

End Yaml.
