(* ===== verification/Config.v ===== *)
(** * Configuration files and their validation ([config.go], first half)

    [LoadServerConfig], [LoadPeersConfig] and the checks they share.  The
    YAML library is a parameter: a decoder turns the bytes of a file into the
    outcomes of the two [Decode] calls [decodeStrict] makes. *)

From S2P Require Import Prelude GoStrings GoEncoding GoNetip GoIO Wire Policy Secret Yaml.
Import Wire Policy Secret Yaml.

Module Config.

(** ** Defaults and bounds *)

Definition DefaultMTU : Z := 1280.
Definition minMTU : Z := 1280.
Definition maxMTU : Z := 1500.
Definition DefaultMaxConcurrent : Z := 32.
Definition DefaultDialsPerSecond : Z := 10.
Definition DefaultLogFormat : gostring := #"json".
Definition wgKeyLen : Z := 32.

Definition tunnelSubnet : Prefix :=
  {| pfx_ip := AddrFrom4 [10; 99; 0; 0]%Z; pfx_bits := 24 |}.
Definition serverTunnelIP : Addr := AddrFrom4 [10; 99; 0; 1]%Z.

(** [subnetBroadcast], on 32-bit words. *)
Definition u32 (z : Z) : Z := (z mod 2 ^ 32)%Z.
Definition subnetBroadcast (p : Prefix) : Addr :=
  match As4 (pfx_ip (Masked p)) with
  | [b0; b1; b2; b3] =>
      let host := u32 (u32 (Z.shiftl 1 (32 - pfx_bits p)) - 1) in
      let v := Z.lor (Z.lor (Z.lor (Z.shiftl b0 24) (Z.shiftl b1 16)) (Z.shiftl b2 8)) b3 in
      let v' := Z.lor v host in
      AddrFrom4 [Z.shiftr v' 24 mod 256; Z.shiftr v' 16 mod 256; Z.shiftr v' 8 mod 256;
                 v' mod 256]%Z
  | _ => AddrNone
  end.

(** ** Shared checks *)

Definition parseTunnelIP (s : gostring) : result Addr :=
  if bool_decide (s = []) then Err (errors_New (#"is required"))
  else match ParseAddr s with
       | None => Err (errors_New (#"is not a valid ip address"))
       | Some a =>
           let addr := Unmap a in
           if negb (IsValid addr) || IsUnspecified addr then
             Err (errors_New (#"must not be the unspecified address"))
           else Ok addr
       end.

Definition validPublicKey (s : gostring) : option error :=
  if bool_decide (s = []) then Some (errors_New (#"is required"))
  else match b64_decode s with
       | None => Some (errors_New (#"is not valid base64"))
       | Some key =>
           if negb (Z.of_nat (length key) =? wgKeyLen)%Z then
             Some (errors_New (#"decodes to " ++ itoa (Z.of_nat (length key))
                               ++ #" bytes, want " ++ itoa wgKeyLen))
           else None
       end.

(** [if err := check; err != nil { return fmt.Errorf(pre + "%w", err) }] *)
Definition check (pre : gostring) (e : option error) : result () :=
  match e with Some e => Err (wrapf pre e) | None => Ok () end.

(** ** server.yaml *)

Record serverYAML := {
  sy_ListenPort : Z; sy_PrivateKey : SecretRef; sy_TunnelIP : gostring;
  sy_MTU : Z; sy_PeersFile : gostring; sy_LogFormat : gostring
}.
Record ServerFileConfig := {
  sf_ListenPort : Z; sf_PrivateKey : SecretRef; sf_TunnelIP : Addr;
  sf_MTU : Z; sf_PeersFile : gostring; sf_LogFormat : gostring
}.

(** The file system as [os.ReadFile]. *)
Abbreviation readFile := (gostring → result gostring).

Definition LoadServerConfig (ReadFile : readFile) (yaml : gostring → yaml_stream serverYAML)
    (path : gostring) : result ServerFileConfig :=
  let pre := #"gocloak: config: " ++ path ++ #": " in
  let? data := rwrap (#"gocloak: config: read " ++ path ++ #": ") (ReadFile path) in
  let? raw := rwrap pre (decodeStrict (yaml data)) in
  if (sy_ListenPort raw <? 1)%Z || (65535 <? sy_ListenPort raw)%Z then
    Err (errors_New (pre ++ #"listen_port " ++ itoa (sy_ListenPort raw) ++ #" is not in 1-65535"))
  else
  let? _ := check (pre ++ #"private_key: ") (validSecretRef (sy_PrivateKey raw)) in
  let? addr := rwrap (pre ++ #"tunnel_ip: ") (parseTunnelIP (sy_TunnelIP raw)) in
  if bool_decide (addr ≠ serverTunnelIP) then
    Err (errors_New (pre ++ #"tunnel_ip must be the server address "
                     ++ Addr_String serverTunnelIP ++ #" (spec section 3.2)"))
  else
  let mtu := if (sy_MTU raw =? 0)%Z then DefaultMTU else sy_MTU raw in
  if (mtu <? minMTU)%Z || (maxMTU <? mtu)%Z then
    Err (errors_New (pre ++ #"mtu " ++ itoa mtu ++ #" is not in " ++ itoa minMTU ++ #"-" ++ itoa maxMTU))
  else if bool_decide (sy_PeersFile raw = []) then
    Err (errors_New (pre ++ #"peers_file is required"))
  else
  let fmt := if bool_decide (sy_LogFormat raw = []) then DefaultLogFormat else sy_LogFormat raw in
  if bool_decide (fmt ≠ #"json" ∧ fmt ≠ #"text") then
    Err (errors_New (pre ++ #"log_format must be json or text"))
  else Ok {| sf_ListenPort := sy_ListenPort raw; sf_PrivateKey := sy_PrivateKey raw;
             sf_TunnelIP := addr; sf_MTU := mtu; sf_PeersFile := sy_PeersFile raw;
             sf_LogFormat := fmt |}.

(** ** peers.yaml *)

Record peerLimits := { MaxConcurrent : Z; DialsPerSecond : Z }.
Record peerYAML := {
  py_Name : gostring; py_PublicKey : gostring; py_PSK : SecretRef; py_TunnelIP : gostring;
  py_Limits : peerLimits; py_Allow : gmap gostring gostring
}.
Record peersYAML := { py_Peers : list peerYAML }.

Record peerConfig := {
  pr_Name : gostring; pr_PublicKey : gostring; pr_PSK : SecretRef; pr_TunnelIP : Addr;
  pr_Limits : peerLimits; pr_Allow : gmap gostring AddrPort
}.
#[export] Instance peerLimits_eq_dec : EqDecision peerLimits.
Proof. solve_decision. Defined.
#[export] Instance peerConfig_eq_dec : EqDecision peerConfig.
Proof. solve_decision. Defined.

(** [peerConfig.equal] *)
Definition peer_equal (p o : peerConfig) : bool :=
  bool_decide (pr_Name p = pr_Name o) && bool_decide (pr_PublicKey p = pr_PublicKey o)
  && bool_decide (pr_PSK p = pr_PSK o) && bool_decide (pr_TunnelIP p = pr_TunnelIP o)
  && bool_decide (pr_Limits p = pr_Limits o) && bool_decide (pr_Allow p = pr_Allow o).

Record PeersConfig := { pc_peers : list peerConfig; pc_policy : policy }.

Definition peerNames (peers : list peerConfig) : list gostring := pr_Name <$> peers.

Section with_range.
Context {RO : GoRange}.

(** The [Allow] loop of [validatePeer]. *)
Fixpoint validatePeer_allow (peer : gostring) (entries : list (gostring * gostring))
    (allow : gmap gostring AddrPort) : result (gmap gostring AddrPort) :=
  match entries with
  | [] => Ok allow
  | (name, backend) :: entries' =>
      let pre := #"peer " ++ peer ++ #": allow: " in
      if negb (ValidServiceName name) then Err (errors_New (pre ++ #"invalid service name"))
      else match ParseAddrPort backend with
           | None => Err (errors_New (pre ++ name ++ #": backend must be a literal ip:port"))
           | Some ap =>
               if negb (ap_IsValid ap) || (ap_port ap =? 0)%Z then
                 Err (errors_New (pre ++ name ++ #": backend port must not be zero"))
               else validatePeer_allow peer entries'
                      (<[name := AddrPortFrom (Unmap (ap_ip ap)) (ap_port ap)]> allow)
           end
  end.

Definition validatePeer (rp : peerYAML) : result peerConfig :=
  let pre := #"peer " ++ py_Name rp ++ #": " in
  if bool_decide (py_Name rp = []) then Err (errors_New (#"name is required"))
  else if negb (ValidServiceName (py_Name rp)) then
    Err (errors_New (#"name must match [a-z0-9][a-z0-9-]{0,62}"))
  else
  let? _ := check (pre ++ #"public_key: ") (validPublicKey (py_PublicKey rp)) in
  let? _ := check (pre ++ #"psk: ") (validSecretRef (py_PSK rp)) in
  let? addr := rwrap (pre ++ #"tunnel_ip: ") (parseTunnelIP (py_TunnelIP rp)) in
  if negb (Contains4 tunnelSubnet addr) then
    Err (errors_New (pre ++ #"tunnel_ip " ++ Addr_String addr
                     ++ #" is outside the tunnel subnet 10.99.0.0/24"))
  else if bool_decide (addr = serverTunnelIP) then
    Err (errors_New (pre ++ #"tunnel_ip " ++ Addr_String addr ++ #" is the server address"))
  else if bool_decide (addr = pfx_ip (Masked tunnelSubnet))
          || bool_decide (addr = subnetBroadcast tunnelSubnet) then
    Err (errors_New (pre ++ #"tunnel_ip " ++ Addr_String addr
                     ++ #" is not a host address in 10.99.0.0/24"))
  else
  let mc := MaxConcurrent (py_Limits rp) in
  let dps := DialsPerSecond (py_Limits rp) in
  if (mc <? 0)%Z || (dps <? 0)%Z then
    Err (errors_New (pre ++ #"limits must not be negative"))
  else
  let limits := {| MaxConcurrent := if (mc =? 0)%Z then DefaultMaxConcurrent else mc;
                   DialsPerSecond := if (dps =? 0)%Z then DefaultDialsPerSecond else dps |} in
  let? allow := validatePeer_allow (py_Name rp) (go_range (py_Allow rp)) ∅ in
  Ok {| pr_Name := py_Name rp; pr_PublicKey := py_PublicKey rp; pr_PSK := py_PSK rp;
        pr_TunnelIP := addr; pr_Limits := limits; pr_Allow := allow |}.

(** The loop of [LoadPeersConfig] at index [i], with the names, keys and
    addresses seen so far. *)
Fixpoint load_peers (pre : gostring) (i : nat) (raw : list peerYAML)
    (names keys : gset gostring) (ips : gset Addr) : result (list peerConfig) :=
  match raw with
  | [] => Ok []
  | rp :: raw' =>
      let at_i := pre ++ #"peers[" ++ itoa (Z.of_nat i) ++ #"]: " in
      let? p := rwrap at_i (validatePeer rp) in
      if bool_decide (pr_Name p ∈ names) then
        Err (errors_New (at_i ++ #"duplicate peer name " ++ pr_Name p))
      else if bool_decide (pr_PublicKey p ∈ keys) then
        Err (errors_New (at_i ++ #"peer " ++ pr_Name p ++ #": duplicate public_key"))
      else if bool_decide (pr_TunnelIP p ∈ ips) then
        Err (errors_New (at_i ++ #"peer " ++ pr_Name p ++ #": duplicate tunnel_ip "
                         ++ Addr_String (pr_TunnelIP p)))
      else
        let? peers := load_peers pre (S i) raw' ({[pr_Name p]} ∪ names)
                        ({[pr_PublicKey p]} ∪ keys) ({[pr_TunnelIP p]} ∪ ips) in
        Ok (p :: peers)
  end.

Definition peer_policy (p : peerConfig) : peerPolicy :=
  {| pp_TunnelIP := pr_TunnelIP p; pp_Allow := pr_Allow p |}.

Definition LoadPeersConfig (ReadFile : readFile) (yaml : gostring → yaml_stream peersYAML)
    (path : gostring) : result PeersConfig :=
  let pre := #"gocloak: config: " ++ path ++ #": " in
  let? data := rwrap (#"gocloak: config: read " ++ path ++ #": ") (ReadFile path) in
  let? raw := rwrap pre (decodeStrict (yaml data)) in
  let? peers := load_peers pre 0 (py_Peers raw) ∅ ∅ ∅ in
  let? policy := rwrap pre (newPolicy (peer_policy <$> peers)) in
  Ok {| pc_peers := peers; pc_policy := policy |}.

(** ** What a valid peer entry is *)

Definition backend_of (text : gostring) : option AddrPort :=
  match ParseAddrPort text with
  | Some ap => if ap_IsValid ap && negb (ap_port ap =? 0)%Z
               then Some (AddrPortFrom (Unmap (ap_ip ap)) (ap_port ap)) else None
  | None => None
  end.

Definition key_ok (s : gostring) : Prop := ∃ key, b64_decode s = Some key ∧ length key = 32.

(** The peer host addresses of the tunnel subnet: 10.99.0.2 to 10.99.0.254. *)
Definition peer_host (a : Addr) : Prop := ∃ n, (2 ≤ n ≤ 254)%Z ∧ a = Addr4 (174260224 + n).

Definition limit_default (dflt n : Z) : Z := if (n =? 0)%Z then dflt else n.

Record peer_spec (rp : peerYAML) (p : peerConfig) : Prop := {
  ps_name_valid : ValidServiceName (py_Name rp) = true;
  ps_key : key_ok (py_PublicKey rp);
  ps_psk : is_Ok (parseSecretRef (py_PSK rp)) = true;
  ps_ip : ∃ a, ParseAddr (py_TunnelIP rp) = Some a ∧ pr_TunnelIP p = Unmap a;
  ps_host : peer_host (pr_TunnelIP p);
  ps_limits : (0 ≤ MaxConcurrent (py_Limits rp))%Z ∧ (0 ≤ DialsPerSecond (py_Limits rp))%Z;
  ps_allow : ∀ n t, py_Allow rp !! n = Some t → ValidServiceName n = true ∧ is_Some (backend_of t);
  ps_Name : pr_Name p = py_Name rp;
  ps_PublicKey : pr_PublicKey p = py_PublicKey rp;
  ps_PSK : pr_PSK p = py_PSK rp;
  ps_Limits : pr_Limits p = {|
    MaxConcurrent := limit_default DefaultMaxConcurrent (MaxConcurrent (py_Limits rp));
    DialsPerSecond := limit_default DefaultDialsPerSecond (DialsPerSecond (py_Limits rp)) |};
  ps_Allow : ∀ n, pr_Allow p !! n = py_Allow rp !! n ≫= backend_of
}.

(** ** Lemmas *)

Lemma check_Ok pre e u : check pre e = Ok u ↔ e = None.
Proof. destruct e, u; simpl; naive_solver. Qed.

Lemma validPublicKey_None s : validPublicKey s = None ↔ key_ok s.
Proof.
  unfold validPublicKey, key_ok, wgKeyLen. case_bool_decide as E; [subst; split; [done|]|].
  - intros (key & [= <-] & HL). done.
  - destruct (b64_decode s) as [key|]; [|naive_solver].
    destruct (Z.of_nat (length key) =? 32)%Z eqn:EL; simpl; bool_props; split; try done.
    + intros _. exists key. split; [done|lia].
    + intros (? & [= <-] & ?). lia.
Qed.

Lemma validSecretRef_None s : validSecretRef s = None ↔ is_Ok (parseSecretRef s) = true.
Proof.
  unfold validSecretRef. case_bool_decide as E; [by subst|]. by destruct (parseSecretRef s).
Qed.

Lemma parseTunnelIP_Ok s addr :
  parseTunnelIP s = Ok addr ↔
  ∃ a, ParseAddr s = Some a ∧ addr = Unmap a ∧ IsValid addr = true ∧ IsUnspecified addr = false.
Proof.
  unfold parseTunnelIP. case_bool_decide as E; [subst; split; [done|]|].
  - intros (a & H & _). vm_compute in H. done.
  - destruct (ParseAddr s) as [a|]; [|naive_solver].
    destruct (negb (IsValid (Unmap a)) || IsUnspecified (Unmap a)) eqn:E1.
    + split; [done|]. intros (? & [= <-] & -> & H1 & H2). by rewrite H1, H2 in E1.
    + bool_props. split; [intros [= <-]; by exists a|]. by intros (? & [= <-] & -> & _).
Qed.

(** Membership in 10.99.0.0/24 is having the upper 24 bits of it. *)
Lemma Contains4_tunnelSubnet a :
  Contains4 tunnelSubnet a = true ↔ ∃ n, (0 ≤ n < 256)%Z ∧ a = Addr4 (174260224 + n).
Proof.
  destruct a as [|v|v z]; [naive_solver| |naive_solver].
  unfold Contains4. change (pfx_ip tunnelSubnet) with (Addr4 174260224). cbn iota.
  change (32 - pfx_bits tunnelSubnet)%Z with 8%Z.
  rewrite Z.eqb_eq, Z.shiftr_lxor, Z.lxor_eq_0_iff, !Z.shiftr_div_pow2 by lia.
  change (174260224 / 2 ^ 8)%Z with 680704%Z. change (2 ^ 8)%Z with 256%Z.
  pose proof (Z.div_mod v 256 ltac:(lia)) as Hd. pose proof (Z.mod_pos_bound v 256 ltac:(lia)).
  split.
  - intros E. exists (v mod 256)%Z. split; [done|]. f_equal. lia.
  - intros (n & Hn & [= ->]). Z.div_mod_to_equations. lia.
Qed.

Lemma validatePeer_allow_Ok peer es m m' :
  validatePeer_allow peer es m = Ok m' → NoDup (fst <$> es) →
  (∀ n t, (n, t) ∈ es → ValidServiceName n = true ∧ is_Some (backend_of t))
  ∧ ∀ n, m' !! n = match list_to_map (M:=gmap gostring gostring) es !! n with
                   | Some t => backend_of t | None => m !! n end.
Proof.
  revert m. induction es as [|[k t] es IH]; intros m H Hnd; cbn [validatePeer_allow] in H.
  { injection H as <-. split; [set_solver|done]. }
  apply NoDup_cons in Hnd as [Hk Hnd]. inv_result. bool_props.
  apply IH in H as [IH1 IH2]; [|done].
  assert (backend_of t = Some (AddrPortFrom (Unmap (ap_ip a)) (ap_port a))) as Hb.
  { unfold backend_of. rewrite E0. by use_bools. }
  split.
  - intros n t' [Ent|Hin]%elem_of_cons; [|eauto]. injection Ent as -> ->. rewrite Hb. eauto.
  - intros n. rewrite IH2. simpl. destruct (decide (n = k)) as [->|Hne].
    + rewrite (not_elem_of_list_to_map_1 es k) by done. by rewrite !lookup_insert_eq, Hb.
    + by rewrite !lookup_insert_ne by done.
Qed.

Lemma validatePeer_allow_complete peer es m :
  (∀ n t, (n, t) ∈ es → ValidServiceName n = true ∧ is_Some (backend_of t)) →
  is_Ok (validatePeer_allow peer es m) = true.
Proof.
  revert m. induction es as [|[k t] es IH]; intros m H; cbn [validatePeer_allow]; [done|].
  destruct (H k t) as [Hv [b Hb]]; [by left|]. rewrite Hv. simpl.
  unfold backend_of in Hb. destruct (ParseAddrPort t) as [ap|]; [|done].
  destruct (ap_IsValid ap && _) eqn:E; [|done]. bool_props. use_bools.
  apply IH. intros n t' Hin. apply H. by right.
Qed.

Lemma validatePeer_allow_range peer allow :
  (∃ m, validatePeer_allow peer (go_range allow) ∅ = Ok m) ↔
  (∀ n t, allow !! n = Some t → ValidServiceName n = true ∧ is_Some (backend_of t)).
Proof.
  split.
  - intros [m H] n t Hnt. apply validatePeer_allow_Ok in H as [H _]; [|apply NoDup_go_range].
    apply H, elem_of_go_range, Hnt.
  - intros H. destruct (validatePeer_allow peer (go_range allow) ∅) as [m|e] eqn:E; [eauto|].
    assert (is_Ok (validatePeer_allow peer (go_range allow) ∅) = true) as Hc.
    { apply validatePeer_allow_complete. intros n t Hin%elem_of_go_range. eauto. }
    by rewrite E in Hc.
Qed.

Lemma validatePeer_allow_lookup peer allow m :
  validatePeer_allow peer (go_range allow) ∅ = Ok m → ∀ n, m !! n = allow !! n ≫= backend_of.
Proof.
  intros H n. apply validatePeer_allow_Ok in H as [_ H]; [|apply NoDup_go_range].
  rewrite H, list_to_map_go_range. by destruct (allow !! n).
Qed.

(** The three address checks of [validatePeer] leave exactly the peer hosts. *)
Lemma peer_host_iff a :
  peer_host a ↔ Contains4 tunnelSubnet a = true ∧ a ≠ serverTunnelIP
                ∧ a ≠ pfx_ip (Masked tunnelSubnet) ∧ a ≠ subnetBroadcast tunnelSubnet.
Proof.
  rewrite Contains4_tunnelSubnet.
  change serverTunnelIP with (Addr4 174260225).
  change (pfx_ip (Masked tunnelSubnet)) with (Addr4 174260224).
  change (subnetBroadcast tunnelSubnet) with (Addr4 174260479).
  unfold peer_host. split.
  - intros (n & Hn & ->). split_and!; [exists n; split; [lia|done]|..]; intros [=]; lia.
  - intros ((n & Hn & ->) & H1 & H2 & H3). exists n. split; [|done].
    assert (n ≠ 0)%Z by (intros ->; by apply H2).
    assert (n ≠ 1)%Z by (intros ->; by apply H1).
    assert (n ≠ 255)%Z by (intros ->; by apply H3). lia.
Qed.

Lemma validatePeer_sound rp p : validatePeer rp = Ok p → peer_spec rp p.
Proof.
  unfold validatePeer. intros H. inv_result. bool_props.
  repeat match goal with H : check _ _ = Ok _ |- _ => apply check_Ok in H end.
  match goal with H : parseTunnelIP _ = Ok _ |- _ => apply parseTunnelIP_Ok in H as (a0 & Ha & -> & ? & ?) end.
  match goal with H : validatePeer_allow _ _ _ = Ok _ |- _ =>
    pose proof (validatePeer_allow_lookup _ _ _ H) as Hl;
    pose proof (proj1 (validatePeer_allow_range _ _) (ex_intro _ _ H)) as Hr end.
  constructor; simpl; eauto.
  - by apply validPublicKey_None.
  - by apply validSecretRef_None.
  - by apply peer_host_iff.
Qed.

Lemma validatePeer_complete rp p : peer_spec rp p → validatePeer rp = Ok p.
Proof.
  intros []. unfold validatePeer.
  rewrite bool_decide_false by (intros E; by rewrite E in ps_name_valid0).
  rewrite ps_name_valid0. simpl.
  rewrite (proj2 (validPublicKey_None _) ps_key0), (proj2 (validSecretRef_None _) ps_psk0). simpl.
  destruct ps_ip0 as (a & Ha & Hip). pose proof (proj1 (peer_host_iff _) ps_host0) as (C1 & C2 & C3 & C4).
  assert (parseTunnelIP (py_TunnelIP rp) = Ok (pr_TunnelIP p)) as ->.
  { apply parseTunnelIP_Ok. exists a. destruct ps_host0 as (n & Hn & E). rewrite E in *.
    split_and!; [done..|]. unfold IsUnspecified. apply bool_decide_false. intros [[=]|[=]]; lia. }
  simpl. rewrite C1. simpl. rewrite !bool_decide_false by done. simpl.
  destruct ps_limits0 as [L1 L2].
  rewrite (proj2 (Z.ltb_ge _ _) L1), (proj2 (Z.ltb_ge _ _) L2). simpl.
  destruct (proj2 (validatePeer_allow_range (py_Name rp) _) ps_allow0) as [m Hm]. rewrite Hm. simpl.
  assert (m = pr_Allow p) as ->.
  { apply map_eq. intros n. by rewrite (validatePeer_allow_lookup _ _ _ Hm), ps_Allow0. }
  destruct p; simpl in *; subst. done.
Qed.

Lemma validatePeer_iff rp p : validatePeer rp = Ok p ↔ peer_spec rp p.
Proof. split; [apply validatePeer_sound|apply validatePeer_complete]. Qed.

Lemma load_peers_iff pre i raw names keys ips peers :
  load_peers pre i raw names keys ips = Ok peers ↔
  Forall2 peer_spec raw peers
  ∧ (NoDup (pr_Name <$> peers) ∧ ∀ p, p ∈ peers → pr_Name p ∉ names)
  ∧ (NoDup (pr_PublicKey <$> peers) ∧ ∀ p, p ∈ peers → pr_PublicKey p ∉ keys)
  ∧ (NoDup (pr_TunnelIP <$> peers) ∧ ∀ p, p ∈ peers → pr_TunnelIP p ∉ ips).
Proof.
  assert (∀ {B} `{Countable B} (f : peerConfig → B) (p : peerConfig) ps (X : gset B),
    NoDup (f <$> p :: ps) ∧ (∀ q, q ∈ p :: ps → f q ∉ X) ↔
    (f p ∉ X) ∧ NoDup (f <$> ps) ∧ (∀ q, q ∈ ps → f q ∉ {[f p]} ∪ X)) as Hstep.
  { intros B ? ? f p ps X. rewrite fmap_cons, NoDup_cons, list_elem_of_fmap. split.
    - intros [[H1 H2] H3]. split_and!; [apply H3; left|done|].
      intros q Hq. rewrite elem_of_union, elem_of_singleton. intros [E|E]; [naive_solver|].
      revert E. apply H3. by right.
    - intros (H1 & H2 & H3). split_and!; [|done|].
      + intros (q & E & Hq). apply (H3 q Hq). set_solver.
      + intros q [->|Hq]%elem_of_cons; [done|]. specialize (H3 q Hq). set_solver. }
  revert i names keys ips peers. induction raw as [|rp raw IH]; intros i names keys ips peers.
  { simpl. split.
    - intros [= <-]. split_and!; try apply Forall2_nil_2; try apply NoDup_nil_2; set_solver.
    - intros [H _]. by apply Forall2_nil_inv_l in H as ->. }
  cbn [load_peers]. split.
  - intros H. inv_result. bool_props. apply validatePeer_iff in H0.
    apply IH in H1 as (? & ? & ? & ?). rewrite !Hstep. split_and!; by first [constructor|naive_solver].
  - intros (HF & HN & HK & HI). apply Forall2_cons_inv_l in HF as (p & ps & Hp & HF & ->).
    apply Hstep in HN as (? & HN), HK as (? & HK), HI as (? & HI).
    rewrite (proj2 (validatePeer_iff _ _) Hp). simpl.
    rewrite !bool_decide_false by done.
    rewrite (proj2 (IH _ _ _ _ ps)); done.
Qed.

Lemma decodeStrict_iff {T} (ys : yaml_stream T) v :
  decodeStrict ys = Ok v ↔ ys_first ys = DecodeOk v ∧ ys_second ys = DecodeEOF.
Proof. unfold decodeStrict. destruct (ys_first ys), (ys_second ys); naive_solver. Qed.

Lemma LoadPeersConfig_spec ReadFile yaml path c :
  LoadPeersConfig ReadFile yaml path = Ok c ↔
  ∃ data raw, ReadFile path = Ok data
    ∧ ys_first (yaml data) = DecodeOk raw ∧ ys_second (yaml data) = DecodeEOF
    ∧ Forall2 peer_spec (py_Peers raw) (pc_peers c)
    ∧ NoDup (pr_Name <$> pc_peers c) ∧ NoDup (pr_PublicKey <$> pc_peers c)
    ∧ NoDup (pr_TunnelIP <$> pc_peers c)
    ∧ newPolicy (peer_policy <$> pc_peers c) = Ok (pc_policy c).
Proof.
  unfold LoadPeersConfig. split.
  - intros H. inv_result.
    repeat match goal with
    | H : decodeStrict _ = Ok _ |- _ => apply decodeStrict_iff in H as [? ?]
    | H : load_peers _ _ _ _ _ _ = Ok _ |- _ => apply load_peers_iff in H as (? & [? _] & [? _] & [? _])
    end. eexists _, _. split_and!; eauto.
  - intros (data & raw & -> & H1 & H2 & HF & ? & ? & ? & HP). simpl.
    rewrite (proj2 (decodeStrict_iff _ raw)) by done. simpl.
    rewrite (proj2 (load_peers_iff _ _ _ _ _ _ (pc_peers c))) by (split_and!; set_solver).
    simpl. rewrite HP. simpl. by destruct c.
Qed.

Lemma peer_hosts_at_most_253 l : NoDup l → Forall peer_host l → length l ≤ 253.
Proof.
  intros Hnd HF.
  assert (l ⊆+ ((λ n, Addr4 (174260224 + n)) <$> seqZ 2 253)) as Hs.
  { apply NoDup_submseteq; [done|]. intros a Ha. rewrite Forall_forall in HF.
    destruct (HF a Ha) as (n & Hn & ->). apply list_elem_of_fmap. exists n.
    split; [done|]. apply elem_of_seqZ. lia. }
  apply submseteq_length in Hs. by rewrite length_fmap, length_seqZ in Hs.
Qed.

Lemma peer_host_Unmap a : peer_host a → Unmap a = a.
Proof. by intros (n & _ & ->). Qed.

Lemma Forall2_elem_l {A B} (R : A → B → Prop) l k y :
  Forall2 R l k → y ∈ k → ∃ x, x ∈ l ∧ R x y.
Proof. intros HF [i Hi]%list_elem_of_lookup. eapply Forall2_lookup_r in HF as (x & Hx & HR); [|done].
  exists x. split; [by eapply list_elem_of_lookup_2|done]. Qed.
Lemma Forall2_elem_r {A B} (R : A → B → Prop) l k x :
  Forall2 R l k → x ∈ l → ∃ y, y ∈ k ∧ R x y.
Proof. intros HF [i Hi]%list_elem_of_lookup. eapply Forall2_lookup_l in HF as (y & Hy & HR); [|done].
  exists y. split; [by eapply list_elem_of_lookup_2|done]. Qed.

(** ** Properties *)

(** C35: a peers file is accepted exactly when it is one strict YAML document
    whose every entry is valid (name, 32-byte key, well-formed PSK
    reference, a host address of 10.99.0.0/24 other than the server's,
    non-negative limits, named backends that are literal [ip:port]) with
    names, keys and addresses distinct and a policy that can be built; and
    then the configuration is the entries, normalised, in order.  The map
    iteration order plays no part. *)
Theorem LoadPeersConfig_iff ReadFile yaml path c :
  LoadPeersConfig ReadFile yaml path = Ok c ↔
  ∃ data raw, ReadFile path = Ok data
    ∧ ys_first (yaml data) = DecodeOk raw ∧ ys_second (yaml data) = DecodeEOF
    ∧ Forall2 peer_spec (py_Peers raw) (pc_peers c)
    ∧ NoDup (pr_Name <$> pc_peers c) ∧ NoDup (pr_PublicKey <$> pc_peers c)
    ∧ NoDup (pr_TunnelIP <$> pc_peers c)
    ∧ newPolicy (peer_policy <$> pc_peers c) = Ok (pc_policy c).
Proof. apply LoadPeersConfig_spec. Qed.

(** C7: the authorization the loaded configuration carries is exactly the
    file's: a caller at [ip] gets a backend for a service when some entry
    spells that address (in any spelling, IPv4-mapped included) and lists
    that service with that backend. *)
Theorem LoadPeersConfig_authorizes ReadFile yaml path data raw c ip svc b :
  ReadFile path = Ok data → ys_first (yaml data) = DecodeOk raw →
  LoadPeersConfig ReadFile yaml path = Ok c →
  Policy.Resolve (pc_policy c) ip svc = (b, true) ↔
  ∃ rp a text, rp ∈ py_Peers raw ∧ ParseAddr (py_TunnelIP rp) = Some a ∧ Unmap a = Unmap ip
    ∧ py_Allow rp !! svc = Some text ∧ backend_of text = Some b.
Proof.
  intros Hd Hr (? & ? & E1 & E2 & _ & HF & _ & _ & HI & HP)%LoadPeersConfig_spec.
  rewrite Hd in E1. injection E1 as <-. rewrite Hr in E2. injection E2 as <-.
  assert (peers_ok (peer_policy <$> pc_peers c)) as [_ Hnd] by (apply newPolicy_Ok_iff; by rewrite HP).
  rewrite (Resolve_grant _ _ _ _ HP). trans (grant (peer_policy <$> pc_peers c) ip svc = Some b).
  { destruct (grant _ _ _); naive_solver. }
  rewrite grant_Some by done. unfold peer_key. split.
  - intros (q & (p & -> & Hp)%list_elem_of_fmap & Hip & Hb).
    destruct (Forall2_elem_l _ _ _ _ HF Hp) as (rp & Hrp & []).
    destruct ps_ip0 as (a & Ha & Ea). simpl in *. rewrite ps_Allow0 in Hb.
    destruct (py_Allow rp !! svc) as [text|] eqn:Et; [|done].
    exists rp, a, text. split_and!; [done|done| |done|done].
    rewrite Ea, Unmap_idemp in Hip. done.
  - intros (rp & a & text & Hrp & Ha & Hip & Ht & Hb).
    destruct (Forall2_elem_r _ _ _ _ HF Hrp) as (p & Hp & []).
    destruct ps_ip0 as (a' & Ha' & Ea). exists (peer_policy p).
    split_and!; [by apply list_elem_of_fmap_2|..]; simpl.
    + simplify_eq. by rewrite Ea, Unmap_idemp.
    + by rewrite ps_Allow0, Ht.
Qed.

(** Whoever the file lists has an address of its own that is not the
    server's, the network's or the broadcast address, so a configuration
    holds at most 253 peers; limits in force are positive and below the
    defaults only when the file says so. *)
Theorem LoadPeersConfig_bounds ReadFile yaml path c :
  LoadPeersConfig ReadFile yaml path = Ok c →
  length (pc_peers c) ≤ 253
  ∧ Forall (λ p, peer_host (pr_TunnelIP p) ∧ pr_TunnelIP p ≠ serverTunnelIP
                 ∧ (0 < MaxConcurrent (pr_Limits p))%Z ∧ (0 < DialsPerSecond (pr_Limits p))%Z)
           (pc_peers c).
Proof.
  intros (data & raw & _ & _ & _ & HF & _ & _ & HI & _)%LoadPeersConfig_spec.
  assert (Forall (λ p, ∃ rp, peer_spec rp p) (pc_peers c)) as HP.
  { apply Forall_forall. intros p Hp. destruct (Forall2_elem_l _ _ _ _ HF Hp) as (rp & _ & Hs). eauto. }
  split.
  - rewrite <- (length_fmap pr_TunnelIP). apply peer_hosts_at_most_253; [done|].
    apply Forall_fmap. eapply Forall_impl; [exact HP|]. by intros p (rp & []).
  - eapply Forall_impl; [exact HP|]. intros p (rp & []).
    pose proof (proj1 (peer_host_iff _) ps_host0) as (_ & Hs & _).
    split; [done|split; [done|split]]; rewrite ps_Limits0; simpl; unfold limit_default;
      case_match; bool_props; first [reflexivity|lia].
Qed.

(** What [server.yaml] must say, and what is made of it. *)
Record server_spec (raw : serverYAML) (c : ServerFileConfig) : Prop := {
  ss_port : (1 ≤ sy_ListenPort raw ≤ 65535)%Z;
  ss_key : is_Ok (parseSecretRef (sy_PrivateKey raw)) = true;
  ss_ip : parseTunnelIP (sy_TunnelIP raw) = Ok serverTunnelIP;
  ss_mtu : sy_MTU raw = 0%Z ∨ (1280 ≤ sy_MTU raw ≤ 1500)%Z;
  ss_peers : sy_PeersFile raw ≠ [];
  ss_fmt : sy_LogFormat raw ∈ [ []; #"json"; #"text" ];
  ss_result : c = {|
    sf_ListenPort := sy_ListenPort raw; sf_PrivateKey := sy_PrivateKey raw;
    sf_TunnelIP := serverTunnelIP; sf_MTU := limit_default DefaultMTU (sy_MTU raw);
    sf_PeersFile := sy_PeersFile raw;
    sf_LogFormat := if bool_decide (sy_LogFormat raw = []) then #"json" else sy_LogFormat raw |}
}.

Lemma LoadServerConfig_spec ReadFile yaml path c :
  LoadServerConfig ReadFile yaml path = Ok c ↔
  ∃ data raw, ReadFile path = Ok data
    ∧ ys_first (yaml data) = DecodeOk raw ∧ ys_second (yaml data) = DecodeEOF
    ∧ server_spec raw c.
Proof.
  unfold LoadServerConfig. split.
  - intros H. inv_result. bool_props.
    repeat match goal with
    | H : decodeStrict _ = Ok _ |- _ => apply decodeStrict_iff in H as [? ?]
    | H : check _ _ = Ok _ |- _ => apply check_Ok in H
    | H : ¬ (_ ≠ _) |- _ => apply dec_stable in H; subst
    end.
    eexists _, _. split_and!; [done..|]. constructor; try done.
    + by apply validSecretRef_None.
    + unfold minMTU, maxMTU in *. destruct (sy_MTU _ =? 0)%Z eqn:E; bool_props; [by left|right; lia].
    + match goal with H : ys_first _ = DecodeOk ?r |- _ => rename r into raw end.
      destruct (decide (sy_LogFormat raw = [])) as [->|Hne]; [by left|].
      rewrite bool_decide_false in * by done.
      destruct (decide (sy_LogFormat raw = #"json")) as [->|]; [by right; left|].
      destruct (decide (sy_LogFormat raw = #"text")) as [->|]; [by right; right; left|]. naive_solver.
  - intros (data & raw & -> & H1 & H2 & []). simpl.
    rewrite (proj2 (decodeStrict_iff _ raw)) by done. simpl.
    rewrite (proj2 (Z.ltb_ge _ _)), (proj2 (Z.ltb_ge 65535 _)) by lia. simpl.
    rewrite (proj2 (validSecretRef_None _)) by done. simpl. rewrite ss_ip0. simpl.
    rewrite bool_decide_false by naive_solver.
    assert (∀ m, m = 0 ∨ 1280 ≤ m ≤ 1500 → ((if m =? 0 then DefaultMTU else m) <? minMTU)
      || (maxMTU <? (if m =? 0 then DefaultMTU else m)) = false)%Z as Hm.
    { intros m Hm. unfold minMTU, maxMTU. destruct (m =? 0)%Z eqn:E; [done|]. bool_props.
      apply orb_false_iff. split; apply Z.ltb_ge; lia. }
    rewrite Hm by done.
    subst c. rewrite (bool_decide_false (_ ∧ _)); [done|].
    repeat (apply elem_of_cons in ss_fmt0 as [->|ss_fmt0]; [by apply (bool_decide_eq_true_1 _)|]).
    by apply elem_of_nil in ss_fmt0.
Qed.

(** [server.yaml] is accepted exactly when it is one strict document
    whose port, key reference, tunnel address, MTU, peers file and log format
    are all in bounds, with the MTU and the log format defaulted; in
    particular the server can only take its own tunnel address. *)
Theorem LoadServerConfig_iff ReadFile yaml path c :
  LoadServerConfig ReadFile yaml path = Ok c ↔
  ∃ data raw, ReadFile path = Ok data
    ∧ ys_first (yaml data) = DecodeOk raw ∧ ys_second (yaml data) = DecodeEOF
    ∧ server_spec raw c.
Proof. apply LoadServerConfig_spec. Qed.

End with_range.
(** ** Concrete files *)

#[local] Existing Instance canonical_range.

Definition zero_key : gostring := #"AAAAAAAAAAAAAAAAAAAAAAAAAAAAAAAAAAAAAAAAAAA=".
(** The same 32 bytes: only bits the encoding ignores differ. *)
Definition zero_key' : gostring := #"AAAAAAAAAAAAAAAAAAAAAAAAAAAAAAAAAAAAAAAAAAB=".

Definition raw_app : peerYAML := {|
  py_Name := #"app-1"; py_PublicKey := zero_key; py_PSK := #"env:APP_PSK";
  py_TunnelIP := #"10.99.0.7"; py_Limits := {| MaxConcurrent := 4; DialsPerSecond := 0 |};
  py_Allow := {[ #"primary-db" := #"192.0.2.10:3306" ]} |}.
Definition raw_twin : peerYAML := {|
  py_Name := #"app-2"; py_PublicKey := zero_key'; py_PSK := #"env:APP_PSK";
  py_TunnelIP := #"::ffff:10.99.0.8"; py_Limits := {| MaxConcurrent := 0; DialsPerSecond := 0 |};
  py_Allow := ∅ |}.

Definition one_document {T} (v : T) : gostring → yaml_stream T :=
  λ _, {| ys_first := DecodeOk v; ys_second := DecodeEOF |}.
Definition demo_file : readFile := λ _, Ok [].
Definition demo_raw : peersYAML := {| py_Peers := [raw_app; raw_twin] |}.
Definition no_config : PeersConfig := {| pc_peers := []; pc_policy := {| pol_peers := ∅ |} |}.
Definition demo_config : PeersConfig :=
  from_Ok no_config (LoadPeersConfig demo_file (one_document demo_raw) (#"peers.yaml")).

Lemma demo_config_loads :
  LoadPeersConfig demo_file (one_document demo_raw) (#"peers.yaml") = Ok demo_config.
Proof. apply from_Ok_eq. by vm_compute. Qed.

Lemma LoadPeersConfig_authorizes_witness :
  Policy.Resolve (pc_policy demo_config) (Addr4 174260231) (#"primary-db")
  = (AddrPortFrom (Addr4 3221225994) 3306, true).
Proof.
  apply (LoadPeersConfig_authorizes demo_file (one_document demo_raw) (#"peers.yaml") [] demo_raw);
    [reflexivity|reflexivity|apply demo_config_loads|].
  exists raw_app, (Addr4 174260231), (#"192.0.2.10:3306").
  split; [by left|]. split; [by vm_compute|]. split; [done|]. split; [by vm_compute|]. by vm_compute.
Defined.

Lemma LoadPeersConfig_bounds_witness : length (pc_peers demo_config) ≤ 253.
Proof.
  apply (LoadPeersConfig_bounds demo_file (one_document demo_raw) (#"peers.yaml")).
  apply demo_config_loads.
Defined.

(** The duplicate-key check compares the spelling of a key, not the key:
    base64 decoding ignores the last character's unused bits, so one key
    written in two ways passes as two peers, which is one peer to WireGuard. *)
Theorem LoadPeersConfig_accepts_one_key_twice :
  is_Ok (LoadPeersConfig demo_file (one_document demo_raw) (#"peers.yaml")) = true
  ∧ ((λ p, b64_decode (pr_PublicKey p)) <$> pc_peers demo_config)
    = [Some (replicate 32 "000"%byte); Some (replicate 32 "000"%byte)].
Proof. split; by vm_compute. Qed.

End Config.
