(* ===== verification/Watcher.v ===== *)
(** * Hot reload of the peers file ([config.go], second half)

    The watcher keeps the configuration in force and the identity of the file
    it last read.  The file system is a function of time: what [Stat] and
    [ReadFile] return at each instant, so that a write can fall between any
    two of the watcher's own calls.  [Run] is a step function on the cases of
    its [select]; its output is the list of calls it makes to the outside. *)

From S2P Require Import Prelude GoStrings GoPath GoNetip Policy Yaml Config.
Import Policy Yaml Config.

Module Watcher.

(** ** The difference of two peer lists *)

Record peerDiff := {
  Added : list peerConfig; Removed : list peerConfig; Changed : list peerConfig
}.
Definition no_diff : peerDiff := {| Added := []; Removed := []; Changed := [] |}.

Definition IsEmpty (d : peerDiff) : bool :=
  bool_decide (length (Added d) = 0) && bool_decide (length (Removed d) = 0)
  && bool_decide (length (Changed d) = 0).

(** [prevByKey]: the loop [m[p.PublicKey] = p]. *)
Definition byKey (ps : list peerConfig) : gmap gostring peerConfig :=
  foldl (λ m p, <[pr_PublicKey p := p]> m) ∅ ps.
(** [nextByKey] *)
Definition keySet (ps : list peerConfig) : gset gostring :=
  foldl (λ s p, {[pr_PublicKey p]} ∪ s) ∅ ps.

Definition is_added (prev : gmap gostring peerConfig) (p : peerConfig) : bool :=
  match prev !! pr_PublicKey p with None => true | Some _ => false end.
Definition is_changed (prev : gmap gostring peerConfig) (p : peerConfig) : bool :=
  match prev !! pr_PublicKey p with None => false | Some old => negb (peer_equal old p) end.

Definition diffPeers (prev next : list peerConfig) : peerDiff :=
  let prevByKey := byKey prev in
  let nextByKey := keySet next in
  {| Added := List.filter (is_added prevByKey) next;
     Changed := List.filter (is_changed prevByKey) next;
     Removed := List.filter (λ p, negb (bool_decide (pr_PublicKey p ∈ nextByKey))) prev |}.

(** What applying a difference means: removals, then entries set by key. *)
Definition patch (m : gmap gostring peerConfig) (d : peerDiff) : gmap gostring peerConfig :=
  foldl (λ m p, <[pr_PublicKey p := p]> m)
    (foldl (λ m p, delete (pr_PublicKey p) m) m (Removed d)) (Added d ++ Changed d).

(** ** The watcher *)

Record fileID := { fid_size : Z; fid_modTime : Z }.
#[export] Instance fileID_eq_dec : EqDecision fileID.
Proof. solve_decision. Defined.
Definition fileID_zero : fileID := {| fid_size := 0; fid_modTime := 0 |}.

Record reloadResult := {
  rr_Path : gostring; rr_Err : option error; rr_PeerCount : nat; rr_Diff : peerDiff
}.

(** The file system over time. *)
Record filesystem := {
  fs_Stat : nat → gostring → result fileID;
  fs_ReadFile : nat → readFile
}.

Definition statFileID (fs : filesystem) (t : nat) (path : gostring) : fileID :=
  match fs_Stat fs t path with Err _ => fileID_zero | Ok id => id end.

(** [armed] is whether the debounce timer is running. *)
Record peerWatcher := {
  w_path : gostring; w_base : gostring;
  w_cur : PeersConfig; w_seen : fileID; w_armed : bool
}.
Definition set_cur (c : PeersConfig) (id : fileID) (w : peerWatcher) : peerWatcher :=
  {| w_path := w_path w; w_base := w_base w; w_cur := c; w_seen := id; w_armed := w_armed w |}.
Definition set_seen (id : fileID) (w : peerWatcher) : peerWatcher := set_cur (w_cur w) id w.
Definition set_armed (b : bool) (w : peerWatcher) : peerWatcher :=
  {| w_path := w_path w; w_base := w_base w; w_cur := w_cur w; w_seen := w_seen w; w_armed := b |}.

Section watcher.
Context {RO : GoRange} (yaml : gostring → yaml_stream peersYAML) (fs : filesystem).

Definition load (t : nat) (path : gostring) : result PeersConfig :=
  LoadPeersConfig (fs_ReadFile fs t) yaml path.

(** [newPeerWatcher] on an absolute path, its [Stat] at [t1] and its read at
    [t2]; [watch] is what creating the watch and adding the directory
    return, an error starting with the path or the directory it is about. *)
Definition newPeerWatcher (t1 t2 : nat) (watch : option error) (abs : gostring)
    : result peerWatcher :=
  let id := statFileID fs t1 abs in
  let? cfg := load t2 abs in
  match watch with
  | Some e => Err (wrapf (#"gocloak: config: watch ") e)
  | None => Ok {| w_path := abs; w_base := Base abs; w_cur := cfg; w_seen := id; w_armed := false |}
  end.

(** The policy and the configuration in force. *)
Definition watcher_policy (w : peerWatcher) : policy := pc_policy (w_cur w).
Definition watcher_Config (w : peerWatcher) : PeersConfig := w_cur w.

(** [reloadLocked], its [Stat] at [t1] and its read at [t2]. *)
Definition reloadLocked (t1 t2 : nat) (w : peerWatcher) : peerWatcher * reloadResult :=
  let id := statFileID fs t1 (w_path w) in
  match load t2 (w_path w) with
  | Err err =>
      (set_seen id w,
       {| rr_Path := w_path w; rr_Err := Some err;
          rr_PeerCount := length (pc_peers (w_cur w)); rr_Diff := no_diff |})
  | Ok cfg =>
      let prev := w_cur w in
      (set_cur cfg id w,
       {| rr_Path := w_path w; rr_Err := None; rr_PeerCount := length (pc_peers cfg);
          rr_Diff := diffPeers (pc_peers prev) (pc_peers cfg) |})
  end.
Definition reload (t1 t2 : nat) (w : peerWatcher) : peerWatcher * reloadResult :=
  reloadLocked t1 t2 w.

(** ** The select loop of [Run] *)

Inductive run_event :=
  | CtxDone
  | FsEvent (name : gostring) (renamed_or_removed : bool)
  | FsEventsClosed
  | FsError (e : error)
  | FsErrorsClosed
  | DebounceFired (t1 t2 : nat)
  | RearmTick (t0 t1 t2 : nat).

Inductive run_action :=
  | RearmWatch                       (* w.rearmWatch() *)
  | ResetDebounce                    (* resetTimer(debounce, reloadDebounce) *)
  | LogWatchError (e : error)
  | Report (r : reloadResult).       (* w.report(r) *)

Inductive run_next := Continue (w : peerWatcher) | Return (w : peerWatcher) (err : option error).

Definition watch_closed : error := errors_New (#"gocloak: config: peers file watch closed").

(** One iteration: the next state and the calls made, in order.  A debounce
    timer that is not armed cannot fire ([None]). *)
Definition Run_step (w : peerWatcher) (ev : run_event) : option (run_next * list run_action) :=
  match ev with
  | CtxDone => Some (Return w None, [])
  | FsEventsClosed | FsErrorsClosed => Some (Return w (Some watch_closed), [])
  | FsEvent name gone =>
      if negb (bool_decide (Base name = w_base w)) then Some (Continue w, [])
      else Some (Continue (set_armed true w),
                 (if gone then [RearmWatch] else []) ++ [ResetDebounce])
  | FsError e =>
      Some (Continue (set_armed true w), [LogWatchError e; RearmWatch; ResetDebounce])
  | DebounceFired t1 t2 =>
      if negb (w_armed w) then None
      else let '(w', r) := reload t1 t2 (set_armed false w) in Some (Continue w', [Report r])
  | RearmTick t0 t1 t2 =>
      if bool_decide (statFileID fs t0 (w_path w) ≠ w_seen w) then
        let '(w', r) := reloadLocked t1 t2 w in Some (Continue w', [RearmWatch; Report r])
      else Some (Continue w, [RearmWatch])
  end.

(** A run over a sequence of events; it stops when [Run] returns. *)
Fixpoint Run (w : peerWatcher) (evs : list run_event) : option (peerWatcher * list run_action) :=
  match evs with
  | [] => Some (w, [])
  | ev :: evs' =>
      match Run_step w ev with
      | None => None
      | Some (Return w' _, acts) => Some (w', acts)
      | Some (Continue w', acts) =>
          '(w'', acts') ← Run w' evs'; Some (w'', acts ++ acts')
      end
  end.

Definition reports (acts : list run_action) : list reloadResult :=
  omap (λ a, match a with Report r => Some r | _ => None end) acts.

End watcher.

(** ** Lemmas: differences *)

Lemma peer_equal_true p o : peer_equal p o = true ↔ p = o.
Proof.
  unfold peer_equal. split; [|by intros ->; rewrite !bool_decide_true by done].
  intros H. bool_props. destruct p, o; simpl in *; by subst.
Qed.

Abbreviation keys_distinct ps := (NoDup (pr_PublicKey <$> ps)).

Lemma lookup_byKey ps k p :
  keys_distinct ps → byKey ps !! k = Some p ↔ p ∈ ps ∧ pr_PublicKey p = k.
Proof. intros H. unfold byKey. rewrite lookup_foldl_insert by done. set_solver. Qed.

Lemma elem_of_keySet ps k : k ∈ keySet ps ↔ ∃ p, p ∈ ps ∧ pr_PublicKey p = k.
Proof.
  unfold keySet. assert (∀ s : gset gostring, k ∈ foldl (λ s p, {[pr_PublicKey p]} ∪ s) s ps ↔
    k ∈ s ∨ ∃ p, p ∈ ps ∧ pr_PublicKey p = k) as Hg; [|rewrite Hg; set_solver].
  induction ps as [|q ps IH]; intros s; simpl; [set_solver|]. rewrite IH. set_solver.
Qed.

Lemma is_added_true prev p : keys_distinct prev →
  is_added (byKey prev) p = true ↔ ∀ q, q ∈ prev → pr_PublicKey q ≠ pr_PublicKey p.
Proof.
  intros Hnd. unfold is_added. destruct (byKey prev !! _) as [old|] eqn:E.
  - apply lookup_byKey in E as [? ?]; [|done]. split; [done|]. naive_solver.
  - split; [|done]. intros _ q Hq Hk.
    assert (byKey prev !! pr_PublicKey p = Some q) as E' by by apply lookup_byKey.
    congruence.
Qed.

Lemma is_changed_true prev p : keys_distinct prev →
  is_changed (byKey prev) p = true ↔ ∃ q, q ∈ prev ∧ pr_PublicKey q = pr_PublicKey p ∧ q ≠ p.
Proof.
  intros Hnd. unfold is_changed. destruct (byKey prev !! _) as [old|] eqn:E.
  - apply lookup_byKey in E as [Hin Hk]; [|done]. rewrite negb_true_iff, <- not_true_iff_false.
    rewrite peer_equal_true. split; [naive_solver|]. intros (q & Hq & Hkq & Hne).
    assert (q = old) as -> by (eapply NoDup_key_inj; [exact Hnd|done|done|congruence]). done.
  - split; [done|]. intros (q & Hq & Hk & _).
    assert (byKey prev !! pr_PublicKey p = Some q) as E' by by apply lookup_byKey.
    congruence.
Qed.

Lemma diff_keys_distinct prev next :
  keys_distinct prev → keys_distinct next →
  keys_distinct (Added (diffPeers prev next) ++ Changed (diffPeers prev next)).
Proof.
  intros Hp Hn. rewrite fmap_app, NoDup_app. split_and!.
  - eapply NoDup_key_sublist; [apply list_filter_sublist|done].
  - intros k (p & -> & Ha)%list_elem_of_fmap (q & E & Hc)%list_elem_of_fmap. simpl in *.
    apply elem_of_list_filter_b in Ha as [Ha _], Hc as [Hc _].
    pose proof (proj1 (is_added_true _ _ Hp) Ha) as Hn'.
    apply (is_changed_true _ _ Hp) in Hc as (o & Ho & Hk & _).
    apply (Hn' o Ho). congruence.
  - eapply NoDup_key_sublist; [apply list_filter_sublist|done].
Qed.

Lemma patch_no_diff m : patch m no_diff = m.
Proof. done. Qed.

(** Applying the difference turns the previous configuration into the next. *)
Lemma patch_diffPeers prev next :
  keys_distinct prev → keys_distinct next →
  patch (byKey prev) (diffPeers prev next) = byKey next.
Proof.
  intros Hp Hn. apply map_eq. intros k. apply option_eq. intros p. unfold patch.
  rewrite lookup_foldl_insert by by apply diff_keys_distinct.
  rewrite lookup_foldl_delete, !lookup_byKey by done. simpl.
  setoid_rewrite elem_of_app. setoid_rewrite elem_of_list_filter_b.
  setoid_rewrite (λ p, is_added_true prev p Hp). setoid_rewrite (λ p, is_changed_true prev p Hp).
  setoid_rewrite negb_true_iff. setoid_rewrite bool_decide_eq_false.
  setoid_rewrite elem_of_keySet. split.
  - intros [[[[_ Hin]|[_ Hin]] Hk]|(Hac & Hrem & Hin & Hk)]; [done|done|].
    destruct (decide (p ∈ next)) as [|Hnot]; [done|]. exfalso.
    destruct (decide (Exists (λ q, pr_PublicKey q = k) next)) as [He|He].
    + apply Exists_exists in He as (q & Hq & Hkq).
      apply (Hac q); [|done]. right. split; [|done]. exists p. split_and!; [done|congruence|].
      by intros ->.
    + apply (Hrem p); [|done]. split; [|done]. intros (q & Hq & Hkq).
      apply He, Exists_exists. exists q. split; [done|congruence].
  - intros [Hin Hk]. destruct (decide (p ∈ prev)) as [Hpp|Hnp].
    + right. split_and!; [| |done|done].
      * intros q [[Ha Hq]|[(o & Ho & Hko & Hne) Hq]] Hkq.
        { apply (Ha p Hpp). congruence. }
        assert (q = p) as -> by (eapply (NoDup_key_inj _ next); [done..|congruence]).
        apply Hne. eapply (NoDup_key_inj _ prev); [done..|congruence].
      * intros q [Hnot _] Hkq. apply Hnot. exists p. split; [done|congruence].
    + left. split; [|done].
      destruct (decide (Exists (λ q, pr_PublicKey q = pr_PublicKey p) prev)) as [He|He].
      * right. split; [|done]. apply Exists_exists in He as (q & Hq & Hkq).
        exists q. split_and!; [done|done|]. by intros ->.
      * left. split; [|done]. intros q Hq Hkq. apply He, Exists_exists. eauto.
Qed.

Lemma IsEmpty_true d : IsEmpty d = true ↔ d = no_diff.
Proof.
  destruct d as [a r c]. unfold IsEmpty, no_diff. simpl. split.
  - intros H. bool_props. f_equal; by apply length_zero_iff_nil.
  - by intros [= -> -> ->].
Qed.

Lemma diffPeers_empty prev next :
  keys_distinct prev → keys_distinct next →
  IsEmpty (diffPeers prev next) = true ↔ byKey prev = byKey next.
Proof.
  intros Hp Hn. rewrite IsEmpty_true. split.
  { intros E. pose proof (patch_diffPeers prev next Hp Hn) as H. by rewrite E in H. }
  intros E. unfold diffPeers, no_diff. f_equal; apply list_filter_nil; intros p Hin.
  - unfold is_added. rewrite E. by rewrite (proj2 (lookup_byKey _ _ p Hn)).
  - rewrite negb_false_iff. apply bool_decide_eq_true, elem_of_keySet.
    assert (byKey next !! pr_PublicKey p = Some p) as H%lookup_byKey; [|eauto..].
    rewrite <- E. by apply lookup_byKey.
  - unfold is_changed. rewrite E, (proj2 (lookup_byKey _ _ p Hn)) by done.
    apply negb_false_iff. by apply peer_equal_true.
Qed.

Section watcher_facts.
Context {RO : GoRange} (yaml : gostring → yaml_stream peersYAML) (fs : filesystem).

#[local] Abbreviation load := (Watcher.load yaml fs).
#[local] Abbreviation newPeerWatcher := (Watcher.newPeerWatcher yaml fs).
#[local] Abbreviation reloadLocked := (Watcher.reloadLocked yaml fs).
#[local] Abbreviation reload := (Watcher.reload yaml fs).
#[local] Abbreviation Run_step := (Watcher.Run_step yaml fs).
#[local] Abbreviation Run := (Watcher.Run yaml fs).

(** ** Lemmas: the run *)

Definition loaded (path : gostring) (c : PeersConfig) : Prop := ∃ t, load t path = Ok c.

Lemma loaded_keys_distinct path c : loaded path c → keys_distinct (pc_peers c).
Proof. intros [t (_ & _ & _ & _ & _ & _ & _ & H & _)%LoadPeersConfig_spec]. done. Qed.

(** What one reload, or no reload, does to the watcher, with its reports. *)
Record reload_effect (w w' : peerWatcher) (rs : list reloadResult) : Prop := {
  re_path : w_path w' = w_path w;
  re_loaded : loaded (w_path w') (w_cur w');
  re_patch : foldl patch (byKey (pc_peers (w_cur w))) (rr_Diff <$> rs) = byKey (pc_peers (w_cur w'));
  re_failed : Forall (λ r, rr_Err r ≠ None) rs → w_cur w' = w_cur w
}.

Lemma reload_effect_none w w' :
  w_path w' = w_path w → w_cur w' = w_cur w → loaded (w_path w) (w_cur w) → reload_effect w w' [].
Proof. intros H1 H2 H3. constructor; rewrite ?H1, ?H2; done. Qed.

Lemma reload_effect_reload t1 t2 w w' r :
  loaded (w_path w) (w_cur w) → reloadLocked t1 t2 w = (w', r) → reload_effect w w' [r].
Proof.
  unfold Watcher.reloadLocked. intros Hl H. destruct (load t2 (w_path w)) as [c|e] eqn:E; simplify_eq.
  - assert (loaded (w_path w) c) as Hc by by exists t2.
    constructor; simpl; [done|done| |].
    + apply patch_diffPeers; by eapply loaded_keys_distinct.
    + intros HF. apply Forall_cons in HF as [? _]. done.
  - by constructor.
Qed.

Lemma reload_effect_trans w1 w2 w3 rs1 rs2 :
  reload_effect w1 w2 rs1 → reload_effect w2 w3 rs2 → reload_effect w1 w3 (rs1 ++ rs2).
Proof.
  intros [] []. constructor.
  - congruence.
  - done.
  - by rewrite fmap_app, foldl_app, re_patch0, re_patch1.
  - intros [H1 H2]%Forall_app. rewrite re_failed1, re_failed0; done.
Qed.

Definition next_state (n : run_next) : peerWatcher :=
  match n with Continue w | Return w _ => w end.

Lemma Run_step_effect w ev n acts :
  loaded (w_path w) (w_cur w) → Run_step w ev = Some (n, acts) →
  reload_effect w (next_state n) (reports acts).
Proof.
  intros Hl H. destruct ev as [|name gone| |e| |t1 t2|t0 t1 t2]; cbn [Watcher.Run_step] in H;
    try (injection H as <- <-; by apply reload_effect_none).
  - destruct (negb _); [|destruct gone]; injection H as <- <-; by apply reload_effect_none.
  - destruct (negb _); [done|]. destruct (reload t1 t2 _) as [w' r] eqn:E. injection H as <- <-.
    apply reload_effect_reload in E; [|done]. by destruct E; constructor.
  - destruct (bool_decide _).
    + destruct (reloadLocked t1 t2 w) as [w' r] eqn:E. injection H as <- <-.
      by apply reload_effect_reload in E.
    + injection H as <- <-. by apply reload_effect_none.
Qed.

Lemma reports_app a b : reports (a ++ b) = reports a ++ reports b.
Proof. apply omap_app. Qed.

Lemma Run_effect w evs w' acts :
  loaded (w_path w) (w_cur w) → Run w evs = Some (w', acts) → reload_effect w w' (reports acts).
Proof.
  revert w acts. induction evs as [|ev evs IH]; intros w acts Hl H; cbn [Watcher.Run] in H.
  { injection H as <- <-. by apply reload_effect_none. }
  destruct (Run_step w ev) as [[[w1|w1 err] a1]|] eqn:E; [..|done].
  - apply bind_Some in H as ([w2 a2] & H & [= -> <-]).
    apply Run_step_effect in E; [|done]. rewrite reports_app. simpl in E.
    eapply reload_effect_trans; [exact E|]. apply IH; [apply E|done].
  - injection H as <- <-. by apply Run_step_effect in E.
Qed.

Lemma newPeerWatcher_loaded t1 t2 watch abs w :
  newPeerWatcher t1 t2 watch abs = Ok w → w_path w = abs ∧ loaded abs (w_cur w).
Proof.
  unfold Watcher.newPeerWatcher. intros H. inv_result. split; [done|]. by exists t2.
Qed.

(** ** Lemmas: what was last read *)

(** Events whose file system calls come in time order. *)
Fixpoint ordered (now : nat) (evs : list run_event) : Prop :=
  match evs with
  | [] => True
  | DebounceFired t1 t2 :: evs' => now ≤ t1 ≤ t2 ∧ ordered t2 evs'
  | RearmTick t0 t1 t2 :: evs' => (now ≤ t0 ∧ t0 ≤ t1 ≤ t2) ∧ ordered t2 evs'
  | _ :: evs' => ordered now evs'
  end.

(** A file whose size and modification time are the same at two instants was
    not written in between. *)
Definition honest_identity (path : gostring) : Prop := ∀ t1 t2 t3, t1 ≤ t2 ≤ t3 →
  statFileID fs t1 path = statFileID fs t3 path →
  fs_ReadFile fs t2 path = fs_ReadFile fs t1 path ∧ fs_ReadFile fs t3 path = fs_ReadFile fs t1 path.

(** The identity recorded was taken no later than the read that followed it. *)
Definition stat_before_read (now : nat) (w : peerWatcher) : Prop := ∃ t1 t2,
  t1 ≤ t2 ≤ now ∧ w_seen w = statFileID fs t1 (w_path w)
  ∧ ∀ c, load t2 (w_path w) = Ok c → w_cur w = c.

Lemma stat_before_read_le now now' w :
  now ≤ now' → stat_before_read now w → stat_before_read now' w.
Proof. intros H (t1 & t2 & ? & ?). exists t1, t2. split; [lia|done]. Qed.

Lemma reloadLocked_stat_before_read t1 t2 w w' r :
  t1 ≤ t2 → reloadLocked t1 t2 w = (w', r) → stat_before_read t2 w'.
Proof.
  unfold Watcher.reloadLocked. intros Hle H. exists t1, t2.
  destruct (load t2 (w_path w)) as [c|e] eqn:E; simplify_eq; simpl;
    (split_and!; [lia|lia|done|rewrite E; naive_solver]).
Qed.

Lemma Run_step_stat_before_read now w ev evs n acts :
  stat_before_read now w → ordered now (ev :: evs) → Run_step w ev = Some (n, acts) →
  ∃ now', now ≤ now' ∧ stat_before_read now' (next_state n) ∧ ordered now' evs.
Proof.
  intros Hw Ho H.
  destruct ev as [|name gone| |e| |t1 t2|t0 t1 t2]; cbn [Watcher.Run_step ordered] in *.
  1-5: exists now; repeat case_match; simplify_eq; done.
  - destruct Ho as [Hle Ho]. destruct (negb _); [done|].
    destruct (reload t1 t2 _) as [w' r] eqn:E. injection H as <- _.
    exists t2. split_and!; [lia| |done]. by eapply reloadLocked_stat_before_read; [|exact E]; lia.
  - destruct Ho as [Hle Ho]. exists t2. split; [lia|].
    destruct (bool_decide _).
    + destruct (reloadLocked t1 t2 w) as [w' r] eqn:E. injection H as <- _.
      split; [|done]. by eapply reloadLocked_stat_before_read; [|exact E]; lia.
    + injection H as <- _. split; [|done]. eapply stat_before_read_le; [|done]. lia.
Qed.

Lemma Run_stat_before_read now w evs t0 t1 t2 w' acts :
  stat_before_read now w → ordered now (evs ++ [RearmTick t0 t1 t2]) →
  Run w evs = Some (w', acts) → stat_before_read t0 w' ∧ t0 ≤ t1 ≤ t2.
Proof.
  assert (∀ evs now, ordered now (evs ++ [RearmTick t0 t1 t2]) → now ≤ t0 ∧ t0 ≤ t1 ≤ t2) as Hlast.
  { intros es. induction es as [|[] es IH]; intros n; cbn [app ordered].
    - tauto.
    - apply IH. - apply IH. - apply IH. - apply IH. - apply IH.
    - intros [Hle [? ?]%IH]. lia.
    - intros [Hle [? ?]%IH]. lia. }
  revert now w acts. induction evs as [|ev evs IH]; intros now w acts Hw Ho H; cbn [Watcher.Run] in H.
  { injection H as <- _. apply (Hlast []) in Ho as [? ?].
    split; [by eapply stat_before_read_le|done]. }
  pose proof (Hlast _ _ Ho) as [Hnow Ht].
  destruct (Run_step w ev) as [[n a1]|] eqn:E; [|done].
  eapply Run_step_stat_before_read in E as (now' & Hle & Hw' & Ho'); [|done..].
  pose proof (Hlast _ _ Ho') as [Hnow' _].
  destruct n as [w1|w1 err].
  - apply bind_Some in H as ([w2 a2] & H & [= -> _]). by eapply IH.
  - injection H as <- _. split; [by eapply stat_before_read_le|done].
Qed.

(** ** Properties *)

(** The difference the watcher reports is the difference: applied to the
    peers previously in force, keyed by public key, it gives exactly the new
    ones, and it is empty only when nothing the server acts on changed. *)
Theorem diffPeers_exact prev next :
  keys_distinct prev → keys_distinct next →
  patch (byKey prev) (diffPeers prev next) = byKey next
  ∧ (IsEmpty (diffPeers prev next) = true ↔ byKey prev = byKey next).
Proof. intros. split; [by apply patch_diffPeers|by apply diffPeers_empty]. Qed.

(** C24: whatever events, errors and reloads a run goes through, the
    configuration in force is always one that was loaded whole and passed
    every check; failed reloads alone leave it as it was; and the differences
    reported along the run, applied in order to the initial peers, give the
    peers in force, so no change of policy escapes the callback. *)
Theorem Run_accounts_for_every_change t1 t2 watch abs w evs w' acts :
  newPeerWatcher t1 t2 watch abs = Ok w → Run w evs = Some (w', acts) →
  (∃ t, load t abs = Ok (w_cur w'))
  ∧ foldl patch (byKey (pc_peers (w_cur w))) (rr_Diff <$> reports acts) = byKey (pc_peers (w_cur w'))
  ∧ (Forall (λ r, rr_Err r ≠ None) (reports acts) → w_cur w' = w_cur w).
Proof.
  intros [Hp Hl]%newPeerWatcher_loaded H. subst. apply Run_effect in H as []; [|done].
  split_and!; [by rewrite <- re_path0|done|done].
Qed.

(** C25: a missed filesystem event is made up for at the next re-arm tick:
    after any run, a tick leaves in force the configuration some read during
    the tick gives, if that is a valid one, and what was in force before if
    not.  This rests on taking the file's identity before reading it, and
    assumes that identity honest: a file whose size and modification time, all
    the code compares, are the same at two instants was not written in between.
    A rewrite of the same size within the granularity of the file system's
    clock breaks that, and is outside the claim. *)
Theorem rearm_tick_catches_up s r watch abs w evs w1 acts t0 t1 t2 w2 acts2 :
  honest_identity abs → s ≤ r →
  newPeerWatcher s r watch abs = Ok w → ordered r (evs ++ [RearmTick t0 t1 t2]) →
  Run w evs = Some (w1, acts) → Run_step w1 (RearmTick t0 t1 t2) = Some (Continue w2, acts2) →
  ∃ t, t0 ≤ t ≤ t2 ∧ match load t abs with Ok c => w_cur w2 = c | Err _ => w_cur w2 = w_cur w1 end.
Proof.
  intros Hid Hsr Hnew Ho Hrun Hstep.
  pose proof (newPeerWatcher_loaded _ _ _ _ _ Hnew) as [Hp Hl].
  assert (stat_before_read r w) as Hw.
  { clear Hp Hl Ho Hrun. unfold Watcher.newPeerWatcher in Hnew. inv_result. exists s, r. simpl.
    split_and!; [lia|lia|done|]. intros c Hc. congruence. }
  assert (w_path w1 = abs) as Hp1.
  { rewrite <- Hp in Hl. apply Run_effect in Hrun as []; [|done]. congruence. }
  eapply Run_stat_before_read in Hrun as [(u1 & u2 & Hu & Hseen & Hcur) Ht]; [|done..].
  cbn [Watcher.Run_step] in Hstep. rewrite Hp1 in *. case_bool_decide as Hne.
  - destruct (reloadLocked t1 t2 w1) as [w' rr] eqn:E. injection Hstep as -> _. exists t2. split; [lia|].
    unfold Watcher.reloadLocked in E. rewrite Hp1 in E. by destruct (load t2 abs); simplify_eq.
  - injection Hstep as -> _.
    exists t0. split; [lia|].
    destruct (Hid u1 u2 t0) as [H1 H2]; [lia|congruence|].
    assert (load t0 abs = load u2 abs) as ->; [|by destruct (load u2 abs); eauto].
    unfold Watcher.load, LoadPeersConfig. by rewrite H1, H2.
Qed.

End watcher_facts.

(** ** A concrete run: the file is replaced at time 5, unseen, and the tick at
    time 6 picks it up. *)

#[local] Existing Instance canonical_range.

Definition demo_fs : filesystem := {|
  fs_Stat t _ := Ok {| fid_size := 1; fid_modTime := if t <? 5 then 0%Z else 5%Z |};
  fs_ReadFile t _ := if t <? 5 then Ok [] else Ok (#"v2")
|}.
Definition demo_raw2 : peersYAML := {| py_Peers := [raw_twin] |}.
Definition demo_yaml (data : gostring) : yaml_stream peersYAML :=
  one_document (if bool_decide (data = []) then demo_raw else demo_raw2) data.
Definition demo_path : gostring := #"/etc/gocloak/peers.yaml".
Definition no_watcher : peerWatcher :=
  {| w_path := []; w_base := []; w_cur := no_config; w_seen := fileID_zero; w_armed := false |}.
Definition demo_w0 : peerWatcher := from_Ok no_watcher (newPeerWatcher demo_yaml demo_fs 0 0 None demo_path).
Definition demo_events : list run_event :=
  [FsEvent (#"/etc/gocloak/other") true; FsEvent demo_path true; DebounceFired 1 2].
Definition demo_run := Run demo_yaml demo_fs demo_w0 demo_events.
Definition demo_w1 : peerWatcher := match demo_run with Some (w, _) => w | None => no_watcher end.
Definition demo_tick := Run_step demo_yaml demo_fs demo_w1 (RearmTick 6 6 7).
Definition demo_w2 : peerWatcher :=
  match demo_tick with Some (Continue w, _) => w | _ => no_watcher end.

Lemma demo_w0_new : newPeerWatcher demo_yaml demo_fs 0 0 None demo_path = Ok demo_w0.
Proof. apply from_Ok_eq. by vm_compute. Qed.
Lemma demo_run_ends : ∃ acts, demo_run = Some (demo_w1, acts).
Proof.
  assert (match demo_run with Some _ => true | None => false end = true) as H by by vm_compute.
  unfold demo_w1. destruct demo_run as [[w a]|]; [by exists a|done].
Qed.
Lemma demo_tick_continues : ∃ acts, demo_tick = Some (Continue demo_w2, acts).
Proof.
  unfold demo_w2, demo_tick, Run_step. destruct (bool_decide _); [|eauto].
  destruct (reloadLocked _ _ _ _ _). eauto.
Qed.

Lemma diffPeers_exact_witness :
  patch (byKey (pc_peers demo_config)) (diffPeers (pc_peers demo_config) []) = byKey [].
Proof.
  destruct (diffPeers_exact (pc_peers demo_config) []) as [H _]; [|constructor|exact H].
  apply (bool_decide_eq_true_1 _). by vm_compute.
Defined.

Lemma Run_accounts_for_every_change_witness :
  ∃ t, load demo_yaml demo_fs t demo_path = Ok (w_cur demo_w1).
Proof.
  destruct demo_run_ends as [acts H]. unfold demo_run in H.
  destruct (@Run_accounts_for_every_change canonical_range demo_yaml demo_fs 0 0 None demo_path demo_w0 demo_events
              demo_w1 acts demo_w0_new H) as [[t Ht] _].
  exists t. exact Ht.
Defined.

Lemma rearm_tick_catches_up_witness :
  load demo_yaml demo_fs 6 demo_path = Ok (w_cur demo_w2).
Proof.
  destruct demo_run_ends as [acts H], demo_tick_continues as [acts2 H2].
  unfold demo_run in H. unfold demo_tick in H2.
  destruct (@rearm_tick_catches_up canonical_range demo_yaml demo_fs 0 0 None demo_path demo_w0 demo_events
    demo_w1 acts 6 6 7 demo_w2 acts2) as (t & Ht & E).
  - clear. intros u1 u2 u3 Hu E. unfold statFileID in E. simpl in *.
    destruct (Nat.ltb_spec u1 5), (Nat.ltb_spec u2 5), (Nat.ltb_spec u3 5); done || lia.
  - lia.
  - exact demo_w0_new.
  - vm_compute. lia.
  - exact H.
  - exact H2.
  - assert (load demo_yaml demo_fs t demo_path = load demo_yaml demo_fs 6 demo_path) as Et.
    { unfold load, demo_fs. simpl. destruct (Nat.ltb_spec t 5); [lia|done]. }
    rewrite Et in E. destruct (load demo_yaml demo_fs 6 demo_path) eqn:E6; [by rewrite E|].
    exfalso. assert (is_Ok (load demo_yaml demo_fs 6 demo_path) = true) as Hc by by vm_compute.
    by rewrite E6 in Hc.
Defined.

End Watcher.
