(* ===== verification/Watch.v ===== *)
(** * The watcher's timers and its calls of fsnotify ([config.go])

    [Watcher] takes the debounce timer to be armed or not and the directory
    watch to be there.  Here are the timer itself, with its channel and the
    clock, the select loop driven by it, and the calls that open, re-arm and
    close the watch with what they log. *)

From S2P Require Import Prelude GoStrings GoSlog GoPath GoNetip Policy Yaml Config Watcher.
Import Policy Yaml Config Watcher.

Module Watch.

(** ** [time.Timer]

    [tm_when] is when the timer fires, [tm_chan] whether a value waits in its
    channel.  [sync] tells the timers of Go 1.23 and later, whose channel holds
    no stale value once [Stop] or [Reset] has returned, from the older ones,
    which [GODEBUG=asynctimerchan=1] brings back. *)

Record timer := { tm_when : option Z; tm_chan : bool }.

Definition NewTimer (now d : Z) : timer := {| tm_when := Some (now + d)%Z; tm_chan := false |}.
Definition Stop (sync : bool) (t : timer) : bool * timer :=
  (bool_decide (is_Some (tm_when t)) || sync && tm_chan t,
   {| tm_when := None; tm_chan := negb sync && tm_chan t |}).
Definition Reset (sync : bool) (now d : Z) (t : timer) : timer :=
  {| tm_when := Some (now + d)%Z; tm_chan := negb sync && tm_chan t |}.
(** The runtime sends on the channel. *)
Definition Expire (now : Z) (t : timer) : option timer :=
  match tm_when t with
  | Some d => if (d <=? now)%Z then Some {| tm_when := None; tm_chan := true |} else None
  | None => None
  end.
(** [<-t.C], when it does not block. *)
Definition Receive (t : timer) : option timer :=
  if tm_chan t then Some {| tm_when := tm_when t; tm_chan := false |} else None.

(** The [select] with a [default] never blocks. *)
Definition stopTimer (sync : bool) (t : timer) : timer :=
  let '(stopped, t') := Stop sync t in
  if stopped then t' else match Receive t' with Some t'' => t'' | None => t' end.
Definition resetTimer (sync : bool) (now d : Z) (t : timer) : timer := Reset sync now d (stopTimer sync t).

Definition reloadDebounce : Z := (50 * 1000000)%Z.
Definition watchRearmInterval : Z := (30 * 1000000000)%Z.

(** ** Opening, re-arming and closing the watch *)

Inductive watch_call := WatchOpened | WatchClosed.

Section watch.
Context {RO : GoRange} (yaml : gostring → yaml_stream peersYAML) (fs : filesystem).

(** The whole of [newPeerWatcher]: [wd] is the working directory,
    [newWatcher] and [add] what fsnotify's two calls return. *)
Definition openPeerWatcher (wd : result gostring) (newWatcher add : option error) (t1 t2 : nat) (path : gostring)
    : result peerWatcher * list watch_call :=
  match filepath_Abs wd path with
  | Err e => (Err (wrapf (#"gocloak: config: " ++ path ++ #": ") e), [])
  | Ok abs =>
      let id := statFileID fs t1 abs in
      match load yaml fs t2 abs with
      | Err e => (Err e, [])
      | Ok cfg =>
          match newWatcher, add with
          | Some e, _ => (Err (wrapf (#"gocloak: config: watch " ++ path ++ #": ") e), [])
          | None, Some e =>
              (Err (wrapf (#"gocloak: config: watch " ++ Dir abs ++ #": ") e), [WatchOpened; WatchClosed])
          | None, None =>
              (Ok {| w_path := abs; w_base := Base abs; w_cur := cfg; w_seen := id; w_armed := false |},
               [WatchOpened])
          end
      end
  end.

(** [rearmWatch]; [add] is what [fsw.Add] returns. *)
Definition rearmWatch (add : option error) (w : peerWatcher) : list line :=
  match add with
  | Some e => [{| ln_level := Error;
                  ln_msg := #"gocloak: could not re-arm peers file watch, revocation may have stopped";
                  ln_attrs := [(#"dir", Text (Dir (w_path w))); (#"error", Text (e_msg e))] |}]
  | None => []
  end.

(** The watch error of the select loop. *)
Definition watch_error_line (e : error) (w : peerWatcher) : line :=
  {| ln_level := Error; ln_msg := #"gocloak: peers file watch error";
     ln_attrs := [(#"path", Text (w_path w)); (#"error", Text (e_msg e))] |}.

(** [report] without a callback. *)
Definition report (r : reloadResult) : list line :=
  match rr_Err r with
  | Some e => [{| ln_level := Error; ln_msg := #"gocloak: peers file reload failed, previous config still in force";
                  ln_attrs := [(#"path", Text (rr_Path r)); (#"peers_in_force", Int (Z.of_nat (rr_PeerCount r)));
                               (#"error", Text (e_msg e))] |}]
  | None =>
      if IsEmpty (rr_Diff r) then []
      else [{| ln_level := Info; ln_msg := #"gocloak: peers file reloaded";
               ln_attrs := [(#"path", Text (rr_Path r)); (#"peers", Int (Z.of_nat (rr_PeerCount r)));
                            (#"added", Names (peerNames (Added (rr_Diff r))));
                            (#"removed", Names (peerNames (Removed (rr_Diff r))));
                            (#"changed", Names (peerNames (Changed (rr_Diff r))))] |}]
  end.

(** [Close]; [closed] is whether [closeOnce] is done. *)
Definition watcher_Close (fsw_Close : option error) (closed : bool) : option error * bool :=
  if closed then (None, true) else (fsw_Close, true).

(** ** The loop of [Run] with its timer *)

Context (sync : bool).

(** [lp_reset] is for the statements only: when the debounce was last reset,
    unless it has fired since. *)
Record loop := {
  lp_watcher : peerWatcher; lp_timer : timer; lp_now : Z; lp_returned : option (option error);
  lp_reset : option Z
}.

Inductive loop_event :=
  | Wait (d : Z)                 (* time passes *)
  | Fire                         (* the runtime expires the timer *)
  | Select (ev : run_event).     (* one case of the select *)

(** What an iteration does to the timer. *)
Definition drive (now : Z) (t : timer) (a : run_action) : timer :=
  match a with ResetDebounce => resetTimer sync now reloadDebounce t | _ => t end.
Definition note_reset (now : Z) (last : option Z) (a : run_action) : option Z :=
  match a with ResetDebounce => Some now | _ => last end.

(** The case of a select; the loop has no flag, so the one in the watcher is
    always set here and the channel decides. *)
Definition select_step (l : loop) (ev : run_event) : option (loop * list run_action) :=
  '(t, last) ← match ev with
               | DebounceFired _ _ => (λ t, (t, None)) <$> Receive (lp_timer l)
               | _ => Some (lp_timer l, lp_reset l)
               end;
  '(n, acts) ← Run_step yaml fs (lp_watcher l) ev;
  let t' := foldl (drive (lp_now l)) t acts in
  let last' := foldl (note_reset (lp_now l)) last acts in
  Some (match n with
        | Continue w => {| lp_watcher := set_armed true w; lp_timer := t'; lp_now := lp_now l;
                           lp_returned := None; lp_reset := last' |}
        | Return w err => {| lp_watcher := set_armed true w; lp_timer := stopTimer sync t'; lp_now := lp_now l;
                             lp_returned := Some err; lp_reset := last' |}
        end, acts).

Definition loop_step (l : loop) (ev : loop_event) : option (loop * list run_action) :=
  match lp_returned l, ev with
  | Some _, _ => None
  | None, Wait d =>
      if (d <? 0)%Z then None
      else Some ({| lp_watcher := lp_watcher l; lp_timer := lp_timer l; lp_now := (lp_now l + d)%Z;
                    lp_returned := None; lp_reset := lp_reset l |}, [])
  | None, Fire =>
      t ← Expire (lp_now l) (lp_timer l);
      Some ({| lp_watcher := lp_watcher l; lp_timer := t; lp_now := lp_now l;
               lp_returned := None; lp_reset := lp_reset l |}, [])
  | None, Select ev => select_step l ev
  end.

Fixpoint loop_run (l : loop) (evs : list loop_event) : option (loop * list run_action) :=
  match evs with
  | [] => Some (l, [])
  | ev :: evs' =>
      '(l1, a1) ← loop_step l ev; '(l2, a2) ← loop_run l1 evs'; Some (l2, a1 ++ a2)
  end.

(** The start of [Run]: a timer made and stopped. *)
Definition loop_start (now : Z) (w : peerWatcher) : loop := {|
  lp_watcher := set_armed true w; lp_timer := stopTimer sync (NewTimer now reloadDebounce);
  lp_now := now; lp_returned := None; lp_reset := None |}.

End watch.

(** ** Lemmas: the timer *)

(** The runtime's side: a timer that is running has sent nothing. *)
Definition timer_ok (t : timer) : Prop := tm_when t = None ∨ tm_chan t = false.
Definition armed (t : timer) : bool := bool_decide (is_Some (tm_when t)) || tm_chan t.

(** Whatever the version, a stopped timer is silent and a reset one fires at
    its time and not before. *)
Lemma stopTimer_silent sync t : timer_ok t → stopTimer sync t = {| tm_when := None; tm_chan := false |}.
Proof.
  unfold stopTimer, Stop, Receive. destruct t as [[d|] []], sync; by intros [?|?].
Qed.
Lemma resetTimer_fresh sync now d t :
  timer_ok t → resetTimer sync now d t = {| tm_when := Some (now + d)%Z; tm_chan := false |}.
Proof. intros H. unfold resetTimer. rewrite stopTimer_silent by done. unfold Reset. cbn. by rewrite andb_false_r. Qed.

(** ** Lemmas: the loop and its timer *)

Section watch_facts.
Context {RO : GoRange} (yaml : gostring → yaml_stream peersYAML) (fs : filesystem) (sync : bool).

(** The timer holds what the last reset asked for. *)
Definition timed (l : loop) : Prop :=
  match tm_when (lp_timer l), tm_chan (lp_timer l), lp_reset l with
  | Some d, false, Some r => d = (r + reloadDebounce)%Z
  | None, true, Some r => (r + reloadDebounce ≤ lp_now l)%Z
  | None, false, None => True
  | None, false, Some _ => is_Some (lp_returned l)
  | _, _, _ => False
  end.

Lemma timed_ok l : timed l → timer_ok (lp_timer l).
Proof. unfold timed, timer_ok. destruct (tm_when _), (tm_chan _), (lp_reset l); by auto || intros []. Qed.

Definition resets (acts : list run_action) : bool :=
  existsb (λ a, match a with ResetDebounce => true | _ => false end) acts.

(** What [Run_step] does, told apart by what it does to the timer. *)
Lemma Run_step_acts w ev n acts :
  Run_step yaml fs w ev = Some (n, acts) →
  (∀ t now, foldl (drive sync now) t acts
     = if resets acts then resetTimer sync now reloadDebounce t else t)
  ∧ (∀ now last, foldl (note_reset now) last acts = if resets acts then Some now else last)
  ∧ w_armed (next_state n) = match ev with
                             | DebounceFired _ _ => false
                             | _ => w_armed w || resets acts
                             end
  ∧ ∀ t1 t2, ev = DebounceFired t1 t2 → resets acts = false.
Proof.
  intros H. destruct ev as [|name gone| |e| |t1 t2|t0 t1 t2]; cbn [Run_step] in H.
  - injection H as <- <-. by rewrite orb_false_r.
  - destruct (negb _); [|destruct gone]; injection H as <- <-; cbn; by rewrite ?orb_false_r, ?orb_true_r.
  - injection H as <- <-. by rewrite orb_false_r.
  - injection H as <- <-. cbn. by rewrite orb_true_r.
  - injection H as <- <-. by rewrite orb_false_r.
  - destruct (negb _); [done|]. unfold reload, reloadLocked in H. destruct (load _ _ _ _); injection H as <- <-; cbn;
      by split_and!.
  - destruct (bool_decide (statFileID _ _ _ ≠ _)); [unfold reloadLocked in H; destruct (load _ _ _ _)|];
      injection H as <- <-; cbn; by rewrite orb_false_r.
Qed.

(** The flag is all that depends on the flag. *)
Lemma Run_step_set_armed w ev b :
  (∀ t1 t2, ev = DebounceFired t1 t2 → w_armed w = true ∧ b = true) →
  match Run_step yaml fs w ev with
  | None => Run_step yaml fs (set_armed b w) ev = None
  | Some (n, acts) => ∃ n', Run_step yaml fs (set_armed b w) ev = Some (n', acts)
      ∧ match n, n' with
        | Continue w1, Continue w1' => set_armed true w1' = set_armed true w1
        | Return w1 e, Return w1' e' => set_armed true w1' = set_armed true w1 ∧ e' = e
        | _, _ => False
        end
  end.
Proof.
  intros Hb. destruct ev as [|name gone| |e| |t1 t2|t0 t1 t2]; cbn [Run_step]; try (by eexists).
  - cbn [w_base set_armed]. destruct (negb _); by eexists.
  - destruct (Hb _ _ eq_refl) as [Ha ->]. rewrite Ha. cbn [negb w_armed set_armed].
    unfold reload, reloadLocked. cbn. destruct (load _ _ _ _); by eexists.
  - cbn [w_path w_seen set_armed]. unfold reloadLocked. cbn.
    destruct (bool_decide _); [destruct (load _ _ _ _)|]; by eexists.
Qed.

(** A state of the loop and the watcher it stands for. *)
Record simulates (l : loop) (w : peerWatcher) : Prop := {
  sm_watcher : lp_watcher l = set_armed true w;
  sm_armed : lp_returned l = None → w_armed w = armed (lp_timer l);
  sm_timed : timed l
}.

Lemma simulates_start now w : w_armed w = false → simulates (loop_start sync now w) w.
Proof.
  intros Hw. unfold loop_start. rewrite stopTimer_silent by (by right). by constructor.
Qed.

Lemma select_step_simulates l w ev l' acts :
  simulates l w → lp_returned l = None → select_step yaml fs sync l ev = Some (l', acts) →
  ∃ n, Run_step yaml fs w ev = Some (n, acts) ∧ simulates l' (next_state n)
    ∧ lp_returned l' = match n with Continue _ => None | Return _ e => Some e end.
Proof.
  intros [Hw Ha Ht] Hret H. specialize (Ha Hret). pose proof (timed_ok _ Ht) as Hok.
  unfold select_step in H. apply bind_Some in H as ([t last] & Hrecv & H).
  apply bind_Some in H as ([n' acts'] & Hstep & H). injection H as <- <-.
  assert (∀ t1 t2, ev = DebounceFired t1 t2 → w_armed w = true ∧ true = true) as Hb.
  { intros t1 t2 ->. split; [|done]. rewrite Ha. unfold armed, Receive in *.
    destruct (tm_chan (lp_timer l)); [apply orb_true_r|done]. }
  pose proof (Run_step_set_armed w ev true Hb) as Hsame. rewrite <- Hw in Hsame.
  destruct (Run_step yaml fs w ev) as [[n acts]|] eqn:En; [|congruence].
  destruct Hsame as (n2 & E2 & Hn). rewrite Hstep in E2. injection E2 as <- <-.
  destruct (Run_step_acts _ _ _ _ En) as (D1 & D2 & D3 & D4). rewrite D1, D2.
  assert (timer_ok t ∧ (resets acts' = false → armed t = w_armed (next_state n)
    ∧ timed {| lp_watcher := lp_watcher l; lp_timer := t; lp_now := lp_now l; lp_returned := None; lp_reset := last |}))
    as [Hok' Hkeep].
  { destruct ev as [| | | | |t1 t2|]; try (injection Hrecv as <- <-; split; [done|]; intros E;
      rewrite E, orb_false_r in D3; split; [congruence|]; unfold timed in *; cbn; by rewrite Hret in Ht).
    unfold Receive in Hrecv. unfold timed in *. destruct (lp_timer l) as [wh ch]. cbn in *.
    destruct ch; [|done]. injection Hrecv as <- <-. split; [by right|]. intros _. rewrite D3.
    destruct wh, (lp_reset l); done. }
  exists n. split; [done|].
  assert (timed {| lp_watcher := lp_watcher l;
      lp_timer := if resets acts' then resetTimer sync (lp_now l) reloadDebounce t else t; lp_now := lp_now l;
      lp_returned := None; lp_reset := if resets acts' then Some (lp_now l) else last |}
    ∧ w_armed (next_state n) = armed (if resets acts' then resetTimer sync (lp_now l) reloadDebounce t else t)) as [Ht' Ha'].
  { destruct (resets acts') eqn:Er; [|by destruct (Hkeep eq_refl)].
    rewrite resetTimer_fresh by done. unfold timed. cbn. split; [done|]. rewrite D3.
    destruct ev; try apply orb_true_r. by specialize (D4 _ _ eq_refl). }
  split.
  - destruct n as [w1|w1 e], n' as [w2|w2 e2]; try done; cbn [next_state] in *.
    destruct Hn as [Hn ->]. constructor; [exact Hn|done|]. unfold timed.
    cbn [lp_timer lp_reset lp_returned lp_now]. rewrite stopTimer_silent by (by apply timed_ok in Ht'). cbn.
    destruct (resets acts'), last; by try eexists.
  - by destruct n as [w1|w1 e], n' as [w2|w2 e2]; [..|destruct Hn as [_ ->]].
Qed.

Definition selected (evs : list loop_event) : list run_event :=
  omap (λ ev, match ev with Select ev => Some ev | _ => None end) evs.

Lemma loop_step_simulates l w ev l' acts :
  simulates l w → loop_step yaml fs sync l ev = Some (l', acts) →
  match ev with
  | Select ev => ∃ n, Run_step yaml fs w ev = Some (n, acts) ∧ simulates l' (next_state n)
      ∧ lp_returned l' = match n with Continue _ => None | Return _ e => Some e end
  | _ => acts = [] ∧ simulates l' w
  end.
Proof.
  intros Hs H. unfold loop_step in H. destruct (lp_returned l) eqn:Hret; [done|].
  destruct Hs as [Hw Ha Ht]. destruct ev as [d| |ev].
  - destruct (d <? 0)%Z eqn:Hd; [done|]. bool_props. injection H as <- <-. split; [done|].
    constructor; [done|auto|]. unfold timed in *. cbn.
    destruct (tm_when _), (tm_chan _), (lp_reset l); try done; [lia|]. rewrite Hret in Ht. by destruct Ht.
  - apply bind_Some in H as (t & He & H). injection H as <- <-. split; [done|].
    unfold Expire in He. destruct (tm_when (lp_timer l)) as [d|] eqn:Ewh; [|done].
    destruct (d <=? lp_now l)%Z eqn:Hd; [|done]. bool_props. injection He as <-.
    constructor; [done| |].
    + intros _. rewrite Ha by done. unfold armed. by rewrite Ewh.
    + unfold timed in *. rewrite Ewh in Ht. cbn. destruct (tm_chan _), (lp_reset l); try done. lia.
  - by eapply select_step_simulates.
Qed.

Lemma loop_run_simulates l w evs l' acts :
  simulates l w → loop_run yaml fs sync l evs = Some (l', acts) →
  ∃ w', Run yaml fs w (selected evs) = Some (w', acts) ∧ simulates l' w'.
Proof.
  revert l w acts. induction evs as [|ev evs IH]; intros l w acts Hs H; cbn [loop_run] in H.
  { injection H as <- <-. by exists w. }
  apply bind_Some in H as ([l1 a1] & H1 & H). apply bind_Some in H as ([l2 a2] & H2 & [= <- <-]).
  pose proof (loop_step_simulates _ _ _ _ _ Hs H1) as Hstep. destruct ev as [d| |ev].
  - destruct Hstep as [-> Hs1]. by apply (IH l1 w).
  - destruct Hstep as [-> Hs1]. by apply (IH l1 w).
  - destruct Hstep as (n & Hn & Hs1 & Hret). cbn [selected omap list_omap Run]. rewrite Hn.
    destruct n as [w1|w1 e]; cbn [next_state] in Hs1.
    + destruct (IH _ _ _ Hs1 H2) as (w' & Hr & Hs'). exists w'. split; [|done].
      change (omap _ evs) with (selected evs). by rewrite Hr.
    + exists w1. assert (l2 = l1 ∧ a2 = []) as [-> ->]; [|by rewrite app_nil_r].
      destruct evs as [|ev' evs]; [by injection H2 as <- <-|]. cbn [loop_run] in H2. unfold loop_step in H2.
      rewrite Hret in H2. done.
Qed.

(** Once the quiet period is over the reload can be had. *)
Lemma fires_when_quiet l w r d t1 t2 :
  simulates l w → lp_returned l = None → lp_reset l = Some r → (0 ≤ d)%Z → (r + reloadDebounce ≤ lp_now l + d)%Z →
  ∃ evs' l' w' rr, loop_run yaml fs sync l evs' = Some (l', [Report rr])
    ∧ selected evs' = [DebounceFired t1 t2] ∧ length evs' ≤ 3
    ∧ reload yaml fs t1 t2 (set_armed false (lp_watcher l)) = (w', rr)
    ∧ lp_now l' = (lp_now l + d)%Z ∧ lp_reset l' = None.
Proof.
  intros [Hlw Ha Ht] Hret Hr Hd Hq. set (l1 := {| lp_watcher := lp_watcher l; lp_timer := lp_timer l;
    lp_now := (lp_now l + d)%Z; lp_returned := None; lp_reset := lp_reset l |}).
  assert (loop_step yaml fs sync l (Wait d) = Some (l1, [])) as H1.
  { unfold loop_step. rewrite Hret. by rewrite (proj2 (Z.ltb_ge d 0)). }
  assert (∀ l2, lp_watcher l2 = lp_watcher l → lp_returned l2 = None → tm_chan (lp_timer l2) = true →
    ∃ l3 w' rr, loop_step yaml fs sync l2 (Select (DebounceFired t1 t2)) = Some (l3, [Report rr])
      ∧ reload yaml fs t1 t2 (set_armed false (lp_watcher l)) = (w', rr)
      ∧ lp_now l3 = lp_now l2 ∧ lp_reset l3 = None) as Hgo.
  { intros l2 E1 E2 E3. unfold loop_step. rewrite E2. unfold select_step, Receive. rewrite E3, E1, Hlw.
    cbn [fmap option_fmap option_map mbind option_bind Run_step w_armed set_armed negb].
    destruct (reload yaml fs t1 t2 _) as [w' rr]. by eexists _, w', rr. }
  unfold timed in Ht. rewrite Hr in Ht.
  destruct (tm_when (lp_timer l)) as [wh|] eqn:Ewh, (tm_chan (lp_timer l)) eqn:Ech; try done.
  - set (l2 := {| lp_watcher := lp_watcher l; lp_timer := {| tm_when := None; tm_chan := true |};
      lp_now := (lp_now l + d)%Z; lp_returned := None; lp_reset := lp_reset l |}).
    assert (loop_step yaml fs sync l1 Fire = Some (l2, [])) as H2.
    { unfold loop_step, Expire. cbn. rewrite Ewh. by rewrite (proj2 (Z.leb_le _ _)) by lia. }
    destruct (Hgo l2) as (l3 & w' & rr & H3 & Hrr & Hn & Hl3); [done..|].
    exists [Wait d; Fire; Select (DebounceFired t1 t2)], l3, w', rr.
    cbn [loop_run]. rewrite H1. cbn [mbind option_bind]. rewrite H2. cbn [mbind option_bind]. rewrite H3. by split_and!.
  - destruct (Hgo l1) as (l3 & w' & rr & H3 & Hrr & Hn & Hl3); [done..|].
    exists [Wait d; Select (DebounceFired t1 t2)], l3, w', rr.
    cbn [loop_run]. rewrite H1. cbn [mbind option_bind]. rewrite H3. split_and!; [done|done|cbn; lia|done..].
  - rewrite Hret in Ht. by destruct Ht.
Qed.

(** ** Properties *)

(** C26: the debounce timer does what its flag in [Watcher] says, with either
    kind of Go timer.  The loop with its timer makes the calls of the loop of
    [Watcher], for the cases its selects took; a debounced reload never comes
    sooner than the quiet period after the last event about the file, and
    comes once for all the events before it; and once the period is over it
    can be had at any time, whatever happened before. *)
Theorem reloads_wait_for_quiet now w0 evs l acts :
  w_armed w0 = false → loop_run yaml fs sync (loop_start sync now w0) evs = Some (l, acts) →
  (∃ w, Run yaml fs w0 (selected evs) = Some (w, acts) ∧ lp_watcher l = set_armed true w)
  ∧ (∀ name gone l' acts', loop_step yaml fs sync l (Select (FsEvent name gone)) = Some (l', acts') →
       Base name = w_base (lp_watcher l) → reports acts' = [] ∧ lp_reset l' = Some (lp_now l))
  ∧ (∀ t1 t2 l' acts', loop_step yaml fs sync l (Select (DebounceFired t1 t2)) = Some (l', acts') →
       ∃ r, lp_reset l = Some r ∧ (r + reloadDebounce ≤ lp_now l)%Z ∧ lp_reset l' = None)
  ∧ (∀ r d t1 t2, lp_returned l = None → lp_reset l = Some r →
       (0 ≤ d)%Z → (r + reloadDebounce ≤ lp_now l + d)%Z →
       ∃ evs' l' w' rr, loop_run yaml fs sync l evs' = Some (l', [Report rr])
         ∧ selected evs' = [DebounceFired t1 t2] ∧ length evs' ≤ 3
         ∧ reload yaml fs t1 t2 (set_armed false (lp_watcher l)) = (w', rr)
         ∧ lp_now l' = (lp_now l + d)%Z ∧ lp_reset l' = None).
Proof.
  intros Hw H. destruct (loop_run_simulates _ _ _ _ _ (simulates_start now w0 Hw) H) as (w & Hrun & [Hlw Ha Ht]).
  split_and!; [by exists w| | |].
  - intros name gone l' acts' Hl Hb. unfold loop_step in Hl. destruct (lp_returned l); [done|].
    unfold select_step in Hl. cbn [mbind option_bind Run_step] in Hl.
    rewrite bool_decide_true in Hl by done. cbn [negb] in Hl. by destruct gone; injection Hl as <- <-.
  - intros t1 t2 l' acts' Hl. unfold loop_step in Hl. destruct (lp_returned l) eqn:Hret; [done|].
    unfold timed in Ht. unfold select_step, Receive in Hl. destruct (tm_chan (lp_timer l)); [|done].
    cbn [fmap option_fmap option_map mbind option_bind] in Hl.
    apply bind_Some in Hl as ([n a] & Hn & Hl). injection Hl as <- <-.
    apply Run_step_acts in Hn as (_ & D2 & _ & D4). rewrite D2, (D4 _ _ eq_refl).
    destruct (tm_when _), (lp_reset l) as [r|]; try done. exists r. by destruct n.
  - intros r d t1 t2 Hret Hr Hd Hq. eapply fires_when_quiet; [by constructor|done..].
Qed.

(** Opening: [newPeerWatcher] on the absolute path, and a watch that is opened
    is either handed over or closed again. *)
Theorem openPeerWatcher_all_or_nothing wd newWatcher add t1 t2 path :
  let '(res, calls) := openPeerWatcher yaml fs wd newWatcher add t1 t2 path in
  (match filepath_Abs wd path with
   | Err e => res = Err (wrapf (#"gocloak: config: " ++ path ++ #": ") e)
   | Ok abs => ∃ watch, res = newPeerWatcher yaml fs t1 t2 watch abs ∧ (watch = None ↔ newWatcher = None ∧ add = None)
   end)
  ∧ match res with
    | Ok _ => calls = [WatchOpened]
    | Err _ => calls = [] ∨ calls = [WatchOpened; WatchClosed]
    end.
Proof.
  unfold openPeerWatcher, newPeerWatcher. destruct (filepath_Abs wd path) as [abs|e]; [|by split; [|left]].
  destruct (load yaml fs t2 abs) as [cfg|e].
  2:{ split; [|by left]. exists (match newWatcher with Some e => Some e | None => add end).
      split; [done|]. destruct newWatcher, add; naive_solver. }
  destruct newWatcher as [e|]; [|destruct add as [e|]]; (split; [|by auto]).
  - exists (Some (wrapf (path ++ #": ") e)). split; [|naive_solver]. unfold wrapf. cbn.
    by rewrite <- !app_assoc.
  - exists (Some (wrapf (Dir abs ++ #": ") e)). split; [|naive_solver]. unfold wrapf. cbn.
    by rewrite <- !app_assoc.
  - by exists None.
Qed.

(** [report] is silent only about a reload that changed nothing; a failure is
    loud. *)
Lemma report_accounts r :
  (report r = [] ↔ rr_Err r = None ∧ IsEmpty (rr_Diff r) = true) ∧ (quiet (report r) = true ↔ rr_Err r = None).
Proof. unfold report. destruct (rr_Err r), (IsEmpty (rr_Diff r)); naive_solver. Qed.

(** Closing twice closes once. *)
Lemma watcher_Close_idempotent e1 e2 closed :
  watcher_Close e2 (snd (watcher_Close e1 closed)) = (None, true).
Proof. by destruct closed. Qed.

End watch_facts.

(** ** One save that fires two events *)

#[local] Existing Instance canonical_range.

Definition demo_save : list loop_event :=
  [Wait 1000000000; Select (FsEvent demo_path true); Wait 20000000; Select (FsEvent demo_path false); Wait 30000000; Fire].
Definition demo_loop (sync : bool) (evs : list loop_event) : option (loop * list run_action) :=
  loop_run demo_yaml demo_fs sync (loop_start sync 0 demo_w0) evs.

(** 30 ms after the second event it is too early. *)
Example too_early sync : demo_loop sync demo_save = None.
Proof. by destruct sync; vm_compute. Qed.

Definition demo_waiting (sync : bool) : loop :=
  match demo_loop sync (take 5 demo_save) with Some (l, _) => l | None => loop_start sync 0 demo_w0 end.

Lemma reloads_wait_for_quiet_witness :
  ∃ evs' l' w' rr, loop_run demo_yaml demo_fs true (demo_waiting true) evs' = Some (l', [Report rr])
    ∧ selected evs' = [DebounceFired 6 7] ∧ length evs' ≤ 3
    ∧ reload demo_yaml demo_fs 6 7 (set_armed false (lp_watcher (demo_waiting true))) = (w', rr)
    ∧ lp_now l' = 1070000000%Z ∧ lp_reset l' = None.
Proof.
  assert (lp_reset (demo_waiting true) = Some 1020000000%Z ∧ lp_now (demo_waiting true) = 1050000000%Z
    ∧ lp_returned (demo_waiting true) = None) as (E1 & E2 & E3) by by vm_compute.
  destruct (demo_loop true (take 5 demo_save)) as [[l acts]|] eqn:E.
  - assert (demo_waiting true = l) as El by (unfold demo_waiting; by rewrite E).
    destruct (reloads_wait_for_quiet demo_yaml demo_fs true 0 demo_w0 (take 5 demo_save) l acts) as (_ & _ & _ & H).
    + by vm_compute.
    + exact E.
    + rewrite El in *. rewrite <- (eq_refl : (1050000000 + 20000000 = 1070000000)%Z), <- E2.
      apply (H 1020000000%Z 20000000%Z 6 7 E3 E1); rewrite ?E2; unfold reloadDebounce; lia.
  - exfalso. assert (bool_decide (is_Some (demo_loop true (take 5 demo_save))) = true) as H by by vm_compute.
    by rewrite E in H.
Defined.

End Watch.
