(* ===== verification/Device.v ===== *)
(** * The WireGuard device ([device.go])

    Keys, the configuration text handed to wireguard-go and the operations on
    peers.  wireguard-go itself is an interface: a device whose [IpcSet]
    reads the text line by line as the configuration protocol documents.
    [view] is what that protocol makes observable of a device, its peers and
    the routes of their allowed addresses. *)

From S2P Require Import Prelude GoStrings GoEncoding GoNetip Secret Yaml Config.
Import Secret Config.

Module Device.

(** ** Keys *)

Definition keyToHex (b64 : gostring) : result gostring :=
  let s := TrimSpace b64 in
  if bool_decide (s = []) then Err (errors_New (#"is required"))
  else match b64_decode s with
       | None => Err (errors_New (#"is not valid base64"))
       | Some raw =>
           if negb (Z.of_nat (length raw) =? wgKeyLen)%Z then
             Err (errors_New (#"decodes to " ++ itoa (Z.of_nat (length raw))
                              ++ #" bytes, want " ++ itoa wgKeyLen))
           else Ok (hex_encode raw)
       end.

(** ** The configuration protocol

    The observable state: the peers by hex key, and for each allowed address
    (in CIDR notation) the key it is routed to.  An address belongs to one
    peer: giving it to another takes it away. *)

Record uapi_peer := {
  up_psk : option gostring; up_endpoint : option gostring; up_keepalive : option gostring
}.
Record uapi_view := {
  uv_private_key : option gostring; uv_listen_port : option gostring;
  uv_peers : gmap gostring uapi_peer; uv_routes : gmap gostring gostring
}.
Definition new_peer : uapi_peer :=
  {| up_psk := None; up_endpoint := None; up_keepalive := None |}.
Definition new_view : uapi_view :=
  {| uv_private_key := None; uv_listen_port := None; uv_peers := ∅; uv_routes := ∅ |}.

Definition with_peers (f : gmap gostring uapi_peer → gmap gostring uapi_peer) (v : uapi_view) : uapi_view :=
  {| uv_private_key := uv_private_key v; uv_listen_port := uv_listen_port v;
     uv_peers := f (uv_peers v); uv_routes := uv_routes v |}.
Definition with_routes (f : gmap gostring gostring → gmap gostring gostring) (v : uapi_view) : uapi_view :=
  {| uv_private_key := uv_private_key v; uv_listen_port := uv_listen_port v;
     uv_peers := uv_peers v; uv_routes := f (uv_routes v) |}.

(** The routes of every other key. *)
Definition drop_routes (k : gostring) (m : gmap gostring gostring) : gmap gostring gostring :=
  filter (λ e, snd e ≠ k) m.
Definition delete_peer (k : gostring) (v : uapi_view) : uapi_view :=
  with_routes (drop_routes k) (with_peers (delete k) v).

(** The peer a block is about: none before the first [public_key] line and
    after an [update_only] that refused to create one; lines about a peer that
    is gone are ignored. *)
Record uapi_cursor := { uc_peer : option gostring; uc_created : bool; uc_view : uapi_view }.

Definition on_view (f : uapi_view → uapi_view) (c : uapi_cursor) : uapi_cursor :=
  {| uc_peer := uc_peer c; uc_created := uc_created c; uc_view := f (uc_view c) |}.
Definition on_peer (f : gostring → uapi_view → uapi_view) (c : uapi_cursor) : uapi_cursor :=
  match uc_peer c with
  | Some k => match uv_peers (uc_view c) !! k with Some _ => on_view (f k) c | None => c end
  | None => c
  end.
Definition set_psk (v : gostring) (p : uapi_peer) : uapi_peer :=
  {| up_psk := Some v; up_endpoint := up_endpoint p; up_keepalive := up_keepalive p |}.
Definition set_endpoint (v : gostring) (p : uapi_peer) : uapi_peer :=
  {| up_psk := up_psk p; up_endpoint := Some v; up_keepalive := up_keepalive p |}.
Definition set_keepalive (v : gostring) (p : uapi_peer) : uapi_peer :=
  {| up_psk := up_psk p; up_endpoint := up_endpoint p; up_keepalive := Some v |}.

(** [pub] derives a public key from a private one: a device never has itself
    as a peer. *)
Definition uapi_line (pub : gostring → gostring) (c : uapi_cursor) (line : gostring * gostring)
    : uapi_cursor :=
  let '(k, v) := line in
  if bool_decide (k = #"private_key") then
    on_view (λ w, delete_peer (pub v)
                    {| uv_private_key := Some v; uv_listen_port := uv_listen_port w;
                       uv_peers := uv_peers w; uv_routes := uv_routes w |}) c
  else if bool_decide (k = #"listen_port") then
    on_view (λ w, {| uv_private_key := uv_private_key w; uv_listen_port := Some v;
                     uv_peers := uv_peers w; uv_routes := uv_routes w |}) c
  else if bool_decide (k = #"public_key") then
    if bool_decide (pub <$> uv_private_key (uc_view c) = Some v) then
      {| uc_peer := None; uc_created := false; uc_view := uc_view c |}
    else match uv_peers (uc_view c) !! v with
    | Some _ => {| uc_peer := Some v; uc_created := false; uc_view := uc_view c |}
    | None => {| uc_peer := Some v; uc_created := true;
                 uc_view := with_peers (<[v := new_peer]>) (uc_view c) |}
    end
  else if bool_decide (k = #"update_only") then
    if uc_created c then
      match uc_peer c with
      | Some p => {| uc_peer := None; uc_created := false; uc_view := delete_peer p (uc_view c) |}
      | None => c
      end
    else c
  else if bool_decide (k = #"remove") then on_peer delete_peer c
  else if bool_decide (k = #"preshared_key") then
    on_peer (λ p, with_peers (alter (set_psk v) p)) c
  else if bool_decide (k = #"endpoint") then
    on_peer (λ p, with_peers (alter (set_endpoint v) p)) c
  else if bool_decide (k = #"replace_allowed_ips") then
    on_peer (λ p, with_routes (drop_routes p)) c
  else if bool_decide (k = #"allowed_ip") then
    on_peer (λ p, with_routes (<[v := p]>)) c
  else if bool_decide (k = #"persistent_keepalive_interval") then
    on_peer (λ p, with_peers (alter (set_keepalive v) p)) c
  else c.

(** The lines of a text, and the [key=value] of each. *)
Fixpoint lines_from (acc s : gostring) : list gostring :=
  match s with
  | [] => match acc with [] => [] | _ => [acc] end
  | c :: s' => if bool_decide (c = nl) then acc :: lines_from [] s' else lines_from (acc ++ [c]) s'
  end.
Definition lines (s : gostring) : list gostring := lines_from [] s.
Definition uapi_pair (l : gostring) : gostring * gostring :=
  let '(k, v, _) := Cut l "="%byte in (k, v).
Definition uapi_pairs (cfg : gostring) : list (gostring * gostring) := uapi_pair <$> lines cfg.
Definition uapi_set (pub : gostring → gostring) (cfg : gostring) (v : uapi_view) : uapi_view :=
  uc_view (foldl (uapi_line pub) {| uc_peer := None; uc_created := false; uc_view := v |} (uapi_pairs cfg)).

(** ** wireguard-go's device as the code uses it *)

Class WireGuard := {
  wg : Type;
  wg_new : wg;                                   (* device.NewDevice *)
  IpcSet : gostring → wg → option error * wg;
  wg_Up : wg → option error;
  wg_public : gostring → gostring;               (* hex private key to hex public key *)
  view : wg → uapi_view;
  view_new : view wg_new = new_view;
  view_routes : ∀ d cidr k, uv_routes (view d) !! cidr = Some k → is_Some (uv_peers (view d) !! k);
  view_IpcSet : ∀ cfg d d', IpcSet cfg d = (None, d') → view d' = uapi_set wg_public cfg (view d)
}.

(** ** Rendering a peer *)

Record devicePeer := {
  dp_PublicKey : gostring; dp_PresharedKey : secret; dp_AllowedIP : Addr; dp_Endpoint : AddrPort
}.

Definition keepaliveInterval : Z := 25.

Definition cfg_line (k v : gostring) : gostring := k ++ #"=" ++ v ++ [nl].
Arguments cfg_line : simpl never.
Definition Prefix_String (p : Prefix) : gostring := Addr_String (pfx_ip p) ++ #"/" ++ itoa (pfx_bits p).

Definition ipcConfig (p : devicePeer) (updateOnly : bool) : result gostring :=
  let? pub := rwrap (#"gocloak: device: peer: public key: ") (keyToHex (dp_PublicKey p)) in
  let? psk := rwrap (#"gocloak: device: peer: preshared key: ")
                (keyToHex (bytes (dp_PresharedKey p))) in
  if negb (IsValid (dp_AllowedIP p)) then
    Err (errors_New (#"gocloak: device: peer: allowed IP is required"))
  else if negb (Contains4 tunnelSubnet (dp_AllowedIP p)) then
    Err (errors_New (#"gocloak: device: peer: allowed IP " ++ Addr_String (dp_AllowedIP p)
                     ++ #" is outside " ++ Prefix_String tunnelSubnet))
  else
  let hasEndpoint := bool_decide (dp_Endpoint p ≠ AddrPort_zero) in
  if hasEndpoint && (negb (ap_IsValid (dp_Endpoint p)) || (ap_port (dp_Endpoint p) =? 0)%Z) then
    Err (errors_New (#"gocloak: device: peer: endpoint " ++ AddrPort_String (dp_Endpoint p)
                     ++ #" is not a usable address and port"))
  else
    Ok (cfg_line (#"public_key") pub
        ++ (if updateOnly then cfg_line (#"update_only") (#"true") else [])
        ++ cfg_line (#"preshared_key") psk
        ++ (if hasEndpoint then cfg_line (#"endpoint") (AddrPort_String (dp_Endpoint p)) else [])
        ++ cfg_line (#"replace_allowed_ips") (#"true")
        ++ cfg_line (#"allowed_ip") (Addr_String (dp_AllowedIP p) ++ #"/32")
        ++ (if hasEndpoint then cfg_line (#"persistent_keepalive_interval") (itoa keepaliveInterval)
            else [])).

(** ** Operations *)

Section device.
Context {WG : WireGuard}.

(** [if err := d.dev.IpcSet(cfg); err != nil { return wrap(err) }] *)
Definition ipc (pre cfg : gostring) (d : wg) : option error * wg :=
  match IpcSet cfg d with
  | (Some e, d') => (Some (wrapf pre e), d')
  | (None, d') => (None, d')
  end.

Definition device_applyPeer (p : devicePeer) (updateOnly : bool) (d : wg) : option error * wg :=
  match ipcConfig p updateOnly with
  | Err e => (Some e, d)
  | Ok cfg => ipc (#"gocloak: device: apply peer: ") cfg d
  end.
Definition AddPeer (p : devicePeer) (d : wg) : option error * wg := device_applyPeer p false d.
Definition UpdatePeer (p : devicePeer) (d : wg) : option error * wg := device_applyPeer p true d.

Definition RemovePeer (publicKey : gostring) (d : wg) : option error * wg :=
  match keyToHex publicKey with
  | Err e => (Some (wrapf (#"gocloak: device: remove peer: public key: ") e), d)
  | Ok pub => ipc (#"gocloak: device: remove peer: ")
                (cfg_line (#"public_key") pub ++ cfg_line (#"remove") (#"true")) d
  end.

Definition SetPeerEndpoint (publicKey : gostring) (endpoint : AddrPort) (d : wg) : option error * wg :=
  match keyToHex publicKey with
  | Err e => (Some (wrapf (#"gocloak: device: set peer endpoint: public key: ") e), d)
  | Ok pub =>
      if negb (ap_IsValid endpoint) || (ap_port endpoint =? 0)%Z then
        (Some (errors_New (#"gocloak: device: set peer endpoint: " ++ AddrPort_String endpoint
                           ++ #" is not a usable address and port")), d)
      else ipc (#"gocloak: device: set peer endpoint: ")
             (cfg_line (#"public_key") pub ++ cfg_line (#"update_only") (#"true")
              ++ cfg_line (#"endpoint") (AddrPort_String endpoint)) d
  end.

(** ** Construction and shutdown *)

Record deviceOptions := {
  do_TunnelIP : Addr; do_MTU : Z; do_PrivateKey : secret; do_ListenPort : Z
}.

(** What is live: the TUN alone, or the device that owns it. *)
Inductive resource := TunOpened (mtu : Z) | DeviceCreated | TunClosed | DeviceClosed.
Record tunnelDevice := { td_tun : bool; td_dev : option wg; td_closed : bool }.

(** [Close], with the TUN or device calls it makes. *)
Definition Close (d : tunnelDevice) : tunnelDevice * list resource :=
  if td_closed d then (d, [])
  else let d' := {| td_tun := td_tun d; td_dev := td_dev d; td_closed := true |} in
       match td_dev d with
       | Some _ => (d', [DeviceClosed])
       | None => (d', if td_tun d then [TunClosed] else [])
       end.

(** [newTunnelDevice]; [createNetTUN] is what [netstack.CreateNetTUN]
    returns.  The second component is what was opened and closed. *)
Definition newTunnelDevice (createNetTUN : option error) (opts : deviceOptions)
    : result tunnelDevice * list resource :=
  let fail msg := (Err (errors_New (#"gocloak: device: " ++ msg)), []) in
  if negb (IsValid (do_TunnelIP opts)) then fail (#"tunnel IP is required")
  else if negb (Contains4 tunnelSubnet (do_TunnelIP opts)) then
    fail (#"tunnel IP " ++ Addr_String (do_TunnelIP opts) ++ #" is outside " ++ Prefix_String tunnelSubnet)
  else if (do_ListenPort opts <? 0)%Z || (65535 <? do_ListenPort opts)%Z then
    fail (#"listen port " ++ itoa (do_ListenPort opts) ++ #" is not in 0-65535")
  else
  let mtu := if (do_MTU opts =? 0)%Z then DefaultMTU else do_MTU opts in
  if (mtu <? minMTU)%Z || (maxMTU <? mtu)%Z then
    fail (#"mtu " ++ itoa mtu ++ #" is not in " ++ itoa minMTU ++ #"-" ++ itoa maxMTU)
  else match keyToHex (bytes (do_PrivateKey opts)) with
  | Err e => (Err (wrapf (#"gocloak: device: private key: ") e), [])
  | Ok privateKey =>
      match createNetTUN with
      | Some e => (Err (wrapf (#"gocloak: device: create netstack tun: ") e), [])
      | None =>
          let opened := [TunOpened mtu; DeviceCreated] in
          let cfg := cfg_line (#"private_key") privateKey
            ++ (if negb (do_ListenPort opts =? 0)%Z then
                  cfg_line (#"listen_port") (itoa (do_ListenPort opts)) else []) in
          let handle w := {| td_tun := true; td_dev := Some w; td_closed := false |} in
          match IpcSet cfg wg_new with
          | (Some e, w) => (Err (wrapf (#"gocloak: device: configure: ") e),
                            opened ++ snd (Close (handle w)))
          | (None, w) =>
              match wg_Up w with
              | Some e => (Err (wrapf (#"gocloak: device: bring up: ") e),
                           opened ++ snd (Close (handle w)))
              | None => (Ok (handle w), opened)
              end
          end
      end
  end.

End device.

(** ** Lemmas: the text and its lines *)

Lemma lines_from_line acc x s : nl ∉ x → lines_from acc (x ++ nl :: s) = (acc ++ x) :: lines s.
Proof.
  revert acc. induction x as [|c x IH]; intros acc Hx; simpl.
  - by rewrite app_nil_r.
  - rewrite bool_decide_false by set_solver. rewrite IH by set_solver. by rewrite <- app_assoc.
Qed.

Lemma Cut_app x c y : c ∉ x → Cut (x ++ c :: y) c = (x, y, true).
Proof.
  intros H. unfold Cut. rewrite IndexByte_app by done.
  rewrite take_app_length. by rewrite (cons_middle c x y), app_assoc, drop_app_length' by (rewrite length_app; simpl; lia).
Qed.

(** The bytes that structure the text. *)
Definition plain (s : gostring) : Prop := nl ∉ s.

Lemma uapi_pairs_line k v s :
  plain k → plain v → "="%byte ∉ k →
  uapi_pairs (cfg_line k v ++ s) = (k, v) :: uapi_pairs s.
Proof.
  unfold plain. intros Hk Hv He.
  assert (cfg_line k v ++ s = (k ++ "="%byte :: v) ++ nl :: s) as ->.
  { unfold cfg_line. by rewrite <- !app_assoc. }
  unfold uapi_pairs, lines. rewrite lines_from_line.
  - rewrite app_nil_l. cbn [fmap list_fmap]. f_equal. unfold uapi_pair. by rewrite Cut_app.
  - rewrite elem_of_app, elem_of_cons. intros [H|[H|H]]; [done|discriminate H|done].
Qed.

Lemma uapi_pairs_last k v :
  plain k → plain v → "="%byte ∉ k → uapi_pairs (cfg_line k v) = [(k, v)].
Proof. intros. rewrite <- (app_nil_r (cfg_line k v)). by rewrite uapi_pairs_line. Qed.

Lemma keyToHex_Ok s h :
  keyToHex s = Ok h ↔ ∃ raw, b64_decode (TrimSpace s) = Some raw ∧ length raw = 32 ∧ h = hex_encode raw.
Proof.
  unfold keyToHex, wgKeyLen. case_bool_decide as E.
  - rewrite E. split; [done|]. by intros (raw & [= <-] & ? & _).
  - destruct (b64_decode _) as [raw|]; [|naive_solver].
    destruct (Z.of_nat (length raw) =? 32)%Z eqn:EL; simpl; bool_props; split; try done.
    + intros [= <-]. exists raw. split_and!; [done|lia|done].
    + by intros (? & [= <-] & ? & ->).
    + intros (? & [= <-] & ? & ->). lia.
Qed.

Lemma plain_hex raw : plain (hex_encode raw).
Proof.
  intros H. pose proof (hex_encode_lower raw) as HF. rewrite Forall_forall in HF.
  apply HF in H. by vm_compute in H.
Qed.
Lemma plain_key s h : keyToHex s = Ok h → plain h.
Proof. intros (raw & _ & _ & ->)%keyToHex_Ok. apply plain_hex. Qed.

Lemma plain_Addr a : nl ∉ Zone a → plain (Addr_String a).
Proof. apply Addr_String_no_byte; [done|]. by apply (bool_decide_eq_true_1 _). Qed.
Lemma plain_AddrPort ap : (0 ≤ ap_port ap)%Z → nl ∉ Zone (ap_ip ap) → plain (AddrPort_String ap).
Proof. intros Hp Hz. apply AddrPort_String_no_byte; [done..| |done]. by apply (bool_decide_eq_true_1 _). Qed.
Lemma plain_app s t : plain s → plain t → plain (s ++ t).
Proof. unfold plain. rewrite elem_of_app. tauto. Qed.

Ltac plain_lit := by apply (bool_decide_eq_true_1 _).

(** An address the subnet contains has no zone. *)
Lemma tunnel_zone a : Contains4 tunnelSubnet a = true → Zone a = [].
Proof. by destruct a. Qed.

(** An endpoint as the program can hold it: a port is sixteen bits, and the
    zone of a scoped address is the only free text in it. *)
Definition endpoint_wf (ap : AddrPort) : Prop := (0 ≤ ap_port ap)%Z ∧ nl ∉ Zone (ap_ip ap).

(** The set block of a peer, as the list of its keys and values. *)
Definition peer_block (pub psk : gostring) (updateOnly : bool) (ep : AddrPort) (ip : Addr)
    : list (gostring * gostring) :=
  let has := bool_decide (ep ≠ AddrPort_zero) in
  [(#"public_key", pub)] ++ (if updateOnly then [(#"update_only", #"true")] else [])
  ++ [(#"preshared_key", psk)] ++ (if has then [(#"endpoint", AddrPort_String ep)] else [])
  ++ [(#"replace_allowed_ips", #"true"); (#"allowed_ip", Addr_String ip ++ #"/32")]
  ++ (if has then [(#"persistent_keepalive_interval", itoa keepaliveInterval)] else []).

#[local] Opaque cfg_line.
Lemma ipcConfig_pairs p u cfg :
  ipcConfig p u = Ok cfg → endpoint_wf (dp_Endpoint p) →
  ∃ pub psk, keyToHex (dp_PublicKey p) = Ok pub ∧ keyToHex (bytes (dp_PresharedKey p)) = Ok psk
    ∧ Contains4 tunnelSubnet (dp_AllowedIP p) = true
    ∧ uapi_pairs cfg = peer_block pub psk u (dp_Endpoint p) (dp_AllowedIP p).
Proof.
  unfold ipcConfig. intros H [Hport Hzone]. inv_result. bool_props.
  match goal with H1 : keyToHex (dp_PublicKey p) = Ok ?a, H2 : keyToHex (bytes _) = Ok ?b |- _ =>
    exists a, b; pose proof (plain_key _ _ H1); pose proof (plain_key _ _ H2) end.
  split_and!; [done..|].
  match goal with H : Contains4 _ _ = true |- _ => pose proof (tunnel_zone _ H) as Hz end.
  assert (plain (Addr_String (dp_AllowedIP p) ++ #"/32")) as Hip.
  { apply plain_app; [apply plain_Addr; rewrite Hz; set_solver|plain_lit]. }
  pose proof (plain_AddrPort _ Hport Hzone). unfold peer_block.
  destruct (bool_decide (dp_Endpoint p ≠ _)), u; cbn [app];
    repeat (rewrite uapi_pairs_line by first [done|plain_lit]);
    first [done | by rewrite uapi_pairs_last by first [done|plain_lit]].
Qed.

(** ** Lemmas: what a block does *)

Section blocks.
Variable (pub_of : gostring → gostring).
Implicit Types (c : uapi_cursor) (v : uapi_view) (k : gostring).

Definition own_key v : option gostring := pub_of <$> uv_private_key v.

(** The view a block on [k] starts from. *)
Definition with_peer k v : uapi_view :=
  match uv_peers v !! k with
  | Some _ => v
  | None => with_peers (<[k := new_peer]>) v
  end.

Lemma line_public_key v k :
  own_key v ≠ Some k →
  uapi_line pub_of {| uc_peer := None; uc_created := false; uc_view := v |} (#"public_key", k)
  = {| uc_peer := Some k; uc_created := bool_decide (uv_peers v !! k = None); uc_view := with_peer k v |}.
Proof.
  intros H. change (uapi_line _ _ _) with
    (if bool_decide (own_key v = Some k) then {| uc_peer := None; uc_created := false; uc_view := v |}
     else match uv_peers v !! k with
          | Some _ => {| uc_peer := Some k; uc_created := false; uc_view := v |}
          | None => {| uc_peer := Some k; uc_created := true; uc_view := with_peers (<[k := new_peer]>) v |}
          end).
  rewrite bool_decide_false by done. unfold with_peer. by destruct (uv_peers v !! k).
Qed.

Lemma line_update_only_existing k b v :
  b = false →
  uapi_line pub_of {| uc_peer := Some k; uc_created := b; uc_view := v |} (#"update_only", #"true")
  = {| uc_peer := Some k; uc_created := b; uc_view := v |}.
Proof. by intros ->. Qed.

Lemma delete_peer_with_peer k v : delete_peer k (with_peer k v) = delete_peer k v.
Proof.
  unfold with_peer, delete_peer, with_peers, with_routes.
  destruct (uv_peers v !! k) eqn:E; [done|]. simpl. by rewrite delete_insert_eq.
Qed.

(** Routes lead to peers that exist. *)
Definition view_wf v : Prop :=
  ∀ cidr k, uv_routes v !! cidr = Some k → is_Some (uv_peers v !! k).

Lemma lookup_drop_routes k m cidr k' :
  drop_routes k m !! cidr = Some k' ↔ m !! cidr = Some k' ∧ k' ≠ k.
Proof. unfold drop_routes. by rewrite map_lookup_filter_Some. Qed.

Lemma delete_absent_peer k v : view_wf v → uv_peers v !! k = None → delete_peer k v = v.
Proof.
  intros Hwf Hk. destruct v as [pk lp ps rs]. unfold delete_peer, with_routes, with_peers. simpl in *.
  f_equal; [by apply delete_id|]. unfold drop_routes. apply map_filter_id.
  intros c k' Hc. simpl. intros ->. apply Hwf in Hc. simpl in Hc. rewrite Hk in Hc. by destruct Hc.
Qed.

Lemma delete_peer_wf k v : view_wf v → view_wf (delete_peer k v).
Proof.
  intros H cidr k'. unfold delete_peer. simpl. intros [Hc Hne]%lookup_drop_routes.
  rewrite lookup_delete_ne by done. by eapply H.
Qed.

Lemma on_peer_wf f c :
  view_wf (uc_view c) →
  (∀ k, is_Some (uv_peers (uc_view c) !! k) → view_wf (f k (uc_view c))) →
  view_wf (uc_view (on_peer f c)).
Proof.
  intros H Hf. unfold on_peer. destruct (uc_peer c) as [k|]; [|done].
  destruct (uv_peers (uc_view c) !! k) eqn:E; [|done]. apply Hf. by rewrite E.
Qed.

Lemma alter_peer_wf g k v : view_wf v → view_wf (with_peers (alter g k) v).
Proof. intros H cidr k' Hc. apply lookup_alter_is_Some. by eapply H. Qed.

Lemma uapi_line_wf c l : view_wf (uc_view c) → view_wf (uc_view (uapi_line pub_of c l)).
Proof.
  destruct l as [k x]. intros H. unfold uapi_line.
  repeat (case_match; [|]); try done;
    try (apply on_peer_wf; [done|]; intros p Hp);
    try (by apply alter_peer_wf); try (by apply delete_peer_wf).
  - intros cidr k' Hc. simpl in *. apply H in Hc. destruct (decide (k' = x)) as [->|Hne].
    + by rewrite lookup_insert_eq.
    + by rewrite lookup_insert_ne.
  - intros cidr k' [Hc _]%lookup_drop_routes. by eapply H.
  - intros cidr k' Hc. simpl in *. apply lookup_insert_Some in Hc as [[_ <-]|[_ Hc]]; [done|]. by eapply H.
Qed.

Lemma uapi_set_wf cfg v : view_wf v → view_wf (uapi_set pub_of cfg v).
Proof.
  intros H. unfold uapi_set. generalize (uapi_pairs cfg). intros ls.
  assert (∀ c, view_wf (uc_view c) → view_wf (uc_view (foldl (uapi_line pub_of) c ls))) as Hg; [|by apply Hg].
  clear. induction ls as [|l ls IH]; intros c Hc; simpl; [done|]. by apply IH, uapi_line_wf.
Qed.

(** A line about a peer that exists changes the view. *)
Lemma on_peer_Some k b f v p :
  uv_peers v !! k = Some p →
  on_peer f {| uc_peer := Some k; uc_created := b; uc_view := v |}
  = {| uc_peer := Some k; uc_created := b; uc_view := f k v |}.
Proof. intros H. unfold on_peer. simpl. by rewrite H. Qed.

Definition cidr_of (ip : Addr) : gostring := Addr_String ip ++ #"/32".

(** The view after the lines that follow a peer's [public_key]. *)
Definition block_view k (psk : gostring) (ep : AddrPort) (ip : Addr) v : uapi_view :=
  let has := bool_decide (ep ≠ AddrPort_zero) in
  let v1 := with_peers (alter (set_psk psk) k) v in
  let v2 := if has then with_peers (alter (set_endpoint (AddrPort_String ep)) k) v1 else v1 in
  let v3 := with_routes (<[cidr_of ip := k]>) (with_routes (drop_routes k) v2) in
  if has then with_peers (alter (set_keepalive (itoa keepaliveInterval)) k) v3 else v3.

Lemma lookup_alter_Some_eq {V} (f : V → V) (m : gmap gostring V) k x :
  m !! k = Some x → alter f k m !! k = Some (f x).
Proof. intros H. by rewrite lookup_alter_eq, H. Qed.

Definition block_tail (psk : gostring) (ep : AddrPort) (ip : Addr) : list (gostring * gostring) :=
  [(#"preshared_key", psk)]
  ++ (if bool_decide (ep ≠ AddrPort_zero) then [(#"endpoint", AddrPort_String ep)] else [])
  ++ [(#"replace_allowed_ips", #"true"); (#"allowed_ip", cidr_of ip)]
  ++ (if bool_decide (ep ≠ AddrPort_zero)
      then [(#"persistent_keepalive_interval", itoa keepaliveInterval)] else []).

Lemma block_tail_view k b psk ep ip v p :
  uv_peers v !! k = Some p →
  foldl (uapi_line pub_of) {| uc_peer := Some k; uc_created := b; uc_view := v |} (block_tail psk ep ip)
  = {| uc_peer := Some k; uc_created := b; uc_view := block_view k psk ep ip v |}.
Proof.
  intros Hp. unfold block_tail, block_view.
  assert (∀ c x, uapi_line pub_of c (#"preshared_key", x)
                 = on_peer (λ p, with_peers (alter (set_psk x) p)) c) as L1 by done.
  assert (∀ c x, uapi_line pub_of c (#"endpoint", x)
                 = on_peer (λ p, with_peers (alter (set_endpoint x) p)) c) as L2 by done.
  assert (∀ c x, uapi_line pub_of c (#"replace_allowed_ips", x)
                 = on_peer (λ p, with_routes (drop_routes p)) c) as L3 by done.
  assert (∀ c x, uapi_line pub_of c (#"allowed_ip", x)
                 = on_peer (λ p, with_routes (<[x := p]>)) c) as L4 by done.
  assert (∀ c x, uapi_line pub_of c (#"persistent_keepalive_interval", x)
                 = on_peer (λ p, with_peers (alter (set_keepalive x) p)) c) as L5 by done.
  destruct (bool_decide (ep ≠ AddrPort_zero)); cbn [app foldl];
    rewrite L1, ?L2, L3, L4, ?L5;
    repeat (erewrite on_peer_Some by (simpl; repeat apply lookup_alter_Some_eq; exact Hp));
    reflexivity.
Qed.

Lemma block_tail_refused v psk ep ip :
  foldl (uapi_line pub_of) {| uc_peer := None; uc_created := false; uc_view := v |} (block_tail psk ep ip)
  = {| uc_peer := None; uc_created := false; uc_view := v |}.
Proof. unfold block_tail. by destruct (bool_decide _). Qed.

Lemma peer_block_split k psk u ep ip :
  peer_block k psk u ep ip
  = (#"public_key", k) :: (if u then [(#"update_only", #"true")] else []) ++ block_tail psk ep ip.
Proof. unfold peer_block, block_tail. by destruct u. Qed.

Lemma with_peer_exists k v : is_Some (uv_peers (with_peer k v) !! k).
Proof.
  unfold with_peer. destruct (uv_peers v !! k) eqn:E; [by rewrite E|].
  simpl. by rewrite lookup_insert_eq.
Qed.

(** A set block: refused when it may only update a peer that is not there. *)
Lemma peer_block_view k psk u ep ip v :
  view_wf v → own_key v ≠ Some k →
  uc_view (foldl (uapi_line pub_of) {| uc_peer := None; uc_created := false; uc_view := v |}
             (peer_block k psk u ep ip))
  = if u && bool_decide (uv_peers v !! k = None) then v else block_view k psk ep ip (with_peer k v).
Proof.
  intros Hwf Hown. rewrite peer_block_split. cbn [foldl]. rewrite line_public_key by done.
  destruct (with_peer_exists k v) as [p Hp].
  destruct u; cbn [app andb foldl].
  - case_bool_decide as Hk.
    + change (uapi_line pub_of _ _) with
        {| uc_peer := None; uc_created := false; uc_view := delete_peer k (with_peer k v) |}.
      rewrite block_tail_refused. cbn [uc_view].
      by rewrite delete_peer_with_peer, delete_absent_peer.
    + rewrite line_update_only_existing by done. by erewrite block_tail_view by exact Hp.
  - by erewrite block_tail_view by exact Hp.
Qed.

(** A block about the device's own key does nothing. *)
Lemma peer_block_self k psk ep ip v : own_key v = Some k →
  uc_view (foldl (uapi_line pub_of) {| uc_peer := None; uc_created := false; uc_view := v |}
             (peer_block k psk false ep ip)) = v.
Proof.
  intros H. rewrite peer_block_split. cbn [foldl app].
  change (uapi_line pub_of _ (#"public_key", k)) with
    (if bool_decide (own_key v = Some k) then {| uc_peer := None; uc_created := false; uc_view := v |}
     else match uv_peers v !! k with
          | Some _ => {| uc_peer := Some k; uc_created := false; uc_view := v |}
          | None => {| uc_peer := Some k; uc_created := true; uc_view := with_peers (<[k := new_peer]>) v |}
          end).
  by rewrite bool_decide_true, block_tail_refused by done.
Qed.

End blocks.
(** What a peer applied to a view means: it is there with its preshared key,
    exactly one address is routed to it, and nobody else changed except that
    the address is theirs no longer. *)
Record peer_in_force (k psk : gostring) (ip : Addr) (v v' : uapi_view) : Prop := {
  pf_peer : ∃ p, uv_peers v' !! k = Some p ∧ up_psk p = Some psk;
  pf_routes : ∀ c, uv_routes v' !! c = Some k ↔ c = cidr_of ip;
  pf_other_routes : ∀ c k', k' ≠ k →
    uv_routes v' !! c = Some k' ↔ c ≠ cidr_of ip ∧ uv_routes v !! c = Some k';
  pf_other_peers : ∀ k', k' ≠ k → uv_peers v' !! k' = uv_peers v !! k';
  pf_private : uv_private_key v' = uv_private_key v
}.

Lemma with_peer_routes k v : uv_routes (with_peer k v) = uv_routes v.
Proof. unfold with_peer. by destruct (uv_peers v !! k). Qed.
Lemma with_peer_other k k' v : k' ≠ k → uv_peers (with_peer k v) !! k' = uv_peers v !! k'.
Proof. intros H. unfold with_peer. destruct (uv_peers v !! k); [done|]. simpl. by rewrite lookup_insert_ne. Qed.

Lemma block_view_in_force k psk ep ip v :
  peer_in_force k psk ip v (block_view k psk ep ip (with_peer k v)).
Proof.
  destruct (with_peer_exists k v) as [p Hp].
  assert (uv_routes (block_view k psk ep ip (with_peer k v))
          = <[cidr_of ip := k]> (drop_routes k (uv_routes v))) as Hr.
  { unfold block_view. rewrite <- (with_peer_routes k v). by destruct (bool_decide (ep ≠ _)). }
  constructor.
  - unfold block_view. destruct (bool_decide (ep ≠ _)); simpl; eexists;
      (split; [repeat apply lookup_alter_Some_eq; exact Hp|done]).
  - intros c. rewrite Hr, lookup_insert_Some. setoid_rewrite lookup_drop_routes. naive_solver.
  - intros c k' Hk'. rewrite Hr, lookup_insert_Some. setoid_rewrite lookup_drop_routes. naive_solver.
  - intros k' Hk'. rewrite <- (with_peer_other k k' v) by done. unfold block_view.
    destruct (bool_decide (ep ≠ _)); simpl; by rewrite !lookup_alter_ne by done.
  - unfold block_view, with_peer. destruct (bool_decide (ep ≠ _)), (uv_peers v !! k); done.
Qed.

Section device_facts.
Context {WG : WireGuard}.

Definition is_self (k : gostring) (d : wg) : Prop := own_key wg_public (view d) = Some k.

Lemma applyPeer_view p u d d' :
  device_applyPeer p u d = (None, d') → endpoint_wf (dp_Endpoint p) →
  ∃ k psk, keyToHex (dp_PublicKey p) = Ok k ∧ keyToHex (bytes (dp_PresharedKey p)) = Ok psk
    ∧ (¬ is_self k d →
       view d' = if u && bool_decide (uv_peers (view d) !! k = None) then view d
                 else block_view k psk (dp_Endpoint p) (dp_AllowedIP p) (with_peer k (view d))).
Proof.
  unfold device_applyPeer, ipc. intros H Hwf. destruct (ipcConfig p u) as [cfg|e] eqn:E; [|done].
  destruct (IpcSet cfg d) as [[e|] d1] eqn:EI; simplify_eq.
  apply ipcConfig_pairs in E as (k & psk & Hk & Hpsk & _ & Hcfg); [|done].
  exists k, psk. split_and!; [done..|]. intros Hs. apply view_IpcSet in EI. rewrite EI.
  unfold uapi_set. rewrite Hcfg. apply peer_block_view; [exact (view_routes d)|done].
Qed.

Lemma AddPeer_self p d d' k :
  AddPeer p d = (None, d') → endpoint_wf (dp_Endpoint p) → keyToHex (dp_PublicKey p) = Ok k → is_self k d →
  view d' = view d.
Proof.
  unfold AddPeer, device_applyPeer, ipc. intros H Hwf Hk Hs. destruct (ipcConfig p false) as [cfg|e] eqn:E; [|done].
  destruct (IpcSet cfg d) as [[e|] d1] eqn:EI; simplify_eq.
  apply ipcConfig_pairs in E as (k' & psk & Hk' & _ & _ & Hcfg); [|done].
  assert (k' = k) as -> by congruence. apply view_IpcSet in EI. rewrite EI. unfold uapi_set. rewrite Hcfg.
  apply peer_block_self. exact Hs.
Qed.

Lemma RemovePeer_view pk d d' k :
  RemovePeer pk d = (None, d') → keyToHex pk = Ok k → ¬ is_self k d →
  view d' = delete_peer k (view d).
Proof.
  unfold RemovePeer, ipc. intros H Hk Hs. rewrite Hk in H.
  destruct (IpcSet _ d) as [[e|] d1] eqn:EI; simplify_eq. apply view_IpcSet in EI. rewrite EI.
  unfold uapi_set. rewrite uapi_pairs_line by first [by eapply plain_key|plain_lit].
  rewrite uapi_pairs_last by plain_lit. cbn [foldl]. rewrite line_public_key by done.
  destruct (with_peer_exists k (view d)) as [p Hp].
  change (uapi_line wg_public _ (#"remove", #"true")) with
    (on_peer delete_peer {| uc_peer := Some k; uc_created := bool_decide (uv_peers (view d) !! k = None);
                            uc_view := with_peer k (view d) |}).
  erewrite on_peer_Some by exact Hp. cbn [uc_view]. apply delete_peer_with_peer.
Qed.

Lemma applyPeer_in_force p u d d' :
  device_applyPeer p u d = (None, d') → endpoint_wf (dp_Endpoint p) →
  ∃ k psk, keyToHex (dp_PublicKey p) = Ok k ∧ keyToHex (bytes (dp_PresharedKey p)) = Ok psk
    ∧ (¬ is_self k d →
       if u && bool_decide (uv_peers (view d) !! k = None) then view d' = view d
       else peer_in_force k psk (dp_AllowedIP p) (view d) (view d')).
Proof.
  intros H Hwf. apply applyPeer_view in H as (k & psk & Hk & Hpsk & Hv); [|done].
  exists k, psk. split_and!; [done..|]. intros Hs. rewrite (Hv Hs).
  destruct (u && _); [done|apply block_view_in_force].
Qed.

Lemma SetPeerEndpoint_view pk ep d d' k :
  SetPeerEndpoint pk ep d = (None, d') → endpoint_wf ep → keyToHex pk = Ok k → ¬ is_self k d →
  view d' = with_peers (alter (set_endpoint (AddrPort_String ep)) k) (view d).
Proof.
  unfold SetPeerEndpoint, ipc. intros H [Hp Hz] Hk Hs. rewrite Hk in H.
  destruct (negb _ || _); [done|]. destruct (IpcSet _ d) as [[e|] d1] eqn:EI; simplify_eq.
  apply view_IpcSet in EI. rewrite EI. unfold uapi_set.
  pose proof (plain_AddrPort ep Hp Hz).
  rewrite uapi_pairs_line by first [by eapply plain_key|plain_lit].
  rewrite uapi_pairs_line by plain_lit. rewrite uapi_pairs_last by first [done|plain_lit].
  cbn [foldl]. rewrite line_public_key by done.
  destruct (uv_peers (view d) !! k) as [p|] eqn:E.
  - rewrite line_update_only_existing by done.
    change (uapi_line wg_public ?c (#"endpoint", ?x)) with
      (on_peer (λ p, with_peers (alter (set_endpoint x) p)) c).
    unfold with_peer. rewrite E. erewrite on_peer_Some by exact E. done.
  - change (uc_view _) with (delete_peer k (with_peer k (view d))).
    rewrite delete_peer_with_peer, delete_absent_peer; [|exact (view_routes d)|done].
    unfold with_peers. rewrite alter_id' by done. by destruct (view d).
Qed.

Lemma newTunnelDevice_spec createNetTUN opts :
  match newTunnelDevice createNetTUN opts with
  | (Err _, rs) => rs = [] ∨ ∃ m, rs = [TunOpened m; DeviceCreated; DeviceClosed]
  | (Ok d, rs) => ∃ m k w, rs = [TunOpened m; DeviceCreated] ∧ (1280 ≤ m ≤ 1500)%Z
      ∧ Contains4 tunnelSubnet (do_TunnelIP opts) = true
      ∧ keyToHex (bytes (do_PrivateKey opts)) = Ok k ∧ td_dev d = Some w ∧ td_closed d = false
      ∧ view w = {| uv_private_key := Some k; uv_peers := ∅; uv_routes := ∅;
                    uv_listen_port := if (do_ListenPort opts =? 0)%Z then None
                                      else Some (itoa (do_ListenPort opts)) |}
  end.
Proof.
  unfold newTunnelDevice. destruct (IsValid _) eqn:E1; [|by left].
  destruct (Contains4 _ _) eqn:E2; [|by left]. cbn [negb].
  destruct ((do_ListenPort opts <? 0)%Z || _) eqn:E3; [by left|].
  destruct ((_ <? minMTU)%Z || _) eqn:E4; [by left|].
  destruct (keyToHex _) as [k|] eqn:E5; [|by left]. destruct createNetTUN; [by left|].
  destruct (IpcSet _ wg_new) as [[e|] w] eqn:E6; [right; by eexists|].
  destruct (wg_Up w); [right; by eexists|]. bool_props. unfold minMTU, maxMTU in *.
  eexists _, k, w. split_and!; [done|lia|lia|done..|].
  apply view_IpcSet in E6. rewrite E6, view_new. unfold uapi_set.
  pose proof (plain_key _ _ E5) as Hk.
  assert (plain (itoa (do_ListenPort opts))) as Hport.
  { unfold itoa. rewrite (proj2 (Z.ltb_ge _ 0)) by lia. by apply utoa_no_byte. }
  rewrite uapi_pairs_line by first [done|plain_lit].
  destruct (do_ListenPort opts =? 0)%Z eqn:E7; cbn [negb].
  - done.
  - rewrite uapi_pairs_last by first [done|plain_lit]. done.
Qed.

(** ** Properties *)

(** What reaches wireguard-go for a peer is exactly one set block about
    that peer: its own key, its own preshared key, one address of the tunnel
    subnet as a /32, with [update_only] right after the key when the peer must
    exist and the endpoint lines only for a real endpoint.  No value of the
    configuration can add a line of its own. *)
Theorem ipcConfig_is_one_block p u cfg :
  ipcConfig p u = Ok cfg → endpoint_wf (dp_Endpoint p) →
  ∃ pub psk, keyToHex (dp_PublicKey p) = Ok pub ∧ keyToHex (bytes (dp_PresharedKey p)) = Ok psk
    ∧ Contains4 tunnelSubnet (dp_AllowedIP p) = true
    ∧ uapi_pairs cfg = peer_block pub psk u (dp_Endpoint p) (dp_AllowedIP p).
Proof. apply ipcConfig_pairs. Qed.

(** Adding a peer that succeeds puts it in force: it is there with its
    preshared key, its address and no other is routed to it, whoever had that
    address no longer does, and nothing else changed.  Updating does the same
    for a peer that exists and nothing at all for one that does not. *)
Theorem applyPeer_puts_in_force p (u : bool) d d' :
  (if u then UpdatePeer p d else AddPeer p d) = (None, d') → endpoint_wf (dp_Endpoint p) →
  ∃ k psk, keyToHex (dp_PublicKey p) = Ok k ∧ keyToHex (bytes (dp_PresharedKey p)) = Ok psk
    ∧ (¬ is_self k d →
       if u && bool_decide (uv_peers (view d) !! k = None) then view d' = view d
       else peer_in_force k psk (dp_AllowedIP p) (view d) (view d')).
Proof. intros H. apply applyPeer_in_force. by destruct u. Qed.

(** Removing a peer revokes it: the peer is gone and no address is routed
    to its key, every other peer and route is as before, and only a key the
    device cannot use, or wireguard-go itself, can make it fail. *)
Theorem RemovePeer_revokes pk d d' k :
  RemovePeer pk d = (None, d') → keyToHex pk = Ok k → ¬ is_self k d →
  uv_peers (view d') !! k = None
  ∧ (∀ c, uv_routes (view d') !! c ≠ Some k)
  ∧ (∀ k', k' ≠ k → uv_peers (view d') !! k' = uv_peers (view d) !! k')
  ∧ (∀ c k', k' ≠ k → uv_routes (view d') !! c = Some k' ↔ uv_routes (view d) !! c = Some k').
Proof.
  intros H Hk Hs. rewrite (RemovePeer_view _ _ _ _ H Hk Hs). unfold delete_peer. simpl. split_and!.
  - apply lookup_delete_eq.
  - intros c Hc. apply lookup_drop_routes in Hc as [_ Hne]. done.
  - intros k' Hk'. by apply lookup_delete_ne.
  - intros c k' Hk'. rewrite lookup_drop_routes. naive_solver.
Qed.

(** Moving an endpoint never creates a peer and changes nothing but that
    endpoint. *)
Theorem SetPeerEndpoint_only_moves pk ep d d' k :
  SetPeerEndpoint pk ep d = (None, d') → endpoint_wf ep → keyToHex pk = Ok k → ¬ is_self k d →
  uv_routes (view d') = uv_routes (view d)
  ∧ uv_peers (view d') = alter (set_endpoint (AddrPort_String ep)) k (uv_peers (view d)).
Proof. intros H Hwf Hk Hs. by rewrite (SetPeerEndpoint_view _ _ _ _ _ H Hwf Hk Hs). Qed.

(** Bringing a device up leaks nothing: when it fails, whatever had been
    opened is closed; when it succeeds the address is in the tunnel subnet,
    the MTU between 1280 and 1500, and the device holds exactly the private
    key and port asked for, with no peer. *)
Theorem newTunnelDevice_all_or_nothing createNetTUN opts :
  match newTunnelDevice createNetTUN opts with
  | (Err _, rs) => rs = [] ∨ ∃ m, rs = [TunOpened m; DeviceCreated; DeviceClosed]
  | (Ok d, rs) => ∃ m k w, rs = [TunOpened m; DeviceCreated] ∧ (1280 ≤ m ≤ 1500)%Z
      ∧ Contains4 tunnelSubnet (do_TunnelIP opts) = true
      ∧ keyToHex (bytes (do_PrivateKey opts)) = Ok k ∧ td_dev d = Some w ∧ td_closed d = false
      ∧ view w = {| uv_private_key := Some k; uv_peers := ∅; uv_routes := ∅;
                    uv_listen_port := if (do_ListenPort opts =? 0)%Z then None
                                      else Some (itoa (do_ListenPort opts)) |}
  end.
Proof. apply newTunnelDevice_spec. Qed.

End device_facts.

(** A key in its file's encoding becomes the lower-case hex of exactly 32
    bytes, surrounding blanks aside, or is refused; two keys become the same
    hex only when they are the same bytes; and no refusal repeats any of it. *)
Theorem keyToHex_exact s :
  (∀ h, keyToHex s = Ok h ↔
        ∃ raw, b64_decode (TrimSpace s) = Some raw ∧ length raw = 32 ∧ h = hex_encode raw)
  ∧ (∀ t h, keyToHex s = Ok h → keyToHex t = Ok h → b64_decode (TrimSpace s) = b64_decode (TrimSpace t))
  ∧ (∀ e, keyToHex s = Err e → e_msg e = #"is required" ∨ e_msg e = #"is not valid base64"
          ∨ ∃ n, e_msg e = #"decodes to " ++ itoa n ++ #" bytes, want 32").
Proof.
  split_and!.
  - intros h. apply keyToHex_Ok.
  - intros t h (raw & -> & _ & ->)%keyToHex_Ok (raw' & -> & _ & E)%keyToHex_Ok.
    by apply hex_encode_inj in E as ->.
  - unfold keyToHex. intros e H. case_bool_decide; [injection H as <-; by left|].
    destruct (b64_decode _) as [raw|]; [|injection H as <-; right; by left].
    destruct (negb _); [|done]. injection H as <-. right. right. by eexists.
Qed.

(** ** A device that is its view *)

Definition wf_view : Type := { v : uapi_view | view_wf v }.
Lemma new_view_wf : view_wf new_view.
Proof. intros c k H. exfalso. exact (lookup_empty_Some _ _ H). Qed.

Definition plain_device (public_of : gostring → gostring) : WireGuard.
Proof.
  refine {| wg := wf_view; wg_new := exist _ new_view new_view_wf;
            IpcSet cfg d := (None, exist _ (uapi_set public_of cfg (proj1_sig d))
                                     (uapi_set_wf public_of cfg _ (proj2_sig d)));
            wg_Up _ := None; wg_public := public_of; view := @proj1_sig _ _ |}.
  - done.
  - intros [v Hv]. exact Hv.
  - intros cfg d d' [= <-]. done.
Defined.

#[local] Instance demo_device : WireGuard := plain_device (λ k, reverse k).

Definition demo_device_peer : devicePeer := {|
  dp_PublicKey := zero_key; dp_PresharedKey := {| sec_value := zero_key |};
  dp_AllowedIP := Addr4 174260231; dp_Endpoint := AddrPort_zero |}.
Definition demo_moved_peer : devicePeer := {|
  dp_PublicKey := zero_key; dp_PresharedKey := {| sec_value := zero_key |};
  dp_AllowedIP := Addr4 174260232; dp_Endpoint := AddrPortFrom (Addr4 3221225994) 51820 |}.
Definition zero_hex : gostring := from_Ok [] (keyToHex zero_key).
Definition demo_d1 : wg := snd (AddPeer demo_device_peer wg_new).
Definition demo_d2 : wg := snd (UpdatePeer demo_moved_peer demo_d1).
Definition demo_d3 : wg := snd (RemovePeer zero_key demo_d2).

Lemma zero_endpoint_wf : endpoint_wf AddrPort_zero.
Proof. split; [done|]. by apply not_elem_of_nil. Qed.
Lemma demo_endpoint_wf : endpoint_wf (dp_Endpoint demo_moved_peer).
Proof. split; [done|]. by apply not_elem_of_nil. Qed.

Lemma ipcConfig_is_one_block_witness :
  uapi_pairs (from_Ok [] (ipcConfig demo_moved_peer true))
  = [ (#"public_key", zero_hex); (#"update_only", #"true"); (#"preshared_key", zero_hex);
      (#"endpoint", #"192.0.2.10:51820"); (#"replace_allowed_ips", #"true");
      (#"allowed_ip", #"10.99.0.8/32"); (#"persistent_keepalive_interval", #"25") ].
Proof.
  destruct (ipcConfig_is_one_block demo_moved_peer true (from_Ok [] (ipcConfig demo_moved_peer true)))
    as (pub & psk & E1 & E2 & _ & ->); [apply from_Ok_eq; by vm_compute|apply demo_endpoint_wf|].
  vm_compute in E1, E2. injection E1 as <-. injection E2 as <-. by vm_compute.
Defined.

Lemma applyPeer_puts_in_force_witness :
  ∃ psk, peer_in_force zero_hex psk (Addr4 174260232) (view demo_d1) (view demo_d2).
Proof.
  destruct (applyPeer_puts_in_force demo_moved_peer true demo_d1 demo_d2)
    as (k & psk & E1 & E2 & H); [reflexivity|apply demo_endpoint_wf|].
  assert (zero_hex = k) as <-.
  { unfold zero_hex. change zero_key with (dp_PublicKey demo_moved_peer). by rewrite E1. }
  exists psk. assert (¬ is_self zero_hex demo_d1) as Hs by by vm_compute. specialize (H Hs).
  rewrite bool_decide_false in H; [exact H|]. apply (bool_decide_eq_true_1 _). by vm_compute.
Defined.

Lemma RemovePeer_revokes_witness : uv_peers (view demo_d3) !! zero_hex = None.
Proof.
  apply (RemovePeer_revokes zero_key demo_d2 demo_d3 zero_hex);
    [reflexivity|apply from_Ok_eq; by vm_compute|by vm_compute].
Defined.

Lemma SetPeerEndpoint_only_moves_witness :
  uv_routes (view (snd (SetPeerEndpoint zero_key (dp_Endpoint demo_moved_peer) demo_d2)))
  = uv_routes (view demo_d2).
Proof.
  apply (SetPeerEndpoint_only_moves zero_key (dp_Endpoint demo_moved_peer) demo_d2 _ zero_hex);
    [reflexivity|apply demo_endpoint_wf|apply from_Ok_eq; by vm_compute|by vm_compute].
Defined.

End Device.
