(* ===== verification/GoFloat.v ===== *)
(** * [float64] arithmetic

    A finite float64 is a rational of the form [m * 2^e] with [|m| <= 2^53],
    and an operation returns the representable number nearest to the exact
    result, ties to even.  The exponent range is not modelled: the program's
    values lie between a nanosecond and 2^126, far inside it. *)

From S2P Require Import Prelude.
From Stdlib Require Import QArith Qround Qabs Qpower Lqa.

Local Open Scope Q_scope.

(** ** Rounding *)

Abbreviation half := (Qmake 1 2).
Definition pow2 (e : Z) : Q := Qpower 2 e.

(** To the nearest integer, ties to even. *)
Definition round_int (x : Q) : Z :=
  let f := Qfloor x in
  let r := x - inject_Z f in
  if Qle_bool half r
  then if Qle_bool r half && Z.even f then f else (f + 1)%Z
  else f.

(** The exponent that gives [x > 0] 53 significant bits. *)
Definition exponent (x : Q) : Z :=
  let e := (Z.log2 (Qnum x) - Z.log2 (QDen x) - 52)%Z in
  if Qle_bool (pow2 52) (x * pow2 (- e)) then e else (e - 1)%Z.

Definition rnd_pos (x : Q) : Q :=
  let e := exponent x in Qred (inject_Z (round_int (x * pow2 (- e))) * pow2 e).

Definition rnd (x : Q) : Q :=
  if Qle_bool x 0 then (if Qle_bool 0 x then 0 else - rnd_pos (- x)) else rnd_pos x.

Definition representable (x : Q) : Prop :=
  ∃ m e : Z, (Z.abs m <= 2 ^ 53)%Z ∧ x == inject_Z m * pow2 e.

(** What rounding to nearest promises. *)
Definition nearest (x r : Q) : Prop :=
  representable r ∧ ∀ s, representable s → Qabs (x - r) <= Qabs (x - s).

(** ** Lemmas *)

Lemma pow2_pos e : 0 < pow2 e.
Proof. apply Qpower_0_lt. done. Qed.

Lemma pow2_add a b : pow2 (a + b) == pow2 a * pow2 b.
Proof. apply Qpower_plus. done. Qed.

Lemma pow2_opp e : pow2 e * pow2 (- e) == 1.
Proof. rewrite <- pow2_add. replace (e + - e)%Z with 0%Z by lia. reflexivity. Qed.

Lemma pow2_Z n : (0 <= n)%Z → pow2 n == inject_Z (2 ^ n).
Proof. intros H. unfold pow2. symmetry. by apply Zpower_Qpower. Qed.

Lemma round_int_bound x : Qabs (x - inject_Z (round_int x)) <= half.
Proof.
  unfold round_int. pose proof (Qfloor_le x) as H1. pose proof (Qlt_floor x) as H2.
  rewrite inject_Z_plus in H2. apply Qabs_Qle_condition.
  destruct (Qle_bool half _) eqn:E.
  - apply Qle_bool_iff in E. destruct (Qle_bool _ half) eqn:E2.
    + apply Qle_bool_iff in E2. destruct (Z.even _); cbn [andb]; [lra|].
      rewrite inject_Z_plus. change (inject_Z 1) with 1 in *. lra.
    + cbn [andb]. rewrite inject_Z_plus. change (inject_Z 1) with 1 in *. lra.
  - assert (¬ half <= x - inject_Z (Qfloor x)) as E'
      by (intros H; apply Qle_bool_iff in H; congruence).
    change (inject_Z 1) with 1 in *. lra.
Qed.

Lemma Qabs_inject k : Qabs (inject_Z k) == inject_Z (Z.abs k).
Proof. reflexivity. Qed.

Lemma round_int_nearest x k : Qabs (x - inject_Z (round_int x)) <= Qabs (x - inject_Z k).
Proof.
  destruct (decide (round_int x = k)) as [<-|Hne]; [apply Qle_refl|].
  pose proof (round_int_bound x) as H.
  assert (1 <= Qabs (inject_Z (round_int x) - inject_Z k)) as Hd.
  { unfold Qminus. rewrite <- inject_Z_opp, <- inject_Z_plus, Qabs_inject.
    change 1 with (inject_Z 1). rewrite <- Zle_Qle. lia. }
  pose proof (Qabs_triangle (inject_Z (round_int x) - x) (x - inject_Z k)) as Ht.
  rewrite (Qabs_wd (inject_Z (round_int x) - x + (x - inject_Z k))
             (inject_Z (round_int x) - inject_Z k)) in Ht by ring.
  rewrite (Qabs_Qminus (inject_Z (round_int x)) x) in Ht. lra.
Qed.

Lemma Q_num_den x : x * inject_Z (QDen x) == inject_Z (Qnum x).
Proof. destruct x as [n d]. unfold Qeq. simpl. lia. Qed.

Lemma pow2_le_Z z : (0 < z)%Z → pow2 (Z.log2 z) <= inject_Z z /\ inject_Z z < pow2 (Z.log2 z + 1).
Proof.
  intros Hz. destruct (Z.log2_spec z Hz) as [H1 H2]. pose proof (Z.log2_nonneg z).
  rewrite !pow2_Z by lia. rewrite <- Zle_Qle, <- Zlt_Qlt. split; [lia|].
  by replace (Z.log2 z + 1)%Z with (Z.succ (Z.log2 z)) by lia.
Qed.

(** The binade of a positive rational, to within a factor of two. *)
Lemma binade x : 0 < x →
  let k := (Z.log2 (Qnum x) - Z.log2 (QDen x))%Z in pow2 (k - 1) < x /\ x < pow2 (k + 1).
Proof.
  intros Hx k. assert (0 < Qnum x)%Z as Hn by (destruct x as [n d]; unfold Qlt in Hx; simpl in *; lia).
  destruct (pow2_le_Z _ Hn) as [N1 N2]. destruct (pow2_le_Z (QDen x) eq_refl) as [D1 D2].
  set (a := Z.log2 (Qnum x)) in *. set (b := Z.log2 (QDen x)) in *.
  assert (0 < inject_Z (QDen x)) as Hd by by rewrite <- (Zlt_Qlt 0).
  pose proof (Q_num_den x) as E. pose proof (pow2_pos (k - 1)). pose proof (pow2_pos (k + 1)). split.
  - apply (Qmult_lt_r _ _ _ Hd). rewrite E. eapply Qlt_le_trans; [|exact N1].
    setoid_replace (pow2 a) with (pow2 (k - 1) * pow2 (b + 1)) using relation Qeq
      by (rewrite <- pow2_add; unfold k; replace (a - b - 1 + (b + 1))%Z with a by lia; reflexivity).
    by apply Qmult_lt_l.
  - apply (Qmult_lt_r _ _ _ Hd). rewrite E. eapply Qlt_le_trans; [exact N2|].
    setoid_replace (pow2 (a + 1)) with (pow2 (k + 1) * pow2 b) using relation Qeq
      by (rewrite <- pow2_add; unfold k; replace (a - b + 1 + b)%Z with (a + 1)%Z by lia; reflexivity).
    apply Qmult_le_l; done.
Qed.

Lemma exponent_spec x : 0 < x →
  pow2 52 <= x * pow2 (- exponent x) /\ x * pow2 (- exponent x) < pow2 53.
Proof.
  intros Hx. destruct (binade x Hx) as [H1 H2]. set (k := (Z.log2 (Qnum x) - Z.log2 (QDen x))%Z) in *.
  unfold exponent. fold k. set (e := (k - 52)%Z).
  assert (x * pow2 (- e) < pow2 53) as Hup.
  { setoid_replace (pow2 53) with (pow2 (k + 1) * pow2 (- e)) using relation Qeq
      by (rewrite <- pow2_add; unfold e; replace (k + 1 + - (k - 52))%Z with 53%Z by lia; reflexivity).
    apply Qmult_lt_r; [apply pow2_pos|done]. }
  destruct (Qle_bool (pow2 52) (x * pow2 (- e))) eqn:E; fold e; [apply Qle_bool_iff in E; done|].
  assert (¬ pow2 52 <= x * pow2 (- e)) as E' by (intros H; apply Qle_bool_iff in H; congruence).
  apply Qnot_le_lt in E'. split.
  - apply Qlt_le_weak. setoid_replace (pow2 52) with (pow2 (k - 1) * pow2 (- (e - 1))) using relation Qeq
      by (rewrite <- pow2_add; unfold e; replace (k - 1 + - (k - 52 - 1))%Z with 52%Z by lia; reflexivity).
    apply Qmult_lt_r; [apply pow2_pos|done].
  - setoid_replace (pow2 53) with (pow2 52 * pow2 1) using relation Qeq by reflexivity.
    replace (- (e - 1))%Z with (- e + 1)%Z by lia. rewrite pow2_add, Qmult_assoc.
    apply Qmult_lt_r; [apply pow2_pos|done].
Qed.

Lemma rnd_pos_nearest x : 0 < x → nearest x (rnd_pos x).
Proof.
  intros Hx. destruct (exponent_spec x Hx) as [H1 H2]. unfold rnd_pos.
  set (e := exponent x) in *. set (y := x * pow2 (- e)) in *.
  pose proof (round_int_bound y) as Hb. apply Qabs_Qle_condition in Hb as [Hb1 Hb2].
  assert (x == y * pow2 e) as Ex by (unfold y; rewrite <- Qmult_assoc, (Qmult_comm (pow2 (- e))), pow2_opp; ring).
  pose proof (pow2_pos e) as Hpe. split.
  - exists (round_int y), e. rewrite Qred_correct. split; [|reflexivity].
    assert (inject_Z (round_int y) < inject_Z (2 ^ 53 + 1)) as Hr.
    { rewrite inject_Z_plus, <- pow2_Z by lia. change (inject_Z 1) with 1. lra. }
    rewrite <- Zlt_Qlt in Hr.
    assert (inject_Z (-1) < inject_Z (round_int y)) as Hl.
    { change (inject_Z (-1)) with (-(1))%Q. assert (0 < pow2 52) by apply pow2_pos.
      assert (1 <= pow2 52) by (vm_compute; discriminate). lra. }
    rewrite <- Zlt_Qlt in Hl. lia.
  - intros s (m & e' & Hm & Es). rewrite Qred_correct.
    assert (∀ k, Qabs (x - inject_Z (round_int y) * pow2 e) <= Qabs (x - inject_Z k * pow2 e)) as Hgrid.
    { intros k. rewrite (Qabs_wd (x - inject_Z (round_int y) * pow2 e) ((y - inject_Z (round_int y)) * pow2 e)) by (rewrite Ex; ring).
      rewrite (Qabs_wd (x - inject_Z k * pow2 e) ((y - inject_Z k) * pow2 e)) by (rewrite Ex; ring).
      rewrite !Qabs_Qmult. apply Qmult_le_compat_r; [apply round_int_nearest|apply Qabs_nonneg]. }
    destruct (Z.leb_spec e e') as [Hle|Hlt].
    + assert (s == inject_Z (m * 2 ^ (e' - e)) * pow2 e) as ->; [|apply Hgrid].
      rewrite Es, inject_Z_mult, <- pow2_Z by lia. rewrite <- Qmult_assoc, <- pow2_add.
      replace (e' - e + e)%Z with e' by lia. reflexivity.
    + eapply Qle_trans; [apply (Hgrid (2 ^ 52)%Z)|]. rewrite <- pow2_Z by lia.
      assert (pow2 52 * pow2 e <= x) as Hx52 by (rewrite Ex; by apply Qmult_le_r).
      assert (s <= pow2 52 * pow2 e) as Hs.
      { rewrite Es. apply Qle_trans with (pow2 53 * pow2 e').
        - apply Qmult_le_compat_r; [|apply Qlt_le_weak, pow2_pos]. rewrite pow2_Z by lia.
          rewrite <- Zle_Qle. lia.
        - rewrite <- !pow2_add. replace (52 + e)%Z with (53 + e' + (e - 1 - e'))%Z by lia.
          rewrite (pow2_add (53 + e')), pow2_add. rewrite <- (Qmult_1_r (pow2 53 * pow2 e')) at 1.
          apply Qmult_le_l; [apply Qmult_lt_0_compat; apply pow2_pos|].
          rewrite pow2_Z by lia. change 1 with (inject_Z 1). rewrite <- Zle_Qle.
          pose proof (Z.pow_pos_nonneg 2 (e - 1 - e')). lia. }
      rewrite !Qabs_pos by lra. lra.
Qed.

Lemma representable_wd x y : x == y → representable x → representable y.
Proof. intros E (m & e & Hm & H). exists m, e. split; [done|]. by rewrite <- E. Qed.

#[export] Instance representable_Proper : Proper (Qeq ==> iff) representable.
Proof. intros x y E. split; apply representable_wd; [done|by symmetry]. Qed.

Lemma representable_opp x : representable x → representable (- x).
Proof.
  intros (m & e & Hm & H). exists (- m)%Z, e. split; [lia|]. rewrite H, inject_Z_opp. ring.
Qed.

Lemma representable_Z n : (Z.abs n <= 2 ^ 53)%Z → representable (inject_Z n).
Proof. intros H. exists n, 0%Z. split; [done|]. change (pow2 0) with 1. ring. Qed.

(** One operation is correctly rounded. *)
Lemma rnd_nearest x : nearest x (rnd x).
Proof.
  unfold rnd. destruct (Qle_bool x 0) eqn:E1.
  - apply Qle_bool_iff in E1. destruct (Qle_bool 0 x) eqn:E2.
    + apply Qle_bool_iff in E2. split; [by apply (representable_Z 0)|].
      intros s _. rewrite (Qabs_wd (x - 0) 0) by lra. apply Qabs_nonneg.
    + assert (0 < - x) as Hx.
      { assert (¬ 0 <= x) as H by (intros H; apply Qle_bool_iff in H; congruence). lra. }
      destruct (rnd_pos_nearest _ Hx) as [Hr Hs]. split; [by apply representable_opp|].
      intros s Hrep. specialize (Hs (- s) (representable_opp _ Hrep)).
      rewrite <- (Qabs_opp (x - s)), <- (Qabs_opp (x - - rnd_pos (- x))).
      rewrite (Qabs_wd (- (x - s)) (- x - - s)) by ring.
      rewrite (Qabs_wd (- (x - - rnd_pos (- x))) (- x - rnd_pos (- x))) by ring. done.
  - apply rnd_pos_nearest.
    assert (¬ x <= 0) as H by (intros H; apply Qle_bool_iff in H; congruence). lra.
Qed.

Lemma rnd_representable x : representable (rnd x).
Proof. apply rnd_nearest. Qed.

Lemma rnd_exact x : representable x → rnd x == x.
Proof.
  intros H. destruct (rnd_nearest x) as [_ Hn]. specialize (Hn x H).
  rewrite (Qabs_wd (x - x) 0) in Hn by ring. change (Qabs 0) with 0 in Hn.
  apply Qabs_Qle_condition in Hn. lra.
Qed.

(** Rounding never crosses a representable number. *)
Lemma rnd_ge s x : representable s → s <= x → s <= rnd x.
Proof.
  intros Hs Hle. destruct (rnd_nearest x) as [_ Hn]. specialize (Hn s Hs).
  destruct (Qlt_le_dec (rnd x) s) as [H|H]; [|done].
  rewrite !Qabs_pos in Hn by lra. lra.
Qed.

Lemma rnd_le s x : representable s → x <= s → rnd x <= s.
Proof.
  intros Hs Hle. destruct (rnd_nearest x) as [_ Hn]. specialize (Hn s Hs).
  destruct (Qlt_le_dec s (rnd x)) as [H|H]; [|done].
  rewrite !Qabs_neg in Hn by lra. lra.
Qed.

(** Counting down by one loses nothing below 2^53. *)
Lemma representable_pred t :
  representable t → 1 <= t → t <= inject_Z (2 ^ 53) → representable (t - 1).
Proof.
  intros (m & e & Hm & E) H1 H2. destruct (Z.leb_spec 0 e) as [He|He].
  - apply (representable_wd (inject_Z (m * 2 ^ e - 1))).
    { rewrite E, pow2_Z by done. unfold Z.sub. rewrite inject_Z_plus, inject_Z_mult. reflexivity. }
    apply representable_Z.
    assert (t == inject_Z (m * 2 ^ e)) as E' by (rewrite E, pow2_Z, inject_Z_mult by done; reflexivity).
    rewrite E' in H1, H2. change 1 with (inject_Z 1) in H1.
    rewrite <- Zle_Qle in H1, H2. lia.
  - exists (m - 2 ^ (- e))%Z, e. split.
    + assert (inject_Z (2 ^ (- e)) <= inject_Z m) as Hlow.
      { rewrite <- pow2_Z by lia. apply (Qmult_le_r _ _ (pow2 e)); [apply pow2_pos|].
        rewrite <- E, (Qmult_comm (pow2 (- e))), pow2_opp. done. }
      rewrite <- Zle_Qle in Hlow. pose proof (Z.pow_nonneg 2 (- e)). lia.
    + unfold Z.sub. rewrite inject_Z_plus, inject_Z_opp, <- pow2_Z by lia.
      rewrite Qmult_plus_distr_l, <- E.
      setoid_replace (- pow2 (- e) * pow2 e) with (- (pow2 e * pow2 (- e))) using relation Qeq by ring.
      rewrite pow2_opp. reflexivity.
Qed.

(** ** Operations *)

Definition of_int (n : Z) : Q := rnd (inject_Z n).
Definition fadd (x y : Q) : Q := rnd (x + y).
Definition fsub (x y : Q) : Q := rnd (x - y).
Definition fmul (x y : Q) : Q := rnd (x * y).
Definition fdiv (x y : Q) : Q := rnd (x / y).
(** [x*y + z] in one rounding, which the language lets a compiler use. *)
Definition ffma (x y z : Q) : Q := rnd (x * y + z).
Definition flt (x y : Q) : bool := negb (Qle_bool y x).

Lemma flt_true x y : flt x y = true ↔ x < y.
Proof.
  unfold flt. rewrite negb_true_iff, <- not_true_iff_false, Qle_bool_iff. split; lra.
Qed.
Lemma flt_false x y : flt x y = false ↔ y <= x.
Proof. unfold flt. by rewrite negb_false_iff, Qle_bool_iff. Qed.

(** [time.Duration.Seconds], of a duration in nanoseconds. *)
Definition Seconds (d : Z) : Q :=
  fadd (of_int (Z.quot d 1000000000)) (fdiv (of_int (Z.rem d 1000000000)) (of_int 1000000000)).

Lemma rnd_nonneg x : 0 <= x → 0 <= rnd x.
Proof. apply rnd_ge. by apply (representable_Z 0). Qed.

Lemma Seconds_nonneg d : (0 <= d)%Z → 0 <= Seconds d.
Proof.
  intros Hd. assert (∀ n, (0 <= n)%Z → 0 <= of_int n) as Hi.
  { intros n Hn. apply rnd_nonneg. change 0 with (inject_Z 0). by rewrite <- Zle_Qle. }
  apply rnd_nonneg. assert (0 <= of_int (Z.quot d 1000000000)) by (apply Hi, Z.quot_pos; lia).
  assert (0 <= fdiv (of_int (Z.rem d 1000000000)) (of_int 1000000000)); [|lra].
  apply rnd_nonneg. unfold Qdiv. apply Qmult_le_0_compat.
  - apply Hi. by apply Z.rem_nonneg.
  - apply Qinv_le_0_compat. by apply Hi.
Qed.

Example Seconds_ms : Seconds 1500000000 = Qmake 3 2.
Proof. reflexivity. Qed.

(** ** Relative error *)

Definition ulp : Q := pow2 (-53).

Lemma rnd_upper x : 0 <= x → rnd x <= x * (1 + ulp).
Proof.
  intros Hx. destruct (Qlt_le_dec 0 x) as [Hp|Hz].
  - destruct (exponent_spec x Hp) as [H1 _]. set (e := exponent x) in *.
    assert (x == (x * pow2 (- e)) * pow2 e) as Ex
      by (rewrite <- Qmult_assoc, (Qmult_comm (pow2 (- e))), pow2_opp; ring).
    assert (rnd x == inject_Z (round_int (x * pow2 (- e))) * pow2 e) as ->.
    { unfold rnd. destruct (Qle_bool x 0) eqn:E; [apply Qle_bool_iff in E; lra|].
      unfold rnd_pos. fold e. apply Qred_correct. }
    pose proof (round_int_bound (x * pow2 (- e))) as Hb. apply Qabs_Qle_condition in Hb as [Hb _].
    set (y := x * pow2 (- e)) in *.
    assert (inject_Z (round_int y) <= y * (1 + ulp)) as Hy.
    { assert (half <= y * ulp) as H; [|lra].
      setoid_replace half with (pow2 52 * ulp) using relation Qeq by reflexivity.
      apply Qmult_le_compat_r; [done|]. unfold ulp. apply Qlt_le_weak, pow2_pos. }
    apply Qle_trans with (y * (1 + ulp) * pow2 e); [|rewrite Ex at 1; apply Qle_lteq; right; ring].
    apply Qmult_le_compat_r; [done|]. apply Qlt_le_weak, pow2_pos.
  - assert (x == 0) as E by lra. rewrite (rnd_exact x), E; [lra|].
    apply (representable_wd (inject_Z 0)); [by rewrite E|]. by apply representable_Z.
Qed.

Lemma ulp_pos : 0 < ulp.
Proof. apply pow2_pos. Qed.

Lemma of_int_exact n : (Z.abs n <= 2 ^ 53)%Z → of_int n == inject_Z n.
Proof. intros H. by apply rnd_exact, representable_Z. Qed.

Lemma inject_Z_nonneg z : (0 <= z)%Z → 0 <= inject_Z z.
Proof. intros H. change 0 with (inject_Z 0). by rewrite <- Zle_Qle. Qed.

(** A duration in seconds is over by at most two roundings. *)
Lemma Seconds_upper d : (0 <= d < 2 ^ 63)%Z →
  Seconds d <= inject_Z d / inject_Z 1000000000 * ((1 + ulp) * (1 + ulp)).
Proof.
  intros Hd. unfold Seconds, fadd, fdiv.
  set (q := Z.quot d 1000000000). set (r := Z.rem d 1000000000).
  assert (d = 1000000000 * q + r)%Z as Ed by apply Z.quot_rem'.
  assert (0 <= r < 1000000000)%Z as Hr by (apply Z.rem_bound_pos; lia).
  assert (0 <= q <= 2 ^ 53)%Z as Hq.
  { split; [apply Z.quot_pos; lia|]. apply Z.quot_le_upper_bound; lia. }
  clearbody q r. assert (of_int q == inject_Z q) as Eq by (apply of_int_exact; lia).
  assert (of_int r == inject_Z r) as Er by (apply of_int_exact; lia).
  assert (of_int 1000000000 == inject_Z 1000000000) as E9 by (apply of_int_exact; lia).
  assert (0 <= inject_Z r / inject_Z 1000000000) as Hrn.
  { apply Qle_shift_div_l; [reflexivity|]. rewrite Qmult_0_l. apply inject_Z_nonneg. lia. }
  assert (0 <= inject_Z q) as Hqn by (apply inject_Z_nonneg; lia).
  pose proof ulp_pos as Hu.
  assert (0 <= of_int r / of_int 1000000000) as Hdiv by (rewrite Er, E9; exact Hrn).
  set (f := rnd (of_int r / of_int 1000000000)).
  assert (f <= inject_Z r / inject_Z 1000000000 * (1 + ulp)) as Hf.
  { unfold f. eapply Qle_trans; [apply rnd_upper; exact Hdiv|]. rewrite Er, E9. apply Qle_refl. }
  assert (0 <= f) as Hf0 by (apply rnd_nonneg; exact Hdiv).
  eapply Qle_trans; [apply rnd_upper; lra|].
  rewrite Qmult_assoc. apply Qmult_le_compat_r; [|lra].
  assert (inject_Z d / inject_Z 1000000000 == inject_Z q + inject_Z r / inject_Z 1000000000) as ->.
  { rewrite Ed, inject_Z_plus, inject_Z_mult. field. }
  assert (0 <= inject_Z q * ulp) by (apply Qmult_le_0_compat; lra). lra.
Qed.
