(* ===== verification/Limiter.v ===== *)
(** * Per-peer limits ([peerLimiter] of [server.go])

    A token bucket of dials per second, in float64, and a cap on concurrent
    connections.  Instants are monotonic clock readings in nanoseconds;
    [time.Time.Sub] saturates to a 64-bit duration.  Live connections are
    named by numbers, as pointers are. *)

From S2P Require Import Prelude GoFloat Config.
From Stdlib Require Import QArith Qround Qabs Lqa.
Import Config.

Local Open Scope Q_scope.

Module Limiter.

Record peerLimiter := {
  l_publicKey : gostring;
  l_maxConcurrent : Z; l_rate : Q; l_burst : Q; l_tokens : Q;
  l_last : Z; l_active : Z; l_live : gset nat
}.

Definition set_tokens (t : Q) (p : peerLimiter) : peerLimiter :=
  {| l_publicKey := l_publicKey p; l_maxConcurrent := l_maxConcurrent p; l_rate := l_rate p;
     l_burst := l_burst p; l_tokens := t; l_last := l_last p; l_active := l_active p;
     l_live := l_live p |}.
Definition set_last (t : Z) (p : peerLimiter) : peerLimiter :=
  {| l_publicKey := l_publicKey p; l_maxConcurrent := l_maxConcurrent p; l_rate := l_rate p;
     l_burst := l_burst p; l_tokens := l_tokens p; l_last := t; l_active := l_active p;
     l_live := l_live p |}.
Definition set_active (n : Z) (p : peerLimiter) : peerLimiter :=
  {| l_publicKey := l_publicKey p; l_maxConcurrent := l_maxConcurrent p; l_rate := l_rate p;
     l_burst := l_burst p; l_tokens := l_tokens p; l_last := l_last p; l_active := n;
     l_live := l_live p |}.
Definition set_live (s : gset nat) (p : peerLimiter) : peerLimiter :=
  {| l_publicKey := l_publicKey p; l_maxConcurrent := l_maxConcurrent p; l_rate := l_rate p;
     l_burst := l_burst p; l_tokens := l_tokens p; l_last := l_last p; l_active := l_active p;
     l_live := s |}.

(** [if p.tokens > p.burst { p.tokens = p.burst }] *)
Definition clamp (p : peerLimiter) : peerLimiter :=
  if flt (l_burst p) (l_tokens p) then set_tokens (l_burst p) p else p.

Definition setLimits (l : peerLimits) (p : peerLimiter) : peerLimiter :=
  clamp {| l_publicKey := l_publicKey p; l_maxConcurrent := MaxConcurrent l;
           l_rate := of_int (DialsPerSecond l); l_burst := of_int (DialsPerSecond l);
           l_tokens := l_tokens p; l_last := l_last p; l_active := l_active p;
           l_live := l_live p |}.

Definition newPeerLimiter (publicKey : gostring) (l : peerLimits) (now : Z) : peerLimiter :=
  let p := setLimits l {| l_publicKey := publicKey; l_maxConcurrent := 0; l_rate := 0;
                          l_burst := 0; l_tokens := 0; l_last := now; l_active := 0; l_live := ∅ |} in
  set_tokens (l_burst p) p.

(** [now.Sub(last)] *)
Definition Sub (now last : Z) : Z := Z.max (- 2 ^ 63) (Z.min (2 ^ 63 - 1) (now - last)).

(** [p.tokens += elapsed.Seconds() * p.rate], compiled with or without a
    fused multiply-add. *)
Definition add_tokens (fused : bool) (elapsed : Z) (p : peerLimiter) : Q :=
  if fused then ffma (Seconds elapsed) (l_rate p) (l_tokens p)
  else fadd (l_tokens p) (fmul (Seconds elapsed) (l_rate p)).

Definition refill (fused : bool) (now : Z) (p : peerLimiter) : peerLimiter :=
  let elapsed := Sub now (l_last p) in
  if (0 <? elapsed)%Z then
    let p1 := set_last now p in clamp (set_tokens (add_tokens fused elapsed p1) p1)
  else p.

Definition acquire (fused : bool) (now : Z) (p : peerLimiter) : peerLimiter * (gostring * bool) :=
  let p1 := refill fused now p in
  if flt (l_tokens p1) 1 then (p1, (#"dials_per_second", false))
  else
    let p2 := set_tokens (fsub (l_tokens p1) 1) p1 in
    if (l_maxConcurrent p2 <=? l_active p2)%Z then (p2, (#"max_concurrent", false))
    else (set_active (l_active p2 + 1) p2, ([], true)).

Definition release (p : peerLimiter) : peerLimiter :=
  if (0 <? l_active p)%Z then set_active (l_active p - 1) p else p.

Definition track (c : nat) (p : peerLimiter) : peerLimiter := set_live ({[c]} ∪ l_live p) p.
Definition untrack (c : nat) (p : peerLimiter) : peerLimiter := set_live (l_live p ∖ {[c]}) p.

(** [closeLive]: the connections it closes, and the set cleared. *)
Definition closeLive (p : peerLimiter) : peerLimiter * list nat :=
  (set_live ∅ p, elements (l_live p)).

(** ** Invariant *)

(** Limits a validated configuration can produce, within exact float64. *)
Definition limits_ok (l : peerLimits) : Prop :=
  (1 <= MaxConcurrent l)%Z ∧ (1 <= DialsPerSecond l <= 2 ^ 53)%Z.

Record limiter_ok (p : peerLimiter) : Prop := {
  lo_rate : l_rate p = l_burst p;
  lo_burst : ∃ n, (1 <= n <= 2 ^ 53)%Z ∧ l_burst p == inject_Z n;
  lo_repr : representable (l_tokens p);
  lo_tokens : 0 <= l_tokens p <= l_burst p;
  lo_active : (0 <= l_active p)%Z
}.

(** ** Lemmas *)

Lemma burst_bounds p : limiter_ok p →
  1 <= l_burst p ∧ l_burst p <= inject_Z (2 ^ 53) ∧ representable (l_burst p).
Proof.
  intros [_ (n & Hn & E) _ _ _]. rewrite E. change 1 with (inject_Z 1). rewrite <- !Zle_Qle.
  split_and!; [lia|lia|]. apply representable_Z. lia.
Qed.

(** The one place where tokens grow is clamped. *)
Lemma clamp_ok p :
  l_rate p = l_burst p → (∃ n, (1 <= n <= 2 ^ 53)%Z ∧ l_burst p == inject_Z n) →
  representable (l_tokens p) → 0 <= l_tokens p → (0 <= l_active p)%Z → limiter_ok (clamp p).
Proof.
  intros Hr (n & Hn & E) Ht H0 Ha. unfold clamp.
  assert (0 <= l_burst p) as Hb by (rewrite E; apply inject_Z_nonneg; lia).
  destruct (flt (l_burst p) (l_tokens p)) eqn:Ef.
  - constructor; cbn [l_rate l_burst l_tokens l_active set_tokens]; [done|by exists n| |lra|done].
    rewrite E. apply representable_Z. lia.
  - apply flt_false in Ef. constructor; [done|by exists n|done|lra|done].
Qed.

Lemma refill_ok fused now p : limiter_ok p → limiter_ok (refill fused now p).
Proof.
  intros Hok. pose proof (burst_bounds p Hok) as (Hb1 & Hb2 & Hb3). destruct Hok as [Hr Hn Ht [H0 H1] Ha].
  unfold refill. destruct (0 <? Sub now (l_last p))%Z eqn:E; [|by constructor]. bool_props.
  set (e := Sub now (l_last p)) in *.
  assert (0 <= Seconds e) as Hs by (apply Seconds_nonneg; lia).
  assert (0 <= Seconds e * l_rate p) as Hm by (rewrite Hr; apply Qmult_le_0_compat; lra).
  apply clamp_ok; cbn [l_rate l_burst l_tokens l_active set_tokens set_last]; [done|done| | |done].
  - unfold add_tokens. destruct fused; apply rnd_representable.
  - unfold add_tokens, ffma, fadd, fmul.
    cbn [l_rate l_burst l_tokens l_active set_tokens set_last].
    destruct fused; apply rnd_nonneg; [lra|]. pose proof (rnd_nonneg _ Hm). lra.
Qed.

Lemma refill_same fused now p :
  l_burst (refill fused now p) = l_burst p ∧ l_rate (refill fused now p) = l_rate p
  ∧ l_active (refill fused now p) = l_active p ∧ l_maxConcurrent (refill fused now p) = l_maxConcurrent p
  ∧ l_live (refill fused now p) = l_live p ∧ l_publicKey (refill fused now p) = l_publicKey p.
Proof.
  unfold refill, clamp. destruct (_ <? _)%Z; [|done]. destruct (flt _ _); done.
Qed.

(** Taking a token is exact. *)
Lemma spend_exact p : limiter_ok p → 1 <= l_tokens p → fsub (l_tokens p) 1 == l_tokens p - 1.
Proof.
  intros Hok H1. pose proof (burst_bounds p Hok) as (_ & Hb & _). destruct Hok as [_ _ Ht [_ Hle] _].
  apply rnd_exact, representable_pred; [done|done|lra].
Qed.

Lemma spend_ok p : limiter_ok p → 1 <= l_tokens p → limiter_ok (set_tokens (fsub (l_tokens p) 1) p).
Proof.
  intros Hok H1. pose proof (spend_exact p Hok H1) as E. destruct Hok as [Hr Hn Ht [H0 Hle] Ha].
  constructor; cbn [l_rate l_burst l_tokens l_active set_tokens]; [done|done|apply rnd_representable| |done].
  rewrite E. lra.
Qed.

Lemma acquire_ok fused now p : limiter_ok p → limiter_ok (fst (acquire fused now p)).
Proof.
  intros Hok. pose proof (refill_ok fused now p Hok) as Hr. unfold acquire.
  set (p1 := refill fused now p) in *. destruct (flt (l_tokens p1) 1) eqn:E; [done|].
  apply flt_false in E. pose proof (spend_ok p1 Hr E) as Hs.
  destruct (_ <=? _)%Z; cbn [fst]; [done|]. destruct Hs as [A1 A2 A3 A4 A5].
  constructor; try done. cbn [l_active set_active set_tokens] in *. lia.
Qed.

(** ** Sequences of calls *)

Inductive call :=
  | Acquire (fused : bool) (now : Z)
  | Release
  | Track (c : nat)
  | Untrack (c : nat)
  | SetLimits (l : peerLimits).

Record tally := { ta_limiter : peerLimiter; ta_admitted : nat; ta_refills : nat }.

Definition do_call (t : tally) (c : call) : tally :=
  let p := ta_limiter t in
  match c with
  | Acquire fused now =>
      let '(p', (_, ok)) := acquire fused now p in
      {| ta_limiter := p'; ta_admitted := ta_admitted t + (if ok : bool then 1 else 0);
         ta_refills := ta_refills t + (if (0 <? Sub now (l_last p))%Z then 1 else 0) |}
  | Release => {| ta_limiter := release p; ta_admitted := ta_admitted t; ta_refills := ta_refills t |}
  | Track c => {| ta_limiter := track c p; ta_admitted := ta_admitted t; ta_refills := ta_refills t |}
  | Untrack c => {| ta_limiter := untrack c p; ta_admitted := ta_admitted t; ta_refills := ta_refills t |}
  | SetLimits l => {| ta_limiter := setLimits l p; ta_admitted := ta_admitted t; ta_refills := ta_refills t |}
  end.
Definition calls (p : peerLimiter) (cs : list call) : tally :=
  foldl do_call {| ta_limiter := p; ta_admitted := 0; ta_refills := 0 |} cs.

(** The rounding a refill can add, and a lapse of time in seconds. *)
Definition eps : Q := pow2 (-50).
Definition lapse (t0 t1 : Z) : Q := inject_Z (t1 - t0) / inject_Z 1000000000.
Definition nat_Q (n : nat) : Q := inject_Z (Z.of_nat n).

Lemma nat_Q_add a b : nat_Q (a + b) == nat_Q a + nat_Q b.
Proof. unfold nat_Q. by rewrite Nat2Z.inj_add, inject_Z_plus. Qed.

Lemma nat_Q_bump n (b : bool) : nat_Q (n + (if b then 1 else 0)) == nat_Q n + (if b then 1 else 0).
Proof. rewrite nat_Q_add. by destruct b. Qed.

Lemma refill_last fused now p :
  l_last (refill fused now p) = if (0 <? Sub now (l_last p))%Z then now else l_last p.
Proof. unfold refill, clamp. destruct (_ <? _)%Z; [|done]. by destruct (flt _ _). Qed.

Lemma clamp_tokens_le p : l_tokens (clamp p) <= l_tokens p.
Proof.
  unfold clamp. destruct (flt _ _) eqn:E; [|apply Qle_refl].
  apply flt_true in E. cbn [l_tokens set_tokens]. lra.
Qed.

Lemma ulp_val : ulp = Qmake 1 9007199254740992.
Proof. reflexivity. Qed.
Lemma eps_val : eps = Qmake 1 1125899906842624.
Proof. reflexivity. Qed.

(** Before clamping: what was there, the lapse at the rate, and rounding. *)
Lemma add_tokens_upper fused e p :
  limiter_ok p → (0 < e < 2 ^ 63)%Z →
  add_tokens fused e p
  <= l_tokens p + l_burst p * (inject_Z e / inject_Z 1000000000) * (1 + eps) + eps * l_burst p.
Proof.
  intros Hok He. pose proof (burst_bounds p Hok) as (Hb1 & _ & _). destruct Hok as [Hr _ _ [Ht0 Ht1] _].
  assert (0 <= Seconds e) as Hs0 by (apply Seconds_nonneg; lia).
  assert (0 <= e < 2 ^ 63)%Z as He' by lia. pose proof (Seconds_upper e He') as Hs.
  set (D := inject_Z e / inject_Z 1000000000) in *. clearbody D.
  unfold add_tokens, ffma, fadd, fmul. rewrite Hr. set (b := l_burst p) in *. set (t := l_tokens p) in *.
  set (s := Seconds e) in *. clearbody s b t.
  rewrite ulp_val in Hs. rewrite eps_val.
  assert (0 <= s * b) as HX0 by (apply Qmult_le_0_compat; lra).
  assert (s * b <= b * D * ((1 + Qmake 1 9007199254740992) * (1 + Qmake 1 9007199254740992))) as HX.
  { rewrite <- (Qmult_assoc b), (Qmult_comm b). apply Qmult_le_compat_r; lra. }
  set (X := s * b) in *. set (A := b * D) in *. clearbody X A.
  destruct fused.
  - pose proof (rnd_upper (X + t)) as H. rewrite ulp_val in H. lra.
  - pose proof (rnd_upper X HX0) as H1. pose proof (rnd_nonneg X HX0) as H2.
    set (Y := rnd X) in *. clearbody Y. pose proof (rnd_upper (t + Y)) as H.
    rewrite ulp_val in H, H1. lra.
Qed.

Lemma Sub_pos now last : (0 < Sub now last)%Z → (Sub now last <= now - last)%Z ∧ (Sub now last < 2 ^ 63)%Z.
Proof. unfold Sub. lia. Qed.

Lemma refill_upper fused now p :
  limiter_ok p →
  l_tokens (refill fused now p)
  <= l_tokens p + l_burst p * lapse (l_last p) (l_last (refill fused now p)) * (1 + eps)
     + (if (0 <? Sub now (l_last p))%Z then eps * l_burst p else 0).
Proof.
  intros Hok. rewrite refill_last. unfold refill.
  destruct (0 <? Sub now (l_last p))%Z eqn:E; bool_props.
  - eapply Qle_trans; [apply clamp_tokens_le|]. cbn [l_tokens set_tokens].
    destruct (Sub_pos now (l_last p) E) as [H1 H2].
    assert (limiter_ok (set_last now p)) as Hok' by (destruct Hok; by constructor).
    eapply Qle_trans; [apply add_tokens_upper; [done|lia]|]. cbn [l_tokens l_burst set_last].
    assert (inject_Z (Sub now (l_last p)) / inject_Z 1000000000 <= lapse (l_last p) now) as HD.
    { unfold lapse, Qdiv. apply Qmult_le_compat_r; [|discriminate]. by rewrite <- Zle_Qle. }
    pose proof (burst_bounds p Hok) as (Hb1 & _ & _).
    assert (l_burst p * (inject_Z (Sub now (l_last p)) / inject_Z 1000000000)
            <= l_burst p * lapse (l_last p) now) as Hm.
    { rewrite !(Qmult_comm (l_burst p)). apply Qmult_le_compat_r; [done|lra]. }
    rewrite eps_val. lra.
  - unfold lapse. rewrite Z.sub_diag. change (inject_Z 0) with 0. unfold Qdiv. lra.
Qed.

(** ** Lemmas: one call *)

Lemma of_int_le_0 n : (n <= 0)%Z → of_int n <= 0.
Proof.
  intros H. apply rnd_le; [by apply (representable_Z 0)|].
  change 0 with (inject_Z 0). by rewrite <- Zle_Qle.
Qed.

Lemma setLimits_ok l p :
  limits_ok l → representable (l_tokens p) → 0 <= l_tokens p → (0 <= l_active p)%Z →
  limiter_ok (setLimits l p).
Proof.
  intros [_ Hd] Ht H0 Ha. apply clamp_ok; cbn [l_rate l_burst l_tokens l_active]; try done.
  exists (DialsPerSecond l). split; [done|]. apply of_int_exact. lia.
Qed.

Lemma newPeerLimiter_ok k l now : limits_ok l → limiter_ok (newPeerLimiter k l now).
Proof.
  intros Hl. unfold newPeerLimiter.
  assert (limiter_ok (setLimits l {| l_publicKey := k; l_maxConcurrent := 0; l_rate := 0; l_burst := 0;
    l_tokens := 0; l_last := now; l_active := 0; l_live := ∅ |})) as H.
  { apply setLimits_ok; cbn [l_tokens l_active]; [done|by apply (representable_Z 0)|apply Qle_refl|done]. }
  set (p := setLimits _ _) in *. pose proof (burst_bounds p H) as (Hb1 & _ & Hb3). destruct H as [A1 A2 A3 A4 A5].
  constructor; cbn [l_rate l_burst l_tokens l_active set_tokens]; [done|done|done|lra|done].
Qed.

Definition call_ok (c : call) : Prop := match c with SetLimits l => limits_ok l | _ => True end.
Definition keeps_limits (c : call) : Prop := match c with SetLimits _ => False | _ => True end.
(** Every rate a reload sets is at most [n]. *)
Definition limits_within (n : Z) (c : call) : Prop :=
  match c with SetLimits l => limits_ok l ∧ (DialsPerSecond l <= n)%Z | _ => True end.

Lemma do_call_ok t c : call_ok c → limiter_ok (ta_limiter t) → limiter_ok (ta_limiter (do_call t c)).
Proof.
  intros Hc Hok. destruct c as [fused now| | | |l]; cbn [do_call].
  - pose proof (acquire_ok fused now _ Hok) as H.
    destruct (acquire fused now (ta_limiter t)) as [p' [r ok]]. done.
  - cbn [ta_limiter]. unfold release. destruct (0 <? _)%Z eqn:E; [|done]. bool_props.
    destruct Hok. constructor; try done. cbn [l_active set_active]. lia.
  - by destruct Hok.
  - by destruct Hok.
  - cbn [ta_limiter]. destruct Hok as [_ _ H1 [H2 _] H3]. by apply setLimits_ok.
Qed.

Lemma lapse_refl x : lapse x x == 0.
Proof. unfold lapse. by rewrite Z.sub_diag. Qed.

Lemma refill_lapse fused now p : 0 <= lapse (l_last p) (l_last (refill fused now p)).
Proof.
  rewrite refill_last. destruct (0 <? Sub now (l_last p))%Z eqn:E; [|by rewrite lapse_refl]. bool_props.
  pose proof (Sub_pos now (l_last p) E) as [H _]. unfold lapse, Qdiv. apply Qmult_le_0_compat; [|discriminate].
  apply inject_Z_nonneg. lia.
Qed.

Lemma setLimits_upper l p n : limits_ok l → (DialsPerSecond l <= n)%Z →
  l_burst (setLimits l p) <= inject_Z n ∧ l_tokens (setLimits l p) <= l_tokens p ∧ l_last (setLimits l p) = l_last p.
Proof.
  intros [_ Hd] Hn. unfold setLimits. set (q := Build_peerLimiter _ _ _ _ _ _ _ _).
  split_and!; [|exact (clamp_tokens_le q)|by unfold clamp; destruct (flt _ _)].
  assert (l_burst (clamp q) = of_int (DialsPerSecond l)) as -> by (by unfold clamp; destruct (flt _ _)).
  rewrite of_int_exact by lia. rewrite <- Zle_Qle. lia.
Qed.

(** One call: tokens plus what it admitted, at no more than [n] a second. *)
Lemma do_call_upper n t c :
  limiter_ok (ta_limiter t) → l_burst (ta_limiter t) <= inject_Z n → limits_within n c →
  l_burst (ta_limiter (do_call t c)) <= inject_Z n ∧
  nat_Q (ta_admitted (do_call t c)) + l_tokens (ta_limiter (do_call t c))
  <= nat_Q (ta_admitted t) + l_tokens (ta_limiter t)
     + inject_Z n * lapse (l_last (ta_limiter t)) (l_last (ta_limiter (do_call t c))) * (1 + eps)
     + (nat_Q (ta_refills (do_call t c)) - nat_Q (ta_refills t)) * (eps * inject_Z n).
Proof.
  intros Hok Hn Hk. destruct t as [p m k]. cbn [ta_limiter] in *.
  destruct c as [fused now| |c|c|l]; cbn [do_call ta_limiter ta_admitted ta_refills].
  - destruct (refill_same fused now p) as (Eb & _). pose proof (refill_lapse fused now p) as Hl.
    pose proof (refill_upper fused now p Hok) as Hr. pose proof (refill_ok fused now p Hok) as Hok1.
    unfold acquire. set (p1 := refill fused now p) in *. clearbody p1.
    set (L := lapse (l_last p) (l_last p1)) in *.
    assert (0 < eps) as He by reflexivity.
    assert (l_burst p * L * (1 + eps) <= inject_Z n * L * (1 + eps)) as Hm.
    { apply Qmult_le_compat_r; [|lra]. by apply Qmult_le_compat_r. }
    assert (eps * l_burst p <= eps * inject_Z n) as Hm2.
    { rewrite !(Qmult_comm eps). apply Qmult_le_compat_r; [done|lra]. }
    assert ((if (0 <? Sub now (l_last p))%Z then eps * l_burst p else 0)
      <= (nat_Q (k + (if (0 <? Sub now (l_last p))%Z then 1 else 0)) - nat_Q k) * (eps * inject_Z n)) as Er.
    { rewrite nat_Q_bump. destruct (0 <? _)%Z; lra. }
    destruct (flt (l_tokens p1) 1) eqn:Ef; [|destruct (_ <=? _)%Z];
      cbn [ta_limiter ta_admitted ta_refills l_burst l_last l_tokens set_tokens set_active];
      (split; [by rewrite Eb|]); fold L.
    + rewrite (nat_Q_bump m false). lra.
    + apply flt_false in Ef. rewrite (spend_exact p1 Hok1 Ef), (nat_Q_bump m false). lra.
    + apply flt_false in Ef. rewrite (spend_exact p1 Hok1 Ef), (nat_Q_bump m true). lra.
  - unfold release. split; [by destruct (0 <? _)%Z|].
    destruct (0 <? _)%Z; cbn [l_tokens l_last set_active]; rewrite lapse_refl; lra.
  - split; [done|]. unfold track. cbn [l_tokens l_last set_live]. rewrite lapse_refl. lra.
  - split; [done|]. unfold untrack. cbn [l_tokens l_last set_live]. rewrite lapse_refl. lra.
  - destruct Hk as [Hl Hd]. destruct (setLimits_upper l p n Hl Hd) as (H1 & H2 & ->). split; [done|].
    rewrite lapse_refl. lra.
Qed.

Lemma lapse_add a b c : lapse a b + lapse b c == lapse a c.
Proof.
  unfold lapse. setoid_replace (inject_Z (c - a)) with (inject_Z (b - a) + inject_Z (c - b)) using relation Qeq.
  - field.
  - rewrite <- inject_Z_plus. by replace (b - a + (c - b))%Z with (c - a)%Z by lia.
Qed.

Lemma foldl_calls_ok cs t :
  limiter_ok (ta_limiter t) → Forall call_ok cs → limiter_ok (ta_limiter (foldl do_call t cs)).
Proof.
  revert t. induction cs as [|c cs IH]; intros t Hok HF; [done|].
  apply Forall_cons in HF as [Hc HF]. apply IH; [by apply do_call_ok|done].
Qed.

Lemma limits_within_ok n c : limits_within n c → call_ok c.
Proof. destruct c; [done..|]. by intros [? _]. Qed.

Lemma foldl_calls_upper n cs t :
  limiter_ok (ta_limiter t) → l_burst (ta_limiter t) <= inject_Z n → Forall (limits_within n) cs →
  let t' := foldl do_call t cs in
  nat_Q (ta_admitted t') + l_tokens (ta_limiter t')
  <= nat_Q (ta_admitted t) + l_tokens (ta_limiter t)
     + inject_Z n * lapse (l_last (ta_limiter t)) (l_last (ta_limiter t')) * (1 + eps)
     + (nat_Q (ta_refills t') - nat_Q (ta_refills t)) * (eps * inject_Z n).
Proof.
  revert t. induction cs as [|c cs IH]; intros t Hok Hb HF; cbn [foldl].
  - cbn zeta. rewrite lapse_refl. lra.
  - apply Forall_cons in HF as [Hc HF]. cbn zeta.
    destruct (do_call_upper n t c Hok Hb Hc) as [Hb1 H1].
    assert (limiter_ok (ta_limiter (do_call t c))) as Hok1
      by (apply do_call_ok; [by eapply limits_within_ok|done]).
    specialize (IH _ Hok1 Hb1 HF). cbn zeta in IH.
    set (t1 := do_call t c) in *. set (t2 := foldl do_call t1 cs) in *.
    assert (inject_Z n * lapse (l_last (ta_limiter t)) (l_last (ta_limiter t2)) * (1 + eps)
      == inject_Z n * lapse (l_last (ta_limiter t)) (l_last (ta_limiter t1)) * (1 + eps)
       + inject_Z n * lapse (l_last (ta_limiter t1)) (l_last (ta_limiter t2)) * (1 + eps)) as ->
      by (rewrite <- (lapse_add _ (l_last (ta_limiter t1))); ring).
    setoid_replace ((nat_Q (ta_refills t2) - nat_Q (ta_refills t)) * (eps * inject_Z n))
      with ((nat_Q (ta_refills t2) - nat_Q (ta_refills t1)) * (eps * inject_Z n)
            + (nat_Q (ta_refills t1) - nat_Q (ta_refills t)) * (eps * inject_Z n))
      using relation Qeq by ring.
    lra.
Qed.

(** A limiter that must deny: a cap of zero or less, or a bucket that never
    holds a whole token. *)
Definition denies (p : peerLimiter) : Prop :=
  (0 <= l_active p)%Z ∧ ((l_maxConcurrent p <= 0)%Z ∨ (l_burst p <= 0 ∧ l_tokens p <= 0)).

Lemma clamp_fields p :
  l_maxConcurrent (clamp p) = l_maxConcurrent p ∧ l_active (clamp p) = l_active p ∧ l_burst (clamp p) = l_burst p.
Proof. unfold clamp. by destruct (flt _ _). Qed.

Lemma clamp_le_burst p : l_tokens (clamp p) <= l_burst p.
Proof.
  unfold clamp. destruct (flt _ _) eqn:E; [apply Qle_refl|]. by apply flt_false in E.
Qed.

Lemma refill_denies fused now p : denies p → denies (refill fused now p).
Proof.
  intros [Ha Hd]. unfold refill. destruct (_ <? _)%Z; [|done].
  set (q := set_tokens _ (set_last now p)).
  destruct (clamp_fields q) as (E1 & E2 & E3). pose proof (clamp_le_burst q) as Hc.
  unfold denies. rewrite E1, E2, E3. cbn [l_maxConcurrent l_active l_burst set_tokens set_last] in *.
  change (l_burst q) with (l_burst p) in *. change (l_active q) with (l_active p).
  change (l_maxConcurrent q) with (l_maxConcurrent p).
  split; [done|]. destruct Hd as [Hd|[Hb Ht]]; [by left|right]. split; [done|lra].
Qed.

Lemma acquire_denies fused now p :
  denies p → snd (snd (acquire fused now p)) = false ∧ denies (fst (acquire fused now p)).
Proof.
  intros H. pose proof (refill_denies fused now p H) as [Ha Hd]. unfold acquire.
  set (p1 := refill fused now p) in *. destruct (flt (l_tokens p1) 1) eqn:Ef; [done|].
  apply flt_false in Ef. destruct Hd as [Hd|[_ Ht]]; [|exfalso; lra].
  cbn [l_maxConcurrent l_active set_tokens]. rewrite (proj2 (Z.leb_le _ _)) by lia.
  split; [done|]. split; [done|by left].
Qed.

(** ** Properties *)

(** Whatever sequence of dials, releases and limit changes a limiter goes
    through, its bucket holds between zero and its burst, the burst is the
    configured rate, the tokens stay exact float64 numbers, and the count of
    connections is never negative. *)
Theorem limiter_invariant k l now cs :
  limits_ok l → Forall call_ok cs → limiter_ok (ta_limiter (calls (newPeerLimiter k l now) cs)).
Proof. intros Hl HF. apply foldl_calls_ok; [by apply newPeerLimiter_ok|done]. Qed.

(** A dial is admitted exactly when, after the refill, a whole token is
    there and a slot is free; a dial that finds a token spends exactly one,
    even when it is then refused for concurrency; only an admitted dial takes
    a slot, and never beyond the cap. *)
Theorem acquire_exactly fused now p p' reason ok :
  limiter_ok p → acquire fused now p = (p', (reason, ok)) →
  let t := l_tokens (refill fused now p) in
  (ok = true ↔ 1 <= t ∧ (l_active p < l_maxConcurrent p)%Z)
  ∧ (1 <= t → l_tokens p' == t - 1) ∧ (t < 1 → l_tokens p' = t)
  ∧ l_active p' = (l_active p + (if ok then 1 else 0))%Z
  ∧ (ok = true → (l_active p' <= l_maxConcurrent p')%Z)
  ∧ reason = (if flt t 1 then #"dials_per_second" else if ok then [] else #"max_concurrent").
Proof.
  intros Hok H. pose proof (refill_ok fused now p Hok) as Hok1.
  destruct (refill_same fused now p) as (_ & _ & Ea & Em & _). unfold acquire in H.
  set (p1 := refill fused now p) in *. cbn zeta. destruct (flt (l_tokens p1) 1) eqn:Ef.
  - injection H as <- <- <-. apply flt_true in Ef. rewrite Ea.
    split_and!; try done; try match goal with |- _ ↔ _ => split end;
      intros; repeat match goal with H : _ ∧ _ |- _ => destruct H end;
      first [done|lia|exfalso; lra].
  - apply flt_false in Ef. cbn [l_maxConcurrent l_active set_tokens] in H. rewrite Ea, Em in H.
    pose proof (spend_exact p1 Hok1 Ef) as Es.
    destruct (l_maxConcurrent p <=? l_active p)%Z eqn:El; bool_props; injection H as <- <- <-;
      cbn [l_tokens l_active l_maxConcurrent set_tokens set_active]; rewrite ?Ea, ?Em;
      split_and!; try done; try match goal with |- _ ↔ _ => split end;
      intros; repeat match goal with H : _ ∧ _ |- _ => destruct H end;
      first [done|lia|exfalso; lra].
Qed.

(** C9: the rate a peer gets: from any state a limiter can be in ([limiter_ok]:
    what [newPeerLimiter] builds from positive limits up to 2^53 and every call
    preserves), over any sequence of calls, the [setLimits] of reloads
    included, the dials admitted are at most the tokens there were, which is
    one burst at most, plus the largest rate in force times the time that
    passed, to within a relative error of 2^-50 and 2^-50 of a burst for each
    refill.  With no time passing that is the tokens, exactly: a reload mints
    none. *)
Theorem admitted_at_most n p cs :
  limiter_ok p → l_burst p <= inject_Z n → Forall (limits_within n) cs →
  let t := calls p cs in
  l_tokens p <= l_burst p
  ∧ nat_Q (ta_admitted t)
    <= l_tokens p + inject_Z n * lapse (l_last p) (l_last (ta_limiter t)) * (1 + eps)
       + nat_Q (ta_refills t) * (eps * inject_Z n)
  ∧ (ta_refills t = 0%nat → l_last (ta_limiter t) = l_last p → nat_Q (ta_admitted t) <= l_tokens p).
Proof.
  intros Hok Hn HF. cbn zeta.
  pose proof (foldl_calls_upper n cs {| ta_limiter := p; ta_admitted := 0; ta_refills := 0 |} Hok Hn HF) as H.
  cbn zeta in H. cbn [ta_limiter ta_admitted ta_refills] in H. fold (calls p cs) in H.
  assert (Forall call_ok cs) as HF' by (eapply Forall_impl; [exact HF|apply limits_within_ok]).
  assert (limiter_ok (ta_limiter (calls p cs))) as Hok' by by apply foldl_calls_ok.
  destruct Hok' as [_ _ _ [H0 _] _]. destruct Hok as [_ _ _ [_ H1] _].
  change (nat_Q 0) with 0 in H. split_and!; [lra|lra|]. intros E1 E2. rewrite E1, E2, lapse_refl in H.
  change (nat_Q 0) with 0 in H. lra.
Qed.

(** Limits of zero or less deny: a limiter built from them never admits a
    dial, whatever the clock does. *)
Theorem nonpositive_limits_deny k l now cs :
  (MaxConcurrent l <= 0 ∨ DialsPerSecond l <= 0)%Z → Forall keeps_limits cs →
  ta_admitted (calls (newPeerLimiter k l now) cs) = 0%nat.
Proof.
  intros Hl HF. set (p := newPeerLimiter k l now).
  assert (denies p) as Hp.
  { unfold p, newPeerLimiter, setLimits. set (q := Build_peerLimiter _ _ _ _ _ _ _ _).
    destruct (clamp_fields q) as (E1 & E2 & E3).
    unfold denies. cbn [l_active l_maxConcurrent l_burst l_tokens set_tokens]. rewrite E1, E2, E3.
    split; [reflexivity|]. destruct Hl as [Hm|Hd]; [by left|right].
    split; exact (of_int_le_0 _ Hd). }
  unfold calls. assert (∀ t, denies (ta_limiter t) → ta_admitted (foldl do_call t cs) = ta_admitted t) as Hg.
  { clear -HF. induction cs as [|c cs IH]; intros t Ht; [done|]. apply Forall_cons in HF as [Hc HF].
    cbn [foldl]. rewrite IH; [|done|].
    - destruct c; try done. cbn [do_call]. destruct (acquire_denies fused now _ Ht) as [E _].
      destruct (acquire _ _ _) as [p' [r ok]]. simpl in E. subst. simpl. lia.
    - destruct c; try done; cbn [do_call].
      + destruct (acquire_denies fused now _ Ht) as [_ E]. by destruct (acquire _ _ _) as [p' [r ok]].
      + destruct Ht as [Ha Hd]. cbn [ta_limiter]. unfold release.
        destruct (0 <? _)%Z eqn:E; [|done]. bool_props. split; [cbn; lia|done]. }
  by rewrite Hg.
Qed.

(** ** A peer of two dials per second and one connection *)

Definition demo_limits : peerLimits := {| MaxConcurrent := 1; DialsPerSecond := 2 |}.
Definition demo_limiter : peerLimiter := newPeerLimiter (#"key") demo_limits 0.
Definition demo_calls : list call :=
  [Acquire false 0; Acquire true 0; Release; Acquire false 0; Acquire true 1500000000].
(** The same, with a reload that keeps the limits and one that raises them. *)
Definition demo_reloads : list call :=
  take 4 demo_calls ++ [SetLimits demo_limits; SetLimits {| MaxConcurrent := 4; DialsPerSecond := 3 |};
    Acquire true 1500000000; Acquire true 1500000000].

Lemma demo_limits_ok : limits_ok demo_limits.
Proof. unfold limits_ok. simpl. lia. Qed.
Lemma demo_limiter_ok : limiter_ok demo_limiter.
Proof. apply newPeerLimiter_ok, demo_limits_ok. Qed.

Lemma limiter_invariant_witness : limiter_ok (ta_limiter (calls demo_limiter demo_calls)).
Proof. apply limiter_invariant; [exact demo_limits_ok|]. repeat constructor. Defined.

Lemma acquire_exactly_witness :
  let '(p', (reason, ok)) := acquire false 0 demo_limiter in
  ok = true ∧ l_active p' = 1%Z ∧ l_tokens p' == 1.
Proof.
  destruct (acquire false 0 demo_limiter) as [p' [reason ok]] eqn:E.
  destruct (acquire_exactly false 0 demo_limiter p' reason ok demo_limiter_ok E) as (H1 & H2 & _ & H4 & _).
  assert (1 <= l_tokens (refill false 0 demo_limiter)) as Ht by (vm_compute; discriminate).
  assert (ok = true) as -> by (apply H1; split; [exact Ht|vm_compute; reflexivity]).
  split; [reflexivity|]. split; [exact H4|]. rewrite (H2 Ht). vm_compute. reflexivity.
Defined.

Lemma admitted_at_most_witness :
  nat_Q (ta_admitted (calls demo_limiter demo_reloads)) <= 2 + 3 * (Qmake 3 2) * (1 + eps) + eps * 3.
Proof.
  destruct (admitted_at_most 3 demo_limiter demo_reloads demo_limiter_ok) as (_ & H & _).
  - vm_compute. discriminate.
  - repeat (apply Forall_cons; split; [first [exact I|unfold limits_within, limits_ok; simpl; lia]|]). apply Forall_nil. exact I.
  - eapply Qle_trans; [exact H|]. vm_compute. discriminate.
Defined.

Lemma nonpositive_limits_deny_witness :
  ta_admitted (calls (newPeerLimiter [] {| MaxConcurrent := 0; DialsPerSecond := 5 |} 0) demo_calls) = 0%nat.
Proof. apply nonpositive_limits_deny; [left; simpl; lia|]. repeat constructor. Defined.

End Limiter.
