(* ===== verification/Server.v ===== *)
(** * The server: configuration, secrets, limiters and hot reload ([server.go])

    The state a reload touches: the name and limiter maps, the limiter
    objects they point to, the secret cache and the WireGuard device.
    Limiters live in a heap and the maps hold their addresses, because the
    code compares limiters by pointer.  Connections are in [Conn]. *)

From S2P Require Import Prelude GoStrings GoEncoding GoNetip Policy Secret Yaml Config Watcher Device Limiter.
Import Policy Secret Yaml Config Watcher Device Limiter.

Module Server.

(** ** Configuration *)

Record ServerConfig := {
  sc_ListenPort : Z; sc_PrivateKey : SecretRef; sc_TunnelIP : Addr;
  sc_MTU : Z; sc_PeersFile : gostring
}.
Definition ServerConfig_zero : ServerConfig :=
  {| sc_ListenPort := 0; sc_PrivateKey := []; sc_TunnelIP := AddrNone; sc_MTU := 0; sc_PeersFile := [] |}.

Definition ServerConfigFrom (fc : option ServerFileConfig) : ServerConfig :=
  match fc with
  | None => ServerConfig_zero
  | Some fc =>
      {| sc_ListenPort := sf_ListenPort fc; sc_PrivateKey := sf_PrivateKey fc;
         sc_TunnelIP := sf_TunnelIP fc; sc_MTU := sf_MTU fc; sc_PeersFile := sf_PeersFile fc |}
  end.

Section new_server.
Context {RO : GoRange}.

(** [NewServer]: the configuration a server is made with. *)
Definition NewServer (ReadFile : readFile) (yaml : gostring → yaml_stream peersYAML)
    (cfg : ServerConfig) : result ServerConfig :=
  let fail msg := Err (errors_New (#"gocloak: server: " ++ msg)) in
  if (sc_ListenPort cfg <? 1)%Z || (65535 <? sc_ListenPort cfg)%Z then
    fail (#"listen port " ++ itoa (sc_ListenPort cfg) ++ #" is not in 1-65535")
  else
  let? _ := check (#"gocloak: server: private key: ") (validSecretRef (sc_PrivateKey cfg)) in
  if negb (IsValid (sc_TunnelIP cfg)) then fail (#"tunnel ip is required")
  else if bool_decide (Unmap (sc_TunnelIP cfg) ≠ serverTunnelIP) then
    fail (#"tunnel ip must be " ++ Addr_String serverTunnelIP ++ #" (spec section 3.2)")
  else
  let mtu := if (sc_MTU cfg =? 0)%Z then DefaultMTU else sc_MTU cfg in
  if (mtu <? minMTU)%Z || (maxMTU <? mtu)%Z then
    fail (#"mtu " ++ itoa mtu ++ #" is not in " ++ itoa minMTU ++ #"-" ++ itoa maxMTU)
  else if bool_decide (sc_PeersFile cfg = []) then fail (#"peers file is required")
  else
  let? _ := LoadPeersConfig ReadFile yaml (sc_PeersFile cfg) in
  Ok {| sc_ListenPort := sc_ListenPort cfg; sc_PrivateKey := sc_PrivateKey cfg;
        sc_TunnelIP := Unmap (sc_TunnelIP cfg); sc_MTU := mtu; sc_PeersFile := sc_PeersFile cfg |}.

End new_server.

(** ** Secrets *)

Abbreviation secretCache := (gmap gostring secret).

(** Where references resolve: the operating system and the caller's
    resolver. *)
Record secretStore := { ss_os : osEnv; ss_external : SecretResolver }.

Definition resolveSecret (st : secretStore) (ref : SecretRef) (cache : secretCache)
    : result secret * secretCache :=
  match cache !! ref with
  | Some sec => (Ok sec, cache)
  | None =>
      match Secret.Resolve (ss_os st) (ss_external st) ref with
      | Err e => (Err (scrubRef e ref), cache)
      | Ok sec => (Ok sec, <[ref := sec]> cache)
      end
  end.

Definition pruneSecretCache (privateKey : SecretRef) (peers : list peerConfig) (cache : secretCache)
    : secretCache :=
  let inUse := foldl (λ s p, {[pr_PSK p]} ∪ s) ({[privateKey]} : gset gostring) peers in
  filter (λ e, fst e ∈ inUse) cache.

(** ** Names and limiters *)

(** The maps a connection reads under [mu], and the limiter objects. *)
Record registry := {
  rg_names : gmap Addr gostring;
  rg_limiters : gmap Addr nat;
  rg_heap : gmap nat peerLimiter
}.
Definition empty_registry : registry := {| rg_names := ∅; rg_limiters := ∅; rg_heap := ∅ |}.

Definition unknownPeerName : gostring := #"unknown".
Definition peerName (ip : Addr) (rg : registry) : gostring :=
  match rg_names rg !! Unmap ip with Some name => name | None => unknownPeerName end.
Definition limiterFor (ip : Addr) (rg : registry) : option nat := rg_limiters rg !! Unmap ip.

(** The pointer of a new object. *)
Definition alloc (heap : gmap nat peerLimiter) : nat := fresh (map_to_list heap).*1.

(** One turn of the loop of [refreshPeers], at instant [now]; [old] is
    [s.limiters], which the loop only reads. *)
Definition refresh_peer (now : Z) (old : gmap Addr nat) (rg : registry) (p : peerConfig) : registry :=
  let ip := Unmap (pr_TunnelIP p) in
  let names := <[ip := pr_Name p]> (rg_names rg) in
  let fresh_limiter :=
    let l := alloc (rg_heap rg) in
    {| rg_names := names; rg_limiters := <[ip := l]> (rg_limiters rg);
       rg_heap := <[l := newPeerLimiter (pr_PublicKey p) (pr_Limits p) now]> (rg_heap rg) |} in
  match old !! ip with
  | Some l =>
      match rg_heap rg !! l with
      | Some lim =>
          if bool_decide (l_publicKey lim = pr_PublicKey p) then
            {| rg_names := names; rg_limiters := <[ip := l]> (rg_limiters rg);
               rg_heap := <[l := setLimits (pr_Limits p) lim]> (rg_heap rg) |}
          else fresh_limiter
      | None => fresh_limiter
      end
  | None => fresh_limiter
  end.

Section reload.
Context {RO : GoRange}.

(** The critical section of [refreshPeers]: the new maps, and the limiters
    to close once the lock is released. *)
Definition refresh_maps (now : Z) (peers : list peerConfig) (rg : registry) : registry * list nat :=
  let rg' := foldl (refresh_peer now (rg_limiters rg))
               {| rg_names := ∅; rg_limiters := ∅; rg_heap := rg_heap rg |} peers in
  let kept : gset nat := list_to_set (snd <$> go_range (rg_limiters rg')) in
  let gone := List.filter (λ l, negb (bool_decide (l ∈ kept))) (snd <$> go_range (rg_limiters rg)) in
  (rg', gone).

(** [l.closeLive()] on a limiter of the heap; the connections it closes. *)
Definition close_limiter (l : nat) (rg : registry) : registry * list nat :=
  match rg_heap rg !! l with
  | Some lim =>
      let '(lim', conns) := closeLive lim in
      ({| rg_names := rg_names rg; rg_limiters := rg_limiters rg;
          rg_heap := <[l := lim']> (rg_heap rg) |}, conns)
  | None => (rg, [])
  end.
Fixpoint close_limiters (ls : list nat) (rg : registry) : registry * list nat :=
  match ls with
  | [] => (rg, [])
  | l :: ls' =>
      let '(rg1, c1) := close_limiter l rg in
      let '(rg2, c2) := close_limiters ls' rg1 in (rg2, c1 ++ c2)
  end.

Definition refreshPeers (now : Z) (cfg : PeersConfig) (rg : registry) : registry * list nat :=
  let '(rg', gone) := refresh_maps now (pc_peers cfg) rg in close_limiters gone rg'.

(** [closeLiveConns] at shutdown. *)
Definition closeLiveConns (rg : registry) : registry * list nat :=
  close_limiters (snd <$> go_range (rg_limiters rg)) rg.

End reload.

(** ** The device *)

Section device_sync.
Context {WG : WireGuard} (st : secretStore).

(** The device and the secret cache. *)
Abbreviation devcache := (wg * secretCache)%type.

Definition applyPeer (p : peerConfig) (updateOnly : bool) (s : devcache) : option error * devcache :=
  let '(d, cache) := s in
  match resolveSecret st (pr_PSK p) cache with
  | (Err e, cache') =>
      (Some (wrapf (#"gocloak: server: peer " ++ pr_Name p ++ #": psk: ") e), (d, cache'))
  | (Ok psk, cache') =>
      let dp := {| dp_PublicKey := pr_PublicKey p; dp_PresharedKey := psk;
                   dp_AllowedIP := pr_TunnelIP p; dp_Endpoint := AddrPort_zero |} in
      match (if updateOnly then UpdatePeer dp d else AddPeer dp d) with
      | (Some e, d') => (Some (wrapf (#"gocloak: server: peer " ++ pr_Name p ++ #": ") e), (d', cache'))
      | (None, d') => (None, (d', cache'))
      end
  end.

(** A loop that collects every step's error. *)
Fixpoint each_peer (step : peerConfig → devcache → option error * devcache)
    (ps : list peerConfig) (s : devcache) : list error * devcache :=
  match ps with
  | [] => ([], s)
  | p :: ps' =>
      let '(e, s1) := step p s in
      let '(es, s2) := each_peer step ps' s1 in
      (option_list e ++ es, s2)
  end.

Definition revoke_step (p : peerConfig) (s : devcache) : option error * devcache :=
  let '(e, d') := RemovePeer (pr_PublicKey p) (fst s) in
  (wrapf (#"revoke peer " ++ pr_Name p ++ #": ") <$> e, (d', snd s)).

(** [errors.Join] *)
Definition errors_Join (es : list error) : option error :=
  match es with
  | [] => None
  | _ => Some (mkError (Join (e_msg <$> es) [nl]) (concat (e_chain <$> es)))
  end.

(** [applyDiff]; [None] for the device is one that does not exist yet. *)
Definition applyDiff (diff : peerDiff) (dev : option wg) (cache : secretCache)
    : option error * option wg * secretCache :=
  match dev with
  | None => (Some (errors_New (#"gocloak: server: reload arrived before the device existed")), None, cache)
  | Some d =>
      let '(es1, s1) := each_peer revoke_step (Removed diff) (d, cache) in
      let '(es2, s2) := each_peer (λ p, applyPeer p false) (Added diff) s1 in
      let '(es3, (d', cache')) := each_peer (λ p, applyPeer p true) (Changed diff) s2 in
      (errors_Join (es1 ++ es2 ++ es3), Some d', cache')
  end.

(** The initial peers, at startup: the first failure stops it. *)
Fixpoint apply_initial (ps : list peerConfig) (s : devcache) : option error * devcache :=
  match ps with
  | [] => (None, s)
  | p :: ps' =>
      match applyPeer p false s with
      | (Some e, s') => (Some e, s')
      | (None, s') => apply_initial ps' s'
      end
  end.

(** ** A reload *)

Record server := {
  sv_cfg : ServerConfig;
  sv_registry : registry;
  sv_cache : secretCache;
  sv_dev : option wg
}.

Context {RO : GoRange}.

(** [handleReload] with the watcher's configuration in force; the second
    component is what is passed to [notifyReload] and the connections
    closed. *)
Definition handleReload (now : Z) (cfg : PeersConfig) (r : reloadResult) (s : server)
    : server * (option error * list nat) :=
  match rr_Err r with
  | Some _ => (s, (None, []))
  | None =>
      let '(rg, closed) := refreshPeers now cfg (sv_registry s) in
      let '(applyErr, dev, cache) := applyDiff (rr_Diff r) (sv_dev s) (sv_cache s) in
      let cache' := pruneSecretCache (sc_PrivateKey (sv_cfg s)) (pc_peers cfg) cache in
      ({| sv_cfg := sv_cfg s; sv_registry := rg; sv_cache := cache'; sv_dev := dev |},
       (applyErr, closed))
  end.

End device_sync.
(** ** Lemmas: rebuilding the maps *)

Definition tip (p : peerConfig) : Addr := Unmap (pr_TunnelIP p).
Abbreviation addrs_distinct ps := (NoDup (tip <$> ps)).

(** No two addresses share a limiter, and every limiter is an object. *)
Record registry_ok (rg : registry) : Prop := {
  rk_inj : ∀ a b l, rg_limiters rg !! a = Some l → rg_limiters rg !! b = Some l → a = b;
  rk_heap : ∀ a l, rg_limiters rg !! a = Some l → is_Some (rg_heap rg !! l)
}.

(** The limiter a peer keeps: the one at its address, when it is its own. *)
Definition survives (rg : registry) (p : peerConfig) : option (nat * peerLimiter) :=
  l ← rg_limiters rg !! tip p;
  lim ← rg_heap rg !! l;
  if bool_decide (l_publicKey lim = pr_PublicKey p) then Some (l, lim) else None.

Record refreshed (rg0 : registry) (now : Z) (ps : list peerConfig) (rg : registry) : Prop := {
  rf_dom : ∀ ip, is_Some (rg_limiters rg !! ip) ↔ ip ∈ tip <$> ps;
  rf_names : ∀ p, p ∈ ps → rg_names rg !! tip p = Some (pr_Name p);
  rf_names_dom : ∀ ip, is_Some (rg_names rg !! ip) ↔ ip ∈ tip <$> ps;
  rf_kept : ∀ p l lim, p ∈ ps → survives rg0 p = Some (l, lim) →
    rg_limiters rg !! tip p = Some l ∧ rg_heap rg !! l = Some (setLimits (pr_Limits p) lim);
  rf_new : ∀ p, p ∈ ps → survives rg0 p = None → ∃ l,
    rg_limiters rg !! tip p = Some l ∧ rg_heap rg0 !! l = None
    ∧ rg_heap rg !! l = Some (newPeerLimiter (pr_PublicKey p) (pr_Limits p) now);
  rf_frame : ∀ l lim, rg_heap rg0 !! l = Some lim → (∀ ip, rg_limiters rg !! ip ≠ Some l) →
    rg_heap rg !! l = Some lim;
  rf_dom_heap : ∀ l, is_Some (rg_heap rg0 !! l) → is_Some (rg_heap rg !! l);
  rf_created : ∀ l, is_Some (rg_heap rg !! l) → rg_heap rg0 !! l = None →
    ∃ ip, rg_limiters rg !! ip = Some l;
  rf_ok : registry_ok rg
}.

Lemma alloc_fresh (heap : gmap nat peerLimiter) : heap !! alloc heap = None.
Proof.
  apply eq_None_not_Some. intros [lim H%elem_of_map_to_list].
  apply (infinite_is_fresh (map_to_list heap).*1). by apply (list_elem_of_fmap_2 fst) in H.
Qed.

(** A limiter of [rg0] that a later turn of the loop may still claim. *)
Lemma refreshed_old_free rg0 now ps rg ip l :
  registry_ok rg0 → refreshed rg0 now ps rg → ip ∉ tip <$> ps →
  rg_limiters rg0 !! ip = Some l → ∀ ip', rg_limiters rg !! ip' ≠ Some l.
Proof.
  intros Hok [Rd _ _ Rk Rn _ _ _ _] Hip Hl ip' Hl'.
  assert (ip' ∈ tip <$> ps) as (p & -> & Hp)%list_elem_of_fmap by by apply Rd.
  destruct (survives rg0 p) as [[l0 lim]|] eqn:Es.
  - destruct (Rk p l0 lim Hp Es) as [E _]. assert (l0 = l) as -> by congruence.
    unfold survives in Es. destruct (rg_limiters rg0 !! tip p) as [l1|] eqn:E1; [|done]. simpl in Es.
    destruct (rg_heap rg0 !! l1); [|done]. simpl in Es. case_bool_decide; [|done]. simplify_eq.
    assert (ip = tip p) as -> by by eapply Hok. by apply Hip, list_elem_of_fmap_2.
  - destruct (Rn p Hp Es) as (l1 & E1 & E2 & _). assert (l1 = l) as -> by congruence.
    destruct (rk_heap _ Hok _ _ Hl) as [? ?]. congruence.
Qed.

Lemma refreshed_nil rg0 now :
  refreshed rg0 now [] {| rg_names := ∅; rg_limiters := ∅; rg_heap := rg_heap rg0 |}.
Proof.
  constructor; simpl; try set_solver.
  - intros ip. rewrite lookup_empty. split; [by intros []|set_solver].
  - intros ip. rewrite lookup_empty. split; [by intros []|set_solver].
  - intros l [lim E] H. congruence.
  - constructor; simpl; intros; by rewrite lookup_empty in *.
Qed.

Lemma survives_unfold rg0 now old ps rg p :
  old = rg_limiters rg0 → registry_ok rg0 → refreshed rg0 now ps rg → tip p ∉ tip <$> ps →
  refresh_peer now old rg p =
  match survives rg0 p with
  | Some (l, lim) =>
      {| rg_names := <[tip p := pr_Name p]> (rg_names rg);
         rg_limiters := <[tip p := l]> (rg_limiters rg);
         rg_heap := <[l := setLimits (pr_Limits p) lim]> (rg_heap rg) |}
  | None =>
      {| rg_names := <[tip p := pr_Name p]> (rg_names rg);
         rg_limiters := <[tip p := alloc (rg_heap rg)]> (rg_limiters rg);
         rg_heap := <[alloc (rg_heap rg) := newPeerLimiter (pr_PublicKey p) (pr_Limits p) now]> (rg_heap rg) |}
  end.
Proof.
  intros -> Hok Hrf Hip. unfold refresh_peer, survives. fold (tip p).
  destruct (rg_limiters rg0 !! tip p) as [l|] eqn:El; [|done]. simpl.
  destruct (rk_heap _ Hok _ _ El) as [lim Hl].
  rewrite (rf_frame _ _ _ _ Hrf l lim Hl) by by eapply refreshed_old_free.
  rewrite Hl. simpl. by case_bool_decide.
Qed.

Lemma survives_Some rg p l lim :
  survives rg p = Some (l, lim) →
  rg_limiters rg !! tip p = Some l ∧ rg_heap rg !! l = Some lim ∧ l_publicKey lim = pr_PublicKey p.
Proof.
  unfold survives. destruct (rg_limiters rg !! tip p) as [l1|]; [|done]. simpl.
  destruct (rg_heap rg !! l1) as [lim1|] eqn:E; [|done]. simpl. case_bool_decide; naive_solver.
Qed.

Lemma tip_elem p q (ps : list peerConfig) : q ∈ ps → tip p ∉ tip <$> ps → tip q ≠ tip p.
Proof. intros Hq Hp E. apply Hp. rewrite <- E. by apply list_elem_of_fmap_2. Qed.

Lemma lookup_insert_dom {A} (m : gmap Addr A) p (ps : list peerConfig) x :
  (∀ ip, is_Some (m !! ip) ↔ ip ∈ tip <$> ps) →
  ∀ ip, is_Some (<[tip p := x]> m !! ip) ↔ ip ∈ tip <$> ps ++ [p].
Proof.
  intros H ip. rewrite lookup_insert_is_Some', H, fmap_app, elem_of_app.
  change (tip <$> [p]) with [tip p]. rewrite list_elem_of_singleton. split; intros [?|?]; auto.
Qed.

Lemma refreshed_snoc rg0 now ps rg p l lim' :
  refreshed rg0 now ps rg → tip p ∉ tip <$> ps → (∀ ip, rg_limiters rg !! ip ≠ Some l) →
  (∀ l0 lim0, survives rg0 p = Some (l0, lim0) → l0 = l ∧ lim' = setLimits (pr_Limits p) lim0) →
  (survives rg0 p = None → rg_heap rg0 !! l = None
     ∧ lim' = newPeerLimiter (pr_PublicKey p) (pr_Limits p) now) →
  refreshed rg0 now (ps ++ [p])
    {| rg_names := <[tip p := pr_Name p]> (rg_names rg);
       rg_limiters := <[tip p := l]> (rg_limiters rg);
       rg_heap := <[l := lim']> (rg_heap rg) |}.
Proof.
  intros [Rd Rna Rnd Rk Rn Rf Rh Rc [Ri Rhp]] Hip Hfree Hsome Hnone.
  constructor; cbn [rg_names rg_limiters rg_heap].
  - by apply lookup_insert_dom.
  - intros q [Hq|Hq]%elem_of_app.
    + rewrite lookup_insert_ne by (apply not_eq_sym; by eapply tip_elem). by apply Rna.
    + apply list_elem_of_singleton in Hq as ->. by rewrite lookup_insert_eq.
  - by apply lookup_insert_dom.
  - intros q l0 lim0 [Hq|Hq]%elem_of_app Hs.
    + destruct (Rk q l0 lim0 Hq Hs) as [E1 E2].
      rewrite !lookup_insert_ne; [done|by intros ->; eapply Hfree|apply not_eq_sym; by eapply tip_elem].
    + apply list_elem_of_singleton in Hq as ->. destruct (Hsome _ _ Hs) as [-> ->].
      by rewrite !lookup_insert_eq.
  - intros q [Hq|Hq]%elem_of_app Hs.
    + destruct (Rn q Hq Hs) as (l0 & E1 & E2 & E3). exists l0.
      rewrite !lookup_insert_ne; [done|by intros ->; eapply Hfree|apply not_eq_sym; by eapply tip_elem].
    + apply list_elem_of_singleton in Hq as ->. destruct (Hnone Hs) as [E ->].
      exists l. by rewrite !lookup_insert_eq.
  - intros l0 lim0 Hl0 Hfree0. destruct (decide (l0 = l)) as [->|Hne].
    { exfalso. apply (Hfree0 (tip p)). by rewrite lookup_insert_eq. }
    rewrite lookup_insert_ne by done. apply Rf; [done|]. intros ip Hl.
    destruct (decide (ip = tip p)) as [->|Hi].
    + apply Hip, Rd. by eexists.
    + apply (Hfree0 ip). by rewrite lookup_insert_ne.
  - intros l0 Hl0. apply lookup_insert_is_Some'. right. by apply Rh.
  - intros l0 Hl0 H0. destruct (decide (l0 = l)) as [->|Hne].
    { exists (tip p). by rewrite lookup_insert_eq. }
    rewrite lookup_insert_ne in Hl0 by done. destruct (Rc l0 Hl0 H0) as [ip E]. exists ip.
    rewrite lookup_insert_ne; [done|]. intros <-. apply Hip, Rd. by eexists.
  - constructor; cbn [rg_limiters rg_heap].
    + intros a b l0 [[<- <-]|[Ha Hl]]%lookup_insert_Some [[<- ?]|[Hb Hl']]%lookup_insert_Some; subst; try done.
      * by destruct (Hfree b).
      * by destruct (Hfree a).
      * by eapply Ri.
    + intros a l0 [[<- <-]|[Ha Hl]]%lookup_insert_Some; apply lookup_insert_is_Some'; [by left|right].
      by eapply Rhp.
Qed.

Lemma refresh_fold rg0 now ps :
  registry_ok rg0 → addrs_distinct ps →
  refreshed rg0 now ps
    (foldl (refresh_peer now (rg_limiters rg0))
       {| rg_names := ∅; rg_limiters := ∅; rg_heap := rg_heap rg0 |} ps).
Proof.
  intros Hok. induction ps as [|p ps IH] using rev_ind; intros Hnd; [apply refreshed_nil|].
  rewrite fmap_app in Hnd. apply NoDup_app in Hnd as (Hnd & Hd & _).
  assert (tip p ∉ tip <$> ps) as Hip by (intros H; apply (Hd _ H); by left).
  specialize (IH Hnd). rewrite foldl_snoc. set (rg := foldl _ _ ps) in *.
  rewrite (survives_unfold rg0 now (rg_limiters rg0) ps) by done.
  destruct (survives rg0 p) as [[l lim]|] eqn:Es.
  - apply refreshed_snoc; [done|done| | |by rewrite Es].
    + destruct (survives_Some _ _ _ _ Es) as (El & _ & _). by eapply refreshed_old_free.
    + intros l0 lim0 E. by rewrite Es in E; simplify_eq.
  - pose proof (alloc_fresh (rg_heap rg)) as Hf. set (l := alloc (rg_heap rg)) in *.
    apply refreshed_snoc; [done|done| |by rewrite Es|].
    + intros ip Hl. destruct (rk_heap _ (rf_ok _ _ _ _ IH) _ _ Hl) as [? ?]. congruence.
    + intros _. split; [|done]. apply eq_None_not_Some. intros H%(rf_dom_heap _ _ _ _ IH).
      rewrite Hf in H. by destruct H.
Qed.

Section reload_facts.
Context {RO : GoRange}.

Lemma elem_of_range_values {V} (m : gmap Addr V) l :
  l ∈ (snd <$> go_range m) ↔ ∃ ip, m !! ip = Some l.
Proof.
  rewrite list_elem_of_fmap. split.
  - intros ([ip x] & -> & H%elem_of_go_range). by exists ip.
  - intros [ip H]. exists (ip, l). split; [done|]. by apply elem_of_go_range.
Qed.

Lemma elem_of_gone now peers rg rg' gone l :
  refresh_maps now peers rg = (rg', gone) →
  l ∈ gone ↔ (∃ ip, rg_limiters rg !! ip = Some l) ∧ ∀ ip, rg_limiters rg' !! ip ≠ Some l.
Proof.
  unfold refresh_maps. intros [= <- <-].
  rewrite elem_of_list_filter_b, elem_of_range_values, negb_true_iff, bool_decide_eq_false.
  rewrite elem_of_list_to_set, elem_of_range_values. naive_solver.
Qed.

(** Closing a set of limiters clears their live sets and returns them. *)
Lemma close_limiters_spec ls rg rg' closed :
  close_limiters ls rg = (rg', closed) →
  rg_names rg' = rg_names rg ∧ rg_limiters rg' = rg_limiters rg
  ∧ (∀ l, rg_heap rg' !! l = (if decide (l ∈ ls) then set_live ∅ else id) <$> rg_heap rg !! l)
  ∧ ∀ c, c ∈ closed ↔ ∃ l lim, l ∈ ls ∧ rg_heap rg !! l = Some lim ∧ c ∈ l_live lim.
Proof.
  revert rg rg' closed. induction ls as [|l ls IH]; intros rg rg' closed H; cbn [close_limiters] in H.
  { injection H as <- <-. split_and!; [done|done| |set_solver]. intros l. destruct (decide _); [set_solver|].
    by destruct (rg_heap rg !! l). }
  destruct (close_limiter l rg) as [rg1 c1] eqn:E1. destruct (close_limiters ls rg1) as [rg2 c2] eqn:E2.
  injection H as <- <-. apply IH in E2 as (N & L & Hh & Hc). unfold close_limiter, closeLive in E1.
  destruct (rg_heap rg !! l) as [lim|] eqn:El; simplify_eq; simpl in *.
  - split_and!; [done|done| |].
    + intros l0. rewrite Hh. destruct (decide (l0 = l)) as [->|Hne].
      * rewrite lookup_insert_eq, El. rewrite (decide_True (P := l ∈ l :: ls)) by by left.
        by destruct (decide (l ∈ ls)).
      * rewrite lookup_insert_ne by done.
        destruct (decide (l0 ∈ ls)), (decide (l0 ∈ l :: ls)); set_solver.
    + intros c. rewrite elem_of_app, Hc, elem_of_elements. split.
      * intros [Hin|(l0 & lim0 & Hl0 & Hh0 & Hin)]; [exists l, lim; set_solver|].
        destruct (decide (l0 = l)) as [->|Hne].
        { rewrite lookup_insert_eq in Hh0. simplify_eq. set_solver. }
        rewrite lookup_insert_ne in Hh0 by done. exists l0, lim0. set_solver.
      * intros (l0 & lim0 & [->|Hl0]%elem_of_cons & Hh0 & Hin); [left; congruence|].
        destruct (decide (l0 = l)) as [->|Hne]; [left; congruence|right].
        exists l0, lim0. by rewrite lookup_insert_ne.
  - split_and!; [done|done| |].
    + intros l0. rewrite Hh. destruct (decide (l0 = l)) as [->|Hne]; [by rewrite El|].
      destruct (decide (l0 ∈ ls)), (decide (l0 ∈ l :: ls)); set_solver.
    + intros c. rewrite Hc. split; [set_solver|].
      intros (l0 & lim0 & [->|Hl0]%elem_of_cons & Hh0 & Hin); [congruence|]. set_solver.
Qed.

(** A limiter stays in force exactly for the peer it belongs to. *)
Lemma refreshed_in_force now ps rg rg' ip l lim :
  registry_ok rg → refreshed rg now ps rg' → addrs_distinct ps →
  rg_limiters rg !! ip = Some l → rg_heap rg !! l = Some lim →
  (∃ ip', rg_limiters rg' !! ip' = Some l) ↔
  ∃ p, p ∈ ps ∧ tip p = ip ∧ pr_PublicKey p = l_publicKey lim.
Proof.
  intros Hok Hrf Hnd Hl Hh. split.
  - intros [ip' Hl']. assert (ip' ∈ tip <$> ps) as (p & -> & Hp)%list_elem_of_fmap
      by (apply (rf_dom _ _ _ _ Hrf); by eexists).
    destruct (survives rg p) as [[l0 lim0]|] eqn:Es.
    + destruct (rf_kept _ _ _ _ Hrf p l0 lim0 Hp Es) as [E _]. assert (l0 = l) as -> by congruence.
      apply survives_Some in Es as (E1 & E2 & E3). exists p.
      split_and!; [done|by eapply (rk_inj _ Hok)|congruence].
    + destruct (rf_new _ _ _ _ Hrf p Hp Es) as (l0 & E1 & E2 & _). congruence.
  - intros (p & Hp & <- & Hk). exists (tip p).
    apply (rf_kept _ _ _ _ Hrf p l lim Hp). unfold survives. rewrite Hl. simpl. rewrite Hh. simpl.
    by rewrite bool_decide_true by by symmetry.
Qed.

(** What the rebuilding does to the objects: only limits change, and a new
    object is a fresh limiter. *)
Lemma refreshed_heap now ps rg rg' l lim :
  refreshed rg now ps rg' → rg_heap rg !! l = Some lim →
  ∃ lim', rg_heap rg' !! l = Some lim' ∧ (lim' = lim ∨ ∃ lims, lim' = setLimits lims lim).
Proof.
  intros Hrf Hl. destruct (decide (l ∈ (snd <$> go_range (rg_limiters rg')))) as [Hin|Hout].
  - apply elem_of_range_values in Hin as [ip E].
    assert (ip ∈ tip <$> ps) as (p & -> & Hp)%list_elem_of_fmap
      by (apply (rf_dom _ _ _ _ Hrf); by eexists).
    destruct (survives rg p) as [[l0 lim0]|] eqn:Es.
    + destruct (rf_kept _ _ _ _ Hrf p l0 lim0 Hp Es) as [E1 E2].
      apply survives_Some in Es as (_ & E3 & _). assert (l0 = l) as -> by congruence.
      assert (lim0 = lim) as -> by congruence. eexists. split; [done|]. right. by eexists.
    + destruct (rf_new _ _ _ _ Hrf p Hp Es) as (l0 & E1 & E2 & _). congruence.
  - exists lim. split; [|by left]. apply (rf_frame _ _ _ _ Hrf); [done|].
    intros ip E. apply Hout, elem_of_range_values. by exists ip.
Qed.

Lemma refreshed_heap_new now ps rg rg' l lim' :
  refreshed rg now ps rg' → rg_heap rg' !! l = Some lim' → rg_heap rg !! l = None →
  ∃ p, p ∈ ps ∧ rg_limiters rg' !! tip p = Some l
    ∧ lim' = newPeerLimiter (pr_PublicKey p) (pr_Limits p) now.
Proof.
  intros Hrf Hl' Hl. destruct (rf_created _ _ _ _ Hrf l) as [ip E]; [by eexists|done|].
  assert (ip ∈ tip <$> ps) as (p & -> & Hp)%list_elem_of_fmap
    by (apply (rf_dom _ _ _ _ Hrf); by eexists).
  destruct (survives rg p) as [[l0 lim0]|] eqn:Es.
  - destruct (rf_kept _ _ _ _ Hrf p l0 lim0 Hp Es) as [E1 _].
    apply survives_Some in Es as (_ & E3 & _). congruence.
  - destruct (rf_new _ _ _ _ Hrf p Hp Es) as (l0 & E1 & _ & E3). exists p. split_and!; [done|done|congruence].
Qed.

Lemma refresh_maps_refreshed now peers rg rg' gone :
  registry_ok rg → addrs_distinct peers → refresh_maps now peers rg = (rg', gone) →
  refreshed rg now peers rg'.
Proof. unfold refresh_maps. intros Hok Hnd [= <- _]. by apply refresh_fold. Qed.

(** What [refreshPeers] leaves. *)
Lemma refreshPeers_spec now cfg rg rg' closed :
  registry_ok rg → addrs_distinct (pc_peers cfg) → refreshPeers now cfg rg = (rg', closed) →
  registry_ok rg'
  ∧ (∀ p, p ∈ pc_peers cfg → peerName (pr_TunnelIP p) rg' = pr_Name p
       ∧ ∃ l lim, limiterFor (pr_TunnelIP p) rg' = Some l ∧ rg_heap rg' !! l = Some lim
         ∧ l_publicKey lim = pr_PublicKey p
         ∧ match survives rg p with
           | Some (l0, lim0) => l = l0 ∧ lim = setLimits (pr_Limits p) lim0
           | None => rg_heap rg !! l = None ∧ lim = newPeerLimiter (pr_PublicKey p) (pr_Limits p) now
           end)
  ∧ (∀ ip, is_Some (rg_limiters rg' !! ip) ↔ ip ∈ tip <$> pc_peers cfg)
  ∧ ∀ c, c ∈ closed ↔ ∃ ip l lim, rg_limiters rg !! ip = Some l ∧ rg_heap rg !! l = Some lim
       ∧ c ∈ l_live lim ∧ ∀ p, p ∈ pc_peers cfg → tip p = ip → pr_PublicKey p ≠ l_publicKey lim.
Proof.
  intros Hok Hnd H. unfold refreshPeers in H.
  destruct (refresh_maps now (pc_peers cfg) rg) as [rg1 gone] eqn:Em.
  pose proof (refresh_maps_refreshed _ _ _ _ _ Hok Hnd Em) as Hrf.
  pose proof (λ l, elem_of_gone _ _ _ _ _ l Em) as Hg.
  apply close_limiters_spec in H as (N & L & Hh & Hc). pose proof Hrf as [Rd Rna Rnd Rk Rn Rf Rh _ [Ri Rhp]].
  assert (∀ ip l, rg_limiters rg1 !! ip = Some l → rg_heap rg' !! l = rg_heap rg1 !! l) as Hsame.
  { intros ip l Hl. rewrite Hh. rewrite decide_False; [by destruct (rg_heap rg1 !! l)|].
    intros [_ Hn]%Hg. by eapply Hn. }
  split_and!.
  - constructor; rewrite L; [done|]. intros a l Hl. rewrite (Hsame _ _ Hl). by eapply Rhp.
  - intros p Hp. unfold peerName, limiterFor. fold (tip p). rewrite N, L, (Rna p Hp). split; [done|].
    destruct (survives rg p) as [[l0 lim0]|] eqn:Es.
    + destruct (Rk p l0 lim0 Hp Es) as [E1 E2]. exists l0, (setLimits (pr_Limits p) lim0).
      rewrite (Hsame _ _ E1). apply survives_Some in Es as (_ & _ & Ek).
      split_and!; [done|done| |done|done].
      rewrite <- Ek. unfold setLimits, clamp. by destruct (GoFloat.flt _ _).
    + destruct (Rn p Hp Es) as (l & E1 & E2 & E3). eexists l, _. rewrite (Hsame _ _ E1).
      split_and!; [done|done| |done|done]. unfold newPeerLimiter, setLimits, clamp.
      by destruct (GoFloat.flt _ _).
  - intros ip. rewrite L. apply Rd.
  - intros c. rewrite Hc. split.
    + intros (l & lim & [[ip Hl] Hn]%Hg & Hh1 & Hin). exists ip, l.
      destruct (rk_heap _ Hok _ _ Hl) as [lim0 Hl0]. rewrite (Rf l lim0 Hl0 Hn) in Hh1. simplify_eq.
      exists lim. split_and!; [done|done|done|]. intros p Hp Ht Hk.
      destruct (proj2 (refreshed_in_force _ _ _ _ _ _ _ Hok Hrf Hnd Hl Hl0)) as [ip' E]; [by exists p|].
      by eapply Hn.
    + intros (ip & l & lim & Hl & Hl0 & Hin & Hno).
      assert (∀ ip', rg_limiters rg1 !! ip' ≠ Some l) as Hn.
      { intros ip' E. assert (∃ ip', rg_limiters rg1 !! ip' = Some l) as Hex by eauto.
        apply (refreshed_in_force _ _ _ _ _ _ _ Hok Hrf Hnd Hl Hl0) in Hex as (p & Hp & Ht & Hk).
        by eapply Hno. }
      exists l, lim. split_and!; [apply Hg; eauto|by apply Rf|done].
Qed.

Lemma registry_ok_empty : registry_ok empty_registry.
Proof. constructor; simpl; intros; by rewrite lookup_empty in *. Qed.

(** C10: after a reload every listed peer has, at its address, its name and a
    limiter that is its own: the object it had, with its connections still
    counted, when the same key held the same address, and a fresh one
    otherwise; every connection proxied for a peer that lost its address is
    closed, and no other connection is touched. *)
Theorem refreshPeers_reaps now cfg rg rg' closed :
  registry_ok rg → addrs_distinct (pc_peers cfg) → refreshPeers now cfg rg = (rg', closed) →
  registry_ok rg'
  ∧ (∀ p, p ∈ pc_peers cfg → peerName (pr_TunnelIP p) rg' = pr_Name p
       ∧ ∃ l lim, limiterFor (pr_TunnelIP p) rg' = Some l ∧ rg_heap rg' !! l = Some lim
         ∧ l_publicKey lim = pr_PublicKey p
         ∧ match survives rg p with
           | Some (l0, lim0) => l = l0 ∧ lim = setLimits (pr_Limits p) lim0
           | None => rg_heap rg !! l = None ∧ lim = newPeerLimiter (pr_PublicKey p) (pr_Limits p) now
           end)
  ∧ (∀ ip, is_Some (rg_limiters rg' !! ip) ↔ ip ∈ tip <$> pc_peers cfg)
  ∧ ∀ c, c ∈ closed ↔ ∃ ip l lim, rg_limiters rg !! ip = Some l ∧ rg_heap rg !! l = Some lim
       ∧ c ∈ l_live lim ∧ ∀ p, p ∈ pc_peers cfg → tip p = ip → pr_PublicKey p ≠ l_publicKey lim.
Proof. apply refreshPeers_spec. Qed.

End reload_facts.
(** ** The device against the configuration *)

Section sync_facts.
Context {WG : WireGuard} (st : secretStore).

(** The preshared key a reference stands for, as the device holds it. *)
Definition psk_hex (ref : SecretRef) (h : gostring) : Prop :=
  ∃ sec, Secret.Resolve (ss_os st) (ss_external st) ref = Ok sec ∧ keyToHex (bytes sec) = Ok h.

(** What a cache holds is what the store says. *)
Definition cache_ok (cache : secretCache) : Prop :=
  ∀ ref sec, cache !! ref = Some sec → Secret.Resolve (ss_os st) (ss_external st) ref = Ok sec.

(** A device serves a list of peers: exactly their keys are on it, each with
    its preshared key and exactly its own address. *)
Record serves (v : uapi_view) (ps : list peerConfig) : Prop := {
  se_peer : ∀ p, p ∈ ps → ∃ k h up, keyToHex (pr_PublicKey p) = Ok k ∧ psk_hex (pr_PSK p) h
    ∧ uv_peers v !! k = Some up ∧ up_psk up = Some h
    ∧ ∀ c, uv_routes v !! c = Some k ↔ c = cidr_of (pr_TunnelIP p);
  se_only : ∀ k, is_Some (uv_peers v !! k) → ∃ p, p ∈ ps ∧ keyToHex (pr_PublicKey p) = Ok k
}.

(** Peers put in force one after the other: hex key, hex preshared key,
    address. *)
Inductive in_force_seq : list (gostring * gostring * Addr) → uapi_view → uapi_view → Prop :=
  | ifs_nil v : in_force_seq [] v v
  | ifs_cons k h ip l v v1 v' :
      peer_in_force k h ip v v1 → in_force_seq l v1 v' → in_force_seq ((k, h, ip) :: l) v v'.

Definition seq_key (e : gostring * gostring * Addr) : gostring := fst (fst e).
Definition seq_cidr (e : gostring * gostring * Addr) : gostring := cidr_of (snd e).

(** The keys a sequence does not name keep their peers, and their routes
    except to an address it gives away. *)
Lemma in_force_seq_other l v v' k :
  in_force_seq l v v' → k ∉ seq_key <$> l →
  uv_peers v' !! k = uv_peers v !! k
  ∧ ∀ c, uv_routes v' !! c = Some k ↔ (c ∉ seq_cidr <$> l) ∧ uv_routes v !! c = Some k.
Proof.
  intros H. induction H as [v|k0 h ip l v v1 v' H1 H IH]; intros Hk.
  - split; [done|]. intros c. simpl. split; [intros ?; split; [by apply not_elem_of_nil|done]|tauto].
  - rewrite fmap_cons, not_elem_of_cons in Hk. destruct Hk as [Hne Hk]. simpl in Hne.
    destruct (IH Hk) as [E1 E2]. destruct H1 as [_ _ Hr Hp _]. split; [by rewrite E1, Hp|].
    intros c. rewrite E2, Hr, fmap_cons, not_elem_of_cons by done. unfold seq_cidr at 3. simpl. tauto.
Qed.

Lemma in_force_seq_private l v v' : in_force_seq l v v' → uv_private_key v' = uv_private_key v.
Proof. induction 1 as [|k h ip l v v1 v' [] H IH]; [done|]. by rewrite IH. Qed.

Lemma in_force_seq_present l v v' k :
  in_force_seq l v v' → is_Some (uv_peers v !! k) → is_Some (uv_peers v' !! k).
Proof.
  induction 1 as [|k0 h ip l v v1 v' H1 H IH]; [done|]. intros Hk. apply IH.
  destruct (decide (k = k0)) as [->|Hne].
  - destruct (pf_peer _ _ _ _ _ H1) as (p & -> & _). done.
  - by rewrite (pf_other_peers _ _ _ _ _ H1).
Qed.

Lemma in_force_seq_in l v v' k h ip :
  in_force_seq l v v' → NoDup (seq_key <$> l) → NoDup (seq_cidr <$> l) → (k, h, ip) ∈ l →
  (∃ p, uv_peers v' !! k = Some p ∧ up_psk p = Some h)
  ∧ ∀ c, uv_routes v' !! c = Some k ↔ c = cidr_of ip.
Proof.
  intros H. induction H as [v|k0 h0 ip0 l v v1 v' H1 H IH]; intros Hk Hc Hin; [by apply elem_of_nil in Hin|].
  rewrite fmap_cons in Hk, Hc. apply NoDup_cons in Hk as [Hk0 Hk], Hc as [Hc0 Hc].
  apply elem_of_cons in Hin as [E|Hin]; [|by apply IH]. simplify_eq.
  destruct (in_force_seq_other _ _ _ _ H Hk0) as [E1 E2]. unfold seq_key in E1, E2. simpl in E1, E2.
  destruct H1 as [Hp Hr _ _ _]. split.
  - destruct Hp as (p & Ep & Eh). exists p. by rewrite E1.
  - intros c. rewrite E2, Hr. split; [tauto|]. intros ->. done.
Qed.

(** ** Lemmas: the steps of the server *)

Definition not_self (p : peerConfig) (v : uapi_view) : Prop :=
  ∀ k, keyToHex (pr_PublicKey p) = Ok k → own_key wg_public v ≠ Some k.

Lemma resolveSecret_ok ref cache sec cache' :
  cache_ok cache → resolveSecret st ref cache = (Ok sec, cache') →
  Secret.Resolve (ss_os st) (ss_external st) ref = Ok sec ∧ cache_ok cache'.
Proof.
  unfold resolveSecret. intros Hok H. destruct (cache !! ref) as [s|] eqn:E.
  - injection H as -> ->. split; [by apply Hok|done].
  - destruct (Secret.Resolve _ _ ref) as [s|] eqn:Er; [|done]. injection H as -> <-. split; [done|].
    intros r s [[-> ->]|[_ Hs]]%lookup_insert_Some; [done|by apply Hok].
Qed.

Lemma applyPeer_ok p u d cache d' cache' :
  cache_ok cache → not_self p (view d) → applyPeer st p u (d, cache) = (None, (d', cache')) →
  cache_ok cache' ∧ ∃ k h, keyToHex (pr_PublicKey p) = Ok k ∧ psk_hex (pr_PSK p) h
    ∧ ((u = true → is_Some (uv_peers (view d) !! k)) → peer_in_force k h (pr_TunnelIP p) (view d) (view d')).
Proof.
  unfold applyPeer. intros Hok Hself H.
  destruct (resolveSecret st (pr_PSK p) cache) as [[psk|e] c1] eqn:Er; [|done].
  apply resolveSecret_ok in Er as [Hres Hok']; [|done].
  set (dp := Build_devicePeer _ _ _ _) in H.
  assert (device_applyPeer dp u d = (None, d') ∧ c1 = cache') as [Ha <-].
  { unfold UpdatePeer, AddPeer in H. destruct u; destruct (device_applyPeer dp _ d) as [[e|] d1]; by simplify_eq. }
  split; [done|]. apply applyPeer_in_force in Ha as (k & h & Hk & Hh & Hv); [|apply zero_endpoint_wf].
  exists k, h. split_and!; [done|by exists psk|]. intros Hu.
  specialize (Hv (Hself k Hk)). destruct u; cbn [andb] in Hv; [|done].
  rewrite bool_decide_false in Hv; [done|]. destruct (Hu eq_refl) as [x Hx]. by rewrite Hx.
Qed.

(** A peer and what was put in force for it. *)
Definition applied_as (p : peerConfig) (e : gostring * gostring * Addr) : Prop :=
  keyToHex (pr_PublicKey p) = Ok (seq_key e) ∧ psk_hex (pr_PSK p) (snd (fst e)) ∧ snd e = pr_TunnelIP p.

Lemma not_self_same p v v' : uv_private_key v' = uv_private_key v → not_self p v → not_self p v'.
Proof. unfold not_self, own_key. by intros ->. Qed.

Lemma each_apply_ok u ps d cache d' cache' :
  cache_ok cache → (∀ p, p ∈ ps → not_self p (view d)) →
  (u = true → ∀ p k, p ∈ ps → keyToHex (pr_PublicKey p) = Ok k → is_Some (uv_peers (view d) !! k)) →
  each_peer (λ p, applyPeer st p u) ps (d, cache) = ([], (d', cache')) →
  cache_ok cache' ∧ ∃ l, in_force_seq l (view d) (view d') ∧ Forall2 applied_as ps l.
Proof.
  revert d cache. induction ps as [|p ps IH]; intros d cache Hc Hs Hu H; cbn [each_peer] in H.
  { injection H as <- <-. split; [done|]. exists []. split; [constructor|constructor]. }
  destruct (applyPeer st p u (d, cache)) as [e [d1 c1]] eqn:E.
  destruct (each_peer _ ps (d1, c1)) as [es s2] eqn:E2. injection H as He ->.
  apply app_eq_nil in He as [He ->]. destruct e as [e|]; [done|].
  apply applyPeer_ok in E as (Hc1 & k & h & Hk & Hh & Hf); [|done|apply Hs; by left].
  assert (peer_in_force k h (pr_TunnelIP p) (view d) (view d1)) as Hin.
  { apply Hf. intros ->. apply (Hu eq_refl p k); [by left|done]. }
  apply IH in E2 as (Hc2 & l & Hl & HF); [|done|..].
  - split; [done|]. exists ((k, h, pr_TunnelIP p) :: l). split; [by econstructor|]. by constructor.
  - intros q Hq. eapply not_self_same; [apply Hin|apply Hs; by right].
  - intros Hu' q k' Hq Hk'. assert (in_force_seq [(k, h, pr_TunnelIP p)] (view d) (view d1)) as H1
      by (econstructor; [done|constructor]).
    eapply in_force_seq_present; [exact H1|]. apply (Hu Hu' q k'); [by right|done].
Qed.

Lemma in_force_seq_app l1 l2 v v1 v' :
  in_force_seq l1 v v1 → in_force_seq l2 v1 v' → in_force_seq (l1 ++ l2) v v'.
Proof. induction 1; [done|]. intros. simpl. econstructor; [done|]. auto. Qed.

Definition names_key (ps : list peerConfig) (k : gostring) : Prop :=
  ∃ p, p ∈ ps ∧ keyToHex (pr_PublicKey p) = Ok k.

Lemma names_key_cons p ps k :
  names_key (p :: ps) k ↔ keyToHex (pr_PublicKey p) = Ok k ∨ names_key ps k.
Proof. unfold names_key. set_solver. Qed.

(** Revoking a list: its keys are gone, everything else is as it was. *)
Lemma each_revoke_ok ps d cache d' cache' :
  (∀ p, p ∈ ps → not_self p (view d)) →
  each_peer revoke_step ps (d, cache) = ([], (d', cache')) →
  cache' = cache ∧ uv_private_key (view d') = uv_private_key (view d)
  ∧ (∀ k, names_key ps k → uv_peers (view d') !! k = None ∧ ∀ c, uv_routes (view d') !! c ≠ Some k)
  ∧ (∀ k, ¬ names_key ps k → uv_peers (view d') !! k = uv_peers (view d) !! k
       ∧ ∀ c, uv_routes (view d') !! c = Some k ↔ uv_routes (view d) !! c = Some k).
Proof.
  revert d. induction ps as [|p ps IH]; intros d Hs H; cbn [each_peer] in H.
  { injection H as <- <-. split_and!; [done|done| |done]. intros k (p & Hp & _). by apply elem_of_nil in Hp. }
  unfold revoke_step at 1 in H. cbn [fst snd] in H.
  destruct (RemovePeer (pr_PublicKey p) d) as [e d1] eqn:E.
  destruct (each_peer revoke_step ps (d1, cache)) as [es s2] eqn:E2. injection H as He ->.
  apply app_eq_nil in He as [He ->]. destruct e as [e|]; [done|].
  assert (∃ k0, keyToHex (pr_PublicKey p) = Ok k0) as [k0 Hk0]
    by (unfold RemovePeer in E; destruct (keyToHex (pr_PublicKey p)) as [k0|]; [by exists k0|done]).
  assert (¬ is_self k0 d) as Hns by (by apply (Hs p); [left|]).
  apply (RemovePeer_view _ _ _ k0) in E; [|done|done].
  assert (uv_private_key (view d1) = uv_private_key (view d)) as Hpriv by by rewrite E.
  apply IH in E2 as (-> & Hp2 & Hgone & Hkeep).
  2:{ intros q Hq. eapply not_self_same; [exact Hpriv|]. apply Hs. by right. }
  split_and!; [done|by rewrite Hp2| |].
  - intros k Hk. destruct (decide (k = k0)) as [->|Hne].
    + destruct (decide (uv_peers (view d') !! k0 = None)) as [Hn|Hn].
      * split; [done|]. intros c Hc. apply view_routes in Hc. rewrite Hn in Hc. by destruct Hc.
      * exfalso. assert (¬ names_key ps k0) as Hnot by (intros Hin; by apply Hn, Hgone).
        apply Hn. rewrite (proj1 (Hkeep k0 Hnot)), E. apply lookup_delete_eq.
    + apply names_key_cons in Hk as [Hk|Hk]; [congruence|]. by apply Hgone.
  - intros k Hk. rewrite names_key_cons in Hk.
    assert (k ≠ k0) as Hne by (intros ->; tauto). destruct (Hkeep k ltac:(tauto)) as [K1 K2].
    rewrite K1, E. split; [by apply lookup_delete_ne|].
    intros c. rewrite K2, E. unfold delete_peer. simpl. rewrite lookup_drop_routes. naive_solver.
Qed.

Lemma errors_Join_None es : errors_Join es = None ↔ es = [].
Proof. by destruct es. Qed.

Lemma cidr_of_inj a b : peer_host a → peer_host b → cidr_of a = cidr_of b → a = b.
Proof.
  intros (n & Hn & ->) (m & Hm & ->) E%(inj (λ x, x ++ #"/32")). cbn [Addr_String] in E.
  pose proof (ParseAddr_string4 (174260224 + n) ltac:(lia)) as H1.
  pose proof (ParseAddr_string4 (174260224 + m) ltac:(lia)) as H2. rewrite E in H1. congruence.
Qed.

(** One key, one spelling. *)
Definition one_spelling (ps : list peerConfig) : Prop := ∀ p q k, p ∈ ps → q ∈ ps →
  keyToHex (pr_PublicKey p) = Ok k → keyToHex (pr_PublicKey q) = Ok k → pr_PublicKey p = pr_PublicKey q.

Lemma Forall2_seq_key ps l : Forall2 applied_as ps l →
  (∀ k, k ∈ seq_key <$> l ↔ names_key ps k) ∧ (seq_cidr <$> l) = cidr_of <$> (pr_TunnelIP <$> ps).
Proof.
  induction 1 as [|p e ps l (Hk & _ & Hip) HF [IH1 IH2]].
  - split; [|done]. intros k. unfold names_key. set_solver.
  - split; simpl.
    + intros k. rewrite elem_of_cons, IH1, names_key_cons, Hk. naive_solver.
    + unfold seq_cidr at 1. rewrite Hip. by f_equal.
Qed.

Lemma Forall2_seq_NoDup ps l :
  Forall2 applied_as ps l → keys_distinct ps → one_spelling ps → NoDup (seq_key <$> l).
Proof.
  induction 1 as [|p e ps l (Hk & Hpsk & Hip) HF IH]; intros Hnd Hone; [constructor|].
  rewrite fmap_cons in Hnd. apply NoDup_cons in Hnd as [Hp Hnd]. rewrite fmap_cons. constructor.
  - intros Hin. apply (proj1 (Forall2_seq_key _ _ HF)) in Hin as (q & Hq & Hkq).
    apply Hp. rewrite (Hone p q (seq_key e)); [by apply list_elem_of_fmap_2|by left|by right|done|done].
  - apply IH; [done|]. intros a b k Ha Hb. apply Hone; by right.
Qed.

(** The peers of the next list that a difference leaves alone were there. *)
Lemma diff_unchanged prev next p :
  keys_distinct prev → p ∈ next →
  p ∉ Added (diffPeers prev next) ++ Changed (diffPeers prev next) → p ∈ prev.
Proof.
  intros Hp Hin Hnot. rewrite elem_of_app in Hnot. simpl in Hnot.
  rewrite !elem_of_list_filter_b in Hnot.
  destruct (byKey prev !! pr_PublicKey p) as [old|] eqn:E.
  - pose proof (proj1 (lookup_byKey _ _ _ Hp) E) as [Hold _].
    destruct (peer_equal old p) eqn:Ee; [apply peer_equal_true in Ee as <-; done|].
    exfalso. apply Hnot. right. split; [|done]. unfold is_changed. by rewrite E, Ee.
  - exfalso. apply Hnot. left. split; [|done]. unfold is_added. by rewrite E.
Qed.

Lemma elem_of_Removed prev next p :
  p ∈ Removed (diffPeers prev next) ↔ p ∈ prev ∧ ∀ q, q ∈ next → pr_PublicKey q ≠ pr_PublicKey p.
Proof.
  simpl. rewrite elem_of_list_filter_b, negb_true_iff, bool_decide_eq_false, elem_of_keySet. naive_solver.
Qed.

Lemma elem_of_applied prev next p :
  p ∈ Added (diffPeers prev next) ++ Changed (diffPeers prev next) → p ∈ next.
Proof. rewrite elem_of_app. simpl. rewrite !elem_of_list_filter_b. naive_solver. Qed.

(** The view after removing one list and putting another in force serves the
    next list, when the rest of it was served and kept its keys and addresses. *)
Lemma serves_after prev next L v v1 v' l :
  serves v prev → keys_distinct next → NoDup (pr_TunnelIP <$> next) → Forall (λ p, peer_host (pr_TunnelIP p)) next →
  one_spelling (prev ++ next) → keys_distinct L →
  (∀ p, p ∈ L → p ∈ next) → (∀ p, p ∈ next → p ∉ L → p ∈ prev) →
  (∀ k, names_key (Removed (diffPeers prev next)) k → uv_peers v1 !! k = None) →
  (∀ k, ¬ names_key (Removed (diffPeers prev next)) k →
     uv_peers v1 !! k = uv_peers v !! k ∧ ∀ c, uv_routes v1 !! c = Some k ↔ uv_routes v !! c = Some k) →
  in_force_seq l v1 v' → Forall2 applied_as L l → serves v' next.
Proof.
  intros [Hse Hso] Hkn Hips Hhost Hone HkL HL Hrest Hgone Hkeep Hseq HF.
  destruct (Forall2_seq_key _ _ HF) as [Hkeys Hcidrs].
  assert (one_spelling L) as HoneL by (intros a b k Ha Hb; apply Hone; set_solver).
  assert (NoDup (pr_TunnelIP <$> L)) as HipL.
  { apply NoDup_fmap_2_strong; [|by eapply NoDup_fmap_1]. intros a b Ha Hb E.
    eapply (NoDup_key_inj pr_TunnelIP next); eauto. }
  rewrite Forall_forall in Hhost.
  assert (NoDup (seq_cidr <$> l)) as HcL.
  { rewrite Hcidrs. apply NoDup_fmap_2_strong; [|done].
    intros a b (p & -> & Hp)%list_elem_of_fmap (q & -> & Hq)%list_elem_of_fmap.
    apply cidr_of_inj; apply Hhost; auto. }
  constructor.
  - intros p Hp. destruct (decide (p ∈ L)) as [Hin|Hin].
    + destruct (Forall2_elem_r _ _ _ _ HF Hin) as ([[k h] ip] & He & Hk & Hpsk & Hip). simpl in *. subst ip.
      destruct (in_force_seq_in _ _ _ _ _ _ Hseq (Forall2_seq_NoDup _ _ HF HkL HoneL) HcL He) as [(up & H1 & H2) H3].
      exists k, h, up. done.
    + pose proof (Hrest p Hp Hin) as Hprev.
      destruct (Hse p Hprev) as (k & h & up & Hk & Hpsk & Hup & Hh & Hr).
      assert (¬ names_key (Removed (diffPeers prev next)) k) as Hnr.
      { intros (q & [Hq Hne]%elem_of_Removed & Hkq). apply (Hne p Hp). apply (Hone p q k); set_solver. }
      assert (k ∉ seq_key <$> l) as HkL'.
      { intros (q & Hq & Hkq)%Hkeys. apply Hin.
        assert (pr_PublicKey q = pr_PublicKey p) as Eq by (apply (Hone q p k); set_solver).
        assert (q = p) as -> by (eapply (NoDup_key_inj pr_PublicKey next); eauto). done. }
      destruct (Hkeep k Hnr) as [K1 K2]. destruct (in_force_seq_other _ _ _ _ Hseq HkL') as [E1 E2].
      exists k, h, up. split_and!; [done|done|by rewrite E1, K1|done|].
      intros c. rewrite E2, K2, Hr. split; [tauto|]. intros ->. split; [|done].
      rewrite Hcidrs. intros (ip & Eip & (q & -> & Hq)%list_elem_of_fmap)%list_elem_of_fmap.
      apply cidr_of_inj in Eip; [|by apply Hhost|apply Hhost; auto].
      assert (p = q) as -> by (eapply (NoDup_key_inj pr_TunnelIP next); eauto). done.
  - intros k Hk. destruct (decide (k ∈ seq_key <$> l)) as [Hin|Hin].
    + apply Hkeys in Hin as (p & Hp & Hkp'). exists p. eauto.
    + destruct (in_force_seq_other _ _ _ _ Hseq Hin) as [E1 _]. rewrite E1 in Hk.
      assert (¬ names_key (Removed (diffPeers prev next)) k) as Hnr
        by (intros Hr; rewrite (Hgone k Hr) in Hk; by destruct Hk).
      rewrite (proj1 (Hkeep k Hnr)) in Hk. apply Hso in Hk as (p & Hp & Hkp').
      destruct (decide (Exists (λ q, pr_PublicKey q = pr_PublicKey p) next)) as [He|He].
      * apply Exists_exists in He as (q & Hq & Eq). exists q. split; [done|]. by rewrite Eq.
      * exfalso. apply Hnr. exists p. split; [|done]. apply elem_of_Removed. split; [done|].
        intros q Hq Eq. apply He, Exists_exists. eauto.
Qed.

(** A reload that goes through without an error. *)
Lemma applyDiff_serves prev next d cache d' cache' :
  keys_distinct prev → keys_distinct next → NoDup (pr_TunnelIP <$> next) →
  Forall (λ p, peer_host (pr_TunnelIP p)) next → one_spelling (prev ++ next) →
  (∀ p, p ∈ prev ++ next → not_self p (view d)) → cache_ok cache → serves (view d) prev →
  applyDiff st (diffPeers prev next) (Some d) cache = (None, Some d', cache') →
  serves (view d') next ∧ cache_ok cache' ∧ uv_private_key (view d') = uv_private_key (view d).
Proof.
  intros Hkp Hkn Hips Hhost Hone Hself Hc Hse H. unfold applyDiff in H.
  destruct (each_peer revoke_step _ _) as [es1 [d1 c1]] eqn:E1.
  destruct (each_peer _ (Added _) _) as [es2 [d2 c2]] eqn:E2.
  destruct (each_peer _ (Changed _) _) as [es3 [d3 c3]] eqn:E3.
  injection H as He -> ->. apply errors_Join_None in He.
  apply app_eq_nil in He as [-> He]. apply app_eq_nil in He as [-> ->].
  assert (∀ p, p ∈ Added (diffPeers prev next) ∨ p ∈ Changed (diffPeers prev next) → p ∈ next) as Hin.
  { intros p Hp. apply (elem_of_applied prev). by rewrite elem_of_app. }
  apply each_revoke_ok in E1 as (-> & Hp1 & Hgone & Hkeep).
  2:{ intros p [Hp _]%elem_of_Removed. apply Hself. set_solver. }
  assert (∀ p, p ∈ next → not_self p (view d1)) as Hs1.
  { intros p Hp. eapply not_self_same; [exact Hp1|]. apply Hself. set_solver. }
  apply each_apply_ok in E2 as (Hc2 & l2 & Hl2 & HF2); [|done|by auto|done].
  apply each_apply_ok in E3 as (Hc3 & l3 & Hl3 & HF3); [|done|..].
  - split_and!; [|done|by rewrite (in_force_seq_private _ _ _ Hl3), (in_force_seq_private _ _ _ Hl2), Hp1].
    eapply (serves_after prev next (Added (diffPeers prev next) ++ Changed (diffPeers prev next))
              (view d) (view d1) _ (l2 ++ l3)); try done.
    + by apply diff_keys_distinct.
    + apply elem_of_applied.
    + intros p Hp Hnot. by eapply diff_unchanged.
    + intros k Hk. by apply Hgone.
    + by eapply in_force_seq_app.
    + by apply Forall2_app.
  - intros p Hp. eapply not_self_same; [by eapply in_force_seq_private|]. auto.
  - intros _ p k Hp Hk. eapply in_force_seq_present; [exact Hl2|].
    simpl in Hp. apply elem_of_list_filter_b in Hp as [Hch Hpn].
    apply (is_changed_true _ _ Hkp) in Hch as (q & Hq & Ekey & _).
    destruct (se_peer _ _ Hse q Hq) as (k' & h & up & Hk' & _ & Hup & _). rewrite Ekey, Hk in Hk'.
    injection Hk' as <-.
    assert (¬ names_key (Removed (diffPeers prev next)) k) as Hnr.
    { intros (r & [Hr Hne]%elem_of_Removed & Hkr). apply (Hne p Hpn). apply (Hone p r k); set_solver. }
    rewrite (proj1 (Hkeep k Hnr)), Hup. done.
Qed.

(** A reload that reports success leaves the device exactly as the new
    peer list says, given a device that was exactly as the old one said:
    departed keys are gone, arrived ones are there, every peer has the
    preshared key its reference names and one address of its own, whatever
    addresses the peers exchanged.  The one assumption on the files is that
    no key is spelled in two ways. *)
Theorem applyDiff_syncs prev next d cache d' cache' :
  keys_distinct prev → keys_distinct next → NoDup (pr_TunnelIP <$> next) →
  Forall (λ p, peer_host (pr_TunnelIP p)) next → one_spelling (prev ++ next) →
  (∀ p, p ∈ prev ++ next → not_self p (view d)) → cache_ok cache → serves (view d) prev →
  applyDiff st (diffPeers prev next) (Some d) cache = (None, Some d', cache') →
  serves (view d') next ∧ cache_ok cache'.
Proof.
  intros H1 H2 H3 H4 H5 H6 H7 H8 H9.
  by destruct (applyDiff_serves _ _ _ _ _ _ H1 H2 H3 H4 H5 H6 H7 H8 H9) as (? & ? & _).
Qed.

Lemma apply_initial_each ps s s' :
  apply_initial st ps s = (None, s') → each_peer (λ p, applyPeer st p false) ps s = ([], s').
Proof.
  revert s. induction ps as [|p ps IH]; intros s H; cbn [apply_initial each_peer] in *; [by simplify_eq|].
  destruct (applyPeer st p false s) as [[e|] s1]; [done|]. by rewrite (IH s1 H).
Qed.

(** Startup's loop over the peers. *)
Lemma apply_initial_serves ps d cache d' cache' :
  keys_distinct ps → NoDup (pr_TunnelIP <$> ps) → Forall (λ p, peer_host (pr_TunnelIP p)) ps →
  one_spelling ps → (∀ p, p ∈ ps → not_self p (view d)) → cache_ok cache → uv_peers (view d) = ∅ →
  apply_initial st ps (d, cache) = (None, (d', cache')) →
  serves (view d') ps ∧ cache_ok cache' ∧ uv_private_key (view d') = uv_private_key (view d).
Proof.
  intros Hk Hips Hhost Hone Hs Hc He H. apply apply_initial_each in H.
  apply each_apply_ok in H as (Hc' & l & Hl & HF); [|done|done|done]. split_and!; [|done|by eapply in_force_seq_private].
  assert (∀ k, uv_peers (view d) !! k = None) as Hn by (intros k; rewrite He; apply lookup_empty).
  eapply (serves_after [] ps ps (view d) (view d)); try done.
  constructor; [set_solver|]. intros k Hsome. rewrite Hn in Hsome. by destruct Hsome.
Qed.

(** A server that starts serves exactly the peers file it loaded: startup
    applies every peer to a device that has none, and any failure stops it. *)
Theorem initial_peers_served ps d cache d' cache' :
  keys_distinct ps → NoDup (pr_TunnelIP <$> ps) → Forall (λ p, peer_host (pr_TunnelIP p)) ps →
  one_spelling ps → (∀ p, p ∈ ps → not_self p (view d)) → cache_ok cache → uv_peers (view d) = ∅ →
  apply_initial st ps (d, cache) = (None, (d', cache')) →
  serves (view d') ps ∧ cache_ok cache'.
Proof.
  intros H1 H2 H3 H4 H5 H6 H7 H8. by destruct (apply_initial_serves _ _ _ _ _ H1 H2 H3 H4 H5 H6 H7 H8) as (? & ? & _).
Qed.

End sync_facts.
Section server_facts.
Context {WG : WireGuard} (st : secretStore) {RO : GoRange}.

Lemma elem_of_inUse privateKey ps ref :
  ref ∈ foldl (λ s p, {[pr_PSK p]} ∪ s) ({[privateKey]} : gset gostring) ps
  ↔ ref = privateKey ∨ ∃ p, p ∈ ps ∧ ref = pr_PSK p.
Proof.
  assert (∀ s : gset gostring, ref ∈ foldl (λ s p, {[pr_PSK p]} ∪ s) s ps
    ↔ ref ∈ s ∨ ∃ p, p ∈ ps ∧ ref = pr_PSK p) as Hg; [|rewrite Hg; set_solver].
  induction ps as [|p ps IH]; intros s; simpl; [set_solver|]. rewrite IH. set_solver.
Qed.

(** A failed reload changes nothing on the server: names, limiters,
    device and secrets stay as they were and no connection is closed.  A
    reload that goes through leaves in the cache only key material the
    configuration still names, whatever became of the device, and the limiter
    maps already follow the new list. *)
Theorem handleReload_all_or_nothing now cfg r s :
  let '(s', (err, closed)) := handleReload st now cfg r s in
  match rr_Err r with
  | Some _ => s' = s ∧ err = None ∧ closed = []
  | None =>
      (∀ ref, is_Some (sv_cache s' !! ref) →
         ref = sc_PrivateKey (sv_cfg s) ∨ ∃ p, p ∈ pc_peers cfg ∧ ref = pr_PSK p)
      ∧ refreshPeers now cfg (sv_registry s) = (sv_registry s', closed)
      ∧ (sv_dev s = None → is_Some err ∧ sv_dev s' = None)
  end.
Proof.
  unfold handleReload. destruct (rr_Err r); [done|].
  destruct (refreshPeers now cfg (sv_registry s)) as [rg closed].
  destruct (applyDiff st (rr_Diff r) (sv_dev s) (sv_cache s)) as [[e dev] cache] eqn:E.
  cbn [sv_cache sv_registry sv_dev]. split_and!; [|done|].
  - intros ref [sec H]. unfold pruneSecretCache in H. apply map_lookup_filter_Some in H as [_ H].
    by apply elem_of_inUse in H.
  - intros Hd. unfold applyDiff in E. rewrite Hd in E. by simplify_eq.
Qed.

(** The two halves of startup agree: a server file that loads, with a
    peers file that loads, makes a server, with the same values; no
    configuration at all makes none. *)
Theorem NewServer_accepts_loaded ReadFile yaml yaml_peers path fc pc :
  LoadServerConfig ReadFile yaml path = Ok fc →
  LoadPeersConfig ReadFile yaml_peers (sf_PeersFile fc) = Ok pc →
  NewServer ReadFile yaml_peers (ServerConfigFrom (Some fc)) = Ok (ServerConfigFrom (Some fc))
  ∧ is_Ok (NewServer ReadFile yaml_peers (ServerConfigFrom None)) = false.
Proof.
  intros (data & raw & _ & _ & _ & [])%LoadServerConfig_spec Hp. split; [|done].
  subst fc. unfold NewServer, ServerConfigFrom. cbn [sc_ListenPort sc_PrivateKey sc_TunnelIP sc_MTU
    sc_PeersFile sf_ListenPort sf_PrivateKey sf_TunnelIP sf_MTU sf_PeersFile sf_LogFormat] in *.
  rewrite (proj2 (Z.ltb_ge _ 1)), (proj2 (Z.ltb_ge 65535 _)) by lia. cbn [orb].
  rewrite (proj2 (validSecretRef_None _) ss_key0). cbn [check rbind].
  change (negb (IsValid serverTunnelIP)) with false. change (Unmap serverTunnelIP) with serverTunnelIP.
  rewrite bool_decide_false by naive_solver.
  assert (∀ m, m = 0 ∨ 1280 ≤ m ≤ 1500 → let m' := limit_default DefaultMTU m in
    (m' =? 0) = false ∧ (m' <? minMTU) || (maxMTU <? m') = false)%Z as Hm.
  { intros m Hm. unfold limit_default, minMTU, maxMTU, DefaultMTU. destruct (m =? 0)%Z eqn:E; [done|].
    bool_props. split; [by apply Z.eqb_neq|]. apply orb_false_iff. split; apply Z.ltb_ge; lia. }
  destruct (Hm _ ss_mtu0) as [-> ->]. rewrite bool_decide_false by done. rewrite Hp. done.
Qed.

End server_facts.
(** ** A server of one peer, then of another at the same address *)

#[local] Existing Instance canonical_range.
#[local] Instance demo_wireguard : WireGuard := plain_device (λ k, reverse k).

Definition demo_store : secretStore := {|
  ss_os := {| os_Open := λ _, Err (errors_New (#"no such file"));
              os_LookupEnv := λ n, if bool_decide (n = #"APP_PSK") then Some zero_key else None |};
  ss_external := None |}.

Definition demo_peer : peerConfig := {|
  pr_Name := #"app-1"; pr_PublicKey := zero_key; pr_PSK := #"env:APP_PSK";
  pr_TunnelIP := Addr4 174260231; pr_Limits := demo_limits; pr_Allow := ∅ |}.
Definition other_key : gostring := #"AQAAAAAAAAAAAAAAAAAAAAAAAAAAAAAAAAAAAAAAAAA=".
Definition demo_other : peerConfig := {|
  pr_Name := #"app-2"; pr_PublicKey := other_key; pr_PSK := #"env:APP_PSK";
  pr_TunnelIP := Addr4 174260231; pr_Limits := demo_limits; pr_Allow := ∅ |}.

Definition demo_d0 : wg := wg_new.
Definition demo_started := apply_initial demo_store [demo_peer] (demo_d0, ∅).
Definition demo_synced :=
  applyDiff demo_store (diffPeers [demo_peer] [demo_other]) (Some (fst (snd demo_started))) (snd (snd demo_started)).

Lemma split_ok {A B} (x : option error * (A * B)) :
  match fst x with None => true | Some _ => false end = true → x = (None, (fst (snd x), snd (snd x))).
Proof. by destruct x as [[e|] [a b]]. Qed.

Lemma host_174260231 : peer_host (Addr4 174260231).
Proof. exists 7%Z. split; [lia|done]. Qed.
Lemma demo_not_self p : not_self p (view demo_d0).
Proof. by intros k _. Qed.
Lemma empty_cache_ok : cache_ok demo_store ∅.
Proof. intros ref sec H. exfalso. exact (lookup_empty_Some _ _ H). Qed.

Lemma demo_start_ok :
  apply_initial demo_store [demo_peer] (demo_d0, ∅)
  = (None, (fst (snd demo_started), snd (snd demo_started))).
Proof. apply (split_ok demo_started). by vm_compute. Qed.

Lemma initial_peers_served_witness :
  serves demo_store (view (fst (snd demo_started))) [demo_peer] ∧ cache_ok demo_store (snd (snd demo_started)).
Proof.
  apply (initial_peers_served demo_store [demo_peer] demo_d0 ∅ _ _).
  - apply (bool_decide_eq_true_1 _). by vm_compute.
  - apply (bool_decide_eq_true_1 _). by vm_compute.
  - repeat constructor. apply host_174260231.
  - intros p q k [->|[]%elem_of_nil]%elem_of_cons [->|[]%elem_of_nil]%elem_of_cons; done.
  - intros p _. apply demo_not_self.
  - apply empty_cache_ok.
  - reflexivity.
  - apply demo_start_ok.
Defined.

(** Before the reload. *)
Lemma demo_serving :
  serves demo_store (view (fst (snd demo_started))) [demo_peer] ∧ cache_ok demo_store (snd (snd demo_started)).
Proof.
  assert (each_peer (λ p, applyPeer demo_store p false) [demo_peer] (demo_d0, ∅)
          = ([], (fst (snd demo_started), snd (snd demo_started)))) as H
    by (apply apply_initial_each, demo_start_ok).
  apply each_apply_ok in H as (Hc & l & Hl & HF); [|apply empty_cache_ok|intros; apply demo_not_self|done].
  split; [|done]. eapply (serves_after demo_store [] [demo_peer] [demo_peer] (view demo_d0) (view demo_d0)); try done.
  - constructor; [set_solver|]. intros k Hk. exfalso. destruct Hk as [x Hx]. exact (lookup_empty_Some _ _ Hx).
  - apply (bool_decide_eq_true_1 _). by vm_compute.
  - apply (bool_decide_eq_true_1 _). by vm_compute.
  - repeat constructor. apply host_174260231.
  - intros p q k [->|[]%elem_of_nil]%elem_of_cons [->|[]%elem_of_nil]%elem_of_cons; done.
  - apply (bool_decide_eq_true_1 _). by vm_compute.
Qed.

Lemma elem_of_two {A} (x a b : A) : x ∈ [a] ++ [b] → x = a ∨ x = b.
Proof. rewrite elem_of_app, !list_elem_of_singleton. done. Qed.

Lemma demo_sync_ok : ∃ d' cache',
  applyDiff demo_store (diffPeers [demo_peer] [demo_other]) (Some (fst (snd demo_started)))
    (snd (snd demo_started)) = (None, Some d', cache').
Proof.
  assert (match demo_synced with (None, Some _, _) => true | _ => false end = true) as H by by vm_compute.
  unfold demo_synced in H. destruct (applyDiff _ _ _ _) as [[[e|] [d|]] c]; try done. by exists d, c.
Qed.

(** What [applyDiff_syncs] asks of the two files. *)
Lemma demo_files_ok :
  keys_distinct [demo_peer] ∧ keys_distinct [demo_other] ∧ NoDup (pr_TunnelIP <$> [demo_other])
  ∧ Forall (λ p, peer_host (pr_TunnelIP p)) [demo_other] ∧ one_spelling ([demo_peer] ++ [demo_other])
  ∧ (∀ p, p ∈ [demo_peer] ++ [demo_other] → not_self p (view (fst (snd demo_started)))).
Proof.
  split_and!.
  - apply (bool_decide_eq_true_1 _). by vm_compute.
  - apply (bool_decide_eq_true_1 _). by vm_compute.
  - apply (bool_decide_eq_true_1 _). by vm_compute.
  - repeat constructor. apply host_174260231.
  - intros p q k [-> | ->]%elem_of_two [-> | ->]%elem_of_two Hkp Hkq; [reflexivity| | |reflexivity];
      exfalso; vm_compute in Hkp, Hkq; congruence.
  - intros p _ k Hk. assert (uv_private_key (view (fst (snd demo_started))) = None) as E by by vm_compute.
    unfold own_key. by rewrite E.
Qed.

Lemma applyDiff_syncs_witness : ∃ d' cache',
  applyDiff demo_store (diffPeers [demo_peer] [demo_other]) (Some (fst (snd demo_started)))
    (snd (snd demo_started)) = (None, Some d', cache')
  ∧ serves demo_store (view d') [demo_other].
Proof.
  destruct demo_sync_ok as (d' & cache' & H), demo_serving as [Hs Hc], demo_files_ok as (W1 & W2 & W3 & W4 & W5 & W6).
  exists d', cache'. split; [exact H|].
  exact (proj1 (applyDiff_syncs demo_store [demo_peer] [demo_other] _ _ d' cache' W1 W2 W3 W4 W5 W6 Hc Hs H)).
Defined.

(** A connection of the departed peer. *)
Definition demo_registry : registry := {|
  rg_names := {[ Addr4 174260231 := #"app-1" ]};
  rg_limiters := {[ Addr4 174260231 := 0 ]};
  rg_heap := {[ 0 := track 42 (newPeerLimiter zero_key demo_limits 0) ]} |}.
Definition demo_next : PeersConfig := {| pc_peers := [demo_other]; pc_policy := {| pol_peers := ∅ |} |}.

Lemma demo_registry_ok : registry_ok demo_registry.
Proof.
  constructor; simpl.
  - intros a b l Ha Hb. apply lookup_singleton_Some in Ha as [<- _], Hb as [<- _]. done.
  - intros a l H. apply lookup_singleton_Some in H as [_ <-]. rewrite lookup_singleton_eq. done.
Qed.

Lemma refreshPeers_reaps_witness : 42 ∈ snd (refreshPeers 5 demo_next demo_registry).
Proof.
  destruct (refreshPeers 5 demo_next demo_registry) as [rg' closed] eqn:E.
  destruct (refreshPeers_reaps 5 demo_next demo_registry rg' closed demo_registry_ok) as (_ & _ & _ & Hc);
    [apply (bool_decide_eq_true_1 _); by vm_compute|exact E|].
  apply Hc. exists (Addr4 174260231), 0, (track 42 (newPeerLimiter zero_key demo_limits 0)).
  split; [apply lookup_singleton_eq|]. split; [apply lookup_singleton_eq|]. split.
  - simpl. set_solver.
  - intros p Hp _. simpl in Hp. apply list_elem_of_singleton in Hp as ->. by vm_compute.
Defined.

Definition demo_server_raw : serverYAML := {|
  sy_ListenPort := 51820; sy_PrivateKey := #"file:/etc/gocloak/server.key"; sy_TunnelIP := #"10.99.0.1";
  sy_MTU := 0; sy_PeersFile := #"peers.yaml"; sy_LogFormat := [] |}.
Definition demo_server_file : ServerFileConfig :=
  from_Ok {| sf_ListenPort := 0; sf_PrivateKey := []; sf_TunnelIP := AddrNone; sf_MTU := 0;
             sf_PeersFile := []; sf_LogFormat := [] |}
    (LoadServerConfig demo_file (one_document demo_server_raw) (#"server.yaml")).

Lemma NewServer_accepts_loaded_witness :
  NewServer demo_file (one_document demo_raw) (ServerConfigFrom (Some demo_server_file))
  = Ok (ServerConfigFrom (Some demo_server_file)).
Proof.
  refine (proj1 (NewServer_accepts_loaded demo_file (one_document demo_server_raw) (one_document demo_raw)
    (#"server.yaml") demo_server_file demo_config _ _)).
  - apply from_Ok_eq. by vm_compute.
  - exact demo_config_loads.
Defined.

(** A peer whose first reload failed, here for want of its preshared key, is
    not on the device but is in the loaded configuration: the edit that puts it
    right is a change, which only updates, so the second reload reports success
    and the peer is still missing. *)
Definition demo_unset : peerConfig := {|
  pr_Name := #"app-1"; pr_PublicKey := zero_key; pr_PSK := #"env:UNSET";
  pr_TunnelIP := Addr4 174260231; pr_Limits := demo_limits; pr_Allow := ∅ |}.
Theorem fixed_peer_stays_missing :
  let '(e1, dev1, cache1) := applyDiff demo_store (diffPeers [] [demo_unset]) (Some demo_d0) ∅ in
  let '(e2, dev2, _) := applyDiff demo_store (diffPeers [demo_unset] [demo_peer]) dev1 cache1 in
  bool_decide (is_Some e1) = true ∧ e2 = None
  ∧ default ∅ (uv_peers ∘ view <$> dev2) = ∅
  ∧ length (Changed (diffPeers [demo_unset] [demo_peer])) = 1.
Proof. vm_compute. done. Qed.

End Server.
