(* ===== verification/ReloadLog.v ===== *)
(** * The log of a reload ([handleReload], [applyDiff] of [server.go])

    The lines a reload writes, as the values handed to slog, and what an
    operator may conclude from them.  The state is changed exactly as in
    [Server], whose definitions leave the lines out. *)

From S2P Require Import Prelude GoStrings GoSlog GoNetip Policy Secret Yaml Config Watcher Device Limiter Server.
Import Policy Secret Yaml Config Watcher Device Limiter Server.

Module ReloadLog.

Section logged.
Context {WG : WireGuard} (st : secretStore).

(** One of the three loops of [applyDiff]: the call on the device, what its
    error is collected as, and the two messages. *)
Record loop := {
  lp_run : peerConfig → wg * secretCache → option error * (wg * secretCache);
  lp_wrap : peerConfig → error → error;
  lp_failed : gostring; lp_level : level; lp_done : gostring
}.

Definition revoking : loop := {|
  lp_run p s := let '(e, d') := RemovePeer (pr_PublicKey p) (fst s) in (e, (d', snd s));
  lp_wrap p e := wrapf (#"revoke peer " ++ pr_Name p ++ #": ") e;
  lp_failed := #"gocloak: PEER REVOCATION FAILED, that peer may still have access";
  lp_level := Warn; lp_done := #"gocloak: peer revoked" |}.
Definition adding : loop := {|
  lp_run p s := applyPeer st p false s; lp_wrap _ e := e;
  lp_failed := #"gocloak: could not add peer"; lp_level := Info; lp_done := #"gocloak: peer added" |}.
Definition changing : loop := {|
  lp_run p s := applyPeer st p true s; lp_wrap _ e := e;
  lp_failed := #"gocloak: could not update peer"; lp_level := Info; lp_done := #"gocloak: peer updated" |}.

Definition peer_line (lp : loop) (p : peerConfig) (e : option error) : line :=
  match e with
  | Some e => {| ln_level := Error; ln_msg := lp_failed lp;
                 ln_attrs := [(#"peer", Text (pr_Name p)); (#"error", Text (e_msg e))] |}
  | None => {| ln_level := lp_level lp; ln_msg := lp_done lp; ln_attrs := [(#"peer", Text (pr_Name p))] |}
  end.

Fixpoint each_logged (lp : loop) (ps : list peerConfig) (s : wg * secretCache)
    : list line * (list error * (wg * secretCache)) :=
  match ps with
  | [] => ([], ([], s))
  | p :: ps' =>
      let '(e, s1) := lp_run lp p s in
      let '(lns, (es, s2)) := each_logged lp ps' s1 in
      (peer_line lp p e :: lns, (option_list (lp_wrap lp p <$> e) ++ es, s2))
  end.

Definition applyDiff_logged (diff : peerDiff) (dev : option wg) (cache : secretCache)
    : list line * (option error * option wg * secretCache) :=
  match dev with
  | None => ([], (Some (errors_New (#"gocloak: server: reload arrived before the device existed")), None, cache))
  | Some d =>
      let '(l1, (es1, s1)) := each_logged revoking (Removed diff) (d, cache) in
      let '(l2, (es2, s2)) := each_logged adding (Added diff) s1 in
      let '(l3, (es3, (d', cache'))) := each_logged changing (Changed diff) s2 in
      (l1 ++ l2 ++ l3, (errors_Join (es1 ++ es2 ++ es3), Some d', cache'))
  end.

(** The attributes of the two summaries. *)
Definition summary_attrs (r : reloadResult) : list (gostring * value) :=
  [(#"path", Text (rr_Path r)); (#"peers", Int (Z.of_nat (rr_PeerCount r)));
   (#"added", Names (peerNames (Added (rr_Diff r)))); (#"removed", Names (peerNames (Removed (rr_Diff r))));
   (#"changed", Names (peerNames (Changed (rr_Diff r))))].
Definition summary (r : reloadResult) (applyErr : option error) : list line :=
  match applyErr with
  | Some e => [{| ln_level := Error; ln_msg := #"gocloak: peers file reloaded but NOT fully applied to the device";
                  ln_attrs := summary_attrs r ++ [(#"error", Text (e_msg e))] |}]
  | None =>
      if negb (IsEmpty (rr_Diff r))
      then [{| ln_level := Info; ln_msg := #"gocloak: peers file reloaded"; ln_attrs := summary_attrs r |}]
      else []
  end.

Context {RO : GoRange}.

Definition handleReload_logged (now : Z) (cfg : PeersConfig) (r : reloadResult) (s : server)
    : list line * (server * (option error * list nat)) :=
  match rr_Err r with
  | Some err =>
      ([{| ln_level := Error; ln_msg := #"gocloak: peers file reload FAILED, the previous peer list is still in force";
           ln_attrs := [(#"path", Text (rr_Path r)); (#"peers_in_force", Int (Z.of_nat (rr_PeerCount r)));
                        (#"error", Text (e_msg err))] |}],
       (s, (None, [])))
  | None =>
      let '(rg, closed) := refreshPeers now cfg (sv_registry s) in
      let '(lns, (applyErr, dev, cache)) := applyDiff_logged (rr_Diff r) (sv_dev s) (sv_cache s) in
      let cache' := pruneSecretCache (sc_PrivateKey (sv_cfg s)) (pc_peers cfg) cache in
      (lns ++ summary r applyErr,
       ({| sv_cfg := sv_cfg s; sv_registry := rg; sv_cache := cache'; sv_dev := dev |}, (applyErr, closed)))
  end.

(** ** Lemmas *)

Lemma each_logged_same (lp : loop) (step : peerConfig → wg * secretCache → option error * (wg * secretCache))
    (ps : list peerConfig) (s : wg * secretCache) :
  (∀ p s, step p s = let '(e, s1) := lp_run lp p s in (lp_wrap lp p <$> e, s1)) →
  snd (each_logged lp ps s) = each_peer step ps s.
Proof.
  intros Hstep. revert s. induction ps as [|p ps IH]; intros s; [done|]. cbn [each_logged each_peer].
  rewrite Hstep. destruct (lp_run lp p s) as [e s1]. rewrite <- IH. by destruct (each_logged lp ps s1) as [? []].
Qed.

Lemma applyDiff_logged_same diff dev cache :
  snd (applyDiff_logged diff dev cache) = applyDiff st diff dev cache.
Proof.
  destruct dev as [d|]; [|done]. unfold applyDiff_logged, applyDiff.
  assert (∀ u lp, lp_run lp = (λ p, applyPeer st p u) → lp_wrap lp = (λ _ e, e) → ∀ ps s,
    snd (each_logged lp ps s) = each_peer (λ p, applyPeer st p u) ps s) as Happly.
  { intros u lp Hr Hw ps s. apply each_logged_same. intros p s1. rewrite Hr, Hw.
    by destruct (applyPeer st p u s1) as [[e|] ?]. }
  rewrite <- (each_logged_same revoking).
  2:{ intros p s. unfold revoke_step. cbn. by destruct (RemovePeer _ _). }
  destruct (each_logged revoking _ _) as [l1 [es1 s1]]. cbn [snd].
  rewrite <- (Happly false adding) by done. destruct (each_logged adding _ _) as [l2 [es2 s2]]. cbn [snd].
  rewrite <- (Happly true changing) by done. by destruct (each_logged changing _ _) as [l3 [es3 [d' c']]].
Qed.

Lemma handleReload_logged_same now cfg r s :
  snd (handleReload_logged now cfg r s) = handleReload st now cfg r s.
Proof.
  unfold handleReload_logged, handleReload. destruct (rr_Err r); [done|].
  destruct (refreshPeers _ _ _) as [rg closed]. rewrite <- applyDiff_logged_same.
  by destruct (applyDiff_logged _ _ _) as [? [[? ?] ?]].
Qed.

(** A line for every peer, in order, loud exactly when the step failed. *)
Definition about (p : peerConfig) (ln : line) : Prop := head (ln_attrs ln) = Some (#"peer", Text (pr_Name p)).

Lemma each_logged_lines (lp : loop) ps s lns es s' :
  lp_level lp ≠ Error → each_logged lp ps s = (lns, (es, s')) →
  Forall2 about ps lns ∧ length es = length (List.filter (λ ln, negb (quiet_line ln)) lns).
Proof.
  intros Hl. revert s lns es. induction ps as [|p ps IH]; intros s lns es H; cbn [each_logged] in H.
  { by simplify_eq. }
  destruct (lp_run lp p s) as [e s1]. destruct (each_logged lp ps s1) as [lns1 [es1 s2]] eqn:E.
  injection H as <- <- <-. destruct (IH _ _ _ E) as [HF Hes]. split.
  - constructor; [|done]. by destruct e.
  - destruct e as [e|]; cbn.
    + by rewrite Hes.
    + unfold quiet_line at 1. cbn. by rewrite bool_decide_false.
Qed.

Lemma applyDiff_logged_lines diff d cache lns err dev' cache' :
  applyDiff_logged diff (Some d) cache = (lns, (err, dev', cache')) →
  Forall2 about (Removed diff ++ Added diff ++ Changed diff) lns
  ∧ ∃ es, err = errors_Join es ∧ length es = length (List.filter (λ ln, negb (quiet_line ln)) lns).
Proof.
  intros H. unfold applyDiff_logged in H.
  destruct (each_logged revoking _ _) as [l1 [es1 s1]] eqn:E1.
  destruct (each_logged adding _ _) as [l2 [es2 s2]] eqn:E2.
  destruct (each_logged changing _ _) as [l3 [es3 [d' c']]] eqn:E3. simplify_eq.
  apply each_logged_lines in E1 as [F1 N1], E2 as [F2 N2], E3 as [F3 N3]; [|done..].
  split; [by repeat apply Forall2_app|]. exists (es1 ++ es2 ++ es3). split; [done|].
  rewrite !List.filter_app, !length_app. lia.
Qed.

Lemma quiet_summary r e : quiet (summary r e) = true ↔ e = None.
Proof. destruct e; [done|]. cbn. by destruct (IsEmpty (rr_Diff r)). Qed.

(** ** Properties *)

(** C40: the log of a reload tells the truth.  It has one line for every
    departed, arrived and changed peer, in that order, naming the peer and
    loud exactly as often as a step failed, and at most one summary; a reload
    whose file did not load has one loud line and changes nothing.  No line is
    loud exactly when the file loaded and every step succeeded, and then, if
    the device was as the old file said, it is as the new one says.  This last
    part is for files with distinct keys and addresses that denote hosts, as
    the loader gives them, and assumes, which the loader does not check, that
    no key stands in them in two spellings and none is the server's own; and
    that the secrets cached are what the store gives. *)
Theorem quiet_reloads_are_in_force now cfg r s d :
  sv_dev s = Some d →
  let '(lns, (s', (err, closed))) := handleReload_logged now cfg r s in
  (s', (err, closed)) = handleReload st now cfg r s
  ∧ (quiet lns = true ↔ rr_Err r = None ∧ err = None)
  ∧ (rr_Err r ≠ None → length lns = 1 ∧ s' = s)
  ∧ (rr_Err r = None → ∃ steps last es, lns = steps ++ last ∧ length last ≤ 1
       ∧ Forall2 about (Removed (rr_Diff r) ++ Added (rr_Diff r) ++ Changed (rr_Diff r)) steps
       ∧ err = errors_Join es ∧ length es = length (List.filter (λ ln, negb (quiet_line ln)) steps))
  ∧ ∀ prev, let next := pc_peers cfg in
      rr_Diff r = diffPeers prev next → quiet lns = true →
      keys_distinct prev → keys_distinct next → NoDup (pr_TunnelIP <$> next) →
      Forall (λ p, peer_host (pr_TunnelIP p)) next → one_spelling (prev ++ next) →
      (∀ p, p ∈ prev ++ next → not_self p (view d)) → cache_ok st (sv_cache s) → serves st (view d) prev →
      ∃ d', sv_dev s' = Some d' ∧ serves st (view d') next.
Proof.
  intros Hd. pose proof (handleReload_logged_same now cfg r s) as Hsame.
  destruct (handleReload_logged now cfg r s) as [lns [s' [err closed]]] eqn:E.
  unfold handleReload_logged in E. rewrite Hd in E. destruct (rr_Err r) as [e|] eqn:Er.
  { injection E as <- <- <- <-. split_and!; [done|split; [done|by intros [? ?]]|done|done|done]. }
  destruct (refreshPeers _ _ _) as [rg cl].
  destruct (applyDiff_logged _ _ _) as [steps [[err1 dev] cache]] eqn:Ea.
  destruct (applyDiff_logged_lines _ _ _ _ _ _ _ Ea) as (Hab & es & Hes & Hlen).
  pose proof (applyDiff_logged_same (rr_Diff r) (Some d) (sv_cache s)) as Hdiff. rewrite Ea in Hdiff.
  injection E as <- <- <- <-.
  assert (quiet (steps ++ summary r err1) = true ↔ err1 = None) as Hq.
  { rewrite quiet_app, andb_true_iff, quiet_summary, quiet_filter, <- Hlen, Hes, errors_Join_None.
    split; [by intros [_ ?]|]. by intros ->. }
  split_and!; [done|naive_solver|done| |].
  - intros _. exists steps, (summary r err1), es. split_and!; [done| |done|done|done].
    unfold summary. destruct err1; [done|]. by destruct (negb _); cbn; lia.
  - cbn zeta. intros prev Hr Hquiet ????????. apply Hq in Hquiet. subst err1. rewrite Hquiet in *.
    cbn [snd] in Hdiff. rewrite Hr in Hdiff.
    assert (is_Some dev) as [d' ->].
    { unfold applyDiff in Hdiff. destruct (each_peer _ (Removed _) _), (each_peer _ (Added _) _),
        (each_peer _ (Changed _) _) as [? []]. simplify_eq. by eexists. }
    exists d'. split; [done|]. symmetry in Hdiff. by apply (applyDiff_serves st prev _ d _ _ _) in Hdiff as [??].
Qed.

End logged.

(** ** A peer replaced by another, and one whose key cannot be read *)

#[local] Existing Instance canonical_range.
#[local] Existing Instance demo_wireguard.

Definition demo_sv : server := {|
  sv_cfg := ServerConfigFrom None; sv_registry := demo_registry;
  sv_cache := snd (snd demo_started); sv_dev := Some (fst (snd demo_started)) |}.
Definition demo_result (next : list peerConfig) : reloadResult := {|
  rr_Path := #"peers.yaml"; rr_Err := None; rr_PeerCount := length next;
  rr_Diff := diffPeers [demo_peer] next |}.

Lemma quiet_reloads_are_in_force_witness :
  ln_msg <$> fst (handleReload_logged demo_store 5 demo_next (demo_result [demo_other]) demo_sv)
    = [ #"gocloak: peer revoked"; #"gocloak: peer added"; #"gocloak: peers file reloaded" ]
  ∧ ∃ d', sv_dev (fst (snd (handleReload_logged demo_store 5 demo_next (demo_result [demo_other]) demo_sv))) = Some d'
      ∧ serves demo_store (view d') [demo_other].
Proof.
  assert (quiet (fst (handleReload_logged demo_store 5 demo_next (demo_result [demo_other]) demo_sv)) = true) as Hq
    by by vm_compute.
  split; [by vm_compute|]. destruct demo_serving as [Hs Hc], demo_files_ok as (W1 & W2 & W3 & W4 & W5 & W6).
  pose proof (quiet_reloads_are_in_force demo_store 5 demo_next (demo_result [demo_other]) demo_sv
    (fst (snd demo_started)) eq_refl) as H.
  destruct (handleReload_logged _ _ _ _ _) as [lns [s' [err closed]]]. destruct H as (_ & _ & _ & _ & H).
  exact (H [demo_peer] eq_refl Hq W1 W2 W3 W4 W5 W6 Hc Hs).
Defined.

Example unreadable_key_is_loud :
  let lns := fst (handleReload_logged demo_store 5 {| pc_peers := [demo_unset]; pc_policy := {| pol_peers := ∅ |} |}
                    (demo_result [demo_unset]) demo_sv) in
  (ln_level <$> lns, ln_attrs <$> take 1 lns)
  = ([Error; Error], [[(#"peer", Text (#"app-1"));
       (#"error", Text (#"gocloak: server: peer app-1: psk: secret: [REDACTED REF]: not set"))]]).
Proof. vm_compute. reflexivity. Qed.

End ReloadLog.
