(* ===== verification/Lifecycle.v ===== *)
(** * The server across reloads ([config.go], [server.go])

    The watcher's loop with the server behind its callback: what startup
    leaves, and what any sequence of file changes, timers, errors and ticks
    makes of it.  One goroutine runs all of this, so a report is handled
    before the next event is looked at. *)

From S2P Require Import Prelude GoStrings GoSlog GoNetip Policy Secret Yaml Config Watcher Watch Device Limiter Server ReloadLog.
Import Policy Secret Yaml Config Watcher Device Limiter Server ReloadLog.

Module Lifecycle.

(** What [notifyReload] is told. *)
Definition note := (reloadResult * option error)%type.

(** An event of the watcher's loop, the time limiters read, and what adding
    the directory to the watch returns if the event re-arms it. *)
Record service_event := { se_event : run_event; se_now : Z; se_add : option error }.

Section service.
Context {WG : WireGuard} {RO : GoRange}.
Record service := { sc_watcher : peerWatcher; sc_server : server; sc_returned : option (option error) }.

Context (st : secretStore) (yaml : gostring → yaml_stream peersYAML) (fs : filesystem).

(** One call of the loop; [w] is the watcher at that time. *)
Definition perform (ev : service_event) (w : peerWatcher) (a : run_action) (s : server)
    : list line * list note * server :=
  match a with
  | RearmWatch => (Watch.rearmWatch (se_add ev) w, [], s)
  | ResetDebounce => ([], [], s)
  | LogWatchError e => ([Watch.watch_error_line e w], [], s)
  | Report r =>
      let '(lns, (s', (err, _))) := handleReload_logged st (se_now ev) (watcher_Config w) r s in
      (lns, [(r, err)], s')
  end.
Fixpoint perform_all (ev : service_event) (w : peerWatcher) (acts : list run_action) (s : server)
    : list line * list note * server :=
  match acts with
  | [] => ([], [], s)
  | a :: acts' =>
      let '(l1, n1, s1) := perform ev w a s in
      let '(l2, n2, s2) := perform_all ev w acts' s1 in (l1 ++ l2, n1 ++ n2, s2)
  end.

Definition service_step (sv : service) (ev : service_event) : option (service * list line * list note) :=
  match sc_returned sv with
  | Some _ => None
  | None =>
      '(n, acts) ← Run_step yaml fs (sc_watcher sv) (se_event ev);
      let '(lns, ns, s') := perform_all ev (next_state n) acts (sc_server sv) in
      Some ({| sc_watcher := next_state n; sc_server := s';
               sc_returned := match n with Continue _ => None | Return _ e => Some e end |}, lns, ns)
  end.
Fixpoint service_run (sv : service) (evs : list service_event) : option (service * list line * list note) :=
  match evs with
  | [] => Some (sv, [], [])
  | ev :: evs' =>
      '(sv1, l1, n1) ← service_step sv ev;
      '(sv2, l2, n2) ← service_run sv1 evs'; Some (sv2, l1 ++ l2, n1 ++ n2)
  end.

(** The server when [Run] starts the watcher, its peers applied to [d]. *)
Definition service_start (now : Z) (cfg : ServerConfig) (w : peerWatcher) (d : wg) (cache : secretCache) : service := {|
  sc_watcher := w; sc_returned := None;
  sc_server := {| sv_cfg := cfg; sv_registry := fst (refreshPeers now (watcher_Config w) empty_registry);
                  sv_cache := cache; sv_dev := Some d |} |}.

(** ** Lemmas: one reload *)

Definition all_applied (ns : list note) : Prop := Forall (λ n, snd n = None) ns.

Lemma handleReload_note now cfg r s lns s' err closed :
  handleReload_logged st now cfg r s = (lns, (s', (err, closed))) →
  handleReload st now cfg r s = (s', (err, closed))
  ∧ (quiet lns = true → rr_Err r = None ∧ err = None).
Proof.
  intros H. rewrite <- handleReload_logged_same, H. split; [done|]. intros Hq.
  unfold handleReload_logged in H. destruct (rr_Err r); [by simplify_eq|].
  destruct (refreshPeers _ _ _). destruct (applyDiff_logged _ _ _ _) as [ls [[e dev] cache]]. simplify_eq.
  rewrite quiet_app in Hq. apply andb_true_iff in Hq as [_ Hq]. by apply quiet_summary in Hq.
Qed.

Lemma pruneSecretCache_ok privateKey ps cache : cache_ok st cache → cache_ok st (pruneSecretCache privateKey ps cache).
Proof. intros H ref sec [E _]%map_lookup_filter_Some. by apply H. Qed.

Lemma next_state_reports w ev n acts :
  Run_step yaml fs w ev = Some (n, acts) →
  match reports acts with
  | [] => w_cur (next_state n) = w_cur w
  | [r] => match rr_Err r with
           | Some _ => w_cur (next_state n) = w_cur w
           | None => rr_Diff r = diffPeers (pc_peers (w_cur w)) (pc_peers (w_cur (next_state n)))
           end
  | _ => False
  end.
Proof.
  intros H. destruct ev as [|name gone| |e| |t1 t2|t0 t1 t2]; cbn [Run_step] in H; try (by injection H as <- <-).
  - destruct (negb _); [|destruct gone]; by injection H as <- <-.
  - destruct (negb _); [done|]. unfold reload, reloadLocked in H. destruct (load _ _ _ _); by injection H as <- <-.
  - destruct (bool_decide _); [unfold reloadLocked in H; destruct (load _ _ _ _)|]; by injection H as <- <-.
Qed.

(** The calls that are not reports do not touch the server. *)
Lemma perform_all_reports ev w acts s lns ns s' :
  perform_all ev w acts s = (lns, ns, s') →
  match reports acts with
  | [] => s' = s ∧ ns = []
  | [r] => ∃ err closed, handleReload st (se_now ev) (w_cur w) r s = (s', (err, closed)) ∧ ns = [(r, err)]
      ∧ (quiet lns = true → rr_Err r = None ∧ err = None)
  | _ => True
  end.
Proof.
  revert s lns ns. induction acts as [|a acts IH]; intros s lns ns H; cbn [perform_all] in H; [by simplify_eq|].
  destruct (perform ev w a s) as [[l1 n1] s1] eqn:E1. destruct (perform_all ev w acts s1) as [[l2 n2] s2] eqn:E2.
  injection H as <- <- <-. specialize (IH _ _ _ E2).
  assert (∀ b, reports (b :: acts) = (match b with Report r => [r] | _ => [] end) ++ reports acts) as Hr by by intros [].
  rewrite Hr. destruct a as [| |e|r]; cbn [perform app] in *; simplify_eq;
    try (destruct (reports acts) as [|r [|]]; [done| |done]; destruct IH as (err & closed & ? & -> & Hq);
         exists err, closed; split_and!; [done|done|]; rewrite quiet_app; intros [_ ?]%andb_true_iff; auto).
  destruct (handleReload_logged _ _ _ _ _) as [lns1 [s' [err closed]]] eqn:E. injection E1 as <- <- <-.
  apply handleReload_note in E as [Hh Hq]. destruct (reports acts) as [|]; [|done]. destruct IH as [-> ->].
  exists err, closed. split_and!; [done|done|]. rewrite quiet_app. intros [? _]%andb_true_iff. auto.
Qed.

(** ** The invariant *)

(** What is assumed of every peers file that loads: no key is in it in two
    spellings, neither in one file nor across two, and none is the server's
    own. *)
Context (abs : gostring) (own : option gostring).
Context (spelled_once : ∀ c1 c2, loaded yaml fs abs c1 → loaded yaml fs abs c2 →
  one_spelling (pc_peers c1 ++ pc_peers c2)).
Context (not_own : ∀ c p v, loaded yaml fs abs c → p ∈ pc_peers c → uv_private_key v = own → not_self p v).

Record synced (sv : service) (applied : Prop) : Prop := {
  sy_path : w_path (sc_watcher sv) = abs;
  sy_loaded : loaded yaml fs abs (w_cur (sc_watcher sv));
  sy_registry : registry_ok (sv_registry (sc_server sv));
  sy_limiters : ∀ ip, is_Some (rg_limiters (sv_registry (sc_server sv)) !! ip)
    ↔ ip ∈ tip <$> pc_peers (w_cur (sc_watcher sv));
  sy_device : is_Some (sv_dev (sc_server sv));
  sy_serves : applied → ∃ d, sv_dev (sc_server sv) = Some d
    ∧ serves st (view d) (pc_peers (w_cur (sc_watcher sv))) ∧ cache_ok st (sv_cache (sc_server sv))
    ∧ uv_private_key (view d) = own
}.

Lemma loaded_wf c : loaded yaml fs abs c →
  keys_distinct (pc_peers c) ∧ NoDup (pr_TunnelIP <$> pc_peers c)
  ∧ Forall (λ p, peer_host (pr_TunnelIP p)) (pc_peers c) ∧ addrs_distinct (pc_peers c).
Proof.
  intros [t (data & raw & _ & _ & _ & HF & _ & Hk & Hi & _)%LoadPeersConfig_spec].
  assert (Forall (λ p, peer_host (pr_TunnelIP p)) (pc_peers c)) as Hh.
  { apply Forall_forall. intros p Hp. destruct (Forall2_elem_l _ _ _ _ HF Hp) as (rp & _ & Hs). apply Hs. }
  split_and!; [done..|]. assert (tip <$> pc_peers c = pr_TunnelIP <$> pc_peers c) as ->; [|done].
  apply list_fmap_ext. intros i p Hp%list_elem_of_lookup_2. apply peer_host_Unmap.
  by eapply (proj1 (Forall_forall _ _) Hh).
Qed.

Lemma handleReload_synced (applied : Prop) now w w' s r s' err closed ret ret' :
  synced {| sc_watcher := w; sc_server := s; sc_returned := ret |} applied →
  w_path w' = abs → loaded yaml fs abs (w_cur w') → rr_Err r = None →
  rr_Diff r = diffPeers (pc_peers (w_cur w)) (pc_peers (w_cur w')) →
  handleReload st now (w_cur w') r s = (s', (err, closed)) →
  synced {| sc_watcher := w'; sc_server := s'; sc_returned := ret' |} (applied ∧ err = None).
Proof.
  intros [Hp Hl Hok Hlim [d Hd] Hs] Hp' Hl' Hr Hdiff H. cbn [sc_watcher sc_server] in *.
  destruct (loaded_wf _ Hl) as (K1 & _ & _ & _), (loaded_wf _ Hl') as (K2 & I2 & H2 & A2).
  unfold handleReload in H. rewrite Hr, Hdiff, Hd in H.
  destruct (refreshPeers now (w_cur w') (sv_registry s)) as [rg cl] eqn:Er.
  destruct (applyDiff st _ (Some d) (sv_cache s)) as [[e dev] cache] eqn:Ea. injection H as <- <- <-.
  apply refreshPeers_spec in Er as (Hok' & _ & Hlim' & _); [|done|done].
  constructor; cbn [sc_watcher sc_server sv_registry sv_dev sv_cache]; [done..| |].
  - unfold applyDiff in Ea. destruct (each_peer _ (Removed _) _), (each_peer _ (Added _) _),
      (each_peer _ (Changed _) _) as [? []]. injection Ea as <- <- <-. done.
  - intros [Happ ->]. destruct (Hs Happ) as (d0 & E & Hse & Hc & Hown). rewrite Hd in E. injection E as <-.
    assert (is_Some dev) as [d' ->].
    { unfold applyDiff in Ea. destruct (each_peer _ (Removed _) _), (each_peer _ (Added _) _),
        (each_peer _ (Changed _) _) as [? []]. injection Ea as _ <- _. done. }
    assert (∀ p, p ∈ pc_peers (w_cur w) ++ pc_peers (w_cur w') → not_self p (view d)) as Hself
      by (intros p [Hin|Hin]%elem_of_app; [exact (not_own _ _ _ Hl Hin Hown)|exact (not_own _ _ _ Hl' Hin Hown)]).
    destruct (applyDiff_serves st _ _ _ _ _ _ K1 K2 I2 H2 (spelled_once _ _ Hl Hl') Hself Hc Hse Ea)
      as (Hse' & Hc' & Hown').
    exists d'. split_and!; [done|done|by apply pruneSecretCache_ok|congruence].
Qed.

Lemma synced_mono sv (P Q : Prop) : (Q → P) → synced sv P → synced sv Q.
Proof. intros HQ []. constructor; auto. Qed.

Lemma service_step_synced applied sv ev sv' lns ns :
  synced sv applied → service_step sv ev = Some (sv', lns, ns) →
  synced sv' (applied ∧ all_applied ns) ∧ (quiet lns = true → all_applied ns ∧ Forall (λ n, rr_Err (fst n) = None) ns).
Proof.
  intros Hs H. unfold service_step in H. destruct (sc_returned sv); [done|].
  apply bind_Some in H as ([n acts] & Hn & H).
  destruct (perform_all ev (next_state n) acts (sc_server sv)) as [[l1 n1] s1] eqn:Ep. injection H as <- <- <-.
  pose proof (next_state_reports _ _ _ _ Hn) as Hcur. apply perform_all_reports in Ep.
  pose proof Hs as [Hp Hl Hok Hlim Hdev Hse].
  assert (w_path (next_state n) = abs ∧ loaded yaml fs abs (w_cur (next_state n))) as [Hp' Hl'].
  { rewrite <- Hp in Hl. apply (Run_step_effect yaml fs) in Hn as [R1 R2 _ _]; [|done].
    rewrite R1, Hp in *. done. }
  assert (w_cur (next_state n) = w_cur (sc_watcher sv) → s1 = sc_server sv →
    synced {| sc_watcher := next_state n; sc_server := s1;
              sc_returned := match n with Continue _ => None | Return _ e => Some e end |} applied) as Hsame.
  { intros E ->. by constructor; cbn [sc_watcher sc_server]; rewrite ?E. }
  destruct (reports acts) as [|r [|]]; [| |done].
  - destruct Ep as [-> ->]. split; [|by intros _; split; constructor]. eapply synced_mono; [|by apply Hsame]. tauto.
  - destruct Ep as (err & closed & Hh & -> & Hq). split.
    2:{ intros Hqq. destruct (Hq Hqq). by split; repeat constructor. }
    destruct (rr_Err r) as [e|] eqn:Er.
    + unfold handleReload in Hh. rewrite Er in Hh. injection Hh as <- <- <-.
      eapply synced_mono; [|by apply Hsame]. tauto.
    + destruct sv as [w s ret]. cbn [sc_watcher sc_server] in *.
      eapply synced_mono; [|by eapply handleReload_synced]. intros [? ?%Forall_inv]. done.
Qed.

Lemma service_run_synced applied sv evs sv' lns ns :
  synced sv applied → service_run sv evs = Some (sv', lns, ns) →
  synced sv' (applied ∧ all_applied ns) ∧ (quiet lns = true → all_applied ns ∧ Forall (λ n, rr_Err (fst n) = None) ns).
Proof.
  revert applied sv lns ns. induction evs as [|ev evs IH]; intros applied sv lns ns Hs H; cbn [service_run] in H.
  { injection H as <- <- <-. split; [|by intros _; split; constructor]. eapply synced_mono; [|exact Hs]. tauto. }
  apply bind_Some in H as ([[sv1 l1] n1] & H1 & H). apply bind_Some in H as ([[sv2 l2] n2] & H2 & [= <- <- <-]).
  destruct (service_step_synced _ _ _ _ _ _ Hs H1) as [Hs1 Hq1]. destruct (IH _ _ _ _ Hs1 H2) as [Hs2 Hq2]. split.
  - eapply synced_mono; [|exact Hs2]. intros [? [? ?]%Forall_app]. done.
  - rewrite quiet_app. intros [A B]%andb_true_iff. destruct (Hq1 A), (Hq2 B). by split; apply Forall_app.
Qed.

Lemma start_synced t1 t2 watch w d0 d cache now :
  newPeerWatcher yaml fs t1 t2 watch abs = Ok w →
  uv_peers (view d0) = ∅ → uv_private_key (view d0) = own →
  apply_initial st (pc_peers (w_cur w)) (d0, ∅) = (None, (d, cache)) →
  ∀ cfg, synced (service_start now cfg w d cache) True.
Proof.
  intros [Hp Hl]%newPeerWatcher_loaded Hnone Hown Ha cfg. destruct (loaded_wf _ Hl) as (K & I & Hh & A).
  destruct (refreshPeers now (w_cur w) empty_registry) as [rg cl] eqn:Er. pose proof Er as Er'.
  apply refreshPeers_spec in Er as (Hok' & _ & Hlim' & _); [|apply registry_ok_empty|done].
  apply apply_initial_serves in Ha as (S & C & O); try done.
  - unfold service_start, watcher_Config. rewrite Er'. constructor; cbn; try done. intros _. exists d.
    split_and!; [done|done|done|congruence].
  - intros p q k Hpin Hqin. apply (spelled_once _ _ Hl Hl); by apply elem_of_app; left.
  - intros p Hin. by apply (not_own _ _ _ Hl Hin).
Qed.

(** ** Properties *)

(** C8: a running server serves the peers file in force.  From a startup that
    put every peer on an empty device, whatever file changes, timers, errors
    and ticks follow: the addresses with a limiter are exactly those of the
    configuration in force, even after a peer could not be applied; and as
    long as every reload reported success the device serves exactly that
    configuration, each peer with its own key and preshared key.  A log with
    no error line is enough to know so.  Assumed of the file: no key in two
    spellings, and none the server's own. *)
Theorem reloads_keep_the_device_in_sync t1 t2 watch w d0 d cache now cfg evs sv lns ns :
  newPeerWatcher yaml fs t1 t2 watch abs = Ok w →
  uv_peers (view d0) = ∅ → uv_private_key (view d0) = own →
  apply_initial st (pc_peers (w_cur w)) (d0, ∅) = (None, (d, cache)) →
  service_run (service_start now cfg w d cache) evs = Some (sv, lns, ns) →
  (∀ ip, is_Some (rg_limiters (sv_registry (sc_server sv)) !! ip)
     ↔ ip ∈ tip <$> pc_peers (w_cur (sc_watcher sv)))
  ∧ (all_applied ns → ∃ d', sv_dev (sc_server sv) = Some d'
       ∧ serves st (view d') (pc_peers (w_cur (sc_watcher sv))))
  ∧ (quiet lns = true → all_applied ns ∧ Forall (λ n, rr_Err (fst n) = None) ns).
Proof.
  intros H1 H2 H3 H4 H. apply (service_run_synced True) in H as [Hs Hq]; [|by eapply start_synced].
  destruct Hs as [_ _ _ Hlim _ Hse]. split_and!; [done| |done].
  intros Hall. destruct Hse as (d' & ? & ? & _); [done|]. by exists d'.
Qed.

End service.

(** ** One peer replaced by another *)

#[local] Existing Instance canonical_range.
#[local] Instance demo_wireguard : WireGuard := plain_device (λ k, reverse k).

Definition swap_raw (name key ip : gostring) : peersYAML := {| py_Peers := [{|
  py_Name := name; py_PublicKey := key; py_PSK := #"env:APP_PSK"; py_TunnelIP := ip;
  py_Limits := {| MaxConcurrent := 4; DialsPerSecond := 0 |}; py_Allow := ∅ |}] |}.
Definition swap_yaml (data : gostring) : yaml_stream peersYAML :=
  one_document (if bool_decide (data = []) then swap_raw (#"app-1") zero_key (#"10.99.0.7")
                else swap_raw (#"app-2") other_key (#"10.99.0.8")) data.
Definition swap_load (t : nat) : result PeersConfig := load swap_yaml demo_fs t demo_path.
Definition swap_config (t : nat) : PeersConfig := from_Ok no_config (swap_load t).

Lemma swap_load_0 : swap_load 0 = Ok (swap_config 0).
Proof. apply from_Ok_eq. by vm_compute. Qed.
Lemma swap_load_5 : swap_load 5 = Ok (swap_config 5).
Proof. apply from_Ok_eq. by vm_compute. Qed.
Lemma swap_loaded c : loaded swap_yaml demo_fs demo_path c → c = swap_config 0 ∨ c = swap_config 5.
Proof.
  intros [t H]. assert (load swap_yaml demo_fs t demo_path = swap_load (if t <? 5 then 0 else 5)) as E.
  { unfold swap_load, load. assert (fs_ReadFile demo_fs t = fs_ReadFile demo_fs (if t <? 5 then 0 else 5)) as ->; [|done].
    unfold demo_fs, fs_ReadFile. by destruct (t <? 5). }
  rewrite E in H. destruct (t <? 5); [left|right].
  - rewrite swap_load_0 in H. by injection H as <-.
  - rewrite swap_load_5 in H. by injection H as <-.
Qed.

Definition swap_w : peerWatcher :=
  from_Ok no_watcher (newPeerWatcher swap_yaml demo_fs 0 0 None demo_path).
Definition swap_started := apply_initial demo_store (pc_peers (w_cur swap_w)) (demo_d0, ∅).
Definition swap_service (cfg : ServerConfig) : service :=
  service_start 0 cfg swap_w (fst (snd swap_started)) (snd (snd swap_started)).
Definition swap_events : list service_event :=
  [ {| se_event := FsEvent demo_path true; se_now := 1; se_add := None |};
    {| se_event := DebounceFired 6 7; se_now := 2; se_add := None |} ].
Definition swap_run := service_run demo_store swap_yaml demo_fs (swap_service ServerConfig_zero) swap_events.

Lemma swap_spelled_once c1 c2 :
  loaded swap_yaml demo_fs demo_path c1 → loaded swap_yaml demo_fs demo_path c2 →
  one_spelling (pc_peers c1 ++ pc_peers c2).
Proof.
  assert (∀ t, t = 0 ∨ t = 5 → ∀ p, p ∈ pc_peers (swap_config t) →
    pr_PublicKey p = (if t <? 5 then zero_key else other_key)) as Hkeys.
  { intros t [-> | ->] p Hp; [assert (pr_PublicKey <$> pc_peers (swap_config 0) = [zero_key]) as E by by vm_compute
      |assert (pr_PublicKey <$> pc_peers (swap_config 5) = [other_key]) as E by by vm_compute];
    apply (list_elem_of_fmap_2 pr_PublicKey) in Hp; rewrite E in Hp; by apply list_elem_of_singleton in Hp. }
  assert (∀ c p, loaded swap_yaml demo_fs demo_path c → p ∈ pc_peers c →
    pr_PublicKey p = zero_key ∨ pr_PublicKey p = other_key) as Hk.
  { intros c p [-> | ->]%swap_loaded Hp; [left; apply (Hkeys 0)|right; apply (Hkeys 5)]; auto. }
  intros H1 H2 p q k Hp Hq.
  assert (pr_PublicKey p = zero_key ∨ pr_PublicKey p = other_key) as Ep
    by (apply elem_of_app in Hp as [Hp|Hp]; [by apply (Hk c1)|by apply (Hk c2)]).
  assert (pr_PublicKey q = zero_key ∨ pr_PublicKey q = other_key) as Eq
    by (apply elem_of_app in Hq as [Hq|Hq]; [by apply (Hk c1)|by apply (Hk c2)]).
  destruct Ep as [-> | ->], Eq as [-> | ->]; intros E1 E2; try reflexivity; exfalso; vm_compute in E1, E2; congruence.
Qed.

(** The departed peer's file is replaced unseen at time 5; the event of an
    earlier save brings it in. *)
Lemma reloads_keep_the_device_in_sync_witness :
  ∃ sv lns ns d', swap_run = Some (sv, lns, ns) ∧ length ns = 1 ∧ sv_dev (sc_server sv) = Some d'
    ∧ serves demo_store (view d') (pc_peers (swap_config 5)).
Proof.
  assert (match swap_run with
          | Some (sv, lns, ns) => quiet lns && bool_decide (length ns = 1)
              && bool_decide (pc_peers (w_cur (sc_watcher sv)) = pc_peers (swap_config 5))
          | None => false end = true) as Hc by by vm_compute.
  destruct swap_run as [[[sv lns] ns]|] eqn:E; [|done].
  apply andb_true_iff in Hc as [[Hq Hlen]%andb_true_iff Hcur]. apply bool_decide_eq_true in Hlen, Hcur.
  destruct (reloads_keep_the_device_in_sync demo_store swap_yaml demo_fs demo_path None
    swap_spelled_once (λ c p v _ _ Hv k _ Ho, ltac:(unfold own_key in Ho; by rewrite Hv in Ho))
    0 0 None swap_w demo_d0 (fst (snd swap_started)) (snd (snd swap_started)) 0 ServerConfig_zero swap_events sv lns ns)
    as (_ & Hs & Hl).
  - apply from_Ok_eq. by vm_compute.
  - reflexivity.
  - reflexivity.
  - apply (split_ok swap_started). by vm_compute.
  - exact E.
  - destruct (Hs (proj1 (Hl Hq))) as (d' & Hd & Hse). rewrite Hcur in Hse. exists sv, lns, ns, d'. by split_and!.
Defined.

End Lifecycle.
