(* ===== verification/Loggers.v ===== *)
(** * What wireguard-go may log ([newDeviceLogger] of [device.go],
      [deviceLogf] of [server.go], [clientDeviceLogf] of [client.go])

    The device reports asynchronously through two functions.  A call of
    either is represented by its text, the format applied to its arguments.
    The level names are wireguard-go's. *)

From S2P Require Import Prelude GoStrings GoSlog.

Module Loggers.

(** [strings.TrimRight(s, "\n")] *)
Fixpoint TrimRight_nl (s : gostring) : gostring :=
  match s with
  | [] => []
  | c :: s' => match TrimRight_nl s' with
               | [] => if bool_decide (c = nl) then [] else [c]
               | t => c :: t
               end
  end.

(** [device.Logger], each function giving what a call writes. *)
Record Logger (O : Type) := { lg_Verbosef : gostring → list O; lg_Errorf : gostring → list O }.
Arguments lg_Verbosef {O} _ _.
Arguments lg_Errorf {O} _ _.
Definition DiscardLogf {O} : gostring → list O := λ _, [].

Section loggers.
Context (LogLevelSilent LogLevelError LogLevelVerbose : Z).
Hypothesis levels_ordered : (LogLevelSilent < LogLevelError < LogLevelVerbose)%Z.

Definition deviceLogSilent : Z := LogLevelSilent.
Definition deviceLogError : Z := LogLevelError.
Definition deviceLogVerbose : Z := LogLevelVerbose.

(** [Printf] is the standard logger, the default. *)
Definition newDeviceLogger {O} (Printf : gostring → list O) (level : Z) (logf : option (gostring → list O)) : Logger O :=
  let logf := default Printf logf in
  {| lg_Verbosef := if (LogLevelVerbose <=? level)%Z then logf else DiscardLogf;
     lg_Errorf := if (LogLevelError <=? level)%Z then logf else DiscardLogf |}.

(** The server's sink, and the client's, which writes text. *)
Definition deviceLogf (text : gostring) : list line :=
  [{| ln_level := Error; ln_msg := #"gocloak: wireguard"; ln_attrs := [(#"message", Text (TrimRight_nl text))] |}].
Definition clientDeviceLogf (text : gostring) : list gostring := [ #"gocloak: wireguard: " ++ TrimRight_nl text].

(** ** Lemmas *)

Lemma TrimRight_nl_spec s :
  (∃ n, s = TrimRight_nl s ++ replicate n nl) ∧ (∀ t, TrimRight_nl s ≠ t ++ [nl]).
Proof.
  induction s as [|c s [[n IH] Hno]]; cbn [TrimRight_nl].
  { split; [by exists 0|]. by intros []. }
  destruct (TrimRight_nl s) as [|d t] eqn:E.
  - case_bool_decide as Hc.
    + split; [exists (S n); cbn in *; by rewrite IH at 1; subst|]. by intros [].
    + split; [exists n; cbn; by rewrite IH at 1|]. intros [|x [|? ?]] H; cbn in H; simplify_eq.
  - split; [exists n; cbn in *; by rewrite IH at 1|]. intros [|x u] H; [done|]. cbn in H.
    injection H as -> H. by apply (Hno u).
Qed.

(** At the level both ends ask for, wireguard-go's verbose calls write nothing
    and each of its errors is one loud line; the line is the text without its
    final newlines, so it is one line of a log exactly when the text has no
    other newline.  Silence writes nothing at all. *)
Theorem device_errors_reach_the_log Printf text :
  let lg := newDeviceLogger Printf deviceLogError (Some deviceLogf) in
  lg_Verbosef lg text = [] ∧ quiet (lg_Errorf lg text) = false
  ∧ (∃ m n, lg_Errorf lg text = deviceLogf text ∧ attr (#"message") (hd (Build_line Info [] []) (lg_Errorf lg text)) = [Text m]
       ∧ text = m ++ replicate n nl ∧ ∀ t, m ≠ t ++ [nl])
  ∧ lg_Errorf (newDeviceLogger Printf deviceLogSilent (Some deviceLogf)) text = []
  ∧ lg_Verbosef (newDeviceLogger Printf deviceLogVerbose (Some deviceLogf)) text = deviceLogf text.
Proof.
  cbn zeta. unfold newDeviceLogger, deviceLogError, deviceLogSilent, deviceLogVerbose. cbn [lg_Verbosef lg_Errorf default].
  rewrite (proj2 (Z.leb_gt LogLevelVerbose LogLevelError)), (proj2 (Z.leb_gt LogLevelError LogLevelSilent)) by lia.
  rewrite !Z.leb_refl. destruct (TrimRight_nl_spec text) as [[n Hn] Hno]. split_and!; [done|done| |done|done].
  exists (TrimRight_nl text), n. by split_and!.
Qed.

End loggers.
End Loggers.
