(* ===== verification/Conn.v ===== *)
(** * Connections against reloads ([handleConn], [refreshPeers],
    [drainConnections] of [server.go])

    Every accepted connection has a goroutine; one more goroutine reloads and,
    at the end, shuts down.  [step] takes the state of all of them by one
    atomic action: one critical section, one I/O result, one deferred call.
    Sequences of events are the interleavings, so what holds of every
    reachable state holds of every schedule. *)

From S2P Require Import Prelude GoStrings GoNetip GoIO Wire Policy Config Limiter Server.
Import Wire Policy Config Limiter Server.

Module Conn.

(** ** Identity and replies *)

Inductive remote_addr :=
  | NilAddr
  | TCPAddr (ip : gostring)
  | OtherAddr (text : gostring).

Definition remoteTunnelIP (ra : remote_addr) : option Addr :=
  match ra with
  | NilAddr => None
  | TCPAddr ip => Unmap <$> AddrFromSlice ip
  | OtherAddr text => (λ ap, Unmap (ap_ip ap)) <$> ParseAddrPort text
  end.

(** [respond]: [deadline] is what [SetWriteDeadline] returns. *)
Definition respond (deadline : option error) (w : writer) (status : byte) : option error * writer :=
  match deadline with
  | Some e => (Some e, w)
  | None => writeHelloResponse w status
  end.

(** ** A handler *)

(** Where [handleConn] is, with its local variables; [pol] is the policy that
    granted the service. *)
Inductive pc :=
  | Accepted                                                  (* before limiterFor *)
  | Admitting (l : nat)                                       (* before acquire *)
  | ReadingHello (l : nat)
  | Resolving (l : nat) (svc : gostring)                      (* before the policy *)
  | Dialing (l : nat) (pol : policy) (svc : gostring) (b : AddrPort)
  | Dialed (l : nat) (pol : policy) (svc : gostring) (b : AddrPort)     (* before track *)
  | Tracked (l : nat) (pol : policy) (svc : gostring) (b : AddrPort)    (* before the re-check *)
  | Orphaned (l : nat) (svc : gostring)                        (* before the explicit untrack *)
  | Checked (l : nat) (pol : policy) (svc : gostring) (b : AddrPort)    (* before statusOK *)
  | Piping (l : nat) (pol : policy) (svc : gostring) (b : AddrPort)
  | Returning                                                 (* running the deferred calls *)
  | Done.

Inductive deferred := WgDone | CloseConn | Release (l : nat) | CloseBackend | Untrack (l : nat).
#[export] Instance deferred_eq_dec : EqDecision deferred.
Proof. solve_decision. Defined.

(** [h_closed]: both connections have been closed from outside. *)
Record handler := {
  h_ip : Addr; h_pc : pc; h_defers : list deferred; h_out : writer; h_closed : bool
}.
Definition at_pc (p : pc) (h : handler) : handler :=
  {| h_ip := h_ip h; h_pc := p; h_defers := h_defers h; h_out := h_out h; h_closed := h_closed h |}.
Definition defer (d : deferred) (h : handler) : handler :=
  {| h_ip := h_ip h; h_pc := h_pc h; h_defers := d :: h_defers h; h_out := h_out h; h_closed := h_closed h |}.
Definition undefer (h : handler) : handler :=
  {| h_ip := h_ip h; h_pc := h_pc h; h_defers := tail (h_defers h); h_out := h_out h; h_closed := h_closed h |}.
Definition wrote (w : writer) (h : handler) : handler :=
  {| h_ip := h_ip h; h_pc := h_pc h; h_defers := h_defers h; h_out := w; h_closed := h_closed h |}.
Definition closed (h : handler) : handler :=
  {| h_ip := h_ip h; h_pc := h_pc h; h_defers := h_defers h; h_out := h_out h; h_closed := true |}.
Definition is_piping (h : handler) : bool := match h_pc h with Piping _ _ _ _ => true | _ => false end.
(** One deferred call has run; the goroutine ends with the last. *)
Definition unwound (h : handler) : handler :=
  match tail (h_defers h) with [] => at_pc Done (undefer h) | _ => undefer h end.

(** Answer, then return. *)
Definition refuse (deadline : option error) (status : byte) (h : handler) : handler :=
  at_pc Returning (wrote (snd (respond deadline (h_out h) status)) h).

(** ** The reloading goroutine, and shutdown *)

Inductive after := BackToServing | ThenWait.
Inductive maint :=
  | Idle
  | Swapped                                         (* policy swapped, refreshPeers not begun *)
  | Closing (conns limiters : list nat) (k : after) (* closing what was drained, then the rest *)
  | Waiting                                         (* s.wg.Wait *)
  | DeviceClosed (drained : bool).

(** [s_canceled]: [Run]'s context is done.  [s_wg]: the counter of [s.wg]. *)
Record system := {
  s_registry : registry; s_config : PeersConfig; s_maint : maint;
  s_handlers : gmap nat handler; s_listening : bool; s_canceled : bool; s_wg : Z
}.
Definition set_handlers (f : gmap nat handler → gmap nat handler) (s : system) : system :=
  {| s_registry := s_registry s; s_config := s_config s; s_maint := s_maint s;
     s_handlers := f (s_handlers s); s_listening := s_listening s;
     s_canceled := s_canceled s; s_wg := s_wg s |}.
Definition set_registry (rg : registry) (s : system) : system :=
  {| s_registry := rg; s_config := s_config s; s_maint := s_maint s;
     s_handlers := s_handlers s; s_listening := s_listening s;
     s_canceled := s_canceled s; s_wg := s_wg s |}.
Definition set_config (cfg : PeersConfig) (s : system) : system :=
  {| s_registry := s_registry s; s_config := cfg; s_maint := s_maint s;
     s_handlers := s_handlers s; s_listening := s_listening s;
     s_canceled := s_canceled s; s_wg := s_wg s |}.
Definition set_maint (m : maint) (s : system) : system :=
  {| s_registry := s_registry s; s_config := s_config s; s_maint := m;
     s_handlers := s_handlers s; s_listening := s_listening s;
     s_canceled := s_canceled s; s_wg := s_wg s |}.
Definition stop_listening (s : system) : system :=
  {| s_registry := s_registry s; s_config := s_config s; s_maint := s_maint s;
     s_handlers := s_handlers s; s_listening := false;
     s_canceled := s_canceled s; s_wg := s_wg s |}.
Definition cancel (s : system) : system :=
  {| s_registry := s_registry s; s_config := s_config s; s_maint := s_maint s;
     s_handlers := s_handlers s; s_listening := s_listening s;
     s_canceled := true; s_wg := s_wg s |}.
(** [wg.Add]; [wg.Done] adds -1. *)
Definition wg_add (n : Z) (s : system) : system :=
  {| s_registry := s_registry s; s_config := s_config s; s_maint := s_maint s;
     s_handlers := s_handlers s; s_listening := s_listening s;
     s_canceled := s_canceled s; s_wg := (s_wg s + n)%Z |}.
Definition put (c : nat) (h : handler) (s : system) : system := set_handlers (<[c := h]>) s.
(** One critical section of the limiter [l]. *)
Definition on_limiter (l : nat) (f : peerLimiter → peerLimiter) (s : system) : system :=
  set_registry {| rg_names := rg_names (s_registry s); rg_limiters := rg_limiters (s_registry s);
                  rg_heap := alter f l (rg_heap (s_registry s)) |} s.

Definition is_done (h : handler) : bool := match h_pc h with Done => true | _ => false end.

(** What happens next, with the results of the I/O it involves. *)
Inductive event :=
  (* the handler of connection c *)
  | Accept (c : nat) (remote : remote_addr) (out : writer)
  | FindLimiter (c : nat)
  | Acquire (c : nat) (fused : bool) (now : Z) (deadline : option error)
  | ReadHello (c : nat) (read_deadline : option error) (r : reader) (deadline : option error)
  | ResolveService (c : nat) (deadline : option error)
  | DialBackend (c : nat) (dial : option error) (deadline : option error)
  | Track (c : nat)
  | Recheck (c : nat)
  | UntrackOrphan (c : nat)
  | RespondOK (c : nat) (deadline : option error) (clear : option error)
  | PipeEnds (c : nat)
  | RunDefer (c : nat)
  (* the reloading goroutine *)
  | Swap (cfg : PeersConfig)
  | Refresh (now : Z)
  | DrainLimiter
  | CloseNext
  | CloseFinished
  (* shutdown *)
  | Shutdown
  | AllReturned
  | DrainTimeout
  (* the context of Run *)
  | Cancel                      (* a signal, a dead watch, or Run's own deferred cancel *)
  | CtxClosesListener           (* the goroutine that unblocks Accept *)
  | CtxCloses (c : nat).        (* the goroutine of c's pipeConns that closes both sides *)

Section step.
Context {RO : GoRange}.

Definition handler_step (s : system) (c : nat) (h : handler) (ev : event) : option system :=
  match ev, h_pc h with
  | FindLimiter _, Accepted =>
      match limiterFor (h_ip h) (s_registry s) with
      | None => Some (put c (at_pc Returning h) s)
      | Some l => Some (put c (at_pc (Admitting l) h) s)
      end
  | Acquire _ fused now deadline, Admitting l =>
      lim ← rg_heap (s_registry s) !! l;
      let '(lim', (_, ok)) := acquire fused now lim in
      let s' := on_limiter l (λ _, lim') s in
      Some (if ok : bool then put c (at_pc (ReadingHello l) (defer (Release l) h)) s'
            else put c (refuse deadline statusRateLimited h) s')
  | ReadHello _ read_deadline r deadline, ReadingHello l =>
      match read_deadline with
      | Some _ => Some (put c (at_pc Returning h) s)
      | None =>
          match fst (readHelloRequest r) with
          | Err e => Some (put c (if errors_Is e errMalformedFrame then refuse deadline statusMalformed h
                                  else at_pc Returning h) s)
          | Ok svc => Some (put c (at_pc (Resolving l svc) h) s)
          end
      end
  | ResolveService _ deadline, Resolving l svc =>
      let pol := pc_policy (s_config s) in
      match Policy.Resolve pol (h_ip h) svc with
      | (b, true) => Some (put c (at_pc (Dialing l pol svc b) h) s)
      | (_, false) => Some (put c (refuse deadline statusDenied h) s)
      end
  | DialBackend _ dial deadline, Dialing l pol svc b =>
      match dial with
      | Some _ => Some (put c (refuse deadline statusBackendUnavailable h) s)
      | None => Some (put c (at_pc (Dialed l pol svc b) (defer CloseBackend h)) s)
      end
  | Track _, Dialed l pol svc b =>
      Some (put c (at_pc (Tracked l pol svc b) h) (on_limiter l (track c) s))
  | Recheck _, Tracked l pol svc b =>
      if bool_decide (limiterFor (h_ip h) (s_registry s) = Some l)
      then Some (put c (at_pc (Checked l pol svc b) (defer (Untrack l) h)) s)
      else Some (put c (at_pc (Orphaned l svc) h) s)
  | UntrackOrphan _, Orphaned l _ =>
      Some (put c (at_pc Returning h) (on_limiter l (untrack c) s))
  | RespondOK _ deadline clear, Checked l pol svc b =>
      let '(err, w) := respond deadline (h_out h) statusOK in
      let h' := wrote w h in
      match err, clear with
      | None, None => Some (put c (at_pc (Piping l pol svc b) h') s)
      | _, _ => Some (put c (at_pc Returning h') s)
      end
  | PipeEnds _, Piping _ _ _ _ => Some (put c (at_pc Returning (closed h)) s)
  | RunDefer _, Returning =>
      match h_defers h with
      | [] => Some (put c (at_pc Done h) s)
      | Release l :: _ => Some (put c (unwound h) (on_limiter l release s))
      | Untrack l :: _ => Some (put c (unwound h) (on_limiter l (untrack c) s))
      | (CloseConn | CloseBackend) :: _ => Some (put c (unwound h) s)
      | WgDone :: _ => Some (put c (unwound h) (wg_add (-1) s))
      end
  | _, _ => None
  end.

Definition event_conn (ev : event) : option nat :=
  match ev with
  | FindLimiter c | Acquire c _ _ _ | ReadHello c _ _ _ | ResolveService c _ | DialBackend c _ _
  | Track c | Recheck c | UntrackOrphan c | RespondOK c _ _ | PipeEnds c | RunDefer c => Some c
  | _ => None
  end.

Definition step (s : system) (ev : event) : option system :=
  match ev, s_maint s with
  | Accept c remote out, _ =>
      if s_listening s then
        match s_handlers s !! c with
        | Some _ => None
        | None =>
            let start ip p := {| h_ip := ip; h_pc := p; h_defers := [CloseConn; WgDone];
                                 h_out := out; h_closed := false |} in
            match remoteTunnelIP remote with
            | None => Some (put c (start AddrNone Returning) (wg_add 1 s))
            | Some ip => Some (put c (start ip Accepted) (wg_add 1 s))
            end
        end
      else None
  | Swap cfg, Idle =>
      Some (set_maint Swapped (set_config cfg s))
  | Refresh now, Swapped =>
      let '(rg, gone) := refresh_maps now (pc_peers (s_config s)) (s_registry s) in
      Some (set_maint (Closing [] gone BackToServing) (set_registry rg s))
  | DrainLimiter, Closing [] (l :: ls) k =>
      let '(rg, conns) := close_limiter l (s_registry s) in
      Some (set_maint (Closing conns ls k) (set_registry rg s))
  | CloseNext, Closing (c :: conns) ls k =>
      Some (set_maint (Closing conns ls k) (set_handlers (alter closed c) s))
  | CloseFinished, Closing [] [] k =>
      Some (set_maint (match k with BackToServing => Idle | ThenWait => Waiting end) s)
  | Shutdown, Idle =>
      if s_canceled s
      then Some (set_maint (Closing [] (snd <$> go_range (rg_limiters (s_registry s))) ThenWait) (stop_listening s))
      else None
  | AllReturned, Waiting => if (s_wg s =? 0)%Z then Some (set_maint (DeviceClosed true) s) else None
  | DrainTimeout, Waiting => Some (set_maint (DeviceClosed false) s)
  | Cancel, _ => if s_canceled s then None else Some (cancel s)
  | CtxClosesListener, _ => if s_canceled s && s_listening s then Some (stop_listening s) else None
  | CtxCloses c, _ =>
      h ← s_handlers s !! c;
      if s_canceled s && is_piping h && negb (h_closed h) then Some (put c (closed h) s) else None
  | _, _ =>
      c ← event_conn ev;
      h ← s_handlers s !! c;
      handler_step s c h ev
  end.

(** The configurations the watcher swaps in have passed [LoadPeersConfig], of
    which only the distinct addresses matter here ([ConnReload.loaded_event_ok]): what
    follows holds of any sequence of them, and what it says of the policy or
    the peers "in force" names the configurations of the very run it is about
    ([in_force]).  Nothing was written yet to a connection just accepted. *)
Definition event_ok (ev : event) : Prop :=
  match ev with
  | Swap cfg => addrs_distinct (pc_peers cfg)
  | Accept _ _ out => w_out out = []          (* a new connection *)
  | _ => True
  end.

(** The server once startup has built its first maps. *)
Definition initial (now : Z) (cfg : PeersConfig) : system :=
  {| s_registry := fst (refreshPeers now cfg empty_registry); s_config := cfg; s_maint := Idle;
     s_handlers := ∅; s_listening := true; s_canceled := false; s_wg := 0 |}.

Inductive reachable (now : Z) (cfg : PeersConfig) : system → Prop :=
  | reach_init : reachable now cfg (initial now cfg)
  | reach_step s ev s' :
      reachable now cfg s → event_ok ev → step s ev = Some s' → reachable now cfg s'.

End step.
(** ** The invariant *)

(** The limiter a connection is registered with, from [track] on, and from
    the re-check on. *)
Definition tracked_at (h : handler) : option nat :=
  match h_pc h with Tracked l _ _ _ | Checked l _ _ _ | Piping l _ _ _ => Some l | _ => None end.
Definition proxying (h : handler) : option nat :=
  match h_pc h with Checked l _ _ _ | Piping l _ _ _ => Some l | _ => None end.

(** The deferred calls a handler has pending at each point. *)
Definition pending_defers (p : pc) : option (list deferred) :=
  match p with
  | Accepted | Admitting _ => Some [CloseConn; WgDone]
  | ReadingHello l | Resolving l _ | Dialing l _ _ _ => Some [Release l; CloseConn; WgDone]
  | Dialed l _ _ _ | Tracked l _ _ _ | Orphaned l _ => Some [CloseBackend; Release l; CloseConn; WgDone]
  | Checked l _ _ _ | Piping l _ _ _ => Some [Untrack l; CloseBackend; Release l; CloseConn; WgDone]
  | Returning => None
  | Done => Some []
  end.
Definition shape (h : handler) : Prop :=
  NoDup (h_defers h) ∧
  match pending_defers (h_pc h) with Some ds => h_defers h = ds | None => last (h_defers h) = Some WgDone end.

(** The limiters a handler refers to. *)
Definition uses (l : nat) (h : handler) : Prop :=
  h_pc h = Admitting l ∨ Release l ∈ h_defers h ∨ Untrack l ∈ h_defers h.

Definition holds (l : nat) (h : handler) : bool := bool_decide (Release l ∈ h_defers h).
(** How many connections have the property [f]. *)
Definition count (f : handler → bool) (hs : gmap nat handler) : nat := size (filter (λ e, f (snd e) = true) hs).
(** Those that hold a slot of [l], and those that have not returned. *)
Definition holders (l : nat) (hs : gmap nat handler) : nat := count (holds l) hs.
Definition running (hs : gmap nat handler) : nat := count (λ h, negb (is_done h)) hs.

Definition closing_conns (m : maint) : list nat := match m with Closing cs _ _ => cs | _ => [] end.
Definition closing_limiters (m : maint) : list nat := match m with Closing _ ls _ => ls | _ => [] end.

(** The maps are those of the configuration in force. *)
Definition matches_config (rg : registry) (cfg : PeersConfig) : Prop :=
  ∀ ip l, rg_limiters rg !! ip = Some l → ∃ p lim, p ∈ pc_peers cfg ∧ tip p = ip
    ∧ rg_heap rg !! l = Some lim ∧ l_publicKey lim = pr_PublicKey p.

Record inv (s : system) : Prop := {
  i_ok : registry_ok (s_registry s);
  i_wf : addrs_distinct (pc_peers (s_config s));
  i_shape : ∀ c h, s_handlers s !! c = Some h → shape h;
  i_uses : ∀ c h l, s_handlers s !! c = Some h → uses l h → is_Some (rg_heap (s_registry s) !! l);
  i_tracked : ∀ c h l, s_handlers s !! c = Some h → tracked_at h = Some l →
    h_closed h = true ∨ c ∈ closing_conns (s_maint s)
    ∨ ∃ lim, rg_heap (s_registry s) !! l = Some lim ∧ c ∈ l_live lim;
  i_force : ∀ c h l, s_handlers s !! c = Some h → proxying h = Some l →
    h_closed h = true ∨ c ∈ closing_conns (s_maint s)
    ∨ rg_limiters (s_registry s) !! Unmap (h_ip h) = Some l ∨ l ∈ closing_limiters (s_maint s);
  i_match : s_maint s ≠ Swapped → matches_config (s_registry s) (s_config s);
  i_count : ∀ l lim, rg_heap (s_registry s) !! l = Some lim →
    l_active lim = Z.of_nat (holders l (s_handlers s))
}.

(** ** Lemmas: counting *)

Definition counted (f : handler → bool) (h : handler) : Z := if f h then 1 else 0.
Definition held (l : nat) (h : handler) : Z := if holds l h then 1 else 0.

Lemma count_insert_new f c h hs :
  hs !! c = None → Z.of_nat (count f (<[c := h]> hs)) = (Z.of_nat (count f hs) + counted f h)%Z.
Proof.
  intros Hc. unfold count, counted.
  assert (filter (λ e, f (snd e) = true) hs !! c = None) as Hf.
  { apply map_lookup_filter_None. by left. }
  destruct (f h) eqn:E.
  - rewrite map_filter_insert_True by done. rewrite map_size_insert_None by done. lia.
  - rewrite map_filter_insert_False by (simpl; congruence). rewrite delete_id by done. lia.
Qed.

Lemma count_insert f c h h' hs :
  hs !! c = Some h →
  (Z.of_nat (count f (<[c := h']> hs)) + counted f h = Z.of_nat (count f hs) + counted f h')%Z.
Proof.
  intros Hc. rewrite <- (insert_delete_id hs c h) at 2 by done. rewrite <- insert_delete_eq.
  rewrite !count_insert_new by apply lookup_delete_eq. lia.
Qed.

Lemma holders_insert_new l c h hs :
  hs !! c = None → Z.of_nat (holders l (<[c := h]> hs)) = (Z.of_nat (holders l hs) + held l h)%Z.
Proof. apply (count_insert_new (holds l)). Qed.

Lemma holders_insert l c h h' hs :
  hs !! c = Some h →
  (Z.of_nat (holders l (<[c := h']> hs)) + held l h = Z.of_nat (holders l hs) + held l h')%Z.
Proof. apply (count_insert (holds l)). Qed.

Lemma count_closed f c hs : (∀ h, f (closed h) = f h) → count f (alter closed c hs) = count f hs.
Proof.
  intros Hf. destruct (hs !! c) as [h|] eqn:E; [|by rewrite alter_id by (intros; congruence)].
  rewrite <- (insert_id _ _ _ E) at 1. rewrite alter_insert_eq. pose proof (count_insert f c h (closed h) _ E) as H.
  unfold counted in H. rewrite Hf in H. lia.
Qed.

Lemma count_empty f : count f ∅ = 0.
Proof. unfold count. by rewrite map_filter_empty, map_size_empty. Qed.

Lemma holders_empty l : holders l ∅ = 0.
Proof. apply count_empty. Qed.

Lemma count_none f hs : count f hs = 0 ↔ ∀ c h, hs !! c = Some h → f h = false.
Proof.
  unfold count. rewrite map_size_empty_iff, map_empty_filter. unfold map_Forall. cbn. split; intros H c h E.
  - apply not_true_iff_false. by apply (H c h).
  - rewrite (H c h E). done.
Qed.

(** ** Lemmas: one action of a handler *)

(** What an action of the handler of [c] may do to the limiters. *)
Definition limiters_step (c : nat) (h h' : handler) (rg rg' : registry) : Prop :=
  rg_names rg' = rg_names rg ∧ rg_limiters rg' = rg_limiters rg
  ∧ (∀ l lim, rg_heap rg !! l = Some lim → ∃ lim', rg_heap rg' !! l = Some lim'
       ∧ l_publicKey lim' = l_publicKey lim
       ∧ (∀ c', c' ≠ c → c' ∈ l_live lim → c' ∈ l_live lim')
       ∧ l_active lim' = (l_active lim + held l h' - held l h)%Z)
  ∧ ∀ l, rg_heap rg !! l = None → rg_heap rg' !! l = None.

Lemma inv_handler s c h h' rg' :
  inv s → s_handlers s !! c = Some h → limiters_step c h h' (s_registry s) rg' →
  shape h' → (∀ l, uses l h' → uses l h ∨ is_Some (rg_heap (s_registry s) !! l)) →
  (∀ l, tracked_at h' = Some l → h_closed h' = true ∨ c ∈ closing_conns (s_maint s)
     ∨ ∃ lim, rg_heap rg' !! l = Some lim ∧ c ∈ l_live lim) →
  (∀ l, proxying h' = Some l → h_closed h' = true ∨ c ∈ closing_conns (s_maint s)
     ∨ rg_limiters (s_registry s) !! Unmap (h_ip h') = Some l ∨ l ∈ closing_limiters (s_maint s)) →
  inv (put c h' (set_registry rg' s)).
Proof.
  intros [Iok Iwf Ish Iu It If Im Ic] Hc (Hn & Hl & Hh & Hnone) Hsh Huse Htr Hpr.
  assert (∀ l, is_Some (rg_heap (s_registry s) !! l) → is_Some (rg_heap rg' !! l)) as Hsome.
  { intros l [lim E]. destruct (Hh l lim E) as (lim' & -> & _). done. }
  constructor; cbn [s_registry s_config s_maint s_handlers s_listening put set_handlers set_registry].
  - constructor; rewrite Hl; [apply Iok|]. intros a l E. by eapply Hsome, (rk_heap _ Iok).
  - done.
  - intros c0 h0 [[<- <-]|[Hne E]]%lookup_insert_Some; [done|by eapply Ish].
  - intros c0 h0 l [[<- <-]|[Hne E]]%lookup_insert_Some Hu; apply Hsome; [|by eapply Iu].
    destruct (Huse l Hu) as [Hu'|]; [by eapply Iu|done].
  - intros c0 h0 l [[<- <-]|[Hne E]]%lookup_insert_Some Ht; [by apply Htr|].
    destruct (It c0 h0 l E Ht) as [?|[?|(lim & El & Hin)]]; [by left|by right; left|right; right].
    destruct (Hh l lim El) as (lim' & E' & _ & Hlive & _). exists lim'. split; [done|].
    apply Hlive; [by apply not_eq_sym|done].
  - intros c0 h0 l [[<- <-]|[Hne E]]%lookup_insert_Some Hp; rewrite Hl; [by apply Hpr|by eapply If].
  - intros Hm ip l. rewrite Hl. intros E. destruct (Im Hm ip l E) as (p & lim & Hp & Ht & El & Hk).
    destruct (Hh l lim El) as (lim' & E' & Hk' & _). exists p, lim'. split_and!; [done|done|done|congruence].
  - intros l lim' E'. destruct (rg_heap (s_registry s) !! l) as [lim|] eqn:El.
    + destruct (Hh l lim El) as (lim2 & E2 & _ & _ & Ha). rewrite E' in E2. injection E2 as <-.
      rewrite Ha, (Ic l lim El). pose proof (holders_insert l c h h' _ Hc). lia.
    + rewrite (Hnone l El) in E'. done.
Qed.

Lemma limiters_step_same c h h' rg :
  (∀ l, holds l h' = holds l h) → limiters_step c h h' rg rg.
Proof.
  intros H. split_and!; [done|done| |done]. intros l lim E. exists lim. unfold held. rewrite H.
  split_and!; [done|done|done|lia].
Qed.

Definition with_heap (f : gmap nat peerLimiter → gmap nat peerLimiter) (rg : registry) : registry :=
  {| rg_names := rg_names rg; rg_limiters := rg_limiters rg; rg_heap := f (rg_heap rg) |}.

(** An action on one limiter. *)
Lemma limiters_step_on c h h' rg l f :
  (∀ l', l' ≠ l → holds l' h' = holds l' h) →
  (∀ lim, rg_heap rg !! l = Some lim →
     l_publicKey (f lim) = l_publicKey lim
     ∧ (∀ c', c' ≠ c → c' ∈ l_live lim → c' ∈ l_live (f lim))
     ∧ l_active (f lim) = (l_active lim + held l h' - held l h)%Z) →
  limiters_step c h h' rg (with_heap (alter f l) rg).
Proof.
  intros Ho Hf. split_and!; [done|done| |]; intros l0; simpl.
  - intros lim E. destruct (decide (l0 = l)) as [->|Hne].
    + exists (f lim). rewrite lookup_alter_eq, E. split; [done|]. by apply Hf.
    + exists lim. rewrite lookup_alter_ne by done. unfold held. rewrite Ho by done.
      split_and!; [done|done|done|lia].
  - intros E. destruct (decide (l0 = l)) as [->|Hne]; [by rewrite lookup_alter_eq, E|].
    by rewrite lookup_alter_ne.
Qed.

Lemma put_same c h s : put c h s = put c h (set_registry (s_registry s) s).
Proof. by destruct s. Qed.

(** An action that touches no limiter and moves to [p] with the deferred
    calls [ds]: nothing to show but where it may go. *)
Lemma inv_move s c h h' :
  inv s → s_handlers s !! c = Some h →
  (∀ l, Release l ∈ h_defers h' ↔ Release l ∈ h_defers h) → shape h' →
  (∀ l, uses l h' → uses l h ∨ is_Some (rg_heap (s_registry s) !! l)) →
  (tracked_at h' = None ∨ (h_closed h' = h_closed h ∧ tracked_at h' = tracked_at h)) →
  (∀ l, proxying h' = Some l → h_closed h' = true ∨ c ∈ closing_conns (s_maint s)
     ∨ rg_limiters (s_registry s) !! Unmap (h_ip h') = Some l ∨ l ∈ closing_limiters (s_maint s)) →
  inv (put c h' s).
Proof.
  intros Hinv Hc Hrel Hsh Hu Ht Hp. rewrite put_same. eapply inv_handler; try done.
  - apply limiters_step_same. intros l. unfold holds. by apply bool_decide_ext.
  - intros l Hl. destruct Ht as [Ht|[Hcl Ht]]; [congruence|]. rewrite Hcl.
    apply (i_tracked _ Hinv c h); [done|congruence].
Qed.

Lemma proxying_tracked h l : proxying h = Some l → tracked_at h = Some l.
Proof. unfold proxying, tracked_at. by destruct (h_pc h). Qed.

Lemma shape_last h : shape h → h_pc h ≠ Done → last (h_defers h) = Some WgDone.
Proof. intros [_ H] Hd. by destruct (h_pc h); cbn in H; rewrite ?H. Qed.

(** Giving up: the handler returns, whatever it wrote. *)
Lemma inv_return s c h h' :
  inv s → s_handlers s !! c = Some h → h_pc h ≠ Done → h_pc h' = Returning → h_defers h' = h_defers h →
  inv (put c h' s).
Proof.
  intros Hinv Hc Hnd Hpc Hd. pose proof (i_shape _ Hinv c h Hc) as Hsh. eapply inv_move; try done.
  - by rewrite Hd.
  - unfold shape. rewrite Hpc, Hd. split; [by apply Hsh|by apply shape_last].
  - intros l. unfold uses. rewrite Hpc, Hd. intros [?|[?|?]]; [done|left; by right; left|left; by right; right].
  - left. unfold tracked_at. by rewrite Hpc.
  - intros l. unfold proxying. by rewrite Hpc.
Qed.

(** Going on with the same deferred calls, before [track]. *)
Lemma inv_advance s c h p :
  inv s → s_handlers s !! c = Some h → pending_defers p = pending_defers (h_pc h) → pending_defers p ≠ None →
  (∀ l, p = Admitting l → is_Some (rg_heap (s_registry s) !! l)) →
  tracked_at (at_pc p h) = None → inv (put c (at_pc p h) s).
Proof.
  intros Hinv Hc Hpd Hsome Hadm Ht. pose proof (i_shape _ Hinv c h Hc) as [Hnd Hs].
  eapply inv_move; try done.
  - unfold shape. simpl. split; [done|]. rewrite Hpd. done.
  - intros l. unfold uses. simpl. intros [->|[?|?]]; [right; by apply Hadm|left; by right; left|left; by right; right].
  - by left.
  - intros l Hp. apply proxying_tracked in Hp. congruence.
Qed.

Lemma shape_defers h ds : shape h → pending_defers (h_pc h) = Some ds → h_defers h = ds.
Proof. intros [_ H] E. by rewrite E in H. Qed.

Lemma release_active p : l_active p = 0%Z ∨ l_active (release p) = (l_active p - 1)%Z ∨ (l_active p < 0)%Z.
Proof. unfold release. destruct (0 <? l_active p)%Z eqn:E; bool_props; simpl; lia. Qed.

Lemma acquire_fields fused now p p' reason ok :
  acquire fused now p = (p', (reason, ok)) →
  l_publicKey p' = l_publicKey p ∧ l_live p' = l_live p
  ∧ l_active p' = (l_active p + (if ok then 1 else 0))%Z.
Proof.
  unfold acquire. destruct (refill_same fused now p) as (_ & _ & Ea & _ & El & Ek).
  destruct (GoFloat.flt _ _); [intros [= <- <- <-]; rewrite Ea, El, Ek; split_and!; [done|done|lia]|].
  cbn [l_maxConcurrent l_active set_tokens].
  destruct (_ <=? _)%Z; intros [= <- <- <-]; simpl; rewrite Ea, El, Ek; split_and!; (done || lia).
Qed.

(** ** Every action of a handler preserves the invariant *)

Section handler_facts.
Context {RO : GoRange}.

Lemma step_FindLimiter s c h :
  inv s → s_handlers s !! c = Some h → h_pc h = Accepted →
  ∀ s', handler_step s c h (FindLimiter c) = Some s' → inv s'.
Proof.
  intros Hinv Hc Hpc s' H. cbn [handler_step] in H. rewrite Hpc in H.
  destruct (limiterFor _ _) as [l|] eqn:El; injection H as <-.
  - apply inv_advance; [done|done|by rewrite Hpc|done| |done].
    intros l' [= ->]. by eapply (rk_heap _ (i_ok _ Hinv)).
  - by (apply (inv_return s c h); rewrite ?Hpc).
Qed.

Lemma step_Acquire s c h l fused now dl :
  inv s → s_handlers s !! c = Some h → h_pc h = Admitting l →
  ∀ s', handler_step s c h (Acquire c fused now dl) = Some s' → inv s'.
Proof.
  intros Hinv Hc Hpc s' H. cbn [handler_step] in H. rewrite Hpc in H.
  apply bind_Some in H as (lim & El & H). pose proof (i_shape _ Hinv c h Hc) as Hsh.
  assert (h_defers h = [CloseConn; WgDone]) as Hd by (eapply shape_defers; [done|by rewrite Hpc]).
  destruct (acquire fused now lim) as [lim' [reason ok]] eqn:Ea.
  apply acquire_fields in Ea as (Hk & Hlive & Hact). injection H as <-.
  assert (∀ h', (∀ l', l' ≠ l → holds l' h' = holds l' h) →
    held l h' = (if ok then 1 else 0)%Z →
    limiters_step c h h' (s_registry s) (with_heap (alter (λ _, lim') l) (s_registry s))) as Hst.
  { intros h' Ho Hh'. apply limiters_step_on; [done|]. intros lim0 E0.
    assert (lim0 = lim) as -> by congruence. rewrite Hk, Hlive, Hact, Hh'.
    split_and!; [done|done|]. unfold held, holds. rewrite Hd.
    rewrite bool_decide_false by set_solver. lia. }
  destruct ok.
  - apply (inv_handler s c h _ (with_heap (alter (λ _, lim') l) (s_registry s))); [done|done| | | | |].
    + apply Hst; [|unfold held, holds; simpl; by rewrite bool_decide_true by by left].
      intros l' Hne. unfold holds. apply bool_decide_ext. simpl. set_solver.
    + split; simpl; rewrite Hd; [|done]. repeat constructor; set_solver.
    + intros l' [Hx|[Hx|Hx]]; simpl in Hx; [done| |]; rewrite Hd in Hx; right;
        (assert (l' = l) as -> by set_solver; by rewrite El).
    + done.
    + done.
  - apply (inv_handler s c h _ (with_heap (alter (λ _, lim') l) (s_registry s))); [done|done| | | | |].
    + apply Hst; [done|]. unfold held, holds. simpl. rewrite Hd. by rewrite bool_decide_false by set_solver.
    + split; [by apply Hsh|]. cbn. by rewrite Hd.
    + intros l' [Hx|[Hx|Hx]]; simpl in Hx; [done|left; by right; left|left; by right; right].
    + done.
    + done.
Qed.

Lemma step_ReadHello s c h l rd r dl :
  inv s → s_handlers s !! c = Some h → h_pc h = ReadingHello l →
  ∀ s', handler_step s c h (ReadHello c rd r dl) = Some s' → inv s'.
Proof.
  intros Hinv Hc Hpc s' H. cbn [handler_step] in H. rewrite Hpc in H.
  destruct rd; [injection H as <-; by (apply (inv_return s c h); rewrite ?Hpc)|].
  destruct (fst (readHelloRequest r)) as [svc|e]; injection H as <-.
  - apply inv_advance; [done|done|by rewrite Hpc|done|done|done].
  - destruct (errors_Is e _); by (apply (inv_return s c h); rewrite ?Hpc).
Qed.

Lemma step_ResolveService s c h l svc dl :
  inv s → s_handlers s !! c = Some h → h_pc h = Resolving l svc →
  ∀ s', handler_step s c h (ResolveService c dl) = Some s' → inv s'.
Proof.
  intros Hinv Hc Hpc s' H. cbn [handler_step] in H. rewrite Hpc in H.
  destruct (Policy.Resolve _ _ _) as [b []]; injection H as <-.
  - apply inv_advance; [done|done|by rewrite Hpc|done|done|done].
  - by (apply (inv_return s c h); rewrite ?Hpc).
Qed.

Lemma step_DialBackend s c h l pol svc b dial dl :
  inv s → s_handlers s !! c = Some h → h_pc h = Dialing l pol svc b →
  ∀ s', handler_step s c h (DialBackend c dial dl) = Some s' → inv s'.
Proof.
  intros Hinv Hc Hpc s' H. cbn [handler_step] in H. rewrite Hpc in H.
  destruct dial; injection H as <-; [by (apply (inv_return s c h); rewrite ?Hpc)|].
  assert (h_defers h = [Release l; CloseConn; WgDone]) as Hd
    by (eapply shape_defers; [by eapply i_shape|by rewrite Hpc]).
  eapply inv_move; [done|done| | | |by left|done].
  - intros l'. simpl. set_solver.
  - split; simpl; rewrite Hd; [repeat constructor; set_solver|done].
  - intros l' [Hx|[Hx|Hx]]; simpl in Hx; [done| |]; left; right; set_solver.
Qed.

Lemma step_Track s c h l pol svc b :
  inv s → s_handlers s !! c = Some h → h_pc h = Dialed l pol svc b →
  ∀ s', handler_step s c h (Track c) = Some s' → inv s'.
Proof.
  intros Hinv Hc Hpc s' H. cbn [handler_step] in H. rewrite Hpc in H. injection H as <-.
  assert (h_defers h = [CloseBackend; Release l; CloseConn; WgDone]) as Hd
    by (eapply shape_defers; [by eapply i_shape|by rewrite Hpc]).
  destruct (i_uses _ Hinv c h l Hc) as [lim El]; [right; left; rewrite Hd; set_solver|].
  apply (inv_handler s c h _ (with_heap (alter (track c) l) (s_registry s))); [done|done| | | | |done].
  - apply limiters_step_on; [done|]. intros lim0 _. split_and!; [done| |unfold held, holds; simpl; lia].
    intros c' _ Hin. simpl. set_solver.
  - by destruct (i_shape _ Hinv c h Hc); split; [|].
  - intros l' [Hx|[Hx|Hx]]; simpl in Hx; [done| |]; left; right; auto.
  - intros l' [= <-]. right. right. exists (track c lim). simpl. rewrite lookup_alter_eq, El.
    split; [done|set_solver].
Qed.

Lemma step_Recheck s c h l pol svc b :
  inv s → s_handlers s !! c = Some h → h_pc h = Tracked l pol svc b →
  ∀ s', handler_step s c h (Recheck c) = Some s' → inv s'.
Proof.
  intros Hinv Hc Hpc s' H. cbn [handler_step] in H. rewrite Hpc in H.
  assert (h_defers h = [CloseBackend; Release l; CloseConn; WgDone]) as Hd
    by (eapply shape_defers; [by eapply i_shape|by rewrite Hpc]).
  case_bool_decide as Hf; injection H as <-.
  - eapply inv_move; [done|done| | | | |].
    + intros l'. simpl. set_solver.
    + split; simpl; rewrite Hd; [repeat constructor; set_solver|done].
    + intros l' [Hx|[Hx|Hx]]; simpl in Hx; [done| |].
      * left. right. left. set_solver.
      * rewrite Hd in Hx. right. assert (l' = l) as -> by set_solver.
        apply (i_uses _ Hinv c h l Hc). right. left. rewrite Hd. set_solver.
    + right. split; [done|]. unfold tracked_at. by rewrite Hpc.
    + intros l' [= <-]. right. right. left. done.
  - eapply inv_move; [done|done|done| | |by left|done].
    + destruct (i_shape _ Hinv c h Hc). by split.
    + intros l' [Hx|[Hx|Hx]]; simpl in Hx; [done| |]; left; right; auto.
Qed.

Lemma step_UntrackOrphan s c h l svc :
  inv s → s_handlers s !! c = Some h → h_pc h = Orphaned l svc →
  ∀ s', handler_step s c h (UntrackOrphan c) = Some s' → inv s'.
Proof.
  intros Hinv Hc Hpc s' H. cbn [handler_step] in H. rewrite Hpc in H. injection H as <-.
  apply (inv_handler s c h _ (with_heap (alter (untrack c) l) (s_registry s))); [done|done| | | |done|done].
  - apply limiters_step_on; [done|]. intros lim0 _. split_and!; [done| |unfold held, holds; simpl; lia].
    intros c' Hne Hin. simpl. set_solver.
  - pose proof (i_shape _ Hinv c h Hc) as Hsh. split; [by apply Hsh|]. cbn. apply shape_last; [done|by rewrite Hpc].
  - intros l' [Hx|[Hx|Hx]]; simpl in Hx; [done| |]; left; right; auto.
Qed.

Lemma step_RespondOK s c h l pol svc b dl cl :
  inv s → s_handlers s !! c = Some h → h_pc h = Checked l pol svc b →
  ∀ s', handler_step s c h (RespondOK c dl cl) = Some s' → inv s'.
Proof.
  intros Hinv Hc Hpc s' H. cbn [handler_step] in H. rewrite Hpc in H.
  destruct (respond dl (h_out h) statusOK) as [err w].
  assert (inv (put c (at_pc Returning (wrote w h)) s)) as Hret by by (apply (inv_return s c h); rewrite ?Hpc).
  destruct err, cl; injection H as <-; try done.
  eapply inv_move; [done|done|done| | | |].
  - destruct (i_shape _ Hinv c h Hc) as [Hnd Hs]. rewrite Hpc in Hs. by split.
  - intros l' [Hx|[Hx|Hx]]; simpl in Hx; [done| |]; left; right; auto.
  - right. split; [done|]. unfold tracked_at. by rewrite Hpc.
  - intros l' [= <-]. apply (i_force _ Hinv c h l Hc). unfold proxying. by rewrite Hpc.
Qed.

Lemma holders_pos c h l hs : hs !! c = Some h → Release l ∈ h_defers h → 0 < holders l hs.
Proof.
  intros Hc Hin. pose proof (holders_insert_new l c h (delete c hs) (lookup_delete_eq hs c)) as H.
  rewrite insert_delete_id in H by done. unfold held, holds in H. rewrite bool_decide_true in H by done. lia.
Qed.

Lemma unwound_fields h : h_defers (unwound h) = tail (h_defers h) ∧ h_ip (unwound h) = h_ip h
  ∧ h_out (unwound h) = h_out h ∧ h_closed (unwound h) = h_closed h
  ∧ h_pc (unwound h) = match tail (h_defers h) with [] => Done | _ => h_pc h end.
Proof. unfold unwound. by destruct (tail (h_defers h)) eqn:E; cbn; rewrite E. Qed.

Lemma unwound_pc h : h_pc h = Returning → h_pc (unwound h) = Returning ∨ h_pc (unwound h) = Done.
Proof. intros Hpc. rewrite (proj2 (proj2 (proj2 (proj2 (unwound_fields h))))), Hpc. destruct (tail _); auto. Qed.

Lemma unwound_shape h d ds : shape h → h_pc h = Returning → h_defers h = d :: ds → shape (unwound h).
Proof.
  intros Hsh Hpc Hd. pose proof (shape_last h Hsh) as Hl. destruct Hsh as [Hnd _].
  destruct (unwound_fields h) as (E1 & _ & _ & _ & E2). rewrite Hpc, Hd in *. cbn in E1, E2.
  split; rewrite E1; [by inversion Hnd|]. rewrite E2. destruct ds as [|d' ds']; [done|]. cbn in *. by apply Hl.
Qed.

(** Running one deferred call, once what it does to the limiters is known. *)
Lemma inv_unwound s c h d ds rg' :
  inv s → s_handlers s !! c = Some h → h_pc h = Returning → h_defers h = d :: ds →
  limiters_step c h (unwound h) (s_registry s) rg' → inv (put c (unwound h) (set_registry rg' s)).
Proof.
  intros Hinv Hc Hpc Hd Hst. pose proof (i_shape _ Hinv c h Hc) as Hsh.
  destruct (unwound_fields h) as (E1 & _). pose proof (unwound_pc h Hpc) as E2.
  apply (inv_handler s c h); [done|done|done|by eapply unwound_shape| | |].
  - intros l Hu. left. unfold uses in *. rewrite E1, Hd in Hu. rewrite Hd. destruct E2 as [E2|E2]; rewrite E2 in Hu; set_solver.
  - intros l. unfold tracked_at. by destruct E2 as [-> | ->].
  - intros l. unfold proxying. by destruct E2 as [-> | ->].
Qed.

Lemma holds_unwound_ne h d ds l : h_defers h = d :: ds → d ≠ Release l → holds l (unwound h) = holds l h.
Proof.
  intros Hd Hne. unfold holds. apply bool_decide_ext. rewrite (proj1 (unwound_fields h)), Hd. set_solver.
Qed.

Lemma inv_wg n s : inv (wg_add n s) ↔ inv s.
Proof. split; intros [? ? ? ? ? ? ? ?]; by constructor. Qed.

Lemma step_RunDefer s c h :
  inv s → s_handlers s !! c = Some h → h_pc h = Returning →
  ∀ s', handler_step s c h (RunDefer c) = Some s' → inv s'.
Proof.
  intros Hinv Hc Hpc s' H. cbn [handler_step] in H. rewrite Hpc in H.
  pose proof (i_shape _ Hinv c h Hc) as Hsh. pose proof Hsh as [Hnd _].
  pose proof (shape_last h Hsh ltac:(congruence)) as Hlast.
  destruct (h_defers h) as [|d ds] eqn:Hd; [done|].
  pose proof (λ rg', inv_unwound s c h d ds rg' Hinv Hc Hpc Hd) as Hgo.
  pose proof (holds_unwound_ne h d ds) as Hne. destruct (unwound_fields h) as (E1 & _).
  destruct d as [| |l| |l]; injection H as <-.
  - change (inv (wg_add (-1) (put c (unwound h) s))). apply inv_wg. rewrite put_same. apply Hgo, limiters_step_same. auto.
  - rewrite put_same. apply Hgo, limiters_step_same. auto.
  - apply (Hgo (with_heap (alter release l) (s_registry s))), limiters_step_on.
    { intros l' Hl. apply Hne; congruence. }
    intros lim El. pose proof (i_count _ Hinv l lim El) as Hcount.
    assert (Release l ∈ h_defers h) as Hin by (rewrite Hd; by left).
    pose proof (holders_pos c h l _ Hc Hin). unfold release, held, holds. rewrite E1, Hd in *. cbn [tail].
    rewrite bool_decide_false by (by inversion Hnd). rewrite bool_decide_true by done.
    destruct (0 <? l_active lim)%Z eqn:E; bool_props; [|lia]. simpl. split_and!; [done|done|lia].
  - rewrite put_same. apply Hgo, limiters_step_same. auto.
  - apply (Hgo (with_heap (alter (untrack c) l) (s_registry s))), limiters_step_on; [auto|].
    intros lim _. unfold held. rewrite Hne by done. split_and!; [done| |simpl; lia].
    intros c' Hc' Hin. simpl. set_solver.
Qed.

Lemma step_PipeEnds s c h l pol svc b :
  inv s → s_handlers s !! c = Some h → h_pc h = Piping l pol svc b →
  ∀ s', handler_step s c h (PipeEnds c) = Some s' → inv s'.
Proof.
  intros Hinv Hc Hpc s' H. cbn [handler_step] in H. rewrite Hpc in H. injection H as <-.
  by (apply (inv_return s c h); rewrite ?Hpc).
Qed.

Lemma handler_step_conn s c h ev s' : handler_step s c h ev = Some s' → is_Some (event_conn ev).
Proof. destruct ev, (h_pc h); cbn; try done. Qed.

Lemma inv_handler_step s c h ev s' :
  inv s → s_handlers s !! c = Some h → event_conn ev = Some c → handler_step s c h ev = Some s' → inv s'.
Proof.
  intros Hinv Hc Hev H.
  destruct ev; cbn in Hev; try done; injection Hev as ->;
    destruct (h_pc h) eqn:Hpc; try (unfold handler_step in H; rewrite Hpc in H; done).
  - by eapply step_FindLimiter.
  - by eapply step_Acquire.
  - by eapply step_ReadHello.
  - by eapply step_ResolveService.
  - by eapply step_DialBackend.
  - by eapply step_Track.
  - by eapply step_Recheck.
  - by eapply step_UntrackOrphan.
  - by eapply step_RespondOK.
  - by eapply step_PipeEnds.
  - by eapply step_RunDefer.
Qed.

(** ** Every action of the other goroutines does too *)

(** A bookkeeping step of the reloading goroutine forgets nothing it still
    has to close. *)
Lemma inv_maint s m :
  inv s → (∀ c, c ∈ closing_conns (s_maint s) → c ∈ closing_conns m) →
  (∀ l, l ∈ closing_limiters (s_maint s) → l ∈ closing_limiters m) →
  (m ≠ Swapped → s_maint s ≠ Swapped) → inv (set_maint m s).
Proof.
  intros [Iok Iwf Ish Iu It If Im Ic] Hc Hl Hm.
  constructor; cbn [s_registry s_config s_maint s_handlers set_maint]; auto.
  - intros c h l E Ht. destruct (It c h l E Ht) as [?|[?|?]]; auto.
  - intros c h l E Hp. destruct (If c h l E Hp) as [?|[?|[?|?]]]; auto.
Qed.

Lemma step_Accept s c h n :
  inv s → s_handlers s !! c = None → h_defers h = [CloseConn; WgDone] →
  h_pc h = Accepted ∨ h_pc h = Returning → inv (put c h (wg_add n s)).
Proof.
  intros [Iok Iwf Ish Iu It If Im Ic] Hc Hd Hpc.
  constructor; cbn [s_registry s_config s_maint s_handlers put set_handlers wg_add]; auto.
  - intros c0 h0 [[<- <-]|[_ E]]%lookup_insert_Some; [|by eapply Ish].
    split; rewrite Hd; [repeat constructor; set_solver|]. by destruct Hpc as [-> | ->].
  - intros c0 h0 l [[<- <-]|[_ E]]%lookup_insert_Some Hu; [|by eapply Iu].
    unfold uses in Hu. rewrite Hd in Hu. destruct Hpc as [Hp|Hp]; rewrite Hp in Hu; set_solver.
  - intros c0 h0 l [[<- <-]|[_ E]]%lookup_insert_Some Ht; [|by eapply It].
    unfold tracked_at in Ht. by destruct Hpc as [Hp|Hp]; rewrite Hp in Ht.
  - intros c0 h0 l [[<- <-]|[_ E]]%lookup_insert_Some Ht; [|by eapply If].
    unfold proxying in Ht. by destruct Hpc as [Hp|Hp]; rewrite Hp in Ht.
  - intros l lim E. rewrite (Ic l lim E), holders_insert_new by done.
    unfold held, holds. rewrite Hd, bool_decide_false by set_solver. lia.
Qed.

Lemma step_Swap s cfg :
  inv s → s_maint s = Idle → addrs_distinct (pc_peers cfg) →
  inv (set_maint Swapped (set_config cfg s)).
Proof.
  intros [Iok Iwf Ish Iu It If Im Ic] Hm Hwf. rewrite Hm in *.
  constructor; cbn [s_registry s_config s_maint s_handlers set_maint set_config]; auto. done.
Qed.

Lemma setLimits_fields lims p :
  l_publicKey (setLimits lims p) = l_publicKey p ∧ l_active (setLimits lims p) = l_active p
  ∧ l_live (setLimits lims p) = l_live p.
Proof. unfold setLimits, clamp. by destruct (GoFloat.flt _ _). Qed.

Lemma newPeerLimiter_fields k lims now :
  l_publicKey (newPeerLimiter k lims now) = k ∧ l_active (newPeerLimiter k lims now) = 0%Z
  ∧ l_live (newPeerLimiter k lims now) = ∅.
Proof. unfold newPeerLimiter, setLimits, clamp. by destruct (GoFloat.flt _ _). Qed.

(** An object that outlives the rebuilding keeps its key, its count and its
    connections. *)
Lemma refreshed_keeps now ps rg rg' l lim :
  refreshed rg now ps rg' → rg_heap rg !! l = Some lim →
  ∃ lim', rg_heap rg' !! l = Some lim' ∧ l_publicKey lim' = l_publicKey lim
    ∧ l_active lim' = l_active lim ∧ l_live lim' = l_live lim.
Proof.
  intros Hrf Hl. destruct (refreshed_heap _ _ _ _ _ _ Hrf Hl) as (lim' & E & [->|[lims ->]]).
  - by exists lim.
  - destruct (setLimits_fields lims lim) as (?&?&?). eauto.
Qed.

Lemma refreshed_matches now cfg rg rg' :
  refreshed rg now (pc_peers cfg) rg' → matches_config rg' cfg.
Proof.
  intros Hrf ip l E. assert (ip ∈ tip <$> pc_peers cfg) as (p & -> & Hp)%list_elem_of_fmap
    by (apply (rf_dom _ _ _ _ Hrf); by eexists).
  destruct (survives rg p) as [[l0 lim0]|] eqn:Es.
  - destruct (rf_kept _ _ _ _ Hrf p l0 lim0 Hp Es) as [E1 E2].
    apply survives_Some in Es as (_ & _ & E3). assert (l0 = l) as -> by congruence.
    destruct (setLimits_fields (pr_Limits p) lim0) as (Hk & _).
    exists p, (setLimits (pr_Limits p) lim0). split_and!; [done|done|done|congruence].
  - destruct (rf_new _ _ _ _ Hrf p Hp Es) as (l0 & E1 & _ & E3). assert (l0 = l) as -> by congruence.
    destruct (newPeerLimiter_fields (pr_PublicKey p) (pr_Limits p) now) as (Hk & _).
    exists p. eauto.
Qed.

(** A limiter that was in force either still is, at the same address, or is
    to be closed. *)
Lemma refresh_stays_or_gone now peers rg rg' gone ip l :
  registry_ok rg → addrs_distinct peers → refresh_maps now peers rg = (rg', gone) →
  rg_limiters rg !! ip = Some l → rg_limiters rg' !! ip = Some l ∨ l ∈ gone.
Proof.
  intros Hok Hnd Em Hl. pose proof (refresh_maps_refreshed _ _ _ _ _ Hok Hnd Em) as Hrf.
  destruct (decide (l ∈ (snd <$> go_range (rg_limiters rg')))) as [Hin|Hout].
  - left. apply elem_of_range_values in Hin as [ip' E]. destruct (rk_heap _ Hok _ _ Hl) as [lim Hh].
    destruct (proj1 (refreshed_in_force now peers rg rg' ip l lim Hok Hrf Hnd Hl Hh))
      as (p & Hp & <- & Hk); [by eexists|].
    apply (rf_kept _ _ _ _ Hrf p l lim Hp). unfold survives. rewrite Hl. simpl. rewrite Hh. simpl.
    by rewrite bool_decide_true.
  - right. apply (elem_of_gone _ _ _ _ _ _ Em). split; [by eexists|]. intros ip' E.
    apply Hout, elem_of_range_values. by exists ip'.
Qed.

Lemma holders_none l hs : (∀ c h, hs !! c = Some h → Release l ∉ h_defers h) → holders l hs = 0.
Proof.
  intros H. apply count_none. intros c h E. apply bool_decide_false. by eapply H.
Qed.

Lemma step_Refresh s now rg gone :
  inv s → s_maint s = Swapped → refresh_maps now (pc_peers (s_config s)) (s_registry s) = (rg, gone) →
  inv (set_maint (Closing [] gone BackToServing) (set_registry rg s)).
Proof.
  intros [Iok Iwf Ish Iu It If Im Ic] Hm Em. rewrite Hm in *.
  pose proof (refresh_maps_refreshed _ _ _ _ _ Iok Iwf Em) as Hrf.
  constructor; cbn [s_registry s_config s_maint s_handlers set_maint set_registry closing_conns closing_limiters].
  - by destruct Hrf.
  - done.
  - done.
  - intros c h l E Hu. by eapply (rf_dom_heap _ _ _ _ Hrf), Iu.
  - intros c h l E Ht. destruct (It c h l E Ht) as [?|[?|(lim & El & Hin)]]; [auto|set_solver|].
    destruct (refreshed_keeps _ _ _ _ _ _ Hrf El) as (lim' & E' & _ & _ & Hl').
    right. right. exists lim'. by rewrite Hl'.
  - intros c h l E Hp. destruct (If c h l E Hp) as [?|[?|[Hl|?]]]; [auto|set_solver| |set_solver].
    right. right. by eapply refresh_stays_or_gone.
  - intros _. by eapply refreshed_matches.
  - intros l lim' E'. destruct (rg_heap (s_registry s) !! l) as [lim|] eqn:El.
    + destruct (refreshed_keeps _ _ _ _ _ _ Hrf El) as (lim2 & E2 & _ & Ha & _).
      assert (lim2 = lim') as -> by congruence. rewrite Ha. by apply Ic.
    + destruct (refreshed_heap_new _ _ _ _ _ _ Hrf E' El) as (p & _ & _ & ->).
      rewrite (proj1 (proj2 (newPeerLimiter_fields _ _ _))), holders_none; [done|].
      intros c h E Hin. destruct (Iu c h l E) as [lim E2]; [right; by left|congruence].
Qed.

(** The pending closes move from the limiter to its connections. *)
Lemma step_DrainLimiter s l ls k rg conns :
  inv s → s_maint s = Closing [] (l :: ls) k → close_limiter l (s_registry s) = (rg, conns) →
  inv (set_maint (Closing conns ls k) (set_registry rg s)).
Proof.
  intros Hinv Hm Ec. unfold close_limiter, closeLive in Ec.
  destruct (rg_heap (s_registry s) !! l) as [lim|] eqn:El; injection Ec as <- <-.
  2:{ replace (set_registry (s_registry s) s) with s by by destruct s.
      destruct Hinv as [Iok Iwf Ish Iu It If Im Ic]. rewrite Hm in *.
      constructor; cbn [s_registry s_config s_maint s_handlers set_maint closing_conns closing_limiters]; auto.
      - intros c h l0 E Hp. pose proof (proxying_tracked _ _ Hp) as Ht.
        destruct (It c h l0 E Ht) as [?|[?|(lim & E2 & _)]]; [auto|auto|].
        destruct (If c h l0 E Hp) as [?|[?|[?|Hin]]]; auto. apply elem_of_cons in Hin as [->|?]; [congruence|auto]. }
  destruct Hinv as [[Iok1 Iok2] Iwf Ish Iu It If Im Ic]. rewrite Hm in *.
  assert (∀ c h l0, s_handlers s !! c = Some h → tracked_at h = Some l0 → h_closed h = true
    ∨ c ∈ elements (l_live lim) ∨ (∃ lim', <[l := set_live ∅ lim]> (rg_heap (s_registry s)) !! l0 = Some lim'
         ∧ c ∈ l_live lim') ∧ l0 ≠ l) as Ht'.
  { intros c h l0 E Ht. destruct (It c h l0 E Ht) as [?|[?|(lim' & E' & Hin)]]; [auto|set_solver|].
    destruct (decide (l0 = l)) as [->|Hne]; [right; left; set_solver|].
    right. right. split; [|done]. exists lim'. by rewrite lookup_insert_ne. }
  constructor; cbn [s_registry s_config s_maint s_handlers set_maint set_registry closing_conns closing_limiters
                    rg_limiters rg_heap rg_names]; auto.
  - split; [done|]. intros a l0 E. apply lookup_insert_is_Some'. right. by eapply Iok2.
  - intros c h l0 E Hu. apply lookup_insert_is_Some'. right. by eapply Iu.
  - intros c h l0 E Ht. destruct (Ht' c h l0 E Ht) as [?|[?|[? _]]]; auto.
  - intros c h l0 E Hp. destruct (Ht' c h l0 E (proxying_tracked _ _ Hp)) as [?|[?|[_ Hne]]]; auto.
    destruct (If c h l0 E Hp) as [?|[?|[?|?]]]; [auto|set_solver|auto|right; right; right; set_solver].
  - intros _ ip l0 E. destruct (Im ltac:(done) ip l0 E) as (p & lim' & Hp & Ht & Eh & Hk). exists p.
    cbn [rg_heap].
    destruct (decide (l0 = l)) as [->|Hne].
    + exists (set_live ∅ lim). rewrite lookup_insert_eq. split_and!; [done|done|done|]. simpl. congruence.
    + exists lim'. by rewrite lookup_insert_ne.
  - intros l0 lim' [[<- <-]|[_ E]]%lookup_insert_Some; [|by apply Ic]. simpl. by apply Ic.
Qed.

Lemma step_CloseNext s c0 conns ls k :
  inv s → s_maint s = Closing (c0 :: conns) ls k →
  inv (set_maint (Closing conns ls k) (set_handlers (alter closed c0) s)).
Proof.
  intros [Iok Iwf Ish Iu It If Im Ic] Hm. rewrite Hm in *.
  assert (∀ c h', alter closed c0 (s_handlers s) !! c = Some h' → ∃ h, s_handlers s !! c = Some h
    ∧ (c = c0 ∧ h' = closed h ∨ c ≠ c0 ∧ h' = h)) as Ha.
  { intros c h'. destruct (decide (c = c0)) as [->|Hne].
    - rewrite lookup_alter_eq. intros (h & -> & ->)%fmap_Some. eauto.
    - rewrite lookup_alter_ne by done. eauto. }
  assert (∀ l, holders l (alter closed c0 (s_handlers s)) = holders l (s_handlers s)) as Hh
    by (intros l; by apply count_closed).
  constructor; cbn [s_registry s_config s_maint s_handlers set_maint set_handlers closing_conns closing_limiters].
  - done.
  - done.
  - intros c h' (h & E & [[-> ->]|[_ ->]])%Ha; by apply (Ish _ _ E).
  - intros c h' l (h & E & [[-> ->]|[_ ->]])%Ha Hu; by eapply Iu.
  - intros c h' l (h & E & [[-> ->]|[Hne ->]])%Ha Ht; [by left|].
    destruct (It c h l E Ht) as [?|[?|?]]; [auto|right; left; set_solver|auto].
  - intros c h' l (h & E & [[-> ->]|[Hne ->]])%Ha Ht; [by left|].
    destruct (If c h l E Ht) as [?|[?|[?|?]]]; [auto|right; left; set_solver|auto|auto].
  - intros _. by apply Im.
  - intros l lim E. rewrite Hh. by apply Ic.
Qed.

Lemma step_Shutdown s :
  inv s → s_maint s = Idle →
  inv (set_maint (Closing [] (snd <$> go_range (rg_limiters (s_registry s))) ThenWait) (stop_listening s)).
Proof.
  intros [Iok Iwf Ish Iu It If Im Ic] Hm. rewrite Hm in *.
  constructor; cbn [s_registry s_config s_maint s_handlers closing_conns closing_limiters set_maint stop_listening]; auto.
  - intros c h l E Hp. destruct (If c h l E Hp) as [?|[?|[?|?]]]; [auto|set_solver|auto|set_solver].
Qed.

Lemma step_CtxCloses s c h : inv s → s_handlers s !! c = Some h → inv (put c (closed h) s).
Proof.
  intros Hinv Hc. pose proof (i_shape _ Hinv c h Hc). rewrite put_same.
  apply (inv_handler s c h); [done|done|by apply limiters_step_same|done|by left| |]; intros; by left.
Qed.

Lemma inv_step s ev s' : inv s → event_ok ev → step s ev = Some s' → inv s'.
Proof.
  intros Hinv Hok H.
  assert (∀ c, event_conn ev = Some c → (h ← s_handlers s !! c; handler_step s c h ev) = Some s' → inv s') as Hh.
  { intros c Hc Hs. apply bind_Some in Hs as (h & E & Hs). by eapply inv_handler_step. }
  destruct ev; cbn [step] in H; try (by eapply Hh).
  - destruct (s_listening s); [|done]. destruct (s_handlers s !! c) eqn:Ec; [done|].
    destruct (remoteTunnelIP remote); injection H as <-; apply step_Accept; auto.
  - destruct (s_maint s) eqn:Hm; try done. injection H as <-. by apply step_Swap.
  - destruct (s_maint s) eqn:Hm; try done. destruct (refresh_maps _ _ _) as [rg gone] eqn:Em.
    injection H as <-. by eapply step_Refresh.
  - destruct (s_maint s) as [| |[] []| |] eqn:Hm; try done. destruct (close_limiter _ _) as [rg conns] eqn:Ec.
    injection H as <-. by eapply step_DrainLimiter.
  - destruct (s_maint s) as [| |[] | |] eqn:Hm; try done. injection H as <-. by eapply step_CloseNext.
  - destruct (s_maint s) as [| |[] [] k| |] eqn:Hm; try done. injection H as <-.
    apply inv_maint; rewrite ?Hm; destruct k; (done || set_solver).
  - destruct (s_maint s) eqn:Hm; try done. destruct (s_canceled s); [|done]. injection H as <-. by apply step_Shutdown.
  - destruct (s_maint s) eqn:Hm; try done. destruct (_ =? _)%Z; [|done]. injection H as <-.
    apply inv_maint; rewrite ?Hm; (done || set_solver).
  - destruct (s_maint s) eqn:Hm; try done. injection H as <-. apply inv_maint; rewrite ?Hm; (done || set_solver).
  - destruct (s_canceled s); [done|]. injection H as <-. by destruct Hinv; constructor.
  - destruct (_ && _); [|done]. injection H as <-. by destruct Hinv; constructor.
  - apply bind_Some in H as (h & E & H). destruct (_ && _); [|done]. injection H as <-. by apply step_CtxCloses.
Qed.

Lemma inv_initial now cfg : addrs_distinct (pc_peers cfg) → inv (initial now cfg).
Proof.
  intros Hwf. unfold initial, refreshPeers.
  destruct (refresh_maps now (pc_peers cfg) empty_registry) as [rg gone] eqn:Em.
  pose proof (refresh_maps_refreshed _ _ _ _ _ registry_ok_empty Hwf Em) as Hrf.
  assert (gone = []) as ->.
  { destruct gone as [|l gone]; [done|]. destruct (proj1 (elem_of_gone _ _ _ _ _ l Em)) as [[ip E] _]; [by left|].
    cbn in E. by rewrite lookup_empty in E. }
  constructor; cbn [s_registry s_config s_maint s_handlers close_limiters fst].
  - by destruct Hrf.
  - done.
  - intros c h E. by rewrite lookup_empty in E.
  - intros c h l E. by rewrite lookup_empty in E.
  - intros c h l E. by rewrite lookup_empty in E.
  - intros c h l E. by rewrite lookup_empty in E.
  - intros _. by eapply refreshed_matches.
  - intros l lim E. destruct (refreshed_heap_new _ _ _ _ _ _ Hrf E) as (p & _ & _ & ->); [apply lookup_empty|].
    by rewrite holders_empty, (proj1 (proj2 (newPeerLimiter_fields _ _ _))).
Qed.

Lemma inv_reachable now cfg s : addrs_distinct (pc_peers cfg) → reachable now cfg s → inv s.
Proof. intros Hwf. induction 1; [by apply inv_initial|by eapply inv_step]. Qed.

(** ** What one action does to its own handler *)

(** The service a handler has been granted, by which policy, and where. *)
Definition granted (h : handler) : option (policy * gostring * AddrPort) :=
  match h_pc h with
  | Dialing _ pol svc b | Dialed _ pol svc b | Tracked _ pol svc b
  | Checked _ pol svc b | Piping _ pol svc b => Some (pol, svc, b)
  | _ => None
  end.

(** How far a handler is from its end: every action takes it closer. *)
Definition rank (p : pc) : nat :=
  match p with
  | Accepted => 20 | Admitting _ => 19 | ReadingHello _ => 17 | Resolving _ _ => 16
  | Dialing _ _ _ _ => 15 | Dialed _ _ _ _ => 13 | Tracked _ _ _ _ => 12 | Orphaned _ _ => 11
  | Checked _ _ _ _ => 10 | Piping _ _ _ _ => 9 | Returning => 1 | Done => 0
  end.
Definition distance (h : handler) : nat :=
  rank (h_pc h) + length (h_defers h) + (if h_closed h then 0 else 1).

(** The part of the system a handler cannot change. *)
Definition same_frame (s s' : system) : Prop :=
  (s_config s' = s_config s ∧ s_canceled s' = s_canceled s) ∧ s_maint s' = s_maint s ∧ s_listening s' = s_listening s.

(** The frame an action may send: the status byte and what led to it. *)
Definition may_send (h : handler) (st : byte) : Prop :=
  st = statusOK → ∃ l pol svc b, h_pc h = Checked l pol svc b.

Record local_step (s s' : system) (c : nat) (h h' : handler) : Prop := {
  ls_put : s_handlers s' = <[c := h']> (s_handlers s);
  ls_frame : same_frame s s';
  ls_ip : h_ip h' = h_ip h;
  ls_distance : distance h' < distance h;
  ls_granted : granted h' ≠ None → granted h' = granted h ∨
    ∃ svc b, granted h' = Some (pc_policy (s_config s), svc, b)
      ∧ Policy.Resolve (pc_policy (s_config s)) (h_ip h) svc = (b, true);
  ls_rank : rank (h_pc h') ≤ rank (h_pc h);
  ls_out : h_out h' = h_out h ∨ 10 ≤ rank (h_pc h) ∧ rank (h_pc h') < 10 ∧
    ∃ dl st, may_send h st ∧ h_out h' = snd (respond dl (h_out h) st);
  ls_piping : ∀ l pol svc b, h_pc h' = Piping l pol svc b →
    10 ≤ rank (h_pc h) ∧ ∃ dl, respond dl (h_out h) statusOK = (None, h_out h')
}.

Lemma refuse_local s s' c h dl st :
  s_handlers s' = <[c := refuse dl st h]> (s_handlers s) → same_frame s s' →
  10 ≤ rank (h_pc h) → st ≠ statusOK → local_step s s' c h (refuse dl st h).
Proof.
  intros Hp Hf Hr Hst. constructor; try done.
  - unfold distance. simpl. lia.
  - simpl. lia.
  - right. split; [done|]. split; [simpl; lia|]. exists dl, st. by split; [intros ->|].
Qed.

(** Moving on in silence, with at most one more deferred call. *)
Lemma silent_local s s' c h h' :
  s_handlers s' = <[c := h']> (s_handlers s) → same_frame s s' → h_ip h' = h_ip h →
  distance h' < distance h → rank (h_pc h') ≤ rank (h_pc h) → granted h' = None ∨ granted h' = granted h → h_out h' = h_out h →
  (∀ l pol svc b, h_pc h' ≠ Piping l pol svc b) → local_step s s' c h h'.
Proof. intros Hp Hf Hi Hd Hr Hg Ho Hn. constructor; try done; [naive_solver|by left|naive_solver]. Qed.

Ltac silent H Hpc :=
  injection H as <-; eexists; apply silent_local; [reflexivity|..]; unfold distance, granted; simpl;
  rewrite ?Hpc; simpl; (done || lia || (by left) || (by right) || auto).

Lemma handler_step_local s c h ev s' : handler_step s c h ev = Some s' → ∃ h', local_step s s' c h h'.
Proof.
  intros H. destruct ev; cbn in H; try done; destruct (h_pc h) eqn:Hpc; try done.
  - destruct (limiterFor _ _); silent H Hpc.
  - apply bind_Some in H as (lim & El & H). destruct (acquire fused now lim) as [lim' [reason []]].
    + silent H Hpc.
    + injection H as <-. eexists. apply refuse_local; [done|done|rewrite Hpc; simpl; lia|done].
  - destruct read_deadline; [silent H Hpc|]. destruct (fst (readHelloRequest r)) as [svc|e]; [silent H Hpc|].
    destruct (errors_Is e _); [|silent H Hpc]. injection H as <-. eexists.
    apply refuse_local; [done|done|rewrite Hpc; simpl; lia|done].
  - destruct (Policy.Resolve _ _ _) as [b []] eqn:Er; injection H as <-; eexists.
    + constructor; try done; unfold distance; simpl; rewrite ?Hpc; simpl; [lia| |lia|by left].
      intros _. right. exists svc, b. done.
    + apply refuse_local; [done|done|rewrite Hpc; simpl; lia|done].
  - destruct dial; [|silent H Hpc]. injection H as <-. eexists.
    apply refuse_local; [done|done|rewrite Hpc; simpl; lia|done].
  - silent H Hpc.
  - case_bool_decide; silent H Hpc.
  - silent H Hpc.
  - destruct (respond deadline (h_out h) statusOK) as [err w] eqn:Er.
    assert (may_send h statusOK) as Hm by (intros _; eauto 6).
    assert (∀ s2, s_handlers s2 = <[c := at_pc Returning (wrote w h)]> (s_handlers s) → same_frame s s2 →
      local_step s s2 c h (at_pc Returning (wrote w h))) as Hret.
    { intros s2 H1 H2. constructor; try done; [unfold distance; simpl; rewrite Hpc; simpl; lia|simpl; rewrite Hpc; simpl; lia|].
      right. rewrite Hpc. split_and!; [simpl; lia|simpl; lia|]. exists deadline, statusOK. by rewrite Er. }
    destruct err, clear; injection H as <-; try (eexists; by apply Hret).
    eexists. constructor; try done.
    + unfold distance. simpl. rewrite Hpc. simpl. lia.
    + intros _. left. unfold granted. simpl. by rewrite Hpc.
    + simpl. rewrite Hpc. simpl. lia.
    + right. rewrite Hpc. split_and!; [simpl; lia|simpl; lia|]. exists deadline, statusOK. by rewrite Er.
    + intros. rewrite Hpc. split; [simpl; lia|]. exists deadline. by rewrite Er.
  - silent H Hpc.
  - assert (∀ s1, s_handlers s1 = <[c := unwound h]> (s_handlers s) → same_frame s s1 → h_defers h ≠ [] →
      local_step s s1 c h (unwound h)) as Hun.
    { intros s1 H1 H2 H3. destruct (unwound_fields h) as (E1 & E2 & E3 & E4 & _).
      apply silent_local; try done; unfold distance, granted; destruct (unwound_pc h Hpc) as [-> | ->]; rewrite ?E1, ?E4, ?Hpc;
        try (by left); destruct (h_defers h); cbn; done || lia. }
    destruct (h_defers h) as [|[] ds] eqn:Hd; injection H as <-; eexists; try (by apply Hun).
    apply silent_local; [reflexivity|..]; unfold distance, granted; simpl; rewrite ?Hpc, ?Hd; simpl; (done || lia || auto).
Qed.

(** Where the handlers of the next state come from. *)
Definition newborn (h : handler) : Prop :=
  (h_pc h = Accepted ∨ h_pc h = Returning) ∧ h_defers h = [CloseConn; WgDone] ∧ w_out (h_out h) = [].

Lemma step_handlers_own s ev s' c h' :
  event_ok ev → step s ev = Some s' → s_handlers s' !! c = Some h' →
  (s_handlers s !! c = None ∧ newborn h')
  ∨ ∃ h, s_handlers s !! c = Some h ∧
      (h' = h ∨ h' = closed h ∨ event_conn ev = Some c ∧ handler_step s c h ev = Some s').
Proof.
  intros Hok H Hc'.
  assert (s_handlers s' = s_handlers s → (s_handlers s !! c = None ∧ newborn h')
    ∨ ∃ h, s_handlers s !! c = Some h ∧
        (h' = h ∨ h' = closed h ∨ event_conn ev = Some c ∧ handler_step s c h ev = Some s')) as Hsame.
  { intros E. rewrite E in Hc'. right. eauto. }
  assert (∀ c0, event_conn ev = Some c0 → (h ← s_handlers s !! c0; handler_step s c0 h ev) = Some s' →
    (s_handlers s !! c = None ∧ newborn h')
    ∨ ∃ h, s_handlers s !! c = Some h ∧
        (h' = h ∨ h' = closed h ∨ event_conn ev = Some c ∧ handler_step s c h ev = Some s')) as Hh.
  { intros c0 Hev Hs. apply bind_Some in Hs as (h & E & Hs).
    pose proof Hs as [h0 Hl]%handler_step_local. pose proof (ls_put _ _ _ _ _ Hl) as Hp.
    rewrite Hp in Hc'. apply lookup_insert_Some in Hc' as [[<- _]|[_ E']]; right; eauto 6. }
  destruct ev; cbn [step] in H; try (by eapply Hh).
  - destruct (s_listening s); [|done]. destruct (s_handlers s !! c0) eqn:Ec; [done|].
    destruct (remoteTunnelIP remote); injection H as <-; unfold put, set_handlers in Hc'; cbn [s_handlers] in Hc';
      (apply lookup_insert_Some in Hc' as [[<- <-]|[_ E]]; [left; split; [done|]|right; eauto]);
      by split_and!; [auto|..].
  - destruct (s_maint s); try done. injection H as <-. by apply Hsame.
  - destruct (s_maint s); try done. destruct (refresh_maps _ _ _). injection H as <-. by apply Hsame.
  - destruct (s_maint s) as [| |[] []| |]; try done. destruct (close_limiter _ _). injection H as <-. by apply Hsame.
  - destruct (s_maint s) as [| |[] | |]; try done. injection H as <-. right.
    destruct (decide (c = n)) as [->|Hne].
    + cbn in Hc'. rewrite lookup_alter_eq in Hc'. apply fmap_Some in Hc' as (h & E & ->). eauto.
    + cbn in Hc'. rewrite lookup_alter_ne in Hc' by done. eauto.
  - destruct (s_maint s) as [| |[] []| |]; try done. injection H as <-. by apply Hsame.
  - destruct (s_maint s); try done. destruct (s_canceled s); [|done]. injection H as <-. by apply Hsame.
  - destruct (s_maint s); try done. destruct (_ =? _)%Z; [|done]. injection H as <-. by apply Hsame.
  - destruct (s_maint s); try done. injection H as <-. by apply Hsame.
  - destruct (s_canceled s); [done|]. injection H as <-. by apply Hsame.
  - destruct (_ && _); [|done]. injection H as <-. by apply Hsame.
  - apply bind_Some in H as (h & E & H). destruct (_ && _); [|done]. injection H as <-. right. cbn in Hc'.
    apply lookup_insert_Some in Hc' as [[<- <-]|[_ E']]; eauto.
Qed.

Lemma step_handlers s ev s' c h' :
  event_ok ev → step s ev = Some s' → s_handlers s' !! c = Some h' →
  (s_handlers s !! c = None ∧ newborn h')
  ∨ ∃ h, s_handlers s !! c = Some h ∧ (h' = h ∨ h' = closed h ∨ local_step s s' c h h').
Proof.
  intros Hok H Hc'. destruct (step_handlers_own _ _ _ _ _ Hok H Hc') as [?|(h & E & Hh)]; [by left|right].
  exists h. split; [done|]. destruct Hh as [?|[?|[_ Hs]]]; [by left|by right; left|right; right].
  apply handler_step_local in Hs as [h0 Hl]. pose proof (ls_put _ _ _ _ _ Hl) as Hp.
  rewrite Hp, lookup_insert_eq in Hc'. by injection Hc' as <-.
Qed.

(** ** What a connection is sent *)

Lemma respond_out dl w st :
  w_out w = [] → w_out (snd (respond dl w st)) `prefix_of` [frameVersion; st].
Proof.
  intros Hw. unfold respond, writeHelloResponse, Write. destruct dl; simpl; [rewrite Hw; apply prefix_nil|].
  destruct (negb _); simpl; [rewrite Hw; apply prefix_nil|].
  destruct (w_room w) as [[n e]|]; simpl; rewrite ?Hw; [|done].
  destruct n as [|[|n]]; simpl; [apply prefix_nil|by exists [st]|done].
Qed.

Lemma respond_sent dl w w' st :
  respond dl w st = (None, w') → w_out w' = w_out w ++ [frameVersion; st].
Proof.
  unfold respond, writeHelloResponse, Write. destruct dl; [done|]. destruct (negb _); [done|].
  destruct (w_room w) as [[n e]|]; simpl; [destruct n as [|[|n]]|]; simpl; intros [= <-]; done.
Qed.

Lemma handler_event_step s c ev : event_conn ev = Some c → step s ev = (h ← s_handlers s !! c; handler_step s c h ev).
Proof. destruct ev; cbn; intros [= <-]; done. Qed.

(** ** What a run says of a connection *)

(** The configuration in force at the end of a run: the one it began with, or
    the last that a reload swapped in. *)
Definition in_force (cfg : PeersConfig) (evs : list event) : PeersConfig :=
  foldl (λ k ev, match ev with Swap k' => k' | _ => k end) cfg evs.

(** A run from startup. *)
Definition ran (now : Z) (cfg : PeersConfig) (evs : list event) (s : system) : Prop :=
  Forall event_ok evs ∧ run step (initial now cfg) evs = Some s.

(** The request connection [c] sent, as the server read it. *)
Definition asked (evs : list event) (c : nat) (svc : gostring) : Prop :=
  ∃ r dl, ReadHello c None r dl ∈ evs ∧ fst (readHelloRequest r) = Ok svc.

(** The connection's own lookup: at that moment of the run the policy in force
    was [pol], which grants the service it had asked for, at [b]. *)
Definition authorised (cfg : PeersConfig) (evs : list event) (c : nat) (ip : Addr)
    (pol : policy) (svc : gostring) (b : AddrPort) : Prop :=
  ∃ pre dl post, evs = pre ++ ResolveService c dl :: post ∧ pol = pc_policy (in_force cfg pre)
    ∧ asked pre c svc ∧ Policy.Resolve pol ip svc = (b, true).

Lemma asked_app evs evs' c svc : asked evs c svc → asked (evs ++ evs') c svc.
Proof. intros (r & dl & ? & ?). exists r, dl. split; [set_solver|done]. Qed.
Lemma authorised_app cfg evs evs' c ip pol svc b :
  authorised cfg evs c ip pol svc b → authorised cfg (evs ++ evs') c ip pol svc b.
Proof. intros (pre & dl & post & -> & ?). exists pre, dl, (post ++ evs'). by rewrite <- app_assoc. Qed.

Lemma in_force_snoc cfg evs ev :
  in_force cfg (evs ++ [ev]) = match ev with Swap k => k | _ => in_force cfg evs end.
Proof. unfold in_force. by rewrite foldl_app. Qed.

Lemma ran_nil now cfg : ran now cfg [] (initial now cfg).
Proof. by split. Qed.

Lemma ran_snoc now cfg evs ev s' :
  ran now cfg (evs ++ [ev]) s' ↔ ∃ s, ran now cfg evs s ∧ event_ok ev ∧ step s ev = Some s'.
Proof.
  unfold ran. rewrite run_app, Forall_app, Forall_singleton, bind_Some. cbn [run]. setoid_rewrite bind_Some. split.
  - intros [[H1 H2] (s & H3 & s1 & H4 & [= ->])]. by exists s.
  - intros (s & [H1 H3] & H2 & H4). split; [done|]. exists s. split; [done|]. by exists s'.
Qed.

(** Induction along a run. *)
Lemma ran_ind now cfg (P : list event → system → Prop) :
  P [] (initial now cfg) →
  (∀ evs s ev s', ran now cfg evs s → P evs s → event_ok ev → step s ev = Some s' → P (evs ++ [ev]) s') →
  ∀ evs s, ran now cfg evs s → P evs s.
Proof.
  intros H0 Hs evs. induction evs as [|ev evs IH] using rev_ind; intros s Hr.
  - by destruct Hr as [_ [= <-]].
  - apply ran_snoc in Hr as (s1 & Hr & Hok & H). by eapply Hs; [..|by apply IH|done|done].
Qed.

Lemma ran_reachable now cfg evs s : ran now cfg evs s → reachable now cfg s.
Proof. intros H. induction H using ran_ind; [constructor|by econstructor]. Qed.

Lemma reachable_ran now cfg s : reachable now cfg s → ∃ evs, ran now cfg evs s.
Proof.
  induction 1 as [|s ev s' _ [evs IH] Hok H]; [exists []; apply ran_nil|].
  exists (evs ++ [ev]). apply ran_snoc. by exists s.
Qed.

(** Only a reload changes the configuration. *)
Lemma step_config s ev s' : step s ev = Some s' →
  s_config s' = match ev with Swap k => k | _ => s_config s end.
Proof.
  intros H. destruct (event_conn ev) as [c|] eqn:Hev.
  - rewrite (handler_event_step _ _ _ Hev) in H. apply bind_Some in H as (h & _ & H).
    apply handler_step_local in H as (h' & Hl). destruct (ls_frame _ _ _ _ _ Hl) as ([E _] & _).
    rewrite E. by destruct ev.
  - destruct ev; try done; cbn [step] in H;
      repeat first [apply bind_Some in H as (? & _ & H) | case_match]; try done; by injection H as <-.
Qed.

Lemma ran_config now cfg evs s : ran now cfg evs s → s_config s = in_force cfg evs.
Proof.
  intros H. induction H as [|evs s ev s' _ IH _ H] using ran_ind; [done|].
  rewrite (step_config _ _ _ H), in_force_snoc. by destruct ev.
Qed.

(** Nothing is sent before the one answer; a request was read from the
    connection, and every grant is one of the policy in force when its own
    lookup ran. *)
Record fit (cfg : PeersConfig) (evs : list event) (c : nat) (h : handler) : Prop := {
  fit_silent : 10 ≤ rank (h_pc h) → w_out (h_out h) = [];
  fit_piping : ∀ l pol svc b, h_pc h = Piping l pol svc b → w_out (h_out h) = [frameVersion; statusOK];
  fit_asked : ∀ l svc, h_pc h = Resolving l svc → asked evs c svc;
  fit_granted : ∀ pol svc b, granted h = Some (pol, svc, b) → authorised cfg evs c (h_ip h) pol svc b
}.

Lemma fit_snoc cfg evs ev c h : fit cfg evs c h → fit cfg (evs ++ [ev]) c h.
Proof. intros [F1 F2 F3 F4]. constructor; eauto using asked_app, authorised_app. Qed.

(** Where a request and a grant come from. *)
Lemma handler_step_source s c h ev s' h' :
  handler_step s c h ev = Some s' → event_conn ev = Some c → s_handlers s' !! c = Some h' →
  (∀ l svc, h_pc h' = Resolving l svc → ∃ r dl, ev = ReadHello c None r dl ∧ fst (readHelloRequest r) = Ok svc)
  ∧ ∀ g, granted h' = Some g → granted h = Some g
    ∨ ∃ l dl svc b, ev = ResolveService c dl ∧ h_pc h = Resolving l svc
      ∧ g = (pc_policy (s_config s), svc, b) ∧ Policy.Resolve (pc_policy (s_config s)) (h_ip h) svc = (b, true).
Proof.
  intros H Hev Hc'.
  destruct ev; cbn in Hev; try done; injection Hev as ->; cbn in H; destruct (h_pc h) eqn:Hpc; try done;
    repeat first [apply bind_Some in H as (? & _ & H) | case_match]; try done; simplify_eq;
    cbn in Hc'; rewrite lookup_insert_eq in Hc'; injection Hc' as <-; unfold granted; rewrite ?Hpc;
    try (destruct (unwound_pc h Hpc) as [E|E]; rewrite E); cbn;
    (split; [intros ? ? ?; simplify_eq; eauto 6|intros ? ?; simplify_eq; eauto 9]).
Qed.

Lemma fit_own now cfg evs s c h ev s' h' :
  ran now cfg evs s → fit cfg evs c h → event_conn ev = Some c → handler_step s c h ev = Some s' →
  s_handlers s' !! c = Some h' → local_step s s' c h h' → fit cfg (evs ++ [ev]) c h'.
Proof.
  intros Hr [F1 F2 F3 F4] Hev Hs Hc' [_ _ Hip _ _ Hrk Ho Hp].
  destruct (handler_step_source _ _ _ _ _ _ Hs Hev Hc') as [O1 O2]. constructor.
  - intros Hrank. destruct Ho as [-> |(_ & Hlt & _)]; [apply F1|]; lia.
  - intros l pol svc b E. destruct (Hp l pol svc b E) as [H10 [dl Hd]]. apply respond_sent in Hd.
    by rewrite Hd, F1.
  - intros l svc E. destruct (O1 _ _ E) as (r & dl & -> & ?). exists r, dl. split; [set_solver|done].
  - intros pol svc b E. rewrite Hip. destruct (O2 _ E) as [E'|(l & dl & svc' & b' & -> & Hpc & [= -> -> ->] & Hres)].
    + by apply authorised_app, F4.
    + exists evs, dl, []. rewrite <- (ran_config _ _ _ _ Hr). split_and!; [done|done|by eapply F3|done].
Qed.

Lemma fit_newborn cfg evs c h : newborn h → fit cfg evs c h.
Proof.
  intros [Hpc [_ Ho]]. constructor; [done|..]; intros *; unfold granted; destruct Hpc as [-> | ->]; done.
Qed.

Lemma fit_ran now cfg evs s c h : ran now cfg evs s → s_handlers s !! c = Some h → fit cfg evs c h.
Proof.
  intros Hr. revert c h. induction Hr as [|evs s ev s' Hr IH Hok Hs] using ran_ind; intros c h Hc.
  { cbn in Hc. by rewrite lookup_empty in Hc. }
  destruct (step_handlers_own _ _ _ _ _ Hok Hs Hc) as [[_ Hn]|(h0 & Hc0 & [->|[->|[Hev Hh]]])].
  - by apply fit_newborn.
  - by apply fit_snoc, IH.
  - destruct (fit_snoc _ _ ev _ _ (IH _ _ Hc0)). by constructor.
  - pose proof Hh as [h1 Hl]%handler_step_local. pose proof (ls_put _ _ _ _ _ Hl) as Hp.
    assert (h1 = h) as -> by (rewrite Hp, lookup_insert_eq in Hc; congruence).
    eapply fit_own; [done|by apply IH|done..].
Qed.

(** C1: once a reload is complete, every connection still being proxied, and
    every one about to be told it was granted, belongs to a peer of the peer
    list in force: the peer that has the key it was admitted under still holds
    its address, and the connection is registered where a later revocation
    finds it.  Every other one has been closed. *)
Theorem revocation_closes_connections now cfg s c h l :
  addrs_distinct (pc_peers cfg) → reachable now cfg s → s_maint s = Idle →
  s_handlers s !! c = Some h → proxying h = Some l → h_closed h = false →
  limiterFor (h_ip h) (s_registry s) = Some l
  ∧ ∃ p lim, rg_heap (s_registry s) !! l = Some lim ∧ c ∈ l_live lim
    ∧ p ∈ pc_peers (s_config s) ∧ Unmap (pr_TunnelIP p) = Unmap (h_ip h)
    ∧ l_publicKey lim = pr_PublicKey p.
Proof.
  intros Hwf Hr Hm Hc Hp Hcl. pose proof (inv_reachable _ _ _ Hwf Hr) as Hinv.
  pose proof (i_force _ Hinv c h l Hc Hp) as Hforce.
  pose proof (i_tracked _ Hinv c h l Hc (proxying_tracked _ _ Hp)) as Htrack. rewrite Hm in Hforce, Htrack.
  destruct Hforce as [?|[?|[E|?]]]; [congruence|set_solver| |set_solver].
  destruct Htrack as [?|[?|(lim & El & Hin)]]; [congruence|set_solver|].
  split; [done|]. destruct (i_match _ Hinv) with (ip := Unmap (h_ip h)) (l := l)
    as (p & lim' & Hp' & Ht & El' & Hk); [by rewrite Hm|done|].
  exists p, lim. assert (lim' = lim) as -> by congruence. done.
Qed.

(** C2: a connection is sent nothing but (a part of) one answer frame, and the
    frame that says granted is sent only for the service named in a request the
    server read from that same connection, when the policy in force at the
    moment the connection's own lookup ran (the configuration the run began
    with, or the last one a reload had swapped in by then) grants that service
    to the connection's address. *)
Theorem granted_answers_are_authorised now cfg evs s ev s' c h h' :
  Forall event_ok (evs ++ [ev]) → run step (initial now cfg) evs = Some s → step s ev = Some s' →
  s_handlers s !! c = Some h → s_handlers s' !! c = Some h' → h_out h' ≠ h_out h →
  w_out (h_out h) = []
  ∧ ∃ st, w_out (h_out h') `prefix_of` [frameVersion; st]
    ∧ (st = statusOK → ∃ l svc b pre dl post, h_pc h = Checked l (pc_policy (in_force cfg pre)) svc b
         ∧ evs = pre ++ ResolveService c dl :: post ∧ asked pre c svc
         ∧ Policy.Resolve (pc_policy (in_force cfg pre)) (h_ip h) svc = (b, true)).
Proof.
  intros [Hok Hev%Forall_inv]%Forall_app Hrun Hs Hc Hc' Hne.
  pose proof (fit_ran now cfg evs s c h (conj Hok Hrun) Hc) as [F1 _ _ F4].
  destruct (step_handlers _ _ _ _ _ Hev Hs Hc') as [[E _]|(h0 & E & [->|[->|Hl]])]; [congruence| | |];
    assert (h0 = h) as -> by congruence; [done..|].
  destruct (ls_out _ _ _ _ _ Hl) as [?|(H10 & _ & dl & st & Hm & ->)]; [done|].
  specialize (F1 H10). split; [done|]. exists st. split; [by apply respond_out|].
  intros E1. destruct (Hm E1) as (l & pol & svc & b & Hpc).
  destruct (F4 pol svc b) as (pre & dl' & post & -> & -> & H2 & H3); [unfold granted; by rewrite Hpc|].
  exists l, svc, b, pre, dl', post. done.
Qed.

(** ** Nothing stays registered *)

(** A handler that still has to take its connection out of the live set. *)
Definition registered (l : nat) (h : handler) : Prop :=
  match h_pc h with Tracked l' _ _ _ | Orphaned l' _ => l' = l | _ => Untrack l ∈ h_defers h end.
Lemma registered_unwound l h : h_pc h = Returning → registered l (unwound h) ↔ Untrack l ∈ tail (h_defers h).
Proof.
  intros Hpc. unfold registered. rewrite (proj1 (unwound_fields h)). by destruct (unwound_pc h Hpc) as [-> | ->].
Qed.
Definition live_ok (s : system) : Prop :=
  ∀ l lim c, rg_heap (s_registry s) !! l = Some lim → c ∈ l_live lim →
    ∃ h, s_handlers s !! c = Some h ∧ registered l h.

Lemma live_same s c h h' :
  live_ok s → s_handlers s !! c = Some h → (∀ l, registered l h → registered l h') → live_ok (put c h' s).
Proof.
  intros Hl Hc Hr l lim c' E Hin. destruct (Hl l lim c' E Hin) as (h0 & E0 & Hr0). cbn.
  destruct (decide (c' = c)) as [->|Hne].
  - rewrite lookup_insert_eq. exists h'. split; [done|]. apply Hr. congruence.
  - rewrite lookup_insert_ne by done. eauto.
Qed.

Lemma live_on s c h h' l0 f :
  live_ok s → s_handlers s !! c = Some h →
  (∀ lim c', rg_heap (s_registry s) !! l0 = Some lim → c' ∈ l_live (f lim) →
     c' ∈ l_live lim ∨ c' = c ∧ registered l0 h') →
  (∀ l, registered l h → registered l h' ∨ l = l0 ∧ ∀ lim, c ∉ l_live (f lim)) →
  live_ok (put c h' (on_limiter l0 f s)).
Proof.
  intros Hl Hc Hf Hr l lim' c' E Hin. cbn in *.
  assert (∃ lim, rg_heap (s_registry s) !! l = Some lim ∧ (l = l0 ∧ lim' = f lim ∨ l ≠ l0 ∧ lim' = lim)) as (lim & El & Hlim).
  { destruct (decide (l = l0)) as [->|Hne].
    - rewrite lookup_alter_eq in E. apply fmap_Some in E as (lim & ? & ->). eauto.
    - rewrite lookup_alter_ne in E by done. eauto. }
  assert (c' ∈ l_live lim ∨ c' = c ∧ registered l h') as [Hin'|[-> Hr']].
  { destruct Hlim as [[-> ->]|[_ ->]]; [by apply Hf|by left]. }
  - destruct (Hl l lim c' El Hin') as (h0 & E0 & Hr0). destruct (decide (c' = c)) as [->|Hne].
    + rewrite lookup_insert_eq. exists h'. split; [done|]. assert (h0 = h) as -> by congruence.
      destruct (Hr l Hr0) as [?|[-> Hnot]]; [done|]. destruct Hlim as [[_ ->]|[? _]]; [by destruct (Hnot lim)|done].
    + rewrite lookup_insert_ne by done. eauto.
  - rewrite lookup_insert_eq. eauto.
Qed.

Lemma live_handler_step s c h ev s' :
  inv s → live_ok s → s_handlers s !! c = Some h → handler_step s c h ev = Some s' → event_conn ev = Some c →
  live_ok s'.
Proof.
  intros Hinv Hl Hc H Hev.
  pose proof (i_shape _ Hinv c h Hc) as [Hnd Hsh].
  assert (∀ h', (∀ l, registered l h → registered l h') → live_ok (put c h' s)) as Hsame.
  { intros h'. by apply live_same. }
  assert (∀ l0 f h', (∀ lim c', rg_heap (s_registry s) !! l0 = Some lim → c' ∈ l_live (f lim) → c' ∈ l_live lim) →
    (∀ l, registered l h → registered l h') → live_ok (put c h' (on_limiter l0 f s))) as Hon.
  { intros l0 f h' H1 H2. eapply live_on; [done|done| |]; intros; eauto. }
  destruct ev; cbn in H, Hev; try done; injection Hev as <-; destruct (h_pc h) eqn:Hpc; try done;
    unfold registered in *; simpl in Hsh; rewrite ?Hpc, ?Hsh in *.
  - destruct (limiterFor _ _); injection H as <-; apply Hsame; set_solver.
  - apply bind_Some in H as (lim & El & H). destruct (acquire fused now lim) as [lim' [reason ok]] eqn:Ea.
    apply acquire_fields in Ea as (_ & Hlive & _). injection H as <-.
    destruct ok; apply Hon; simpl; rewrite ?Hsh; intros; try set_solver.
  - destruct read_deadline; [injection H as <-; apply Hsame; set_solver|].
    destruct (fst (readHelloRequest r)) as [svc|e]; [injection H as <-; apply Hsame; set_solver|].
    destruct (errors_Is e _); injection H as <-; apply Hsame; set_solver.
  - destruct (Policy.Resolve _ _ _) as [b []]; injection H as <-; apply Hsame; set_solver.
  - destruct dial; injection H as <-; apply Hsame; simpl; set_solver.
  - injection H as <-. eapply live_on; [done|done| |].
    + simpl. set_solver.
    + intros l'. unfold registered. rewrite Hpc, Hsh. set_solver.
  - case_bool_decide; injection H as <-; apply Hsame; simpl; set_solver.
  - injection H as <-. eapply live_on; [done|done| |].
    + simpl. set_solver.
    + intros l'. unfold registered. rewrite Hpc. intros <-. right. split; [done|]. simpl. set_solver.
  - destruct (respond deadline (h_out h) statusOK) as [err w].
    destruct err, clear; injection H as <-; apply Hsame; simpl; rewrite ?Hsh; set_solver.
  - injection H as <-. apply Hsame. simpl. rewrite Hsh. set_solver.
  - pose proof (λ l, registered_unwound l h Hpc) as Hun. unfold registered in Hun at 1.
    destruct (h_defers h) as [|[] ds] eqn:Hd; injection H as <-.
    + apply Hsame. simpl. set_solver.
    + change (live_ok (put c0 (unwound h) s)). apply Hsame. intros l. rewrite Hun. simpl. set_solver.
    + apply Hsame. intros l. rewrite Hun. simpl. set_solver.
    + apply Hon; [|intros l'; rewrite Hun; simpl; set_solver]. intros lim c' _. unfold release.
      by destruct (_ <? _)%Z.
    + apply Hsame. intros l. rewrite Hun. simpl. set_solver.
    + eapply live_on; [done|done|simpl; set_solver|]. intros l'. unfold registered. rewrite Hun, Hpc, Hd. simpl.
      intros [[= ->]|?]%elem_of_cons; [right; split; [done|]; simpl; set_solver|by left].
Qed.

Lemma live_ok_step s ev s' : inv s → event_ok ev → live_ok s → step s ev = Some s' → live_ok s'.
Proof.
  intros Hinv Hok Hl H.
  assert (∀ c, event_conn ev = Some c → (h ← s_handlers s !! c; handler_step s c h ev) = Some s' → live_ok s') as Hh.
  { intros c Hc Hs. apply bind_Some in Hs as (h & E & Hs). by eapply live_handler_step. }
  destruct ev; cbn [step] in H; try (by eapply Hh).
  - destruct (s_listening s); [|done]. destruct (s_handlers s !! c) eqn:Ec; [done|].
    destruct (remoteTunnelIP remote); injection H as <-; intros l lim c' E Hin;
      destruct (Hl l lim c' E Hin) as (h & Eh & Hr); exists h; cbn;
      (rewrite lookup_insert_ne by congruence; done).
  - destruct (s_maint s); try done. by injection H as <-.
  - destruct (s_maint s); try done. destruct (refresh_maps _ _ _) as [rg gone] eqn:Em. injection H as <-.
    pose proof (refresh_maps_refreshed _ _ _ _ _ (i_ok _ Hinv) (i_wf _ Hinv) Em) as Hrf.
    intros l lim' c E Hin. cbn in *. destruct (rg_heap (s_registry s) !! l) as [lim|] eqn:El.
    + destruct (refreshed_keeps _ _ _ _ _ _ Hrf El) as (lim2 & E2 & _ & _ & Hlive).
      apply (Hl l lim); [done|]. rewrite <- Hlive. congruence.
    + destruct (refreshed_heap_new _ _ _ _ _ _ Hrf E El) as (p & _ & _ & ->).
      rewrite (proj2 (proj2 (newPeerLimiter_fields _ _ _))) in Hin. set_solver.
  - destruct (s_maint s) as [| |[] [|l0 ls]| |]; try done. destruct (close_limiter _ _) as [rg conns] eqn:Ec.
    injection H as <-. unfold close_limiter in Ec. destruct (rg_heap (s_registry s) !! l0) as [lim|] eqn:El;
      cbn in Ec; injection Ec as <- <-; intros l lim' c E Hin; cbn in *; [|by eapply Hl].
    apply lookup_insert_Some in E as [[<- <-]|[_ E]]; [set_solver|by eapply Hl].
  - destruct (s_maint s) as [| |[|c0 cs] ls k| |]; try done. injection H as <-. intros l lim c E Hin.
    destruct (Hl l lim c E Hin) as (h & Eh & Hr). cbn. destruct (decide (c = c0)) as [->|Hne].
    + rewrite lookup_alter_eq, Eh. by exists (closed h).
    + rewrite lookup_alter_ne by done. by exists h.
  - destruct (s_maint s) as [| |[] []| |]; try done. by injection H as <-.
  - destruct (s_maint s); try done. destruct (s_canceled s); [|done]. by injection H as <-.
  - destruct (s_maint s); try done. destruct (_ =? _)%Z; [|done]. by injection H as <-.
  - destruct (s_maint s); try done. by injection H as <-.
  - destruct (s_canceled s); [done|]. by injection H as <-.
  - destruct (_ && _); [|done]. by injection H as <-.
  - apply bind_Some in H as (h & E & H). destruct (_ && _); [|done]. injection H as <-.
    apply (live_same s c h); [done|done|]. intros l. by unfold registered.
Qed.

Lemma live_ok_reachable now cfg s : addrs_distinct (pc_peers cfg) → reachable now cfg s → live_ok s.
Proof.
  intros Hwf. induction 1 as [|s ev s' Hr IH Hok Hs].
  - intros l lim c E Hin. pose proof (inv_initial now cfg Hwf) as Hinv. unfold initial, refreshPeers in E, Hinv.
    destruct (refresh_maps now (pc_peers cfg) empty_registry) as [rg gone] eqn:Em. cbn in E.
    pose proof (refresh_maps_refreshed _ _ _ _ _ registry_ok_empty Hwf Em) as Hrf.
    destruct (close_limiters gone rg) as [rg' cl] eqn:Ec. cbn in E.
    apply close_limiters_spec in Ec as (_ & _ & Hh & _). rewrite Hh in E.
    apply fmap_Some in E as (lim0 & E0 & ->).
    destruct (refreshed_heap_new _ _ _ _ _ _ Hrf E0) as (p & _ & _ & ->); [apply lookup_empty|].
    destruct (newPeerLimiter_fields (pr_PublicKey p) (pr_Limits p) now) as (_ & _ & Hlive).
    destruct (decide _); simpl in Hin; rewrite ?Hlive in Hin; set_solver.
  - eapply live_ok_step; [by eapply inv_reachable|done|done|done].
Qed.

Lemma done_no_defers s c h : inv s → s_handlers s !! c = Some h → h_pc h = Done → h_defers h = [].
Proof. intros Hinv Hc Hpc. eapply shape_defers; [by eapply i_shape|by rewrite Hpc]. Qed.

(** C11: a peer's concurrency count is exactly the number of its connections
    between admission and their last deferred call, on every path out of the
    handler and across every reload; only such connections are in its live
    set; when all have returned the count is zero and the set empty. *)
Theorem slots_are_returned now cfg s l lim :
  addrs_distinct (pc_peers cfg) → reachable now cfg s → rg_heap (s_registry s) !! l = Some lim →
  l_active lim = Z.of_nat (holders l (s_handlers s))
  ∧ (∀ c, c ∈ l_live lim → ∃ h, s_handlers s !! c = Some h ∧ registered l h ∧ is_done h = false)
  ∧ ((∀ c h, s_handlers s !! c = Some h → is_done h = true) → l_active lim = 0%Z ∧ l_live lim = ∅).
Proof.
  intros Hwf Hr El. pose proof (inv_reachable _ _ _ Hwf Hr) as Hinv.
  pose proof (live_ok_reachable _ _ _ Hwf Hr) as Hlive.
  assert (∀ h, is_done h = true → h_pc h = Done) as Hdone.
  { intros h. unfold is_done. by destruct (h_pc h). }
  assert (∀ c, c ∈ l_live lim → ∃ h, s_handlers s !! c = Some h ∧ registered l h ∧ is_done h = false) as Hreg.
  { intros c Hin. destruct (Hlive l lim c El Hin) as (h & Ec & Hreg). exists h. split_and!; [done|done|].
    apply not_true_is_false. intros Hd%Hdone. unfold registered in Hreg. rewrite Hd in Hreg.
    rewrite (done_no_defers _ _ _ Hinv Ec Hd) in Hreg. set_solver. }
  split_and!; [by apply Hinv|done|]. intros Hall. split.
  - rewrite (i_count _ Hinv l lim El), holders_none; [done|]. intros c h Ec Hin.
    rewrite (done_no_defers _ _ _ Hinv Ec) in Hin; [set_solver|]. eapply Hdone, Hall, Ec.
  - apply leibniz_equiv, elem_of_equiv_empty. intros c Hin.
    destruct (Hreg c Hin) as (h & Ec & _ & Hd). specialize (Hall c h Ec). congruence.
Qed.

(** ** Shutdown *)

(** What the I/O of one connection returns, in any order of the code. *)
Record outcome := {
  o_fused : bool; o_now : Z; o_deadline : option error; o_read_deadline : option error;
  o_reader : reader; o_dial : option error; o_clear : option error
}.

(** What ends a connection whatever its two ends do: each call of a handler
    returns (see [Deadlines]), but a pipe only once its connections have been
    closed from outside. *)
Definition forced_step (s : system) (ev : event) : option system :=
  match ev with
  | PipeEnds c => h ← s_handlers s !! c; if h_closed h then step s ev else None
  | FindLimiter _ | Acquire _ _ _ _ | ReadHello _ _ _ _ | ResolveService _ _ | DialBackend _ _ _ | Track _
  | Recheck _ | UntrackOrphan _ | RespondOK _ _ _ | RunDefer _ | CtxCloses _ | AllReturned => step s ev
  | _ => None
  end.

(** The next such action at a handler. *)
Definition next_event (c : nat) (o : outcome) (h : handler) : option event :=
  match h_pc h with
  | Accepted => Some (FindLimiter c)
  | Admitting _ => Some (Acquire c (o_fused o) (o_now o) (o_deadline o))
  | ReadingHello _ => Some (ReadHello c (o_read_deadline o) (o_reader o) (o_deadline o))
  | Resolving _ _ => Some (ResolveService c (o_deadline o))
  | Dialing _ _ _ _ => Some (DialBackend c (o_dial o) (o_deadline o))
  | Dialed _ _ _ _ => Some (Track c)
  | Tracked _ _ _ _ => Some (Recheck c)
  | Orphaned _ _ => Some (UntrackOrphan c)
  | Checked _ _ _ _ => Some (RespondOK c (o_deadline o) (o_clear o))
  | Piping _ _ _ _ => Some (if h_closed h then PipeEnds c else CtxCloses c)
  | Returning => Some (RunDefer c)
  | Done => None
  end.

(** A handler is never stuck once the context is cancelled, whatever its I/O
    returns. *)
Lemma next_event_enabled s c o h ev :
  inv s → s_canceled s = true → s_handlers s !! c = Some h → next_event c o h = Some ev → is_Some (forced_step s ev).
Proof.
  intros Hinv Hcan Hc. unfold next_event. destruct (h_pc h) eqn:Hpc; try done; intros [= <-];
    cbn [forced_step]; try (rewrite (handler_event_step s c), Hc by done; cbn; rewrite Hpc; try by eexists).
  - by destruct (limiterFor _ _); eexists.
  - destruct (i_uses _ Hinv c h l Hc) as [lim ->]; [by left|]. simpl.
    destruct (acquire _ _ _) as [? [? []]]; by eexists.
  - destruct (o_read_deadline o); [by eexists|]. destruct (fst _); by eexists.
  - destruct (Policy.Resolve _ _ _) as [b' []]; by eexists.
  - destruct (o_dial o); by eexists.
  - case_bool_decide; by eexists.
  - destruct (respond _ _ _) as [[] ?], (o_clear o); by eexists.
  - destruct (h_closed h) eqn:Hcl; cbn [forced_step].
    + rewrite Hc. cbn [mbind option_bind]. rewrite Hcl, (handler_event_step s c), Hc by done. cbn. rewrite Hpc. by eexists.
    + cbn [step]. rewrite Hc. cbn. unfold is_piping. rewrite Hcan, Hpc, Hcl. by eexists.
  - destruct (h_defers h) as [|[] ?]; by eexists.
Qed.

(** What is left for all handlers to do. *)
Definition work (s : system) : nat := map_fold (λ _ h n, distance h + n) 0 (s_handlers s).

Lemma work_insert_new c h (hs : gmap nat handler) :
  hs !! c = None → map_fold (λ _ h n, distance h + n) 0 (<[c := h]> hs)
    = distance h + map_fold (λ _ h n, distance h + n) 0 hs.
Proof. intros Hc. apply (map_fold_insert_L (λ _ h n, distance h + n)); [intros; lia|done]. Qed.

Lemma work_insert c h h' (hs : gmap nat handler) :
  hs !! c = Some h → distance h' < distance h →
  map_fold (λ _ h n, distance h + n) 0 (<[c := h']> hs) < map_fold (λ _ h n, distance h + n) 0 hs.
Proof.
  intros Hc Hd. rewrite <- (insert_delete_id hs c h) at 2 by done. rewrite <- insert_delete_eq.
  rewrite !work_insert_new by apply lookup_delete_eq. lia.
Qed.

(** *** The wait *)

(** Every handler unwinds to [wg.Done], and the counter is the number of those
    that have not got there. *)
Record tidy (s : system) : Prop := {
  td_shape : ∀ c h, s_handlers s !! c = Some h → shape h;
  td_wg : s_wg s = Z.of_nat (running (s_handlers s))
}.

Lemma handler_step_tidy s c h ev s' : shape h → handler_step s c h ev = Some s' → ∃ h',
  s_handlers s' = <[c := h']> (s_handlers s) ∧ shape h'
  ∧ (s_wg s' + counted (λ h, negb (is_done h)) h = s_wg s + counted (λ h, negb (is_done h)) h')%Z.
Proof.
  intros Hsh H. pose proof Hsh as [Hnd Hd]. unfold counted, is_done.
  destruct ev; cbn in H; try done; destruct (h_pc h) eqn:Hpc; try done; cbn in Hd;
    try (repeat first [apply bind_Some in H as (? & _ & H) | case_match]; try done; injection H as <-; eexists;
         (split; [reflexivity|]); (split; [|cbn; rewrite ?Hpc; lia]);
         split; cbn; rewrite ?Hpc, ?Hd; cbn; done || (repeat constructor; set_solver)).
  pose proof (unwound_shape h) as Hun. pose proof (unwound_fields h) as (_ & _ & _ & _ & Epc).
  destruct (h_defers h) as [|d ds] eqn:Ed; [done|]. specialize (Hun d ds Hsh Hpc eq_refl). cbn [tail] in Epc.
  assert (d = WgDone ↔ ds = []) as Hlast.
  { destruct ds as [|d' ds]; [split; [done|]; intros _; by injection Hd|]. split; [|done]. intros ->.
    apply NoDup_cons in Hnd as [Hnin _]. destruct Hnin. by apply last_Some_elem_of. }
  assert (∀ s1, s_handlers s1 = s_handlers s → (d = WgDone ∧ s_wg s1 = s_wg s - 1 ∨ d ≠ WgDone ∧ s_wg s1 = s_wg s)%Z →
    ∃ h', s_handlers (put c (unwound h) s1) = <[c := h']> (s_handlers s) ∧ shape h'
      ∧ (s_wg (put c (unwound h) s1) + 1 = s_wg s + (if negb match h_pc h' with Done => true | _ => false end then 1 else 0))%Z)
    as Hgo.
  { intros s1 E1 E2. exists (unwound h). cbn. rewrite E1. split_and!; [done|done|]. rewrite Epc.
    destruct E2 as [[E2 E3]|[E2 E3]]; rewrite Hlast in E2; destruct ds; try done; rewrite ?Hpc; cbn; lia. }
  rewrite ?Hpc. cbn [negb]. destruct d; injection H as <-; apply Hgo;
    first [done | right; split; done | left; split; [done|cbn; lia]].
Qed.

Lemma tidy_reachable now cfg s : reachable now cfg s → tidy s.
Proof.
  induction 1 as [|s ev s' _ [Ts Tw] Hok H].
  { split; [intros c h E; cbn in E; by rewrite lookup_empty in E|]. unfold running. cbn. by rewrite count_empty. }
  assert (s_handlers s' = s_handlers s → s_wg s' = s_wg s → tidy s') as Hsame.
  { intros E1 E2. split; rewrite E1; [done|congruence]. }
  assert (∀ c h, s_handlers s !! c = Some h → s_handlers s' = <[c := closed h]> (s_handlers s) → s_wg s' = s_wg s → tidy s') as Hcl.
  { intros c h Hc E1 E2. split; rewrite E1.
    - intros c' h' [[<- <-]|[_ E]]%lookup_insert_Some; [by apply (Ts c h)|by eapply Ts].
    - rewrite E2, Tw. pose proof (count_insert (λ h, negb (is_done h)) c h (closed h) _ Hc) as Hn.
      change (counted (λ h, negb (is_done h)) (closed h)) with (counted (λ h, negb (is_done h)) h) in Hn.
      unfold running. lia. }
  destruct (event_conn ev) as [c|] eqn:Hev.
  { rewrite (handler_event_step _ _ _ Hev) in H. apply bind_Some in H as (h & Hc & H).
    destruct (handler_step_tidy _ _ _ _ _ (Ts c h Hc) H) as (h' & E & Hsh & Hw). split; rewrite E.
    - intros c' h0 [[<- <-]|[_ E']]%lookup_insert_Some; [done|by eapply Ts].
    - pose proof (count_insert (λ h, negb (is_done h)) c h h' _ Hc). unfold running in *. lia. }
  destruct ev; try done; cbn [step] in H;
    try (repeat first [apply bind_Some in H as (? & _ & H) | case_match]; try done; injection H as <-; by apply Hsame).
  - destruct (s_listening s); [|done]. destruct (s_handlers s !! c) eqn:Hc; [done|].
    destruct (remoteTunnelIP remote); injection H as <-; (split; cbn [put set_handlers wg_add s_handlers s_wg];
      [intros c' h' [[<- <-]|[_ E]]%lookup_insert_Some; [split; [repeat constructor; set_solver|done]|by eapply Ts]
      |unfold running; rewrite count_insert_new by done; rewrite Tw; done]).
  - destruct (s_maint s) as [| |[]| |]; try done. injection H as <-. destruct (s_handlers s !! n) as [h|] eqn:Hc.
    + apply (Hcl n h); [done| |done]. cbn. by rewrite <- (insert_id _ _ _ Hc) at 1; rewrite alter_insert_eq.
    + apply Hsame; [|done]. cbn. apply alter_id. intros; congruence.
  - apply bind_Some in H as (h & Hc & H). destruct (_ && _); [|done]. injection H as <-. by apply (Hcl c h).
Qed.

Lemma tidy_all_done s : tidy s → s_wg s = 0%Z → ∀ c h, s_handlers s !! c = Some h → is_done h = true.
Proof.
  intros [_ Tw] Hz c h Hc. rewrite Hz in Tw. apply negb_false_iff.
  apply (proj1 (count_none (λ h, negb (is_done h)) (s_handlers s))) with (c := c); [unfold running in Tw; lia|done].
Qed.

(** Nothing is accepted once shutdown has begun, with the context cancelled,
    and the device is closed in good order only behind the last handler. *)
Definition phase_ok (s : system) : Prop :=
  match s_maint s with
  | DeviceClosed b => (s_listening s = false ∧ s_canceled s = true)
      ∧ (b = true → ∀ c h, s_handlers s !! c = Some h → is_done h = true)
  | Waiting | Closing _ _ ThenWait => s_listening s = false ∧ s_canceled s = true
  | _ => True
  end.

Lemma handler_step_not_done s c h ev s' : handler_step s c h ev = Some s' → is_done h = false.
Proof. unfold is_done. intros H. destruct ev; cbn in H; destruct (h_pc h); done. Qed.

Lemma phase_ok_reachable now cfg s : reachable now cfg s → phase_ok s.
Proof.
  induction 1 as [|s ev s' Hr IH Hok Hs]; [done|]. unfold phase_ok in IH.
  assert (∀ c, event_conn ev = Some c → (h ← s_handlers s !! c; handler_step s c h ev) = Some s' → phase_ok s') as Hh.
  { intros c _ Hx. apply bind_Some in Hx as (h & E & Hx). pose proof (handler_step_not_done _ _ _ _ _ Hx) as Hd.
    apply handler_step_local in Hx as (h' & Hl). destruct (ls_frame _ _ _ _ _ Hl) as ([_ Ek] & Em & El).
    unfold phase_ok. rewrite Em, El, Ek. destruct (s_maint s) as [| | | |b]; try done.
    destruct IH as [IH1 IH2]. split; [done|]. intros ->. specialize (IH2 eq_refl c h E). congruence. }
  destruct ev; cbn [step] in Hs; try (by eapply Hh); unfold phase_ok.
  - destruct (s_listening s) eqn:El; [|done]. destruct (s_handlers s !! c); [done|].
    assert (s_maint s' = s_maint s) as -> by (by destruct (remoteTunnelIP remote); injection Hs as <-).
    destruct (s_maint s) as [| |? ? []| |]; try done; destruct IH; try done. by destruct H.
  - destruct (s_maint s); try done. by injection Hs as <-.
  - destruct (s_maint s); try done. destruct (refresh_maps _ _ _). by injection Hs as <-.
  - destruct (s_maint s) as [| |[] []| |]; try done. destruct (close_limiter _ _). by injection Hs as <-.
  - destruct (s_maint s) as [| |[]| |]; try done. by injection Hs as <-.
  - destruct (s_maint s) as [| |[] [] []| |]; try done; by injection Hs as <-.
  - destruct (s_maint s); try done. destruct (s_canceled s) eqn:Ek; [|done]. injection Hs as <-. by cbn.
  - destruct (s_maint s); try done. destruct (s_wg s =? 0)%Z eqn:Hz; [|done]. bool_props. injection Hs as <-.
    split; [done|]. intros _. apply (tidy_all_done s); [by eapply tidy_reachable|done].
  - destruct (s_maint s); try done. by injection Hs as <-.
  - destruct (s_canceled s); [done|]. injection Hs as <-. cbn. destruct (s_maint s) as [| |? ? []| |]; tauto.
  - destruct (s_canceled s) eqn:Ek; [|done]. cbn in Hs. destruct (s_listening s); [|done]. injection Hs as <-. cbn.
    destruct (s_maint s) as [| |? ? []| |]; tauto.
  - apply bind_Some in Hs as (h & E & Hs). destruct (s_canceled s && is_piping h) eqn:Ep; [|done]. cbn in Hs.
    destruct (h_closed h); [done|]. injection Hs as <-. cbn. bool_props.
    destruct (s_maint s) as [| |? ? []| |b]; try done. destruct IH as [IH1 IH2]. split; [done|]. intros Hb.
    specialize (IH2 Hb c h E). unfold is_piping, is_done in *. by destruct (h_pc h).
Qed.

Lemma closed_stops s ev : phase_ok s → s_maint s = DeviceClosed true → step s ev = None.
Proof.
  intros Hp Hm. unfold phase_ok in Hp. rewrite Hm in Hp. destruct Hp as [[Hl Hk] Hd]. specialize (Hd eq_refl).
  destruct (event_conn ev) as [c|] eqn:Hev.
  - rewrite (handler_event_step s c ev Hev). destruct (s_handlers s !! c) as [h|] eqn:Hc; [|done]. simpl.
    destruct (handler_step s c h ev) eqn:E; [|done]. apply handler_step_not_done in E.
    specialize (Hd c h Hc). congruence.
  - destruct ev; cbn in Hev |- *; try done; rewrite ?Hm, ?Hl, ?Hk; try done.
    destruct (s_handlers s !! c) as [h|] eqn:Hc; [|done]. specialize (Hd c h Hc). unfold is_done, is_piping in *.
    cbn. by destruct (h_pc h).
Qed.

(** *** Any forced run ends *)

Lemma forced_step_step s ev s' : forced_step s ev = Some s' → step s ev = Some s' ∧ event_ok ev.
Proof.
  intros H. destruct ev; cbn [forced_step] in H; try done.
  apply bind_Some in H as (h & _ & H). by destruct (h_closed h).
Qed.

Lemma forced_step_work s ev s' : s_maint s = Waiting → forced_step s ev = Some s' →
  s_maint s' = Waiting ∧ work s' < work s ∨ s_maint s' = DeviceClosed true.
Proof.
  intros Hm Hf. pose proof (forced_step_step _ _ _ Hf) as [H _].
  destruct (event_conn ev) as [c|] eqn:Hev.
  { rewrite (handler_event_step _ _ _ Hev) in H. apply bind_Some in H as (h & Hc & H).
    apply handler_step_local in H as (h' & Hl). destruct (ls_frame _ _ _ _ _ Hl) as (_ & Em & _). left.
    split; [congruence|]. unfold work. rewrite (ls_put _ _ _ _ _ Hl). by eapply work_insert, ls_distance. }
  destruct ev; try done; cbn [step] in H.
  - rewrite Hm in H. destruct (_ =? _)%Z; [|done]. injection H as <-. by right.
  - apply bind_Some in H as (h & Hc & H). destruct (s_canceled s && is_piping h); [|done]. cbn in H.
    destruct (h_closed h) eqn:Hcl; [done|]. injection H as <-. left. split; [done|].
    apply (work_insert c h); [done|]. unfold distance. cbn. rewrite Hcl. lia.
Qed.

Lemma forced_run now cfg evs s s' : reachable now cfg s → s_maint s = Waiting → run forced_step s evs = Some s' →
  reachable now cfg s' ∧ (s_maint s' = Waiting ∧ length evs + work s' ≤ work s
   ∨ s_maint s' = DeviceClosed true ∧ length evs ≤ S (work s)).
Proof.
  revert s. induction evs as [|ev evs IH]; intros s Hr Hm H; cbn [run length] in *.
  { injection H as <-. split; [done|]. left. split; [done|lia]. }
  apply bind_Some in H as (s1 & H1 & H). pose proof (forced_step_step _ _ _ H1) as [Hs Hok].
  assert (reachable now cfg s1) as Hr1 by by econstructor.
  destruct (forced_step_work _ _ _ Hm H1) as [[Hm1 Hw]|Hm1].
  - destruct (IH s1 Hr1 Hm1 H) as (Hr' & [[? ?]|[? ?]]); (split; [done|]); [left|right]; (split; [done|lia]).
  - destruct evs as [|ev' evs]; [injection H as <-; split; [done|]; right; split; [done|cbn; lia]|].
    cbn in H. apply bind_Some in H as (s2 & H2 & _). apply forced_step_step in H2 as [H2 _].
    by rewrite (closed_stops s1 ev' (phase_ok_reachable _ _ _ Hr1) Hm1) in H2.
Qed.

Lemma all_done_or_not (hs : gmap nat handler) :
  (∀ c h, hs !! c = Some h → is_done h = true) ∨ ∃ c h, hs !! c = Some h ∧ is_done h = false.
Proof.
  destruct (decide (map_Forall (λ _ h, is_done h = true) hs)) as [?|Hn]; [by left|right].
  apply map_not_Forall in Hn; [|apply _]. destruct Hn as (c & h & E & Hd).
  exists c, h. by destruct (is_done h).
Qed.

(** While the wait lasts, some handler, or the wait itself, can go on. *)
Lemma forced_enabled now cfg (o : nat → outcome) s :
  addrs_distinct (pc_peers cfg) → reachable now cfg s → s_maint s = Waiting →
  ∃ ev, is_Some (forced_step s ev) ∧ (ev = AllReturned ∨ ∃ c h, s_handlers s !! c = Some h ∧ next_event c (o c) h = Some ev).
Proof.
  intros Hwf Hr Hm. pose proof (phase_ok_reachable _ _ _ Hr) as Hp. unfold phase_ok in Hp. rewrite Hm in Hp.
  destruct (all_done_or_not (s_handlers s)) as [Hall|(c & h & Hc & Hd)].
  - exists AllReturned. split; [|by left]. cbn. rewrite Hm. pose proof (td_wg _ (tidy_reachable _ _ _ Hr)) as Hw.
    unfold running in Hw. rewrite (proj2 (count_none _ _)) in Hw; [by rewrite Hw|].
    intros c h Hc. by rewrite (Hall c h Hc).
  - assert (is_Some (next_event c (o c) h)) as [ev Hev] by (unfold next_event, is_done in *; by destruct (h_pc h)).
    exists ev. split; [|right; by exists c, h].
    eapply next_event_enabled; [by eapply inv_reachable|by apply Hp|done|done].
Qed.

(** *** What shutdown closes *)

Definition draining (m : maint) : Prop :=
  match m with Closing _ _ ThenWait | Waiting | DeviceClosed _ => True | _ => False end.

(** A connection that was registered when shutdown began: shutdown still has
    it to close, or has closed it, or it has left by itself. *)
Definition marked (c : nat) (s : system) : Prop :=
  draining (s_maint s) ∧ ∃ h, s_handlers s !! c = Some h ∧ rank (h_pc h) ≤ 12
  ∧ ∀ l, tracked_at h = Some l →
      h_closed h = true ∨ c ∈ closing_conns (s_maint s) ∨ l ∈ closing_limiters (s_maint s).

Lemma handler_step_tracked s c h ev s' h' : rank (h_pc h) ≤ 12 → handler_step s c h ev = Some s' →
  s_handlers s' !! c = Some h' → ∀ l, tracked_at h' = Some l → tracked_at h = Some l ∧ h_closed h' = h_closed h.
Proof.
  intros Hr H Hc' l. unfold tracked_at.
  destruct ev; cbn in H; try done; destruct (h_pc h) eqn:Hpc; try done; cbn in Hr; try lia;
    repeat first [apply bind_Some in H as (? & _ & H) | case_match]; try done; simplify_eq;
    cbn in Hc'; rewrite lookup_insert_eq in Hc'; injection Hc' as <-;
    try (destruct (unwound_pc h Hpc) as [E|E]; rewrite E in * ); cbn in *; try done; by simplify_eq.
Qed.

Lemma marked_step c s ev s' : inv s → marked c s → step s ev = Some s' → marked c s'.
Proof.
  intros Hinv (Hdr & h & Hc & Hrk & Hcl) H.
  assert (s_maint s' = s_maint s → s_handlers s' !! c = Some h → marked c s') as Hsame.
  { intros Em Hc'. split; rewrite Em; [done|]. by exists h. }
  destruct (event_conn ev) as [c0|] eqn:Hev.
  { rewrite (handler_event_step _ _ _ Hev) in H. apply bind_Some in H as (h0 & Hc0 & H).
    pose proof H as [h' Hl]%handler_step_local. pose proof (ls_put _ _ _ _ _ Hl) as Hp.
    destruct (ls_frame _ _ _ _ _ Hl) as (_ & Em & _). destruct (decide (c0 = c)) as [->|Hne].
    - assert (h0 = h) as -> by congruence. split; rewrite Em; [done|]. exists h'. rewrite Hp, lookup_insert_eq.
      pose proof (ls_rank _ _ _ _ _ Hl). split_and!; [done|lia|]. intros l Ht.
      destruct (handler_step_tracked s c h ev s' h' Hrk H) with (l := l) as [Ht' ->]; [by rewrite Hp, lookup_insert_eq|done|].
      by apply Hcl.
    - apply Hsame; [done|]. by rewrite Hp, lookup_insert_ne. }
  destruct ev; try done; cbn [step] in H.
  - destruct (s_listening s); [|done]. destruct (s_handlers s !! c0) eqn:Hc0; [done|].
    destruct (remoteTunnelIP remote); injection H as <-; (apply Hsame; [done|]); cbn; by rewrite lookup_insert_ne by congruence.
  - by destruct (s_maint s).
  - by destruct (s_maint s).
  - destruct (s_maint s) as [| |[] [|l0 ls] k| |] eqn:Hm; try done. destruct (close_limiter _ _) as [rg conns] eqn:Ec.
    injection H as <-. split; [done|]. exists h. split_and!; [done|done|]. intros l Ht. cbn in Hcl |- *.
    destruct (Hcl l Ht) as [?|[[]%elem_of_nil|[->|?]%elem_of_cons]]; [by left| |by right; right].
    destruct (i_tracked _ Hinv c h l0 Hc Ht) as [?|[Hx|(lim & El & Hin)]]; [by left|rewrite Hm in Hx; by apply elem_of_nil in Hx|].
    unfold close_limiter in Ec. rewrite El in Ec. injection Ec as <- <-. right. left. cbn. by apply elem_of_elements.
  - destruct (s_maint s) as [| |[|n conns] ls k| |] eqn:Hm; try done. injection H as <-. split; [done|].
    cbn in Hcl |- *. destruct (decide (n = c)) as [->|Hne].
    + rewrite lookup_alter_eq, Hc. exists (closed h). split_and!; [done|done|]. by left.
    + rewrite lookup_alter_ne by done. exists h. split_and!; [done|done|]. intros l Ht. destruct (Hcl l Ht); set_solver.
  - destruct (s_maint s) as [| |[] [] k| |] eqn:Hm; try done. injection H as <-. destruct k; [done|]. split; [done|].
    exists h. split_and!; [done|done|]. intros l Ht. destruct (Hcl l Ht) as [?|[[]%elem_of_nil|[]%elem_of_nil]]. by left.
  - by destruct (s_maint s).
  - destruct (s_maint s) eqn:Hm; try done. destruct (_ =? _)%Z; [|done]. injection H as <-. split; [done|]. by exists h.
  - destruct (s_maint s) eqn:Hm; try done. injection H as <-. split; [done|]. by exists h.
  - destruct (s_canceled s); [done|]. injection H as <-. by apply Hsame.
  - destruct (_ && _); [|done]. injection H as <-. by apply Hsame.
  - apply bind_Some in H as (h0 & Hc0 & H). destruct (_ && _); [|done]. injection H as <-.
    destruct (decide (c0 = c)) as [->|Hne]; [|apply Hsame; [done|]; cbn; by rewrite lookup_insert_ne].
    assert (h0 = h) as -> by congruence. split; [done|]. exists (closed h). cbn. rewrite lookup_insert_eq.
    split_and!; [done|done|]. by left.
Qed.

Lemma marked_run now cfg c evs s s' : addrs_distinct (pc_peers cfg) → reachable now cfg s → marked c s →
  Forall event_ok evs → run step s evs = Some s' → marked c s'.
Proof.
  intros Hwf Hr Hm Hok Hrun.
  apply (run_reachable step (λ s, reachable now cfg s ∧ marked c s) event_ok) with (evs := evs) (s := s); [|done..].
  intros s1 ev s2 [H1 H2] Hev H. split; [by econstructor|]. eapply marked_step; [by eapply inv_reachable|done..].
Qed.

Lemma marked_shutdown c h l s s' : s_handlers s !! c = Some h → tracked_at h = Some l →
  limiterFor (h_ip h) (s_registry s) = Some l → s_maint s = Idle → step s Shutdown = Some s' → marked c s'.
Proof.
  intros Hc Ht Hl Hm H. cbn [step] in H. rewrite Hm in H. destruct (s_canceled s); [|done]. injection H as <-.
  split; [done|]. exists h. split_and!; [done|unfold tracked_at in Ht; destruct (h_pc h); cbn; done || lia|].
  intros l' Ht'. right. right. assert (l' = l) as -> by congruence. cbn. apply elem_of_range_values. by eexists.
Qed.

(** C12: shutdown drains.  When it begins, Run's context is cancelled; by the
    time the wait for the handlers begins, it has itself closed every connection
    that was registered, under a limiter in force, when it began, except those
    whose handlers have left the proxy.  From then on actions that need
    nothing from either end (calls that end by their deadlines, pipes that
    have been closed, the goroutine that closes a pipe of a cancelled context,
    the wait itself when the counter of handlers is zero) end the wait, in
    whatever order they come: there are at most as many of them as are left
    when it begins, and until the wait is over one is enabled, whatever the
    calls return.  A device closed behind that wait is closed behind the last
    handler, after which nothing runs any more. *)
Theorem shutdown_drains now cfg s (o : nat → outcome) :
  addrs_distinct (pc_peers cfg) → reachable now cfg s →
  (s_maint s = Idle → ∀ evs s', Forall event_ok evs → run step s (Shutdown :: evs) = Some s' → s_maint s' = Waiting →
     ∀ c h l h', s_handlers s !! c = Some h → tracked_at h = Some l → limiterFor (h_ip h) (s_registry s) = Some l →
       s_handlers s' !! c = Some h' → is_Some (tracked_at h') → h_closed h' = true)
  ∧ (s_maint s = Waiting → ∀ evs s', run forced_step s evs = Some s' →
     length evs ≤ S (work s)
     ∧ (s_maint s' = DeviceClosed true
        ∨ s_maint s' = Waiting ∧ ∃ ev, is_Some (forced_step s' ev)
            ∧ (ev = AllReturned ∨ ∃ c h, s_handlers s' !! c = Some h ∧ next_event c (o c) h = Some ev)))
  ∧ (s_maint s = DeviceClosed true →
     (∀ c h, s_handlers s !! c = Some h → h_pc h = Done ∧ h_defers h = []) ∧ ∀ ev, step s ev = None).
Proof.
  intros Hwf Hr. split_and!.
  - intros Hm evs s' Hok H Hm' c h l h' Hc Ht Hl Hc' [l' Ht']. cbn [run] in H. apply bind_Some in H as (s1 & Hs & H).
    assert (marked c s') as (_ & h2 & Hc2 & _ & Hcl).
    { eapply (marked_run now cfg c evs s1); [done|by eapply (reach_step _ _ s Shutdown)|by apply (marked_shutdown c h l s)|done|done]. }
    assert (h2 = h') as -> by congruence. rewrite Hm' in Hcl.
    by destruct (Hcl l' Ht') as [?|[[]%elem_of_nil|[]%elem_of_nil]].
  - intros Hm evs s' H. destruct (forced_run _ _ _ _ _ Hr Hm H) as [Hr' [[Hm' Hn]|[Hm' Hn]]]; (split; [lia|]); [right|by left].
    split; [done|]. by eapply forced_enabled.
  - intros Hm. pose proof (phase_ok_reachable _ _ _ Hr) as Hp. unfold phase_ok in Hp. rewrite Hm in Hp.
    destruct Hp as [Hl Hd]. specialize (Hd eq_refl). split.
    + intros c h Hc. specialize (Hd c h Hc). assert (h_pc h = Done) as Hpc by (unfold is_done in Hd; by destruct (h_pc h)).
      split; [done|]. eapply done_no_defers; [by eapply inv_reachable|done|done].
    + intros ev. apply closed_stops; [by eapply phase_ok_reachable|done].
Qed.

End handler_facts.

(** ** A served connection, across a reload *)

#[local] Existing Instance canonical_range.

Definition demo_connect : list event := [
  Accept 1 (TCPAddr (byte_of_Z <$> [10; 99; 0; 7]%Z)) (mkWriter [] None);
  FindLimiter 1; Acquire 1 true 5 None;
  ReadHello 1 None (mkReader [Wire.hello_request_frame (#"primary-db")] EOF_error) None;
  ResolveService 1 None; DialBackend 1 None None; Track 1; Recheck 1].
Definition demo_run (evs : list event) : system :=
  default (initial 0 demo_config) (run step (initial 0 demo_config) evs).
Definition demo_handler (s : system) : handler :=
  default {| h_ip := AddrNone; h_pc := Done; h_defers := []; h_out := mkWriter [] None; h_closed := false |}
    (s_handlers s !! 1).
Definition demo_granted : system := demo_run demo_connect.
Definition demo_piping : system := default demo_granted (step demo_granted (RespondOK 1 None None)).
Definition demo_reloaded : system :=
  demo_run (demo_connect ++ [RespondOK 1 None None; Swap demo_config; Refresh 9; CloseFinished]).
(** The address goes to another key while the connection is proxied. *)
Definition demo_revoked : system :=
  demo_run (demo_connect ++ [RespondOK 1 None None; Swap demo_next; Refresh 9; DrainLimiter; CloseNext; DrainLimiter; CloseFinished]).
Definition demo_waiting : system :=
  demo_run (demo_connect ++ [Cancel; Shutdown; DrainLimiter; CloseNext; DrainLimiter; CloseFinished]).

Example demo_revoked_closed :
  is_done (demo_handler demo_revoked) = false ∧ h_closed (demo_handler demo_revoked) = true ∧ s_maint demo_revoked = Idle
  ∧ h_closed (demo_handler demo_reloaded) = false
  ∧ limiterFor (Addr4 174260231) (s_registry demo_revoked) ≠ Some 0.
Proof. split_and!; by vm_compute. Qed.

Lemma demo_wf : addrs_distinct (pc_peers demo_config).
Proof. apply (bool_decide_eq_true_1 _). by vm_compute. Qed.

Lemma demo_reachable evs :
  Forall event_ok evs → bool_decide (is_Some (run step (initial 0 demo_config) evs)) = true →
  reachable 0 demo_config (demo_run evs).
Proof.
  intros Hok H. apply (run_reachable step (reachable 0 demo_config) event_ok (reach_step 0 demo_config) evs
    (initial 0 demo_config)); [constructor|done|by apply from_Some].
Qed.

Ltac events_ok :=
  repeat (apply Forall_cons; split; [first [exact I | exact demo_wf | reflexivity]|]); apply Forall_nil; exact I.

Lemma demo_connect_ok : Forall event_ok demo_connect.
Proof. events_ok. Qed.

Lemma demo_reloaded_reachable : reachable 0 demo_config demo_reloaded.
Proof.
  apply demo_reachable; [|by vm_compute].
  apply Forall_app; split; [apply demo_connect_ok|events_ok].
Qed.

Lemma demo_granted_reachable : reachable 0 demo_config demo_granted.
Proof. apply demo_reachable; [apply demo_connect_ok|by vm_compute]. Qed.

Lemma demo_waiting_reachable : reachable 0 demo_config demo_waiting.
Proof.
  apply demo_reachable; [|by vm_compute].
  apply Forall_app; split; [apply demo_connect_ok|events_ok].
Qed.

Lemma revocation_closes_connections_witness :
  limiterFor (h_ip (demo_handler demo_reloaded)) (s_registry demo_reloaded) = Some 0.
Proof.
  refine (proj1 (revocation_closes_connections 0 demo_config demo_reloaded 1 (demo_handler demo_reloaded) 0
    demo_wf demo_reloaded_reachable _ _ _ _)); [by vm_compute| |by vm_compute|by vm_compute].
  apply from_Some. by vm_compute.
Defined.

Lemma demo_granted_run : run step (initial 0 demo_config) demo_connect = Some demo_granted.
Proof. apply from_Some. by vm_compute. Qed.

Lemma demo_piping_step : step demo_granted (RespondOK 1 None None) = Some demo_piping.
Proof. apply from_Some. by vm_compute. Qed.

Lemma granted_answers_are_authorised_witness :
  w_out (h_out (demo_handler demo_piping)) = [frameVersion; statusOK]
  ∧ ∃ svc b pre dl post, demo_connect = pre ++ ResolveService 1 dl :: post ∧ asked pre 1 svc
    ∧ Policy.Resolve (pc_policy (in_force demo_config pre)) (h_ip (demo_handler demo_granted)) svc = (b, true).
Proof.
  assert (w_out (h_out (demo_handler demo_piping)) = [frameVersion; statusOK]) as E by by vm_compute.
  split; [exact E|].
  destruct (granted_answers_are_authorised 0 demo_config demo_connect demo_granted (RespondOK 1 None None) demo_piping 1
    (demo_handler demo_granted) (demo_handler demo_piping)) as (_ & st & Hp & Hst).
  - apply Forall_app. split; [exact demo_connect_ok|]. by repeat constructor.
  - exact demo_granted_run.
  - exact demo_piping_step.
  - apply from_Some. by vm_compute.
  - apply from_Some. by vm_compute.
  - intros H. assert (w_out (h_out (demo_handler demo_piping)) ≠ w_out (h_out (demo_handler demo_granted))) as Hn
      by by vm_compute.
    congruence.
  - rewrite E in Hp. destruct Hst as (l & svc & b & pre & dl & post & _ & H); [destruct Hp as [k Hk]; by injection Hk|].
    exists svc, b, pre, dl, post. exact H.
Defined.

Lemma slots_are_returned_witness :
  l_active (default demo_limiter (rg_heap (s_registry demo_granted) !! 0))
  = Z.of_nat (holders 0 (s_handlers demo_granted))
  ∧ holders 0 (s_handlers demo_granted) = 1.
Proof.
  split; [|by vm_compute].
  refine (proj1 (slots_are_returned 0 demo_config demo_granted 0 _ demo_wf demo_granted_reachable _)).
  apply from_Some. by vm_compute.
Defined.

(** The server is shut down while it proxies: the connection is closed by then. *)
Definition demo_shutdown : list event := [DrainLimiter; CloseNext; DrainLimiter; CloseFinished].
Definition demo_serving : system := demo_run (demo_connect ++ [RespondOK 1 None None; Cancel]).
Definition demo_drained : system := default demo_serving (run step demo_serving (Shutdown :: demo_shutdown)).

Lemma demo_serving_reachable : reachable 0 demo_config demo_serving.
Proof.
  apply demo_reachable; [|by vm_compute].
  apply Forall_app; split; [apply demo_connect_ok|events_ok].
Qed.

Lemma shutdown_drains_witness :
  h_closed (demo_handler demo_drained) = true
  ∧ s_maint demo_waiting = Waiting ∧ ∃ ev, is_Some (forced_step demo_waiting ev).
Proof.
  assert (s_maint demo_waiting = Waiting) as Hm by by vm_compute.
  set (o := λ _ : nat, Build_outcome true 0 None None (mkReader [] EOF_error) None None).
  split; [|split; [exact Hm|]].
  - refine (proj1 (shutdown_drains 0 demo_config demo_serving o demo_wf demo_serving_reachable) _ demo_shutdown demo_drained
      _ _ _ 1 (demo_handler demo_serving) 0 (demo_handler demo_drained) _ _ _ _ _).
    + by vm_compute.
    + by repeat constructor.
    + apply from_Some. by vm_compute.
    + by vm_compute.
    + apply from_Some. by vm_compute.
    + by vm_compute.
    + by vm_compute.
    + apply from_Some. by vm_compute.
    + exists 0. by vm_compute.
  - destruct (proj1 (proj2 (shutdown_drains 0 demo_config demo_waiting o demo_wf demo_waiting_reachable)) Hm [] demo_waiting
      eq_refl) as [_ [Hd|(_ & ev & He & _)]]; [congruence|by exists ev].
Defined.

End Conn.
