(* ===== verification/ConnReload.v ===== *)
(** * The reloads of [Conn] are the reloads of [Server]

    [Server.refreshPeers] and [closeLiveConns] are functions; in [Conn] the
    goroutine that runs them takes many steps, between which the handlers of
    connections take theirs.  Left alone, it computes the functions; and what
    the watcher swaps in is what [Conn] takes a reload to swap in. *)

From S2P Require Import Prelude GoStrings GoNetip GoIO Wire Policy Config Watcher Limiter Server Lifecycle Conn.
Import Wire Policy Config Limiter Server Conn.

Module ConnReload.

Section refinement.
Context {RO : GoRange}.

(** Whatever the peers file holds, a configuration that was loaded from it is
    one the steps of [Conn] admit. *)
Theorem loaded_event_ok yaml fs abs cfg : Watcher.loaded yaml fs abs cfg → event_ok (Swap cfg).
Proof. intros H. by destruct (Lifecycle.loaded_wf _ _ _ _ H) as (_ & _ & _ & ?). Qed.

Definition close_all (conns : list nat) (hs : gmap nat handler) : gmap nat handler :=
  foldl (λ hs c, alter closed c hs) hs conns.

(** The events of draining the limiters [ls] and closing what they had. *)
Fixpoint drain_events (ls : list nat) (rg : registry) : list event :=
  match ls with
  | [] => []
  | l :: ls' => let '(rg1, conns) := close_limiter l rg in
                DrainLimiter :: replicate (length conns) CloseNext ++ drain_events ls' rg1
  end.
Definition reload_events (now : Z) (cfg : PeersConfig) (rg : registry) : list event :=
  let '(rg1, gone) := refresh_maps now (pc_peers cfg) rg in
  Swap cfg :: Refresh now :: drain_events gone rg1 ++ [CloseFinished].

Definition with_closing (conns ls : list nat) (k : after) (s : system) : system := set_maint (Closing conns ls k) s.
Definition after_closes (conns : list nat) (s : system) : system := set_handlers (close_all conns) s.

Lemma run_closes conns ls k s :
  run step (with_closing conns ls k s) (replicate (length conns) CloseNext) = Some (with_closing [] ls k (after_closes conns s)).
Proof.
  revert s. induction conns as [|c conns IH]; intros s; [by destruct s|]. cbn [length replicate run].
  change (step (with_closing (c :: conns) ls k s) CloseNext)
    with (Some (with_closing conns ls k (set_handlers (alter closed c) s))).
  cbn [mbind option_bind]. rewrite IH. by destruct s.
Qed.

Lemma run_drain ls k s rg conns : close_limiters ls (s_registry s) = (rg, conns) →
  run step (with_closing [] ls k s) (drain_events ls (s_registry s))
  = Some (with_closing [] [] k (after_closes conns (set_registry rg s))).
Proof.
  revert s rg conns. induction ls as [|l ls IH]; intros s rg conns H; cbn [close_limiters drain_events] in *.
  { injection H as <- <-. by destruct s. }
  destruct (close_limiter l (s_registry s)) as [rg1 c1] eqn:E1.
  destruct (close_limiters ls rg1) as [rg2 c2] eqn:E2. injection H as <- <-.
  cbn [run]. assert (step (with_closing [] (l :: ls) k s) DrainLimiter = Some (with_closing c1 ls k (set_registry rg1 s))) as ->.
  { cbn. by rewrite E1. }
  cbn [mbind option_bind]. rewrite run_app, run_closes. cbn [mbind option_bind].
  specialize (IH (after_closes c1 (set_registry rg1 s)) rg2 c2 E2). cbn [after_closes set_handlers set_registry s_registry] in IH.
  rewrite IH. unfold after_closes, close_all, set_handlers, set_registry, with_closing, set_maint. cbn. by rewrite foldl_app.
Qed.

(** From rest, the reloading goroutine's steps swap the policy, leave the maps
    [refreshPeers] computes, close exactly the connections it returns, and
    come to rest again; those of shutdown, which begins with the context
    cancelled, stop the listener and close what [closeLiveConns] does before
    the wait begins. *)
Theorem reload_steps_refine_refreshPeers s now cfg : s_maint s = Idle →
  (let '(rg, conns) := refreshPeers now cfg (s_registry s) in
   run step s (reload_events now cfg (s_registry s))
     = Some (after_closes conns (set_maint Idle (set_config cfg (set_registry rg s)))))
  ∧ (s_canceled s = true → let '(rg, conns) := closeLiveConns (s_registry s) in
     run step s (Shutdown :: drain_events (snd <$> go_range (rg_limiters (s_registry s))) (s_registry s) ++ [CloseFinished])
     = Some (after_closes conns (set_maint Waiting (stop_listening (set_registry rg s))))).
Proof.
  intros Hm. split; [|intros Hk].
  - unfold refreshPeers, reload_events. destruct (refresh_maps now (pc_peers cfg) (s_registry s)) as [rg1 gone] eqn:Em.
    destruct (close_limiters gone rg1) as [rg conns] eqn:Ec. cbn [run step]. rewrite Hm.
    cbn [mbind option_bind step s_maint s_registry s_config set_maint set_config]. rewrite Em. cbn [mbind option_bind].
    rewrite run_app. set (s1 := set_registry rg1 (set_config cfg s)).
    change (run step _ (drain_events gone rg1)) with (run step (with_closing [] gone BackToServing s1) (drain_events gone (s_registry s1))).
    by rewrite (run_drain gone BackToServing s1 rg conns Ec).
  - unfold closeLiveConns. set (ls := snd <$> _). destruct (close_limiters ls (s_registry s)) as [rg conns] eqn:Ec.
    cbn [run step]. rewrite Hm, Hk. cbn [mbind option_bind]. rewrite run_app.
    change (run step _ (drain_events ls (s_registry s)))
      with (run step (with_closing [] ls ThenWait (stop_listening s)) (drain_events ls (s_registry (stop_listening s)))).
    by rewrite (run_drain ls ThenWait (stop_listening s) rg conns Ec).
Qed.

End refinement.
End ConnReload.
