(* ===== verification/ConnLog.v ===== *)
(** * The log of the connections ([handleConn], [drainConnections] of [server.go])

    [Conn] with the lines: every action of a handler writes the line the code
    writes there, with the name it looked up when the connection was accepted,
    and shutdown writes its own.  Byte counts and durations are measurements
    an event carries.  The system itself moves exactly as in [Conn]. *)

From S2P Require Import Prelude GoStrings GoSlog GoNetip GoIO Wire Policy Config Limiter Server Conn.
Import Wire Policy Config Limiter Server Conn.

Module ConnLog.

(** [time.Since(start)], and what [pipeConns] returns. *)
Record measured := { me_elapsed : Z; me_sent : Z; me_received : Z }.
Definition millis (elapsed : Z) : Z := Z.quot elapsed 1000000.

Section lines.
Context (m : measured) (peer : gostring).

Definition attr_peer : gostring * value := (#"peer", Text peer).
Definition attr_service (svc : gostring) : gostring * value := (#"service", Text svc).
Definition attr_status (st : byte) : gostring * value := (#"status", Text (status_String st)).
Definition attr_ms : gostring * value := (#"duration_ms", Int (millis (me_elapsed m))).
Definition attr_error (e : error) : gostring * value := (#"error", Text (e_msg e)).
Definition mk (lv : level) (msg : gostring) (attrs : list (gostring * value)) : line :=
  {| ln_level := lv; ln_msg := msg; ln_attrs := attrs |}.

(** The line an action of a handler writes, if it writes one. *)
Definition handler_line (s : system) (h : handler) (ev : event) : option line :=
  match ev, h_pc h with
  | FindLimiter _, Accepted =>
      match limiterFor (h_ip h) (s_registry s) with
      | Some _ => None
      | None => Some (mk Warn (#"gocloak: connection from an address with no peer entry, closed without a reply")
                        [attr_peer; attr_ms])
      end
  | Acquire _ fused now _, Admitting l =>
      lim ← rg_heap (s_registry s) !! l;
      let '(_, (reason, ok)) := acquire fused now lim in
      if ok : bool then None
      else Some (mk Warn (#"gocloak: rate limited")
                   [attr_peer; attr_status statusRateLimited; (#"limit", Text reason); attr_ms])
  | ReadHello _ read_deadline r _, ReadingHello _ =>
      match read_deadline with
      | Some e => Some (mk Error (#"gocloak: could not set the hello read deadline") [attr_peer; attr_error e])
      | None =>
          match fst (readHelloRequest r) with
          | Ok _ => None
          | Err e => Some (
              if errors_Is e errMalformedFrame then
                mk Warn (#"gocloak: malformed hello frame") [attr_peer; attr_status statusMalformed; attr_ms]
              else mk Info (#"gocloak: connection closed before a hello frame arrived")
                     [attr_peer; attr_ms; attr_error e])
          end
      end
  | ResolveService _ _, Resolving _ svc =>
      match Policy.Resolve (pc_policy (s_config s)) (h_ip h) svc with
      | (_, true) => None
      | (_, false) => Some (mk Warn (#"gocloak: service denied")
                              [attr_peer; attr_service svc; attr_status statusDenied; attr_ms])
      end
  | DialBackend _ dial _, Dialing _ _ svc b =>
      (λ e, mk Warn (#"gocloak: backend unavailable")
              [attr_peer; attr_service svc; attr_status statusBackendUnavailable;
               (#"backend", Text (AddrPort_String b)); attr_ms; attr_error e]) <$> dial
  | UntrackOrphan _, Orphaned _ svc =>
      Some (mk Warn (#"gocloak: peer was revoked or replaced while the connection was being set up, closed without a reply")
              [attr_peer; attr_service svc; attr_ms])
  | RespondOK _ deadline clear, Checked _ _ svc _ =>
      match fst (respond deadline (h_out h) statusOK), clear with
      | Some e, _ => Some (mk Warn (#"gocloak: could not write the hello response")
                             [attr_peer; attr_service svc; attr_ms; attr_error e])
      | None, Some e => Some (mk Warn (#"gocloak: could not clear connection deadlines")
                                [attr_peer; attr_service svc; attr_error e])
      | None, None => None
      end
  | PipeEnds _, Piping _ _ svc _ =>
      Some (mk Info (#"gocloak: connection closed")
              [attr_peer; attr_service svc; attr_status statusOK; (#"bytes_sent", Int (me_sent m));
               (#"bytes_received", Int (me_received m)); attr_ms])
  | _, _ => None
  end.

End lines.

Definition unparsed : line :=
  mk Error (#"gocloak: dropped a connection whose remote address could not be parsed") [].
Definition all_returned : line := mk Info (#"gocloak: shutdown: every connection handler has returned") [].
Definition shutdownDrainTimeout : Z := 30000000000.
Definition gave_up : line :=
  mk Error (#"gocloak: connection handlers did not finish before shutdown gave up waiting, closing the device anyway")
    [(#"timeout_ms", Int (shutdownDrainTimeout / 1000000))].
Definition closing_device : line := mk Info (#"gocloak: shutdown: closing the tunnel device") [].

(** The system, the name each handler keeps in its variable [peer], and the
    lines so far, each with the connection that wrote it. *)
Record logged := {
  lg_sys : system; lg_peers : gmap nat gostring; lg_lines : list (option nat * line)
}.

Inductive log_event :=
  | LookupName (c : nat)                    (* peer := s.peerName(peerIP) *)
  | Do (ev : event) (m : measured).

Definition handler_lines (g : logged) (c : nat) (ev : event) (m : measured) : option (list (option nat * line)) :=
  peer ← lg_peers g !! c;
  h ← s_handlers (lg_sys g) !! c;
  Some (pair (Some c) <$> option_list (handler_line m peer (lg_sys g) h ev)).
Definition event_lines (g : logged) (ev : event) (m : measured) : option (list (option nat * line)) :=
  match ev with
  | Accept c remote _ => Some (match remoteTunnelIP remote with Some _ => [] | None => [(Some c, unparsed)] end)
  | AllReturned => Some [(None, all_returned); (None, closing_device)]
  | DrainTimeout => Some [(None, gave_up); (None, closing_device)]
  | RunDefer _ => Some []
  | _ => match event_conn ev with Some c => handler_lines g c ev m | None => Some [] end
  end.

Section log.
Context {RO : GoRange}.

(** A handler does nothing before it has looked up the name. *)
Definition log_step (g : logged) (e : log_event) : option logged :=
  match e with
  | LookupName c =>
      h ← s_handlers (lg_sys g) !! c;
      match h_pc h, lg_peers g !! c with
      | Accepted, None =>
          Some {| lg_sys := lg_sys g; lg_lines := lg_lines g;
                  lg_peers := <[c := peerName (h_ip h) (s_registry (lg_sys g))]> (lg_peers g) |}
      | _, _ => None
      end
  | Do ev m =>
      s' ← step (lg_sys g) ev;
      lns ← event_lines g ev m;
      Some {| lg_sys := s'; lg_peers := lg_peers g; lg_lines := lg_lines g ++ lns |}
  end.

Definition log_initial (now : Z) (cfg : PeersConfig) : logged :=
  {| lg_sys := initial now cfg; lg_peers := ∅; lg_lines := [] |}.
Definition log_event_ok (e : log_event) : Prop :=
  match e with LookupName _ => True | Do ev _ => event_ok ev end.
Inductive log_reachable (now : Z) (cfg : PeersConfig) : logged → Prop :=
  | log_init : log_reachable now cfg (log_initial now cfg)
  | log_next g e g' :
      log_reachable now cfg g → log_event_ok e → log_step g e = Some g' → log_reachable now cfg g'.

(** A run with its lines, and the run of the system underneath. *)
Definition log_ran (now : Z) (cfg : PeersConfig) (es : list log_event) (g : logged) : Prop :=
  Forall log_event_ok es ∧ run log_step (log_initial now cfg) es = Some g.
Definition sys_events (es : list log_event) : list event :=
  omap (λ e, match e with LookupName _ => None | Do ev _ => Some ev end) es.

(** ** Lemmas: the system underneath *)

Lemma log_step_sys g e g' : log_step g e = Some g' →
  match e with LookupName _ => lg_sys g' = lg_sys g | Do ev _ => step (lg_sys g) ev = Some (lg_sys g') end.
Proof.
  intros H. destruct e as [c|ev m]; cbn [log_step] in H.
  - apply bind_Some in H as (h & _ & H). destruct (h_pc h), (lg_peers g !! c); try done. by injection H as <-.
  - apply bind_Some in H as (s' & E & H). by apply bind_Some in H as (lns & _ & [= <-]).
Qed.

Lemma log_ran_snoc now cfg es e g' :
  log_ran now cfg (es ++ [e]) g' ↔ ∃ g, log_ran now cfg es g ∧ log_event_ok e ∧ log_step g e = Some g'.
Proof.
  unfold log_ran. rewrite run_app, Forall_app, Forall_singleton, bind_Some. cbn [run]. setoid_rewrite bind_Some. split.
  - intros [[H1 H2] (s & H3 & s1 & H4 & [= ->])]. by exists s.
  - intros (s & [H1 H3] & H2 & H4). split; [done|]. exists s. split; [done|]. by exists g'.
Qed.

Lemma log_ran_ran now cfg es g : log_ran now cfg es g → log_reachable now cfg g ∧ ran now cfg (sys_events es) (lg_sys g).
Proof.
  revert g. induction es as [|e es IH] using rev_ind; intros g Hr.
  { destruct Hr as [_ [= <-]]. split; [constructor|apply ran_nil]. }
  apply log_ran_snoc in Hr as (g0 & Hr & Hok & H). destruct (IH g0 Hr) as [H1 H2].
  split; [by econstructor|]. apply log_step_sys in H. unfold sys_events in *. rewrite omap_app.
  destruct e as [c|ev m]; cbn; [by rewrite app_nil_r, H|]. apply ran_snoc. by exists (lg_sys g0).
Qed.

Lemma log_reachable_sys now cfg g : log_reachable now cfg g → reachable now cfg (lg_sys g).
Proof.
  induction 1 as [|g e g' Hr IH Hok Hs]; [constructor|]. apply log_step_sys in Hs.
  destruct e; [by rewrite Hs|by econstructor].
Qed.

Definition finished (h : handler) : nat := match h_pc h with Returning | Done => 1 | _ => 0 end.
Lemma finished_closed h : finished (closed h) = finished h.
Proof. done. Qed.

(** An action writes a line exactly when it is the one that returns. *)
Lemma handler_line_returns m peer s c h ev s' :
  handler_step s c h ev = Some s' → ∃ h', s_handlers s' = <[c := h']> (s_handlers s)
    ∧ length (option_list (handler_line m peer s h ev)) + finished h = finished h'.
Proof.
  intros H. destruct ev; cbn in H; try done; destruct (h_pc h) eqn:Hpc; try done; cbn; rewrite ?Hpc; cbn.
  - destruct (limiterFor _ _); injection H as <-; eexists; split; reflexivity || (unfold finished; by rewrite Hpc).
  - apply bind_Some in H as (lim & El & H). rewrite El. cbn. destruct (acquire fused now lim) as [lim' [reason []]];
      injection H as <-; eexists; (split; [reflexivity|]); unfold finished; by rewrite Hpc.
  - destruct read_deadline; [|destruct (fst (readHelloRequest r)) as [svc|e]; [|destruct (errors_Is e _)]];
      injection H as <-; eexists; (split; [reflexivity|]); unfold finished; by rewrite Hpc.
  - destruct (Policy.Resolve _ _ _) as [b []]; injection H as <-; eexists; (split; [reflexivity|]);
      unfold finished; by rewrite Hpc.
  - destruct dial; injection H as <-; eexists; (split; [reflexivity|]); unfold finished; by rewrite Hpc.
  - injection H as <-. eexists. split; [reflexivity|]. unfold finished. by rewrite Hpc.
  - case_bool_decide; injection H as <-; eexists; (split; [reflexivity|]); unfold finished; by rewrite Hpc.
  - injection H as <-. eexists. split; [reflexivity|]. unfold finished. by rewrite Hpc.
  - destruct (respond deadline (h_out h) statusOK) as [err w]. cbn.
    destruct err, clear; injection H as <-; eexists; (split; [reflexivity|]); unfold finished; by rewrite Hpc.
  - injection H as <-. eexists. split; [reflexivity|]. unfold finished. by rewrite Hpc.
  - unfold finished. rewrite Hpc. destruct (h_defers h) as [|[] ds]; injection H as <-; eexists;
      (split; [reflexivity|]); cbn; try done; by destruct (unwound_pc h Hpc) as [-> | ->].
Qed.

(** ** Lemmas: how many lines *)

Definition wrote_by (c : nat) (x : option nat * line) : bool := bool_decide (fst x = Some c).
Definition lines_of (c : nat) (lns : list (option nat * line)) : list line := snd <$> List.filter (wrote_by c) lns.
Definition finished_at (c : nat) (s : system) : nat :=
  match s_handlers s !! c with Some h => finished h | None => 0 end.

Lemma lines_of_app c l1 l2 : lines_of c (l1 ++ l2) = lines_of c l1 ++ lines_of c l2.
Proof. unfold lines_of. by rewrite List.filter_app, fmap_app. Qed.
Lemma lines_of_own c (lns : list line) : lines_of c (pair (Some c) <$> lns) = lns.
Proof.
  induction lns as [|ln lns IH]; [done|]. unfold lines_of in *. cbn. unfold wrote_by. cbn.
  rewrite bool_decide_true by done. cbn. f_equal. exact IH.
Qed.
Lemma lines_of_other c o (lns : list line) : o ≠ Some c → lines_of c (pair o <$> lns) = [].
Proof.
  intros Hne. induction lns as [|ln lns IH]; [done|]. unfold lines_of in *. cbn. unfold wrote_by. cbn.
  by rewrite bool_decide_false.
Qed.
Lemma elem_of_lines_of c ln lns : ln ∈ lines_of c lns ↔ (Some c, ln) ∈ lns.
Proof.
  unfold lines_of, wrote_by. rewrite list_elem_of_fmap. setoid_rewrite elem_of_list_filter_b. split.
  - intros ([o ln'] & -> & Ho%bool_decide_eq_true & H). cbn in *. by subst.
  - intros H. exists (Some c, ln). split_and!; [done|by apply bool_decide_eq_true|done].
Qed.

Lemma handler_event_lines g ev m c lns :
  event_conn ev = Some c → event_lines g ev m = Some lns → (∀ h, s_handlers (lg_sys g) !! c = Some h →
    ∃ peer, (lg_peers g !! c = Some peer ∨ lns = []) ∧ lns = pair (Some c) <$> option_list (handler_line m peer (lg_sys g) h ev)).
Proof.
  intros Hev H h Hc.
  assert (handler_lines g c ev m = Some lns → ∃ peer, (lg_peers g !! c = Some peer ∨ lns = []) ∧
    lns = pair (Some c) <$> option_list (handler_line m peer (lg_sys g) h ev)) as Hl.
  { intros Hl. apply bind_Some in Hl as (peer & Hp & Hl). rewrite Hc in Hl. cbn in Hl. injection Hl as <-.
    exists peer. split; [by left|done]. }
  destruct ev; cbn in Hev, H; try done; injection Hev as ->; try by apply Hl.
  injection H as <-. exists []. split; [by right|]. done.
Qed.

(** Every line of a connection is the step to its end. *)
Lemma step_finished g ev m s' lns c :
  step (lg_sys g) ev = Some s' → event_lines g ev m = Some lns →
  length (lines_of c lns) + finished_at c (lg_sys g) = finished_at c s'.
Proof.
  intros H Hl. destruct (event_conn ev) as [c0|] eqn:Hev.
  - rewrite (handler_event_step _ _ _ Hev) in H. apply bind_Some in H as (h & Hc & H).
    destruct (handler_event_lines _ _ _ _ _ Hev Hl h Hc) as (peer & _ & ->).
    destruct (handler_line_returns m peer _ _ _ _ _ H) as (h' & Hp & Hn). unfold finished_at. rewrite Hp.
    destruct (decide (c = c0)) as [->|Hne].
    + rewrite lines_of_own, lookup_insert_eq, Hc. done.
    + rewrite lines_of_other by congruence. by rewrite lookup_insert_ne.
  - destruct ev; try done; cbn [step event_lines event_conn] in *; unfold finished_at.
    + destruct (s_listening _); [|done]. destruct (s_handlers (lg_sys g) !! c0) eqn:Ec; [done|].
      injection Hl as <-. destruct (decide (c = c0)) as [->|Hne].
      * destruct (remoteTunnelIP remote); injection H as <-; cbn [s_handlers put set_handlers]; rewrite lookup_insert_eq, Ec; [done|].
        change [(Some c0, unparsed)] with (pair (Some c0) <$> [unparsed]). by rewrite lines_of_own.
      * destruct (remoteTunnelIP remote); injection H as <-; cbn [s_handlers put set_handlers]; rewrite lookup_insert_ne by done; [done|].
        change [(Some c0, unparsed)] with (pair (Some c0) <$> [unparsed]). by rewrite lines_of_other by congruence.
    + destruct (s_maint _); try done. by simplify_eq.
    + destruct (s_maint _); try done. destruct (refresh_maps _ _ _). by simplify_eq.
    + destruct (s_maint _) as [| |[] []| |]; try done. destruct (close_limiter _ _). by simplify_eq.
    + destruct (s_maint _) as [| |[] | |]; try done. simplify_eq. cbn. destruct (decide (c = n)) as [->|Hne].
      * rewrite lookup_alter_eq. by destruct (s_handlers (lg_sys g) !! n).
      * by rewrite lookup_alter_ne.
    + destruct (s_maint _) as [| |[] []| |]; try done. by simplify_eq.
    + destruct (s_maint _); try done. destruct (s_canceled _); [|done]. by simplify_eq.
    + destruct (s_maint _); try done. destruct (_ =? _)%Z; [|done]. by simplify_eq.
    + destruct (s_maint _); try done. by simplify_eq.
    + destruct (s_canceled _); [done|]. by simplify_eq.
    + destruct (_ && _); [|done]. by simplify_eq.
    + apply bind_Some in H as (h & Hc & H). destruct (_ && _); [|done]. simplify_eq. cbn.
      destruct (decide (c = c0)) as [->|Hne]; [by rewrite lookup_insert_eq, Hc|by rewrite lookup_insert_ne].
Qed.

Lemma lines_counted now cfg g c :
  log_reachable now cfg g → length (lines_of c (lg_lines g)) = finished_at c (lg_sys g).
Proof.
  induction 1 as [|g e g' Hr IH Hok Hs]; [unfold finished_at; cbn; by rewrite lookup_empty|].
  destruct e as [c0|ev m]; cbn [log_step] in Hs.
  - apply bind_Some in Hs as (h & _ & Hs). destruct (h_pc h), (lg_peers g !! c0); try done. by injection Hs as <-.
  - apply bind_Some in Hs as (s' & E & Hs). apply bind_Some in Hs as (lns & El & [= <-]). cbn [lg_lines lg_sys].
    rewrite lines_of_app, length_app, IH. rewrite <- (step_finished _ _ _ _ _ c E El). lia.
Qed.

(** The lines of shutdown are written when the device is about to be closed. *)
Definition of_conn (x : option nat * line) : bool := bool_decide (fst x ≠ None).

Definition shutdown_logged (g : logged) : Prop :=
  match s_maint (lg_sys g) with
  | DeviceClosed true => ∃ pre, lg_lines g = pre ++ [(None, all_returned); (None, closing_device)]
      ∧ forallb of_conn pre = true
  | DeviceClosed false => True
  | _ => forallb of_conn (lg_lines g) = true
  end.

Lemma conn_lines_own g ev m lns :
  event_lines g ev m = Some lns → ev ≠ AllReturned → ev ≠ DrainTimeout → forallb of_conn lns = true.
Proof.
  intros H H1 H2.
  assert (∀ c, handler_lines g c ev m = Some lns → forallb of_conn lns = true) as Hh.
  { intros c Hl. apply bind_Some in Hl as (peer & _ & Hl). apply bind_Some in Hl as (h & _ & [= <-]).
    by destruct (handler_line m peer (lg_sys g) h ev). }
  destruct ev; cbn [event_lines event_conn] in H; try done; try (by eapply Hh); try (by injection H as <-).
  destruct (remoteTunnelIP remote); by injection H as <-.
Qed.

Lemma shutdown_logged_step g ev m s' lns :
  phase_ok (lg_sys g) → step (lg_sys g) ev = Some s' → event_lines g ev m = Some lns → shutdown_logged g →
  shutdown_logged {| lg_sys := s'; lg_peers := lg_peers g; lg_lines := lg_lines g ++ lns |}.
Proof.
  intros Hp H El Hg.
  assert (s_maint (lg_sys g) ≠ DeviceClosed true) as Hno
    by (intros Hm; by rewrite (closed_stops _ ev Hp Hm) in H).
  assert (s_maint s' = s_maint (lg_sys g) ∨ (∀ b, s_maint (lg_sys g) ≠ DeviceClosed b) ∧ (∀ b, s_maint s' ≠ DeviceClosed b) →
    forallb of_conn lns = true →
    shutdown_logged {| lg_sys := s'; lg_peers := lg_peers g; lg_lines := lg_lines g ++ lns |}) as Hkeep.
  { intros Hm Hl. unfold shutdown_logged in *. cbn [lg_sys lg_lines].
    assert (∀ b, s_maint s' = DeviceClosed b → b = false) as Hs'.
    { intros [] E; [|done]. destruct Hm as [Hm|[_ Hm]]; [congruence|by destruct (Hm true)]. }
    destruct (s_maint s') as [| | | |b]; [..|by rewrite (Hs' b eq_refl)];
      (destruct Hm as [Hm|[Hm _]]; [by rewrite <- Hm in Hg; rewrite forallb_app, Hg|]); rewrite forallb_app, Hl, andb_true_r;
      by destruct (s_maint (lg_sys g)) as [| | | |b]; [..|destruct (Hm b)]. }
  destruct (event_conn ev) as [c|] eqn:Hev.
  - pose proof H as H'. rewrite (handler_event_step _ _ _ Hev) in H'. apply bind_Some in H' as (h & _ & H').
    apply handler_step_local in H' as (h' & Hl). destruct (ls_frame _ _ _ _ _ Hl) as (_ & Em & _).
    apply Hkeep; [by left|]. apply (conn_lines_own _ _ _ _ El); intros ->; done.
  - destruct ev; try done; cbn [step] in H.
    + apply Hkeep; [left|by apply (conn_lines_own _ _ _ _ El)]. destruct (s_listening _); [|done].
      destruct (s_handlers _ !! _); [done|]. destruct (remoteTunnelIP remote); by injection H as <-.
    + apply Hkeep; [right|by apply (conn_lines_own _ _ _ _ El)]. destruct (s_maint _); try done. by injection H as <-.
    + apply Hkeep; [right|by apply (conn_lines_own _ _ _ _ El)]. destruct (s_maint _); try done.
      destruct (refresh_maps _ _ _). by injection H as <-.
    + apply Hkeep; [right|by apply (conn_lines_own _ _ _ _ El)]. destruct (s_maint _) as [| |[] []| |]; try done.
      destruct (close_limiter _ _). by injection H as <-.
    + apply Hkeep; [right|by apply (conn_lines_own _ _ _ _ El)]. destruct (s_maint _) as [| |[] | |]; try done.
      by injection H as <-.
    + apply Hkeep; [right|by apply (conn_lines_own _ _ _ _ El)]. destruct (s_maint _) as [| |[] [] []| |]; try done;
        by injection H as <-.
    + apply Hkeep; [right|by apply (conn_lines_own _ _ _ _ El)]. destruct (s_maint _); try done.
      destruct (s_canceled _); [|done]. by injection H as <-.
    + destruct (s_maint _) eqn:Em; try done. destruct (_ =? _)%Z; [|done]. injection H as <-. injection El as <-.
      unfold shutdown_logged in *. rewrite Em in Hg. cbn. by exists (lg_lines g).
    + destruct (s_maint _) eqn:Em; try done. by injection H as <-.
    + apply Hkeep; [left|by apply (conn_lines_own _ _ _ _ El)]. destruct (s_canceled _); [done|]. by injection H as <-.
    + apply Hkeep; [left|by apply (conn_lines_own _ _ _ _ El)]. destruct (_ && _); [|done]. by injection H as <-.
    + apply Hkeep; [left|by apply (conn_lines_own _ _ _ _ El)]. apply bind_Some in H as (h & _ & H).
      destruct (_ && _); [|done]. by injection H as <-.
Qed.

Lemma shutdown_logged_reachable now cfg g : log_reachable now cfg g → shutdown_logged g.
Proof.
  induction 1 as [|g e g' Hr IH Hok Hs]; [done|]. destruct e as [c0|ev m]; cbn [log_step] in Hs.
  - apply bind_Some in Hs as (h & _ & Hs). destruct (h_pc h), (lg_peers g !! c0); try done. by injection Hs as <-.
  - apply bind_Some in Hs as (s' & E & Hs). apply bind_Some in Hs as (lns & El & [= <-]).
    apply (shutdown_logged_step g ev m); [|done..]. by eapply phase_ok_reachable, log_reachable_sys.
Qed.

(** ** The layer stops nothing *)

(** A handler past its lookups knows its peer's name. *)
Definition named (g : logged) : Prop := ∀ c h, s_handlers (lg_sys g) !! c = Some h →
  match h_pc h with Accepted | Returning | Done => True | _ => is_Some (lg_peers g !! c) end.

Lemma own_event_named g ev m c lns : event_conn ev = Some c → event_lines g ev m = Some lns →
  is_Some (lg_peers g !! c) ∨ ev = RunDefer c.
Proof.
  intros Hev H. assert (handler_lines g c ev m = Some lns → is_Some (lg_peers g !! c)) as Hl.
  { intros Hl. apply bind_Some in Hl as (peer & -> & _). by eexists. }
  destruct ev; cbn in Hev, H; try done; injection Hev as ->; try (left; by apply Hl). by right.
Qed.

Lemma RunDefer_ends s c h s' h' :
  handler_step s c h (RunDefer c) = Some s' → s_handlers s' !! c = Some h' → h_pc h' = Returning ∨ h_pc h' = Done.
Proof.
  intros H Hc'. cbn in H. destruct (h_pc h) eqn:Hpc; try done. pose proof (unwound_pc h Hpc) as Hun.
  destruct (h_defers h) as [|[] ds]; injection H as <-; cbn in Hc'; rewrite lookup_insert_eq in Hc';
    injection Hc' as <-; cbn; auto.
Qed.

Lemma named_reachable now cfg g : log_reachable now cfg g → named g.
Proof.
  induction 1 as [|g e g' Hr IH Hok Hs]; [intros c h Hc; cbn in Hc; by rewrite lookup_empty in Hc|].
  destruct e as [c0|ev m]; cbn [log_step] in Hs.
  - apply bind_Some in Hs as (h & _ & Hs). destruct (h_pc h), (lg_peers g !! c0); try done. injection Hs as <-.
    intros c h' Hc. cbn [lg_sys lg_peers] in *. pose proof (IH c h' Hc).
    assert (is_Some (lg_peers g !! c) → is_Some (<[c0 := peerName (h_ip h) (s_registry (lg_sys g))]> (lg_peers g) !! c)) as Hmono.
    { intros [x E]. destruct (decide (c = c0)) as [->|Hne]; [rewrite lookup_insert_eq|rewrite lookup_insert_ne by done]; by eexists. }
    destruct (h_pc h'); auto.
  - apply bind_Some in Hs as (s' & E & Hs). apply bind_Some in Hs as (lns & El & [= <-]).
    intros c h' Hc'. cbn [lg_sys lg_peers] in *.
    destruct (step_handlers_own _ _ _ _ _ Hok E Hc') as [[_ [Hpc _]]|(h & Hc & Hh)]; [by destruct Hpc as [-> | ->]|].
    pose proof (IH c h Hc) as Hn. destruct Hh as [->|[->|[Hev Hs]]]; [done|done|].
    destruct (own_event_named _ _ _ _ _ Hev El) as [?| ->]; [by destruct (h_pc h')|].
    by destruct (RunDefer_ends _ _ _ _ _ Hs Hc') as [-> | ->].
Qed.

(** Whatever the system can do, it can do with its lines, except that a handler
    that was just accepted looks up the name first, which it can. *)
Theorem logging_stops_nothing now cfg g ev m s' :
  log_reachable now cfg g → step (lg_sys g) ev = Some s' →
  (∃ g', log_step g (Do ev m) = Some g' ∧ lg_sys g' = s')
  ∨ ∃ c g', ev = FindLimiter c ∧ log_step g (LookupName c) = Some g' ∧ lg_sys g' = lg_sys g ∧ is_Some (lg_peers g' !! c).
Proof.
  intros Hr H. assert (is_Some (event_lines g ev m) → ∃ g', log_step g (Do ev m) = Some g' ∧ lg_sys g' = s') as Hdo.
  { intros [lns E]. eexists. cbn [log_step]. rewrite H. cbn. rewrite E. by cbn. }
  destruct (event_conn ev) as [c|] eqn:Hev.
  2:{ left. apply Hdo. destruct ev; try done; by eexists. }
  pose proof H as Hs. rewrite (handler_event_step _ _ _ Hev) in Hs. apply bind_Some in Hs as (h & Hc & Hs).
  pose proof (named_reachable _ _ _ Hr c h Hc) as Hn.
  destruct (lg_peers g !! c) as [peer|] eqn:Hp.
  - left. apply Hdo. assert (is_Some (handler_lines g c ev m)) as [lns E].
    { unfold handler_lines. rewrite Hp, Hc. by eexists. }
    destruct ev; cbn in Hev |- *; try done; injection Hev as ->; first [by exists lns | by eexists].
  - destruct ev; cbn in Hev, Hs; try done; injection Hev as ->; destruct (h_pc h) eqn:Hpc; try done;
      try (by destruct Hn); [right|left; apply Hdo; by eexists].
    eexists c, _. split; [done|]. cbn [log_step]. rewrite Hc. cbn [mbind option_bind]. rewrite Hpc, Hp.
    split; [reflexivity|]. split; [done|]. cbn. rewrite lookup_insert_eq. by eexists.
Qed.

(** ** Lemmas: what the lines say *)

Section accuracy.
Context (now : Z) (cfg : PeersConfig).

(** The name of a peer listed at the address in the configuration in force at
    some moment of the run, or the literal "unknown". *)
Definition listed (evs : list event) (ip : Addr) (n : gostring) : Prop :=
  ∃ pre post p, evs = pre ++ post ∧ p ∈ pc_peers (in_force cfg pre) ∧ tip p = ip ∧ n = pr_Name p.
Definition known_name (evs : list event) (ip : Addr) (n : gostring) : Prop :=
  n = unknownPeerName ∨ listed evs (Unmap ip) n.

Definition unanswered : list gostring :=
  [ #"gocloak: could not write the hello response"; #"gocloak: could not clear connection deadlines"].

(** What a line may say of the connection [c] from [ip] that was sent [sent]. *)
Record accurate (evs : list event) (c : nat) (ip : Addr) (sent : gostring) (ln : line) : Prop := {
  ac_keys : Forall (λ kv, fst kv ∈ [ #"peer"; #"service"; #"status"; #"limit"; #"backend"; #"error"]
    ∨ ∃ n, snd kv = Int n) (ln_attrs ln);
  ac_peer : ∀ v, v ∈ attr (#"peer") ln → ∃ n, v = Text n ∧ known_name evs ip n;
  ac_service : ∀ v, v ∈ attr (#"service") ln → ∃ svc, v = Text svc ∧ ValidServiceName svc = true;
  ac_limit : ∀ v, v ∈ attr (#"limit") ln → v = Text (#"dials_per_second") ∨ v = Text (#"max_concurrent");
  ac_backend : ∀ v, v ∈ attr (#"backend") ln → ∃ pol svc b, v = Text (AddrPort_String b)
    ∧ attr (#"service") ln = [Text svc] ∧ authorised cfg evs c ip pol svc b;
  ac_answer : (∃ st, attr (#"status") ln = [Text (status_String st)] ∧ sent `prefix_of` [frameVersion; st])
    ∨ attr (#"status") ln = [] ∧ (sent = [] ∨ ln_msg ln ∈ unanswered ∧ sent `prefix_of` [frameVersion; statusOK])
}.

Ltac keys :=
  unfold attr; cbn [omap list_omap fst snd ln_attrs ln_msg mk attr_peer attr_service attr_status attr_ms attr_error];
  repeat match goal with |- context [bool_decide (?a = ?b :> gostring)] =>
    let r := eval vm_compute in (bool_decide (a = b)) in change (bool_decide (a = b)) with r end;
  cbn [omap list_omap].

Ltac key_ok := first [left; apply (bool_decide_eq_true_1 _); reflexivity | right; eexists; reflexivity].
Ltac accurate_line :=
  constructor; keys;
  [ repeat (apply Forall_cons; split; [key_ok|]); apply Forall_nil; exact I
  | first [by intros ? []%elem_of_nil | intros ? ->%list_elem_of_singleton; by eexists]
  | first [by intros ? []%elem_of_nil | intros ? ->%list_elem_of_singleton; by eexists]
  | first [by intros ? []%elem_of_nil | intros ? ->%list_elem_of_singleton]
  | first [by intros ? []%elem_of_nil | intros ? ->%list_elem_of_singleton]
  | ]; try done.

Definition service_of (h : handler) : option gostring :=
  match h_pc h with
  | Resolving _ svc | Dialing _ _ svc _ | Dialed _ _ svc _ | Tracked _ _ svc _ | Orphaned _ svc
  | Checked _ _ svc _ | Piping _ _ svc _ => Some svc
  | _ => None
  end.

Lemma acquire_reason fused t lim lim' reason :
  acquire fused t lim = (lim', (reason, false)) → reason = #"dials_per_second" ∨ reason = #"max_concurrent".
Proof.
  unfold acquire. destruct (GoFloat.flt _ _); [intros [= _ <-]; by left|]. destruct (_ <=? _)%Z; [intros [= _ <-]; by right|done].
Qed.

Ltac next H Hc' := injection H as <-; cbn in Hc'; rewrite lookup_insert_eq in Hc'; injection Hc' as <-; cbn.
(** Nothing was written, or one answer. *)
Ltac silence F1 := right; split; [done|left]; apply F1; lia.
Ltac answer F1 := left; eexists; split; [done|]; apply respond_out, F1; lia.

Lemma listed_app evs evs' ip n : listed evs ip n → listed (evs ++ evs') ip n.
Proof. intros (pre & post & p & -> & ?). exists pre, (post ++ evs'), p. by rewrite <- app_assoc. Qed.
Lemma known_name_app evs evs' ip n : known_name evs ip n → known_name (evs ++ evs') ip n.
Proof. intros [?|?]; [by left|right; by apply listed_app]. Qed.
Lemma accurate_app evs evs' c ip sent ln : accurate evs c ip sent ln → accurate (evs ++ evs') c ip sent ln.
Proof.
  intros [A1 A2 A3 A4 A5 A6]. constructor; [done| |done|done| |done].
  - intros v Hv. destruct (A2 v Hv) as (n & ? & ?). exists n. split; [done|]. by apply known_name_app.
  - intros v Hv. destruct (A5 v Hv) as (pol & svc & b & ? & ? & ?). exists pol, svc, b. split_and!; [done..|].
    by apply authorised_app.
Qed.

Lemma handler_line_accurate evs m peer s c h ev s' h' ln :
  fit cfg evs c h → known_name evs (h_ip h) peer →
  (∀ svc, service_of h = Some svc → ValidServiceName svc = true) →
  handler_step s c h ev = Some s' → s_handlers s' !! c = Some h' → handler_line m peer s h ev = Some ln →
  accurate evs c (h_ip h') (w_out (h_out h')) ln.
Proof.
  intros [F1 F2 _ F3] Hn Hsv H Hc' Hln. unfold service_of in Hsv. unfold granted in F3.
  destruct ev; cbn in H, Hln; try done; destruct (h_pc h) eqn:Hpc; try done; cbn in H, Hln, F1, F2, F3, Hsv.
  - destruct (limiterFor _ _); [done|]. injection Hln as <-. next H Hc'. accurate_line. silence F1.
  - apply bind_Some in H as (lim & El & H). rewrite El in Hln. cbn in Hln.
    destruct (acquire fused now0 lim) as [lim' [reason []]] eqn:Ea; [done|]. injection Hln as <-. next H Hc'.
    accurate_line; [by destruct (acquire_reason _ _ _ _ _ Ea) as [-> | ->]; [left|right]|answer F1].
  - destruct read_deadline as [e|]; [injection Hln as <-; next H Hc'; accurate_line; silence F1|].
    destruct (fst (readHelloRequest r)) as [svc|e]; [done|]. injection Hln as <-.
    destruct (errors_Is e _); next H Hc'; [accurate_line; answer F1|accurate_line; silence F1].
  - specialize (Hsv svc eq_refl). destruct (Policy.Resolve _ _ _) as [b []]; [done|]. injection Hln as <-. next H Hc'.
    accurate_line. answer F1.
  - specialize (Hsv svc eq_refl). pose proof (F3 pol svc b eq_refl) as Hauth.
    destruct dial as [e|]; [|done]. injection Hln as <-. next H Hc'.
    accurate_line; [exists pol, svc, b; by split_and!|answer F1].
  - specialize (Hsv svc eq_refl). injection Hln as <-. next H Hc'. accurate_line; silence F1.
  - specialize (Hsv svc eq_refl). destruct (respond deadline (h_out h) statusOK) as [err w] eqn:Er. cbn in Hln.
    assert (w_out w `prefix_of` [frameVersion; statusOK]) as Hpre.
    { pose proof (respond_out deadline (h_out h) statusOK) as Ho. rewrite Er in Ho. apply Ho, F1. lia. }
    destruct err, clear; try done; injection Hln as <-; next H Hc'; accurate_line;
      right; (split; [done|right]); (split; [|done]); apply (bool_decide_eq_true_1 _); reflexivity.
  - specialize (Hsv svc eq_refl). injection Hln as <-. next H Hc'. accurate_line.
    left. exists statusOK. split; [done|]. by rewrite (F2 _ _ _ _ eq_refl).
Qed.

(** The names the server knows. *)
Definition names_known (evs : list event) (rg : registry) : Prop :=
  ∀ ip n, rg_names rg !! ip = Some n → listed evs ip n.

Lemma refreshed_names evs t rg rg' : refreshed rg t (pc_peers (in_force cfg evs)) rg' → names_known evs rg'.
Proof.
  intros [_ Rn Rd _ _ _ _ _ _] ip n E.
  assert (ip ∈ tip <$> pc_peers (in_force cfg evs)) as (p & -> & Hp)%list_elem_of_fmap by (apply Rd; by eexists).
  rewrite Rn in E by done. injection E as <-. exists evs, [], p. by rewrite app_nil_r.
Qed.

Lemma handler_step_names s c h ev s' : handler_step s c h ev = Some s' → rg_names (s_registry s') = rg_names (s_registry s).
Proof.
  intros H. destruct ev; cbn in H; try done; destruct (h_pc h); try done;
    repeat first [apply bind_Some in H as (? & _ & H) | case_match]; try done; by injection H as <-.
Qed.

Lemma names_known_ran evs s : addrs_distinct (pc_peers cfg) → ran now cfg evs s → names_known evs (s_registry s).
Proof.
  intros Hwf. revert evs s. apply (ran_ind now cfg (λ evs s, names_known evs (s_registry s))); [|intros evs s ev s' Hr IH Hok Hs].
  - unfold initial, refreshPeers. cbn [s_registry]. destruct (refresh_maps now (pc_peers cfg) empty_registry) as [rg gone] eqn:Em.
    destruct (close_limiters gone rg) as [rg' cl] eqn:Ec. apply close_limiters_spec in Ec as (N & _). cbn [fst].
    unfold names_known. rewrite N. apply (refreshed_names [] now empty_registry).
    by apply (refresh_maps_refreshed _ _ _ _ gone); [apply registry_ok_empty|..].
  - assert (rg_names (s_registry s') = rg_names (s_registry s) → names_known (evs ++ [ev]) (s_registry s')) as Hsame
      by (intros E ip n; rewrite E; intros; by apply listed_app, IH).
    destruct (event_conn ev) as [c|] eqn:Hev.
    { rewrite (handler_event_step _ _ _ Hev) in Hs. apply bind_Some in Hs as (h & _ & Hs).
      by apply Hsame, (handler_step_names _ c h ev). }
    pose proof (step_config _ _ _ Hs) as Hcfg.
    destruct ev; try done; cbn [step] in Hs;
      try (repeat first [apply bind_Some in Hs as (? & _ & Hs) | case_match]; try done; injection Hs as <-; by apply Hsame).
    + destruct (s_maint s); try done. destruct (refresh_maps _ _ _) as [rg gone] eqn:Em. injection Hs as <-.
      pose proof (inv_reachable _ _ _ Hwf (ran_reachable _ _ _ _ Hr)) as Hinv.
      apply (refreshed_names (evs ++ [Refresh now0]) now0 (s_registry s)). rewrite in_force_snoc, <- (ran_config _ _ _ _ Hr).
      eapply refresh_maps_refreshed; [apply Hinv|apply Hinv|exact Em].
    + destruct (s_maint s) as [| |[] []| |]; try done. destruct (close_limiter _ _) as [rg cl] eqn:Ec.
      injection Hs as <-. apply Hsame. cbn. unfold close_limiter in Ec.
      destruct (rg_heap _ !! _); [|by injection Ec as <-]. by injection Ec as <- _.
Qed.

Lemma known_peerName evs s ip : names_known evs (s_registry s) → known_name evs ip (peerName ip (s_registry s)).
Proof.
  intros H. unfold peerName. destruct (rg_names (s_registry s) !! Unmap ip) as [n|] eqn:E; [right|by left].
  by apply H.
Qed.

#[local] Arguments ValidServiceName : simpl never.

(** A handler works for a name that passed validation. *)
Definition serves_valid (h : handler) : Prop := ∀ svc, service_of h = Some svc → ValidServiceName svc = true.

Lemma serves_valid_step s c h ev s' h' :
  serves_valid h → handler_step s c h ev = Some s' → s_handlers s' !! c = Some h' → serves_valid h'.
Proof.
  unfold serves_valid. intros Hv H Hc'.
  destruct ev; cbn in H; try done; destruct (h_pc h) eqn:Hpc; try done; unfold service_of in Hv; rewrite Hpc in Hv;
    repeat first [apply bind_Some in H as (? & _ & H) | case_match]; simplify_eq;
    cbn in Hc'; rewrite lookup_insert_eq in Hc'; injection Hc' as <-; unfold service_of; cbn; rewrite ?Hpc;
    try done; try (by destruct (unwound_pc h Hpc) as [-> | ->]).
  intros svc0 [= <-]. by eapply (proj1 (readHelloRequest_Ok _ _)).
Qed.

Record logged_ok (evs : list event) (g : logged) : Prop := {
  lo_peers : ∀ c n, lg_peers g !! c = Some n → ∃ h, s_handlers (lg_sys g) !! c = Some h ∧ known_name evs (h_ip h) n;
  lo_services : ∀ c h, s_handlers (lg_sys g) !! c = Some h → serves_valid h;
  lo_lines : ∀ c h ln, s_handlers (lg_sys g) !! c = Some h → (Some c, ln) ∈ lg_lines g →
    accurate evs c (h_ip h) (w_out (h_out h)) ln
}.

(** What a step leaves of a handler that was there. *)
Lemma step_keeps s ev s' c h : step s ev = Some s' → event_ok ev → s_handlers s !! c = Some h →
  ∃ h', s_handlers s' !! c = Some h' ∧ h_ip h' = h_ip h ∧ (finished h = 1 → w_out (h_out h') = w_out (h_out h)).
Proof.
  intros H Hok Hc. assert (is_Some (s_handlers s' !! c)) as [h' Hc'].
  { destruct (event_conn ev) as [c0|] eqn:Hev.
    - rewrite (handler_event_step _ _ _ Hev) in H. apply bind_Some in H as (h0 & _ & H).
      apply handler_step_local in H as (h1 & Hl). rewrite (ls_put _ _ _ _ _ Hl).
      destruct (decide (c = c0)) as [->|Hne]; [rewrite lookup_insert_eq|rewrite lookup_insert_ne by done]; by eexists.
    - destruct ev; try done; cbn [step] in H;
        repeat first [apply bind_Some in H as (? & _ & H) | case_match]; try done; injection H as <-; cbn; try by eexists.
      + rewrite lookup_insert_ne by congruence. by eexists.
      + rewrite lookup_insert_ne by congruence. by eexists.
      + destruct (decide (c = n)) as [->|Hne]; [rewrite lookup_alter_eq, Hc|rewrite lookup_alter_ne by done]; by eexists.
      + destruct (decide (c = c0)) as [->|Hne]; [rewrite lookup_insert_eq|rewrite lookup_insert_ne by done]; by eexists. }
  exists h'. destruct (step_handlers _ _ _ _ _ Hok H Hc') as [[E _]|(h0 & E & Hh)]; [congruence|].
  assert (h0 = h) as -> by congruence. split; [done|]. destruct Hh as [->|[->|Hl]]; [done|done|].
  split; [apply Hl|]. intros Hf. destruct (ls_out _ _ _ _ _ Hl) as [->|(Hr & _)]; [done|].
  unfold finished, rank in *. destruct (h_pc h); lia.
Qed.

Lemma logged_ok_do es g ev m s' lns :
  log_ran now cfg es g → event_ok ev → logged_ok (sys_events es) g →
  step (lg_sys g) ev = Some s' → event_lines g ev m = Some lns →
  logged_ok (sys_events es ++ [ev]) {| lg_sys := s'; lg_peers := lg_peers g; lg_lines := lg_lines g ++ lns |}.
Proof.
  intros Hr Hok [Op Os Ol] H El. destruct (log_ran_ran _ _ _ _ Hr) as [Hreach Hsys].
  constructor; cbn [lg_sys lg_peers lg_lines].
  - intros c n Hn. destruct (Op c n Hn) as (h & Hc & Hk).
    destruct (step_keeps _ _ _ _ _ H Hok Hc) as (h' & Hc' & Hip & _). exists h'. rewrite Hip.
    split; [done|]. by apply known_name_app.
  - intros c h' Hc'. destruct (step_handlers_own _ _ _ _ _ Hok H Hc') as [[_ [Hpc _]]|(h & Hc & Hh)].
    { unfold serves_valid, service_of. by destruct Hpc as [-> | ->]. }
    destruct Hh as [->|[->|[_ Hs]]]; [by eapply Os|by apply (Os c h Hc)|]. by eapply serves_valid_step; [eapply Os|..].
  - intros c h' ln Hc' [Hin|Hin]%elem_of_app.
    + assert (length (lines_of c (lg_lines g)) ≠ 0) as Hlen.
      { apply elem_of_lines_of in Hin. by destruct (lines_of c (lg_lines g)); [apply elem_of_nil in Hin|]. }
      rewrite (lines_counted now cfg) in Hlen by done. unfold finished_at in Hlen.
      destruct (s_handlers (lg_sys g) !! c) as [h|] eqn:Hc; [|done].
      destruct (step_keeps _ _ _ _ _ H Hok Hc) as (h1 & Hc1 & Hip & Hout). assert (h1 = h') as -> by congruence.
      rewrite Hip, Hout; [by apply accurate_app, (Ol c)|]. unfold finished in *. destruct (h_pc h); lia.
    + destruct (event_conn ev) as [c0|] eqn:Hev.
      * pose proof H as Hs. rewrite (handler_event_step _ _ _ Hev) in Hs. apply bind_Some in Hs as (h & Hc & Hs).
        destruct (handler_event_lines _ _ _ _ _ Hev El h Hc) as (peer & Hp & ->).
        destruct (handler_line m peer (lg_sys g) h ev) as [ln'|] eqn:Hln; [|by apply elem_of_nil in Hin].
        apply list_elem_of_singleton in Hin as [= -> ->].
        destruct Hp as [Hp|?]; [|done]. destruct (Op c0 peer Hp) as (h0 & Hc0 & Hk).
        assert (h0 = h) as -> by congruence.
        apply accurate_app.
        eapply handler_line_accurate; [by eapply fit_ran|exact Hk|by apply (Os c0)|exact Hs|done|exact Hln].
      * destruct ev; try done; cbn [event_lines event_conn step] in *; simplify_eq; try by apply elem_of_nil in Hin.
        -- destruct (remoteTunnelIP remote) eqn:Era; [by apply elem_of_nil in Hin|].
           apply list_elem_of_singleton in Hin as [= -> ->].
           destruct (s_listening _); [|done]. destruct (s_handlers _ !! _); [done|]. injection H as <-.
           cbn [s_handlers put set_handlers] in Hc'. rewrite lookup_insert_eq in Hc'. injection Hc' as <-. cbn in Hok |- *.
           accurate_line; [..|right; split; [done|by left]].
        -- by apply elem_of_cons in Hin as [?|?%list_elem_of_singleton].
        -- by apply elem_of_cons in Hin as [?|?%list_elem_of_singleton].
Qed.

Lemma logged_ok_ran es g : addrs_distinct (pc_peers cfg) → log_ran now cfg es g → logged_ok (sys_events es) g.
Proof.
  intros Hwf. revert g. induction es as [|e es IH] using rev_ind; intros g Hr.
  { destruct Hr as [_ [= <-]]. constructor; cbn; intros *; try rewrite lookup_empty; try done. }
  apply log_ran_snoc in Hr as (g0 & Hr & Hok & Hs). specialize (IH g0 Hr). unfold sys_events. rewrite omap_app.
  destruct e as [c0|ev m]; cbn [log_step] in Hs; cbn; rewrite ?app_nil_r; fold (sys_events es).
  - apply bind_Some in Hs as (h & Hc & Hs).
    destruct (h_pc h) eqn:Hpc, (lg_peers g0 !! c0) eqn:Hn; try done. injection Hs as <-. destruct IH as [Op Os Ol].
    constructor; cbn [lg_sys lg_peers lg_lines]; [|done..].
    intros c n [[<- <-]|[_ E]]%lookup_insert_Some; [|by apply Op]. exists h. split; [done|].
    by apply known_peerName, names_known_ran, log_ran_ran.
  - apply bind_Some in Hs as (s' & E & Hs). apply bind_Some in Hs as (lns & El & [= <-]).
    by apply (logged_ok_do es g0 ev m).
Qed.

End accuracy.
(** ** Properties *)

(** C13: every connection leaves exactly one line, written by the action that
    ends it, whichever way it ends: unparseable address, unknown peer, rate
    limit, malformed or missing frame, denied service, dead backend, a
    revocation during setup, a failed answer, or the end of the pipe.  A clean
    shutdown writes its two lines after all of them, the line about the device
    last, and then every connection has its line. *)
Theorem every_connection_is_logged_once now cfg g :
  log_reachable now cfg g →
  (∀ c h, s_handlers (lg_sys g) !! c = Some h →
     length (lines_of c (lg_lines g)) = match h_pc h with Returning | Done => 1 | _ => 0 end)
  ∧ (∀ c, s_handlers (lg_sys g) !! c = None → lines_of c (lg_lines g) = [])
  ∧ (s_maint (lg_sys g) = DeviceClosed true → ∃ pre, lg_lines g = pre ++ [(None, all_returned); (None, closing_device)]
       ∧ Forall (λ x, fst x ≠ None) pre
       ∧ ∀ c, is_Some (s_handlers (lg_sys g) !! c) → length (lines_of c pre) = 1).
Proof.
  intros Hr. pose proof (λ c, lines_counted now cfg g c Hr) as Hn. unfold finished_at in Hn. split_and!.
  - intros c h Hc. by rewrite Hn, Hc.
  - intros c Hc. specialize (Hn c). rewrite Hc in Hn. by apply nil_length_inv.
  - intros Hm. pose proof (shutdown_logged_reachable _ _ _ Hr) as Hs. unfold shutdown_logged in Hs. rewrite Hm in Hs.
    destruct Hs as (pre & E & Hpre). exists pre. split_and!; [done| |].
    + apply Forall_forall. intros x Hx. eapply forallb_forall in Hpre; [|by apply list_elem_of_In].
      by apply bool_decide_eq_true in Hpre.
    + intros c [h Hc]. specialize (Hn c). rewrite Hc, E, lines_of_app, app_nil_r in Hn. rewrite Hn.
      pose proof (phase_ok_reachable _ _ _ (log_reachable_sys _ _ _ Hr)) as Hp. unfold phase_ok in Hp. rewrite Hm in Hp.
      destruct Hp as [_ Hd]. specialize (Hd eq_refl c h Hc). unfold is_done in Hd. unfold finished. by destruct (h_pc h).
Qed.


End log.
(** ** A served connection, and one an address changes hands under *)

#[local] Existing Instance canonical_range.

Definition timed (ms sent received : Z) (ev : event) : log_event :=
  Do ev {| me_elapsed := ms * 1000000; me_sent := sent; me_received := received |}.
Definition demo_log (evs : list log_event) : logged :=
  default (log_initial 0 demo_config) (run log_step (log_initial 0 demo_config) evs).
Definition demo_accept : event := Accept 1 (TCPAddr (byte_of_Z <$> [10; 99; 0; 7]%Z)) (mkWriter [] None).
Definition demo_served : list log_event :=
  timed 0 0 0 demo_accept :: LookupName 1 :: (timed 1 0 0 <$> tail demo_connect)
  ++ [timed 1 0 0 (RespondOK 1 None None); timed 250 512 64 (PipeEnds 1)].

Lemma demo_log_reachable evs :
  Forall log_event_ok evs → bool_decide (is_Some (run log_step (log_initial 0 demo_config) evs)) = true →
  log_reachable 0 demo_config (demo_log evs).
Proof.
  intros Hok H. apply (run_reachable log_step (log_reachable 0 demo_config) log_event_ok (log_next 0 demo_config) evs
    (log_initial 0 demo_config)); [constructor|done|by apply from_Some].
Qed.

Lemma demo_served_ok : Forall log_event_ok demo_served.
Proof. repeat (apply Forall_cons; split; [first [exact I|reflexivity]|]). apply Forall_nil. exact I. Qed.

Lemma demo_served_reachable : log_reachable 0 demo_config (demo_log demo_served).
Proof. apply demo_log_reachable; [apply demo_served_ok|by vm_compute]. Qed.

Definition demo_line : line :=
  mk Info (#"gocloak: connection closed")
    [(#"peer", Text (#"app-1")); (#"service", Text (#"primary-db")); (#"status", Text (#"ok"));
     (#"bytes_sent", Int 512); (#"bytes_received", Int 64); (#"duration_ms", Int 250)].

Lemma every_connection_is_logged_once_witness :
  length (lines_of 1 (lg_lines (demo_log demo_served))) = 1 ∧ lg_lines (demo_log demo_served) = [(Some 1, demo_line)].
Proof.
  split; [|by vm_compute].
  destruct (every_connection_is_logged_once 0 demo_config _ demo_served_reachable) as (H & _).
  rewrite (H 1 (demo_handler (lg_sys (demo_log demo_served)))); [by vm_compute|]. apply from_Some. by vm_compute.
Defined.

(** A connection whose backend refuses. *)
Definition demo_refused : list log_event :=
  timed 0 0 0 demo_accept :: LookupName 1 :: (timed 1 0 0 <$> take 4 (tail demo_connect))
  ++ [timed 3 0 0 (DialBackend 1 (Some EOF_error) None)].
Definition demo_refusal : line :=
  mk Warn (#"gocloak: backend unavailable")
    [(#"peer", Text (#"app-1")); (#"service", Text (#"primary-db")); (#"status", Text (#"backend unavailable"));
     (#"backend", Text (#"192.0.2.10:3306")); (#"duration_ms", Int 3); (#"error", Text (#"EOF"))].


(** The address of a connection that was accepted, and its line's name taken,
    passes to another key before the limiter is looked up.  The connection is
    then the successor's: it is charged to its limiter, granted by its policy
    and proxied to its backend, which the old policy does not grant, and its
    line names the peer that left. *)
Definition successor_raw : peersYAML := {| py_Peers := [{|
  py_Name := #"app-9"; py_PublicKey := other_key; py_PSK := #"env:APP_PSK"; py_TunnelIP := #"10.99.0.7";
  py_Limits := {| MaxConcurrent := 4; DialsPerSecond := 0 |};
  py_Allow := {[ #"billing" := #"192.0.2.99:443" ]} |}] |}.
Definition successor : PeersConfig :=
  from_Ok no_config (LoadPeersConfig demo_file (one_document successor_raw) (#"peers.yaml")).
Definition changed_hands : list log_event :=
  [timed 0 0 0 demo_accept; LookupName 1]
  ++ (timed 0 0 0 <$> [Swap successor; Refresh 9; DrainLimiter; DrainLimiter; CloseFinished;
       FindLimiter 1; Acquire 1 true 10 None;
       ReadHello 1 None (mkReader [Wire.hello_request_frame (#"billing")] EOF_error) None;
       ResolveService 1 None; DialBackend 1 None None; Track 1; Recheck 1; RespondOK 1 None None])
  ++ [timed 9 7 7 (PipeEnds 1)].

Theorem accepted_before_a_reload_is_served_as_the_successor :
  log_reachable 0 demo_config (demo_log changed_hands)
  ∧ lg_lines (demo_log changed_hands) = [(Some 1, mk Info (#"gocloak: connection closed")
      [(#"peer", Text (#"app-1")); (#"service", Text (#"billing")); (#"status", Text (#"ok"));
       (#"bytes_sent", Int 7); (#"bytes_received", Int 7); (#"duration_ms", Int 9)])]
  ∧ snd (Policy.Resolve (pc_policy demo_config) (Addr4 174260231) (#"billing")) = false
  ∧ snd (Policy.Resolve (pc_policy successor) (Addr4 174260231) (#"billing")) = true.
Proof.
  split_and!; [|by vm_compute..]. apply demo_log_reachable; [|by vm_compute].
  repeat (apply Forall_cons; split; [first [exact I|reflexivity|apply (bool_decide_eq_true_1 _); by vm_compute]|]).
  apply Forall_nil. exact I.
Qed.

End ConnLog.
