(* ===== verification/Run.v ===== *)
(** * [Server.Run] ([server.go])

    Startup as one sequence, each stage being a definition of its own
    component, with the calls [Run] defers and the order they unwind in.  The
    accept loop and the drain are [Conn]'s; here they are single effects. *)

From S2P Require Import Prelude GoStrings GoNetip Policy Secret Yaml Config Watcher Device Limiter Server Lifecycle Conn.
Import Policy Secret Yaml Config Watcher Device Limiter Server Lifecycle.

Module Run.

(** What a run does that can be seen from outside, in order. *)
Inductive effect :=
  | OpenWatch | CloseWatch
  | Resource (r : resource)                  (* the TUN and the device *)
  | AppliedPeers | RefreshedPeers | Listen
  | StartWatcher | Serve
  | CancelRun | WaitWatcher | DrainConnections.

#[export] Instance resource_eq_dec : EqDecision resource.
Proof. solve_decision. Defined.
#[export] Instance effect_eq_dec : EqDecision effect.
Proof. solve_decision. Defined.

Inductive deferred := CloseWatcher | CloseDevice | Drain | WaitWatch | Cancel.

Section run.
Context {WG : WireGuard} {RO : GoRange}.

(** The outside of one run: the two clocks and the file system of the
    watcher, what the network and the kernel return, how accepting ends (and
    whether the context was done then), and what the watcher's goroutine
    returns. *)
Record world := {
  rw_store : secretStore; rw_yaml : gostring → yaml_stream peersYAML; rw_fs : filesystem;
  rw_t1 : nat; rw_t2 : nat; rw_abs : gostring; rw_watch : option error;
  rw_tun : option error; rw_now : Z; rw_listen : option error;
  rw_accept : error * bool; rw_watcher : option error
}.

Record outcome := {
  ro_err : option error; ro_trace : list effect; ro_dev : option tunnelDevice;
  ro_cache : secretCache; ro_registry : registry
}.

(** The deferred calls, last registered first; the wait for the watcher may
    set the result. *)
Fixpoint unwind (ds : list deferred) (watchErr : option error) (dev : option tunnelDevice)
    (err : option error) : option error * list effect * option tunnelDevice :=
  match ds with
  | [] => (err, [], dev)
  | d :: ds' =>
      let '(err1, es, dev1) :=
        match d, dev with
        | CloseWatcher, _ => (err, [CloseWatch], dev)
        | CloseDevice, Some td => let '(td', rs) := Device.Close td in (err, Resource <$> rs, Some td')
        | CloseDevice, None => (err, [], None)
        | Drain, _ => (err, [DrainConnections], dev)
        | WaitWatch, _ => (match err with None => watchErr | Some e => Some e end, [WaitWatcher], dev)
        | Cancel, _ => (err, [CancelRun], dev)
        end in
      let '(err2, es', dev2) := unwind ds' watchErr dev1 err1 in (err2, es ++ es', dev2)
  end.

(** A return with the calls deferred so far. *)
Definition leave (watchErr : option error) (ds : list deferred) (err : option error) (es : list effect)
    (dev : option tunnelDevice) (cache : secretCache) (rg : registry) : outcome :=
  let '(err', es', dev') := unwind ds watchErr dev err in
  {| ro_err := err'; ro_trace := es ++ es'; ro_dev := dev'; ro_cache := cache; ro_registry := rg |}.

(** [Run] of a server that [started] says has been run before; [cache] is its
    secret cache. *)
Definition Run (started : bool) (rw : world) (cfg : ServerConfig) (cache : secretCache) : outcome :=
  let leave := leave (rw_watcher rw) in
  if started then
    leave [] (Some (errors_New (#"gocloak: server: Run has already been called"))) [] None cache empty_registry
  else
  match resolveSecret (rw_store rw) (sc_PrivateKey cfg) cache with
  | (Err e, cache1) =>
      leave [] (Some (wrapf (#"gocloak: server: private key: ") e)) [] None cache1 empty_registry
  | (Ok privateKey, cache1) =>
  match newPeerWatcher (rw_yaml rw) (rw_fs rw) (rw_t1 rw) (rw_t2 rw) (rw_watch rw) (rw_abs rw) with
  | Err e => leave [] (Some e) [] None cache1 empty_registry
  | Ok watcher =>
  let es1 := [OpenWatch] in
  match newTunnelDevice (rw_tun rw)
          {| do_TunnelIP := sc_TunnelIP cfg; do_MTU := sc_MTU cfg; do_PrivateKey := privateKey;
             do_ListenPort := sc_ListenPort cfg |} with
  | (Err e, rs) => leave [CloseWatcher] (Some e) (es1 ++ (Resource <$> rs)) None cache1 empty_registry
  | (Ok dev, rs) =>
  let es2 := es1 ++ (Resource <$> rs) in
  match td_dev dev with
  | None => leave [CloseWatcher] (Some (errors_New [])) es2 None cache1 empty_registry  (* never returned *)
  | Some d =>
  let initial := watcher_Config watcher in
  let '(aerr, (d', cache2)) := apply_initial (rw_store rw) (pc_peers initial) (d, cache1) in
  let dev' := {| td_tun := td_tun dev; td_dev := Some d'; td_closed := td_closed dev |} in
  match aerr with
  | Some e => leave [CloseDevice; CloseWatcher] (Some e) es2 (Some dev') cache2 empty_registry
  | None =>
  let rg := fst (refreshPeers (rw_now rw) initial empty_registry) in
  let es3 := es2 ++ [AppliedPeers; RefreshedPeers] in
  match rw_listen rw with
  | Some e =>
      leave [CloseDevice; CloseWatcher]
        (Some (wrapf (#"gocloak: server: listen on " ++ Addr_String (sc_TunnelIP cfg) ++ #":443: ") e))
        es3 (Some dev') cache2 rg
  | None =>
      let '(aerr, canceled) := rw_accept rw in
      let err := if canceled : bool then None else Some (wrapf (#"gocloak: server: accept: ") aerr) in
      leave [Cancel; WaitWatch; Drain; CloseDevice; CloseWatcher] err
        (es3 ++ [Listen; StartWatcher; Serve]) (Some dev') cache2 rg
  end end end end end end.

(** ** Properties *)

(** What a run leaves behind: nothing opened stays open, and the watch is
    released last. *)
Definition released (es : list effect) : Prop :=
  es = [] ∨ es = [OpenWatch; CloseWatch]
  ∨ ∃ m mid, es = [OpenWatch; Resource (TunOpened m); Resource DeviceCreated] ++ mid
      ++ [Resource DeviceClosed; CloseWatch] ∧ mid ∈ [ []; [AppliedPeers; RefreshedPeers] ].

(** What startup needs, and leaves: the watcher, the device with every peer on
    it, and the secret cache. *)
Definition starts (started : bool) (rw : world) (cfg : ServerConfig) (cache : secretCache)
    (watcher : peerWatcher) (d' : wg) (cache' : secretCache) : Prop :=
  started = false ∧ ∃ key cache1 dev d,
    resolveSecret (rw_store rw) (sc_PrivateKey cfg) cache = (Ok key, cache1)
    ∧ newPeerWatcher (rw_yaml rw) (rw_fs rw) (rw_t1 rw) (rw_t2 rw) (rw_watch rw) (rw_abs rw) = Ok watcher
    ∧ fst (newTunnelDevice (rw_tun rw) {| do_TunnelIP := sc_TunnelIP cfg; do_MTU := sc_MTU cfg;
             do_PrivateKey := key; do_ListenPort := sc_ListenPort cfg |}) = Ok dev
    ∧ td_dev dev = Some d
    ∧ apply_initial (rw_store rw) (pc_peers (watcher_Config watcher)) (d, cache1) = (None, (d', cache'))
    ∧ rw_listen rw = None.

Definition served_run (rw : world) (watcher : peerWatcher) (cache' : secretCache) (o : outcome) : Prop :=
  ro_cache o = cache'
  ∧ ro_registry o = Conn.s_registry (Conn.initial (rw_now rw) (watcher_Config watcher))
  ∧ (∃ m, ro_trace o = [OpenWatch; Resource (TunOpened m); Resource DeviceCreated; AppliedPeers; RefreshedPeers;
                        Listen; StartWatcher; Serve; CancelRun; WaitWatcher; DrainConnections;
                        Resource DeviceClosed; CloseWatch])
  ∧ ro_err o = (if snd (rw_accept rw) then rw_watcher rw
                else Some (wrapf (#"gocloak: server: accept: ") (fst (rw_accept rw)))).

(** Either it fails, or it is a served run. *)
Lemma Run_cases started rw cfg cache :
  let o := Run started rw cfg cache in
  (is_Some (ro_err o) ∧ released (ro_trace o) ∧ ∀ watcher d' cache', ¬ starts started rw cfg cache watcher d' cache')
  ∨ ∃ watcher d' cache', starts started rw cfg cache watcher d' cache' ∧ served_run rw watcher cache' o.
Proof.
  cbn zeta. unfold Run. destruct started.
  { left. split_and!; [done|by left|]. by intros ? ? ? [? _]. }
  destruct (resolveSecret _ _ _) as [[key|e] cache1] eqn:Ek.
  2:{ left. split_and!; [done|by left|]. intros ? ? ? (_ & ? & ? & ? & ? & H & _). congruence. }
  destruct (newPeerWatcher _ _ _ _ _ _) as [watcher|e] eqn:Ew.
  2:{ left. split_and!; [done|by left|]. intros ? ? ? (_ & ? & ? & ? & ? & _ & H & _). congruence. }
  set (opts := {| do_TunnelIP := _ |}). pose proof (newTunnelDevice_spec (rw_tun rw) opts) as Hdev.
  destruct (newTunnelDevice (rw_tun rw) opts) as [[dev|e] rs] eqn:Ed.
  2:{ left. split_and!; [done| |].
      - destruct Hdev as [->|[m ->]]; [right; by left|]. right; right. exists m, []. split; [done|]. by left.
      - intros ? ? ? (_ & key' & ? & dev' & ? & H & _ & H' & _).
        rewrite Ek in H. injection H as <- _.
        change (fst (newTunnelDevice (rw_tun rw) opts) = Ok dev') in H'. by rewrite Ed in H'. }
  destruct Hdev as (m & k & d & -> & _ & _ & _ & Hd & Hcl & _). rewrite Hd.
  destruct (apply_initial _ _ _) as [aerr [d' cache2]] eqn:Ea.
  assert (∀ watcher0 d0 cache0, starts false rw cfg cache watcher0 d0 cache0 →
    watcher0 = watcher ∧ aerr = None ∧ d0 = d' ∧ cache0 = cache2 ∧ rw_listen rw = None) as Hst.
  { intros ? ? ? (_ & key' & ? & dev' & ? & H1 & H2 & H3 & H4 & H5 & H6). rewrite Ek in H1. injection H1 as <- <-.
    change (fst (newTunnelDevice (rw_tun rw) opts) = Ok dev') in H3. rewrite Ed in H3. injection H3 as <-.
    rewrite Ew in H2. injection H2 as <-. rewrite Hd in H4. injection H4 as <-. rewrite Ea in H5. by simplify_eq. }
  assert (∀ ds watchErr err, unwind (CloseDevice :: ds) watchErr
      (Some {| td_tun := td_tun dev; td_dev := Some d'; td_closed := td_closed dev |}) err
    = let '(err2, es', dev2) := unwind ds watchErr
        (Some {| td_tun := td_tun dev; td_dev := Some d'; td_closed := true |}) err in
      (err2, [Resource DeviceClosed] ++ es', dev2)) as Hclose.
  { intros ds watchErr err. cbn [unwind]. unfold Device.Close. cbn [td_closed td_dev td_tun]. by rewrite Hcl. }
  destruct aerr as [e|].
  { left. unfold leave. rewrite Hclose. cbn [unwind]. split_and!; [done| |].
    - right; right. exists m, []. split; [done|]. by left.
    - intros w0 d0 c0 H. by destruct (Hst w0 d0 c0 H) as (_ & ? & _). }
  destruct (rw_listen rw) as [e|] eqn:El.
  { left. unfold leave. rewrite Hclose. cbn [unwind]. split_and!; [done| |].
    - right; right. exists m, [AppliedPeers; RefreshedPeers]. split; [done|]. right; by left.
    - intros w0 d0 c0 H. by destruct (Hst w0 d0 c0 H) as (_ & _ & _ & _ & ?). }
  right. exists watcher, d', cache2. split.
  { split; [done|]. exists key, cache1, dev, d. split_and!; try done. change (fst (newTunnelDevice (rw_tun rw) opts) = Ok dev). by rewrite Ed. }
  unfold served_run. destruct (rw_accept rw) as [aerr canceled].
  unfold leave. cbn [unwind]. unfold Device.Close. cbn [td_closed td_dev td_tun]. rewrite Hcl.
  cbn [ro_trace ro_err ro_cache ro_registry app fmap list_fmap snd fst].
  split_and!; [done|done|by exists m|by destruct canceled].
Qed.

Lemma released_not_served es : released es → Serve ∉ es.
Proof.
  intros [->|[->|(m & mid & -> & Hmid)]]; [by apply not_elem_of_nil|set_solver|].
  rewrite !elem_of_cons, elem_of_nil in Hmid. destruct Hmid as [->|[->|[]]]; set_solver.
Qed.

(** C18: [Run] starts whole or not at all.  It serves if and only if it is the
    first call, the key resolves, the peers file loads and is watched, the
    device comes up, every peer of the file is put on it and the listener is
    bound; every other startup ends in an error with whatever had been opened
    closed again, and no connection is accepted.  A served run has the first
    maps of [Conn.initial], and ends by cancelling its context, waiting for the
    watcher, draining the connections, closing the device and releasing the
    watch, in that order; it returns the accept error, or after a cancellation
    the error the watcher died of, if any.  A second call returns an error and
    does nothing else. *)
Theorem Run_starts_whole_or_not_at_all started rw cfg cache :
  let o := Run started rw cfg cache in
  (Serve ∈ ro_trace o ↔ ∃ watcher d' cache', starts started rw cfg cache watcher d' cache')
  ∧ (Serve ∈ ro_trace o → ∃ watcher d' cache', starts started rw cfg cache watcher d' cache' ∧ served_run rw watcher cache' o)
  ∧ (Serve ∉ ro_trace o → is_Some (ro_err o) ∧ released (ro_trace o))
  ∧ (started = true → ro_trace o = [] ∧ is_Some (ro_err o) ∧ ro_dev o = None ∧ ro_cache o = cache).
Proof.
  cbn zeta. destruct (Run_cases started rw cfg cache) as [(He & Hr & Hn)|(watcher & d' & cache' & Hs & Ho)].
  - pose proof (released_not_served _ Hr) as Hns. split_and!; [split; [done|]|done|done|].
    + intros (watcher & d' & cache' & Hs). by destruct (Hn watcher d' cache').
    + intros ->. split_and!; [done|by eexists|done|done].
  - assert (Serve ∈ ro_trace (Run started rw cfg cache)) as Hserve.
    { destruct Ho as (_ & _ & [m ->] & _). set_solver. }
    split_and!; [split; [intros _; by exists watcher, d', cache'|done]|intros _; by exists watcher, d', cache'|done|].
    intros ->. by destruct Hs.
Qed.

End run.

(** ** A startup that works, and the call after it *)

#[local] Existing Instance canonical_range.
#[local] Existing Instance Server.demo_wireguard.

Definition demo_server : ServerConfig := {|
  sc_TunnelIP := Addr4 174260225; sc_MTU := 1420; sc_PrivateKey := #"env:APP_PSK"; sc_ListenPort := 51820;
  sc_PeersFile := demo_path |}.
Definition run_world : world := {|
  rw_store := demo_store; rw_yaml := swap_yaml; rw_fs := demo_fs; rw_t1 := 0; rw_t2 := 0;
  rw_abs := demo_path; rw_watch := None; rw_tun := None; rw_now := 0; rw_listen := None;
  rw_accept := (errors_New (#"closed"), true); rw_watcher := None |}.
Definition demo_served : outcome := Run false run_world demo_server ∅.

Lemma demo_served_trace : bool_decide (Serve ∈ ro_trace demo_served) = true.
Proof. by vm_compute. Qed.

Lemma Run_starts_whole_or_not_at_all_witness :
  (∃ watcher d' cache', starts false run_world demo_server ∅ watcher d' cache')
  ∧ ro_err demo_served = None ∧ ro_trace (Run true run_world demo_server ∅) = [].
Proof.
  destruct (Run_starts_whole_or_not_at_all false run_world demo_server ∅) as (H1 & _).
  destruct (Run_starts_whole_or_not_at_all true run_world demo_server ∅) as (_ & _ & _ & H4).
  split; [|split].
  - apply H1. exact (bool_decide_eq_true_1 _ demo_served_trace).
  - by vm_compute.
  - by destruct H4.
Defined.

End Run.
