(* ===== verification/Secrecy.v ===== *)
(** * Keys stay out of errors and logs ([secret.go], [device.go], [server.go])

    Two runs of the server that differ in nothing but the bytes of its keys:
    the contents of key files, the values of environment variables, what the
    external resolver answers.  Whatever can be seen of a run without looking
    inside the device is then the same in both: every error, every line of the
    log, every call made to the outside.  What is assumed of wireguard-go is
    that its answers do not depend on the keys in the text it is given. *)

From S2P Require Import Prelude GoStrings GoSlog GoEncoding GoNetip GoIO Policy Secret Yaml Config Watcher Watch Device Limiter Server ReloadLog Lifecycle Conn Run.
Import Policy Secret Yaml Config Watcher Device Limiter Server ReloadLog Lifecycle.

Module Secrecy.

(** ** Values that may not be told apart *)

(** Two values an error may treat alike: both or neither empty, blank, or
    base64, and then of keys of the same length. *)
Record alike (a b : gostring) : Prop := {
  al_empty : a = [] ↔ b = [];
  al_blank : TrimSpace a = [] ↔ TrimSpace b = [];
  al_length : length <$> b64_decode (TrimSpace a) = length <$> b64_decode (TrimSpace b)
}.
#[export] Instance alike_equivalence : Equivalence alike.
Proof.
  split; [done| |].
  - intros a b [H1 H2 H3]. by constructor; [rewrite H1|rewrite H2|].
  - intros a b c [H1 H2 H3] [H4 H5 H6]. constructor; [by rewrite H1|by rewrite H2|congruence].
Qed.

(** The same error, or related values. *)
Definition res_alike {A} (R : A → A → Prop) (m1 m2 : result A) : Prop :=
  match m1, m2 with Ok a, Ok b => R a b | Err e1, Err e2 => e1 = e2 | _, _ => False end.
Definition opt_alike {A} (R : A → A → Prop) (o1 o2 : option A) : Prop :=
  match o1, o2 with Some a, Some b => R a b | None, None => True | _, _ => False end.

Definition secret_alike (s1 s2 : secret) : Prop := alike (bytes s1) (bytes s2).
Definition file_alike (f1 f2 : openFile) : Prop :=
  of_mode f1 = of_mode f2 ∧ res_alike alike (of_content f1) (of_content f2).
Definition os_alike (o1 o2 : osEnv) : Prop :=
  (∀ path, res_alike file_alike (os_Open o1 path) (os_Open o2 path))
  ∧ ∀ name, opt_alike alike (os_LookupEnv o1 name) (os_LookupEnv o2 name).
Definition resolver_alike (r1 r2 : SecretRef → result gostring) : Prop := ∀ ref, res_alike alike (r1 ref) (r2 ref).
Definition store_alike (s1 s2 : secretStore) : Prop :=
  os_alike (ss_os s1) (ss_os s2) ∧ opt_alike resolver_alike (ss_external s1) (ss_external s2).
Definition cache_alike (c1 c2 : secretCache) : Prop := ∀ ref : gostring, opt_alike secret_alike (c1 !! ref) (c2 !! ref).

(** ** Lemmas: resolution *)

Lemma res_alike_bind {A B} (R : A → A → Prop) (Q : B → B → Prop) m1 m2 k1 k2 :
  res_alike R m1 m2 → (∀ a b, R a b → res_alike Q (k1 a) (k2 b)) → res_alike Q (rbind m1 k1) (rbind m2 k2).
Proof. destruct m1, m2; cbn; try done; auto. Qed.
Lemma res_alike_wrap {A} (R : A → A → Prop) pre m1 m2 : res_alike R m1 m2 → res_alike R (rwrap pre m1) (rwrap pre m2).
Proof. destruct m1, m2; cbn; try done; congruence. Qed.
Lemma res_alike_same {A} (R : A → A → Prop) m : (∀ a, R a a) → res_alike R m m.
Proof. intros H. destruct m; cbn; auto. Qed.

Lemma resolveFile_alike o1 o2 path : os_alike o1 o2 → res_alike secret_alike (resolveFile o1 path) (resolveFile o2 path).
Proof.
  intros [H _]. unfold resolveFile. eapply res_alike_bind; [apply res_alike_wrap, H|]. intros f1 f2 [Hm Hc].
  rewrite Hm. eapply (res_alike_bind eq); [by apply res_alike_same|]. intros mode _ <-.
  destruct (negb _); [done|]. eapply res_alike_bind; [by apply res_alike_wrap, Hc|]. done.
Qed.

Lemma Resolve_alike s1 s2 ref : store_alike s1 s2 →
  res_alike secret_alike (Secret.Resolve (ss_os s1) (ss_external s1) ref) (Secret.Resolve (ss_os s2) (ss_external s2) ref).
Proof.
  intros [Ho He]. unfold Secret.Resolve. eapply (res_alike_bind eq); [by apply res_alike_same|].
  intros [scheme payload] _ <-. case_bool_decide; [by apply resolveFile_alike|]. case_bool_decide.
  - unfold resolveEnv. pose proof (proj2 Ho payload) as Hn.
    by destruct (os_LookupEnv (ss_os s1) payload), (os_LookupEnv (ss_os s2) payload).
  - destruct (ss_external s1) as [r1|], (ss_external s2) as [r2|]; try done.
    eapply res_alike_bind; [apply res_alike_wrap, He|]. intros a b Hab.
    rewrite (bool_decide_ext (a = []) (b = [])) by apply Hab. by case_bool_decide.
Qed.

Lemma resolveSecret_alike s1 s2 ref c1 c2 :
  store_alike s1 s2 → cache_alike c1 c2 →
  res_alike secret_alike (fst (resolveSecret s1 ref c1)) (fst (resolveSecret s2 ref c2))
  ∧ cache_alike (snd (resolveSecret s1 ref c1)) (snd (resolveSecret s2 ref c2)).
Proof.
  intros Hs Hc. unfold resolveSecret. pose proof (Hc ref) as Hr.
  destruct (c1 !! ref) as [a|], (c2 !! ref) as [b|]; try done.
  pose proof (Resolve_alike s1 s2 ref Hs) as H.
  destruct (Secret.Resolve (ss_os s1) _ _) as [a|e1], (Secret.Resolve (ss_os s2) _ _) as [b|e2]; cbn in H |- *; try done.
  - split; [done|]. intros k. destruct (decide (k = ref)) as [->|Hne]; [by rewrite !lookup_insert_eq|].
    rewrite !lookup_insert_ne by done. apply Hc.
  - by subst.
Qed.

Lemma pruneSecretCache_alike k ps c1 c2 :
  cache_alike c1 c2 → cache_alike (pruneSecretCache k ps c1) (pruneSecretCache k ps c2).
Proof.
  intros Hc ref. unfold pruneSecretCache. set (u := foldl _ _ _). specialize (Hc ref).
  destruct (decide (ref ∈ u)) as [Hin|Hout].
  - assert (∀ c : secretCache, filter (λ e, fst e ∈ u) c !! ref = c !! ref) as E.
    { intros c. destruct (c !! ref) as [x|] eqn:Ec; [by apply map_lookup_filter_Some|].
      apply map_lookup_filter_None. by left. }
    by rewrite !E.
  - assert (∀ c : secretCache, filter (λ e, fst e ∈ u) c !! ref = None) as E.
    { intros c. apply map_lookup_filter_None. right. intros x _. done. }
    by rewrite !E.
Qed.

(** ** Lemmas: the device *)

Definition key_hex (h : gostring) : Prop := ∃ raw, length raw = 32 ∧ h = hex_encode raw.

Lemma keyToHex_alike a b : alike a b → res_alike (λ h1 h2, key_hex h1 ∧ key_hex h2) (keyToHex a) (keyToHex b).
Proof.
  intros [_ Hb Hl]. unfold keyToHex, wgKeyLen. rewrite (bool_decide_ext _ _ Hb). case_bool_decide; [done|].
  destruct (b64_decode (TrimSpace a)) as [ra|], (b64_decode (TrimSpace b)) as [rb|]; cbn in Hl; try done.
  injection Hl as Hl. rewrite Hl. destruct (negb _) eqn:E; [done|]. bool_props. split; [exists ra|exists rb]; split; lia || done.
Qed.

(** Two lines of a configuration text that differ in a key only. *)
Definition same_line (l1 l2 : gostring * gostring) : Prop :=
  l1 = l2 ∨ fst l1 = fst l2 ∧ fst l1 ∈ [ #"private_key"; #"preshared_key"] ∧ key_hex (snd l1) ∧ key_hex (snd l2).
Definition same_text (cfg1 cfg2 : gostring) : Prop := Forall2 same_line (uapi_pairs cfg1) (uapi_pairs cfg2).
Lemma same_text_refl cfg : same_text cfg cfg.
Proof. unfold same_text. induction (uapi_pairs cfg); constructor; [by left|done]. Qed.

(** What wireguard-go is assumed to do: on devices related by [related], its
    answers to two texts that differ in keys only are the same, and the
    devices are related again. *)
Record blind {WG : WireGuard} (related : wg → wg → Prop) : Prop := {
  bl_new : related wg_new wg_new;
  bl_IpcSet : ∀ cfg1 cfg2 d1 d2, same_text cfg1 cfg2 → related d1 d2 →
    fst (IpcSet cfg1 d1) = fst (IpcSet cfg2 d2) ∧ related (snd (IpcSet cfg1 d1)) (snd (IpcSet cfg2 d2));
  bl_Up : ∀ d1 d2, related d1 d2 → wg_Up d1 = wg_Up d2
}.

Section devices.
Context {WG : WireGuard} (related : wg → wg → Prop) (Hblind : blind related).

Definition op_alike (r1 r2 : option error * wg) : Prop := fst r1 = fst r2 ∧ related (snd r1) (snd r2).

Lemma ipc_alike pre cfg1 cfg2 d1 d2 :
  same_text cfg1 cfg2 → related d1 d2 → op_alike (ipc pre cfg1 d1) (ipc pre cfg2 d2).
Proof.
  intros Ht Hd. destruct (bl_IpcSet _ Hblind _ _ _ _ Ht Hd) as [E Hr]. unfold ipc.
  destruct (IpcSet cfg1 d1) as [e1 d1'], (IpcSet cfg2 d2) as [e2 d2']; cbn in E, Hr. subst. by destruct e2.
Qed.

(** Two peers that differ in the preshared key only. *)
Record peer_alike (p1 p2 : devicePeer) : Prop := {
  pa_key : dp_PublicKey p1 = dp_PublicKey p2;
  pa_psk : secret_alike (dp_PresharedKey p1) (dp_PresharedKey p2);
  pa_ip : dp_AllowedIP p1 = dp_AllowedIP p2;
  pa_endpoint : dp_Endpoint p1 = dp_Endpoint p2
}.

Lemma peer_block_alike pub k1 k2 u ep ip :
  key_hex k1 → key_hex k2 → Forall2 same_line (peer_block pub k1 u ep ip) (peer_block pub k2 u ep ip).
Proof.
  intros H1 H2. assert (∀ l, Forall2 same_line l l) as Hl by (intros l; induction l; constructor; [by left|done]).
  unfold peer_block. repeat apply Forall2_app; try apply Hl.
  constructor; [right|constructor]. split_and!; [done| |done|done]. apply (bool_decide_eq_true_1 _). reflexivity.
Qed.

Lemma keyToHex_key s k : keyToHex s = Ok k → key_hex k.
Proof. intros (raw & _ & H & ->)%keyToHex_Ok. by exists raw. Qed.

Lemma ipcConfig_alike p1 p2 u : peer_alike p1 p2 → endpoint_wf (dp_Endpoint p1) →
  res_alike same_text (ipcConfig p1 u) (ipcConfig p2 u).
Proof.
  intros [Hk Hp Hi He] Hwf.
  assert (res_alike (λ _ _, True) (ipcConfig p1 u) (ipcConfig p2 u)) as H.
  { unfold ipcConfig. rewrite Hk, Hi, He. eapply (res_alike_bind (λ _ _, True)); [by apply res_alike_same|]. intros pub1 pub2 _.
    eapply res_alike_bind; [apply res_alike_wrap, keyToHex_alike, Hp|]. intros k1 k2 _.
    destruct (negb (IsValid _)); [done|]. destruct (negb (Contains4 _ _)); [done|]. by destruct (_ && _). }
  destruct (ipcConfig p1 u) as [t1|e1] eqn:E1, (ipcConfig p2 u) as [t2|e2] eqn:E2; try done.
  apply ipcConfig_pairs in E1 as (pub1 & k1 & P1 & K1 & _ & T1); [|done].
  apply ipcConfig_pairs in E2 as (pub2 & k2 & P2 & K2 & _ & T2); [|by rewrite <- He].
  cbn. unfold same_text. rewrite T1, T2, Hi, He. rewrite Hk, P2 in P1. injection P1 as ->.
  by apply peer_block_alike; [apply (keyToHex_key _ _ K1)|apply (keyToHex_key _ _ K2)].
Qed.

Lemma device_applyPeer_alike p1 p2 u d1 d2 : peer_alike p1 p2 → endpoint_wf (dp_Endpoint p1) → related d1 d2 →
  op_alike (device_applyPeer p1 u d1) (device_applyPeer p2 u d2).
Proof.
  intros Hp Hwf Hd. unfold device_applyPeer. pose proof (ipcConfig_alike _ _ u Hp Hwf) as H.
  destruct (ipcConfig p1 u), (ipcConfig p2 u); cbn in H; try done; [by apply ipc_alike|by subst].
Qed.

Lemma RemovePeer_alike k d1 d2 : related d1 d2 → op_alike (RemovePeer k d1) (RemovePeer k d2).
Proof. intros Hd. unfold RemovePeer. destruct (keyToHex k); [|done]. apply ipc_alike; [apply same_text_refl|done]. Qed.

(** ** Lemmas: the server *)

Context (s1 s2 : secretStore) (Hstore : store_alike s1 s2).

(** The device and the cache of the two runs. *)
Definition devs_alike (x y : wg * secretCache) : Prop := related (fst x) (fst y) ∧ cache_alike (snd x) (snd y).
Definition step_alike (r1 r2 : option error * (wg * secretCache)) : Prop := fst r1 = fst r2 ∧ devs_alike (snd r1) (snd r2).

Lemma applyPeer_alike p u x y : devs_alike x y → step_alike (applyPeer s1 p u x) (applyPeer s2 p u y).
Proof.
  destruct x as [d1 c1], y as [d2 c2]. intros [Hd Hc]. cbn in Hd, Hc. unfold applyPeer.
  destruct (resolveSecret_alike s1 s2 (pr_PSK p) c1 c2 Hstore Hc) as [Hr Hc'].
  destruct (resolveSecret s1 _ c1) as [[a|e1] c1'], (resolveSecret s2 _ c2) as [[b|e2] c2']; cbn in Hr, Hc'; try done.
  2:{ subst. by split. }
  set (dp1 := {| dp_PublicKey := pr_PublicKey p; dp_PresharedKey := a; dp_AllowedIP := _; dp_Endpoint := _ |}).
  set (dp2 := {| dp_PublicKey := pr_PublicKey p; dp_PresharedKey := b; dp_AllowedIP := _; dp_Endpoint := _ |}).
  assert (op_alike (if u then UpdatePeer dp1 d1 else AddPeer dp1 d1) (if u then UpdatePeer dp2 d2 else AddPeer dp2 d2)) as [E Hd'].
  { destruct u; (apply device_applyPeer_alike; [done|by apply zero_endpoint_wf|done]). }
  destruct (if u then UpdatePeer dp1 d1 else _) as [e1 d1'], (if u then UpdatePeer dp2 d2 else _) as [e2 d2'].
  cbn in E, Hd'. subst. by destruct e2; split.
Qed.

(** Two loops that differ in the store only. *)
Record loop_alike (lp1 lp2 : ReloadLog.loop) : Prop := {
  la_run : ∀ p x y, devs_alike x y → step_alike (lp_run lp1 p x) (lp_run lp2 p y);
  la_wrap : lp_wrap lp1 = lp_wrap lp2;
  la_line : ∀ p e, peer_line lp1 p e = peer_line lp2 p e
}.

Lemma each_logged_alike (lp1 lp2 : ReloadLog.loop) ps x y : loop_alike lp1 lp2 → devs_alike x y →
  let r1 := each_logged lp1 ps x in let r2 := each_logged lp2 ps y in
  fst r1 = fst r2 ∧ fst (snd r1) = fst (snd r2) ∧ devs_alike (snd (snd r1)) (snd (snd r2)).
Proof.
  intros [Hrun Hw Hl]. revert x y. induction ps as [|p ps IH]; intros x y Hxy; [done|]. cbn [each_logged].
  destruct (Hrun p x y Hxy) as [E H]. destruct (lp_run lp1 p x) as [e1 x1], (lp_run lp2 p y) as [e2 y1].
  cbn in E, H. subst. destruct (IH x1 y1 H) as (L & Es & D).
  destruct (each_logged lp1 ps x1) as [l1 [es1 x2]], (each_logged lp2 ps y1) as [l2 [es2 y2]]. cbn in L, Es, D |- *.
  by rewrite L, Es, Hw, Hl.
Qed.

Lemma revoking_alike : loop_alike revoking revoking.
Proof.
  constructor; [|done..]. intros p [d1 c1] [d2 c2] [Hd Hc]. cbn in *. destruct (RemovePeer_alike (pr_PublicKey p) d1 d2 Hd) as [E H].
  destruct (RemovePeer _ d1) as [e1 d1'], (RemovePeer _ d2) as [e2 d2']. cbn in E, H. subst. by split.
Qed.
Lemma adding_alike : loop_alike (adding s1) (adding s2).
Proof. constructor; [|done..]. intros p x y. apply applyPeer_alike. Qed.
Lemma changing_alike : loop_alike (changing s1) (changing s2).
Proof. constructor; [|done..]. intros p x y. apply applyPeer_alike. Qed.

Lemma applyDiff_logged_alike diff dev1 dev2 c1 c2 : opt_alike related dev1 dev2 → cache_alike c1 c2 →
  ∃ lns err dev1' dev2' c1' c2',
    applyDiff_logged s1 diff dev1 c1 = (lns, (err, dev1', c1')) ∧ applyDiff_logged s2 diff dev2 c2 = (lns, (err, dev2', c2'))
    ∧ opt_alike related dev1' dev2' ∧ cache_alike c1' c2'.
Proof.
  intros Hd Hc. destruct dev1 as [d1|], dev2 as [d2|]; try done; [|by repeat eexists].
  unfold applyDiff_logged.
  pose proof (each_logged_alike _ _ (Removed diff) (d1, c1) (d2, c2) revoking_alike (conj Hd Hc)) as (L1 & E1 & D1).
  destruct (each_logged revoking _ (d1, c1)) as [l1 [es1 x1]], (each_logged revoking _ (d2, c2)) as [l1' [es1' y1]]. cbn in L1, E1, D1.
  pose proof (each_logged_alike _ _ (Added diff) x1 y1 adding_alike D1) as (L2 & E2 & D2).
  destruct (each_logged (adding s1) _ x1) as [l2 [es2 x2]], (each_logged (adding s2) _ y1) as [l2' [es2' y2]]. cbn in L2, E2, D2.
  pose proof (each_logged_alike _ _ (Changed diff) x2 y2 changing_alike D2) as (L3 & E3 & [D3 C3]).
  destruct (each_logged (changing s1) _ x2) as [l3 [es3 [d1' c1']]], (each_logged (changing s2) _ y2) as [l3' [es3' [d2' c2']]].
  cbn in L3, E3, D3, C3. subst. eexists _, _, (Some d1'), (Some d2'), c1', c2'. by split_and!.
Qed.

Context {RO : GoRange}.

Record server_alike (x y : server) : Prop := {
  sa_cfg : sv_cfg x = sv_cfg y;
  sa_registry : sv_registry x = sv_registry y;
  sa_cache : cache_alike (sv_cache x) (sv_cache y);
  sa_dev : opt_alike related (sv_dev x) (sv_dev y)
}.

Lemma handleReload_logged_alike now cfg r x y : server_alike x y → ∃ lns x' y' err closed,
  handleReload_logged s1 now cfg r x = (lns, (x', (err, closed)))
  ∧ handleReload_logged s2 now cfg r y = (lns, (y', (err, closed))) ∧ server_alike x' y'.
Proof.
  intros H. pose proof H as [Hcfg Hrg Hc Hd]. unfold handleReload_logged. destruct (rr_Err r); [by eexists _, x, y, _, _|].
  rewrite <- Hrg. destruct (refreshPeers now cfg (sv_registry x)) as [rg closed].
  destruct (applyDiff_logged_alike (rr_Diff r) _ _ _ _ Hd Hc) as (lns & err & d1 & d2 & c1 & c2 & -> & -> & Hd' & Hc').
  eexists _, _, _, err, closed. split; [reflexivity|]. split; [reflexivity|]. constructor; cbn; [done..| |done].
  rewrite Hcfg. by apply pruneSecretCache_alike.
Qed.

Lemma perform_all_alike ev w acts x y : server_alike x y → ∃ lns ns x' y',
  perform_all s1 ev w acts x = (lns, ns, x') ∧ perform_all s2 ev w acts y = (lns, ns, y') ∧ server_alike x' y'.
Proof.
  revert x y. induction acts as [|a acts IH]; intros x y H; [by eexists [], [], x, y|]. cbn [perform_all].
  assert (∃ l1 n1 x1 y1, perform s1 ev w a x = (l1, n1, x1) ∧ perform s2 ev w a y = (l1, n1, y1) ∧ server_alike x1 y1)
    as (l1 & n1 & x1 & y1 & -> & -> & H1).
  { destruct a as [| |e|r]; cbn [perform]; try (eexists _, _, x, y; by split_and!).
    destruct (handleReload_logged_alike (se_now ev) (watcher_Config w) r x y H) as (l & x' & y' & err & cl & -> & -> & H').
    by eexists _, _, x', y'. }
  destruct (IH x1 y1 H1) as (l2 & n2 & x2 & y2 & -> & -> & H2). by eexists _, _, x2, y2.
Qed.

Context (yaml : gostring → yaml_stream peersYAML) (fs : filesystem).

(** Two runs: the same watcher, and servers that are alike. *)
Record service_alike (x y : service) : Prop := {
  sva_watcher : sc_watcher x = sc_watcher y;
  sva_server : server_alike (sc_server x) (sc_server y);
  sva_returned : sc_returned x = sc_returned y
}.
Definition run_alike (r1 r2 : option (service * list line * list note)) : Prop :=
  opt_alike (λ a b, snd (fst a) = snd (fst b) ∧ snd a = snd b ∧ service_alike (fst (fst a)) (fst (fst b))) r1 r2.

Lemma service_step_alike x y ev : service_alike x y →
  run_alike (service_step s1 yaml fs x ev) (service_step s2 yaml fs y ev).
Proof.
  intros [Hw Hs Hr]. unfold service_step. rewrite <- Hr, <- Hw. destruct (sc_returned x); [done|].
  destruct (Run_step yaml fs (sc_watcher x) (se_event ev)) as [[n acts]|]; [|done]. cbn.
  destruct (perform_all_alike ev (next_state n) acts _ _ Hs) as (l & ns & x' & y' & -> & -> & H). by split_and!.
Qed.

Lemma service_run_alike x y evs : service_alike x y →
  run_alike (service_run s1 yaml fs x evs) (service_run s2 yaml fs y evs).
Proof.
  revert x y. induction evs as [|ev evs IH]; intros x y H; [by split_and!|]. cbn [service_run].
  pose proof (service_step_alike x y ev H) as H1.
  destruct (service_step s1 yaml fs x ev) as [[[x1 l1] n1]|], (service_step s2 yaml fs y ev) as [[[y1 l1'] n1']|];
    cbn in H1 |- *; try done. destruct H1 as (-> & -> & H1). specialize (IH _ _ H1).
  destruct (service_run s1 yaml fs x1 evs) as [[[x2 l2] n2]|], (service_run s2 yaml fs y1 evs) as [[[y2 l2'] n2']|];
    cbn in IH |- *; try done. by destruct IH as (-> & -> & ?).
Qed.

Lemma apply_initial_alike ps x y : devs_alike x y → step_alike (apply_initial s1 ps x) (apply_initial s2 ps y).
Proof.
  revert x y. induction ps as [|p ps IH]; intros x y H; [by split|]. cbn [apply_initial].
  destruct (applyPeer_alike p false x y H) as [E H1].
  destruct (applyPeer s1 p false x) as [[e1|] x1], (applyPeer s2 p false y) as [[e2|] y1]; cbn in E, H1; try done; auto.
Qed.

(** ** Lemmas: startup *)

Record tunnel_alike (x y : tunnelDevice) : Prop := {
  ta_tun : td_tun x = td_tun y;
  ta_dev : opt_alike related (td_dev x) (td_dev y);
  ta_closed : td_closed x = td_closed y
}.

Lemma Close_alike x y : tunnel_alike x y → tunnel_alike (fst (Device.Close x)) (fst (Device.Close y)) ∧ snd (Device.Close x) = snd (Device.Close y).
Proof.
  destruct x as [tx dx bx], y as [ty dy by_]. intros [H1 H2 H3]. cbn in H1, H2, H3. subst. unfold Device.Close. cbn.
  destruct by_; [by repeat constructor|]. destruct dx, dy; try done; (split; [by constructor|done]).
Qed.

Lemma newTunnelDevice_alike tun o1 o2 :
  do_TunnelIP o1 = do_TunnelIP o2 → do_MTU o1 = do_MTU o2 → do_ListenPort o1 = do_ListenPort o2 →
  secret_alike (do_PrivateKey o1) (do_PrivateKey o2) →
  res_alike tunnel_alike (fst (newTunnelDevice tun o1)) (fst (newTunnelDevice tun o2))
  ∧ snd (newTunnelDevice tun o1) = snd (newTunnelDevice tun o2).
Proof.
  intros Hip Hmtu Hport Hkey. unfold newTunnelDevice. rewrite Hip, Hmtu, Hport.
  destruct (negb (IsValid _)); [done|]. destruct (negb (Contains4 _ _)); [done|]. destruct (_ || _); [done|].
  cbn zeta. destruct (_ || _); [done|]. pose proof (keyToHex_alike _ _ Hkey) as Hk.
  destruct (keyToHex (bytes (do_PrivateKey o1))) as [k1|e1], (keyToHex (bytes (do_PrivateKey o2))) as [k2|e2];
    cbn in Hk; try done; [|by subst]. destruct Hk as [K1 K2]. destruct tun; [done|].
  set (rest := if negb _ then _ else _).
  assert (plain k1 ∧ plain k2) as [P1 P2] by (destruct K1 as (? & _ & ->), K2 as (? & _ & ->); split; apply plain_hex).
  assert (same_text (cfg_line (#"private_key") k1 ++ rest) (cfg_line (#"private_key") k2 ++ rest)) as Ht.
  { unfold same_text. rewrite !uapi_pairs_line by first [done|plain_lit]. constructor; [|apply same_text_refl].
    right. split_and!; [done| |done|done]. apply (bool_decide_eq_true_1 _). reflexivity. }
  destruct (bl_IpcSet _ Hblind _ _ _ _ Ht (bl_new _ Hblind)) as [E Hd].
  destruct (IpcSet _ wg_new) as [[e1|] w1] eqn:I1, (IpcSet (_ k2 ++ _) wg_new) as [[e2|] w2] eqn:I2; cbn in E, Hd; try done.
  - by injection E as ->.
  - rewrite (bl_Up _ Hblind _ _ Hd). by destruct (wg_Up w2).
Qed.

Lemma unwind_alike ds watchErr x y err : opt_alike tunnel_alike x y →
  fst (fst (Run.unwind ds watchErr x err)) = fst (fst (Run.unwind ds watchErr y err))
  ∧ snd (fst (Run.unwind ds watchErr x err)) = snd (fst (Run.unwind ds watchErr y err)).
Proof.
  revert x y err. induction ds as [|dd ds IH]; intros x y err H; [done|]. cbn [Run.unwind].
  assert (∀ (g : option error * list Run.effect) x' y', opt_alike tunnel_alike x' y' →
    let u z := let '(e2, es, z') := Run.unwind ds watchErr z (fst g) in (e2, snd g ++ es, z') in
    fst (fst (u x')) = fst (fst (u y')) ∧ snd (fst (u x')) = snd (fst (u y'))) as Hu.
  { intros [e es] x' y' H'. cbn. destruct (IH x' y' e H') as [E1 E2].
    destruct (Run.unwind ds watchErr x' e) as [[? ?] ?], (Run.unwind ds watchErr y' e) as [[? ?] ?]. cbn in *. by subst. }
  destruct dd; try (by apply (Hu (_, _) x y)).
  destruct x as [x|], y as [y|]; cbn in H; try done.
  destruct (Close_alike x y H) as [Hc Hr]. destruct (Device.Close x) as [x' r1], (Device.Close y) as [y' r2]. cbn in Hr. subst.
  exact (Hu (err, Run.Resource <$> r2) (Some x') (Some y') Hc).
Qed.

(** The same outside, but for the store. *)
Definition with_store (st : secretStore) (rw : Run.world) : Run.world := {|
  Run.rw_store := st; Run.rw_yaml := Run.rw_yaml rw; Run.rw_fs := Run.rw_fs rw; Run.rw_t1 := Run.rw_t1 rw;
  Run.rw_t2 := Run.rw_t2 rw; Run.rw_abs := Run.rw_abs rw; Run.rw_watch := Run.rw_watch rw; Run.rw_tun := Run.rw_tun rw;
  Run.rw_now := Run.rw_now rw; Run.rw_listen := Run.rw_listen rw; Run.rw_accept := Run.rw_accept rw;
  Run.rw_watcher := Run.rw_watcher rw |}.

(** How far two returns can be told apart. *)
Definition seen_alike (o1 o2 : Run.outcome) : Prop :=
  Run.ro_err o1 = Run.ro_err o2 ∧ Run.ro_trace o1 = Run.ro_trace o2 ∧ Run.ro_registry o1 = Run.ro_registry o2.

Lemma leave_alike watchErr ds err es x y k1 k2 rg : opt_alike tunnel_alike x y →
  seen_alike (Run.leave watchErr ds err es x k1 rg) (Run.leave watchErr ds err es y k2 rg).
Proof.
  intros H. unfold seen_alike, Run.leave. destruct (unwind_alike ds watchErr x y err H) as [E1 E2].
  destruct (Run.unwind ds watchErr x err) as [[? ?] ?], (Run.unwind ds watchErr y err) as [[? ?] ?]. cbn in *. by subst.
Qed.

Lemma Run_alike started rw cfg c1 c2 : cache_alike c1 c2 →
  seen_alike (Run.Run started (with_store s1 rw) cfg c1) (Run.Run started (with_store s2 rw) cfg c2).
Proof.
  intros Hc. unfold Run.Run. destruct started; [by apply leave_alike|]. cbn [Run.rw_store with_store].
  destruct (resolveSecret_alike s1 s2 (sc_PrivateKey cfg) c1 c2 Hstore Hc) as [Hk Hc1].
  destruct (resolveSecret s1 _ c1) as [[k1|e1] c1'], (resolveSecret s2 _ c2) as [[k2|e2] c2']; cbn in Hk, Hc1; try done.
  2:{ subst. by apply leave_alike. }
  cbn [Run.rw_yaml Run.rw_fs Run.rw_t1 Run.rw_t2 Run.rw_watch Run.rw_abs Run.rw_tun Run.rw_now Run.rw_listen
       Run.rw_accept Run.rw_watcher with_store].
  destruct (newPeerWatcher _ _ _ _ _ _) as [watcher|e]; [|by apply leave_alike].
  set (o1 := {| do_TunnelIP := _; do_PrivateKey := k1 |}). set (o2 := {| do_TunnelIP := _; do_PrivateKey := k2 |}).
  destruct (newTunnelDevice_alike (Run.rw_tun rw) o1 o2) as [Ht Hrs]; [done..|].
  destruct (newTunnelDevice _ o1) as [[t1|e1] rs1], (newTunnelDevice _ o2) as [[t2|e2] rs2]; cbn in Ht, Hrs; try done; subst.
  2:{ by apply leave_alike. }
  destruct Ht as [T1 T2 T3]. destruct (td_dev t1) as [d1|], (td_dev t2) as [d2|]; cbn in T2; try done.
  destruct (apply_initial_alike (pc_peers (watcher_Config watcher)) (d1, c1') (d2, c2') (conj T2 Hc1)) as [E [Hd Hc2]].
  destruct (apply_initial s1 _ _) as [e1 [d1' c1'']], (apply_initial s2 _ _) as [e2 [d2' c2'']]. cbn in E, Hd, Hc2. subst.
  assert (opt_alike tunnel_alike (Some {| td_tun := td_tun t1; td_dev := Some d1'; td_closed := td_closed t1 |})
    (Some {| td_tun := td_tun t2; td_dev := Some d2'; td_closed := td_closed t2 |})) as Hdev by by constructor.
  destruct e2 as [e|]; [by apply leave_alike|]. destruct (Run.rw_listen rw); [by apply leave_alike|].
  destruct (Run.rw_accept rw). by apply leave_alike.
Qed.

(** ** Properties *)

(** C5: key material does not show.  Take two servers whose stores differ in
    nothing but the bytes of keys (values of the same decoded length, empty or
    blank together), on devices wireguard-go keeps alike.  Then [Run] returns
    the same error after the same calls, and over any life of reloads, from a
    startup that succeeds with one store and so with both, the log lines and
    what each reload reports are the same, line for line: no error text, no
    line and no decision depends on a private or preshared key. *)
Theorem keys_do_not_show started rw cfg now w d1 d2 d1' c1 evs :
  related d1 d2 →
  seen_alike (Run.Run started (with_store s1 rw) cfg ∅) (Run.Run started (with_store s2 rw) cfg ∅)
  ∧ (apply_initial s1 (pc_peers (w_cur w)) (d1, ∅) = (None, (d1', c1)) →
     ∃ d2' c2, apply_initial s2 (pc_peers (w_cur w)) (d2, ∅) = (None, (d2', c2))
     ∧ match service_run s1 yaml fs (service_start now cfg w d1' c1) evs,
             service_run s2 yaml fs (service_start now cfg w d2' c2) evs with
       | Some (sv1, lns1, ns1), Some (sv2, lns2, ns2) =>
           lns1 = lns2 ∧ ns1 = ns2 ∧ sc_returned sv1 = sc_returned sv2
           ∧ sv_registry (sc_server sv1) = sv_registry (sc_server sv2)
       | None, None => True
       | _, _ => False
       end).
Proof.
  intros Hd. assert (cache_alike ∅ ∅) as He by (intros ref; by rewrite !lookup_empty).
  split; [by apply Run_alike|]. intros Ha.
  destruct (apply_initial_alike (pc_peers (w_cur w)) (d1, ∅) (d2, ∅) (conj Hd He)) as [E [Hd' Hc']].
  rewrite Ha in E, Hd', Hc'. destruct (apply_initial s2 _ _) as [e2 [d2' c2]]. cbn in E, Hd', Hc'. subst e2.
  exists d2', c2. split; [done|].
  assert (service_alike (service_start now cfg w d1' c1) (service_start now cfg w d2' c2)) as Hs by by repeat constructor.
  pose proof (service_run_alike _ _ evs Hs) as Hr.
  destruct (service_run s1 _ _ _ _) as [[[sv1 l1] n1]|], (service_run s2 _ _ _ _) as [[[sv2 l2] n2]|]; cbn in Hr; try done.
  destruct Hr as (-> & -> & [_ [_ ? _ _] ?]). by split_and!.
Qed.

End devices.

(** ** Two servers with different preshared keys *)

#[local] Existing Instance canonical_range.
#[local] Existing Instance demo_wireguard.

Definition demo_rotated : secretStore := {|
  ss_os := {| os_Open := λ _, Err (errors_New (#"no such file"));
              os_LookupEnv := λ n, if bool_decide (n = #"APP_PSK") then Some other_key else None |};
  ss_external := None |}.
Definition demo_world : Run.world := {|
  Run.rw_store := demo_store; Run.rw_yaml := swap_yaml; Run.rw_fs := demo_fs; Run.rw_t1 := 0; Run.rw_t2 := 0;
  Run.rw_abs := demo_path; Run.rw_watch := None; Run.rw_tun := None; Run.rw_now := 0; Run.rw_listen := None;
  Run.rw_accept := (EOF_error, true); Run.rw_watcher := None |}.

Lemma demo_keys_alike : alike zero_key other_key.
Proof. constructor; [done|..]; [split; intros H; by vm_compute in H|by vm_compute]. Qed.
Lemma demo_rotated_alike : store_alike demo_store demo_rotated.
Proof.
  split; [split|done]; [done|]. intros name. cbn. destruct (bool_decide _); [apply demo_keys_alike|done].
Qed.
Lemma plain_device_blind : blind (λ _ _ : wg, True).
Proof. by constructor. Qed.

Definition rotated_started := apply_initial demo_rotated (pc_peers (w_cur swap_w)) (demo_d0, ∅).

Lemma keys_do_not_show_witness :
  ∃ d2' c2 sv2 lns ns, apply_initial demo_rotated (pc_peers (w_cur swap_w)) (demo_d0, ∅) = (None, (d2', c2))
    ∧ service_run demo_rotated swap_yaml demo_fs (service_start 0 ServerConfig_zero swap_w d2' c2) swap_events = Some (sv2, lns, ns)
    ∧ (∃ sv1, swap_run = Some (sv1, lns, ns)) ∧ length lns = 3.
Proof.
  destruct (keys_do_not_show (λ _ _, True) plain_device_blind demo_store demo_rotated demo_rotated_alike swap_yaml demo_fs
    false demo_world ServerConfig_zero 0 swap_w demo_d0 demo_d0 (fst (snd swap_started)) (snd (snd swap_started)) swap_events I)
    as [_ H].
  destruct H as (d2' & c2 & H2 & H); [apply (split_ok swap_started); by vm_compute|].
  change (service_run demo_store swap_yaml demo_fs
    (service_start 0 ServerConfig_zero swap_w (fst (snd swap_started)) (snd (snd swap_started))) swap_events) with swap_run in H.
  assert (match swap_run with Some (_, lns, _) => bool_decide (length lns = 3) | None => false end = true) as Hc by by vm_compute.
  destruct swap_run as [[[sv1 lns] ns]|]; [|discriminate Hc]. apply bool_decide_eq_true in Hc.
  destruct (service_run demo_rotated _ _ _ _) as [[[sv2 lns2] ns2]|] eqn:E; [|destruct H].
  destruct H as (<- & <- & _). exists d2', c2, sv2, lns, ns.
  split; [exact H2|]. split; [exact E|]. split; [exists sv1; reflexivity|exact Hc].
Defined.

End Secrecy.
