(* ===== verification/Pipe.v ===== *)
(** * [pipeConns] ([server.go])

    Two goroutines copy bytes between the peer's connection and the
    backend's, a third closes both when the context is done; the call returns
    when both copies have.  [step] is one action of one of them. *)

From S2P Require Import Prelude GoStrings.

Module Pipe.

(** The two copies, named by where their bytes come from. *)
Inductive side := Peer | Backend.
#[export] Instance side_eq_dec : EqDecision side.
Proof. solve_decision. Defined.
Definition other (d : side) : side := match d with Peer => Backend | Backend => Peer end.

(** Where a copy is: [io.Copy], before its first [Close], which is that of
    the connection it writes to, before its second, and returned. *)
Inductive pc := Copying | CloseDst | CloseSrc | Finished.
#[export] Instance pc_eq_dec : EqDecision pc.
Proof. solve_decision. Defined.

(** One direction: what is still to come from its source, whether the first
    chunk of it is in the copy's buffer, what was written to its
    destination. *)
Record copy := { cp_pc : pc; cp_pending : list gostring; cp_read : bool; cp_written : gostring }.
Definition at_pc (p : pc) (c : copy) : copy :=
  {| cp_pc := p; cp_pending := cp_pending c; cp_read := cp_read c; cp_written := cp_written c |}.

Record system := {
  s_peer : copy; s_backend : copy;           (* by source *)
  s_peerClosed : bool; s_backendClosed : bool;
  s_canceled : bool; s_watching : bool; s_returned : option (Z * Z)
}.
Definition copy_of (d : side) (s : system) : copy := match d with Peer => s_peer s | Backend => s_backend s end.
Definition closed (d : side) (s : system) : bool :=
  match d with Peer => s_peerClosed s | Backend => s_backendClosed s end.
Definition set_copy (d : side) (c : copy) (s : system) : system :=
  {| s_peer := match d with Peer => c | Backend => s_peer s end;
     s_backend := match d with Peer => s_backend s | Backend => c end;
     s_peerClosed := s_peerClosed s; s_backendClosed := s_backendClosed s;
     s_canceled := s_canceled s; s_watching := s_watching s; s_returned := s_returned s |}.
Definition close (d : side) (s : system) : system :=
  {| s_peer := s_peer s; s_backend := s_backend s;
     s_peerClosed := match d with Peer => true | Backend => s_peerClosed s end;
     s_backendClosed := match d with Peer => s_backendClosed s | Backend => true end;
     s_canceled := s_canceled s; s_watching := s_watching s; s_returned := s_returned s |}.
Definition set_canceled (s : system) : system :=
  {| s_peer := s_peer s; s_backend := s_backend s; s_peerClosed := s_peerClosed s;
     s_backendClosed := s_backendClosed s; s_canceled := true; s_watching := s_watching s; s_returned := s_returned s |}.
Definition stop_watching (s : system) : system :=
  {| s_peer := s_peer s; s_backend := s_backend s; s_peerClosed := s_peerClosed s;
     s_backendClosed := s_backendClosed s; s_canceled := s_canceled s; s_watching := false; s_returned := s_returned s |}.
Definition return_counts (s : system) : system :=
  {| s_peer := s_peer s; s_backend := s_backend s; s_peerClosed := s_peerClosed s;
     s_backendClosed := s_backendClosed s; s_canceled := s_canceled s; s_watching := s_watching s;
     s_returned := Some (Z.of_nat (length (cp_written (s_backend s))),      (* toPeer *)
                         Z.of_nat (length (cp_written (s_peer s)))) |}.     (* fromPeer *)

Inductive event :=
  | Cancel                                   (* the context is done *)
  | WatchCloses                              (* the watcher closes both *)
  | Read (d : side)                          (* a chunk arrives in the buffer *)
  | Write (d : side) (n : option nat)        (* it is written, or [n] bytes of it before an error *)
  | CopyEnds (d : side)                      (* [Read] reports the end, or either call an error *)
  | CloseNext (d : side)
  | Return.

Definition step (s : system) (ev : event) : option system :=
  match ev with
  | Cancel => Some (set_canceled s)
  | WatchCloses =>
      if s_canceled s && s_watching s then Some (stop_watching (close Backend (close Peer s))) else None
  | Read d =>
      let c := copy_of d s in
      match cp_pc c, cp_pending c with
      | Copying, _ :: _ =>
          if cp_read c || closed d s then None
          else Some (set_copy d {| cp_pc := Copying; cp_pending := cp_pending c; cp_read := true;
                                   cp_written := cp_written c |} s)
      | _, _ => None
      end
  | Write d n =>
      let c := copy_of d s in
      match cp_pc c, cp_pending c with
      | Copying, chunk :: rest =>
          if negb (cp_read c) || closed (other d) s then None
          else match n with
               | None => Some (set_copy d {| cp_pc := Copying; cp_pending := rest; cp_read := false;
                                             cp_written := cp_written c ++ chunk |} s)
               | Some n => Some (set_copy d {| cp_pc := CloseDst; cp_pending := drop n chunk :: rest; cp_read := true;
                                               cp_written := cp_written c ++ take n chunk |} s)
               end
      | _, _ => None
      end
  | CopyEnds d =>
      match cp_pc (copy_of d s) with
      | Copying => Some (set_copy d (at_pc CloseDst (copy_of d s)) s)
      | _ => None
      end
  | CloseNext d =>
      match cp_pc (copy_of d s) with
      | CloseDst => Some (set_copy d (at_pc CloseSrc (copy_of d s)) (close (other d) s))
      | CloseSrc => Some (set_copy d (at_pc Finished (copy_of d s)) (close d s))
      | _ => None
      end
  | Return =>
      match cp_pc (s_peer s), cp_pc (s_backend s), s_returned s with
      | Finished, Finished, None => Some (stop_watching (return_counts s))
      | _, _, _ => None
      end
  end.

(** [from_peer] and [from_backend] are what the two ends have to say. *)
Definition initial (from_peer from_backend : list gostring) : system := {|
  s_peer := {| cp_pc := Copying; cp_pending := from_peer; cp_read := false; cp_written := [] |};
  s_backend := {| cp_pc := Copying; cp_pending := from_backend; cp_read := false; cp_written := [] |};
  s_peerClosed := false; s_backendClosed := false; s_canceled := false; s_watching := true; s_returned := None |}.

(** ** The invariant *)

Section invariant.
Context (from_peer from_backend : list gostring).

Definition said (d : side) : gostring := concat (match d with Peer => from_peer | Backend => from_backend end).

Record copy_ok (s : system) (d : side) : Prop := {
  co_bytes : cp_written (copy_of d s) ++ concat (cp_pending (copy_of d s)) = said d;
  co_dst : cp_pc (copy_of d s) = CloseSrc ∨ cp_pc (copy_of d s) = Finished → closed (other d) s = true;
  co_src : cp_pc (copy_of d s) = Finished → closed d s = true
}.
Definition returned_ok (s : system) : Prop :=
  match s_returned s with
  | Some (toPeer, fromPeer) =>
      cp_pc (s_peer s) = Finished ∧ cp_pc (s_backend s) = Finished
      ∧ toPeer = Z.of_nat (length (cp_written (s_backend s))) ∧ fromPeer = Z.of_nat (length (cp_written (s_peer s)))
  | None => True
  end.
(** What the watcher or a copy has set going. *)
Definition ending (s : system) : bool :=
  s_canceled s || closed Peer s || closed Backend s
  || negb (bool_decide (cp_pc (s_peer s) = Copying)) || negb (bool_decide (cp_pc (s_backend s) = Copying)).
Definition inv (s : system) : Prop :=
  (∀ d, copy_ok s d) ∧ returned_ok s
  ∧ (s_watching s = false → closed Peer s = true ∧ closed Backend s = true)
  (* one connection is closed without the other only between a copy's two closes *)
  ∧ (closed Peer s = closed Backend s ∨ ∃ d, cp_pc (copy_of d s) = CloseSrc).

(** ** Lemmas *)

Lemma copy_of_set_copy d d' c s : copy_of d (set_copy d' c s) = if decide (d = d') then c else copy_of d s.
Proof. by destruct d, d'. Qed.
Lemma copy_of_close d d' s : copy_of d (close d' s) = copy_of d s.
Proof. by destruct d, d'. Qed.
Lemma closed_close d d' s : closed d (close d' s) = if decide (d = d') then true else closed d s.
Proof. by destruct d, d'. Qed.
Lemma closed_set_copy d d' c s : closed d (set_copy d' c s) = closed d s.
Proof. by destruct d. Qed.
Lemma other_ne d : other d ≠ d.
Proof. by destruct d. Qed.

(** Moving one copy on, closing what it closes. *)
Lemma inv_set_copy d c s s' :
  inv s → s_returned s = None → s' = s ∨ (∃ e, s' = close e s) →
  cp_written c ++ concat (cp_pending c) = cp_written (copy_of d s) ++ concat (cp_pending (copy_of d s)) →
  (cp_pc c = CloseSrc ∨ cp_pc c = Finished → closed (other d) s' = true) →
  (cp_pc c = Finished → closed d s' = true) →
  (closed Peer s' = closed Backend s' ∨ cp_pc c = CloseSrc
   ∨ s' = s ∧ cp_pc (copy_of d s) = Copying) → inv (set_copy d c s').
Proof.
  intros (Hc & Hr & Hw & Hone) Hret Hs Hbytes Hdst Hsrc Hnow.
  assert (∀ e, closed e s = true → closed e s' = true) as Hmono.
  { destruct Hs as [->|[e' ->]]; [done|]. intros e He. rewrite closed_close. by destruct (decide _). }
  assert (∀ e, copy_of e s' = copy_of e s) as Hsame.
  { destruct Hs as [->|[e' ->]]; [done|]. intros e. apply copy_of_close. }
  assert (s_watching s' = s_watching s ∧ s_returned s' = s_returned s) as [Hw' Hret'].
  { by destruct Hs as [->|[[] ->]]. }
  split_and!.
  - intros e. destruct (Hc e) as [B1 B2 B3]. constructor; rewrite copy_of_set_copy, ?closed_set_copy;
      destruct (decide (e = d)) as [->|Hne]; rewrite ?Hsame; auto.
    rewrite Hbytes. apply (Hc d).
  - unfold returned_ok. by destruct d; cbn [set_copy s_returned]; rewrite Hret', Hret.
  - destruct d; cbn [set_copy s_watching s_peerClosed s_backendClosed closed]; rewrite Hw';
      intros H; destruct (Hw H) as [W1 W2]; apply Hmono in W1, W2; done.
  - rewrite !closed_set_copy. destruct Hnow as [?|[Hd|[-> Hd]]]; [by left| |].
    + right. exists d. by rewrite copy_of_set_copy, decide_True.
    + destruct Hone as [?|[e He]]; [by left|right]. exists e. rewrite copy_of_set_copy, decide_False by congruence. done.
Qed.

Lemma not_returned d s : inv s → cp_pc (copy_of d s) ≠ Finished → s_returned s = None.
Proof.
  intros (_ & Hr & _ & _) Hd. unfold returned_ok in Hr. destruct (s_returned s) as [[]|]; [|done].
  by destruct Hr as (R1 & R2 & _); destruct d.
Qed.

Lemma pipe_step s ev s' : inv s → step s ev = Some s' → inv s'.
Proof.
  intros Hinv H. destruct ev as [| |d|d n|d|d|]; cbn [step] in H.
  - injection H as <-. destruct Hinv as (Hc & Hr & Hw & Ho). split_and!; [|done|done|done].
    intros d. by destruct (Hc d), d; constructor.
  - destruct (s_canceled s && s_watching s); [|done]. injection H as <-.
    destruct Hinv as (Hc & Hr & _). split_and!; [|done|done|by left].
    intros d. by destruct (Hc d), d; constructor.
  - destruct (cp_pc (copy_of d s)) eqn:Ep, (cp_pending (copy_of d s)) as [|chunk rest] eqn:Eb; try done.
    destruct (cp_read (copy_of d s) || closed d s); [done|]. injection H as <-.
    eapply inv_set_copy; [done|eapply (not_returned d); [done|congruence]|by left|cbn; by rewrite Eb|cbn; naive_solver|done|auto].
  - destruct (cp_pc (copy_of d s)) eqn:Ep, (cp_pending (copy_of d s)) as [|chunk rest] eqn:Eb; try done.
    destruct (negb (cp_read (copy_of d s)) || closed (other d) s); [done|].
    assert (s_returned s = None) as Hret by (eapply (not_returned d); [done|congruence]).
    destruct n as [n|]; injection H as <-; (eapply inv_set_copy; [done|done|by left| |cbn; naive_solver|done|auto]);
      cbn [cp_written cp_pending concat]; rewrite Eb; cbn [concat]; rewrite <- !app_assoc; [|done].
    by rewrite (app_assoc (take n chunk)), take_drop.
  - destruct (cp_pc (copy_of d s)) eqn:Ep; try done. injection H as <-.
    eapply inv_set_copy; [done|eapply (not_returned d); [done|congruence]|by left|done|cbn; naive_solver|done|auto].
  - destruct (cp_pc (copy_of d s)) eqn:Ep; try done; injection H as <-;
      (eapply inv_set_copy; [done|eapply (not_returned d); [done|congruence]|right; by eexists|done| | |]).
    + intros _. rewrite closed_close. by rewrite decide_True.
    + done.
    + by right; left.
    + intros _. rewrite closed_close. rewrite decide_False by apply other_ne.
      apply Hinv. by left.
    + intros _. rewrite closed_close. by rewrite decide_True.
    + left. assert (closed (other d) s = true) as Hoth by (apply Hinv; by left). by destruct d; cbn in *.
  - destruct (cp_pc (s_peer s)) eqn:E1; try done. destruct (cp_pc (s_backend s)) eqn:E2; try done.
    destruct (s_returned s) eqn:E3; [done|]. injection H as <-. destruct Hinv as (Hc & _ & _ & Ho). split_and!.
    + intros d. by destruct (Hc d), d; constructor.
    + by cbn.
    + intros _. pose proof (co_src _ _ (Hc Peer) E1). pose proof (co_src _ _ (Hc Backend) E2). done.
    + destruct Ho as [?|[d Hd]]; [by left|]. destruct d; cbn in Hd; congruence.
Qed.

Lemma pipe_run evs s : run step (initial from_peer from_backend) evs = Some s → inv s.
Proof.
  intros H. apply (run_reachable step inv (λ _, True)) with (evs := evs) (s := initial from_peer from_backend).
  - intros s1 ev s2 H1 _ H2. by eapply pipe_step.
  - split_and!; [|done|done|by left]. intros d. destruct d; constructor; cbn; naive_solver.
  - by apply Forall_true.
  - exact H.
Qed.

(** The connection whose [Read], or [Write], the copy is parked in. *)
Definition parked_on (d : side) (s : system) : side := if cp_read (copy_of d s) then other d else d.

(** What needs no help from either end: a copy ends by itself only once the
    very connection it is parked on has been closed. *)
Definition forced_step (s : system) (ev : event) : option system :=
  match ev with
  | Cancel | Read _ | Write _ _ => None
  | CopyEnds d => if closed (parked_on d s) s then step s ev else None
  | _ => step s ev
  end.

Definition pc_rank (p : pc) : nat := match p with Copying => 3 | CloseDst => 2 | CloseSrc => 1 | Finished => 0 end.
Definition left (s : system) : nat :=
  pc_rank (cp_pc (s_peer s)) + pc_rank (cp_pc (s_backend s))
  + (if s_watching s then 1 else 0) + match s_returned s with None => 1 | Some _ => 0 end.

(** When neither copy is closing anything and the watcher has no reason to,
    a pipe that is ending has both its connections closed. *)
Lemma both_closed s :
  inv s → ending s = true → s_canceled s && s_watching s = false →
  (∀ d, cp_pc (copy_of d s) = Copying ∨ cp_pc (copy_of d s) = Finished) → ∀ d, closed d s = true.
Proof.
  intros (Hc & _ & Hw & Ho) He Ew Hpc.
  assert (closed Peer s = closed Backend s) as Heq.
  { destruct Ho as [?|[d Hd]]; [done|]. destruct (Hpc d); congruence. }
  assert (closed Peer s = true) as H1; [|by intros []; [done|congruence]].
  assert (∀ d, cp_pc (copy_of d s) = Finished → closed Peer s = true) as Hfin.
  { intros d E. pose proof (co_src _ _ (Hc d) E) as E'. destruct d; congruence. }
  destruct (Hpc Peer) as [E1|E1]; [|by eapply Hfin]. destruct (Hpc Backend) as [E2|E2]; [|by eapply Hfin].
  cbn in E1, E2. unfold ending in He. rewrite E1, E2 in He. cbn [bool_decide negb] in He.
  destruct (closed Peer s); [done|]. rewrite <- Heq in He. cbn in He. rewrite !orb_false_r in He.
  rewrite He in Ew. cbn in Ew. by destruct (Hw Ew).
Qed.

Lemma forced_next s :
  inv s → ending s = true → s_returned s = None →
  ∃ ev s', forced_step s ev = Some s' ∧ inv s' ∧ ending s' = true ∧ left s' < left s.
Proof.
  intros Hinv He Hret.
  assert (∀ ev s', forced_step s ev = Some s' → step s ev = Some s' → ending s' = true → left s' < left s →
    ∃ ev s', forced_step s ev = Some s' ∧ inv s' ∧ ending s' = true ∧ left s' < left s) as Hgo.
  { intros ev s' H1 H2 H3 H4. exists ev, s'. split_and!; [done|by eapply pipe_step|done|done]. }
  destruct (s_canceled s && s_watching s) eqn:Ew.
  { eapply (Hgo WatchCloses); [by cbn; rewrite Ew|by cbn; rewrite Ew|unfold ending; cbn; by rewrite !orb_true_r|].
    bool_props. unfold left. cbn. rewrite H0. lia. }
  assert (∀ d, cp_pc (copy_of d s) = CloseDst ∨ cp_pc (copy_of d s) = CloseSrc →
    ∃ ev s', forced_step s ev = Some s' ∧ inv s' ∧ ending s' = true ∧ left s' < left s) as Hclose.
  { intros d Hd. destruct Hd as [E|E]; (eapply (Hgo (CloseNext d)); [cbn; by rewrite E|cbn; by rewrite E| |]);
      destruct d; unfold ending, left in *; cbn in *; rewrite ?E; cbn; rewrite ?orb_true_r; done || lia. }
  assert (∀ d, cp_pc (copy_of d s) = Copying → closed (parked_on d s) s = true →
    ∃ ev s', forced_step s ev = Some s' ∧ inv s' ∧ ending s' = true ∧ left s' < left s) as Hend.
  { intros d E Hcl. eapply (Hgo (CopyEnds d)); [cbn [forced_step]; rewrite Hcl; cbn; by rewrite E|cbn; by rewrite E| |].
    - destruct d; unfold ending in *; cbn; by rewrite ?orb_true_r.
    - destruct d; unfold left; cbn in *; rewrite ?E; cbn; lia. }
  destruct (cp_pc (s_peer s)) eqn:E1; [|by apply (Hclose Peer); auto..|];
    (destruct (cp_pc (s_backend s)) eqn:E2; [|by apply (Hclose Backend); auto..|]);
    pose proof (both_closed s Hinv He Ew) as Hb;
    specialize (Hb ltac:(intros []; cbn; rewrite ?E1, ?E2; auto)).
  - apply (Hend Peer); [done|apply Hb].
  - apply (Hend Peer); [done|apply Hb].
  - apply (Hend Backend); [done|apply Hb].
  - eapply (Hgo Return); [cbn; by rewrite E1, E2, Hret|cbn; by rewrite E1, E2, Hret| |].
    + unfold ending. cbn. rewrite (Hb Peer : s_peerClosed s = true). by rewrite ?orb_true_r.
    + unfold left. cbn. rewrite Hret. destruct (s_watching s); lia.
Qed.

(** ** Properties *)

(** C36: a proxied connection is a pipe.  At every moment each end has been
    sent a prefix of what the other end said, in order; when the call returns
    both connections are closed, both copies have ended, and the two counts
    are the bytes delivered; and once either direction ends, or the context is
    done, it returns within eight actions without another byte moving, each
    copy being ended by the closing of the very connection it is parked on. *)
Theorem pipe_delivers_prefixes_and_ends evs s :
  run step (initial from_peer from_backend) evs = Some s →
  (∀ d, cp_written (copy_of d s) `prefix_of` said d)
  ∧ (∀ toPeer fromPeer, s_returned s = Some (toPeer, fromPeer) →
     closed Peer s = true ∧ closed Backend s = true
     ∧ cp_pc (s_peer s) = Finished ∧ cp_pc (s_backend s) = Finished
     ∧ toPeer = Z.of_nat (length (cp_written (s_backend s))) ∧ fromPeer = Z.of_nat (length (cp_written (s_peer s))))
  ∧ (ending s = true → ∃ evs' s', run forced_step s evs' = Some s' ∧ is_Some (s_returned s') ∧ length evs' ≤ 8).
Proof.
  intros Hrun. pose proof (pipe_run _ _ Hrun) as Hinv. split_and!.
  - intros d. exists (concat (cp_pending (copy_of d s))). symmetry. apply Hinv.
  - intros a b E. destruct Hinv as (Hc & Hr & _ & _). unfold returned_ok in Hr. rewrite E in Hr.
    destruct Hr as (R1 & R2 & R3 & R4). split_and!; [by apply (Hc Peer)|by apply (Hc Backend)|done..].
  - intros He. destruct (run_to_end forced_step (λ s, inv s ∧ ending s = true) (λ s, is_Some (s_returned s))
      (λ _, True) left) with (s := s) as (evs' & s' & R & _ & Hd & Hl & _); [|done|].
    + intros s1 [H1 H2]. destruct (s_returned s1) as [r|] eqn:E; [by left|right].
      destruct (forced_next s1 H1 H2 E) as (ev & s2 & F1 & F2 & F3 & F4). by exists ev, s2.
    + exists evs', s'. split_and!; [done|done|]. etrans; [exact Hl|]. unfold left.
      destruct (cp_pc (s_peer s)), (cp_pc (s_backend s)), (s_watching s), (s_returned s); cbn; lia.
Qed.

End invariant.

(** ** A query, and a peer that hangs up *)

Definition demo_events : list event := [Read Peer; Read Backend; Write Peer None; Read Peer; Write Backend None; CopyEnds Peer; CloseNext Peer].
Definition demo_state : system :=
  default (initial [] []) (run step (initial [ #"select 1;"; #"never read" ] [ #"1 row" ]) demo_events).

Lemma pipe_delivers_prefixes_and_ends_witness :
  cp_written (s_peer demo_state) = #"select 1;"
  ∧ ∃ evs' s', run forced_step demo_state evs' = Some s' ∧ is_Some (s_returned s') ∧ length evs' ≤ 8.
Proof.
  split; [by vm_compute|].
  destruct (pipe_delivers_prefixes_and_ends [ #"select 1;"; #"never read" ] [ #"1 row" ] demo_events demo_state)
    as (_ & _ & H).
  - apply from_Some. by vm_compute.
  - apply H. by vm_compute.
Defined.

End Pipe.
