(* ===== verification/GoNet.v ===== *)
(** * The parts of Go's [net], [fmt] and [time] the client uses

    [net.SplitHostPort], the [%q] verb ([strconv.Quote]) and
    [time.Duration]'s [Round] and [String].  What is executable in Go is
    executable here; the Unicode table behind [strconv.IsPrint] is a
    parameter. *)

From S2P Require Import Prelude GoStrings GoEncoding.

(** ** [net.SplitHostPort] *)

(** [(&AddrError{Err: why, Addr: addr}).Error()] *)
Definition addr_error {A} (addr why : gostring) : result A :=
  Err (errors_New ((if bool_decide (addr = []) then [] else #"address " ++ addr ++ #": ") ++ why)).

Definition missingPort : gostring := #"missing port in address".
Definition tooManyColons : gostring := #"too many colons in address".

Definition has_byte (s : gostring) (c : byte) : bool :=
  match IndexByte s c with Some _ => true | None => false end.

Definition SplitHostPort (hostport : gostring) : result (gostring * gostring) :=
  match LastIndexByte hostport ":"%byte with
  | None => addr_error hostport missingPort
  | Some i =>
      let finish host j k :=
        if has_byte (drop j hostport) "["%byte then
          addr_error hostport (#"unexpected '[' in address")
        else if has_byte (drop k hostport) "]"%byte then
          addr_error hostport (#"unexpected ']' in address")
        else Ok (host, drop (S i) hostport) in
      if bool_decide (hostport !! 0 = Some "["%byte) then
        match IndexByte hostport "]"%byte with
        | None => addr_error hostport (#"missing ']' in address")
        | Some e =>
            if S e =? length hostport then addr_error hostport missingPort
            else if S e =? i then finish (drop 1 (take e hostport)) 1 (S e)
            else if bool_decide (hostport !! S e = Some ":"%byte) then addr_error hostport tooManyColons
            else addr_error hostport missingPort
        end
      else
        let host := take i hostport in
        if has_byte host ":"%byte then addr_error hostport tooManyColons
        else finish host 0 0
  end.

(** ** [strconv.Quote] *)

(** [strconv.IsPrint], a table of Unicode; below 128 it is the visible ASCII
    characters and the space. *)
Class GoUnicode := {
  IsPrint : Z → bool;
  IsPrint_ascii : ∀ r, (0 <= r < 128)%Z → IsPrint r = (32 <=? r)%Z && (r <? 127)%Z
}.

Definition cont (b : byte) : bool := in_range 128 191 b.
Definition low6 (b : byte) : Z := (bval b mod 64)%Z.

(** [utf8.DecodeRuneInString] on a string that starts with a byte of 128 or
    more: the rune and its width; [None] is [RuneError] with width 1. *)
Definition DecodeRune (s : gostring) : option (Z * nat) :=
  let b i := nth i s Byte.x00 in          (* a missing byte is no continuation *)
  let b0 := b 0 in let b1 := b 1 in let b2 := b 2 in let b3 := b 3 in
  let lo a c := if (bval b0 =? a)%Z then c else 128%Z in
  let hi a c := if (bval b0 =? a)%Z then c else 191%Z in
  if in_range 194 223 b0 then
    if cont b1 then Some (((bval b0 mod 32) * 64 + low6 b1)%Z, 2) else None
  else if in_range 224 239 b0 then
    if in_range (lo 224 160)%Z (hi 237 159)%Z b1 && cont b2
    then Some ((((bval b0 mod 16) * 64 + low6 b1) * 64 + low6 b2)%Z, 3) else None
  else if in_range 240 244 b0 then
    if in_range (lo 240 144)%Z (hi 244 143)%Z b1 && cont b2 && cont b3
    then Some (((((bval b0 mod 8) * 64 + low6 b1) * 64 + low6 b2) * 64 + low6 b3)%Z, 4) else None
  else None.

Definition quote_byte : byte := byte_of_Z 34.
Definition backslash : byte := byte_of_Z 92.

(** The [n] low hex digits of [r], most significant first. *)
Fixpoint hex_digits (n : nat) (r : Z) : gostring :=
  match n with O => [] | S n' => hex_digits n' (r / 16) ++ [hex_digit (r mod 16)] end.

Section quote.
Context {GU : GoUnicode}.

(** [appendEscapedRune]; [enc] is the rune's own encoding. *)
Definition escape_rune (r : Z) (enc : gostring) : gostring :=
  if (r =? 34)%Z || (r =? 92)%Z then [backslash; byte_of_Z r]
  else if IsPrint r then enc
  else if (r =? 7)%Z then backslash :: #"a"
  else if (r =? 8)%Z then backslash :: #"b"
  else if (r =? 12)%Z then backslash :: #"f"
  else if (r =? 10)%Z then backslash :: #"n"
  else if (r =? 13)%Z then backslash :: #"r"
  else if (r =? 9)%Z then backslash :: #"t"
  else if (r =? 11)%Z then backslash :: #"v"
  else if (r <? 32)%Z || (r =? 127)%Z then backslash :: #"x" ++ hex_digits 2 r
  else if (r <? 65536)%Z then backslash :: #"u" ++ hex_digits 4 r
  else backslash :: #"U" ++ hex_digits 8 r.

(** The loop of [appendQuotedWith]; [skip] bytes of a rune are still to be
    passed over. *)
Fixpoint quote_from (skip : nat) (s : gostring) : gostring :=
  match s with
  | [] => []
  | b :: s' =>
      match skip with
      | S k => quote_from k s'
      | O =>
          if (bval b <? 128)%Z then escape_rune (bval b) [b] ++ quote_from 0 s'
          else match DecodeRune s with
               | None => backslash :: #"x" ++ hex_byte b ++ quote_from 0 s'
               | Some (r, w) => escape_rune r (take w s) ++ quote_from (pred w) s'
               end
      end
  end.
(** [%q] *)
Definition Quote (s : gostring) : gostring := quote_byte :: quote_from 0 s ++ [quote_byte].

End quote.

(** ** Lemmas: quoting never leaves a control character *)

Definition visible (b : byte) : Prop := (32 <= bval b)%Z ∧ bval b ≠ 127%Z.

Lemma visible_byte n : (32 <= n < 127)%Z → visible (byte_of_Z n).
Proof. intros H. unfold visible. rewrite byte_of_Z_small by lia. lia. Qed.

Lemma hex_digits_visible n r : Forall visible (hex_digits n r).
Proof.
  revert r. induction n as [|n IH]; intros r; simpl; [done|]. apply Forall_app. split; [done|].
  apply Forall_singleton. unfold hex_digit. pose proof (Z.mod_pos_bound r 16).
  apply visible_byte. destruct (_ <? 10)%Z eqn:E; bool_props; lia.
Qed.

Lemma lit_visible s : forallb (λ b, (32 <=? bval b)%Z && negb (bval b =? 127)%Z) (lit s) = true → Forall visible (lit s).
Proof.
  intros H. apply Forall_forall. intros b Hb. rewrite forallb_forall in H.
  specialize (H b (proj1 (list_elem_of_In _ _) Hb)). bool_props. split; lia.
Qed.

Lemma hex_byte_visible b : Forall visible (hex_byte b).
Proof.
  pose proof (bval_range b). pose proof (Z.mod_pos_bound (bval b) 16).
  assert (0 <= bval b / 16 < 16)%Z by (split; [apply Z.div_pos|apply Z.div_lt_upper_bound]; lia).
  unfold hex_byte, hex_digit. repeat constructor; apply visible_byte; destruct (_ <? 10)%Z eqn:E; bool_props; lia.
Qed.

Lemma in_range_high lo hi b : (128 <= lo)%Z → in_range lo hi b = true → visible b.
Proof. unfold in_range, visible. intros H1 H2. bool_props. lia. Qed.

Lemma nth_visible s i : (∃ lo hi, (128 <= lo)%Z ∧ in_range lo hi (nth i s Byte.x00) = true) →
  Forall visible (take i s) → Forall visible (take (S i) s).
Proof.
  intros (lo & hi & Hlo & H) HF. destruct (s !! i) as [b|] eqn:E.
  - rewrite (take_S_r _ _ _ E). apply Forall_app. split; [done|]. apply Forall_singleton.
    rewrite (nth_lookup_Some _ _ _ _ E) in H. by eapply in_range_high.
  - rewrite take_ge in * by (apply lookup_ge_None in E; lia). done.
Qed.

Lemma DecodeRune_visible s r w : DecodeRune s = Some (r, w) → Forall visible (take w s).
Proof.
  unfold DecodeRune. intros H.
  repeat match type of H with context[if ?c then _ else _] => destruct c eqn:?; try done end;
    injection H as _ <-; bool_props; unfold cont in *;
    repeat (apply nth_visible; [eexists _, _; split; [|eassumption]; repeat case_match; lia|]); constructor.
Qed.

Lemma DecodeRune_pos s r w : DecodeRune s = Some (r, w) → (0 <= r)%Z.
Proof.
  unfold DecodeRune, low6. intros H.
  repeat match type of H with context[if ?c then _ else _] => destruct c; try done end; injection H as <- _;
    pose proof (λ b n, Z.mod_pos_bound (bval b) n) as Hm;
    repeat match goal with |- context[(bval ?b mod ?n)%Z] => 
      pose proof (Hm b n eq_refl); generalize dependent (bval b mod n)%Z; intros end; lia.
Qed.

Section quote_facts.
Context {GU : GoUnicode}.

Lemma escape_rune_visible r enc :
  (0 <= r)%Z → ((r < 128)%Z ∧ enc = [byte_of_Z r] ∨ Forall visible enc) → Forall visible (escape_rune r enc).
Proof.
  intros H0 Henc. assert (visible backslash) as Hb by by vm_compute.
  unfold escape_rune. destruct ((r =? 34)%Z || (r =? 92)%Z) eqn:E.
  { repeat constructor; try apply Hb; apply orb_true_iff in E as [E|E]; bool_props; apply visible_byte; lia. }
  destruct (IsPrint r) eqn:Ep.
  { destruct Henc as [[Hr ->]|?]; [|done]. rewrite IsPrint_ascii in Ep by lia. bool_props.
    apply Forall_singleton, visible_byte. lia. }
  clear E. repeat (match goal with |- Forall _ (if ?c then _ :: lit _ else _) => destruct c end;
    [constructor; [done|by apply lit_visible]|]).
  destruct (_ || _); [|destruct (_ <? _)%Z]; (constructor; [done|]); apply Forall_app;
    (split; [by apply lit_visible|apply hex_digits_visible]).
Qed.

Lemma quote_from_visible s : ∀ skip, Forall visible (quote_from skip s).
Proof.
  induction s as [|b s IH]; intros [|k]; cbn [quote_from]; try (constructor || apply IH).
  pose proof (bval_range b). destruct (bval b <? 128)%Z eqn:E; bool_props.
  - apply Forall_app. split; [|apply IH]. apply escape_rune_visible; [lia|]. left. by rewrite byte_of_Z_bval.
  - destruct (DecodeRune (b :: s)) as [[r w]|] eqn:Ed.
    + apply Forall_app. split; [|apply IH]. apply escape_rune_visible; [by eapply DecodeRune_pos|right].
      by eapply DecodeRune_visible.
    + constructor; [by vm_compute|]. rewrite !Forall_app. split_and!; [by apply lit_visible|apply hex_byte_visible|apply IH].
Qed.

Lemma Quote_visible s : Forall visible (Quote s).
Proof.
  constructor; [by vm_compute|]. apply Forall_app. split; [apply quote_from_visible|].
  apply Forall_singleton. by vm_compute.
Qed.

End quote_facts.

(** ** [time.Duration], in nanoseconds, a signed 64-bit integer *)

Definition Millisecond : Z := 1000000.
Definition Second : Z := 1000000000.

Definition wrap64 (z : Z) : Z := ((z + 2 ^ 63) mod 2 ^ 64 - 2 ^ 63)%Z.

(** [x+x < y] on unsigned values. *)
Definition lessThanHalf (x y : Z) : bool := (x + x <? y)%Z.

Definition Round (d m : Z) : Z :=
  if (m <=? 0)%Z then d
  else
    let r := Z.rem d m in
    if (d <? 0)%Z then
      let r := (- r)%Z in
      if lessThanHalf r m then (d + r)%Z
      else let d1 := wrap64 (d - m + r) in if (d1 <? d)%Z then d1 else (- 2 ^ 63)%Z
    else if lessThanHalf r m then (d - r)%Z
    else let d1 := wrap64 (d + m - r) in if (d <? d1)%Z then d1 else (2 ^ 63 - 1)%Z.

(** [fmtFrac]: the low [prec] decimal digits of [v] as a fraction without
    trailing zeros, and the rest of [v]. *)
Fixpoint fmtFrac_digits (prec : nat) (v : Z) (acc : gostring) (print : bool) : gostring * bool * Z :=
  match prec with
  | O => (acc, print, v)
  | S p =>
      let digit := (v mod 10)%Z in
      let print := print || negb (digit =? 0)%Z in
      fmtFrac_digits p (v / 10) (if print then digit_byte digit :: acc else acc) print
  end.
Definition fmtFrac (prec : nat) (v : Z) : gostring * Z :=
  let '(ds, print, v') := fmtFrac_digits prec v [] false in
  (if print then "."%byte :: ds else [], v').

Definition Duration_String (d : Z) : gostring :=
  let u := Z.abs d in
  let body :=
    if (u <? Second)%Z then
      if (u =? 0)%Z then #"0s"
      else
        let unit prec name := let '(frac, v) := fmtFrac prec u in utoa v ++ frac ++ name ++ #"s" in
        if (u <? 1000)%Z then unit 0 (#"n")
        else if (u <? Millisecond)%Z then unit 3 (map byte_of_Z [194; 181]%Z)
        else unit 6 (#"m")
    else
      let '(frac, v) := fmtFrac 9 u in
      let m := (v / 60)%Z in
      let h := (m / 60)%Z in
      (if (0 <? m)%Z then (if (0 <? h)%Z then utoa h ++ #"h" else []) ++ utoa (m mod 60) ++ #"m" else [])
      ++ utoa (v mod 60) ++ frac ++ #"s" in
  if (d <? 0)%Z then "-"%byte :: body else body.

Example duration_strings :
  Duration_String (10 * Second) = #"10s" ∧ Duration_String (2900 * Millisecond) = #"2.9s"
  ∧ Duration_String 0 = #"0s" ∧ Duration_String (-1500 * Millisecond) = #"-1.5s"
  ∧ Duration_String (3723 * Second) = #"1h2m3s" ∧ Duration_String (250 * Millisecond) = #"250ms"
  ∧ Duration_String 1100 = map byte_of_Z [49; 46; 49; 194; 181; 115]%Z.
Proof. by vm_compute. Qed.

Example split_host_ports :
  SplitHostPort (#"db.internal:443") = Ok (#"db.internal", #"443")
  ∧ SplitHostPort (#"[2001:db8::1%eth0]:51820") = Ok (#"2001:db8::1%eth0", #"51820")
  ∧ SplitHostPort (#":https") = Ok ([], #"https")
  ∧ SplitHostPort (#"2001:db8::1") = addr_error (#"2001:db8::1") tooManyColons
  ∧ SplitHostPort (#"primary-db") = addr_error (#"primary-db") missingPort
  ∧ SplitHostPort (#"[::1]") = addr_error (#"[::1]") missingPort.
Proof. by vm_compute. Qed.

(** ** Lemmas: splitting *)

Lemma SplitHostPort_bytes s h p c : SplitHostPort s = Ok (h, p) → c ∈ h → c ∈ s.
Proof.
  unfold SplitHostPort, addr_error. intros H Hc.
  destruct (LastIndexByte s ":"%byte) as [i|]; [|done].
  repeat case_match; try done; simplify_eq.
  - match goal with H : c ∈ drop 1 (take ?n s) |- _ =>
      apply (elem_of_submseteq _ (take n s)) in H; [|apply submseteq_drop] end.
    eapply elem_of_submseteq; [done|apply submseteq_take].
  - eapply elem_of_submseteq; [done|apply submseteq_take].
Qed.

(** ** Lemmas: rounding *)

(** Up to half the unit short of a multiple of it, the multiple is back. *)
(** Away from the ends of the range, rounding moves a duration by half the
    multiple at most. *)
Lemma Round_near d m : (0 < m ≤ 2 ^ 61)%Z → (Z.abs d ≤ 2 ^ 62)%Z → (2 * Z.abs (Round d m - d) ≤ m)%Z.
Proof.
  intros Hm Hd. unfold Round, lessThanHalf. rewrite (proj2 (Z.leb_gt m 0)) by lia. cbv zeta.
  destruct (Z.ltb_spec d 0) as [Hs|Hs].
  - pose proof (Z.rem_bound_pos_neg d m). destruct (Z.ltb_spec (- Z.rem d m + - Z.rem d m) m); [lia|].
    replace (wrap64 _) with (d - m - Z.rem d m)%Z by (unfold wrap64; rewrite Z.mod_small; lia).
    rewrite (proj2 (Z.ltb_lt _ _)) by lia. lia.
  - pose proof (Z.rem_bound_pos_pos d m). destruct (Z.ltb_spec (Z.rem d m + Z.rem d m) m); [lia|].
    replace (wrap64 _) with (d + m - Z.rem d m)%Z by (unfold wrap64; rewrite Z.mod_small; lia).
    rewrite (proj2 (Z.ltb_lt _ _)) by lia. lia.
Qed.

Lemma Round_short d m e :
  (0 < m)%Z → (0 <= d)%Z → (d mod m = 0)%Z → (0 <= e)%Z → (2 * e <= m)%Z → (e <= d)%Z → (d < 2 ^ 63)%Z →
  Round (d - e) m = d.
Proof.
  intros Hm Hd Hmod He H2 Hed Hmax. unfold Round, lessThanHalf.
  rewrite (proj2 (Z.leb_gt m 0)) by lia. rewrite (proj2 (Z.ltb_ge (d - e) 0)) by lia.
  apply Z.div_exact in Hmod; [|lia]. set (q := (d / m)%Z) in *.
  rewrite Z.rem_mod_nonneg by lia. destruct (decide (e = 0)%Z) as [->|Hne].
  - rewrite Z.sub_0_r. replace (d mod m)%Z with 0%Z by (rewrite Hmod, Z.mul_comm; symmetry; by apply Z.mod_mul; lia).
    rewrite (proj2 (Z.ltb_lt (0 + 0) m)) by lia. lia.
  - replace ((d - e) mod m)%Z with (m - e)%Z.
    2:{ apply Z.mod_unique with (q - 1)%Z; lia. }
    rewrite (proj2 (Z.ltb_ge (m - e + (m - e)) m)) by lia.
    replace (wrap64 (d - e + m - (m - e))) with d by (unfold wrap64; rewrite Z.mod_small; lia).
    rewrite (proj2 (Z.ltb_lt (d - e) d)) by lia. done.
Qed.
