(* ===== verification/Deadlines.v ===== *)
(** * How long a connection can hold up a shutdown ([handleConn], [respond],
      [drainConnections] of [server.go])

    The I/O calls of every action of a handler, in the order the code makes
    them, with the deadlines it sets on the connection and the timeout of its
    dial.  What bounds a call is the deadline set before it; a call under none
    has no bound, and neither has a pipe that nothing closes.  From wherever a
    handler is when the context is cancelled, its calls end within the bound
    the drain waits for. *)

From S2P Require Import Prelude GoStrings GoNetip GoIO Wire Policy Config Limiter Server Conn ConnLog GoNet.
Import Wire Policy Config Limiter Server Conn.

Module Deadlines.

Definition backendDialTimeout : Z := (10 * Second)%Z.

(** ** The calls *)

Inductive call :=
  | SetReadDeadline (d : Z)                 (* from now *)
  | SetWriteDeadline (d : Z)
  | ClearDeadlines                          (* SetDeadline(time.Time{}) *)
  | ReadFrame                               (* every Read of readHelloRequest *)
  | WriteFrame
  | DialContext (timeout : Z)               (* under context.WithTimeout *)
  | PipeConns.

Definition respond_calls (deadline : option error) : list call :=
  SetWriteDeadline helloReadDeadline :: match deadline with Some _ => [] | None => [WriteFrame] end.

(** The calls of one action, up to its result. *)
Definition handler_calls (s : system) (h : handler) (ev : event) : list call :=
  match ev, h_pc h with
  | Acquire _ fused now deadline, Admitting l =>
      match rg_heap (s_registry s) !! l with
      | Some lim => if snd (snd (acquire fused now lim)) then [] else respond_calls deadline
      | None => []
      end
  | ReadHello _ read_deadline r deadline, ReadingHello _ =>
      SetReadDeadline helloReadDeadline ::
      match read_deadline with
      | Some _ => []
      | None =>
          ReadFrame ::
          match fst (readHelloRequest r) with
          | Ok _ => []
          | Err e => if errors_Is e errMalformedFrame then respond_calls deadline else []
          end
      end
  | ResolveService _ deadline, Resolving _ svc =>
      if snd (Policy.Resolve (pc_policy (s_config s)) (h_ip h) svc) then [] else respond_calls deadline
  | DialBackend _ dial deadline, Dialing _ _ _ _ =>
      DialContext backendDialTimeout :: match dial with Some _ => respond_calls deadline | None => [] end
  | RespondOK _ deadline _, Checked _ _ _ _ =>
      respond_calls deadline
      ++ match fst (respond deadline (h_out h) statusOK) with None => [ClearDeadlines] | Some _ => [] end
  | PipeEnds _, Piping _ _ _ _ => [PipeConns]
  | _, _ => []
  end.

(** The time, and the connection's deadlines. *)
Record clock := { ck_now : Z; ck_read : option Z; ck_write : option Z }.

(** The latest a call can end: [closing] tells whether the pipe's connections
    are closed, or about to be by the goroutine that waits for the context. *)
Definition call_ends (closing : bool) (k : clock) (x : call) : option clock :=
  let at_time t := {| ck_now := Z.max (ck_now k) t; ck_read := ck_read k; ck_write := ck_write k |} in
  match x with
  | SetReadDeadline d => Some {| ck_now := ck_now k; ck_read := Some (ck_now k + d)%Z; ck_write := ck_write k |}
  | SetWriteDeadline d => Some {| ck_now := ck_now k; ck_read := ck_read k; ck_write := Some (ck_now k + d)%Z |}
  | ClearDeadlines => Some {| ck_now := ck_now k; ck_read := None; ck_write := None |}
  | ReadFrame => at_time <$> ck_read k
  | WriteFrame => at_time <$> ck_write k
  | DialContext d => Some (at_time (ck_now k + d)%Z)
  | PipeConns => if closing then Some k else None
  end.
Fixpoint calls_end (closing : bool) (k : clock) (xs : list call) : option clock :=
  match xs with
  | [] => Some k
  | x :: xs' => k' ← call_ends closing k x; calls_end closing k' xs'
  end.

Section deadlines.
Context {RO : GoRange}.

Definition closing (s : system) (c : nat) (h : handler) : bool :=
  h_closed h || bool_decide (is_Some (step s (CtxCloses c))).

(** The longest an action can take, counting on no deadline set before it;
    [None] when nothing bounds it. *)
Definition longest (s : system) (c : nat) (h : handler) (ev : event) : option Z :=
  ck_now <$> calls_end (closing s c h) {| ck_now := 0; ck_read := None; ck_write := None |} (handler_calls s h ev).

(** What is left at a program point. *)
Definition budget (p : pc) : Z :=
  match p with
  | Accepted | Admitting _ | ReadingHello _ => helloReadDeadline + backendDialTimeout + helloReadDeadline
  | Resolving _ _ | Dialing _ _ _ _ => backendDialTimeout + helloReadDeadline
  | Dialed _ _ _ _ | Tracked _ _ _ _ | Checked _ _ _ _ => helloReadDeadline
  | Orphaned _ _ | Piping _ _ _ _ | Returning | Done => 0
  end.

(** A schedule in which every action of [c] is given the time it took. *)
Fixpoint timed_run (c : nat) (s : system) (evs : list (event * Z)) : option system :=
  match evs with
  | [] => Some s
  | (ev, t) :: evs' =>
      s' ← step s ev;
      if bool_decide (event_conn ev = Some c) then
        h ← s_handlers s !! c;
        if (0 <=? t)%Z && match longest s c h ev with Some n => (t <=? n)%Z | None => true end
        then timed_run c s' evs' else None
      else if (t =? 0)%Z then timed_run c s' evs' else None
  end.

Definition total (evs : list (event * Z)) : Z := foldr (λ e n, snd e + n)%Z 0%Z evs.

(** Every action is bounded once the context is cancelled. *)
Lemma longest_budget s c h ev s' h' :
  s_canceled s = true → s_handlers s !! c = Some h → event_conn ev = Some c →
  handler_step s c h ev = Some s' → s_handlers s' !! c = Some h' →
  ∃ n, longest s c h ev = Some n ∧ (n + budget (h_pc h') ≤ budget (h_pc h))%Z.
Proof.
  intros Hk Hc Hev H Hc'.
  assert (is_piping h = true → closing s c h = true) as Hcl.
  { intros Hp. unfold closing. cbn [step]. rewrite Hc. cbn. rewrite Hk, Hp. by destruct (h_closed h). }
  unfold longest, handler_calls. unfold is_piping in Hcl.
  destruct ev; cbn in Hev; try done; injection Hev as ->; cbn in H; destruct (h_pc h) eqn:Hpc; try done; cbn;
    repeat first [apply bind_Some in H as (? & E & H); try rewrite E | case_match]; simplify_eq;
    cbn in Hc'; rewrite lookup_insert_eq in Hc'; injection Hc' as <-; cbn; rewrite ?Hpc;
    try (destruct (unwound_pc h Hpc) as [E|E]; rewrite E); rewrite ?Hcl by done; cbn;
    repeat case_match; try done; try (by specialize (Hcl eq_refl)); cbn; (eexists; split; [reflexivity|by vm_compute]).
Qed.

Lemma step_canceled s ev s' : step s ev = Some s' → s_canceled s = true → s_canceled s' = true.
Proof.
  intros H Hk. destruct (event_conn ev) as [c|] eqn:Hev.
  - rewrite (handler_event_step _ _ _ Hev) in H. apply bind_Some in H as (h & _ & H).
    apply handler_step_local in H as (h' & Hl). destruct (ls_frame _ _ _ _ _ Hl) as ([_ E] & _). congruence.
  - destruct ev; try done; cbn [step] in H;
      repeat first [apply bind_Some in H as (? & _ & H) | case_match]; try done; by injection H as <-.
Qed.

Lemma budget_nonneg p : (0 ≤ budget p)%Z.
Proof. destruct p; by vm_compute. Qed.

Lemma step_other_pc s ev s' c h : event_ok ev → event_conn ev ≠ Some c → step s ev = Some s' → s_handlers s !! c = Some h →
  ∃ h', s_handlers s' !! c = Some h' ∧ h_pc h' = h_pc h.
Proof.
  intros Hok Hne H Hc. destruct (ConnLog.step_keeps _ _ _ _ _ H Hok Hc) as (h' & Hc' & _). exists h'. split; [done|].
  destruct (step_handlers_own _ _ _ _ _ Hok H Hc') as [[E _]|(h0 & E & Hh)]; [congruence|].
  assert (h0 = h) as -> by congruence. by destruct Hh as [->|[->|[? _]]].
Qed.

Lemma timed_run_budget c s h evs s' :
  Forall event_ok evs.*1 → s_canceled s = true → s_handlers s !! c = Some h → timed_run c s evs = Some s' →
  ∃ h', s_handlers s' !! c = Some h' ∧ (total evs + budget (h_pc h') ≤ budget (h_pc h))%Z.
Proof.
  revert s h. induction evs as [|[ev t] evs IH]; intros s h Hok Hk Hc Hrun; cbn [timed_run] in Hrun.
  { injection Hrun as <-. exists h. split; [done|]. cbn [total foldr]. lia. }
  apply Forall_cons in Hok as [Hev Hok]. apply bind_Some in Hrun as (s1 & Hs & Hrun).
  pose proof (step_canceled _ _ _ Hs Hk) as Hk1.
  cbn [total foldr snd]. fold (total evs). case_bool_decide as Hown.
  - rewrite Hc in Hrun. cbn [mbind option_bind] in Hrun.
    destruct (ConnLog.step_keeps _ _ _ _ _ Hs Hev Hc) as (h1 & Hc1 & _).
    rewrite (handler_event_step _ _ _ Hown), Hc in Hs. cbn in Hs.
    destruct (longest_budget _ _ _ _ _ _ Hk Hc Hown Hs Hc1) as (n & En & Hn). rewrite En in Hrun.
    destruct ((0 <=? t)%Z && (t <=? n)%Z) eqn:Ht; [|done]. bool_props.
    destruct (IH _ _ Hok Hk1 Hc1 Hrun) as (h' & Hc' & Hb). exists h'. split; [done|]. lia.
  - destruct (t =? 0)%Z eqn:Ht; [|done]. bool_props.
    destruct (step_other_pc _ _ _ _ _ Hev Hown Hs Hc) as (h1 & Hc1 & Hpc).
    destruct (IH _ _ Hok Hk1 Hc1 Hrun) as (h' & Hc' & Hb). exists h'. split; [done|]. rewrite Hpc in Hb. lia.
Qed.

(** ** Properties *)

(** C15: the drain's bound is never the one that runs out.  Once the context is
    cancelled, under any schedule, the calls a connection's handler makes from
    wherever it is take at most its budget there, and that is 20 seconds at
    most (one hello read, one dial, one answer), which is less than the 30 the
    drain waits.  A call is given no more time than the deadline or timeout the
    code has set before it in the same action, any time when it has set none;
    a pipe ends at once only because its connections have been closed, or the
    goroutine that waits for the context can close them. *)
Theorem handlers_finish_within_the_drain_bound c s h evs s' :
  Forall event_ok evs.*1 → s_canceled s = true → s_handlers s !! c = Some h → timed_run c s evs = Some s' →
  (total evs ≤ budget (h_pc h) ≤ 20 * Second)%Z ∧ (20 * Second < ConnLog.shutdownDrainTimeout)%Z
  ∧ ∃ h', s_handlers s' !! c = Some h' ∧ (total evs + budget (h_pc h') ≤ budget (h_pc h))%Z.
Proof.
  intros Hok Hk Hc Hrun. destruct (timed_run_budget _ _ _ _ _ Hok Hk Hc Hrun) as (h' & Hc' & Hb).
  pose proof (budget_nonneg (h_pc h')). split_and!; [lia| |done|by exists h'].
  destruct (h_pc h); by vm_compute.
Qed.

End deadlines.
(** ** A connection that takes all the time there is *)

#[local] Existing Instance canonical_range.

Definition demo_accepted : system := demo_run (take 1 demo_connect ++ [Cancel]).
Definition demo_slow : list (event * Z) :=
  zip (tail demo_connect ++ [RespondOK 1 None None; PipeEnds 1])
    [0; 0; 5 * Second; 0; 10 * Second; 0; 0; 5 * Second; 0]%Z.

Lemma handlers_finish_within_the_drain_bound_witness :
  total demo_slow = (20 * Second)%Z ∧ (total demo_slow < ConnLog.shutdownDrainTimeout)%Z.
Proof.
  split; [by vm_compute|].
  destruct (handlers_finish_within_the_drain_bound 1 demo_accepted (demo_handler demo_accepted) demo_slow
    (default demo_accepted (timed_run 1 demo_accepted demo_slow))) as ([H1 H2] & H3 & _).
  - repeat (apply Forall_cons; split; [exact I|]). apply Forall_nil. exact I.
  - by vm_compute.
  - apply from_Some. by vm_compute.
  - apply from_Some. by vm_compute.
  - exact (Z.le_lt_trans _ _ _ (Z.le_trans _ _ _ H1 H2) H3).
Defined.

(** A pipe that nothing closes has no bound. *)
Example an_open_pipe_is_unbounded :
  longest demo_piping 1 (demo_handler demo_piping) (PipeEnds 1) = None.
Proof. by vm_compute. Qed.

End Deadlines.
