(* ===== verification/Client.v ===== *)
(** * The client: construction and the hello exchange ([client.go])

    What a client is made from and what it pins, the mapping of wire statuses
    to errors, and the exchange on one in-tunnel connection.  Opening that
    connection, with its retries and re-resolutions, is in [Dial]. *)

From S2P Require Import Prelude GoStrings GoEncoding GoNetip GoIO GoNet Wire Secret Config Device.
Import Wire Secret Config Device.

Module Client.

Definition DefaultDialTimeout : Z := 10 * Second.
Definition tunnelServicePort : Z := 443.

(** ** Errors *)

Definition ErrHandshakeTimeout_error : error :=
  sentinel_error ErrHandshakeTimeout (#"gocloak: handshake timeout").
Definition ErrDenied_error : error :=
  sentinel_error ErrDenied (#"gocloak: the server denied this service for this peer").
Definition ErrBackendUnavailable_error : error :=
  sentinel_error ErrBackendUnavailable (#"gocloak: the server could not reach the backend for this service").
Definition ErrRateLimited_error : error :=
  sentinel_error ErrRateLimited (#"gocloak: the server rate limited this peer").
Definition ErrMalformedRequest_error : error :=
  sentinel_error ErrMalformedRequest (#"gocloak: the server rejected the hello frame as malformed").
Definition ErrClientClosed_error : error :=
  sentinel_error ErrClientClosed (#"gocloak: client is closed").
Definition ErrInvalidServiceName_error : error :=
  sentinel_error ErrInvalidServiceName (#"gocloak: invalid service name, want ^[a-z0-9][a-z0-9-]{0,62}$").

(** [fmt.Errorf("%w" + post, err)] *)
Definition wrap_before (e : error) (post : gostring) : error := mkError (e_msg e ++ post) (e_chain e).

Definition statusError (st : byte) (service : gostring) : option error :=
  let named e := Some (wrap_before e (#": " ++ service)) in
  if bool_decide (st = statusOK) then None
  else if bool_decide (st = statusDenied) then named ErrDenied_error
  else if bool_decide (st = statusBackendUnavailable) then named ErrBackendUnavailable_error
  else if bool_decide (st = statusRateLimited) then named ErrRateLimited_error
  else if bool_decide (st = statusMalformed) then named ErrMalformedRequest_error
  else Some (errors_New (#"gocloak: client: " ++ service ++ #": unexpected status " ++ status_String st)).

Definition serviceFromAddr (addr : gostring) : gostring :=
  match SplitHostPort addr with Ok (host, _) => host | Err _ => addr end.

(** ** Configuration and state *)

Record ClientConfig := {
  cc_Endpoint : gostring; cc_ServerPubKey : gostring; cc_PrivateKey : SecretRef;
  cc_PresharedKey : SecretRef; cc_TunnelIP : Addr; cc_MTU : Z; cc_DialTimeout : Z
}.

Record clientEndpoint := {
  ce_configured : gostring; ce_host : gostring; ce_port : Z; ce_literal : bool;
  ce_addr : AddrPort; ce_generation : Z
}.
(** [applied]; the generation is a [uint64]. *)
Definition applied (addr : AddrPort) (e : clientEndpoint) : clientEndpoint :=
  {| ce_configured := ce_configured e; ce_host := ce_host e; ce_port := ce_port e;
     ce_literal := ce_literal e; ce_addr := addr; ce_generation := (ce_generation e + 1) mod 2 ^ 64 |}.
Definition current (e : clientEndpoint) : AddrPort * Z := (ce_addr e, ce_generation e).
Definition describe (e : clientEndpoint) : gostring :=
  if ce_literal e then ce_configured e
  else ce_configured e ++ #" (resolved to " ++ AddrPort_String (fst (current e)) ++ #")".

(** [LookupNetIP] gives addresses or fails. *)
Abbreviation lookup_ip := (gostring → result (list Addr)).

Section client.
Context {WG : WireGuard} {GU : GoUnicode}.

Record client := {
  cl_endpoint : clientEndpoint; cl_serverPubKey : gostring; cl_serverAddr : AddrPort;
  cl_dialTimeout : Z; cl_dev : tunnelDevice; cl_closed : bool
}.

(** ** Parsing *)

Definition splitEndpoint (endpoint : gostring) : result (gostring * Z) :=
  let bad post := Err (errors_New (#"gocloak: client: endpoint " ++ Quote endpoint ++ post)) in
  if bool_decide (endpoint = []) then Err (errors_New (#"gocloak: client: endpoint is required"))
  else
  let? '(h, p) := rwrap (#"gocloak: client: endpoint " ++ Quote endpoint ++ #" must be host:port: ")
                    (SplitHostPort endpoint) in
  if bool_decide (h = []) then bad (#" has no host")
  else match ParseUint p 16 with
       | None => bad (#" must end in a port number in 1-65535")
       | Some n => if (n =? 0)%Z then bad (#" must end in a port number in 1-65535") else Ok (h, n)
       end.

Definition resolveEndpoint (LookupNetIP : lookup_ip) (host : gostring) (port : Z)
    : result (AddrPort * bool) :=
  match ParseAddr host with
  | Some ip => Ok (AddrPortFrom (Unmap ip) port, true)
  | None =>
      let? ips := rwrap (#"gocloak: client: resolve endpoint " ++ Quote host ++ #": ") (LookupNetIP host) in
      match ips with
      | [] => Err (errors_New (#"gocloak: client: endpoint " ++ Quote host ++ #" resolved to no addresses"))
      | ip :: _ => Ok (AddrPortFrom (Unmap ip) port, false)
      end
  end.

Definition clientTunnelIP (addr : Addr) : result Addr :=
  let bad ip post := Err (errors_New (#"gocloak: client: tunnel ip " ++ Addr_String ip ++ post)) in
  if negb (IsValid addr) then Err (errors_New (#"gocloak: client: tunnel ip is required"))
  else
  let ip := Unmap addr in
  if negb (Contains4 tunnelSubnet ip) then
    bad ip (#" is outside the tunnel subnet " ++ Prefix_String tunnelSubnet)
  else if bool_decide (ip = serverTunnelIP) then bad ip (#" is the server address (spec section 3.2)")
  else if bool_decide (ip = pfx_ip (Masked tunnelSubnet)) || bool_decide (ip = subnetBroadcast tunnelSubnet) then
    bad ip (#" is not a host address in " ++ Prefix_String tunnelSubnet)
  else Ok ip.

(** ** Construction *)

(** What [newClient] has in hand before it opens anything. *)
Record clientInputs := {
  ci_host : gostring; ci_port : Z; ci_tunnelIP : Addr; ci_dialTimeout : Z;
  ci_endpoint : AddrPort; ci_literal : bool; ci_privateKey : secret; ci_psk : secret
}.

(** The checks [newClient] makes before it asks anyone: the host, the port,
    the tunnel address and the timeout in force. *)
Definition newClient_valid (cfg : ClientConfig) : result (gostring * Z * Addr * Z) :=
  let? '(host, port) := splitEndpoint (cc_Endpoint cfg) in
  let? _ := check (#"gocloak: client: server public key ") (validPublicKey (cc_ServerPubKey cfg)) in
  let? _ := check (#"gocloak: client: private key ") (validSecretRef (cc_PrivateKey cfg)) in
  let? _ := check (#"gocloak: client: preshared key ") (validSecretRef (cc_PresharedKey cfg)) in
  let? tunnelIP := clientTunnelIP (cc_TunnelIP cfg) in
  if negb (cc_MTU cfg =? 0)%Z && ((cc_MTU cfg <? minMTU)%Z || (maxMTU <? cc_MTU cfg)%Z) then
    Err (errors_New (#"gocloak: client: mtu " ++ itoa (cc_MTU cfg) ++ #" is not in "
                     ++ itoa minMTU ++ #"-" ++ itoa maxMTU))
  else if (cc_DialTimeout cfg <? 0)%Z then
    Err (errors_New (#"gocloak: client: dial timeout " ++ Duration_String (cc_DialTimeout cfg) ++ #" is negative"))
  else Ok (host, port, tunnelIP,
           if (cc_DialTimeout cfg =? 0)%Z then DefaultDialTimeout else cc_DialTimeout cfg).

(** One of the two key lookups. *)
Definition clientSecret (what : gostring) (os : osEnv) (external : SecretResolver) (ref : SecretRef) : result secret :=
  match Secret.Resolve os external ref with
  | Ok s => Ok s
  | Err e => Err (wrapf (#"gocloak: client: " ++ what ++ #": ") (scrubRef e ref))
  end.

Definition newClient_inputs (os : osEnv) (external : SecretResolver) (names : lookup_ip)
    (cfg : ClientConfig) : result clientInputs :=
  let? '(host, port, tunnelIP, dialTimeout) := newClient_valid cfg in
  let? '(endpoint, literal) := resolveEndpoint names host port in
  let? privateKey := clientSecret (#"private key") os external (cc_PrivateKey cfg) in
  let? psk := clientSecret (#"preshared key") os external (cc_PresharedKey cfg) in
  Ok {| ci_host := host; ci_port := port; ci_tunnelIP := tunnelIP; ci_dialTimeout := dialTimeout;
        ci_endpoint := endpoint; ci_literal := literal; ci_privateKey := privateKey; ci_psk := psk |}.

(** What [newClient] does with what it has in hand. *)
Definition newClient_device (createNetTUN : option error) (cfg : ClientConfig) (ci : clientInputs)
    : result client * list resource :=
  match newTunnelDevice createNetTUN
          {| do_TunnelIP := ci_tunnelIP ci; do_MTU := cc_MTU cfg; do_PrivateKey := ci_privateKey ci;
             do_ListenPort := 0 |} with
  | (Err e, rs) => (Err e, rs)
  | (Ok dev, rs) =>
      match td_dev dev with
      | None => (Err (errors_New []), rs)   (* a nil device; [newTunnelDevice] never returns one *)
      | Some w =>
          let '(aerr, w') := AddPeer {| dp_PublicKey := cc_ServerPubKey cfg; dp_PresharedKey := ci_psk ci;
                                        dp_AllowedIP := serverTunnelIP; dp_Endpoint := ci_endpoint ci |} w in
          let dev' := {| td_tun := td_tun dev; td_dev := Some w'; td_closed := td_closed dev |} in
          match aerr with
          | Some e => (Err e, rs ++ snd (Device.Close dev'))
          | None =>
              (Ok {| cl_endpoint := {| ce_configured := cc_Endpoint cfg; ce_host := ci_host ci;
                                       ce_port := ci_port ci; ce_literal := ci_literal ci;
                                       ce_addr := ci_endpoint ci; ce_generation := 0 |};
                     cl_serverPubKey := cc_ServerPubKey cfg;
                     cl_serverAddr := AddrPortFrom serverTunnelIP tunnelServicePort;
                     cl_dialTimeout := ci_dialTimeout ci; cl_dev := dev'; cl_closed := false |}, rs)
          end
      end
  end.

(** [newClient]; the second component is what was opened and closed. *)
Definition newClient (os : osEnv) (external : SecretResolver) (names : lookup_ip)
    (createNetTUN : option error) (cfg : ClientConfig) : result client * list resource :=
  match newClient_inputs os external names cfg with
  | Err e => (Err e, [])
  | Ok ci => newClient_device createNetTUN cfg ci
  end.

(** [NewClient]: [DefaultResolver] is [net.DefaultResolver]. *)
Definition NewClient (os : osEnv) (external : SecretResolver) (DefaultResolver : lookup_ip)
    (createNetTUN : option error) (cfg : ClientConfig) : result client * list resource :=
  newClient os external DefaultResolver createNetTUN cfg.

(** [Client.Close]. *)
Definition Close (c : client) : client * list resource :=
  let '(dev', rs) := Device.Close (cl_dev c) in
  ({| cl_endpoint := cl_endpoint c; cl_serverPubKey := cl_serverPubKey c;
      cl_serverAddr := cl_serverAddr c; cl_dialTimeout := cl_dialTimeout c;
      cl_dev := dev'; cl_closed := true |}, rs).

(** ** The hello exchange *)

(** What the I/O of one exchange returns: [ctx.Err()] is read again wherever
    an error is built, and [stop] tells whether the watchdog that closes the
    connection had not started yet. *)
Record helloIO := {
  io_setWrite : option error; io_ctxWrite : option error;
  io_setRead : option error; io_reader : reader; io_ctxRead : option error;
  io_stop : bool; io_ctxStop : option error; io_clear : option error
}.

Definition helloError (e : clientEndpoint) (ctxErr : option error) (err : option error) : error :=
  let pre := #"gocloak: client: hello exchange with " ++ describe e ++ #": " in
  match ctxErr, err with
  | Some c, _ => wrapf pre c
  | None, Some x => wrapf pre x
  | None, None => errors_New (pre ++ #"%!w(<nil>)")
  end.

Definition finishHello (e : clientEndpoint) (io : helloIO) : option error :=
  if negb (io_stop io) then Some (helloError e (io_ctxStop io) (io_ctxStop io))
  else wrapf (#"gocloak: client: ") <$> io_clear io.

Definition hello (e : clientEndpoint) (io : helloIO) (w : writer) (service : gostring)
    : option error * writer :=
  match io_setWrite io with
  | Some err => (Some (wrapf (#"gocloak: client: ") err), w)
  | None =>
      match writeHelloRequest w service with
      | (Some err, w') => (Some (helloError e (io_ctxWrite io) (Some err)), w')
      | (None, w') =>
          match io_setRead io with
          | Some err => (Some (wrapf (#"gocloak: client: ") err), w')
          | None =>
              match fst (readHelloResponse (io_reader io)) with
              | Err err => (Some (helloError e (io_ctxRead io) (Some err)), w')
              | Ok st =>
                  match statusError st service with
                  | Some err => (Some err, w')
                  | None => (finishHello e io, w')
                  end
              end
          end
      end
  end.

(** [helloDeadline]: the spec's value from now, or the budget's deadline when
    that is sooner. *)
Definition helloDeadline (now : Z) (ctxDeadline : option Z) : Z :=
  let deadline := (now + helloReadDeadline)%Z in
  match ctxDeadline with
  | Some d => if (d <? deadline)%Z then d else deadline
  | None => deadline
  end.

End client.

(** ** What is pinned *)

(** A device with its own key and one peer: the server, reachable only at the
    server's tunnel address. *)
Definition pinned_view (own pub psk : gostring) (ep : AddrPort) : uapi_view :=
  {| uv_private_key := Some own; uv_listen_port := None;
     uv_peers := {[ pub := {| up_psk := Some psk; up_endpoint := Some (AddrPort_String ep);
                              up_keepalive := Some (#"25") |} ]};
     uv_routes := {[ #"10.99.0.1/32" := pub ]} |}.

(** ** Lemmas *)

Section client_facts.
Context {WG : WireGuard} {GU : GoUnicode}.

Lemma block_view_pinned own pub psk ep :
  ep ≠ AddrPort_zero →
  block_view pub psk ep serverTunnelIP
    (with_peer pub {| uv_private_key := Some own; uv_listen_port := None; uv_peers := ∅; uv_routes := ∅ |})
  = pinned_view own pub psk ep.
Proof.
  intros Hep. unfold with_peer. cbn [uv_peers]. rewrite lookup_empty.
  unfold block_view, with_peers, with_routes, drop_routes. rewrite bool_decide_true by done.
  cbn [uv_private_key uv_listen_port uv_peers uv_routes]. unfold pinned_view. f_equal.
  change (<[pub := new_peer]> (∅ : gmap gostring uapi_peer)) with ({[pub := new_peer]} : gmap gostring uapi_peer).
  by rewrite !alter_singleton_eq.
Qed.

Lemma splitEndpoint_Ok s h n :
  splitEndpoint s = Ok (h, n) ↔
  ∃ p, SplitHostPort s = Ok (h, p) ∧ h ≠ [] ∧ ParseUint p 16 = Some n ∧ n ≠ 0%Z ∧ s ≠ [].
Proof.
  unfold splitEndpoint. case_bool_decide as Es; [subst; split; [done|naive_solver]|].
  destruct (SplitHostPort s) as [[h' p]|e]; cbn [rwrap rbind]; [|split; [done|naive_solver]].
  case_bool_decide as Eh; [subst; split; [done|naive_solver]|].
  destruct (ParseUint p 16) as [m|] eqn:Ep; [|split; [done|naive_solver congruence]].
  destruct (m =? 0)%Z eqn:Em; bool_props; [split; [done|naive_solver congruence]|].
  split; [intros [= <- <-]; eauto 6|]. intros (p' & [= <- <-] & _ & E & _). congruence.
Qed.

Lemma clientTunnelIP_Ok a ip : clientTunnelIP a = Ok ip ↔ ip = Unmap a ∧ peer_host ip.
Proof.
  unfold clientTunnelIP. rewrite peer_host_iff. destruct (IsValid a) eqn:Ev; cbn [negb].
  2:{ split; [done|]. intros [-> [H _]]. destruct a; done. }
  destruct (Contains4 tunnelSubnet (Unmap a)) eqn:Ec; cbn [negb]; [|split; [done|naive_solver congruence]].
  case_bool_decide as E1; [split; [done|naive_solver]|].
  destruct (bool_decide (Unmap a = pfx_ip _)) eqn:E2; bool_props; [split; [done|naive_solver]|].
  destruct (bool_decide (Unmap a = subnetBroadcast _)) eqn:E3; bool_props; [split; [done|naive_solver]|].
  cbn [orb]. split; [intros [= <-]; done|]. by intros [-> _].
Qed.

(** Where an endpoint came from. *)
Definition endpoint_from (names : lookup_ip) (host : gostring) (port : Z) (ep : AddrPort) (literal : bool) : Prop :=
  match ParseAddr host with
  | Some ip => ep = AddrPortFrom (Unmap ip) port ∧ literal = true
  | None => ∃ ip ips, names host = Ok (ip :: ips) ∧ ep = AddrPortFrom (Unmap ip) port ∧ literal = false
  end.

Lemma resolveEndpoint_Ok names host port ep literal :
  resolveEndpoint names host port = Ok (ep, literal) ↔ endpoint_from names host port ep literal.
Proof.
  unfold resolveEndpoint, endpoint_from. destruct (ParseAddr host) as [ip|]; [naive_solver|].
  destruct (names host) as [[|ip ips]|e]; cbn [rwrap rbind]; naive_solver.
Qed.

Record inputs_ok (os : osEnv) (external : SecretResolver) (names : lookup_ip) (cfg : ClientConfig)
    (ci : clientInputs) : Prop := {
  io_split : splitEndpoint (cc_Endpoint cfg) = Ok (ci_host ci, ci_port ci);
  io_key : key_ok (cc_ServerPubKey cfg);
  io_from : endpoint_from names (ci_host ci) (ci_port ci) (ci_endpoint ci) (ci_literal ci);
  io_ip : ci_tunnelIP ci = Unmap (cc_TunnelIP cfg) ∧ peer_host (ci_tunnelIP ci);
  io_mtu : cc_MTU cfg = 0%Z ∨ (1280 <= cc_MTU cfg <= 1500)%Z;
  io_timeout : (0 < ci_dialTimeout ci)%Z;
  io_private : Secret.Resolve os external (cc_PrivateKey cfg) = Ok (ci_privateKey ci);
  io_psk : Secret.Resolve os external (cc_PresharedKey cfg) = Ok (ci_psk ci)
}.

Lemma newClient_inputs_Ok os external names cfg ci :
  newClient_inputs os external names cfg = Ok ci → inputs_ok os external names cfg ci.
Proof.
  unfold newClient_inputs, newClient_valid, clientSecret. intros H. inv_result. bool_props.
  repeat match goal with H : check _ _ = Ok _ |- _ => apply check_Ok in H end.
  match goal with H : clientTunnelIP _ = Ok _ |- _ => apply clientTunnelIP_Ok in H as [-> Hhost] end.
  constructor; cbn [ci_host ci_port ci_tunnelIP ci_dialTimeout ci_endpoint ci_literal ci_privateKey ci_psk];
    try done.
  - by apply validPublicKey_None.
  - by apply resolveEndpoint_Ok.
  - unfold minMTU, maxMTU in *. destruct (cc_MTU cfg =? 0)%Z eqn:Em; bool_props; [by left|right].
    cbn [negb andb] in *. bool_props. lia.
  - unfold DefaultDialTimeout, Second. destruct (cc_DialTimeout cfg =? 0)%Z eqn:Em; bool_props; lia.
Qed.

(** The endpoint of a client is one the device can be told about. *)
Lemma client_endpoint_wf os external names cfg ci :
  nl ∉ cc_Endpoint cfg → (∀ host l a, names host = Ok l → a ∈ l → nl ∉ Zone a) →
  inputs_ok os external names cfg ci →
  endpoint_wf (ci_endpoint ci) ∧ ci_endpoint ci ≠ AddrPort_zero.
Proof.
  intros Hnl Hnames []. apply splitEndpoint_Ok in io_split0 as (p & Hs & _ & Hp & Hn & _).
  apply ParseUint_range in Hp. unfold endpoint_from in io_from0.
  assert (∃ a, ci_endpoint ci = AddrPortFrom (Unmap a) (ci_port ci) ∧ nl ∉ Zone a) as (a & -> & Ha).
  { destruct (ParseAddr (ci_host ci)) as [ip|] eqn:Ea.
    - destruct io_from0 as [-> _]. exists ip. split; [done|]. intros Hz.
      eapply Hnl, SplitHostPort_bytes; [done|]. by eapply ParseAddr_zone.
    - destruct io_from0 as (ip & ips & Hl & -> & _). exists ip. split; [done|].
      eapply Hnames; [done|by left]. }
  split; [split; [simpl; lia|]|].
  - intros Hz. by apply Ha, Unmap_zone.
  - unfold AddrPortFrom, AddrPort_zero. intros [= _ E]. done.
Qed.

(** C17: a client that is constructed, from an endpoint and names without
    newlines and a server key other than the public key of its own private key,
    has exactly one peer, the server whose key was configured, with the
    configured preshared key, the address the endpoint names and no route but
    the server's tunnel address; its own address is a peer address of the
    tunnel subnet; and a construction that fails leaves nothing open.  NewClient
    does not check that the two keys differ: given its own key as the server's,
    it returns a client that has no peer and no route at all. *)
Theorem newClient_pins_the_server os external names tun cfg :
  nl ∉ cc_Endpoint cfg → (∀ host l a, names host = Ok l → a ∈ l → nl ∉ Zone a) →
  match newClient os external names tun cfg with
  | (Err _, rs) => rs = [] ∨ ∃ m, rs = [TunOpened m; DeviceCreated; DeviceClosed]
  | (Ok c, rs) => ∃ m w own pub psk sk pk host port,
      rs = [TunOpened m; DeviceCreated] ∧ td_dev (cl_dev c) = Some w
      ∧ td_closed (cl_dev c) = false ∧ cl_closed c = false ∧ (0 < cl_dialTimeout c)%Z
      ∧ Secret.Resolve os external (cc_PrivateKey cfg) = Ok sk ∧ keyToHex (bytes sk) = Ok own
      ∧ Secret.Resolve os external (cc_PresharedKey cfg) = Ok pk ∧ keyToHex (bytes pk) = Ok psk
      ∧ keyToHex (cc_ServerPubKey cfg) = Ok pub ∧ peer_host (Unmap (cc_TunnelIP cfg))
      ∧ splitEndpoint (cc_Endpoint cfg) = Ok (host, port)
      ∧ endpoint_from names host port (ce_addr (cl_endpoint c)) (ce_literal (cl_endpoint c))
      ∧ (wg_public own ≠ pub → view w = pinned_view own pub psk (ce_addr (cl_endpoint c)))
      ∧ (wg_public own = pub → uv_peers (view w) = ∅ ∧ uv_routes (view w) = ∅)
  end.
Proof.
  intros Hnl Hnames. unfold newClient, newClient_device.
  destruct (newClient_inputs os external names cfg) as [ci|e] eqn:Ei; [|by left].
  apply newClient_inputs_Ok in Ei. destruct (client_endpoint_wf _ _ _ _ _ Hnl Hnames Ei) as [Hwf Hz].
  destruct Ei as [Hsplit Hkey Hfrom [Hip Hhost] _ Htime Hsk Hpk].
  set (opts := {| do_TunnelIP := _ |}). pose proof (newTunnelDevice_spec tun opts) as Hdev.
  destruct (newTunnelDevice tun opts) as [[dev|e] rs]; [|done].
  destruct Hdev as (m & own & w & -> & _ & _ & Hown & Hw & Hcl & Hview). rewrite Hw.
  set (dp := {| dp_PublicKey := _ |}). destruct (AddPeer dp w) as [[e|] w'] eqn:Ea.
  { right. exists m. unfold Device.Close. cbn [td_closed td_dev]. by rewrite Hcl. }
  pose proof (λ k, AddPeer_self dp w w' k Ea Hwf) as Hself.
  apply applyPeer_view in Ea as (pub & psk & Hpub & Hpsk & Hv); [|done].
  exists m, w', own, pub, psk, (ci_privateKey ci), (ci_psk ci), (ci_host ci), (ci_port ci).
  cbn [cl_dev cl_closed cl_dialTimeout cl_endpoint ce_addr ce_literal td_dev td_closed].
  rewrite <- Hip. split_and!; try done; intros Hown'.
  - rewrite Hv; [cbn [andb]; rewrite Hview; by apply block_view_pinned|].
    unfold is_self, own_key. rewrite Hview. simpl. intros [= E]. by apply Hown'.
  - assert (view w' = view w) as -> by (apply (Hself pub Hpub); unfold is_self, own_key; rewrite Hview; simpl; by rewrite Hown').
    by rewrite Hview.
Qed.

(** ** Lemmas: the exchange *)

Lemma writeHelloRequest_None w svc w' :
  writeHelloRequest w svc = (None, w') ↔
  ValidServiceName svc = true ∧ Write (hello_request_frame svc) w = (None, w').
Proof.
  unfold writeHelloRequest. destruct (ValidServiceName svc); cbn [negb]; [|naive_solver].
  destruct (Write _ w) as [[e|] w1]; naive_solver.
Qed.

Lemma finishHello_None e io : finishHello e io = None ↔ io_stop io = true ∧ io_clear io = None.
Proof. unfold finishHello. destruct (io_stop io), (io_clear io); naive_solver. Qed.

Lemma statusError_None st svc : statusError st svc = None ↔ st = statusOK.
Proof. unfold statusError. repeat case_bool_decide; naive_solver. Qed.

(** When the exchange succeeds. *)
Lemma hello_None e io w svc w' :
  hello e io w svc = (None, w') ↔
  ValidServiceName svc = true ∧ io_setWrite io = None
  ∧ Write (hello_request_frame svc) w = (None, w') ∧ io_setRead io = None
  ∧ (∃ rest, r_bytes (io_reader io) = frameVersion :: statusOK :: rest)
  ∧ io_stop io = true ∧ io_clear io = None.
Proof.
  unfold hello. destruct (io_setWrite io); [naive_solver|].
  destruct (writeHelloRequest w svc) as [[err|] w1] eqn:Ew.
  { split; [done|]. intros (Hv & _ & Hw & _). assert ((Some err, w1) = (None, w')) as H; [|done].
    rewrite <- Ew. by apply writeHelloRequest_None. }
  apply writeHelloRequest_None in Ew as [Hv Hw]. rewrite Hw.
  destruct (io_setRead io); [naive_solver|].
  destruct (fst (readHelloResponse (io_reader io))) as [st|err] eqn:Er.
  2:{ split; [done|]. intros (_ & _ & _ & _ & Hrest & _).
      assert (Err err = Ok statusOK) as H; [|done]. rewrite <- Er. by apply readHelloResponse_Ok. }
  apply readHelloResponse_Ok in Er as [_ [rest Hr]]. rewrite Hr.
  destruct (statusError st svc) as [err|] eqn:Es.
  { split; [done|]. intros (_ & _ & _ & _ & [rest' [= -> _]] & _). by rewrite (proj2 (statusError_None _ _)) in Es. }
  apply statusError_None in Es as ->. pose proof (finishHello_None e io) as Hf.
  destruct (finishHello e io); naive_solver.
Qed.

(** A connection is handed to the application exactly when the whole
    request went out, the server answered granted in the protocol's version,
    the watchdog was stopped before it could close the connection, and the
    deadlines were cleared; any failed step is an error. *)
Theorem hello_succeeds_exactly e io w svc w' :
  hello e io w svc = (None, w') ↔
  ValidServiceName svc = true ∧ io_setWrite io = None
  ∧ Write (hello_request_frame svc) w = (None, w') ∧ io_setRead io = None
  ∧ (∃ rest, r_bytes (io_reader io) = frameVersion :: statusOK :: rest)
  ∧ io_stop io = true ∧ io_clear io = None.
Proof. apply hello_None. Qed.

(** The sentinel of a refusal. *)
Definition status_sentinel (st : byte) : option sentinel :=
  if bool_decide (st = statusDenied) then Some ErrDenied
  else if bool_decide (st = statusBackendUnavailable) then Some ErrBackendUnavailable
  else if bool_decide (st = statusRateLimited) then Some ErrRateLimited
  else if bool_decide (st = statusMalformed) then Some ErrMalformedRequest
  else None.

Lemma writeHelloResponse_None w w' st :
  writeHelloResponse w st = (None, w') → validStatus st = true ∧ w_out w' = w_out w ++ [frameVersion; st].
Proof.
  unfold writeHelloResponse, Write. destruct (validStatus st); cbn [negb]; [|done].
  destruct (w_room w) as [[n e]|]; [destruct (_ <=? n)|]; intros [= <-]; done.
Qed.

(** The status the server writes is the error the application sees: each
    of the four refusals arrives as its own sentinel and as no other, and
    granted is the only status that is not an error, whatever chunks the
    frame arrives in and whatever follows it. *)
Theorem refusals_are_told_apart w0 w1 st e io w w' svc rest :
  writeHelloResponse w0 st = (None, w1) → w_out w0 = [] →
  r_bytes (io_reader io) = w_out w1 ++ rest → io_setWrite io = None →
  writeHelloRequest w svc = (None, w') → io_setRead io = None →
  match status_sentinel st with
  | Some s => ∃ err, hello e io w svc = (Some err, w') ∧ ∀ s', errors_Is err s' = bool_decide (s' = s)
  | None => st = statusOK ∧ hello e io w svc = (finishHello e io, w')
  end.
Proof.
  intros [Hv Ho]%writeHelloResponse_None H0 Hr H1 H2 H3. rewrite Ho, H0 in Hr.
  assert (fst (readHelloResponse (io_reader io)) = Ok st) as Er.
  { apply readHelloResponse_Ok. split; [done|]. rewrite Hr. by exists rest. }
  unfold hello. rewrite H1, H2, H3, Er. unfold validStatus in Hv. unfold status_sentinel, statusError.
  assert (∀ er post s, e_chain er = [s] → ∀ s', errors_Is (wrap_before er post) s' = bool_decide (s' = s)) as Hone.
  { intros er post s Hs s'. unfold errors_Is, wrap_before. cbn [e_chain]. rewrite Hs.
    apply bool_decide_ext, list_elem_of_singleton. }
  apply bool_decide_eq_true in Hv. rewrite !elem_of_cons, elem_of_nil in Hv.
  repeat case_bool_decide; subst; try done; try (eexists; split; [reflexivity|by apply Hone]). naive_solver.
Qed.

End client_facts.

(** ** A client of one server *)

#[local] Instance demo_unicode : GoUnicode :=
  {| IsPrint r := (32 <=? r)%Z && (r <? 127)%Z; IsPrint_ascii := λ r _, eq_refl |}.
#[local] Instance demo_client_device : WireGuard := plain_device (λ k, reverse k).

Definition demo_names : lookup_ip := λ host,
  if bool_decide (host = #"tunnel.example.com") then Ok [Addr4 3221225994; Addr4 3221225995]
  else Err (errors_New (#"no such host")).
Definition demo_client_os : osEnv := {|
  os_Open := λ _, Err (errors_New (#"no such file"));
  os_LookupEnv := λ n, if bool_decide (n = #"OWN_KEY") then Some (#"AQAAAAAAAAAAAAAAAAAAAAAAAAAAAAAAAAAAAAAAAAA=")
                       else if bool_decide (n = #"PSK") then Some zero_key else None |}.
Definition demo_client_config : ClientConfig := {|
  cc_Endpoint := #"tunnel.example.com:51820"; cc_ServerPubKey := zero_key; cc_PrivateKey := #"env:OWN_KEY";
  cc_PresharedKey := #"env:PSK"; cc_TunnelIP := Addr4 174260231; cc_MTU := 0; cc_DialTimeout := 0 |}.
Definition demo_client := newClient demo_client_os None demo_names None demo_client_config.

Lemma demo_names_plain host l a : demo_names host = Ok l → a ∈ l → nl ∉ Zone a.
Proof.
  unfold demo_names. case_bool_decide; [|done]. intros [= <-] Ha.
  rewrite !elem_of_cons, elem_of_nil in Ha. by destruct Ha as [->|[->|[]]]; apply not_elem_of_nil.
Qed.

Lemma newClient_pins_the_server_witness :
  match demo_client with
  | (Ok c, _) => ∃ w own, td_dev (cl_dev c) = Some w
      ∧ view w = pinned_view own zero_hex zero_hex (AddrPortFrom (Addr4 3221225994) 51820)
  | _ => False
  end.
Proof.
  pose proof (newClient_pins_the_server demo_client_os None demo_names None demo_client_config) as H.
  assert (is_Ok (fst demo_client) = true) as Hok by by vm_compute.
  unfold demo_client in *.
  destruct (newClient demo_client_os None demo_names None demo_client_config) as [[c|e] rs] eqn:E; [|done].
  destruct H as (m & w & own & pub & psk & sk & pk & host & port & H).
  { apply (bool_decide_eq_true_1 _). by vm_compute. }
  { apply demo_names_plain. }
  destruct H as (_ & Hw & _ & _ & _ & Hsk & Hown & Hpk & Hpsk & Hpub & _ & Hsplit & Hfrom & Hview & _).
  exists w, own. split; [exact Hw|].
  assert (pub = zero_hex) as ->.
  { unfold zero_hex. change zero_key with (cc_ServerPubKey demo_client_config). by rewrite Hpub. }
  vm_compute in Hsplit. injection Hsplit as <- <-. vm_compute in Hpk. injection Hpk as <-.
  vm_compute in Hpsk. vm_compute in Hsk. injection Hsk as <-. vm_compute in Hown.
  injection Hpsk as <-. injection Hown as <-.
  unfold endpoint_from in Hfrom.
  match type of Hfrom with match ?x with _ => _ end => assert (x = None) as Ep by by vm_compute end.
  rewrite Ep in Hfrom. destruct Hfrom as (ip & ips & Hl & Hep & _).
  vm_compute in Hl. injection Hl as <- _. rewrite Hview; [|by vm_compute]. rewrite Hep. reflexivity.
Defined.

Definition demo_helloIO (answer : gostring) : helloIO := {|
  io_setWrite := None; io_ctxWrite := None; io_setRead := None; io_reader := mkReader [answer] EOF_error;
  io_ctxRead := None; io_stop := true; io_ctxStop := None; io_clear := None |}.
Definition demo_endpoint : clientEndpoint := {|
  ce_configured := #"192.0.2.10:51820"; ce_host := #"192.0.2.10"; ce_port := 51820; ce_literal := true;
  ce_addr := AddrPortFrom (Addr4 3221225994) 51820; ce_generation := 0 |}.

Lemma refusals_are_told_apart_witness :
  ∃ err, hello demo_endpoint (demo_helloIO [frameVersion; statusDenied]) (mkWriter [] None) (#"primary-db")
         = (Some err, mkWriter (hello_request_frame (#"primary-db")) None)
  ∧ errors_Is err ErrDenied = true ∧ errors_Is err ErrRateLimited = false.
Proof.
  destruct (refusals_are_told_apart (mkWriter [] None) (mkWriter [frameVersion; statusDenied] None) statusDenied
    demo_endpoint (demo_helloIO [frameVersion; statusDenied]) (mkWriter [] None)
    (mkWriter (hello_request_frame (#"primary-db")) None) (#"primary-db") []) as (err & H & Hs);
    [reflexivity..|]. exists err. split; [exact H|]. by rewrite !Hs.
Defined.

End Client.
