(* ===== verification/EndToEnd.v ===== *)
(** * One dial, both ends ([client.go], [server.go], [wire.go])

    The client's [hello] and the server's [handleConn] on one connection.
    The tunnel is an ordered byte stream that may stop at any point: what one
    end reads is a prefix of what the other wrote.  The server runs any
    schedule, with any other connections and reloads. *)

From S2P Require Import Prelude GoStrings GoNetip GoIO Wire Policy Secret Yaml Config Watcher Device Limiter Server Conn GoNet Client.
Import Wire Policy Config Limiter Device Server Conn.

Module EndToEnd.

(** ** Lemmas: what a handler does, by its events *)

Section server_side.
Context {RO : GoRange}.

Definition is_dialing (p : pc) : bool := match p with Dialing _ _ _ _ => true | _ => false end.

(** A handler that has been granted a service and is past the dial has dialed
    the backend it was granted. *)
Lemma handler_step_dialed s c h ev s' h' g :
  handler_step s c h ev = Some s' → event_conn ev = Some c → s_handlers s' !! c = Some h' →
  granted h' = Some g → is_dialing (h_pc h') = false →
  granted h = Some g ∧ (is_dialing (h_pc h) = false ∨ is_dialing (h_pc h) = true ∧ ∃ dl, ev = DialBackend c None dl).
Proof.
  intros H Hev Hc'. unfold granted.
  destruct ev; cbn in Hev; try done; injection Hev as ->; cbn in H; destruct (h_pc h) eqn:Hpc; try done;
    repeat first [apply bind_Some in H as (? & _ & H) | case_match]; try done; simplify_eq;
    cbn in Hc'; rewrite lookup_insert_eq in Hc'; injection Hc' as <-;
    try (destruct (unwound_pc h Hpc) as [E|E]; rewrite E in * ); cbn in *; intros; simplify_eq; eauto.
Qed.

(** ** What a schedule says of a connection *)

Context (now : Z) (cfg : PeersConfig).

(** The handler of [c] reached the backend [b], for the service [svc]. *)
Definition dialed (evs : list event) (c : nat) (svc : gostring) (b : AddrPort) : Prop :=
  ∃ pre dl post s0 h0 l pol, evs = pre ++ DialBackend c None dl :: post ∧ run step (initial now cfg) pre = Some s0
    ∧ s_handlers s0 !! c = Some h0 ∧ h_pc h0 = Dialing l pol svc b.

Record heard (evs : list event) (c : nat) (h : handler) : Prop := {
  hd_dialed : ∀ pol svc b, granted h = Some (pol, svc, b) → is_dialing (h_pc h) = false → dialed evs c svc b;
  hd_short : length (w_out (h_out h)) ≤ 2;
  hd_answer : w_out (h_out h) = [frameVersion; statusOK] → ∃ pol svc b,
    authorised cfg evs c (h_ip h) pol svc b ∧ dialed evs c svc b
    ∧ ∀ l pol' svc' b', h_pc h = Piping l pol' svc' b' → pol' = pol ∧ svc' = svc ∧ b' = b
}.

Lemma dialed_app evs evs' c svc b : dialed evs c svc b → dialed (evs ++ evs') c svc b.
Proof. intros (pre & dl & post & s0 & h0 & l & pol & -> & ?). exists pre, dl, (post ++ evs'), s0, h0, l, pol. by rewrite <- app_assoc. Qed.

Lemma heard_snoc evs ev c h : heard evs c h → heard (evs ++ [ev]) c h.
Proof.
  intros [H1 H2 H3]. constructor; [by eauto using dialed_app|done|].
  intros E. destruct (H3 E) as (pol & svc & b & ? & ? & ?). exists pol, svc, b.
  by split_and!; [apply authorised_app|apply dialed_app|].
Qed.

Lemma heard_newborn evs c h : newborn h → heard evs c h.
Proof.
  intros [Hpc [_ Ho]]. constructor; [|rewrite Ho; simpl; lia|by rewrite Ho].
  intros *. unfold granted. destruct Hpc as [-> | ->]; done.
Qed.

Lemma heard_own evs s c h ev s' h' :
  ran now cfg evs s → s_handlers s !! c = Some h → event_conn ev = Some c →
  handler_step s c h ev = Some s' → s_handlers s' !! c = Some h' →
  heard evs c h → heard (evs ++ [ev]) c h'.
Proof.
  intros Hr Hc Hev Hs Hc' [H1 H2 H3]. pose proof (fit_ran _ _ _ _ _ _ Hr Hc) as [F1 _ _ F4].
  pose proof (λ g, handler_step_dialed _ _ _ _ _ _ g Hs Hev Hc') as Hd.
  pose proof Hs as [h0 Hl]%handler_step_local. pose proof (ls_put _ _ _ _ _ Hl) as Hp.
  assert (h0 = h') as -> by (rewrite Hp, lookup_insert_eq in Hc'; congruence). constructor.
  - intros pol svc b Hg E. destruct (Hd _ Hg E) as [Hg' [E'|[E' [dl ->]]]]; [by eapply dialed_app, H1|].
    unfold granted in Hg'. destruct (h_pc h) eqn:Hpc; try done. simplify_eq.
    exists evs, dl, [], s, h, l, pol. split_and!; [done|apply Hr|done|done].
  - destruct (ls_out _ _ _ _ _ Hl) as [->|(H10 & _ & dl & st & _ & ->)]; [done|].
    exact (prefix_length _ _ (respond_out dl (h_out h) st (F1 H10))).
  - rewrite (ls_ip _ _ _ _ _ Hl). intros E. destruct (ls_out _ _ _ _ _ Hl) as [Ho|(H10 & _ & dl & st & Hm & Ho)].
    + rewrite Ho in E. destruct (H3 E) as (pol & svc & b & ? & ? & _). exists pol, svc, b.
      split_and!; [by apply authorised_app|by apply dialed_app|]. intros l pol' svc' b' Hpc.
      destruct (ls_piping _ _ _ _ _ Hl _ _ _ _ Hpc) as [H10 _]. by rewrite F1 in E.
    + assert (st = statusOK) as ->.
      { pose proof (respond_out dl (h_out h) st (F1 H10)) as Hpre. rewrite <- Ho, E in Hpre.
        destruct Hpre as [k Hk]. injection Hk. congruence. }
      destruct (Hm eq_refl) as (l & pol & svc & b & Hpc).
      assert (granted h = Some (pol, svc, b)) as Hg by (unfold granted; by rewrite Hpc).
      exists pol, svc, b. split_and!; [by apply authorised_app, F4|by eapply dialed_app, H1; [|rewrite Hpc]|].
      intros l' pol' svc' b' Hpc'. destruct (Hd (pol', svc', b')) as [Hg' _]; [unfold granted; by rewrite Hpc'|by rewrite Hpc'|].
      rewrite Hg in Hg'. by simplify_eq.
Qed.

Lemma heard_ran evs s c h : ran now cfg evs s → s_handlers s !! c = Some h → heard evs c h.
Proof.
  intros Hr. revert c h. pattern evs, s. revert evs s Hr. apply (ran_ind now cfg).
  { intros c h Hc. cbn in Hc. by rewrite lookup_empty in Hc. }
  intros evs s ev s' Hr IH Hok H c h' Hc'.
  destruct (step_handlers_own _ _ _ _ _ Hok H Hc') as [[_ ?]|(h & Hc & [->|[->|[Hown Hs]]])].
  - by apply heard_newborn.
  - by apply heard_snoc, IH.
  - destruct (heard_snoc _ ev _ _ (IH _ _ Hc)). by constructor.
  - eapply heard_own; [done..|by apply IH].
Qed.

(** ** Both ends *)

Lemma hello_frame_prefix name name' rest :
  ValidServiceName name = true → ValidServiceName name' = true →
  hello_request_frame name ++ rest `prefix_of` hello_request_frame name' → name = name'.
Proof.
  intros H1 H2 [k Hk]. unfold hello_request_frame in Hk. cbn [app] in Hk. injection Hk as Hlen Hname.
  apply (f_equal bval) in Hlen. rewrite !frame_length_byte in Hlen by done.
  rewrite <- app_assoc in Hname. destruct (rest ++ k) as [|x l]; [by rewrite app_nil_r in Hname|].
  apply (f_equal length) in Hname. rewrite length_app in Hname. simpl in Hname. lia.
Qed.

Lemma Write_None buf w w' : Write buf w = (None, w') → w_out w' = w_out w ++ buf.
Proof.
  unfold Write. destruct (w_room w) as [[n e]|]; [|by intros [= <-]].
  destruct (_ <=? n); [by intros [= <-]|done].
Qed.

(** C3: a dial that succeeds is connected to what it asked for.  Whatever else
    the server is doing, if the client's exchange on a connection returns
    without an error, then the server read the name the client sent from that
    connection; when the connection's own lookup ran, the policy then in force
    (of the configuration the run began with, or of the last one swapped in by
    then) granted that name, at a backend, to the connection's address; that
    backend was reached by this handler; and if the connection is being
    proxied it is proxied to it.  The tunnel is assumed to deliver a prefix of
    what each end wrote; the first two bytes the client reads are the handler's
    own, since nothing is proxied before the answer. *)
Theorem successful_dials_are_authorised {WG : WireGuard} {GU : GoUnicode} evs s c h e io w w' svc :
  Forall event_ok evs → run step (initial now cfg) evs = Some s → s_handlers s !! c = Some h →
  w_out w = [] →
  (∀ r dl, ReadHello c None r dl ∈ evs → r_bytes r `prefix_of` w_out w') →
  take 2 (r_bytes (Client.io_reader io)) `prefix_of` w_out (h_out h) →
  Client.hello e io w svc = (None, w') →
  ∃ pre dl post b, evs = pre ++ ResolveService c dl :: post ∧ asked pre c svc
    ∧ Policy.Resolve (pc_policy (in_force cfg pre)) (h_ip h) svc = (b, true)
    ∧ dialed evs c svc b ∧ ∀ l pol svc' b', h_pc h = Piping l pol svc' b' → svc' = svc ∧ b' = b.
Proof.
  intros Hok Hrun Hc Hw Hup Hdown (Hv & _ & Hwr & _ & [rest Hr] & _)%Client.hello_None.
  destruct (heard_ran _ _ _ _ (conj Hok Hrun) Hc) as [_ Hsh Ha].
  apply Write_None in Hwr. rewrite Hw in Hwr. cbn [app] in Hwr.
  rewrite Hr in Hdown. cbn [take] in Hdown.
  destruct Ha as (pol & svc' & b & (pre & dl' & post & -> & -> & Hask & Hres) & Hd & Hp).
  { symmetry. by apply (prefix_length_eq [frameVersion; statusOK]). }
  pose proof Hask as (r & dl & Hin & Hread). apply readHelloRequest_Ok in Hread as [Hv' [rest' Hb]].
  assert (r_bytes r `prefix_of` w_out w') as Hpre by (apply (Hup r dl); set_solver).
  rewrite Hb, Hwr in Hpre. apply hello_frame_prefix in Hpre as ->; [|done..].
  exists pre, dl', post, b. split_and!; [done..|]. intros l pol' svc' b' E. by destruct (Hp _ _ _ _ E).
Qed.

(** ** A dial that nothing stops *)

Lemma run_first s ev s' evs sf : step s ev = Some s' → run step s' evs = Some sf → run step s (ev :: evs) = Some sf.
Proof. intros H Hr. cbn [run]. by rewrite H. Qed.
Lemma run_own s c h ev s' evs sf :
  s_handlers s !! c = Some h → event_conn ev = Some c → handler_step s c h ev = Some s' →
  run step s' evs = Some sf → run step s (ev :: evs) = Some sf.
Proof. intros Hc Hev H. apply run_first. by rewrite (handler_event_step _ _ _ Hev), Hc. Qed.

(** The actions of one connection, from its acceptance to its pipe. *)
Definition served (c : nat) (ra : remote_addr) (fused : bool) (t : Z) (r : reader) : list event :=
  [Accept c ra (mkWriter [] None); FindLimiter c; Acquire c fused t None; ReadHello c None r None; ResolveService c None;
   DialBackend c None None; Track c; Recheck c; RespondOK c None None].

Ltac own :=
  eapply run_own;
  [cbn [s_handlers put set_handlers on_limiter set_registry]; by apply lookup_insert_eq|reflexivity|cbn|].

Lemma served_runs s c ra ip l lim fused t r svc b :
  s_listening s = true → s_handlers s !! c = None →
  remoteTunnelIP ra = Some ip → limiterFor ip (s_registry s) = Some l → rg_heap (s_registry s) !! l = Some lim →
  snd (snd (acquire fused t lim)) = true → fst (readHelloRequest r) = Ok svc →
  Policy.Resolve (pc_policy (s_config s)) ip svc = (b, true) →
  ∃ s' h, run step s (served c ra fused t r) = Some s' ∧ s_handlers s' !! c = Some h
    ∧ h_pc h = Piping l (pc_policy (s_config s)) svc b ∧ h_ip h = ip ∧ w_out (h_out h) = [frameVersion; statusOK].
Proof.
  intros Hl Hc Hra Hlim Hheap Hacq Hread Hres. destruct (acquire fused t lim) as [lim' [reason ok]] eqn:Ea.
  cbn in Hacq. subst ok. unfold served. eexists _, _. split.
  - eapply run_first; [cbn [step]; rewrite Hl, Hc, Hra; reflexivity|].
    own. { by rewrite Hlim. }
    own. { rewrite Hheap. cbn. by rewrite Ea. }
    own. { by rewrite Hread. }
    own. { by rewrite Hres. }
    own. { reflexivity. }
    own. { reflexivity. }
    own. { unfold limiterFor in *. cbn. by rewrite bool_decide_true. }
    own. { reflexivity. }
    reflexivity.
  - cbn [s_handlers put set_handlers]. rewrite lookup_insert_eq. by split_and!.
Qed.

(** C4: a dial that nothing stops succeeds.  In any reachable state of the
    server that is still accepting, a connection from a listed address whose
    limiter admits it now, asking for a service the policy in force grants,
    runs to the pipe to that backend in nine actions, in which the backend is
    reached and no I/O fails; it is answered "granted", and the client that
    sent the request over the same stream, in whatever pieces either end reads
    it, returns from its exchange without an error. *)
Theorem granted_dials_succeed {WG : WireGuard} {GU : GoUnicode} s c ra ip l lim fused t svc b e io w w' r k :
  s_listening s = true → s_handlers s !! c = None →
  remoteTunnelIP ra = Some ip → limiterFor ip (s_registry s) = Some l → rg_heap (s_registry s) !! l = Some lim →
  snd (snd (acquire fused t lim)) = true → Policy.Resolve (pc_policy (s_config s)) ip svc = (b, true) →
  writeHelloRequest w svc = (None, w') → w_out w = [] → r_bytes r = w_out w' ++ k →
  Client.io_setWrite io = None → Client.io_setRead io = None → Client.io_stop io = true → Client.io_clear io = None →
  ∃ s' h, run step s (served c ra fused t r) = Some s' ∧ s_handlers s' !! c = Some h
    ∧ h_pc h = Piping l (pc_policy (s_config s)) svc b
    ∧ ∀ rest, r_bytes (Client.io_reader io) = w_out (h_out h) ++ rest → Client.hello e io w svc = (None, w').
Proof.
  intros Hl Hc Hra Hlim Hheap Hacq Hres Hw Hempty Hr I1 I2 I3 I4.
  apply Client.writeHelloRequest_None in Hw as [Hv Hw]. pose proof (Write_None _ _ _ Hw) as Ho. rewrite Hempty in Ho.
  assert (fst (readHelloRequest r) = Ok svc) as Hread.
  { apply readHelloRequest_Ok. split; [done|]. exists k. by rewrite Hr, Ho. }
  destruct (served_runs s c ra ip l lim fused t r svc b) as (s' & h & Hrun & Hc' & Hpc & _ & Hout); [done..|].
  exists s', h. split_and!; [done..|]. intros rest Hrest. apply Client.hello_None. split_and!; [done..| |done|done].
  exists rest. by rewrite Hrest, Hout.
Qed.

End server_side.

(** ** A client of the demonstration server *)

#[local] Existing Instance canonical_range.

Lemma demo_piping_run :
  run step (initial 0 demo_config) (demo_connect ++ [RespondOK 1 None None]) = Some demo_piping.
Proof. rewrite run_app, demo_granted_run. cbn [mbind option_bind run]. by rewrite demo_piping_step. Qed.

Lemma demo_reads r dl :
  ReadHello 1 None r dl ∈ demo_connect ++ [RespondOK 1 None None] →
  r_bytes r `prefix_of` hello_request_frame (#"primary-db").
Proof.
  intros H. assert (r = mkReader [hello_request_frame (#"primary-db")] EOF_error) as ->.
  { unfold demo_connect in H. cbn [app] in H. rewrite !elem_of_cons, elem_of_nil in H.
    repeat (destruct H as [H|H]; [first [discriminate H|injection H; intros; assumption]|]). destruct H. }
  by apply (bool_decide_eq_true_1 _).
Qed.

Lemma successful_dials_are_authorised_witness :
  ∃ pre dl post b, demo_connect ++ [RespondOK 1 None None] = pre ++ ResolveService 1 dl :: post
    ∧ Policy.Resolve (pc_policy (in_force demo_config pre)) (h_ip (demo_handler demo_piping)) (#"primary-db") = (b, true)
    ∧ dialed 0 demo_config (demo_connect ++ [RespondOK 1 None None]) 1 (#"primary-db") b.
Proof.
  destruct (successful_dials_are_authorised (WG := Client.demo_client_device) (GU := Client.demo_unicode) 0 demo_config
    (demo_connect ++ [RespondOK 1 None None]) demo_piping 1 (demo_handler demo_piping) Client.demo_endpoint
    (Client.demo_helloIO [frameVersion; statusOK]) (mkWriter [] None) (mkWriter (hello_request_frame (#"primary-db")) None)
    (#"primary-db")) as (pre & dl & post & b & H1 & _ & H2 & H3 & _).
  - apply Forall_app. split; [exact demo_connect_ok|]. by repeat constructor.
  - exact demo_piping_run.
  - apply from_Some. by vm_compute.
  - reflexivity.
  - intros r dl H. revert r dl H. apply demo_reads.
  - apply (bool_decide_eq_true_1 _). by vm_compute.
  - by vm_compute.
  - exists pre, dl, post, b. split; [exact H1|]. split; [exact H2|exact H3].
Defined.

(** The same dial, from the first state: its frame arrives in two pieces. *)
Definition demo_pieces : reader := mkReader [take 5 (hello_request_frame (#"primary-db")); drop 5 (hello_request_frame (#"primary-db"))] EOF_error.
Definition demo_first : peerLimiter := default demo_limiter (rg_heap (s_registry (initial 0 demo_config)) !! 0).

Lemma granted_dials_succeed_witness :
  ∃ s' h, run step (initial 0 demo_config) (served 1 (TCPAddr (byte_of_Z <$> [10; 99; 0; 7]%Z)) true 5 demo_pieces) = Some s'
    ∧ s_handlers s' !! 1 = Some h
    ∧ h_pc h = Piping 0 (pc_policy demo_config) (#"primary-db") (AddrPortFrom (Addr4 3221225994) 3306).
Proof.
  destruct (granted_dials_succeed (WG := Client.demo_client_device) (GU := Client.demo_unicode) (initial 0 demo_config) 1
    (TCPAddr (byte_of_Z <$> [10; 99; 0; 7]%Z)) (Addr4 174260231) 0 demo_first true 5 (#"primary-db")
    (AddrPortFrom (Addr4 3221225994) 3306) Client.demo_endpoint (Client.demo_helloIO [frameVersion; statusOK])
    (mkWriter [] None) (mkWriter (hello_request_frame (#"primary-db")) None) demo_pieces [])
    as (s' & h & H1 & H2 & H3 & _).
  - reflexivity.
  - reflexivity.
  - by vm_compute.
  - by vm_compute.
  - apply from_Some. by vm_compute.
  - by vm_compute.
  - by vm_compute.
  - by vm_compute.
  - reflexivity.
  - by vm_compute.
  - reflexivity.
  - reflexivity.
  - reflexivity.
  - reflexivity.
  - exists s', h. split; [exact H1|]. split; [exact H2|exact H3].
Defined.

End EndToEnd.
