(* ===== verification/Dial.v ===== *)
(** * Dialing ([Dial], [dialControl], [refreshEndpoint] of [client.go])

    Several goroutines may dial one client at the same time: they share the
    endpoint, the one-slot semaphore that serializes re-resolution, and the
    device whose peer a re-resolution moves.  [step] takes that state by one
    atomic action of one dial, so sequences of events are the interleavings.
    What the network, the resolver and the clock give is in the events. *)

From S2P Require Import Prelude GoStrings GoNetip GoIO GoNet Wire Secret Config Device Client.
Import Wire Config Device Client.

Module Dial.

(** ** Messages *)

(** [handshakeBound], with the budget's deadline. *)
Definition handshakeBound (deadline start : Z) : Z :=
  let d := Z.max (- 2 ^ 63) (Z.min (2 ^ 63 - 1) (deadline - start)) in   (* [Time.Sub] saturates *)
  Round d (100 * Millisecond).

Definition handshakeTimeoutError (e : clientEndpoint) (waited : Z) : error :=
  wrap_before ErrHandshakeTimeout_error
    (#": no response from " ++ describe e ++ #" after " ++ Duration_String waited ++
     #". The endpoint does not answer unauthenticated traffic, so this means one of: wrong server public key, wrong client key, revoked peer, wrong PSK, UDP blocked on this network, or the endpoint is down. The server cannot tell you which. Check the server log for a peer entry").

Definition canceled_error : error := sentinel_error context_Canceled (#"context canceled").
Definition dialCanceled (e : clientEndpoint) : error :=
  wrapf (#"gocloak: client: dial " ++ describe e ++ #": ") canceled_error.

(** ** A dial *)

(** Where a dial is; [refreshed] is the local variable of [dialControl] and
    [entered_expired] says whether the budget was spent when the select was
    reached, in which case its timer cannot win. *)
Inductive pc :=
  | Control                                    (* before [start] and [generation] are taken *)
  | Attempt (refreshed : bool)                 (* one TCP attempt *)
  | Select (refreshed entered_expired : bool)
  | Refresh                                    (* before the semaphore *)
  | Holding                                    (* before the generation is compared *)
  | Lookup
  | Compare (addr : AddrPort)
  | Setting (addr : AddrPort)                  (* before [SetPeerEndpoint] *)
  | Applying (addr : AddrPort)                 (* before [applied] *)
  | Releasing (err : option error)             (* before the deferred receive *)
  | Hello
  | ClosingConn (err : error)
  | Returned (err : option error).

Inductive conn := NoConn | OpenConn | ClosedConn.

Record dial := {
  d_service : gostring; d_deadline : Z; d_start : Z; d_generation : Z;
  d_expired : bool; d_canceled : bool; d_conn : conn; d_pc : pc
}.
Definition at_pc (p : pc) (d : dial) : dial :=
  {| d_service := d_service d; d_deadline := d_deadline d; d_start := d_start d;
     d_generation := d_generation d; d_expired := d_expired d; d_canceled := d_canceled d;
     d_conn := d_conn d; d_pc := p |}.
Definition with_conn (c : conn) (d : dial) : dial :=
  {| d_service := d_service d; d_deadline := d_deadline d; d_start := d_start d;
     d_generation := d_generation d; d_expired := d_expired d; d_canceled := d_canceled d;
     d_conn := c; d_pc := d_pc d |}.
Definition begin_control (start generation : Z) (d : dial) : dial :=
  {| d_service := d_service d; d_deadline := d_deadline d; d_start := start;
     d_generation := generation; d_expired := d_expired d; d_canceled := d_canceled d;
     d_conn := d_conn d; d_pc := Attempt false |}.
Definition expire (canceled : bool) (d : dial) : dial :=
  {| d_service := d_service d; d_deadline := d_deadline d; d_start := d_start d;
     d_generation := d_generation d; d_expired := true; d_canceled := d_canceled d || canceled;
     d_conn := d_conn d; d_pc := d_pc d |}.

Section dialing.
Context {WG : WireGuard} {GU : GoUnicode}.

(** [s_log] and [s_ipc_failed] are not part of the program: the dials that
    completed a lookup, in order, with the generation each had recorded, and
    whether the device ever refused an endpoint. *)
Record system := {
  s_endpoint : clientEndpoint; s_serverPubKey : gostring; s_dev : wg;
  s_refreshing : option nat;                   (* who filled the one slot *)
  s_closed : bool; s_dials : gmap nat dial;
  s_log : list (nat * Z); s_ipc_failed : bool
}.
Definition put (n : nat) (d : dial) (s : system) : system :=
  {| s_endpoint := s_endpoint s; s_serverPubKey := s_serverPubKey s; s_dev := s_dev s;
     s_refreshing := s_refreshing s; s_closed := s_closed s; s_dials := <[n := d]> (s_dials s);
     s_log := s_log s; s_ipc_failed := s_ipc_failed s |}.
Definition set_refreshing (r : option nat) (s : system) : system :=
  {| s_endpoint := s_endpoint s; s_serverPubKey := s_serverPubKey s; s_dev := s_dev s;
     s_refreshing := r; s_closed := s_closed s; s_dials := s_dials s;
     s_log := s_log s; s_ipc_failed := s_ipc_failed s |}.
Definition set_dev (w : wg) (failed : bool) (s : system) : system :=
  {| s_endpoint := s_endpoint s; s_serverPubKey := s_serverPubKey s; s_dev := w;
     s_refreshing := s_refreshing s; s_closed := s_closed s; s_dials := s_dials s;
     s_log := s_log s; s_ipc_failed := s_ipc_failed s || failed |}.
Definition set_endpoint_of (e : clientEndpoint) (who : nat * Z) (s : system) : system :=
  {| s_endpoint := e; s_serverPubKey := s_serverPubKey s; s_dev := s_dev s;
     s_refreshing := s_refreshing s; s_closed := s_closed s; s_dials := s_dials s;
     s_log := s_log s ++ [who]; s_ipc_failed := s_ipc_failed s |}.
Definition close_client (s : system) : system :=
  {| s_endpoint := s_endpoint s; s_serverPubKey := s_serverPubKey s; s_dev := s_dev s;
     s_refreshing := s_refreshing s; s_closed := true; s_dials := s_dials s;
     s_log := s_log s; s_ipc_failed := s_ipc_failed s |}.

Inductive event :=
  | DialCall (n : nat) (service : gostring) (deadline : Z)
  | Expire (n : nat) (canceled : bool)         (* the budget is spent *)
  | CloseClient                                (* [c.closed.Store(true)] *)
  | BeginControl (n : nat) (now : Z)
  | AttemptEnds (n : nat) (connected : bool)
  | SelectDone (n : nat)
  | SelectAfter (n : nat)
  | SkipLiteral (n : nat)
  | AcquireSlot (n : nat)
  | GiveUpSlot (n : nat)
  | CheckGeneration (n : nat)
  | LookupEnds (n : nat) (answer : result (list Addr))
  | CompareAddr (n : nat)
  | SetEndpoint (n : nat)
  | Apply (n : nat)
  | ReleaseSlot (n : nat)
  | HelloEnds (n : nat) (io : helloIO) (w : writer)
  | CloseConn (n : nat).

(** One action of [refreshEndpoint]; [None] where it is not the dial's turn. *)
Definition refresh_step (s : system) (n : nat) (d : dial) (ev : event) : option system :=
  let go p := Some (put n (at_pc p d) s) in
  match ev, d_pc d with
  | SkipLiteral _, Refresh => if ce_literal (s_endpoint s) then go (Attempt true) else None
  | AcquireSlot _, Refresh =>
      if ce_literal (s_endpoint s) then None
      else match s_refreshing s with
           | Some _ => None
           | None => Some (put n (at_pc Holding d) (set_refreshing (Some n) s))
           end
  | GiveUpSlot _, Refresh =>
      if negb (ce_literal (s_endpoint s)) && d_expired d then go (Attempt true) else None
  | CheckGeneration _, Holding =>
      if (snd (current (s_endpoint s)) =? d_generation d)%Z then go Lookup else go (Releasing None)
  | LookupEnds _ answer, Lookup =>
      match resolveEndpoint (λ _, answer) (ce_host (s_endpoint s)) (ce_port (s_endpoint s)) with
      | Err e => go (Releasing (Some e))
      | Ok (addr, _) => go (Compare addr)
      end
  | CompareAddr _, Compare addr =>
      go (if bool_decide (addr = fst (current (s_endpoint s))) then Applying addr else Setting addr)
  | SetEndpoint _, Setting addr =>
      match SetPeerEndpoint (s_serverPubKey s) addr (s_dev s) with
      | (Some e, w) => Some (put n (at_pc (Releasing (Some e)) d) (set_dev w true s))
      | (None, w) => Some (put n (at_pc (Applying addr) d) (set_dev w false s))
      end
  | Apply _, Applying addr =>
      Some (put n (at_pc (Releasing None) d)
              (set_endpoint_of (applied addr (s_endpoint s)) (n, d_generation d) s))
  | ReleaseSlot _, Releasing err =>
      Some (put n (at_pc (match err with Some e => Returned (Some e) | None => Attempt true end) d)
              (set_refreshing None s))
  | _, _ => None
  end.

(** One action of the dial [n]: [dialControl], and the exchange after it. *)
Definition dial_step (s : system) (n : nat) (d : dial) (ev : event) : option system :=
  let go p := Some (put n (at_pc p d) s) in
  match ev, d_pc d with
  | BeginControl _ now, Control => Some (put n (begin_control now (snd (current (s_endpoint s))) d) s)
  | AttemptEnds _ connected, Attempt refreshed =>
      if connected : bool then Some (put n (with_conn OpenConn (at_pc Hello d)) s)
      else go (Select refreshed (d_expired d))
  | SelectDone _, Select _ _ =>
      if d_expired d then
        go (Returned (Some (if d_canceled d then dialCanceled (s_endpoint s)
                            else handshakeTimeoutError (s_endpoint s)
                                   (handshakeBound (d_deadline d) (d_start d)))))
      else None
  | SelectAfter _, Select refreshed entered_expired =>
      if entered_expired then None else go (if refreshed then Attempt true else Refresh)
  | HelloEnds _ io w, Hello =>
      match hello (s_endpoint s) io w (d_service d) with
      | (None, _) => go (Returned None)
      | (Some e, _) => go (ClosingConn e)
      end
  | CloseConn _, ClosingConn e => Some (put n (with_conn ClosedConn (at_pc (Returned (Some e)) d)) s)
  | _, _ => refresh_step s n d ev
  end.

Definition event_dial (ev : event) : option nat :=
  match ev with
  | BeginControl n _ | AttemptEnds n _ | SelectDone n | SelectAfter n | SkipLiteral n | AcquireSlot n
  | GiveUpSlot n | CheckGeneration n | LookupEnds n _ | CompareAddr n | SetEndpoint n | Apply n
  | ReleaseSlot n | HelloEnds n _ _ | CloseConn n => Some n
  | _ => None
  end.

(** [Dial]: its checks, before anything is opened. *)
Definition begin_dial (s : system) (service : gostring) (deadline : Z) : dial :=
  {| d_service := service; d_deadline := deadline; d_start := 0; d_generation := 0;
     d_expired := false; d_canceled := false; d_conn := NoConn;
     d_pc := if negb (ValidServiceName service) then Returned (Some ErrInvalidServiceName_error)
             else if s_closed s then Returned (Some ErrClientClosed_error)
             else Control |}.

Definition step (s : system) (ev : event) : option system :=
  match ev with
  | DialCall n service deadline =>
      match s_dials s !! n with
      | Some _ => None
      | None => Some (put n (begin_dial s service deadline) s)
      end
  | Expire n canceled => d ← s_dials s !! n; Some (put n (expire canceled d) s)
  | CloseClient => Some (close_client s)
  | _ => n ← event_dial ev; d ← s_dials s !! n; dial_step s n d ev
  end.

(** [DialContext]: a call of [Dial] for the service the address names. *)
Definition DialContext (n : nat) (network addr : gostring) (deadline : Z) : event :=
  DialCall n (Client.serviceFromAddr addr) deadline.

(** The resolver answers with addresses whose zones hold no newline. *)
Definition event_ok (ev : event) : Prop :=
  match ev with
  | LookupEnds _ (Ok l) => ∀ a, a ∈ l → nl ∉ Zone a
  | _ => True
  end.

(** A client as [newClient] returns it. *)
Definition initial (c : client) (w : wg) : system :=
  {| s_endpoint := cl_endpoint c; s_serverPubKey := cl_serverPubKey c; s_dev := w;
     s_refreshing := None; s_closed := cl_closed c; s_dials := ∅; s_log := []; s_ipc_failed := false |}.

Inductive reachable (s0 : system) : system → Prop :=
  | reach_init : reachable s0 s0
  | reach_step s ev s' : reachable s0 s → event_ok ev → step s ev = Some s' → reachable s0 s'.

End dialing.

(** ** The invariant *)

(** Between taking the slot and giving it back. *)
Definition critical (p : pc) : bool :=
  match p with Holding | Lookup | Compare _ | Setting _ | Applying _ | Releasing _ => true | _ => false end.
(** Between the check of the generation and the end of the lookup. *)
Definition informed (p : pc) : bool :=
  match p with Lookup | Compare _ | Setting _ | Applying _ => true | _ => false end.
(** After the one re-resolution a dial may do. *)
Definition refreshed_pc (p : pc) : bool :=
  match p with
  | Attempt r | Select r _ => r
  | Releasing _ | Hello | ClosingConn _ | Returned _ => true
  | _ => false
  end.
Definition found (p : pc) : option AddrPort :=
  match p with Compare a | Setting a | Applying a => Some a | _ => None end.
(** The connection a dial has at each point. *)
Definition conn_at (p : pc) : conn :=
  match p with Hello | ClosingConn _ | Returned None => OpenConn | _ => NoConn end.
Definition conn_ok (d : dial) : Prop :=
  match d_pc d with
  | Returned (Some _) => d_conn d ≠ OpenConn
  | p => d_conn d = conn_at p
  end.

Section invariant.
Context {WG : WireGuard} {GU : GoUnicode}.
Context (own pub psk : gostring).

(** The address the device's peer has: what a dial has set but not recorded
    yet, or else the recorded one. *)
Definition target (s : system) : AddrPort :=
  match s_refreshing s ≫= λ n, s_dials s !! n with
  | Some d => match d_pc d with Applying a => a | _ => ce_addr (s_endpoint s) end
  | None => ce_addr (s_endpoint s)
  end.

(** A client as it is constructed. *)
Record fresh_client (c : client) (w : wg) : Prop := {
  fc_key : keyToHex (cl_serverPubKey c) = Ok pub;
  fc_other : wg_public own ≠ pub;
  fc_view : view w = pinned_view own pub psk (ce_addr (cl_endpoint c));
  fc_generation : ce_generation (cl_endpoint c) = 0%Z;
  fc_host : nl ∉ ce_host (cl_endpoint c);
  fc_port : (0 <= ce_port (cl_endpoint c))%Z
}.

(** What everyone else sees of a dial. *)
Record dial_ok (s : system) (n : nat) (d : dial) : Prop := {
  do_sem : critical (d_pc d) = true ↔ s_refreshing s = Some n;
  do_gen : informed (d_pc d) = true → ce_generation (s_endpoint s) = d_generation d;
  do_log : n ∈ (fst <$> s_log s) → refreshed_pc (d_pc d) = true;
  do_wf : ∀ a, found (d_pc d) = Some a → endpoint_wf a;
  do_conn : conn_ok d
}.

Record inv (s : system) : Prop := {
  i_dials : ∀ n d, s_dials s !! n = Some d → dial_ok s n d;
  i_holder : ∀ n, s_refreshing s = Some n → is_Some (s_dials s !! n);
  i_gen : ce_generation (s_endpoint s) = (Z.of_nat (length (s_log s)) mod 2 ^ 64)%Z;
  i_log : (snd <$> s_log s) = ((λ i, Z.of_nat i mod 2 ^ 64)%Z <$> seq 0 (length (s_log s)));
  i_once : NoDup (fst <$> s_log s);
  i_logged : ∀ n, n ∈ (fst <$> s_log s) → is_Some (s_dials s !! n);
  i_host : (nl ∉ ce_host (s_endpoint s)) ∧ (0 <= ce_port (s_endpoint s))%Z;
  i_key : keyToHex (s_serverPubKey s) = Ok pub ∧ wg_public own ≠ pub;
  i_dev : s_ipc_failed s = false → view (s_dev s) = pinned_view own pub psk (target s)
}.

Lemma dials_initial c w : fresh_client c w → inv (initial c w).
Proof.
  intros []. constructor; cbn [initial s_dials s_refreshing s_endpoint s_log s_serverPubKey s_ipc_failed s_dev]; try done.
  - constructor.
  - intros n H. by apply elem_of_nil in H.
Qed.

(** ** Lemmas: one action *)

(** Replacing one dial, the shared state being as it was but for what the
    action did with the slot. *)
Lemma dial_ok_other s s' n n' d :
  dial_ok s n' d → n' ≠ n → s_endpoint s' = s_endpoint s → s_log s' = s_log s →
  (s_refreshing s' = s_refreshing s
   ∨ s_refreshing s = None ∧ s_refreshing s' = Some n
   ∨ s_refreshing s = Some n ∧ s_refreshing s' = None) → dial_ok s' n' d.
Proof.
  intros [D1 D2 D3 D4 D5] Hne He Hlog Hr. constructor; rewrite ?He, ?Hlog; try done.
  rewrite D1. destruct Hr as [-> |[[-> ->]|[-> ->]]]; naive_solver.
Qed.

Lemma target_put s n d d' :
  s_dials s !! n = Some d → (∀ a, d_pc d = Applying a → d_pc d' = Applying a) →
  (∀ a, d_pc d' = Applying a → s_refreshing s = Some n → d_pc d = Applying a ∨ a = ce_addr (s_endpoint s)) →
  target (put n d' s) = target s.
Proof.
  intros Hn H1 H2. unfold target. cbn [s_refreshing s_dials s_endpoint put].
  destruct (s_refreshing s) as [m|]; [|done]. cbn. destruct (decide (m = n)) as [->|Hne].
  - rewrite lookup_insert_eq, Hn. cbn. destruct (d_pc d) eqn:E; 
      try (rewrite (H1 _ eq_refl); done);
      destruct (d_pc d') eqn:E'; try done; destruct (H2 _ eq_refl eq_refl) as [?| ->]; done.
  - by rewrite lookup_insert_ne.
Qed.

(** An action that touches only its own dial. *)
Lemma inv_put s n d d' :
  inv s → s_dials s !! n = Some d → dial_ok s n d' →
  (∀ a, d_pc d = Applying a → d_pc d' = Applying a) →
  (∀ a, d_pc d' = Applying a → s_refreshing s = Some n → d_pc d = Applying a ∨ a = ce_addr (s_endpoint s)) →
  inv (put n d' s).
Proof.
  intros [I1 I2 I3 I4 I5 I6 I7 I8 I9] Hn Hd H1 H2.
  constructor; cbn [put s_dials s_refreshing s_endpoint s_log s_serverPubKey s_ipc_failed s_dev]; try done.
  - intros n0 d0 [[<- <-]|[Hne E]]%lookup_insert_Some; [by destruct Hd; constructor|].
    apply (dial_ok_other s _ n); [by apply I1|by apply not_eq_sym|done|done|by left].
  - intros m E. rewrite lookup_insert_is_Some'. right. by apply I2.
  - intros m E. rewrite lookup_insert_is_Some'. right. by apply I6.
  - intros Hf. rewrite (I9 Hf). f_equal. symmetry. by eapply target_put.
Qed.

(** Moving on with the same connection. *)
Lemma inv_go s n d p :
  inv s → s_dials s !! n = Some d → critical p = critical (d_pc d) →
  (informed p = true → informed (d_pc d) = true ∨ ce_generation (s_endpoint s) = d_generation d) →
  (refreshed_pc (d_pc d) = true → refreshed_pc p = true) →
  (∀ a, found p = Some a → found (d_pc d) = Some a ∨ endpoint_wf a) →
  conn_ok (at_pc p d) →
  (∀ a, d_pc d = Applying a → p = Applying a) →
  (∀ a, p = Applying a → d_pc d = Applying a ∨ a = ce_addr (s_endpoint s)) →
  inv (put n (at_pc p d) s).
Proof.
  intros Hinv Hn Hc Hi Hr Hf Hco H1 H2. destruct (i_dials _ Hinv n d Hn) as [D1 D2 D3 D4 D5].
  eapply inv_put; [done|done| |done|naive_solver].
  constructor; cbn [at_pc d_pc d_generation d_conn]; [by rewrite Hc|naive_solver|naive_solver|naive_solver|done].
Qed.

Lemma conn_of s n d : inv s → s_dials s !! n = Some d → conn_ok d.
Proof. intros Hinv Hn. apply (i_dials _ Hinv n d Hn). Qed.

Lemma inv_begin s n d now :
  inv s → s_dials s !! n = Some d → d_pc d = Control →
  inv (put n (begin_control now (ce_generation (s_endpoint s)) d) s).
Proof.
  intros Hinv Hn Hpc. destruct (i_dials _ Hinv n d Hn) as [D1 D2 D3 D4 D5].
  unfold conn_ok in D5. rewrite Hpc in *.
  eapply inv_put; [done|done| |rewrite Hpc; done|done].
  by constructor.
Qed.

Lemma inv_acquire s n d :
  inv s → s_dials s !! n = Some d → d_pc d = Refresh → s_refreshing s = None →
  inv (put n (at_pc Holding d) (set_refreshing (Some n) s)).
Proof.
  intros Hinv Hn Hpc Hr. destruct (i_dials _ Hinv n d Hn) as [D1 D2 D3 D4 D5]. unfold conn_ok in D5.
  rewrite Hpc in *. destruct Hinv as [I1 I2 I3 I4 I5 I6 I7 I8 I9].
  constructor; cbn [put set_refreshing s_dials s_refreshing s_endpoint s_log s_serverPubKey s_ipc_failed s_dev]; try done.
  - intros n0 d0 [[<- <-]|[Hne E]]%lookup_insert_Some; [by constructor|].
    apply (dial_ok_other s _ n); [by apply I1|by apply not_eq_sym|done|done|by right; left].
  - intros m [= <-]. rewrite lookup_insert_eq. by eexists.
  - intros m E. rewrite lookup_insert_is_Some'. right. by apply I6.
  - intros Hf. rewrite (I9 Hf). unfold target. rewrite Hr.
    cbn [put set_refreshing s_dials s_refreshing s_endpoint option_bind mbind]. by rewrite lookup_insert_eq.
Qed.

Lemma inv_release s n d err :
  inv s → s_dials s !! n = Some d → d_pc d = Releasing err →
  inv (put n (at_pc (match err with Some e => Returned (Some e) | None => Attempt true end) d)
         (set_refreshing None s)).
Proof.
  intros Hinv Hn Hpc. destruct (i_dials _ Hinv n d Hn) as [D1 D2 D3 D4 D5]. unfold conn_ok in D5.
  rewrite Hpc in *. assert (s_refreshing s = Some n) as Hr by by apply D1.
  destruct Hinv as [I1 I2 I3 I4 I5 I6 I7 I8 I9].
  constructor; cbn [put set_refreshing s_dials s_refreshing s_endpoint s_log s_serverPubKey s_ipc_failed s_dev]; try done.
  - intros n0 d0 [[<- <-]|[Hne E]]%lookup_insert_Some.
    + simpl in D5. destruct err; constructor; try done. unfold conn_ok. simpl. congruence.
    + apply (dial_ok_other s _ n); [by apply I1|by apply not_eq_sym|done|done|by right; right].
  - intros m E. rewrite lookup_insert_is_Some'. right. by apply I6.
  - intros Hf. rewrite (I9 Hf). unfold target. rewrite Hr. cbn. by rewrite Hn, Hpc.
Qed.

Lemma pinned_move ep ep' :
  with_peers (alter (set_endpoint (AddrPort_String ep')) pub) (pinned_view own pub psk ep)
  = pinned_view own pub psk ep'.
Proof. unfold pinned_view, with_peers. cbn [uv_private_key uv_listen_port uv_peers uv_routes]. by rewrite alter_singleton_eq. Qed.

Lemma inv_set s n d addr :
  inv s → s_dials s !! n = Some d → d_pc d = Setting addr →
  ∀ s', dial_step s n d (SetEndpoint n) = Some s' → inv s'.
Proof.
  intros Hinv Hn Hpc s' H. cbn in H. rewrite Hpc in H.
  destruct (i_dials _ Hinv n d Hn) as [D1 D2 D3 D4 D5]. unfold conn_ok in D5. rewrite Hpc in *.
  assert (s_refreshing s = Some n) as Hr by by apply D1.
  destruct Hinv as [I1 I2 I3 I4 I5 I6 I7 I8 I9].
  assert (∀ p w b, critical p = true → (informed p = true → ce_generation (s_endpoint s) = d_generation d) →
    (∀ a, found p = Some a → a = addr) → conn_at p = NoConn → (∀ e, p ≠ Returned e) →
    (n ∉ (fst <$> s_log s) ∨ refreshed_pc p = true) →
    (s_ipc_failed s || b = false → view w = pinned_view own pub psk
       (match p with Applying a => a | _ => ce_addr (s_endpoint s) end)) →
    inv (put n (at_pc p d) (set_dev w b s))) as Hgo.
  { intros p w b P1 P2 P3 P4 P5 P6 P7.
    constructor; cbn [put set_dev s_dials s_refreshing s_endpoint s_log s_serverPubKey s_ipc_failed s_dev]; try done.
    - intros n0 d0 [[<- <-]|[Hne E]]%lookup_insert_Some.
      + constructor; cbn [at_pc d_pc d_generation d_conn s_endpoint s_log s_refreshing put set_dev]; try done.
        * intros Hin. destruct P6 as [P6|P6]; [by destruct P6|done].
        * intros a Ha. rewrite (P3 a Ha). by apply D4.
        * unfold conn_ok. cbn [at_pc d_pc d_conn]. destruct p; try done.
      + apply (dial_ok_other s _ n); [by apply I1|by apply not_eq_sym|done|done|by left].
    - intros m E. rewrite lookup_insert_is_Some'. right. by apply I2.
    - intros m E. rewrite lookup_insert_is_Some'. right. by apply I6.
    - intros Hf. rewrite (P7 Hf). f_equal. unfold target. cbn. rewrite Hr. cbn. by rewrite lookup_insert_eq. }
  assert (n ∉ (fst <$> s_log s)) as Hlog by (intros Hin; by specialize (D3 Hin)).
  destruct (SetPeerEndpoint _ addr (s_dev s)) as [[e|] w] eqn:Es; injection H as <-; apply Hgo; try done; try (by left).
  - rewrite orb_true_r. done.
  - by intros a [= ->].
  - rewrite orb_false_r. intros Hf. specialize (I9 Hf).
    unfold target in I9. rewrite Hr in I9. cbn in I9. rewrite Hn, Hpc in I9.
    rewrite (SetPeerEndpoint_view _ _ _ _ pub Es); [|by apply D4|by apply I8|].
    + rewrite I9. apply pinned_move.
    + unfold is_self, own_key. rewrite I9. simpl. intros [= E]. by apply I8.
Qed.

Lemma inv_apply s n d addr :
  inv s → s_dials s !! n = Some d → d_pc d = Applying addr →
  inv (put n (at_pc (Releasing None) d) (set_endpoint_of (applied addr (s_endpoint s)) (n, d_generation d) s)).
Proof.
  intros Hinv Hn Hpc. destruct (i_dials _ Hinv n d Hn) as [D1 D2 D3 D4 D5]. unfold conn_ok in D5.
  rewrite Hpc in *. assert (s_refreshing s = Some n) as Hr by by apply D1.
  assert (n ∉ (fst <$> s_log s)) as Hlog by (intros Hin; by specialize (D3 Hin)).
  specialize (D2 eq_refl). destruct Hinv as [I1 I2 I3 I4 I5 I6 I7 I8 I9].
  constructor; cbn [put set_endpoint_of s_dials s_refreshing s_endpoint s_log s_serverPubKey s_ipc_failed s_dev];
    try done.
  - intros n0 d0 [[<- <-]|[Hne E]]%lookup_insert_Some; [by constructor|].
    destruct (I1 n0 d0 E) as [E1 E2 E3 E4 E5]. constructor;
      cbn [put set_endpoint_of s_dials s_refreshing s_endpoint s_log]; try done.
    + intros Hi. assert (critical (d_pc d0) = true) as Hc by (by destruct (d_pc d0)). apply E1 in Hc. congruence.
    + rewrite fmap_app. intros [Hin|Hin]%elem_of_app; [by apply E3|].
      apply list_elem_of_singleton in Hin. simpl in Hin. congruence.
  - intros m E. rewrite lookup_insert_is_Some'. right. by apply I2.
  - rewrite length_app. cbn [applied ce_generation]. rewrite I3, Zplus_mod_idemp_l. f_equal. simpl. lia.
  - rewrite fmap_app, length_app, Nat.add_1_r, seq_S, fmap_app, I4. f_equal. simpl. by rewrite <- D2, I3.
  - rewrite fmap_app. apply NoDup_app. split_and!; [done| |by apply NoDup_singleton].
    intros x Hx Hx'. apply list_elem_of_singleton in Hx'. simpl in Hx'. by subst.
  - intros m. rewrite fmap_app, lookup_insert_is_Some'. intros [Hin|Hin]%elem_of_app; [right; by apply I6|].
    apply list_elem_of_singleton in Hin. left. by rewrite Hin.
  - intros Hf. rewrite (I9 Hf). f_equal. unfold target. cbn. rewrite Hr. cbn. by rewrite lookup_insert_eq, Hn, Hpc.
Qed.

Lemma inv_lookup s n d answer :
  inv s → s_dials s !! n = Some d → d_pc d = Lookup → event_ok (LookupEnds n answer) →
  ∀ s', dial_step s n d (LookupEnds n answer) = Some s' → inv s'.
Proof.
  intros Hinv Hn Hpc Hok s' H. cbn in H. rewrite Hpc in H.
  pose proof (conn_of s n d Hinv Hn) as Hco. unfold conn_ok in Hco. rewrite Hpc in Hco.
  destruct (resolveEndpoint _ _ _) as [[addr lit]|e] eqn:Er; injection H as <-;
    (apply inv_go; rewrite ?Hpc; [done|done|done|by auto|done| |done|done|done]).
  - intros a [= <-]. right. apply resolveEndpoint_Ok in Er. unfold endpoint_from in Er.
    destruct (i_host _ Hinv) as [Hh Hp].
    destruct (ParseAddr (ce_host (s_endpoint s))) as [ip|] eqn:Ea.
    + destruct Er as [-> _]. split; [done|]. intros Hz. by eapply Hh, ParseAddr_zone, Unmap_zone.
    + destruct Er as (ip & ips & -> & -> & _). split; [done|]. intros Hz.
      eapply (Hok ip); [by left|by apply Unmap_zone].
  - done.
Qed.

Lemma inv_conn_step s n d d' :
  inv s → s_dials s !! n = Some d → d_generation d' = d_generation d → critical (d_pc d') = critical (d_pc d) →
  informed (d_pc d') = informed (d_pc d) → (refreshed_pc (d_pc d) = true → refreshed_pc (d_pc d') = true) →
  found (d_pc d') = found (d_pc d) → conn_ok d' →
  (∀ a, d_pc d' = Applying a ↔ d_pc d = Applying a) → inv (put n d' s).
Proof.
  intros Hinv Hn Hg Hc Hi Hr Hf Hco Ha. destruct (i_dials _ Hinv n d Hn) as [D1 D2 D3 D4 D5].
  eapply inv_put; [done|done| |naive_solver|naive_solver].
  constructor; [by rewrite Hc|by rewrite Hi, Hg|auto|by rewrite Hf|done].
Qed.

Lemma inv_dial_step s n d ev s' :
  inv s → s_dials s !! n = Some d → event_dial ev = Some n → event_ok ev → dial_step s n d ev = Some s' → inv s'.
Proof.
  intros Hinv Hn Hev Hok H. pose proof (conn_of s n d Hinv Hn) as Hco. unfold conn_ok in Hco.
  destruct ev; cbn in Hev; try done; injection Hev as ->;
    destruct (d_pc d) eqn:Hpc; try (unfold dial_step, refresh_step in H; rewrite Hpc in H; done);
    try (by eapply inv_set); try (by eapply inv_lookup); cbn in H; rewrite Hpc in H.
  - injection H as <-. by apply inv_begin.
  - destruct connected; injection H as <-.
    + eapply inv_conn_step; rewrite ?Hpc; try done; by auto.
    + apply inv_go; rewrite ?Hpc; try done; by auto.
  - destruct (d_expired d); [|done]. injection H as <-. apply inv_go; rewrite ?Hpc; try done.
    unfold conn_ok. simpl in *. congruence.
  - destruct entered_expired; [done|]. destruct refreshed; injection H as <-; apply inv_go; rewrite ?Hpc; done.
  - destruct (ce_literal _); [|done]. injection H as <-. apply inv_go; rewrite ?Hpc; done.
  - destruct (ce_literal _); [done|]. destruct (s_refreshing s) eqn:Hr; [done|]. injection H as <-. by apply inv_acquire.
  - destruct (_ && _); [|done]. injection H as <-. apply inv_go; rewrite ?Hpc; done.
  - destruct (_ =? _)%Z eqn:E; injection H as <-; bool_props; apply inv_go; rewrite ?Hpc; try done. by auto.
  - injection H as <-. destruct (i_dials _ Hinv n d Hn) as [_ _ _ D4 _]. rewrite Hpc in D4.
    case_bool_decide as E; apply inv_go; rewrite ?Hpc; try done; try (by left).
    intros a [= <-]. by right.
  - injection H as <-. by apply inv_apply.
  - injection H as <-. by apply inv_release.
  - destruct (hello _ _ _ _) as [[e|] ?]; injection H as <-; apply inv_go; rewrite ?Hpc; done.
  - injection H as <-. eapply inv_conn_step; rewrite ?Hpc; done.
Qed.

Lemma inv_call s n service deadline :
  inv s → s_dials s !! n = None → inv (put n (begin_dial s service deadline) s).
Proof.
  intros [I1 I2 I3 I4 I5 I6 I7 I8 I9] Hn.
  assert (s_refreshing s ≠ Some n) as Hr by (intros Hr; destruct (I2 n Hr); congruence).
  constructor; cbn [put s_dials s_refreshing s_endpoint s_log s_serverPubKey s_ipc_failed s_dev]; try done.
  - intros n0 d0 [[<- <-]|[Hne E]]%lookup_insert_Some.
    + assert (n ∉ (fst <$> s_log s)) as Hlog by (intros Hl; destruct (I6 n Hl); congruence).
      unfold begin_dial. destruct (negb _); [|destruct (s_closed s)]; by constructor.
    + apply (dial_ok_other s _ n); [by apply I1|by apply not_eq_sym|done|done|by left].
  - intros m E. rewrite lookup_insert_is_Some'. right. by apply I2.
  - intros m E. rewrite lookup_insert_is_Some'. right. by apply I6.
  - intros Hf. rewrite (I9 Hf). f_equal. unfold target. cbn.
    destruct (s_refreshing s) as [m|]; [|done]. cbn. rewrite lookup_insert_ne by congruence. done.
Qed.

Lemma dial_event_step s n ev :
  event_dial ev = Some n → step s ev = (d ← s_dials s !! n; dial_step s n d ev).
Proof. destruct ev; cbn; intros [= <-]; done. Qed.

Lemma dials_step s ev s' : inv s → event_ok ev → step s ev = Some s' → inv s'.
Proof.
  intros Hinv Hok H. destruct (event_dial ev) as [n|] eqn:Hev.
  - rewrite (dial_event_step s n ev Hev) in H. apply bind_Some in H as (d & Hn & H). by eapply inv_dial_step.
  - destruct ev; cbn in Hev, H; try done.
    + destruct (s_dials s !! n) eqn:Hn; [done|]. injection H as <-. by apply inv_call.
    + apply bind_Some in H as (d & Hn & H). injection H as <-.
      pose proof (conn_of s n d Hinv Hn) as Hco. by eapply inv_conn_step.
    + injection H as <-. destruct Hinv as [I1 I2 I3 I4 I5 I6 I7 I8 I9]. constructor; try done.
      intros n d E. by destruct (I1 n d E); constructor.
Qed.

Lemma dials_reachable c w s : fresh_client c w → reachable (initial c w) s → inv s.
Proof. intros Hf. induction 1; [by apply dials_initial|by eapply dials_step]. Qed.

(** ** Properties *)

(** C16: however dials interleave, a device that has accepted every endpoint
    given to it so far (no [SetPeerEndpoint] failed: what a refused write has
    left is wireguard-go's), of a client whose own public key is not the
    server's (see [Client.newClient_pins_the_server]), stays pinned to the one
    server: its only peer is the configured key with the configured preshared key and
    the one route, and that peer's address is the one the client records
    (between the two writes of a re-resolution, the one about to be
    recorded); at most one dial is re-resolving at a time.  The endpoint's host
    and the zones the resolver answers with are assumed to hold no newline. *)
Theorem reresolution_keeps_the_pin c w s :
  fresh_client c w → reachable (initial c w) s → s_ipc_failed s = false →
  view (s_dev s) = pinned_view own pub psk (target s)
  ∧ (s_refreshing s = None → target s = ce_addr (s_endpoint s))
  ∧ ∀ n d, s_dials s !! n = Some d → critical (d_pc d) = true ↔ s_refreshing s = Some n.
Proof.
  intros Hf Hr Hipc. pose proof (dials_reachable _ _ _ Hf Hr) as Hinv. split_and!.
  - by apply Hinv.
  - intros Hn. unfold target. by rewrite Hn.
  - intros n d Hn. apply (i_dials _ Hinv n d Hn).
Qed.

(** C21: failing dials share their lookups.  A dial completes at most one; the
    k-th to be completed was done by a dial that had started when exactly k
    had been completed; and while one is being done, nobody has completed one
    since its dial started.  The generation counts completed lookups. *)
Theorem lookups_are_shared c w s :
  fresh_client c w → reachable (initial c w) s →
  NoDup (fst <$> s_log s)
  ∧ (snd <$> s_log s) = ((λ i, Z.of_nat i mod 2 ^ 64)%Z <$> seq 0 (length (s_log s)))
  ∧ ce_generation (s_endpoint s) = (Z.of_nat (length (s_log s)) mod 2 ^ 64)%Z
  ∧ ∀ n d, s_dials s !! n = Some d → informed (d_pc d) = true → d_generation d = ce_generation (s_endpoint s).
Proof.
  intros Hf Hr. pose proof (dials_reachable _ _ _ Hf Hr) as Hinv. split_and!; [by apply Hinv..|].
  intros n d Hn Hi. symmetry. by apply (i_dials _ Hinv n d Hn).
Qed.

(** No connection leaks out of a dial: it returns an open one without an
    error, or an error with no connection left open. *)
Theorem dial_returns_a_connection_or_an_error c w s n d err :
  fresh_client c w → reachable (initial c w) s → s_dials s !! n = Some d → d_pc d = Returned err →
  match err with None => d_conn d = OpenConn | Some _ => d_conn d = NoConn ∨ d_conn d = ClosedConn end.
Proof.
  intros Hf Hr Hn Hpc. pose proof (conn_of s n d (dials_reachable _ _ _ Hf Hr) Hn) as Hco.
  unfold conn_ok in Hco. rewrite Hpc in Hco. destruct err; [|done]. destruct (d_conn d); auto; done.
Qed.

End invariant.

(** ** A spent budget ends the dial *)

Section progress.
Context {WG : WireGuard} {GU : GoUnicode}.

(** What the outside gives a dial at one point, in any order of the code;
    [o_first] says which ready case a select takes. *)
Record outcome := {
  o_now : Z; o_connected : bool; o_first : bool; o_answer : result (list Addr);
  o_io : helloIO; o_writer : writer
}.

(** The next action of a dial whose budget is spent. *)
Definition next_event (s : system) (n : nat) (o : outcome) (d : dial) : event :=
  match d_pc d with
  | Control => BeginControl n (o_now o)
  | Attempt _ => AttemptEnds n (o_connected o)
  | Select _ ee => if ee || o_first o then SelectDone n else SelectAfter n
  | Refresh => if ce_literal (s_endpoint s) then SkipLiteral n
               else if bool_decide (s_refreshing s = None) && o_first o then AcquireSlot n else GiveUpSlot n
  | Holding => CheckGeneration n
  | Lookup => LookupEnds n (o_answer o)
  | Compare _ => CompareAddr n
  | Setting _ => SetEndpoint n
  | Applying _ => Apply n
  | Releasing _ => ReleaseSlot n
  | Hello => HelloEnds n (o_io o) (o_writer o)
  | ClosingConn _ | Returned _ => CloseConn n
  end.

Definition rank (p : pc) : nat :=
  match p with
  | Control => 13 | Select _ false => 12 | Refresh => 11 | Holding => 10 | Lookup => 9 | Compare _ => 8
  | Setting _ => 7 | Applying _ => 6 | Releasing _ => 5 | Attempt _ => 4 | Select _ true => 3
  | Hello => 2 | ClosingConn _ => 1 | Returned _ => 0
  end.
Definition is_returned (d : dial) : Prop := match d_pc d with Returned _ => True | _ => False end.

Lemma expired_step s n d o :
  s_dials s !! n = Some d → d_expired d = true → ¬ is_returned d →
  ∃ s' d', dial_step s n d (next_event s n o d) = Some s' ∧ s_dials s' !! n = Some d'
    ∧ d_expired d' = true ∧ rank (d_pc d') < rank (d_pc d).
Proof.
  intros Hn He Hr. unfold next_event, dial_step, refresh_step, is_returned in *.
  assert (∀ (s1 : system) p, s_dials s1 = <[n := at_pc p d]> (s_dials s) → rank p < rank (d_pc d) →
    ∃ d', s_dials s1 !! n = Some d' ∧ d_expired d' = true ∧ rank (d_pc d') < rank (d_pc d)) as Hgo.
  { intros s1 p E Hlt. exists (at_pc p d). by rewrite E, lookup_insert_eq. }
  assert (∀ (s1 : system) p, s_dials s1 = <[n := at_pc p d]> (s_dials s) → rank p < rank (d_pc d) →
    ∃ s' d', Some s1 = Some s' ∧ s_dials s' !! n = Some d' ∧ d_expired d' = true
      ∧ rank (d_pc d') < rank (d_pc d)) as Hend.
  { intros s1 p E Hlt. destruct (Hgo s1 p E Hlt) as (d' & H). by exists s1, d'. }
  destruct (d_pc d) as [|r|r ee| | | |a|a|a|oe| |e|oe] eqn:Hpc; cbn; rewrite ?He; try done.
  - eexists _, _. split; [done|]. cbn. rewrite lookup_insert_eq. split_and!; [done|done|simpl; lia].
  - destruct (o_connected o).
    + eexists _, _. split; [done|]. cbn. rewrite lookup_insert_eq. split_and!; [done|done|simpl; lia].
    + eapply Hend; [done|simpl; lia].
  - destruct ee; cbn; [|destruct (o_first o)]; rewrite ?He; try (eapply Hend; [done|simpl; lia]).
    destruct r; eapply Hend; (done || simpl; lia).
  - destruct (ce_literal (s_endpoint s)) eqn:El; rewrite ?El; [eapply Hend; [done|simpl; lia]|].
    destruct (bool_decide (s_refreshing s = None) && o_first o) eqn:Eb; rewrite ?El.
    + bool_props. rewrite H. eapply Hend; [done|simpl; lia].
    + cbn. eapply Hend; [done|simpl; lia].
  - destruct (_ =? _)%Z; eapply Hend; (done || simpl; lia).
  - destruct (resolveEndpoint _ _ _) as [[]|]; eapply Hend; (done || simpl; lia).
  - destruct (bool_decide _); eapply Hend; (done || simpl; lia).
  - destruct (SetPeerEndpoint _ _ _) as [[] ?]; eapply Hend; (done || simpl; lia).
  - eapply Hend; [done|simpl; lia].
  - destruct oe; eapply Hend; (done || simpl; lia).
  - destruct (hello _ _ _ _) as [[] ?]; eapply Hend; (done || simpl; lia).
  - eexists _, _. split; [done|]. cbn. rewrite lookup_insert_eq. split_and!; [done|done|simpl; lia].
Qed.

Lemma is_returned_dec d : (∃ err, d_pc d = Returned err) ∨ ¬ is_returned d.
Proof. unfold is_returned. destruct (d_pc d) as [| | | | | | | | | | | |err]; eauto. Qed.

Lemma next_event_dial s n o d : event_dial (next_event s n o d) = Some n.
Proof. unfold next_event. repeat case_match; done. Qed.

(** Once a dial's budget is spent it returns within thirteen actions of
    its own, whatever the network, the resolver and the server do then, and
    even while another dial holds the slot for re-resolving. *)
Theorem expired_dials_end s n d (o : pc → outcome) :
  s_dials s !! n = Some d → d_expired d = true →
  ∃ evs s', run step s evs = Some s' ∧ length evs ≤ rank (d_pc d)
    ∧ Forall (λ ev, event_dial ev = Some n ∧ ∃ s1 d1, ev = next_event s1 n (o (d_pc d1)) d1) evs
    ∧ ∃ d' err, s_dials s' !! n = Some d' ∧ d_pc d' = Returned err.
Proof.
  intros Hn He.
  set (P := λ s, ∃ d, s_dials s !! n = Some d ∧ d_expired d = true).
  set (end_ := λ s, ∃ d err, s_dials s !! n = Some d ∧ d_pc d = Returned err).
  set (measure := λ s, match s_dials s !! n with Some d => rank (d_pc d) | None => 0 end).
  destruct (run_to_end step P end_
    (λ ev, event_dial ev = Some n ∧ ∃ s1 d1, ev = next_event s1 n (o (d_pc d1)) d1) measure)
    with (s := s) as (evs & s' & R & _ & Hend & Hl & HF); [| |].
  - intros s1 (d1 & Hn1 & He1). destruct (is_returned_dec d1) as [[err Hpc]|Hr]; [left; by exists d1, err|right].
    destruct (expired_step s1 n d1 (o (d_pc d1))) as (s2 & d2 & H1 & H2 & H3 & H4); [done..|].
    exists (next_event s1 n (o (d_pc d1)) d1), s2. split_and!.
    + apply next_event_dial.
    + by exists s1, d1.
    + rewrite (dial_event_step s1 n) by apply next_event_dial. by rewrite Hn1.
    + by exists d2.
    + unfold measure. by rewrite Hn1, H2.
  - by exists d.
  - exists evs, s'. unfold measure in Hl. rewrite Hn in Hl. done.
Qed.

(** The message of a dial that timed out depends on the endpoint and the
    configured timeout only: for a timeout of whole tenths of a second it says
    exactly that timeout, though up to fifty milliseconds pass between the
    start of the budget and the start of the dial. *)
Theorem timeout_message_is_constant e timeout began start :
  (0 < timeout < 2 ^ 63)%Z → (timeout mod (100 * Millisecond) = 0)%Z →
  (0 <= start - began <= 50 * Millisecond)%Z →
  handshakeTimeoutError e (handshakeBound (began + timeout) start)
  = handshakeTimeoutError e timeout.
Proof.
  intros Ht Hm Hs. f_equal. unfold handshakeBound.
  replace (Z.max (- 2 ^ 63) (Z.min (2 ^ 63 - 1) (began + timeout - start))) with (timeout - (start - began))%Z.
  2:{ unfold Millisecond in *. lia. }
  assert (100 * Millisecond <= timeout)%Z.
  { apply Z.div_exact in Hm; [|unfold Millisecond; lia]. unfold Millisecond in *. 
    assert (0 < timeout / (100 * 1000000))%Z; lia. }
  apply Round_short; unfold Millisecond in *; lia.
Qed.

End progress.

(** ** Two dials of one client *)

#[local] Existing Instance demo_unicode.
#[local] Existing Instance demo_client_device.

Definition demo_c : client :=
  from_Ok {| cl_endpoint := demo_endpoint; cl_serverPubKey := []; cl_serverAddr := AddrPortFrom AddrNone 0;
             cl_dialTimeout := 0; cl_dev := {| td_tun := false; td_dev := None; td_closed := true |};
             cl_closed := true |} (fst demo_client).
Definition demo_w : wg := default wg_new (td_dev (cl_dev demo_c)).
Definition demo_own : gostring := default [] (uv_private_key (view demo_w)).
Definition demo_initial : system := initial demo_c demo_w.

(** Both dials fail to connect; the first re-resolves while the second waits
    for the slot, and the second then finds the generation changed. *)
Definition demo_lookup : list event := [
  DialCall 0 (#"primary-db") 10000000000; DialCall 1 (#"primary-db") 10000000000;
  BeginControl 0 1; BeginControl 1 2; AttemptEnds 0 false; AttemptEnds 1 false; SelectAfter 0; SelectAfter 1;
  AcquireSlot 0; CheckGeneration 0; LookupEnds 0 (Ok [Addr4 3221225995]); CompareAddr 0; SetEndpoint 0].
Definition demo_moved : list event :=
  demo_lookup ++ [Apply 0; ReleaseSlot 0; AcquireSlot 1; CheckGeneration 1; ReleaseSlot 1;
    AttemptEnds 0 true; HelloEnds 0 (demo_helloIO [frameVersion; statusDenied]) (mkWriter [] None); CloseConn 0].
Definition demo_after (evs : list event) : system := default demo_initial (run step demo_initial evs).
Definition demo_dial (n : nat) (s : system) : dial := default (begin_dial s [] 0) (s_dials s !! n).

Lemma demo_fresh : fresh_client demo_own zero_hex zero_hex demo_c demo_w.
Proof.
  constructor.
  - by vm_compute.
  - by vm_compute.
  - by vm_compute.
  - by vm_compute.
  - apply (bool_decide_eq_true_1 _). by vm_compute.
  - by vm_compute.
Qed.

Lemma demo_after_reachable evs :
  Forall event_ok evs → bool_decide (is_Some (run step demo_initial evs)) = true →
  reachable demo_initial (demo_after evs).
Proof.
  intros Hok H. apply (run_reachable step (reachable demo_initial) event_ok (reach_step demo_initial) evs demo_initial);
    [constructor|exact Hok|by apply from_Some].
Qed.

Lemma demo_lookup_ok : Forall event_ok demo_lookup.
Proof.
  repeat (apply Forall_cons; split; [first [exact I|intros a ->%list_elem_of_singleton; apply not_elem_of_nil]|]).
  apply Forall_nil. exact I.
Qed.

Lemma demo_lookup_reachable : reachable demo_initial (demo_after demo_lookup).
Proof. apply demo_after_reachable; [exact demo_lookup_ok|by vm_compute]. Qed.

Lemma demo_moved_reachable : reachable demo_initial (demo_after demo_moved).
Proof.
  apply demo_after_reachable; [|by vm_compute].
  apply Forall_app. split; [exact demo_lookup_ok|]. repeat (apply Forall_cons; split; [exact I|]).
  apply Forall_nil. exact I.
Qed.

Lemma reresolution_keeps_the_pin_witness :
  view (s_dev (demo_after demo_lookup))
  = pinned_view demo_own zero_hex zero_hex (AddrPortFrom (Addr4 3221225995) 51820)
  ∧ ce_addr (s_endpoint (demo_after demo_lookup)) = AddrPortFrom (Addr4 3221225994) 51820
  ∧ ce_addr (s_endpoint (demo_after demo_moved)) = AddrPortFrom (Addr4 3221225995) 51820.
Proof.
  split_and!; [|by vm_compute|by vm_compute].
  destruct (reresolution_keeps_the_pin demo_own zero_hex zero_hex demo_c demo_w (demo_after demo_lookup)
    demo_fresh demo_lookup_reachable) as (H & _ & _); [by vm_compute|].
  assert (target (demo_after demo_lookup) = AddrPortFrom (Addr4 3221225995) 51820) as <- by by vm_compute.
  exact H.
Defined.

Lemma lookups_are_shared_witness :
  NoDup (fst <$> s_log (demo_after demo_moved)) ∧ s_log (demo_after demo_moved) = [(0, 0%Z)]
  ∧ d_generation (demo_dial 1 (demo_after demo_moved)) = 0%Z.
Proof.
  split_and!; [|by vm_compute|by vm_compute].
  exact (proj1 (lookups_are_shared demo_own zero_hex zero_hex demo_c demo_w (demo_after demo_moved)
    demo_fresh demo_moved_reachable)).
Defined.

Lemma dial_returns_a_connection_or_an_error_witness :
  d_conn (demo_dial 0 (demo_after demo_moved)) = NoConn ∨ d_conn (demo_dial 0 (demo_after demo_moved)) = ClosedConn.
Proof.
  pose proof (dial_returns_a_connection_or_an_error demo_own zero_hex zero_hex demo_c demo_w (demo_after demo_moved) 0
    (demo_dial 0 (demo_after demo_moved))
    (match d_pc (demo_dial 0 (demo_after demo_moved)) with Returned err => err | _ => None end)
    demo_fresh demo_moved_reachable) as H.
  refine (H _ _); [|by vm_compute]. apply from_Some. by vm_compute.
Defined.

(** The budget of the second dial runs out while the first holds the slot. *)
Definition demo_stuck : system := demo_after (demo_lookup ++ [Expire 1 false]).

Lemma expired_dials_end_witness :
  s_refreshing demo_stuck = Some 0
  ∧ ∃ evs s', run step demo_stuck evs = Some s' ∧ length evs ≤ 11
    ∧ ∃ d' err, s_dials s' !! 1 = Some d' ∧ d_pc d' = Returned err.
Proof.
  split; [by vm_compute|].
  destruct (expired_dials_end demo_stuck 1 (demo_dial 1 demo_stuck)
    (λ _, {| o_now := 0; o_connected := false; o_first := true; o_answer := Ok []; o_io := demo_helloIO [];
             o_writer := mkWriter [] None |})) as (evs & s' & R & Hl & _ & Hend).
  - apply from_Some. by vm_compute.
  - by vm_compute.
  - exists evs, s'. split_and!; [exact R|exact Hl|exact Hend].
Defined.

Lemma timeout_message_is_constant_witness :
  handshakeTimeoutError demo_endpoint (handshakeBound (7 + 10000000000) 20000007)
  = handshakeTimeoutError demo_endpoint 10000000000.
Proof. apply timeout_message_is_constant; [lia|by vm_compute|unfold Millisecond; lia]. Defined.

End Dial.
