(* ===== verification/ClientSecrecy.v ===== *)
(** * Keys stay out of a client's errors ([newClient], [dialControl] of
      [client.go])

    Two clients that differ in nothing but the bytes of their keys: the errors
    of their construction are the same, and so is everything their dials do
    and return.  This is [Secrecy] for the other end of the tunnel, and it
    assumes the same of wireguard-go. *)

From S2P Require Import Prelude GoStrings GoEncoding GoNetip GoIO GoNet Policy Secret Yaml Config Device Limiter Server Secrecy Wire Client Dial.
Import Secret Config Device Server Secrecy Client Dial.

Module ClientSecrecy.

Section clients.
Context {WG : WireGuard} {GU : GoUnicode} (related : wg → wg → Prop) (Hblind : blind related).
Context (s1 s2 : secretStore) (Hstore : store_alike s1 s2).

(** ** Lemmas: construction *)

(** What two clients have in hand may differ in the keys. *)
Record inputs_alike (x y : clientInputs) : Prop := {
  ia_host : ci_host x = ci_host y; ia_port : ci_port x = ci_port y; ia_ip : ci_tunnelIP x = ci_tunnelIP y;
  ia_timeout : ci_dialTimeout x = ci_dialTimeout y; ia_endpoint : ci_endpoint x = ci_endpoint y;
  ia_literal : ci_literal x = ci_literal y;
  ia_key : secret_alike (ci_privateKey x) (ci_privateKey y); ia_psk : secret_alike (ci_psk x) (ci_psk y)
}.

Lemma clientSecret_alike what ref :
  res_alike secret_alike (clientSecret what (ss_os s1) (ss_external s1) ref) (clientSecret what (ss_os s2) (ss_external s2) ref).
Proof.
  unfold clientSecret. pose proof (Resolve_alike s1 s2 ref Hstore) as H.
  destruct (Secret.Resolve (ss_os s1) _ _), (Secret.Resolve (ss_os s2) _ _); cbn in H |- *; try done. by subst.
Qed.

Lemma newClient_inputs_alike names cfg :
  res_alike inputs_alike (newClient_inputs (ss_os s1) (ss_external s1) names cfg)
                         (newClient_inputs (ss_os s2) (ss_external s2) names cfg).
Proof.
  unfold newClient_inputs. eapply (res_alike_bind eq); [by apply res_alike_same|]. intros [[[host port] ip] to] _ <-.
  eapply (res_alike_bind eq); [by apply res_alike_same|]. intros [ep lit] _ <-.
  eapply res_alike_bind; [apply clientSecret_alike|]. intros k1 k2 Hk.
  eapply res_alike_bind; [apply clientSecret_alike|]. intros p1 p2 Hp. by constructor.
Qed.

Record client_alike (x y : client) : Prop := {
  ca_endpoint : cl_endpoint x = cl_endpoint y; ca_key : cl_serverPubKey x = cl_serverPubKey y;
  ca_addr : cl_serverAddr x = cl_serverAddr y; ca_timeout : cl_dialTimeout x = cl_dialTimeout y;
  ca_dev : tunnel_alike related (cl_dev x) (cl_dev y); ca_closed : cl_closed x = cl_closed y
}.

Lemma newClient_device_alike tun cfg x y :
  inputs_alike x y → endpoint_wf (ci_endpoint x) →
  res_alike client_alike (fst (newClient_device tun cfg x)) (fst (newClient_device tun cfg y))
  ∧ snd (newClient_device tun cfg x) = snd (newClient_device tun cfg y).
Proof.
  intros [Hh Hpo Hip Hto Hep Hlit Hk Hp] Hwf. unfold newClient_device.
  set (o1 := {| do_TunnelIP := ci_tunnelIP x |}). set (o2 := {| do_TunnelIP := ci_tunnelIP y |}).
  destruct (newTunnelDevice_alike related Hblind tun o1 o2) as [Ht Hrs]; [done..|].
  destruct (newTunnelDevice tun o1) as [[t1|e1] rs1], (newTunnelDevice tun o2) as [[t2|e2] rs2]; cbn in Ht, Hrs; try done; subst.
  destruct Ht as [T1 T2 T3]. destruct (td_dev t1) as [w1|], (td_dev t2) as [w2|]; cbn in T2; try done.
  set (p1 := {| dp_PublicKey := _; dp_PresharedKey := ci_psk x; dp_AllowedIP := _; dp_Endpoint := _ |}).
  set (p2 := {| dp_PublicKey := _; dp_PresharedKey := ci_psk y; dp_AllowedIP := _; dp_Endpoint := _ |}).
  assert (op_alike related (AddPeer p1 w1) (AddPeer p2 w2)) as [E Hd].
  { apply device_applyPeer_alike; [done| |done|done]. by constructor. }
  destruct (AddPeer p1 w1) as [e1 w1'], (AddPeer p2 w2) as [e2 w2']. cbn in E, Hd. subst e2.
  set (t1' := {| td_tun := td_tun t1 |}). set (t2' := {| td_tun := td_tun t2 |}).
  assert (tunnel_alike related t1' t2') as Ht' by by constructor.
  destruct e1 as [e|].
  - split; [done|]. cbn [snd]. f_equal. by apply (Close_alike related).
  - split; [|done]. constructor; try done. cbn. by rewrite Hh, Hpo, Hlit, Hep.
Qed.

Lemma newClient_alike names tun cfg :
  nl ∉ cc_Endpoint cfg → (∀ host l a, names host = Ok l → a ∈ l → nl ∉ Zone a) →
  res_alike client_alike (fst (newClient (ss_os s1) (ss_external s1) names tun cfg))
                         (fst (newClient (ss_os s2) (ss_external s2) names tun cfg))
  ∧ snd (newClient (ss_os s1) (ss_external s1) names tun cfg) = snd (newClient (ss_os s2) (ss_external s2) names tun cfg).
Proof.
  intros Hnl Hnames. unfold newClient. pose proof (newClient_inputs_alike names cfg) as H.
  destruct (newClient_inputs (ss_os s1) _ _ _) as [x|e1] eqn:E1, (newClient_inputs (ss_os s2) _ _ _) as [y|e2]; cbn in H; try done.
  apply newClient_device_alike; [done|].
  exact (proj1 (client_endpoint_wf _ _ _ _ _ Hnl Hnames (newClient_inputs_Ok _ _ _ _ _ E1))).
Qed.

(** ** Lemmas: dialing *)

Record system_alike (x y : system) : Prop := {
  sy_endpoint : s_endpoint x = s_endpoint y; sy_key : s_serverPubKey x = s_serverPubKey y;
  sy_dev : related (s_dev x) (s_dev y); sy_refreshing : s_refreshing x = s_refreshing y;
  sy_closed : s_closed x = s_closed y; sy_dials : s_dials x = s_dials y;
  sy_log : s_log x = s_log y; sy_failed : s_ipc_failed x = s_ipc_failed y
}.

Lemma SetPeerEndpoint_alike k addr d1 d2 :
  related d1 d2 → op_alike related (SetPeerEndpoint k addr d1) (SetPeerEndpoint k addr d2).
Proof.
  intros Hd. unfold SetPeerEndpoint. destruct (keyToHex k); [|done]. destruct (_ || _); [done|].
  apply ipc_alike; [done|apply same_text_refl|done].
Qed.

Lemma dial_step_alike x y n d ev : system_alike x y →
  opt_alike system_alike (dial_step x n d ev) (dial_step y n d ev).
Proof.
  intros [H1 H2 H3 H4 H5 H6 H7 H8]. destruct x as [ep key dx r c ds lg f], y as [ep' key' dy r' c' ds' lg' f'].
  cbn in *. subst. unfold dial_step, refresh_step. cbn [s_endpoint s_serverPubKey s_dev s_refreshing].
  pose proof (λ addr, SetPeerEndpoint_alike key' addr dx dy H3) as Hset.
  destruct ev, (d_pc d); try done; repeat case_match; simplify_eq; try done; try (by constructor);
    destruct (Hset addr) as [E Hd];
    repeat match goal with H : SetPeerEndpoint _ _ _ = _ |- _ => rewrite H in E, Hd; clear H end;
    cbn in E, Hd; simplify_eq; by constructor.
Qed.

Lemma step_alike x y ev : system_alike x y → opt_alike system_alike (step x ev) (step y ev).
Proof.
  intros H. destruct (event_dial ev) as [n|] eqn:Hev.
  - rewrite !(dial_event_step _ n) by done. rewrite <- (sy_dials _ _ H).
    destruct (s_dials x !! n) as [d|]; [|done]. by apply dial_step_alike.
  - destruct H as [H1 H2 H3 H4 H5 H6 H7 H8]. destruct ev; try done; cbn.
    + rewrite <- H6. unfold begin_dial. rewrite <- H5. destruct (s_dials x !! n); [done|]. constructor; cbn; congruence || done.
    + rewrite <- H6. destruct (s_dials x !! n); [|done]. constructor; cbn; congruence || done.
Qed.

Lemma run_alike x y evs : system_alike x y → opt_alike system_alike (run step x evs) (run step y evs).
Proof.
  revert x y. induction evs as [|ev evs IH]; intros x y H; [done|]. cbn [run].
  pose proof (step_alike x y ev H) as H1. destruct (step x ev), (step y ev); try done. by apply IH.
Qed.

(** ** Properties *)

(** C6: key material does not show at the client either.  Take two clients
    whose stores differ in nothing but the bytes of keys, on devices
    wireguard-go keeps alike.  Then [newClient] fails for both with the same
    error or for neither, after opening and closing the same; and from there
    the same events are possible for the dials of both, and leave them with
    the same endpoint and the same dials: what each returned, error texts and
    all, and how far it got. *)
Theorem client_keys_do_not_show names tun cfg evs :
  nl ∉ cc_Endpoint cfg → (∀ host l a, names host = Ok l → a ∈ l → nl ∉ Zone a) →
  let '(r1, rs1) := newClient (ss_os s1) (ss_external s1) names tun cfg in
  let '(r2, rs2) := newClient (ss_os s2) (ss_external s2) names tun cfg in
  rs1 = rs2
  ∧ match r1, r2 with
    | Err e1, Err e2 => e1 = e2
    | Ok c1, Ok c2 =>
        match td_dev (cl_dev c1), td_dev (cl_dev c2) with
        | Some w1, Some w2 =>
            match run step (initial c1 w1) evs, run step (initial c2 w2) evs with
            | Some x, Some y => s_dials x = s_dials y ∧ s_endpoint x = s_endpoint y
            | None, None => True
            | _, _ => False
            end
        | None, None => True
        | _, _ => False
        end
    | _, _ => False
    end.
Proof.
  intros Hnl Hnames. destruct (newClient_alike names tun cfg Hnl Hnames) as [H Hrs].
  destruct (newClient (ss_os s1) _ _ _ _) as [r1 rs1], (newClient (ss_os s2) _ _ _ _) as [r2 rs2]. cbn [fst snd] in H, Hrs.
  split; [done|]. destruct r1 as [c1|e1], r2 as [c2|e2]; cbn in H; try done.
  destruct H as [C1 C2 C3 C4 [C5 C6 C7] C8]. destruct (td_dev (cl_dev c1)) as [w1|], (td_dev (cl_dev c2)) as [w2|]; try done.
  assert (system_alike (initial c1 w1) (initial c2 w2)) as Hs by by constructor.
  pose proof (run_alike _ _ evs Hs) as Hr. destruct (run step (initial c1 w1) evs), (run step (initial c2 w2) evs); try done.
  by destruct Hr.
Qed.


End clients.

(** ** A client whose keys are rotated *)

#[local] Existing Instance demo_unicode.
#[local] Existing Instance demo_client_device.

Definition demo_client_store : secretStore := {| ss_os := demo_client_os; ss_external := None |}.
Definition demo_rotated_store : secretStore := {|
  ss_os := {| os_Open := os_Open demo_client_os;
              os_LookupEnv := λ n, if bool_decide (n = #"OWN_KEY") then Some zero_key
                                   else if bool_decide (n = #"PSK") then Some other_key else None |};
  ss_external := None |}.

Lemma demo_keys_alike_sym : alike other_key zero_key.
Proof. symmetry. apply demo_keys_alike. Qed.
Lemma demo_stores_alike : store_alike demo_client_store demo_rotated_store.
Proof.
  split; [split|done]; [done|]. intros name. cbn.
  destruct (bool_decide _); [exact demo_keys_alike_sym|]. destruct (bool_decide _); [apply demo_keys_alike|done].
Qed.
Lemma client_device_blind : blind (λ _ _ : wg, True).
Proof. by constructor. Qed.

Definition demo_rotated_client := newClient (ss_os demo_rotated_store) None demo_names None demo_client_config.
Definition demo_rotated_c : client := from_Ok demo_c (fst demo_rotated_client).
Definition demo_rotated_initial : system :=
  initial demo_rotated_c (default wg_new (td_dev (cl_dev demo_rotated_c))).

Lemma made {A B} (d : A) (x : result A * B) : is_Ok (fst x) = true → x = (Ok (from_Ok d (fst x)), snd x).
Proof. intros H. destruct x as [r b]. cbn in *. by rewrite <- from_Ok_eq. Qed.

(** The keys are not the same, and the dials of [demo_moved] do not show it. *)
Lemma client_keys_do_not_show_witness :
  uv_private_key (view (s_dev demo_rotated_initial)) ≠ uv_private_key (view (s_dev demo_initial))
  ∧ ∃ y, run step demo_rotated_initial demo_moved = Some y ∧ s_dials y = s_dials (demo_after demo_moved).
Proof.
  split; [apply (bool_decide_eq_true_1 _); by vm_compute|].
  pose proof (client_keys_do_not_show (λ _ _, True) client_device_blind demo_client_store demo_rotated_store
    demo_stores_alike demo_names None demo_client_config demo_moved) as H.
  cbn [ss_os ss_external demo_client_store] in H.
  change (newClient demo_client_os None demo_names None demo_client_config) with demo_client in H.
  change (newClient (ss_os demo_rotated_store) (ss_external demo_rotated_store) demo_names None demo_client_config)
    with demo_rotated_client in H.
  rewrite (made demo_c demo_client) in H by by vm_compute.
  rewrite (made demo_c demo_rotated_client) in H by by vm_compute.
  fold demo_rotated_c in H. change (from_Ok demo_c (fst demo_client)) with demo_c in H.
  rewrite (from_Some wg_new (td_dev (cl_dev demo_c))) in H by by vm_compute.
  rewrite (from_Some wg_new (td_dev (cl_dev demo_rotated_c))) in H by by vm_compute.
  fold demo_w demo_initial demo_rotated_initial in H.
  rewrite (from_Some demo_initial (run step demo_initial demo_moved)) in H by by vm_compute.
  destruct (H ltac:(apply (bool_decide_eq_true_1 _); by vm_compute) demo_names_plain) as [_ Hr].
  destruct (run step demo_rotated_initial demo_moved) as [y|]; [|destruct Hr].
  exists y. split; [reflexivity|]. symmetry. exact (proj1 Hr).
Defined.

End ClientSecrecy.
