(* ===== verification/DialTime.v ===== *)
(** * Dialing in time ([Dial], [dialControl], [resolveEndpoint], [helloDeadline]
      of [client.go])

    The dials of [Dial] with a clock.  Three things are assumed of what runs
    them, each up to a [delay]: a library call that is given a context or a
    deadline returns when that is over, a timer fires when it is due, and a
    goroutine that can take its next step takes it.  Which steps a dial can
    take is what [Dial] says, so a dial that waits for the slot of another
    waits for as long as [Dial] lets it: nothing here ends that wait.  Time and
    the actions of the dials interleave freely within that, and never get
    stuck. *)

From S2P Require Import Prelude GoStrings GoNetip GoIO GoNet Wire Secret Config Device Client Dial.
Import Wire Config Device Client Dial.

Module DialTime.

Definition clientDialAttemptTimeout : Z := 2 * Second.
Definition clientDialRetryInterval : Z := 250 * Millisecond.
Definition clientEndpointResolveTimeout : Z := 10 * Second.

(** [context.WithTimeout]: the deadline of the context it returns. *)
Definition WithTimeout (now timeout : Z) (parent : option Z) : Z :=
  let deadline := (now + timeout)%Z in
  match parent with
  | Some d => if (d <? deadline)%Z then d else deadline
  | None => deadline
  end.

(** When a dial was called, when it got to where it is, the attempts it has
    made, and since when it has been able to go on by itself. *)
Record clock := { c_called : Z; c_entered : Z; c_attempts : nat; c_since : Z }.
Definition start_clock (now : Z) : clock :=
  {| c_called := now; c_entered := now; c_attempts := 0; c_since := now |}.
Definition enter (now : Z) (attempt : bool) (c : clock) : clock :=
  {| c_called := c_called c; c_entered := now;
     c_attempts := if attempt then S (c_attempts c) else c_attempts c; c_since := now |}.
Definition wake (now : Z) (c : clock) : clock :=
  {| c_called := c_called c; c_entered := c_entered c; c_attempts := c_attempts c; c_since := now |}.

(** When the library call a dial is in returns at the latest: an attempt and a
    lookup have a timeout of their own, the write and the read of the hello
    exchange have a deadline each, and all of them end with the budget.  Where
    a dial is in no such call there is none. *)
Definition call_limit (d : dial) (entered : Z) : option Z :=
  match d_pc d with
  | Attempt _ => Some (WithTimeout entered clientDialAttemptTimeout (Some (d_deadline d)))
  | Lookup => Some (WithTimeout entered clientEndpointResolveTimeout (Some (d_deadline d)))
  | Hello => Some (helloDeadline (helloDeadline entered (Some (d_deadline d))) (Some (d_deadline d)))
  | _ => None
  end.

Definition returned (p : pc) : bool := match p with Returned _ => true | _ => false end.

(** When a budget is spent: a context whose parent is late already is spent
    at once. *)
Definition due (c : clock) (d : dial) : Z := Z.max (c_called c) (d_deadline d).

Section timed.
Context {WG : WireGuard} {GU : GoUnicode}.

Record timed := { t_sys : system; t_now : Z; t_clocks : gmap nat clock }.

Inductive tevent :=
  | Wait (dt : Z)
  | Begin (n : nat) (service : gostring) (ctx : option Z)   (* [Dial], with the deadline of [ctx] *)
  | Act (ev : event).

Context (timeout delay : Z).

(** The steps a dial takes by itself, with no call or timer to wait for (what
    the clock says when [BeginControl] reads it does not matter). *)
Definition own_steps (n : nat) : list event :=
  [BeginControl n 0; SelectDone n; SkipLiteral n; AcquireSlot n; GiveUpSlot n; CheckGeneration n; CompareAddr n;
   SetEndpoint n; Apply n; ReleaseSlot n; CloseConn n].
Definition enabled (s : system) (n : nat) (d : dial) (ev : event) : bool :=
  match dial_step s n d ev with Some _ => true | None => false end.
Definition can_go (s : system) (n : nat) (d : dial) : bool := existsb (enabled s n d) (own_steps n).

(** The instants a running dial must not let pass by more than [delay]: the
    end of the call it is in, the retry timer it waits for, the moment it could
    go on, and the end of its budget. *)
Definition owed (s : system) (n : nat) (d : dial) (c : clock) : list Z :=
  match call_limit d (c_entered c) with Some l => [Z.max (c_entered c) l] | None => [] end
  ++ (if enabled s n d (SelectAfter n) then [c_entered c + clientDialRetryInterval]%Z else [])
  ++ (if can_go s n d then [c_since c] else [])
  ++ (if d_expired d then [] else [due c d]).

(** Nothing is late at [now]. *)
Definition in_time (now : Z) (s : system) (n : nat) (d : dial) (c : clock) : bool :=
  returned (d_pc d) || forallb (λ l, (now <=? l + delay)%Z) (owed s n d c).
Definition all_in_time (now : Z) (t : timed) : bool :=
  forallb (λ e, match t_clocks t !! fst e with
                | Some c => in_time now (t_sys t) (fst e) (snd e) c
                | None => false
                end) (map_to_list (s_dials (t_sys t))).

(** What an action needs of the clock. *)
Definition ready (t : timed) (ev : event) : bool :=
  match ev with
  | DialCall _ _ _ => false
  | Expire n canceled =>
      match s_dials (t_sys t) !! n with
      | Some d => canceled || negb (d_expired d) && (d_deadline d <=? t_now t)%Z   (* it ends once *)
      | None => false
      end
  | BeginControl _ start => (start =? t_now t)%Z
  | SelectAfter n =>
      match t_clocks t !! n with
      | Some c => (c_entered c + clientDialRetryInterval <=? t_now t)%Z
      | None => false
      end
  | _ => true
  end.
Definition is_attempt (ev : event) : bool := match ev with AttemptEnds _ _ => true | _ => false end.
(** The clocks after an action: the one of the dial that acts starts over, and
    who could not go on before can do so from now at the earliest. *)
Definition waits (t : timed) (n : nat) : bool :=
  match s_dials (t_sys t) !! n with Some d => negb (can_go (t_sys t) n d) | None => false end.
Definition clocks_after (t : timed) (ev : event) : gmap nat clock :=
  let woken := map_imap (λ n c, Some (if waits t n then wake (t_now t) c else c)) (t_clocks t) in
  match event_dial ev with Some n => alter (enter (t_now t) (is_attempt ev)) n woken | None => woken end.

Definition timed_step (t : timed) (tev : tevent) : option timed :=
  match tev with
  | Wait dt =>
      if (0 <? dt)%Z && all_in_time (t_now t + dt) t
      then Some {| t_sys := t_sys t; t_now := t_now t + dt; t_clocks := t_clocks t |} else None
  | Begin n service ctx =>
      s' ← step (t_sys t) (DialCall n service (WithTimeout (t_now t) timeout ctx));
      Some {| t_sys := s'; t_now := t_now t;
              t_clocks := <[n := start_clock (t_now t)]> (t_clocks t) |}
  | Act ev =>
      if ready t ev then
        s' ← step (t_sys t) ev;
        Some {| t_sys := s'; t_now := t_now t; t_clocks := clocks_after t ev |}
      else None
  end.

Definition timed_initial (c : client) (w : wg) (now : Z) : timed :=
  {| t_sys := initial c w; t_now := now; t_clocks := ∅ |}.

Inductive treachable (t0 : timed) : timed → Prop :=
  | treach_init : treachable t0 t0
  | treach_step t tev t' : treachable t0 t → timed_step t tev = Some t' → treachable t0 t'.

End timed.

(** ** Lemmas: one action of a dial *)

(** Where the retry interval has been waited out for the next attempt. *)
Definition rested (p : pc) : bool :=
  match p with
  | Attempt _ | Refresh | Holding | Lookup | Compare _ | Setting _ | Applying _ | Releasing _ => true
  | _ => false
  end.
(** The attempts whose retry interval has not been waited out. *)
Definition unrested (p : pc) : Z := if rested p then 0 else 1.
Definition started (p : pc) : bool := match p with Control | Returned _ => false | _ => true end.

Arguments can_go : simpl never.

Section actions.
Context {WG : WireGuard} {GU : GoUnicode}.

Lemma rank_bound p : rank p ≤ 13.
Proof. destruct p as [| |? []| | | | | | | | | |]; cbn; lia. Qed.

(** What an action does to the dial that makes it. *)
Record moves (ev : event) (d d' : dial) : Prop := {
  mv_deadline : d_deadline d' = d_deadline d;
  mv_expired : d_expired d' = d_expired d;
  mv_canceled : d_canceled d' = d_canceled d;
  mv_running : returned (d_pc d) = false;
  mv_start : started (d_pc d') = true →
    d_start d' = match ev with BeginControl _ now => now | _ => d_start d end;
  mv_started : started (d_pc d) = true ∨ ∃ n now, ev = BeginControl n now;
  mv_control : d_pc d' ≠ Control;
  mv_rank : d_expired d = true → rank (d_pc d') < rank (d_pc d);
  mv_rested : rested (d_pc d') = true →
    rested (d_pc d) = true ∧ is_attempt ev = false ∨ d_pc d = Control ∨ ∃ n, ev = SelectAfter n;
  mv_attempt : is_attempt ev = true → rested (d_pc d) = true ∧ rested (d_pc d') = false;
  mv_select : ∀ r, d_pc d' = Select r true → d_expired d = true
}.

Lemma dial_step_moves s n d ev s' :
  dial_step s n d ev = Some s' →
  ∃ d', s_dials s' = <[n := d']> (s_dials s) ∧ moves ev d d'
        ∧ ce_literal (s_endpoint s') = ce_literal (s_endpoint s).
Proof.
  intros H. unfold dial_step, refresh_step in H.
  destruct ev, (d_pc d) eqn:Hpc; try done;
    repeat case_match; simplify_eq; eexists; (split; [reflexivity|split; [|done]]);
    constructor; rewrite ?Hpc; cbn; try done; try lia; try (intros; by eauto);
    try (destruct (d_expired d); done); intros; repeat case_match; simplify_eq; lia.
Qed.

Lemma step_moves s n ev s' :
  event_dial ev = Some n → step s ev = Some s' →
  ∃ d d', s_dials s !! n = Some d ∧ s_dials s' = <[n := d']> (s_dials s) ∧ moves ev d d'
          ∧ ce_literal (s_endpoint s') = ce_literal (s_endpoint s).
Proof.
  intros Hev H. rewrite (dial_event_step s n ev Hev) in H. apply bind_Some in H as (d & Hn & H).
  destruct (dial_step_moves _ _ _ _ _ H) as (d' & ? & ?). by exists d, d'.
Qed.

(** The same, in its cases. *)
Lemma can_go_cases s n d :
  can_go s n d = match d_pc d with
                 | Control | Holding | Compare _ | Setting _ | Applying _ | Releasing _ | ClosingConn _ => true
                 | Select _ _ => d_expired d
                 | Refresh => ce_literal (s_endpoint s) || d_expired d || bool_decide (s_refreshing s = None)
                 | Attempt _ | Lookup | Hello | Returned _ => false
                 end.
Proof.
  unfold can_go, enabled, own_steps, dial_step, refresh_step. destruct (d_pc d) eqn:E; cbn [existsb]; try done;
    repeat (case_match; cbn in *; simplify_eq); bool_props; try done; try congruence.
  by rewrite orb_true_r.
Qed.
Lemma select_enabled s n d :
  enabled s n d (SelectAfter n) = match d_pc d with Select _ false => true | _ => false end.
Proof. unfold enabled, dial_step, refresh_step. destruct (d_pc d) as [| |? []| | | | | | | | | |]; done. Qed.

Lemma call_limit_due d entered l : call_limit d entered = Some l → (l ≤ Z.max entered (d_deadline d))%Z.
Proof.
  unfold call_limit, WithTimeout, helloDeadline. intros H.
  destruct (d_pc d); repeat case_match; bool_props; unfold helloReadDeadline, Second in *; simplify_eq; lia.
Qed.

(** Only a dial whose budget is unspent is ever set going by something other
    than itself. *)
Lemma can_go_later s s' n d d' :
  d_pc d' = d_pc d → d_expired d = true → can_go s' n d' = true → can_go s n d = true.
Proof.
  intros Hp He. rewrite !can_go_cases, Hp, He. by destruct (d_pc d); rewrite ?orb_true_r.
Qed.

End actions.

(** ** The invariant *)

Section invariant.
Context {WG : WireGuard} {GU : GoUnicode} (timeout delay : Z) (Hdelay : (0 ≤ delay)%Z).

(** A dial whose budget is spent has one [delay] for each action that is left
    to it. *)
Definition grace (p : pc) : Z := (13 - Z.of_nat (rank p)) * delay.

Record clock_ok (now : Z) (s : system) (n : nat) (d : dial) (c : clock) : Prop := {
  ck_past : (c_called c ≤ c_entered c ≤ now)%Z;
  ck_deadline : (d_deadline d ≤ c_called c + timeout)%Z;
  ck_in_time : in_time delay now s n d c = true;
  ck_since : can_go s n d = true → (c_since c ≤ Z.max (c_entered c) (due c d + delay))%Z;
  ck_spent : (c_entered c ≤ due c d + delay)%Z
             ∨ d_expired d = true ∧ (c_entered c ≤ due c d + delay + grace (d_pc d))%Z;
  ck_attempts : (c_called c + (Z.of_nat (c_attempts c) - unrested (d_pc d)) * clientDialRetryInterval ≤ c_entered c)%Z;
  ck_control : d_pc d = Control → c_attempts c = 0;
  ck_expired : d_expired d = true → d_canceled d = true ∨ (d_deadline d ≤ now)%Z;
  ck_select : ∀ r, d_pc d = Select r true → d_expired d = true;
  ck_start : started (d_pc d) = true → (c_called c ≤ d_start d ≤ c_entered c)%Z
}.

Definition tinv (t : timed) : Prop :=
  ∀ n d, s_dials (t_sys t) !! n = Some d →
    ∃ c, t_clocks t !! n = Some c ∧ clock_ok (t_now t) (t_sys t) n d c.

Lemma in_time_owed now s n d c l :
  in_time delay now s n d c = true → returned (d_pc d) = false → l ∈ owed s n d c → (now ≤ l + delay)%Z.
Proof.
  unfold in_time. intros H Hr Hl. rewrite Hr in H. cbn in H. rewrite forallb_forall in H.
  by apply Z.leb_le, H, list_elem_of_In.
Qed.
Lemma in_time_budget now s n d c :
  in_time delay now s n d c = true → returned (d_pc d) = false → d_expired d = false → (now ≤ due c d + delay)%Z.
Proof.
  intros H Hr He. eapply in_time_owed; [done..|]. unfold owed. rewrite He, !elem_of_app. do 3 right.
  by apply list_elem_of_singleton.
Qed.

(** A dial whose budget is spent is in a call or has a step to take. *)
Lemma expired_busy s n d :
  returned (d_pc d) = false → d_expired d = true →
  can_go s n d = true ∨ ∀ e, ∃ l, call_limit d e = Some l.
Proof.
  intros Hr He. rewrite can_go_cases, He. unfold call_limit.
  destruct (d_pc d); try done; rewrite ?orb_true_r; eauto.
Qed.

(** How late it can be where a dial is. *)
Lemma clock_ok_late now s n d c : clock_ok now s n d c → returned (d_pc d) = false →
  (now ≤ due c d + delay)%Z ∨ d_expired d = true ∧ (now ≤ due c d + 2 * delay + grace (d_pc d))%Z.
Proof.
  intros [P1 P2 P3 P4 P5 _ _ _ _ _] Hr. destruct (d_expired d) eqn:He; [right; split; [done|]|left; by eapply in_time_budget].
  assert (0 ≤ grace (d_pc d))%Z by (unfold grace; pose proof (rank_bound (d_pc d)); nia).
  assert (c_entered c ≤ due c d + delay + grace (d_pc d))%Z as He' by (destruct P5 as [|[_ ?]]; lia).
  destruct (expired_busy s n d Hr He) as [Hg|Hc].
  - specialize (P4 Hg). assert (now ≤ c_since c + delay)%Z; [|lia].
    eapply in_time_owed; [done..|]. unfold owed. rewrite Hg, !elem_of_app. do 2 right. left. by apply list_elem_of_singleton.
  - destruct (Hc (c_entered c)) as [l Hl]. pose proof (call_limit_due _ _ _ Hl) as Hd.
    assert (now ≤ Z.max (c_entered c) l + delay)%Z; [|unfold due in *; lia].
    eapply in_time_owed; [done..|]. unfold owed. rewrite Hl, !elem_of_app. left. by apply list_elem_of_singleton.
Qed.

(** What a dial has just got to is not late. *)
Lemma in_time_entered now s n d c :
  c_entered c = now → (can_go s n d = true → c_since c = now) → (d_expired d = false → now ≤ due c d + delay)%Z →
  in_time delay now s n d c = true.
Proof.
  intros He Hs Hd. unfold in_time. destruct (returned (d_pc d)); [done|]. cbn [orb]. apply forallb_forall.
  intros l Hl%list_elem_of_In. apply Z.leb_le. unfold owed in Hl. rewrite !elem_of_app in Hl.
  destruct Hl as [Hl|[Hl|[Hl|Hl]]]; repeat case_match; try by apply elem_of_nil in Hl.
  all: apply list_elem_of_singleton in Hl; subst l; unfold clientDialRetryInterval, Millisecond in *; lia.
Qed.

(** An action taken now. *)
Lemma clock_ok_moves now s s' n d d' c ev :
  clock_ok now s n d c → moves ev d d' →
  (∀ n start, ev = BeginControl n start → start = now) →
  (∀ n, ev = SelectAfter n → (c_entered c + clientDialRetryInterval ≤ now)%Z) →
  clock_ok now s' n d' (enter now (is_attempt ev) c).
Proof.
  intros Hck Hmv Hb Hs. pose proof (clock_ok_late _ _ _ _ _ Hck (mv_running _ _ _ Hmv)) as Hlate.
  destruct Hck as [P1 P2 P3 _ P4 P5 P6 P7 P8 P9]. destruct Hmv as [M1 M2 M3 M4 M5 M6 M7 M8 M9 M10 M11].
  pose proof (in_time_budget _ _ _ _ _ P3 M4) as H2.
  constructor; unfold due in *; cbn [enter c_called c_entered c_attempts c_since]; rewrite ?M1, ?M2, ?M3; try done.
  - lia.
  - apply in_time_entered; [done|done|]. unfold due. rewrite M1, M2. cbn [enter c_called]. done.
  - lia.
  - destruct (d_expired d) eqn:He; [right; split; [done|]|left; auto]. specialize (M8 eq_refl).
    pose proof (rank_bound (d_pc d)). unfold grace in *. destruct Hlate as [Hl|[_ Hl]]; nia.
  - unfold unrested in *. unfold clientDialRetryInterval, Millisecond in *. destruct (is_attempt ev) eqn:Ha.
    + destruct M10 as [E E']; [done|]. rewrite E in P5. rewrite E'. lia.
    + destruct (rested (d_pc d')) eqn:Hr.
      * destruct (M9 eq_refl) as [[E _]|[Hc|[m ->]]]; [rewrite E in P5; lia|rewrite P6 by done; lia|].
        specialize (Hs m eq_refl). destruct (rested (d_pc d)); lia.
      * destruct (rested (d_pc d)); lia.
  - intros E. rewrite (M5 E). destruct M6 as [E'|(m & start & ->)].
    + specialize (P9 E'). destruct ev; try lia. rewrite (Hb _ _ eq_refl). lia.
    + rewrite (Hb _ _ eq_refl). lia.
Qed.

Lemma clock_ok_wait now now' s n d c :
  (now ≤ now')%Z → clock_ok now s n d c → in_time delay now' s n d c = true → clock_ok now' s n d c.
Proof.
  intros Hle [P1 P2 P3 P4 P5 P6 P7 P8 P9 P10] Ht. constructor; try done; [lia|].
  intros He. destruct (P8 He); [by left|right; lia].
Qed.

Lemma in_time_other now s s' n d d' c c' :
  in_time delay now s n d c = true →
  d_pc d' = d_pc d → d_deadline d' = d_deadline d → (d_expired d = true → d_expired d' = true) →
  c_called c' = c_called c → c_entered c' = c_entered c →
  (returned (d_pc d) = false → can_go s' n d' = true →
   c_since c' = c_since c ∧ can_go s n d = true ∨ c_since c' = now) →
  in_time delay now s' n d' c' = true.
Proof.
  intros Ht Hp Hdl Hex Hc1 Hc2 Hs. unfold in_time. rewrite Hp. destruct (returned (d_pc d)) eqn:Hr; [done|].
  cbn [orb]. apply forallb_forall. intros l Hl%list_elem_of_In. apply Z.leb_le.
  assert (∀ e, call_limit d' e = call_limit d e) as Hcl by (intros; unfold call_limit; by rewrite Hp, Hdl).
  unfold owed, due in Hl. rewrite !elem_of_app, !select_enabled, Hcl, Hp, Hdl, Hc1, Hc2 in Hl.
  assert (∀ l, l ∈ owed s n d c → (now ≤ l + delay)%Z) as Hold by (intros; by eapply in_time_owed).
  unfold owed in Hold. setoid_rewrite elem_of_app in Hold. setoid_rewrite elem_of_app in Hold.
  setoid_rewrite elem_of_app in Hold. rewrite select_enabled in Hold.
  destruct Hl as [Hl|[Hl|[Hl|Hl]]].
  - apply Hold. by left.
  - apply Hold. right. by left.
  - destruct (can_go s' n d') eqn:Hg; [|by apply elem_of_nil in Hl]. apply list_elem_of_singleton in Hl. subst l.
    destruct (Hs eq_refl eq_refl) as [[-> E]|Hc]; [|rewrite Hc; lia].
    apply Hold. do 2 right. left. rewrite E. by apply list_elem_of_singleton.
  - destruct (d_expired d'); [by apply elem_of_nil in Hl|]. apply list_elem_of_singleton in Hl. subst l.
    apply (in_time_budget _ _ _ _ _ Ht Hr). apply not_true_is_false. intros E. by specialize (Hex E).
Qed.

(** Something else happened than an action of this dial: at most, its budget
    ended or it was set going. *)
Lemma clock_ok_other now s s' n d d' c :
  clock_ok now s n d c →
  d' = d ∨ (∃ canceled, d' = expire canceled d ∧ (canceled = true ∨ (d_deadline d ≤ now)%Z)) →
  clock_ok now s' n d' (if can_go s n d then c else wake now c).
Proof.
  intros Hck Hd.
  assert (d_pc d' = d_pc d ∧ d_deadline d' = d_deadline d ∧ d_start d' = d_start d
    ∧ (d_expired d = true → d_expired d' = true)
    ∧ (d_expired d' = true → d_expired d = true ∨ d_canceled d' = true ∨ (d_deadline d ≤ now)%Z)
    ∧ (d_canceled d = true → d_canceled d' = true)) as (Hp & Hdl & Hst & Hex & Hex' & Hca).
  { destruct Hd as [->|(x & -> & Hx)]; [by split_and!; auto|]. split_and!; try done; cbn.
    - intros _. right. destruct Hx as [->|]; [left; apply orb_true_r|by right].
    - by intros ->. }
  set (c' := if can_go s n d then c else wake now c).
  assert (c_called c' = c_called c ∧ c_entered c' = c_entered c ∧ c_attempts c' = c_attempts c) as (Hc1 & Hc2 & Hc3)
    by (unfold c'; by destruct (can_go s n d)).
  assert (returned (d_pc d) = false → can_go s' n d' = true →
    c_since c' = c_since c ∧ can_go s n d = true ∨ c_since c' = now ∧ (now ≤ due c d + delay)%Z) as Hsince.
  { intros Hr Hg. unfold c'. destruct (can_go s n d) eqn:E; [by left|right]. split; [done|].
    eapply in_time_budget; [apply Hck|done|]. apply not_true_is_false. intros He.
    by rewrite (can_go_later s s' n d d') in E. }
  assert (can_go s' n d' = true → returned (d_pc d) = false) as Hrun
    by (rewrite can_go_cases, Hp; by destruct (d_pc d)).
  destruct Hck as [P1 P2 P3 P4 P5 P6 P7 P8 P9 P10].
  constructor; unfold due; rewrite ?Hp, ?Hdl, ?Hst, ?Hc1, ?Hc2, ?Hc3; try done.
  - eapply in_time_other; [exact P3|done..|]. intros Hr Hg.
    destruct (Hsince Hr Hg) as [?|[? _]]; [by left|by right].
  - intros Hg. destruct (Hsince (Hrun Hg) Hg) as [[-> E]|[-> Hn]]; [by apply P4|unfold due in Hn; lia].
  - destruct P5 as [P5|[E P5]]; [by left|right; auto].
  - intros E. destruct (Hex' E) as [E'|?]; [|done]. destruct (P8 E') as [?|?]; [left; auto|by right].
  - intros r E. rewrite Hex; [done|by eapply P9].
Qed.

Lemma clock_ok_call now s s' n service ctx :
  clock_ok now s' n (begin_dial s service (WithTimeout now timeout ctx)) (start_clock now).
Proof.
  constructor; unfold due; cbn [begin_dial start_clock c_called c_entered c_attempts c_since d_deadline d_expired d_pc];
    try done; try lia.
  - unfold WithTimeout. repeat case_match; bool_props; lia.
  - apply in_time_entered; [done|done|]. unfold due. cbn. lia.
  - unfold unrested, clientDialRetryInterval, Millisecond. repeat case_match; lia.
  - intros r. by repeat case_match.
  - by repeat case_match.
Qed.

Lemma tinv_initial c w now : tinv (timed_initial c w now).
Proof. intros n d H. cbn in H. by rewrite lookup_empty in H. Qed.

(** What an action does to the clock of a dial. *)
Lemma clocks_after_lookup t ev n d :
  s_dials (t_sys t) !! n = Some d →
  clocks_after t ev !! n =
    (if bool_decide (event_dial ev = Some n) then enter (t_now t) (is_attempt ev) else id)
      <$> ((λ c, if can_go (t_sys t) n d then c else wake (t_now t) c) <$> t_clocks t !! n).
Proof.
  intros Hn. unfold clocks_after.
  assert (map_imap (λ n c, Some (if waits t n then wake (t_now t) c else c)) (t_clocks t) !! n
    = (λ c, if can_go (t_sys t) n d then c else wake (t_now t) c) <$> t_clocks t !! n) as Hw.
  { rewrite map_lookup_imap. unfold waits. rewrite Hn. destruct (t_clocks t !! n); [|done]. cbn.
    by destruct (can_go (t_sys t) n d). }
  destruct (event_dial ev) as [m|]; [|by rewrite Hw, option_fmap_id].
  case_bool_decide as E; [injection E as ->; by rewrite lookup_alter_eq, Hw|].
  rewrite lookup_alter_ne by congruence. by rewrite Hw, option_fmap_id.
Qed.
Lemma enter_woken now a (b : bool) c : enter now a (if b then c else wake now c) = enter now a c.
Proof. by destruct b. Qed.

Lemma clocks_after_actor t ev n d c :
  s_dials (t_sys t) !! n = Some d → t_clocks t !! n = Some c → event_dial ev = Some n →
  clocks_after t ev !! n = Some (enter (t_now t) (is_attempt ev) c).
Proof.
  intros Hn Hc Hev. rewrite (clocks_after_lookup t ev n d Hn), bool_decide_true, Hc by done. cbn.
  by rewrite enter_woken.
Qed.
Lemma clocks_after_other t ev n d c :
  s_dials (t_sys t) !! n = Some d → t_clocks t !! n = Some c → event_dial ev ≠ Some n →
  clocks_after t ev !! n = Some (if can_go (t_sys t) n d then c else wake (t_now t) c).
Proof. intros Hn Hc Hev. by rewrite (clocks_after_lookup t ev n d Hn), bool_decide_false, Hc by done. Qed.

Lemma tinv_act t n ev s' :
  tinv t → event_dial ev = Some n → ready t ev = true → step (t_sys t) ev = Some s' →
  tinv {| t_sys := s'; t_now := t_now t; t_clocks := clocks_after t ev |}.
Proof.
  intros Hinv Hev Hready H. destruct (step_moves _ _ _ _ Hev H) as (d & d' & Hn & Hd & Hmv & _).
  destruct (Hinv n d Hn) as (c & Hc & Hck). intros m dm Hm. cbn in *. rewrite Hd in Hm.
  apply lookup_insert_Some in Hm as [[<- <-]|[Hne Hm]].
  - eexists. split; [by eapply clocks_after_actor|]. eapply clock_ok_moves; [done|done| |].
    + intros k start ->. by apply Z.eqb_eq.
    + intros k ->. injection Hev as ->. cbn in Hready. rewrite Hc in Hready. by apply Z.leb_le.
  - destruct (Hinv m dm Hm) as (cm & Hcm & Hckm). eexists.
    split; [eapply clocks_after_other; [done|done|congruence]|]. eapply clock_ok_other; [done|by left].
Qed.

(** The end of a budget, and of the client. *)
Lemma tinv_other t ev s' :
  tinv t → event_dial ev = None → ready t ev = true → step (t_sys t) ev = Some s' →
  tinv {| t_sys := s'; t_now := t_now t; t_clocks := clocks_after t ev |}.
Proof.
  intros Hinv Hev Hready H m dm' Hm. cbn in Hm |- *.
  assert (∃ dm, s_dials (t_sys t) !! m = Some dm ∧ (dm' = dm
    ∨ ∃ canceled, dm' = expire canceled dm ∧ (canceled = true ∨ (d_deadline dm ≤ t_now t)%Z))) as (dm & Hdm & Hd).
  { destruct ev; try done; cbn in H; [|injection H as <-; exists dm'; by split; [|left]].
    apply bind_Some in H as (d & Hn & [= <-]). cbn in Hm, Hready. rewrite Hn in Hready.
    apply lookup_insert_Some in Hm as [[<- <-]|[_ Hm]]; [|exists dm'; by split; [|left]].
    exists d. split; [done|right]. exists canceled. split; [done|]. apply orb_prop in Hready as [?|[_ Hle]%andb_prop]; [by left|].
    right. by apply Z.leb_le. }
  destruct (Hinv m dm Hdm) as (c & Hc & Hck). eexists.
  split; [by eapply clocks_after_other; [done|done|rewrite Hev]|]. by eapply clock_ok_other.
Qed.

Lemma all_in_time_ok now t :
  all_in_time delay now t = true ↔
  ∀ n d, s_dials (t_sys t) !! n = Some d → ∃ c, t_clocks t !! n = Some c ∧ in_time delay now (t_sys t) n d c = true.
Proof.
  unfold all_in_time. rewrite forallb_forall. split.
  - intros H n d Hn. specialize (H (n, d)). cbn in H. destruct (t_clocks t !! n) as [c|].
    + exists c. split; [done|]. apply H, list_elem_of_In, elem_of_map_to_list, Hn.
    + exfalso. assert (false = true) as [=]. apply H, list_elem_of_In, elem_of_map_to_list, Hn.
  - intros H [n d] Hin%list_elem_of_In%elem_of_map_to_list. cbn.
    by destruct (H n d Hin) as (c & -> & Hc).
Qed.

Lemma tinv_step t tev t' : tinv t → timed_step timeout delay t tev = Some t' → tinv t'.
Proof.
  intros Hinv H. destruct tev as [dt|n service ctx|ev]; cbn in H.
  - destruct (0 <? dt)%Z eqn:Hdt; [|done]. cbn in H. destruct (all_in_time _ _ _) eqn:Ha; [|done].
    injection H as <-. apply Z.ltb_lt in Hdt. intros n d Hn. cbn in Hn |- *.
    destruct (proj1 (all_in_time_ok _ _) Ha n d Hn) as (c & Hc & Ht).
    destruct (Hinv n d Hn) as (c' & Hc' & Hck). replace c' with c in * by congruence.
    exists c. split; [done|]. eapply clock_ok_wait; [|done|done]. lia.
  - destruct (s_dials (t_sys t) !! n) eqn:Hn; [done|]. injection H as <-. intros m d Hm. cbn in Hm |- *.
    apply lookup_insert_Some in Hm as [[<- <-]|[Hne Hm]].
    + eexists. rewrite lookup_insert_eq. split; [done|apply clock_ok_call].
    + rewrite lookup_insert_ne by done. destruct (Hinv m d Hm) as (c & Hc & Hck). exists c. split; [done|].
      assert (∀ s', ce_literal (s_endpoint s') = ce_literal (s_endpoint (t_sys t)) →
        s_refreshing s' = s_refreshing (t_sys t) → clock_ok (t_now t) s' m d c) as Hsame; [|by apply Hsame].
      intros s' E1 E2. assert (can_go s' m d = can_go (t_sys t) m d) as Eg by (rewrite !can_go_cases; by rewrite E1, E2).
      destruct Hck as [P1 P2 P3 P4 P5 P6 P7 P8 P9 P10]. constructor; try done; [|by rewrite Eg].
      unfold in_time, owed in *. by rewrite Eg, select_enabled in *.
  - destruct (ready t ev) eqn:Hready; [|done]. apply bind_Some in H as (s' & H & [= <-]).
    destruct (event_dial ev) as [n|] eqn:Hev; [by eapply tinv_act|by eapply tinv_other].
Qed.

Lemma tinv_reachable c w now t : treachable timeout delay (timed_initial c w now) t → tinv t.
Proof. induction 1; [apply tinv_initial|by eapply tinv_step]. Qed.

(** ** The clock adds nothing *)

Definition tevent_ok (tev : tevent) : Prop := match tev with Act ev => event_ok ev | _ => True end.

Lemma timed_step_untimed t tev t' : timed_step timeout delay t tev = Some t' → tevent_ok tev →
  t_sys t' = t_sys t ∨ ∃ ev, event_ok ev ∧ step (t_sys t) ev = Some (t_sys t').
Proof.
  intros H Hok. destruct tev as [dt|n service ctx|ev]; cbn in H.
  - left. destruct (_ && _); [|done]. by injection H as <-.
  - right. exists (DialCall n service (WithTimeout (t_now t) timeout ctx)). split; [done|].
    cbn. destruct (s_dials (t_sys t) !! n); [done|]. by injection H as <-.
  - right. destruct (ready t ev); [|done]. apply bind_Some in H as (s' & H & [= <-]). by exists ev.
Qed.

(** Forgetting the clock, a timed run is a run of [Dial], so what is proved
    there of every schedule holds of every timed one. *)
Lemma timed_runs_are_runs c w now tevs t :
  Forall tevent_ok tevs → run (timed_step timeout delay) (timed_initial c w now) tevs = Some t →
  reachable (initial c w) (t_sys t).
Proof.
  intros Hok H. refine (run_reachable (timed_step timeout delay) (λ t, reachable (initial c w) (t_sys t)) tevent_ok
    _ tevs _ _ _ Hok H); [|constructor].
  intros t1 tev t2 Hr Hev Hs. destruct (timed_step_untimed _ _ _ Hs Hev) as [->|(ev & Hok' & Hs')]; [done|].
  by eapply reach_step.
Qed.

(** ** The clock is never stuck *)

(** An answer for every call. *)
Definition any_outcome (now : Z) : outcome :=
  {| o_now := now; o_connected := false; o_first := true; o_answer := Ok []; o_io := demo_helloIO [];
     o_writer := mkWriter [] None |}.

(** What time waits for. *)
Definition of_dial (n : nat) (ev : event) : Prop := event_dial ev = Some n ∨ ev = Expire n false.
Definition own_action (tev : tevent) : Prop := ∃ n ev, tev = Act ev ∧ of_dial n ev.

(** How far a dial can get in no time: once in the select it stays there until
    the retry interval is over, or the budget. *)
Definition position (now : Z) (p : pc) (c : clock) : nat :=
  match p with
  | Select _ _ => if (c_entered c + clientDialRetryInterval <=? now)%Z then 12 else 3
  | p => rank p
  end.
Definition left_now (t : timed) (n : nat) : nat :=
  match s_dials (t_sys t) !! n, t_clocks t !! n with
  | Some d, Some c => position (t_now t) (d_pc d) c + (if d_expired d then 0 else 1)
  | _, _ => 0
  end.
Definition ids (t : timed) : list nat := elements (dom (s_dials (t_sys t))).
Definition all_left (t : timed) : nat := sum_list_with (left_now t) (ids t).

Lemma sum_list_with_lt {A} (f g : A → nat) (l : list A) (x : A) :
  (∀ y, f y ≤ g y) → f x < g x → x ∈ l → sum_list_with f l < sum_list_with g l.
Proof.
  intros Hle Hlt. assert (∀ l, sum_list_with f l ≤ sum_list_with g l) as Hall.
  { intros k. induction k as [|y k IH]; [done|]. cbn. specialize (Hle y). lia. }
  intros Hin. induction Hin as [x l|x y l Hin IH]; cbn; [specialize (Hall l)|specialize (Hle y); specialize (IH Hlt)]; lia.
Qed.

Lemma dial_step_falls s n d ev s' now c :
  dial_step s n d ev = Some s' → (∀ m, ev = SelectAfter m → (c_entered c + clientDialRetryInterval ≤ now)%Z) →
  ∃ d', s_dials s' = <[n := d']> (s_dials s) ∧ d_expired d' = d_expired d
    ∧ position now (d_pc d') (enter now (is_attempt ev) c) < position now (d_pc d) c.
Proof.
  intros H Hs. unfold dial_step, refresh_step in H.
  assert ((now + clientDialRetryInterval <=? now)%Z = false) as Hnow
    by (apply Z.leb_gt; unfold clientDialRetryInterval, Millisecond; lia).
  destruct ev, (d_pc d) eqn:Hpc; try done; repeat case_match; simplify_eq; eexists;
    (split; [reflexivity|]); unfold position; rewrite ?Hpc; cbn; rewrite ?Hnow;
    repeat case_match; (split; [done|]); try lia.
  all: exfalso; specialize (Hs _ eq_refl); bool_props; lia.
Qed.

(** Every step of a dial, and the end of a budget, brings nearer the moment
    when only time can pass. *)
Lemma own_action_falls t n d c ev t' :
  s_dials (t_sys t) !! n = Some d → t_clocks t !! n = Some c → of_dial n ev →
  timed_step timeout delay t (Act ev) = Some t' → all_left t' < all_left t ∧ t_now t' = t_now t.
Proof.
  intros Hn Hc Hof H. cbn in H. destruct (ready t ev) eqn:Hready; [|done]. apply bind_Some in H as (s' & H & [= <-]).
  split; [|done].
  assert (∃ d' c', s_dials s' = <[n := d']> (s_dials (t_sys t)) ∧ clocks_after t ev !! n = Some c'
    ∧ position (t_now t) (d_pc d') c' + (if d_expired d' then 0 else 1)
      < position (t_now t) (d_pc d) c + (if d_expired d then 0 else 1)) as (d' & c' & Hd & Hc' & Hlt).
  { destruct Hof as [Hev | ->].
    - rewrite (dial_event_step _ n) in H by done. rewrite Hn in H. cbn in H.
      destruct (dial_step_falls _ _ _ _ _ (t_now t) c H) as (d' & Hd & He & Hp).
      + intros m ->. injection Hev as ->. cbn in Hready. rewrite Hc in Hready. by apply Z.leb_le.
      + eexists d', _. split_and!; [exact Hd|by eapply clocks_after_actor|rewrite He; lia].
    - cbn in H, Hready. rewrite Hn in H, Hready. injection H as <-. cbn in Hready.
      apply andb_prop in Hready as [He _]. apply negb_true_iff in He.
      eexists (expire false d), _. split_and!; [done|by eapply clocks_after_other|]. rewrite He. cbn.
      enough (position (t_now t) (d_pc d) (if can_go (t_sys t) n d then c else wake (t_now t) c)
        = position (t_now t) (d_pc d) c) by lia. by destruct (can_go (t_sys t) n d). }
  unfold all_left, ids. cbn [t_sys]. rewrite Hd, dom_insert_lookup_L by done.
  apply (sum_list_with_lt _ _ _ n).
  - intros m. unfold left_now. cbn [t_sys t_now t_clocks]. rewrite Hd. destruct (decide (m = n)) as [->|Hne].
    + rewrite lookup_insert_eq, Hc', Hn, Hc. lia.
    + rewrite lookup_insert_ne by done. destruct (s_dials (t_sys t) !! m) as [dm|] eqn:Hm; [|done].
      rewrite (clocks_after_lookup t ev m dm Hm).
      rewrite bool_decide_false by (destruct Hof as [Hev | ->]; [rewrite Hev; congruence|done]).
      destruct (t_clocks t !! m) as [cm|]; cbn; [|done]. by destruct (can_go (t_sys t) m dm).
  - unfold left_now. cbn [t_sys t_now t_clocks]. by rewrite Hd, lookup_insert_eq, Hc', Hn, Hc.
  - by apply elem_of_elements, elem_of_dom.
Qed.

Lemma act_step t n d ev s' :
  s_dials (t_sys t) !! n = Some d → event_dial ev = Some n → ready t ev = true →
  dial_step (t_sys t) n d ev = Some s' → ∃ t', timed_step timeout delay t (Act ev) = Some t'.
Proof. intros Hn Hev Hr H. cbn. rewrite Hr, (dial_event_step _ n) by done. rewrite Hn. cbn. rewrite H. cbn. eauto. Qed.

(** A dial with a step of its own can take it. *)
Lemma can_go_step t n d :
  s_dials (t_sys t) !! n = Some d → can_go (t_sys t) n d = true →
  ∃ ev t', of_dial n ev ∧ timed_step timeout delay t (Act ev) = Some t'.
Proof.
  intros Hn Hg. destruct (d_pc d) eqn:Hpc;
    try (rewrite can_go_cases, Hpc in Hg; discriminate Hg).
  1: { destruct (act_step t n d (BeginControl n (t_now t)) _ Hn eq_refl (Z.eqb_refl _)
         ltac:(unfold dial_step; rewrite Hpc; reflexivity)) as [t' Ht]. exists (BeginControl n (t_now t)), t'. split; [by left|exact Ht]. }
  all: unfold can_go in Hg; apply existsb_exists in Hg as (ev & Hin & He); unfold enabled in He;
    destruct (dial_step (t_sys t) n d ev) as [s'|] eqn:E; [|done];
    assert (event_dial ev = Some n ∧ (ready t ev = true ∨ ∃ k, ev = BeginControl n k)) as [Hev Hr]
      by (cbn in Hin; repeat destruct Hin as [<-|Hin]; try done; by eauto);
    (destruct Hr as [Hr|[k ->]]; [|cbn in E; unfold dial_step, refresh_step in E; by rewrite Hpc in E]);
    destruct (act_step _ _ _ _ _ Hn Hev Hr E) as [t' Ht]; exists ev, t'; (split; [by left|exact Ht]).
Qed.

(** A call that is over returns: there is an answer to give it. *)
Lemma call_returns t n d e l :
  s_dials (t_sys t) !! n = Some d → call_limit d e = Some l →
  ∃ ev t', of_dial n ev ∧ timed_step timeout delay t (Act ev) = Some t'.
Proof.
  intros Hn Hl. set (ev := next_event (t_sys t) n (any_outcome (t_now t)) d).
  assert (ready t ev = true ∧ ∃ s', dial_step (t_sys t) n d ev = Some s') as [Hr [s' Hs]].
  { unfold ev, next_event, call_limit, dial_step, refresh_step in *.
    destruct (d_pc d); try done; cbn; repeat case_match; eauto. }
  destruct (act_step t n d ev s' Hn) as [t' Ht]; [apply next_event_dial|done|done|].
  exists ev, t'. split; [left; apply next_event_dial|done].
Qed.

(** A dial that has to go on can. *)
Lemma dial_goes_on t n d c :
  s_dials (t_sys t) !! n = Some d → t_clocks t !! n = Some c →
  in_time delay (t_now t + 1) (t_sys t) n d c = false →
  ∃ ev t', of_dial n ev ∧ timed_step timeout delay t (Act ev) = Some t'.
Proof.
  intros Hn Hc Hl. unfold in_time in Hl. apply orb_false_iff in Hl as [_ Hl].
  assert (∃ l, l ∈ owed (t_sys t) n d c ∧ (l ≤ t_now t)%Z) as (l & Hin & Hle).
  { apply not_true_iff_false in Hl. rewrite forallb_forall in Hl.
    destruct (decide (Exists (λ l, (l ≤ t_now t)%Z) (owed (t_sys t) n d c))) as [He|He].
    - apply list.Exists_exists in He as (l & ? & ?). by exists l.
    - destruct Hl. intros l Hin%list_elem_of_In. apply Z.leb_le. apply not_Exists_Forall in He; [|apply _].
      rewrite list.Forall_forall in He. specialize (He l Hin). cbn in He. lia. }
  unfold owed in Hin. rewrite !elem_of_app in Hin. destruct Hin as [Hin|[Hin|[Hin|Hin]]].
  - destruct (call_limit d (c_entered c)) as [l'|] eqn:E; [by eapply call_returns|by apply elem_of_nil in Hin].
  - destruct (enabled (t_sys t) n d (SelectAfter n)) eqn:E; [|by apply elem_of_nil in Hin].
    apply list_elem_of_singleton in Hin. subst l. unfold enabled in E.
    destruct (dial_step (t_sys t) n d (SelectAfter n)) as [s'|] eqn:Es; [|done].
    destruct (act_step t n d (SelectAfter n) s' Hn) as [t' Ht]; [done|cbn; rewrite Hc; by apply Z.leb_le|done|].
    exists (SelectAfter n), t'. split; [by left|exact Ht].
  - destruct (can_go (t_sys t) n d) eqn:E; [by eapply can_go_step|by apply elem_of_nil in Hin].
  - destruct (d_expired d) eqn:E; [by apply elem_of_nil in Hin|]. apply list_elem_of_singleton in Hin. subst l.
    exists (Expire n false). cbn. rewrite Hn. cbn. rewrite E, (proj2 (Z.leb_le _ _)) by (unfold due in Hle; lia). cbn.
    eexists. split; [by right|reflexivity].
Qed.

Lemma time_or_a_dial_goes_on t : tinv t →
  (∃ t', timed_step timeout delay t (Wait 1) = Some t')
  ∨ ∃ n d c ev t', s_dials (t_sys t) !! n = Some d ∧ t_clocks t !! n = Some c ∧ of_dial n ev
      ∧ timed_step timeout delay t (Act ev) = Some t'.
Proof.
  intros Hinv. destruct (all_in_time delay (t_now t + 1) t) eqn:Ha; [left; cbn; rewrite Ha; cbn; eauto|right].
  apply not_true_iff_false in Ha. rewrite all_in_time_ok in Ha.
  destruct (decide (map_Forall (λ n d, default false (in_time delay (t_now t + 1) (t_sys t) n d <$> t_clocks t !! n) = true)
    (s_dials (t_sys t)))) as [Hall|Hnot].
  - destruct Ha. intros n d Hn. specialize (Hall n d Hn). cbn in Hall. destruct (t_clocks t !! n) as [c|]; [by eauto|done].
  - apply map_not_Forall in Hnot as (n & d & Hn & Hf); [|apply _].
    destruct (Hinv n d Hn) as (c & Hc & Hck). rewrite Hc in Hf. apply not_true_is_false in Hf.
    destruct (dial_goes_on t n d c Hn Hc Hf) as (ev & t' & ? & ?). by exists n, d, c, ev, t'.
Qed.

(** In no time the dials come to where only time can pass. *)
Lemma time_can_pass t : tinv t →
  ∃ evs t' t'', run (timed_step timeout delay) t evs = Some t' ∧ Forall own_action evs ∧ tinv t'
    ∧ t_now t' = t_now t ∧ timed_step timeout delay t' (Wait 1) = Some t''.
Proof.
  intros Hinv. destruct (run_to_end (timed_step timeout delay) (λ t1, tinv t1 ∧ t_now t1 = t_now t)
    (λ t1, ∃ t2, timed_step timeout delay t1 (Wait 1) = Some t2) own_action all_left)
    with (s := t) as (evs & t' & Hr & [Hi Hn] & [t'' Hw] & _ & Hf).
  - intros t1 [Hi Hn]. destruct (time_or_a_dial_goes_on t1 Hi) as [Hw|(n & d & c & ev & t2 & Hd & Hc & Hof & Ht)];
      [by left|right]. exists (Act ev), t2. destruct (own_action_falls _ _ _ _ _ _ Hd Hc Hof Ht) as [Hlt E].
    split_and!; [by exists n, ev|done|by eapply tinv_step|congruence|done].
  - done.
  - by exists evs, t', t''.
Qed.

(** Any instant is reached by letting time pass and the dials go on. *)
Lemma time_diverges t (T : Z) : tinv t →
  ∃ evs t', run (timed_step timeout delay) t evs = Some t'
    ∧ Forall (λ tev, tev = Wait 1 ∨ own_action tev) evs ∧ (T ≤ t_now t')%Z.
Proof.
  remember (Z.to_nat (T - t_now t)) as k eqn:Hk. assert (T - t_now t ≤ Z.of_nat k)%Z as Hle by lia. clear Hk.
  revert t Hle. induction k as [|k IH]; intros t Hle Hinv.
  - exists [], t. split_and!; [done|constructor|lia].
  - destruct (time_can_pass t Hinv) as (evs & t1 & t2 & Hr & Hf & Hi & Hn & Hw).
    pose proof (tinv_step _ _ _ Hi Hw) as Hi2.
    assert (t_now t2 = t_now t + 1)%Z as Hn2.
    { cbn in Hw. destruct (all_in_time _ _ _); [|done]. cbn in Hw. injection Hw as <-. cbn. lia. }
    destruct (IH t2) as (evs' & t' & Hr' & Hf' & Ht'); [lia|done|].
    exists (evs ++ Wait 1 :: evs'), t'. split_and!; [|apply Forall_app; split|done].
    + rewrite run_app, Hr. cbn [mbind option_bind run]. by rewrite Hw.
    + eapply Forall_impl; [exact Hf|]. by right.
    + constructor; [by left|done].
Qed.

Lemma clock_ok_running now s n d c :
  clock_ok now s n d c → returned (d_pc d) = false → (now ≤ due c d + 14 * delay)%Z.
Proof.
  intros Hck Hr. destruct (clock_ok_late _ _ _ _ _ Hck Hr) as [H|[_ H]]; [lia|].
  unfold grace in H. assert (1 ≤ rank (d_pc d)); [|nia].
  destruct (d_pc d) as [| |? []| | | | | | | | | |]; cbn in *; done || lia.
Qed.

Lemma clock_ok_entered now s n d c : clock_ok now s n d c → (c_entered c ≤ due c d + 14 * delay)%Z.
Proof.
  intros [_ _ _ _ P5 _ _ _ _ _]. destruct P5 as [P5|[_ P5]]; [lia|]. unfold grace in P5. nia.
Qed.

(** ** Properties *)


(** C20: a timed-out dial waited for as long as it says.  A dial the caller has
    not cancelled reports [ErrHandshakeTimeout] only once its budget is spent
    and at most fourteen delays later, also when it had to wait for another's
    re-resolution; and where the budget was not spent from the start, the time
    in the message is what the dial waited but for the rounding and the delays.
    Assumed: the timeout and the delays are at most 2^62 nanoseconds, so that
    [Time.Sub] does not saturate. *)
Theorem handshake_timeouts_are_punctual c w now t n d t' :
  (0 ≤ timeout ≤ 2 ^ 62)%Z → (14 * delay ≤ 2 ^ 62)%Z →
  treachable timeout delay (timed_initial c w now) t →
  s_dials (t_sys t) !! n = Some d → d_canceled d = false →
  timed_step timeout delay t (Act (SelectDone n)) = Some t' →
  let bound := handshakeBound (d_deadline d) (d_start d) in
  d_pc <$> s_dials (t_sys t') !! n = Some (Returned (Some (handshakeTimeoutError (s_endpoint (t_sys t)) bound)))
  ∧ ∃ k, t_clocks t !! n = Some k ∧ (d_deadline d ≤ t_now t ≤ due k d + 14 * delay)%Z
    ∧ ((c_called k ≤ d_deadline d)%Z →
       (Z.abs (t_now t - d_start d - bound) ≤ 50 * Millisecond + 14 * delay)%Z).
Proof.
  intros Ht Hd Hr Hn Hc H. cbn in H. rewrite Hn in H. cbn in H.
  destruct (tinv_reachable _ _ _ _ Hr n d Hn) as (k & Hk & Hck).
  destruct (d_pc d) as [| |r ee| | | | | | | | | |] eqn:Hpc; try done.
  destruct (d_expired d) eqn:He; [|done]. rewrite Hc in H. injection H as <-. cbn. rewrite lookup_insert_eq.
  split; [done|]. exists k. split; [done|].
  assert (d_deadline d ≤ t_now t)%Z as Hdl by (destruct (ck_expired _ _ _ _ _ Hck He); [congruence|done]).
  assert (returned (d_pc d) = false) as Hrun by by rewrite Hpc.
  pose proof (clock_ok_running _ _ _ _ _ Hck Hrun) as Hl. pose proof (clock_ok_entered _ _ _ _ _ Hck) as Hent.
  split; [done|]. intros Hcd. destruct Hck as [_ P2 _ _ _ _ _ _ _ P9]. rewrite Hpc in P9. specialize (P9 eq_refl).
  unfold due, handshakeBound in *. rewrite Z.min_r, Z.max_r by lia.
  pose proof (Round_near (d_deadline d - d_start d) (100 * Millisecond)). unfold Millisecond in *. lia.
Qed.

End invariant.

(** ** A dial that times out *)

#[local] Existing Instance demo_unicode.
#[local] Existing Instance demo_client_device.

Definition demo_timed : timed := timed_initial demo_c demo_w 0.
Definition demo_round : list tevent :=
  [Wait (2 * Second); Act (AttemptEnds 0 false); Wait clientDialRetryInterval; Act (SelectAfter 0)].
(** Two attempts and a lookup that does not end before the budget does. *)
Definition demo_slow_dial : list tevent :=
  [Begin 0 (#"primary-db") None; Wait (Millisecond); Act (BeginControl 0 Millisecond)] ++ demo_round
  ++ [Act (AcquireSlot 0); Act (CheckGeneration 0); Wait (7 * Second); Wait (749 * Millisecond);
      Act (Expire 0 false); Wait Millisecond; Act (LookupEnds 0 (Ok [Addr4 3221225994])); Act (CompareAddr 0);
      Act (Apply 0); Act (ReleaseSlot 0); Act (AttemptEnds 0 false)].
Definition demo_timed_after (evs : list tevent) : timed :=
  default demo_timed (run (timed_step (10 * Second) Millisecond) demo_timed evs).

Lemma demo_timed_reachable evs :
  bool_decide (is_Some (run (timed_step (10 * Second) Millisecond) demo_timed evs)) = true →
  treachable (10 * Second) Millisecond demo_timed (demo_timed_after evs).
Proof.
  intros H. apply (run_reachable (timed_step (10 * Second) Millisecond) (treachable (10 * Second) Millisecond demo_timed)
    (λ _, True) (λ t ev t' Ht _, treach_step _ _ _ t ev t' Ht) evs demo_timed); [constructor|by apply Forall_true|].
  by apply from_Some.
Qed.


Definition demo_timed_out : timed :=
  default demo_timed (timed_step (10 * Second) Millisecond (demo_timed_after demo_slow_dial) (Act (SelectDone 0))).

Lemma handshake_timeouts_are_punctual_witness :
  d_pc <$> s_dials (t_sys demo_timed_out) !! 0
  = Some (Returned (Some (handshakeTimeoutError (s_endpoint (t_sys (demo_timed_after demo_slow_dial))) (10 * Second)))).
Proof.
  refine (proj1 (handshake_timeouts_are_punctual (10 * Second) Millisecond ltac:(by vm_compute) demo_c demo_w 0
    (demo_timed_after demo_slow_dial) 0 (demo_dial 0 (t_sys (demo_timed_after demo_slow_dial))) demo_timed_out
    _ _ _ _ _ _)).
  - by vm_compute.
  - by vm_compute.
  - apply demo_timed_reachable. by vm_compute.
  - apply from_Some. by vm_compute.
  - by vm_compute.
  - apply from_Some. by vm_compute.
Defined.

(** A budget that is spent in the lookup is not reported as a handshake
    timeout: the dial returns the resolver's error. *)
Definition demo_hanging_lookup : list tevent :=
  take 13 demo_slow_dial
  ++ [Act (LookupEnds 0 (Err (sentinel_error context_DeadlineExceeded (#"context deadline exceeded"))));
      Act (ReleaseSlot 0)].
Lemma hanging_lookups_are_not_handshake_timeouts :
  let t := demo_timed_after demo_hanging_lookup in
  treachable (10 * Second) Millisecond demo_timed t
  ∧ t_now t = (10 * Second + Millisecond)%Z ∧ d_expired (demo_dial 0 (t_sys t)) = true
  ∧ d_pc (demo_dial 0 (t_sys t))
    = Returned (Some (mkError (#"gocloak: client: resolve endpoint " ++ Secret.dquote :: #"tunnel.example.com" ++ Secret.dquote ::
                               #": context deadline exceeded") [context_DeadlineExceeded])).
Proof. split; [apply demo_timed_reachable; by vm_compute|]. split_and!; by vm_compute. Qed.

(** A dial that waits for the slot while another's lookup hangs gives up when
    its own, shorter, budget ends: it has a step to take then, and no time can
    pass without it. *)
Definition demo_waiting : list tevent :=
  [Begin 0 (#"primary-db") None; Begin 1 (#"primary-db") (Some Second); Act (BeginControl 0 0); Act (BeginControl 1 0);
   Act (AttemptEnds 0 false); Act (AttemptEnds 1 false); Wait clientDialRetryInterval; Act (SelectAfter 0);
   Act (SelectAfter 1); Act (AcquireSlot 0); Act (CheckGeneration 0); Wait (750 * Millisecond)].
Definition demo_gave_up : list tevent :=
  demo_waiting ++ [Act (Expire 1 false); Act (GiveUpSlot 1); Act (AttemptEnds 1 false); Act (SelectDone 1)].
Example waiters_give_up :
  let t := demo_timed_after demo_waiting in
  d_pc (demo_dial 1 (t_sys t)) = Refresh ∧ can_go (t_sys t) 1 (demo_dial 1 (t_sys t)) = false
  ∧ all_in_time Millisecond (t_now t + 2 * Millisecond) t = false
  ∧ d_pc (demo_dial 1 (t_sys (demo_timed_after demo_gave_up)))
    = Returned (Some (handshakeTimeoutError (s_endpoint (t_sys t)) Second)).
Proof. split_and!; vm_compute; reflexivity. Qed.

(** An answer another dial has found may be seconds old when it is used: the
    first attempt of the dial that skips its own lookup took that long. *)
Definition demo_borrowed : list tevent :=
  [Begin 0 (#"primary-db") None; Begin 1 (#"primary-db") None; Act (BeginControl 0 0); Act (BeginControl 1 0);
   Act (AttemptEnds 0 false); Wait clientDialRetryInterval; Act (SelectAfter 0); Act (AcquireSlot 0);
   Act (CheckGeneration 0); Act (LookupEnds 0 (Ok [Addr4 3221225995])); Act (CompareAddr 0); Act (SetEndpoint 0);
   Act (Apply 0); Act (ReleaseSlot 0); Wait (1750 * Millisecond); Act (AttemptEnds 1 false);
   Wait clientDialRetryInterval; Act (SelectAfter 1); Act (AcquireSlot 1); Act (CheckGeneration 1)].
Lemma borrowed_answers_can_be_seconds_old :
  let t := demo_timed_after demo_borrowed in
  treachable (10 * Second) Millisecond demo_timed t
  ∧ d_pc (demo_dial 1 (t_sys t)) = Releasing None ∧ fst <$> s_log (t_sys t) = [0]
  ∧ (t_now t - default 0 (c_entered <$> t_clocks t !! 0%nat) = 2 * Second)%Z.
Proof. split; [apply demo_timed_reachable; by vm_compute|]. split_and!; by vm_compute. Qed.

End DialTime.
