(* ===== verification/Timeouts.v ===== *)
(** * How long the secret stores and the resolver can hold things up
      ([newClient], [resolveEndpoint] of [client.go], [applyDiff] of
      [server.go])

    The lookups of a reload and of a client's construction with a clock: the
    caller's resolver and the name resolver answer at some instant, and end
    when the context they are given is over, at most [delay] late.  What else
    these functions do takes no time.  The definitions are those of [Server]
    and [Client] with the instant threaded through. *)

From S2P Require Import Prelude GoStrings GoNetip GoIO GoNet Policy Secret Config Watcher Device Limiter Server Client DialTime.
Import Policy Secret Config Watcher Device Limiter Server Client DialTime.

Module Timeouts.

Definition secretResolveTimeout : Z := 30 * Second.
Definition clientSecretResolveTimeout : Z := 30 * Second.

(** The references [Secret.Resolve] asks the caller's resolver for. *)
Definition asks_resolver (ref : SecretRef) : bool :=
  match parseSecretRef ref with
  | Ok (scheme, _) => negb (bool_decide (scheme = #"file")) && negb (bool_decide (scheme = #"env"))
  | Err _ => false
  end.

Section timed.
Context {WG : WireGuard} {GU : GoUnicode} (os : osEnv).

(** Called under a context with a deadline, at an instant: the answer, and the
    instant it comes. *)
Context (ResolveSecret : Z → Z → SecretRef → result gostring * Z).
Context (LookupNetIP : Z → Z → gostring → result (list Addr) * Z).

Definition answers (deadline now : Z) : SecretResolver := Some (λ ref, fst (ResolveSecret deadline now ref)).
Definition asked (deadline now : Z) (ref : SecretRef) : Z :=
  if asks_resolver ref then snd (ResolveSecret deadline now ref) else now.

(** ** A reload *)

Abbreviation devcache := (wg * secretCache)%type.

(** [applyPeer] under the reload's context. *)
Definition applyPeer_at (deadline : Z) (p : peerConfig) (updateOnly : bool) (s : devcache * Z)
    : option error * (devcache * Z) :=
  let '((d, cache), now) := s in
  let '(e, s') := applyPeer {| ss_os := os; ss_external := answers deadline now |} p updateOnly (d, cache) in
  (e, (s', match cache !! pr_PSK p with Some _ => now | None => asked deadline now (pr_PSK p) end)).

Fixpoint each_peer_at (step : peerConfig → devcache * Z → option error * (devcache * Z))
    (ps : list peerConfig) (s : devcache * Z) : list error * (devcache * Z) :=
  match ps with
  | [] => ([], s)
  | p :: ps' =>
      let '(e, s1) := step p s in
      let '(es, s2) := each_peer_at step ps' s1 in
      (option_list e ++ es, s2)
  end.

(** [applyDiff]: one context for all the lookups of a reload. *)
Definition applyDiff_at (now : Z) (diff : peerDiff) (dev : option wg) (cache : secretCache)
    : option error * option wg * secretCache * Z :=
  match dev with
  | None => (Some (errors_New (#"gocloak: server: reload arrived before the device existed")), None, cache, now)
  | Some d =>
      let deadline := WithTimeout now secretResolveTimeout None in
      let '(es1, s1) := each_peer revoke_step (Removed diff) (d, cache) in
      let '(es2, s2) := each_peer_at (λ p, applyPeer_at deadline p false) (Added diff) (s1, now) in
      let '(es3, ((d', cache'), now')) := each_peer_at (λ p, applyPeer_at deadline p true) (Changed diff) s2 in
      (errors_Join (es1 ++ es2 ++ es3), Some d', cache', now')
  end.

(** ** The construction of a client *)

Definition resolveEndpoint_at (now : Z) (host : gostring) (port : Z) : result (AddrPort * bool) * Z :=
  let deadline := WithTimeout now clientEndpointResolveTimeout None in
  (resolveEndpoint (λ h, fst (LookupNetIP deadline now h)) host port,
   match ParseAddr host with Some _ => now | None => snd (LookupNetIP deadline now host) end).

Definition clientSecret_at (deadline now : Z) (what : gostring) (ref : SecretRef) : result secret * Z :=
  (clientSecret what os (answers deadline now) ref, asked deadline now ref).

(** [newClient]; the third component is when it returns. *)
Definition newClient_at (now : Z) (createNetTUN : option error) (cfg : ClientConfig)
    : result client * list resource * Z :=
  match newClient_valid cfg with
  | Err e => (Err e, [], now)
  | Ok (host, port, tunnelIP, dialTimeout) =>
      match resolveEndpoint_at now host port with
      | (Err e, t1) => (Err e, [], t1)
      | (Ok (endpoint, literal), t1) =>
          let deadline := WithTimeout t1 clientSecretResolveTimeout None in
          match clientSecret_at deadline t1 (#"private key") (cc_PrivateKey cfg) with
          | (Err e, t2) => (Err e, [], t2)
          | (Ok privateKey, t2) =>
              match clientSecret_at deadline t2 (#"preshared key") (cc_PresharedKey cfg) with
              | (Err e, t3) => (Err e, [], t3)
              | (Ok psk, t3) =>
                  (newClient_device createNetTUN cfg
                     {| ci_host := host; ci_port := port; ci_tunnelIP := tunnelIP; ci_dialTimeout := dialTimeout;
                        ci_endpoint := endpoint; ci_literal := literal; ci_privateKey := privateKey; ci_psk := psk |}, t3)
              end
          end
      end
  end.

(** ** What is assumed of the resolvers *)

(** They answer by the end of the context, or at most [delay] later. *)
Definition punctual (delay : Z) (returns : Z → Z → Z) : Prop :=
  ∀ deadline now, (now ≤ returns deadline now ≤ Z.max now deadline + delay)%Z.

Context (delay : Z) (Hdelay : (0 ≤ delay)%Z).
Context (Hsecret : ∀ ref, punctual delay (λ deadline now, snd (ResolveSecret deadline now ref))).
Context (Hnames : ∀ host, punctual delay (λ deadline now, snd (LookupNetIP deadline now host))).

(** ** Lemmas *)

Lemma asked_punctual ref : punctual delay (λ deadline now, asked deadline now ref).
Proof.
  intros deadline now. unfold asked. destruct (asks_resolver ref); [apply Hsecret|lia].
Qed.

Lemma applyPeer_at_punctual deadline p u d cache now :
  (now ≤ snd (snd (applyPeer_at deadline p u ((d, cache), now))) ≤ Z.max now deadline + delay)%Z.
Proof.
  unfold applyPeer_at. destruct (applyPeer _ _ _ _) as [e s']. cbn [snd].
  destruct (cache !! pr_PSK p); [lia|]. apply asked_punctual.
Qed.

(** The lookups of a loop share one deadline, so each of them is at most one
    delay late. *)
Lemma each_peer_at_punctual deadline u ps s now :
  (now ≤ snd (snd (each_peer_at (λ p, applyPeer_at deadline p u) ps (s, now)))
       ≤ Z.max now deadline + Z.of_nat (length ps) * delay)%Z.
Proof.
  revert s now. induction ps as [|p ps IH]; intros [d cache] now; cbn [each_peer_at]; [cbn; lia|].
  pose proof (applyPeer_at_punctual deadline p u d cache now) as H.
  destruct (applyPeer_at deadline p u ((d, cache), now)) as [e [s1 now1]]. cbn [snd] in H.
  specialize (IH s1 now1). destruct (each_peer_at _ ps (s1, now1)) as [es [s2 now2]]. cbn [snd length] in *. nia.
Qed.

(** With answers that do not depend on the instant, forgetting the clock gives
    the untimed loop. *)
Lemma each_peer_at_untimed ext deadline u ps s now :
  (∀ deadline now ref, fst (ResolveSecret deadline now ref) = ext ref) →
  let '(es, (s', _)) := each_peer_at (λ p, applyPeer_at deadline p u) ps (s, now) in
  (es, s') = each_peer (λ p, applyPeer {| ss_os := os; ss_external := Some ext |} p u) ps s.
Proof.
  intros Hext. revert s now. induction ps as [|p ps IH]; intros [d cache] now; cbn [each_peer_at each_peer]; [done|].
  unfold applyPeer_at.
  assert (applyPeer {| ss_os := os; ss_external := answers deadline now |} p u (d, cache)
    = applyPeer {| ss_os := os; ss_external := Some ext |} p u (d, cache)) as ->.
  { unfold applyPeer, resolveSecret, answers, Secret.Resolve. cbn [ss_os ss_external]. by rewrite Hext. }
  destruct (applyPeer _ p u (d, cache)) as [e s1]. cbn. 
  set (now1 := match cache !! pr_PSK p with Some _ => _ | None => _ end).
  specialize (IH s1 now1). destruct (each_peer_at _ ps (s1, now1)) as [es [s2 now2]]. by rewrite <- IH.
Qed.

Lemma resolveEndpoint_at_punctual now host port :
  (now ≤ snd (resolveEndpoint_at now host port) ≤ now + clientEndpointResolveTimeout + delay)%Z.
Proof.
  unfold resolveEndpoint_at, WithTimeout, clientEndpointResolveTimeout, Second. cbn [snd].
  destruct (ParseAddr host); [lia|]. specialize (Hnames host (now + 10 * 1000000000)%Z now). cbn beta in Hnames. lia.
Qed.
Lemma resolveEndpoint_at_untimed names now host port :
  (∀ deadline now host, fst (LookupNetIP deadline now host) = names host) →
  fst (resolveEndpoint_at now host port) = resolveEndpoint names host port.
Proof. intros H. unfold resolveEndpoint_at, resolveEndpoint. cbn [fst]. by rewrite H. Qed.
Lemma clientSecret_at_untimed ext deadline now what ref :
  (∀ deadline now ref, fst (ResolveSecret deadline now ref) = ext ref) →
  fst (clientSecret_at deadline now what ref) = clientSecret what os (Some ext) ref.
Proof. intros H. unfold clientSecret_at, clientSecret, Secret.Resolve, answers. cbn [fst]. by rewrite H. Qed.

(** A lookup once the budget is spent. *)
Lemma late_lookup deadline now p u d cache :
  (∀ now ref, (deadline ≤ now)%Z → ∃ e, fst (ResolveSecret deadline now ref) = Err e) →
  (deadline ≤ now)%Z → asks_resolver (pr_PSK p) = true → cache !! pr_PSK p = None →
  ∃ e now', applyPeer_at deadline p u ((d, cache), now) = (Some e, ((d, cache), now')) ∧ (now ≤ now')%Z.
Proof.
  intros Hlate Hd Hask Hc. unfold applyPeer_at, applyPeer, resolveSecret. cbn [ss_os ss_external]. rewrite Hc.
  destruct (Hlate now (pr_PSK p) Hd) as [e He].
  assert (∃ e', Secret.Resolve os (answers deadline now) (pr_PSK p) = Err e') as [e' ->].
  { unfold Secret.Resolve, asks_resolver in *. destruct (parseSecretRef (pr_PSK p)) as [[scheme payload]|]; [|done].
    cbn [rbind]. apply andb_prop in Hask as [H1%negb_true_iff H2%negb_true_iff]. rewrite H1, H2.
    unfold answers. rewrite He. by eexists. }
  eexists _, _. split; [done|]. apply (proj1 (asked_punctual (pr_PSK p) deadline now)).
Qed.

(** ** Properties *)

(** C22: a reload ends in time.  However slow the secret store is, applying a
    difference takes at most thirty seconds, and the delay of each lookup: all
    of them share one budget.  With a store whose answers do not depend on the
    instant this is the reload of [Server]. *)
Theorem reloads_end_within_one_budget now diff dev cache :
  let '(e, dev', cache', now') := applyDiff_at now diff dev cache in
  (now ≤ now' ≤ now + secretResolveTimeout + Z.of_nat (length (Added diff) + length (Changed diff)) * delay)%Z
  ∧ ∀ ext, (∀ deadline now ref, fst (ResolveSecret deadline now ref) = ext ref) →
      applyDiff {| ss_os := os; ss_external := Some ext |} diff dev cache = (e, dev', cache').
Proof.
  destruct dev as [d|]; cbn [applyDiff_at applyDiff].
  2:{ split; [|done]. unfold secretResolveTimeout, Second. nia. }
  set (deadline := WithTimeout now secretResolveTimeout None).
  destruct (each_peer revoke_step (Removed diff) (d, cache)) as [es1 s1].
  pose proof (each_peer_at_punctual deadline false (Added diff) s1 now) as H2.
  pose proof (λ ext, each_peer_at_untimed ext deadline false (Added diff) s1 now) as E2.
  destruct (each_peer_at _ (Added diff) (s1, now)) as [es2 [s2 now2]]. cbn [snd] in H2.
  pose proof (each_peer_at_punctual deadline true (Changed diff) s2 now2) as H3.
  pose proof (λ ext, each_peer_at_untimed ext deadline true (Changed diff) s2 now2) as E3.
  destruct (each_peer_at _ (Changed diff) (s2, now2)) as [es3 [[d' cache'] now3]]. cbn [snd] in H3.
  split.
  - unfold deadline, WithTimeout, secretResolveTimeout, Second in *. lia.
  - intros ext Hext. by rewrite <- (E2 ext Hext), <- (E3 ext Hext).
Qed.

(** One slow lookup can use up the whole reload.  Once the budget of a
    reload is spent, with a store that reports that its context is over, every
    further peer whose preshared key the store has and the cache does not is
    refused, and the device stays as it was. *)
Theorem slow_lookups_fail_the_rest deadline now u ps d cache :
  (∀ now ref, (deadline ≤ now)%Z → ∃ e, fst (ResolveSecret deadline now ref) = Err e) → (deadline ≤ now)%Z →
  Forall (λ p, asks_resolver (pr_PSK p) = true ∧ cache !! pr_PSK p = None) ps →
  let '(es, (s', _)) := each_peer_at (λ p, applyPeer_at deadline p u) ps ((d, cache), now) in
  length es = length ps ∧ s' = (d, cache).
Proof.
  intros Hlate Hd Hps. revert now Hd. induction Hps as [|p ps [Hask Hc] _ IH]; intros now Hd; [done|].
  cbn [each_peer_at]. destruct (late_lookup deadline now p u d cache) as (e & now' & -> & Hle); [done..|].
  specialize (IH now' ltac:(lia)). destruct (each_peer_at _ ps _) as [es [s' now2]]. cbn. by destruct IH as [-> ->].
Qed.

(** Making a client ends in time.  However slow the name resolver and the
    secret store are, [newClient] returns within the ten seconds of the one,
    the thirty of the other, which both key lookups share, and the delay of
    each lookup.  With answers that do not depend on the instant it is the
    construction of [Client]. *)
Theorem newClient_ends_in_time now createNetTUN cfg :
  let '(r, rs, now') := newClient_at now createNetTUN cfg in
  (now ≤ now' ≤ now + clientEndpointResolveTimeout + clientSecretResolveTimeout + 3 * delay)%Z
  ∧ ∀ ext names, (∀ deadline now ref, fst (ResolveSecret deadline now ref) = ext ref) →
      (∀ deadline now host, fst (LookupNetIP deadline now host) = names host) →
      newClient os (Some ext) names createNetTUN cfg = (r, rs).
Proof.
  unfold newClient_at, newClient, newClient_inputs.
  assert (0 ≤ clientSecretResolveTimeout ∧ 0 ≤ clientEndpointResolveTimeout)%Z as [Hs He] by (split; by vm_compute).
  destruct (newClient_valid cfg) as [[[[host port] tunnelIP] dialTimeout]|e]; [|split; [lia|done]]. cbn [rbind].
  pose proof (resolveEndpoint_at_punctual now host port) as H1.
  pose proof (λ names, resolveEndpoint_at_untimed names now host port) as E1.
  destruct (resolveEndpoint_at now host port) as [[[ep lit]|e] t1]; cbn [fst snd] in *.
  2:{ split; [lia|]. intros ext names Hext Hn. by rewrite <- (E1 names Hn). }
  set (deadline := WithTimeout t1 clientSecretResolveTimeout None).
  assert (deadline = t1 + clientSecretResolveTimeout)%Z as Hd by done.
  pose proof (asked_punctual (cc_PrivateKey cfg) deadline t1) as H2.
  pose proof (λ ext, clientSecret_at_untimed ext deadline t1 (#"private key") (cc_PrivateKey cfg)) as E2.
  unfold clientSecret_at in *. set (t2 := asked deadline t1 (cc_PrivateKey cfg)) in *. cbn [fst] in E2.
  destruct (clientSecret (#"private key") os (answers deadline t1) (cc_PrivateKey cfg)) as [pk|e].
  2:{ split; [lia|]. intros ext names Hext Hn. by rewrite <- (E1 names Hn), <- (E2 ext Hext). }
  pose proof (asked_punctual (cc_PresharedKey cfg) deadline t2) as H3.
  pose proof (λ ext, clientSecret_at_untimed ext deadline t2 (#"preshared key") (cc_PresharedKey cfg)) as E3.
  unfold clientSecret_at in *. cbn [fst] in E3.
  destruct (clientSecret (#"preshared key") os (answers deadline t2) (cc_PresharedKey cfg)) as [psk|e].
  - destruct (newClient_device _ _ _) as [r rs] eqn:Ed. split; [lia|].
    intros ext names Hext Hn. by rewrite <- (E1 names Hn), <- (E2 ext Hext), <- (E3 ext Hext).
  - split; [lia|]. intros ext names Hext Hn. by rewrite <- (E1 names Hn), <- (E2 ext Hext), <- (E3 ext Hext).
Qed.

End timed.

(** ** A store that takes twenty seconds *)

#[local] Existing Instance demo_unicode.
#[local] Existing Instance demo_client_device.

Definition demo_os : osEnv := {| os_Open := λ _, Err (errors_New (#"no such file")); os_LookupEnv := λ _, None |}.
Definition demo_ResolveSecret (deadline now : Z) (ref : SecretRef) : result gostring * Z :=
  if (now + 20 * Second <? deadline)%Z then (Ok zero_key, now + 20 * Second)%Z
  else (Err (errors_New (#"context deadline exceeded")), Z.max now deadline).
Definition demo_LookupNetIP (deadline now : Z) (host : gostring) : result (list Addr) * Z :=
  if (now + 4 * Second <? deadline)%Z then (Ok [Addr4 3221225994], now + 4 * Second)%Z
  else (Err (errors_New (#"context deadline exceeded")), Z.max now deadline).

Lemma demo_secrets_punctual ref : punctual 0 (λ deadline now, snd (demo_ResolveSecret deadline now ref)).
Proof. intros deadline now. unfold demo_ResolveSecret, Second. case_match; bool_props; cbn [snd]; lia. Qed.
Lemma demo_names_punctual host : punctual 0 (λ deadline now, snd (demo_LookupNetIP deadline now host)).
Proof. intros deadline now. unfold demo_LookupNetIP, Second. case_match; bool_props; cbn [snd]; lia. Qed.
Lemma demo_secrets_late deadline now ref :
  (deadline ≤ now)%Z → ∃ e, fst (demo_ResolveSecret deadline now ref) = Err e.
Proof. intros H. unfold demo_ResolveSecret, Second. case_match; bool_props; [lia|by eexists]. Qed.

Definition demo_added (psk : gostring) : peerConfig := {|
  pr_Name := #"app"; pr_PublicKey := zero_key; pr_PSK := psk;
  pr_TunnelIP := Addr4 174260231; pr_Limits := demo_limits; pr_Allow := ∅ |}.
Definition demo_diff : peerDiff :=
  {| Added := [demo_added (#"aws:sm:psk-1"); demo_added (#"aws:sm:psk-2"); demo_added (#"aws:sm:psk-3")];
     Removed := []; Changed := [] |}.

(** The first of three lookups succeeds, the other two fail, and the reload
    is over after thirty seconds. *)
Lemma reloads_end_within_one_budget_witness :
  let '(_, _, cache', now') := applyDiff_at demo_os demo_ResolveSecret 0 demo_diff (Some wg_new) ∅ in
  dom cache' = {[ #"aws:sm:psk-1"]} ∧ now' = (30 * Second)%Z
  ∧ (0 ≤ now' ≤ 0 + secretResolveTimeout + 3 * 0)%Z.
Proof.
  pose proof (reloads_end_within_one_budget demo_os demo_ResolveSecret 0 (Z.le_refl 0) demo_secrets_punctual
    0 demo_diff (Some wg_new) ∅) as H.
  assert (∃ x, applyDiff_at demo_os demo_ResolveSecret 0 demo_diff (Some wg_new) ∅ = x
    ∧ dom (snd (fst x)) = {[ #"aws:sm:psk-1"]} ∧ snd x = (30 * Second)%Z) as ([[[e dev] cache'] now'] & E & Hc & Ht).
  { eexists. split; [done|]. split; [apply (bool_decide_eq_true_1 _)|]; by vm_compute. }
  rewrite E in H |- *. split_and!; [exact Hc|exact Ht|apply H|apply H].
Defined.

Lemma slow_lookups_fail_the_rest_witness :
  length (fst (each_peer_at (λ p, applyPeer_at demo_os demo_ResolveSecret (30 * Second) p false)
                 (tail (Added demo_diff)) ((wg_new, ∅), 30 * Second)%Z)) = 2.
Proof.
  pose proof (slow_lookups_fail_the_rest demo_os demo_ResolveSecret 0 (Z.le_refl 0) demo_secrets_punctual
    (30 * Second) (30 * Second) false (tail (Added demo_diff)) wg_new ∅) as H.
  destruct (each_peer_at _ _ _) as [es [s' now']]. cbn [fst]. apply H.
  - intros now ref. apply demo_secrets_late.
  - apply Z.le_refl.
  - repeat (apply Forall_cons; split; [split; by vm_compute|]). apply Forall_nil. exact I.
Defined.

Definition demo_slow_client : ClientConfig :=
  {| cc_Endpoint := cc_Endpoint demo_client_config; cc_ServerPubKey := cc_ServerPubKey demo_client_config;
     cc_PrivateKey := #"aws:sm:key"; cc_PresharedKey := #"aws:sm:psk"; cc_TunnelIP := cc_TunnelIP demo_client_config;
     cc_MTU := cc_MTU demo_client_config; cc_DialTimeout := cc_DialTimeout demo_client_config |}.

(** The second key does not come within the budget both share. *)
Lemma newClient_ends_in_time_witness :
  let '(_, _, now') := newClient_at demo_os demo_ResolveSecret demo_LookupNetIP 0 None demo_slow_client in
  now' = (34 * Second)%Z ∧ (0 ≤ now' ≤ 0 + clientEndpointResolveTimeout + clientSecretResolveTimeout + 3 * 0)%Z.
Proof.
  pose proof (newClient_ends_in_time demo_os demo_ResolveSecret demo_LookupNetIP 0 (Z.le_refl 0)
    demo_secrets_punctual demo_names_punctual 0 None demo_slow_client) as H.
  assert (snd (newClient_at demo_os demo_ResolveSecret demo_LookupNetIP 0 None demo_slow_client) = (34 * Second)%Z) as Ht
    by by vm_compute.
  destruct (newClient_at _ _ _ _ _ _) as [[r rs] now']. split_and!; [exact Ht|apply H|apply H].
Defined.

End Timeouts.
