(* ===== verification/GoBufio.v ===== *)
(** * [bufio.Reader]

    A buffer of at most 4096 bytes in front of a reader.  [ReadByte] fills it
    with one [Read] at a time, retrying a [Read] that returned nothing a
    hundred times. *)

From S2P Require Import Prelude GoStrings GoIO.

Definition defaultBufSize : nat := Z.to_nat 4096.
Definition maxConsecutiveEmptyReads : nat := 100.
Arguments defaultBufSize : simpl never.
Arguments maxConsecutiveEmptyReads : simpl never.

Definition ErrNoProgress : error := errors_New (#"multiple Read calls return no data or error").

Record bufReader := mkBuf { br_buf : gostring; br_src : reader }.

Definition NewReader (r : reader) : bufReader := mkBuf [] r.

(** [fill] on an empty buffer: a non-empty one, or the error that was found. *)
Fixpoint fill (tries : nat) (cs : list gostring) (e : error) : result gostring * list gostring :=
  match tries with
  | O => (Err ErrNoProgress, cs)
  | S tries' =>
      match cs with
      | [] => (Err e, [])
      | c :: cs' =>
          if bool_decide (c = []) then fill tries' cs' e
          else (Ok (take defaultBufSize c),
                if length c <=? defaultBufSize then cs' else drop defaultBufSize c :: cs')
      end
  end.

Definition ReadByte (r : bufReader) : result byte * bufReader :=
  match br_buf r with
  | b :: buf => (Ok b, mkBuf buf (br_src r))
  | [] =>
      match fill maxConsecutiveEmptyReads (r_chunks (br_src r)) (r_end (br_src r)) with
      | (Ok (b :: buf), cs) => (Ok b, mkBuf buf (mkReader cs (r_end (br_src r))))
      | (Ok [], cs) => (Err ErrNoProgress, mkBuf [] (mkReader cs (r_end (br_src r))))
      | (Err e, cs) => (Err e, mkBuf [] (mkReader cs (r_end (br_src r))))
      end
  end.

(** ** Lemmas *)

(** The bytes still to come. *)
Definition br_bytes (r : bufReader) : gostring := br_buf r ++ r_bytes (br_src r).

(** A connection whose [Read] returns a byte or an error, as [io.Reader] asks
    of its implementations. *)
Definition prompt (r : reader) : Prop := Forall (λ c, c ≠ []) (r_chunks r).

Record br_ok (r : bufReader) : Prop := {
  bo_prompt : prompt (br_src r);
  bo_bound : length (br_buf r) ≤ defaultBufSize
}.

Lemma NewReader_ok r : prompt r → br_ok (NewReader r).
Proof. intros H. constructor; [exact H|simpl; lia]. Qed.

Lemma defaultBufSize_pos : 0 < defaultBufSize.
Proof. unfold defaultBufSize. lia. Qed.

Lemma ReadByte_cons r b s :
  br_ok r → br_bytes r = b :: s →
  ∃ r', ReadByte r = (Ok b, r') ∧ br_ok r' ∧ br_bytes r' = s ∧ r_end (br_src r') = r_end (br_src r).
Proof.
  intros [Hp Hb] E. destruct r as [[|b' buf] [cs e]]; unfold br_bytes, prompt, r_bytes, ReadByte in *; cbn in *.
  2:{ injection E as -> <-. eexists. split; [done|]. split_and!; [|done|done]. constructor; cbn; [done|lia]. }
  destruct cs as [|c cs]; [done|]. apply Forall_cons in Hp as [Hc Hp]. cbn [concat] in E.
  pose proof defaultBufSize_pos. change maxConsecutiveEmptyReads with (S 99). cbn [fill].
  rewrite bool_decide_false by done. destruct c as [|b' c]; [done|]. injection E as -> E.
  destruct defaultBufSize as [|n] eqn:En; [lia|]. cbn [take drop length Nat.leb].
  eexists. split; [reflexivity|]. split_and!; [|cbn|done].
  - constructor; cbn; [|rewrite length_take; lia].
    destruct (length c <=? n) eqn:El; unfold prompt; cbn; [done|]. bool_props. constructor; [|done].
    intros Hd. apply (f_equal length) in Hd. rewrite length_drop in Hd. simpl in Hd. lia.
  - rewrite <- E. destruct (length c <=? n) eqn:El; bool_props; cbn [concat].
    + by rewrite take_ge by lia.
    + by rewrite app_assoc, take_drop.
Qed.

Lemma ReadByte_nil r :
  br_ok r → br_bytes r = [] →
  ∃ r', ReadByte r = (Err (r_end (br_src r)), r') ∧ br_ok r' ∧ br_bytes r' = [] ∧ r_end (br_src r') = r_end (br_src r).
Proof.
  intros [Hp Hb] E. destruct r as [[|b' buf] [cs e]]; unfold br_bytes, prompt, r_bytes, ReadByte in *; cbn in *; [|done].
  destruct cs as [|c cs].
  2:{ apply Forall_cons in Hp as [Hc _]. by destruct c. }
  eexists. split; [reflexivity|]. split_and!; [|done|done]. constructor; cbn; [constructor|lia].
Qed.
