(* ===== verification/Msg.v ===== *)
(** * Newline-delimited messages ([internal/msg/msg.go])

    [readMessage] reads one message of at most 64 KiB, [ServeConn] serves a
    connection message by message, [Send] is the other end, and [Serve] is
    the accept loop with one goroutine per connection, as a step function. *)

From S2P Require Import Prelude GoStrings GoSlog GoIO GoBufio.

Module Msg.

Definition MaxMessageLen : nat := Z.to_nat (64 * 1024).
Arguments MaxMessageLen : simpl never.

Definition ErrMessageTooLarge_error : error :=
  sentinel_error ErrMessageTooLarge (#"msg: message exceeds the " ++ itoa (Z.of_nat MaxMessageLen) ++ #" byte limit").
Definition errIncompleteMessage_error : error :=
  sentinel_error errIncompleteMessage (#"msg: connection ended before a newline").

(** ** One message *)

(** The loop of [readMessage], entered with [buf]; [fuel] bounds the bytes it
    may still append. *)
Fixpoint readMessage_loop (fuel : nat) (buf : gostring) (r : bufReader) : result gostring * bufReader :=
  match ReadByte r with
  | (Err err, r') =>
      (Err (if errors_Is err io_EOF
            then if length buf =? 0 then EOF_error else errIncompleteMessage_error
            else if length buf =? 0 then err else errIncompleteMessage_error), r')
  | (Ok b, r') =>
      if bool_decide (b = nl) then (Ok buf, r')
      else if MaxMessageLen <=? length buf then (Err ErrMessageTooLarge_error, r')
      else match fuel with
           | O => (Err ErrMessageTooLarge_error, r')      (* not reached from [readMessage] *)
           | S fuel' => readMessage_loop fuel' (buf ++ [b]) r'
           end
  end.
Definition readMessage (r : bufReader) : result gostring * bufReader := readMessage_loop MaxMessageLen [] r.

(** ** A served connection *)

(** What [ServeConn] logs for a read that failed. *)
Definition read_log (addr : gostring) (err : error) : list line :=
  let entry l m e := [{| ln_level := l; ln_msg := m; ln_attrs := (#"addr", Text addr) :: e |}] in
  if errors_Is err io_EOF then []
  else if errors_Is err errIncompleteMessage then entry Info (#"msg: connection closed mid-message") []
  else if errors_Is err ErrMessageTooLarge then entry Warn (#"msg: rejected oversized message") []
  else entry Warn (#"msg: read failed") [(#"error", Text (e_msg err))].

Definition ack_line (n : nat) : gostring := #"ACK " ++ itoa (Z.of_nat n).
Definition ack (message : gostring) : gostring := ack_line (length message) ++ [nl].

(** The calls of the handler, the connection written to, and the log; the
    connection is closed when [ServeConn] returns. *)
Record served := { sv_handled : list (gostring * gostring); sv_out : writer; sv_log : list line }.

Definition handled_first (addr message : gostring) (s : served) : served :=
  {| sv_handled := (addr, message) :: sv_handled s; sv_out := sv_out s; sv_log := sv_log s |}.

(** The loop of [ServeConn]; [None] when [fuel] messages were not enough. *)
Fixpoint ServeConn_loop (fuel : nat) (addr : gostring) (r : bufReader) (w : writer) : option served :=
  match readMessage r with
  | (Err err, _) => Some {| sv_handled := []; sv_out := w; sv_log := read_log addr err |}
  | (Ok message, r') =>
      match Write (ack message) w with
      | (Some err, w') =>
          Some {| sv_handled := [(addr, message)]; sv_out := w';
                  sv_log := [{| ln_level := Warn; ln_msg := #"msg: write ack failed";
                                ln_attrs := [(#"addr", Text addr); (#"error", Text (e_msg err))] |}] |}
      | (None, w') =>
          match fuel with
          | O => None
          | S fuel' => handled_first addr message <$> ServeConn_loop fuel' addr r' w'
          end
      end
  end.
(** Every message takes a byte at least from the connection. *)
Definition ServeConn (addr : gostring) (conn : reader) (w : writer) : option served :=
  ServeConn_loop (length (r_bytes conn)) addr (NewReader conn) w.

(** ** The other end *)

(** [Send], with the readings of the clock around the exchange: the ack, the
    time it took and the error. *)
Definition Send (conn : reader) (w : writer) (message : gostring) (start now : Z)
    : gostring * Z * option error * writer :=
  if MaxMessageLen <? length message then ([], 0%Z, Some ErrMessageTooLarge_error, w)
  else match Write (message ++ [nl]) w with
       | (Some err, w') => ([], 0%Z, Some (wrapf (#"msg: write message: ") err), w')
       | (None, w') =>
           match fst (readMessage (NewReader conn)) with
           | Err err => ([], (now - start)%Z, Some (wrapf (#"msg: read ack: ") err), w')
           | Ok line => (line, (now - start)%Z, None, w')
           end
       end.

(** ** The accept loop *)

(** Where [Serve] is; a handler is a connection [ServeConn] has not returned
    from. *)
Inductive phase := Accepting | Waiting (err : error) | Returned (err : error).
Record server := {
  sr_phase : phase; sr_canceled : option error; sr_open : bool;
  sr_watching : bool; sr_running : gset nat; sr_seen : gset nat
}.
Definition initial : server :=
  {| sr_phase := Accepting; sr_canceled := None; sr_open := true; sr_watching := true;
     sr_running := ∅; sr_seen := ∅ |}.

Inductive event :=
  | Cancel (err : error)           (* the context is done, with its error *)
  | WatchCtx                       (* the watcher closes the listener *)
  | WatchStops                     (* or is told to stop *)
  | AcceptConn (c : nat)
  | AcceptFails (err : error)      (* and the watcher is told to stop: close(stopWatch) *)
  | ConnReturns (c : nat)
  | WaitEnds.

Definition step (s : server) (ev : event) : option server :=
  match ev with
  | Cancel err =>
      Some {| sr_phase := sr_phase s; sr_canceled := Some (default err (sr_canceled s)); sr_open := sr_open s;
              sr_watching := sr_watching s; sr_running := sr_running s; sr_seen := sr_seen s |}
  | WatchCtx =>
      match sr_canceled s with
      | Some _ => if sr_watching s then
          Some {| sr_phase := sr_phase s; sr_canceled := sr_canceled s; sr_open := false;
                  sr_watching := false; sr_running := sr_running s; sr_seen := sr_seen s |} else None
      | None => None
      end
  | WatchStops =>
      match sr_phase s with
      | Accepting => None
      | _ => if sr_watching s then
          Some {| sr_phase := sr_phase s; sr_canceled := sr_canceled s; sr_open := sr_open s;
                  sr_watching := false; sr_running := sr_running s; sr_seen := sr_seen s |} else None
      end
  | AcceptConn c =>
      match sr_phase s with
      | Accepting =>
          if sr_open s && bool_decide (c ∉ sr_seen s) then
            Some {| sr_phase := Accepting; sr_canceled := sr_canceled s; sr_open := sr_open s;
                    sr_watching := sr_watching s; sr_running := {[c]} ∪ sr_running s; sr_seen := {[c]} ∪ sr_seen s |}
          else None
      | _ => None
      end
  | AcceptFails err =>
      match sr_phase s with
      | Accepting =>
          Some {| sr_phase := Waiting err; sr_canceled := sr_canceled s; sr_open := sr_open s;
                  sr_watching := sr_watching s; sr_running := sr_running s; sr_seen := sr_seen s |}
      | _ => None
      end
  | ConnReturns c =>
      if bool_decide (c ∈ sr_running s) then
        Some {| sr_phase := sr_phase s; sr_canceled := sr_canceled s; sr_open := sr_open s;
                sr_watching := sr_watching s; sr_running := sr_running s ∖ {[c]}; sr_seen := sr_seen s |}
      else None
  | WaitEnds =>
      match sr_phase s with
      | Waiting err =>
          if bool_decide (sr_running s = ∅) then
            Some {| sr_phase := Returned (default err (sr_canceled s)); sr_canceled := sr_canceled s;
                    sr_open := sr_open s; sr_watching := sr_watching s; sr_running := ∅; sr_seen := sr_seen s |}
          else None
      | _ => None
      end
  end.

(** ** The reference: messages of a whole byte stream *)

(** The error of a stream that ends after [partial], in place of a message. *)
Definition end_error (partial : gostring) (e : error) : error :=
  match partial with
  | [] => if errors_Is e io_EOF then EOF_error else e
  | _ => errIncompleteMessage_error
  end.

(** The first message of the stream [s] that ends with [e], and the rest. *)
Definition frame (s : gostring) (e : error) : result gostring * gostring :=
  match IndexByte s nl with
  | Some i => if i <=? MaxMessageLen then (Ok (take i s), drop (S i) s)
              else (Err ErrMessageTooLarge_error, drop (S MaxMessageLen) s)
  | None => if length s <=? MaxMessageLen then (Err (end_error s e), [])
            else (Err ErrMessageTooLarge_error, drop (S MaxMessageLen) s)
  end.

Definition line (m : gostring) : gostring := m ++ [nl].
Definition legal (m : gostring) : Prop := (nl ∉ m) ∧ length m ≤ MaxMessageLen.

(** ** Lemmas: one message *)

Lemma MaxMessageLen_Z : Z.of_nat MaxMessageLen = (64 * 1024)%Z.
Proof. unfold MaxMessageLen. lia. Qed.

#[local] Opaque MaxMessageLen.

Definition frame_from (buf s : gostring) (e : error) : result gostring * gostring :=
  match IndexByte s nl with
  | Some i => if length buf + i <=? MaxMessageLen then (Ok (buf ++ take i s), drop (S i) s)
              else (Err ErrMessageTooLarge_error, drop (S (MaxMessageLen - length buf)) s)
  | None => if length buf + length s <=? MaxMessageLen then (Err (end_error (buf ++ s) e), [])
            else (Err ErrMessageTooLarge_error, drop (S (MaxMessageLen - length buf)) s)
  end.

Lemma frame_from_cons buf b s e :
  b ≠ nl → length buf < MaxMessageLen → frame_from buf (b :: s) e = frame_from (buf ++ [b]) s e.
Proof.
  intros Hb Hl. unfold frame_from. cbn [IndexByte]. rewrite decide_False by done.
  rewrite length_app. cbn [length].
  replace (MaxMessageLen - length buf) with (S (MaxMessageLen - (length buf + 1))) by lia.
  replace (length buf + S (length s)) with (length buf + 1 + length s) by lia.
  destruct (IndexByte s nl) as [i|]; cbn [fmap option_fmap option_map].
  - replace (length buf + S i) with (length buf + 1 + i) by lia.
    destruct (_ <=? _); cbn [take drop]; [|done]. by rewrite <- app_assoc.
  - destruct (_ <=? _); [|done]. by rewrite <- app_assoc.
Qed.

Lemma readMessage_loop_frame s fuel buf r :
  br_ok r → br_bytes r = s → length buf ≤ MaxMessageLen ≤ length buf + fuel →
  ∃ v r', readMessage_loop fuel buf r = (v, r') ∧ br_ok r' ∧ r_end (br_src r') = r_end (br_src r)
    ∧ (v, br_bytes r') = frame_from buf s (r_end (br_src r)).
Proof.
  revert fuel buf r. induction s as [|b s IH]; intros fuel buf r Hr Hs Hl.
  - destruct (ReadByte_nil r Hr Hs) as (r' & E & H1 & H2 & H3).
    eexists _, r'. destruct fuel; cbn [readMessage_loop]; rewrite E; (split_and!; [reflexivity|done|done|]);
      unfold frame_from; cbn [IndexByte length]; rewrite (proj2 (Nat.leb_le _ _)) by lia;
      rewrite H2, app_nil_r; unfold end_error; destruct buf; cbn; by destruct (errors_Is _ _).
  - destruct (ReadByte_cons r b s Hr Hs) as (r' & E & H1 & H2 & H3).
    assert (∀ v, (v, s) = frame_from buf (b :: s) (r_end (br_src r)) →
      ∃ v0 r0, (v, r') = (v0, r0) ∧ br_ok r0 ∧ r_end (br_src r0) = r_end (br_src r)
        ∧ (v0, br_bytes r0) = frame_from buf (b :: s) (r_end (br_src r))) as Hret.
    { intros v Hv. exists v, r'. by rewrite H2. }
    destruct (decide (b = nl)) as [->|Hb].
    + destruct fuel; cbn [readMessage_loop]; rewrite E, bool_decide_true by done; apply Hret;
        unfold frame_from; cbn [IndexByte]; rewrite decide_True by done;
        rewrite Nat.add_0_r, (proj2 (Nat.leb_le _ _)) by lia; cbn [take drop]; by rewrite app_nil_r.
    + destruct (MaxMessageLen <=? length buf) eqn:Ef; bool_props.
      * assert ((Err ErrMessageTooLarge_error, s) = frame_from buf (b :: s) (r_end (br_src r))) as Hv.
        { unfold frame_from. cbn [IndexByte]. rewrite decide_False by done.
          replace (MaxMessageLen - length buf) with 0 by lia.
          destruct (IndexByte s nl); cbn [fmap option_fmap option_map length];
            by rewrite (proj2 (Nat.leb_gt _ _)) by lia. }
        destruct fuel; cbn [readMessage_loop]; rewrite E, bool_decide_false, (proj2 (Nat.leb_le _ _)) by (done || lia);
          by apply Hret.
      * rewrite frame_from_cons by done. destruct fuel as [|fuel]; [lia|]. cbn [readMessage_loop].
        rewrite E, bool_decide_false by done. rewrite (proj2 (Nat.leb_gt _ _)) by lia.
        rewrite <- H3. apply IH; [done|done|rewrite length_app; simpl; lia].
Qed.

Lemma readMessage_frame r :
  br_ok r →
  ∃ v r', readMessage r = (v, r') ∧ br_ok r' ∧ r_end (br_src r') = r_end (br_src r)
    ∧ (v, br_bytes r') = frame (br_bytes r) (r_end (br_src r)).
Proof.
  intros Hr. destruct (readMessage_loop_frame (br_bytes r) MaxMessageLen [] r) as (v & r' & H); [done|done|simpl; lia|].
  exists v, r'. unfold frame_from in H. cbn [length Nat.add app] in H. by rewrite Nat.sub_0_r in H.
Qed.

Lemma frame_line m s e : legal m → frame (line m ++ s) e = (Ok m, s).
Proof.
  intros [Hm Hl]. unfold frame, line. rewrite <- app_assoc. cbn [app].
  rewrite IndexByte_app by done. rewrite (proj2 (Nat.leb_le _ _)) by done.
  rewrite take_app_length, drop_app, drop_ge by lia.
  by replace (S (length m) - length m) with 1 by lia.
Qed.

Lemma frame_Ok s e m rest : frame s e = (Ok m, rest) ↔ s = line m ++ rest ∧ legal m.
Proof.
  split; [|intros [-> Hm]; by apply frame_line].
  unfold frame. destruct (IndexByte s nl) as [i|] eqn:Ei.
  2:{ by destruct (_ <=? _). }
  destruct (i <=? MaxMessageLen) eqn:El; [|done]. intros [= <- <-]. bool_props.
  apply IndexByte_Some in Ei as [Hs Hn]. split.
  - unfold line. rewrite <- app_assoc. cbn [app]. symmetry. by apply take_drop_middle.
  - split; [done|]. rewrite length_take. lia.
Qed.

Lemma line_length m : length (line m) = S (length m).
Proof. unfold line. rewrite length_app. simpl. lia. Qed.

(** ** Lemmas: a connection *)

Lemma ServeConn_loop_lines addr ms rest fuel r out err :
  br_ok r → br_bytes r = concat (line <$> ms) ++ rest → Forall legal ms →
  fst (frame rest (r_end (br_src r))) = Err err → length ms ≤ fuel →
  ServeConn_loop fuel addr r (mkWriter out None)
  = Some {| sv_handled := pair addr <$> ms; sv_out := mkWriter (out ++ concat (ack <$> ms)) None;
            sv_log := read_log addr err |}.
Proof.
  revert fuel r out. induction ms as [|m ms IH]; intros fuel r out Hr Hs Hms Hrest Hf.
  - destruct (readMessage_frame r Hr) as (v & r' & E & _ & _ & Hv).
    rewrite Hs in Hv. cbn [fmap list_fmap concat app] in Hv. rewrite <- Hv in Hrest. cbn [fst] in Hrest. subst v.
    destruct fuel; cbn [ServeConn_loop]; rewrite E; cbn [fmap list_fmap concat]; by rewrite app_nil_r.
  - apply Forall_cons in Hms as [Hm Hms]. destruct (readMessage_frame r Hr) as (v & r' & E & Hr' & He & Hv).
    rewrite Hs in Hv. cbn [fmap list_fmap concat] in Hv. rewrite <- app_assoc, frame_line in Hv by done.
    injection Hv as -> Hv. destruct fuel as [|fuel]; [simpl in Hf; lia|].
    cbn [ServeConn_loop]. rewrite E. cbn [Write w_room w_out].
    rewrite (IH fuel r'); [|done|done|done|by rewrite He|simpl in Hf; lia].
    cbn [fmap option_fmap option_map]. unfold handled_first. cbn [sv_handled sv_out sv_log fmap list_fmap concat].
    by rewrite <- app_assoc.
Qed.

Lemma utoa_fuel_length fuel n : length (utoa_fuel fuel n) ≤ fuel.
Proof.
  revert n. induction fuel as [|fuel IH]; intros n; cbn [utoa_fuel]; [done|].
  destruct (n <? 10)%Z; [simpl; lia|]. rewrite length_app. specialize (IH (n / 10)%Z). simpl. lia.
Qed.

Lemma lines_join first others :
  (first ++ concat (cons nl <$> others)) ++ [nl] = concat (line <$> first :: others).
Proof.
  revert first. induction others as [|l others IH]; intros first.
  - cbn. by rewrite !app_nil_r.
  - specialize (IH l). cbn [fmap list_fmap concat app] in *. rewrite <- !app_assoc, <- IH.
    unfold line. rewrite <- !app_assoc. cbn [app]. by rewrite <- !app_assoc.
Qed.

Lemma elem_of_lines (first : gostring) others l :
  l ∈ first :: others → length l ≤ length (first ++ concat (cons nl <$> others)).
Proof.
  rewrite length_app, elem_of_cons. intros [->|Hl]; [lia|].
  induction others as [|l' others IH]; [by apply elem_of_nil in Hl|].
  cbn [fmap list_fmap concat]. rewrite length_app. cbn [length].
  apply elem_of_cons in Hl as [->|Hl]; [lia|]. specialize (IH Hl). lia.
Qed.

Lemma lines_long ms : length ms ≤ length (concat (line <$> ms)).
Proof.
  induction ms as [|m ms IH]; [done|]. cbn [fmap list_fmap concat]. rewrite length_app, line_length.
  simpl. lia.
Qed.

(** An acknowledgement is a legal message itself. *)
Lemma ack_legal n : n ≤ MaxMessageLen → legal (ack_line n).
Proof.
  intros Hn. unfold ack_line, itoa. rewrite (proj2 (Z.ltb_ge _ _)) by lia. split.
  - rewrite elem_of_app. intros [H|H]; revert H.
    + apply (bool_decide_eq_true_1 (nl ∉ #"ACK ")). by vm_compute.
    + apply utoa_no_byte; [lia|by vm_compute].
  - rewrite length_app. assert (length (utoa (Z.of_nat n)) ≤ 17); [|change (length (#"ACK ")) with 4; pose proof MaxMessageLen_Z; lia].
    unfold utoa. etrans; [apply utoa_fuel_length|]. assert (Z.log2 (Z.of_nat n) ≤ 16)%Z; [|lia].
    change 16%Z with (Z.log2 (64 * 1024)). apply Z.log2_le_mono. pose proof MaxMessageLen_Z. lia.
Qed.

Lemma frame_ack n s e : n ≤ MaxMessageLen → frame ((ack_line n ++ [nl]) ++ s) e = (Ok (ack_line n), s).
Proof. intros Hn. by apply frame_line, ack_legal. Qed.

(** How [ServeConn] ends on what is left of the stream: at its end or at a
    message it refuses, every message acknowledged, or at an acknowledgement
    it could not write. *)
Definition serve_ends (addr : gostring) (ms : list gostring) (rest : gostring) (e : error) (w : writer)
    (sv : served) : Prop :=
  (∃ err, fst (frame rest e) = Err err ∧ sv_log sv = read_log addr err
     ∧ w_out (sv_out sv) = w_out w ++ concat (ack <$> ms))
  ∨ (∃ err, ms ≠ [] ∧ w_out (sv_out sv) `prefix_of` w_out w ++ concat (ack <$> ms)
     ∧ sv_log sv = [{| ln_level := Warn; ln_msg := #"msg: write ack failed";
                       ln_attrs := [(#"addr", Text addr); (#"error", Text err)] |}]).

Lemma Write_out p w : w_out (snd (Write p w)) `prefix_of` w_out w ++ p
  ∧ (fst (Write p w) = None → w_out (snd (Write p w)) = w_out w ++ p).
Proof.
  unfold Write. destruct (w_room w) as [[n e]|]; cbn; [|by split].
  destruct (length p <=? n); cbn; [by split|]. split; [|done].
  apply prefix_app, prefix_take.
Qed.

Lemma ServeConn_loop_serves addr fuel r w :
  br_ok r → length (br_bytes r) ≤ fuel →
  ∃ sv ms rest, ServeConn_loop fuel addr r w = Some sv
    ∧ br_bytes r = concat (line <$> ms) ++ rest ∧ Forall legal ms
    ∧ sv_handled sv = pair addr <$> ms ∧ serve_ends addr ms rest (r_end (br_src r)) w sv.
Proof.
  revert r w. induction fuel as [|fuel IH]; intros r w Hr Hf;
    destruct (readMessage_frame r Hr) as ([m|err] & r' & E & Hr' & He & Hv); cbn [ServeConn_loop]; rewrite E.
  2,4: eexists _, [], (br_bytes r); split_and!;
    [done|done|constructor|done|left; exists err; split_and!; [by rewrite <- Hv|done|cbn; by rewrite app_nil_r]].
  all: symmetry in Hv; apply frame_Ok in Hv as [Hs Hm]; pose proof (f_equal length Hs) as Hlen;
    rewrite length_app, line_length in Hlen.
  1: lia.
  destruct (Write_out (ack m) w) as [Hpre Hall]. destruct (Write (ack m) w) as [[err|] w'] eqn:Ew; cbn [fst snd] in *.
  - eexists _, [m], (br_bytes r'). split_and!; [done| |by constructor|done|].
    + rewrite Hs. cbn [fmap list_fmap concat]. by rewrite app_nil_r.
    + right. exists (e_msg err). split_and!; [done| |done]. cbn [fmap list_fmap concat sv_out]. by rewrite app_nil_r.
  - destruct (IH r' w' Hr') as (sv & ms & rest & Es & Hs' & Hms & Hh & Hend); [lia|]. rewrite Es.
    exists (handled_first addr m sv), (m :: ms), rest. split_and!; [done| |by constructor| |].
    + rewrite Hs, Hs'. cbn [fmap list_fmap concat]. by rewrite app_assoc.
    + unfold handled_first. cbn [sv_handled fmap list_fmap]. by rewrite Hh.
    + unfold serve_ends in *. cbn [handled_first sv_log sv_out fmap list_fmap concat] in *.
      rewrite He, (Hall eq_refl) in Hend. rewrite app_assoc. destruct Hend as [Hend|(err & _ & Hp & Hlog)].
      * by left.
      * right. by exists err.
Qed.

(** ** Properties: messages *)

(** C27: reading byte by byte through a buffer is cutting the whole stream at
    its first newline: however the bytes arrive, a message is returned exactly
    when at most 64 KiB precede a newline, longer ones are refused and never
    truncated, and the rest of the stream is left for the next call.  At most
    the refused byte and one buffer are taken from the connection beyond the
    limit. *)
Theorem readMessage_is_frame r :
  br_ok r →
  let '(v, r') := readMessage r in
  (v, br_bytes r') = frame (br_bytes r) (r_end (br_src r)) ∧ br_ok r'
  ∧ length (br_bytes r) - length (r_bytes (br_src r')) ≤ S MaxMessageLen + defaultBufSize.
Proof.
  intros Hr. destruct (readMessage_frame r Hr) as (v & r' & -> & Hr' & _ & Hv). split_and!; [done|done|].
  assert (length (br_bytes r) ≤ S MaxMessageLen + length (br_bytes r')) as Hle.
  { apply (f_equal (length ∘ snd)) in Hv. cbn [compose snd] in Hv. rewrite Hv. unfold frame.
    destruct (IndexByte _ _) as [i|]; destruct (_ <=? _) eqn:El; bool_props; cbn [snd];
      rewrite ?length_drop; simpl; lia. }
  pose proof (bo_bound _ Hr'). unfold br_bytes in Hle at 2. rewrite length_app in Hle. lia.
Qed.

(** C31: a connection is served to its end.  The stream is cut into messages;
    the handler is called with each of them in order and with nothing else,
    every one that was acknowledged was acknowledged with its own length, and
    serving stops only where the stream ends, where a message is too long, or
    where an acknowledgement cannot be written. *)
Theorem ServeConn_serves_the_stream addr conn w :
  prompt conn →
  ∃ sv ms rest, ServeConn addr conn w = Some sv
    ∧ r_bytes conn = concat (line <$> ms) ++ rest ∧ Forall legal ms
    ∧ sv_handled sv = pair addr <$> ms ∧ serve_ends addr ms rest (r_end conn) w sv.
Proof. intros Hp. by apply (ServeConn_loop_serves addr _ (NewReader conn) w (NewReader_ok _ Hp)). Qed.

(** C30: what is sent arrives.  When the two ends are joined, a message without
    a newline is handled exactly once, unchanged, and its sender gets its
    length acknowledged; a message with newlines, which [Send] does not
    refuse, is handled as one message per line, and the sender is told that
    the first line alone was received. *)
Theorem Send_delivers_each_line addr c1 c2 first others message start now :
  message = first ++ concat (cons nl <$> others) → Forall (λ l, nl ∉ l) (first :: others) →
  length message ≤ MaxMessageLen → prompt c1 → prompt c2 → errors_Is (r_end c1) io_EOF = true →
  r_bytes c1 = w_out (snd (Send c2 (mkWriter [] None) message start now)) →
  match ServeConn addr c1 (mkWriter [] None) with
  | Some sv =>
      sv_handled sv = pair addr <$> (first :: others) ∧ sv_log sv = []
      ∧ (r_bytes c2 = w_out (sv_out sv) →
         fst (Send c2 (mkWriter [] None) message start now) = (ack_line (length first), (now - start)%Z, None))
  | None => False
  end.
Proof.
  intros Hmsg Hnl Hlen H1 H2 Heof Hc1. unfold Send in *. rewrite (proj2 (Nat.ltb_ge _ _)) in * by done.
  cbn [Write w_room w_out] in *.
  assert (r_bytes c1 = concat (line <$> (first :: others)) ++ []) as Hbytes.
  { rewrite Hc1, app_nil_r. destruct (fst (readMessage _)); cbn [snd w_out app]; subst message; apply lines_join. }
  assert (Forall legal (first :: others)) as Hlegal.
  { apply Forall_forall. intros l Hl. rewrite Forall_forall in Hnl. split; [by apply Hnl|].
    pose proof (elem_of_lines first others l Hl). subst message. lia. }
  unfold ServeConn. rewrite (ServeConn_loop_lines addr (first :: others) [] _ (NewReader c1) [] EOF_error).
  - split_and!; [done|done|]. intros Hb. cbn [sv_out w_out app] in Hb.
    destruct (readMessage_frame (NewReader c2)) as (v & r' & E & _ & _ & Hv); [by apply NewReader_ok|].
    unfold br_bytes at 2 in Hv. cbn [NewReader br_buf br_src app] in Hv. rewrite Hb in Hv.
    cbn [fmap list_fmap concat] in Hv. unfold ack at 1 in Hv. rewrite frame_ack in Hv by apply (Forall_inv Hlegal). injection Hv as -> _.
    by rewrite E.
  - by apply NewReader_ok.
  - done.
  - done.
  - cbn. unfold frame. cbn. by rewrite Heof.
  - change (r_bytes c1) with (br_bytes (NewReader c1)) in Hbytes |- *. rewrite Hbytes, app_nil_r. apply lines_long.
Qed.

(** ** Properties: the accept loop *)

Definition server_ok (s : server) : Prop :=
  (sr_watching s = false → sr_phase s = Accepting → sr_open s = false) ∧
  match sr_phase s with Returned _ => sr_running s = ∅ | _ => True end.

Lemma server_ok_step s ev s' : server_ok s → step s ev = Some s' → server_ok s'.
Proof.
  unfold server_ok. intros [Hw Hr] H.
  destruct ev; cbn [step] in H; repeat (case_match; try done); simplify_eq; cbn in *; (split; [auto|]); try done.
  rewrite Hr. set_solver.
Qed.

Lemma server_ok_run evs s : run step initial evs = Some s → server_ok s.
Proof.
  intros H. apply (run_reachable step server_ok (λ _, True)) with (evs := evs) (s := initial).
  - intros s1 ev s2 H1 _ H2. by eapply server_ok_step.
  - by split.
  - by apply Forall_true.
  - exact H.
Qed.

(** What needs nothing from outside but that open connections end: a pending
    [Accept] fails only once the listener has been closed. *)
Definition forced_step (s : server) (ev : event) : option server :=
  match ev with
  | WatchCtx | WatchStops | ConnReturns _ | WaitEnds => step s ev
  | AcceptFails _ => if sr_open s then None else step s ev
  | Cancel _ | AcceptConn _ => None
  end.
Definition serve_left (s : server) : nat :=
  size (sr_running s)
  + (if sr_watching s then 1 else 0)
  + match sr_phase s with Accepting => 2 | Waiting _ => 1 | Returned _ => 0 end.

Lemma serve_forced_is_step s ev s' : forced_step s ev = Some s' → step s ev = Some s'.
Proof. destruct ev; cbn [forced_step]; try done. by destruct (sr_open s). Qed.

Lemma forced_left s ev s' : forced_step s ev = Some s' →
  serve_left s' < serve_left s ∧ sr_canceled s' = sr_canceled s
  ∧ ∀ err ce, sr_canceled s = Some ce → sr_phase s' = Returned err → err = ce ∨ sr_phase s = Returned err.
Proof.
  intros H. unfold serve_left. destruct ev as [e| | |c|e|c|]; cbn [forced_step step] in H; try done.
  - destruct (sr_canceled s) eqn:Hc; [|done]. destruct (sr_watching s); [|done]. injection H as <-. cbn.
    split_and!; [lia|done|by right].
  - destruct (sr_phase s) eqn:Hp; try done; (destruct (sr_watching s); [|done]); injection H as <-; cbn; rewrite ?Hp;
      split_and!; (lia || done || by right).
  - destruct (sr_open s); [done|]. destruct (sr_phase s); try done. injection H as <-. cbn. split_and!; [lia|done|done].
  - case_bool_decide as Hin; [|done]. injection H as <-. cbn. rewrite size_difference, size_singleton by set_solver.
    assert (size (sr_running s) ≠ 0) by (intros E%size_empty_inv; set_solver). split_and!; [lia|done|by right].
  - destruct (sr_phase s); try done. case_bool_decide as He; [|done]. injection H as <-. cbn. rewrite size_empty.
    split_and!; [lia|done|]. intros err' ce -> [= <-]. by left.
Qed.

Lemma serve_forced_run ce evs s s' : server_ok s → sr_canceled s = Some ce → (∀ err, sr_phase s = Returned err → err = ce) →
  run forced_step s evs = Some s' →
  server_ok s' ∧ sr_canceled s' = Some ce ∧ (∀ err, sr_phase s' = Returned err → err = ce)
  ∧ length evs + serve_left s' ≤ serve_left s.
Proof.
  revert s. induction evs as [|ev evs IH]; intros s Hok Hc Hp H; cbn [run length] in *; [by injection H as <-|].
  apply bind_Some in H as (s1 & H1 & H). destruct (forced_left _ _ _ H1) as (Hl & Hc1 & Hp1).
  apply serve_forced_is_step in H1. destruct (IH s1) as (? & ? & ? & ?); [by eapply server_ok_step|congruence| |done|].
  - intros err E. destruct (Hp1 err ce Hc E) as [?|?]; auto.
  - split_and!; [done..|lia].
Qed.

(** Until it returns, something can go on. *)
Lemma serve_forced_enabled ce s : server_ok s → sr_canceled s = Some ce → (∀ err, sr_phase s ≠ Returned err) →
  ∃ ev, is_Some (forced_step s ev).
Proof.
  intros [Hw _] Hc Hp. destruct (sr_phase s) as [|err|err] eqn:Hph; [| |by destruct (Hp err)].
  - destruct (sr_watching s) eqn:Ew.
    + exists WatchCtx. cbn. rewrite Hc, Ew. by eexists.
    + exists (AcceptFails ce). cbn [forced_step step]. rewrite (Hw eq_refl eq_refl), Hph. by eexists.
  - destruct (decide (sr_running s = ∅)) as [He|Hne].
    + exists WaitEnds. cbn. rewrite Hph, bool_decide_true by done. by eexists.
    + apply set_choose_L in Hne as [c Hin]. exists (ConnReturns c). cbn. rewrite bool_decide_true by done. by eexists.
Qed.

(** C33: [Serve] returns behind its last connection, never before: whatever
    ended the accepting, it waits for every handler and accepts nothing more,
    also where its comment says an error of [Accept] is returned immediately.
    Once its context is done it does return, with the context's error, as soon
    as the connections that are open end: in whatever order the goroutine that
    closes the listener, the [Accept] that then fails (and only then), the
    handlers and the wait take their steps, there are at most three more than
    open connections, and until it has returned one of them is possible. *)
Theorem Serve_returns_behind_its_handlers evs s :
  run step initial evs = Some s →
  (∀ err, sr_phase s = Returned err → sr_running s = ∅ ∧ ∀ c, step s (AcceptConn c) = None)
  ∧ (∀ err, sr_phase s = Waiting err → sr_running s ≠ ∅ → step s WaitEnds = None)
  ∧ (∀ ce, sr_canceled s = Some ce → (∀ err, sr_phase s ≠ Returned err) →
     ∀ evs' s', run forced_step s evs' = Some s' →
       length evs' ≤ size (sr_running s) + 3
       ∧ (sr_phase s' = Returned ce
          ∨ (∀ err, sr_phase s' ≠ Returned err) ∧ ∃ ev, is_Some (forced_step s' ev))).
Proof.
  intros Hrun. pose proof (server_ok_run _ _ Hrun) as Hok. split_and!.
  - intros err Hp. destruct Hok as [_ Hr]. rewrite Hp in Hr. split; [done|]. intros c. cbn [step]. by rewrite Hp.
  - intros err Hp Hne. cbn [step]. rewrite Hp. by rewrite bool_decide_false.
  - intros ce Hc Hp evs' s' H. destruct (serve_forced_run ce evs' s s' Hok Hc) as (Hok' & Hc' & Hp' & Hl); [|done|].
    { intros err E. by destruct (Hp err). }
    split.
    + unfold serve_left in Hl at 2. destruct (sr_watching s), (sr_phase s); lia.
    + destruct (sr_phase s') as [|e|e] eqn:E; [right|right|left; by rewrite (Hp' e eq_refl)];
        (split; [done|]; eapply serve_forced_enabled; [done|done|by rewrite E]).
Qed.

(** ** Two ends of one connection *)

Definition demo_addr : gostring := #"10.99.0.1:40000".
Definition demo_message : gostring := #"backup done" ++ nl :: #"at noon".
Definition demo_sink : reader := mkReader [ #"backup "; #"done" ++ nl :: #"at noon" ++ [nl]] EOF_error.
Definition demo_acks : reader := mkReader [ #"ACK 11" ++ [nl]; #"ACK 7" ++ [nl]] EOF_error.

Lemma readMessage_is_frame_witness :
  fst (readMessage (NewReader demo_sink)) = Ok (#"backup done")
  ∧ br_bytes (snd (readMessage (NewReader demo_sink))) = #"at noon" ++ [nl].
Proof.
  assert (br_ok (NewReader demo_sink)) as Hok by (apply NewReader_ok; by repeat constructor).
  pose proof (readMessage_is_frame (NewReader demo_sink) Hok) as H.
  destruct (readMessage (NewReader demo_sink)) as [v r']. destruct H as [H _].
  assert (frame (br_bytes (NewReader demo_sink)) (r_end (br_src (NewReader demo_sink)))
          = (Ok (#"backup done"), #"at noon" ++ [nl])) as E by by vm_compute.
  rewrite E in H. by injection H.
Defined.

Lemma ServeConn_serves_the_stream_witness :
  ∃ sv, ServeConn demo_addr demo_sink (mkWriter [] None) = Some sv
    ∧ sv_handled sv = [(demo_addr, #"backup done"); (demo_addr, #"at noon")] ∧ sv_log sv = [].
Proof.
  destruct (ServeConn_serves_the_stream demo_addr demo_sink (mkWriter [] None)) as (sv & ms & rest & E & _).
  - by repeat constructor.
  - exists sv. split; [exact E|]. vm_compute in E. injection E as <-. by vm_compute.
Defined.

Lemma Send_delivers_each_line_witness :
  fst (Send demo_acks (mkWriter [] None) demo_message 5 9) = (#"ACK 11", 4%Z, None)
  ∧ option_map sv_handled (ServeConn demo_addr demo_sink (mkWriter [] None))
    = Some [(demo_addr, #"backup done"); (demo_addr, #"at noon")].
Proof.
  pose proof (Send_delivers_each_line demo_addr demo_sink demo_acks (#"backup done") [ #"at noon"] demo_message 5 9) as H.
  destruct (ServeConn demo_addr demo_sink (mkWriter [] None)) as [sv|] eqn:E.
  2:{ destruct H; [reflexivity| |apply (bool_decide_eq_true_1 _); by vm_compute|by repeat constructor|by repeat constructor|
                   by vm_compute|by vm_compute].
      repeat constructor; apply (bool_decide_eq_true_1 _); by vm_compute. }
  destruct H as (H1 & _ & H3);
    [reflexivity|repeat constructor; apply (bool_decide_eq_true_1 _); by vm_compute|
     apply (bool_decide_eq_true_1 _); by vm_compute|by repeat constructor|by repeat constructor|by vm_compute|by vm_compute|].
  split.
  - rewrite H3; [by vm_compute|]. vm_compute in E. injection E as <-. by vm_compute.
  - cbn [option_map]. by rewrite H1.
Defined.

Definition demo_events : list event := [AcceptConn 0; AcceptConn 1; ConnReturns 0; Cancel (errors_New (#"stop"))].

Definition demo_server : server := default initial (run step initial demo_events).
Definition demo_end : list event :=
  [WatchCtx; AcceptFails (errors_New (#"use of closed network connection")); ConnReturns 1; WaitEnds].

Lemma Serve_returns_behind_its_handlers_witness :
  length demo_end ≤ size (sr_running demo_server) + 3
  ∧ sr_phase (default initial (run forced_step demo_server demo_end)) = Returned (errors_New (#"stop"))
  ∧ ∃ ev, is_Some (forced_step demo_server ev).
Proof.
  destruct (Serve_returns_behind_its_handlers demo_events demo_server) as (_ & _ & H).
  - apply from_Some. by vm_compute.
  - specialize (H (errors_New (#"stop"))). split; [|split].
    + refine (proj1 (H _ _ demo_end (default initial (run forced_step demo_server demo_end)) _)).
      * by vm_compute.
      * by vm_compute.
      * apply from_Some. by vm_compute.
    + by vm_compute.
    + destruct (H ltac:(by vm_compute) ltac:(by vm_compute) [] demo_server eq_refl) as [_ [Hr|[_ He]]]; [|exact He].
      vm_compute in Hr. discriminate Hr.
Defined.

End Msg.
