(* ===== verification/AwsSecrets.v ===== *)
(** * AWS secret references ([awssecrets/awssecrets.go])

    The resolver a program passes as its [SecretResolver] to read [aws:sm:]
    and [aws:ssm:] references.  The two AWS clients are parameters: what they
    answer is an error or an output whose fields may be nil pointers. *)

From S2P Require Import Prelude GoStrings GoNet Secret.
Import Secret.

Module AwsSecrets.

(** The fields of the two outputs the code reads; [None] is a nil pointer, or
    a nil slice for [SecretBinary]. *)
Record GetSecretValueOutput := { so_SecretString : option gostring; so_SecretBinary : option gostring }.
Record types_Parameter := { pa_Value : option gostring }.
Record GetParameterOutput := { po_Parameter : option types_Parameter }.

(** [secretsManagerAPI] and [ssmAPI]; an output is a pointer too. *)
Definition secretsManagerAPI := gostring → result (option GetSecretValueOutput).
Definition ssmAPI := gostring → bool → result (option GetParameterOutput).

Record Resolver := { rs_sm : option secretsManagerAPI; rs_ssm : option ssmAPI }.

(** [New]; the SDK's configuration and the two constructors are its own. *)
Definition New {AwsConfig : Type} (sm_NewFromConfig : AwsConfig → secretsManagerAPI)
    (ssm_NewFromConfig : AwsConfig → ssmAPI) (LoadDefaultConfig : result AwsConfig) : result Resolver :=
  let? cfg := rwrap (#"awssecrets: load AWS config: ") LoadDefaultConfig in
  Ok {| rs_sm := Some (sm_NewFromConfig cfg); rs_ssm := Some (ssm_NewFromConfig cfg) |}.

(** So the two errors that say to use it are for resolvers made without it. *)
Lemma New_has_both_clients {AwsConfig} (sm : AwsConfig → secretsManagerAPI) ssm load r :
  New sm ssm load = Ok r → ∃ cfg, load = Ok cfg ∧ rs_sm r = Some (sm cfg) ∧ rs_ssm r = Some (ssm cfg).
Proof. unfold New. destruct load as [cfg|e]; [|done]. intros [= <-]. by exists cfg. Qed.

Section resolver.
Context {GU : GoUnicode}.

Definition parseRef (ref : SecretRef) : result (gostring * gostring) :=
  if bool_decide (ref = []) then Err (errors_New (#"awssecrets: empty reference"))
  else
  let '(head, rest, ok) := Cut ref colon in
  if negb ok || negb (bool_decide (head = #"aws")) then
    Err (errors_New (#"awssecrets: reference " ++ Quote ref ++ #" is not an aws: reference"))
  else
  let '(sub, payload, ok) := Cut rest colon in
  if negb ok || bool_decide (sub = []) then
    Err (errors_New (#"awssecrets: reference " ++ Quote ref ++
      #" has no aws sub-scheme, want aws:sm:<secret-id> or aws:ssm:<parameter>"))
  else if bool_decide (payload = []) then
    Err (errors_New (#"awssecrets: empty payload in reference " ++ Quote ref))
  else Ok (#"aws:" ++ sub, payload).

Definition secretsManager (r : Resolver) (id : gostring) : result gostring :=
  let none := Err (errors_New (#"awssecrets: aws:sm:" ++ id ++ #": no secret value returned")) in
  match rs_sm r with
  | None => Err (errors_New (#"awssecrets: no Secrets Manager client; build the Resolver with New"))
  | Some sm =>
      let? out := rwrap (#"awssecrets: aws:sm:" ++ id ++ #": ") (sm id) in
      match out with
      | None => none
      | Some out =>
          match so_SecretString out, so_SecretBinary out with
          | Some s, _ => Ok s
          | None, Some b => Ok b
          | None, None => none
          end
      end
  end.

Definition ssmParameter (r : Resolver) (name : gostring) : result gostring :=
  match rs_ssm r with
  | None => Err (errors_New (#"awssecrets: no SSM client; build the Resolver with New"))
  | Some ssm =>
      let? out := rwrap (#"awssecrets: aws:ssm:" ++ name ++ #": ") (ssm name true) in
      match (out ≫= po_Parameter) ≫= pa_Value with
      | Some v => Ok v
      | None => Err (errors_New (#"awssecrets: aws:ssm:" ++ name ++ #": no parameter value returned"))
      end
  end.

Definition ResolveSecret (r : Resolver) (ref : SecretRef) : result gostring :=
  let? '(scheme, payload) := parseRef ref in
  if bool_decide (scheme = #"aws:sm") then secretsManager r payload
  else if bool_decide (scheme = #"aws:ssm") then ssmParameter r payload
  else Err (errors_New (#"awssecrets: unknown scheme " ++ Quote scheme ++ #", want aws:sm or aws:ssm")).

(** ** Lemmas *)

Lemma Cut_true s sep a b : Cut s sep = (a, b, true) ↔ s = a ++ sep :: b ∧ sep ∉ a.
Proof.
  unfold Cut. split.
  - destruct (IndexByte s sep) as [i|] eqn:E; [|done]. intros [= <- <-].
    apply IndexByte_Some in E as [H1 H2]. split; [|done]. by rewrite take_drop_middle.
  - intros [-> Ha]. rewrite IndexByte_app by done. rewrite take_app_length, drop_app, drop_ge by lia.
    by replace (S (length a) - length a) with 1 by lia.
Qed.

Lemma parseRef_Ok ref scheme payload :
  parseRef ref = Ok (scheme, payload) ↔
  ∃ sub, scheme = #"aws:" ++ sub ∧ sub ≠ [] ∧ (colon ∉ sub) ∧ payload ≠ []
    ∧ ref = #"aws:" ++ sub ++ colon :: payload.
Proof.
  assert (#"aws:" = #"aws" ++ [colon]) as Haws by reflexivity.
  assert (colon ∉ #"aws") as Hno by (apply (bool_decide_eq_true_1 (colon ∉ #"aws")); by vm_compute).
  unfold parseRef. split.
  - intros H. destruct (bool_decide (ref = [])); [done|].
    destruct (Cut ref colon) as [[h rest] ok] eqn:E1. destruct ok; cbn [negb orb] in H; [|done].
    case_bool_decide as Hh; cbn [negb orb] in H; [|done]. subst h.
    destruct (Cut rest colon) as [[sub pl] ok] eqn:E2. destruct ok; cbn [negb orb] in H; [|done].
    case_bool_decide as Hsub; [done|]. case_bool_decide as Hp; [done|]. injection H as <- <-.
    apply Cut_true in E1 as [-> _]. apply Cut_true in E2 as [-> Hs].
    exists sub. split_and!; try done.
  - intros (sub & -> & Hsub & Hs & Hp & ->).
    rewrite bool_decide_false by (rewrite Haws; by destruct sub).
    assert (Cut (#"aws:" ++ sub ++ colon :: payload) colon = (#"aws", sub ++ colon :: payload, true)) as ->.
    { apply Cut_true. split; [|done]. rewrite Haws. by rewrite <- app_assoc. }
    cbn [negb orb]. rewrite bool_decide_true by done. cbn [negb].
    assert (Cut (sub ++ colon :: payload) colon = (sub, payload, true)) as -> by by apply Cut_true.
    cbn [negb orb]. by rewrite !bool_decide_false.
Qed.

Lemma secretsManager_Ok r id v :
  secretsManager r id = Ok v ↔
  ∃ sm out, rs_sm r = Some sm ∧ sm id = Ok (Some out)
    ∧ (so_SecretString out = Some v ∨ so_SecretString out = None ∧ so_SecretBinary out = Some v).
Proof.
  unfold secretsManager. destruct (rs_sm r) as [sm|]; [|split; [done|by intros (? & ? & ? & _)]].
  destruct (sm id) as [[out|]|e] eqn:E; cbn; [|split; [done|intros (? & ? & [= <-] & H & _); congruence]..].
  split.
  - intros H. exists sm, out. split_and!; [done|done|].
    destruct (so_SecretString out) as [s|], (so_SecretBinary out) as [b|]; simplify_eq; auto.
  - intros (sm' & out' & [= <-] & H & Hv). rewrite E in H. injection H as <-.
    destruct Hv as [->|[-> ->]]; done.
Qed.

Lemma ssmParameter_Ok r name v :
  ssmParameter r name = Ok v ↔
  ∃ ssm out pa, rs_ssm r = Some ssm ∧ ssm name true = Ok (Some out)
    ∧ po_Parameter out = Some pa ∧ pa_Value pa = Some v.
Proof.
  unfold ssmParameter. destruct (rs_ssm r) as [ssm|]; [|split; [done|by intros (? & ? & ? & ? & _)]].
  destruct (ssm name true) as [[out|]|e] eqn:E; cbn; [|split; [done|intros (? & ? & ? & [= <-] & H & _); congruence]..].
  split.
  - intros H. destruct (po_Parameter out) as [pa|] eqn:Ep; cbn in H; [|done].
    exists ssm, out, pa. split_and!; [done..|]. destruct (pa_Value pa); by simplify_eq.
  - intros (ssm' & out' & pa & [= <-] & H & Hp & Hv). rewrite E in H. injection H as <-.
    rewrite Hp. cbn. by rewrite Hv.
Qed.

Lemma colon_split a b a' b' :
  colon ∉ a → colon ∉ a' → a ++ colon :: b = a' ++ colon :: b' → a = a' ∧ b = b'.
Proof.
  intros Ha Ha' E. apply (f_equal (λ s, Cut s colon)) in E.
  rewrite (proj2 (Cut_true _ colon a b) (conj eq_refl Ha)) in E.
  rewrite (proj2 (Cut_true _ colon a' b') (conj eq_refl Ha')) in E. by injection E.
Qed.

Lemma resolve_external os f scheme payload v :
  validSchemeName scheme = true → scheme ≠ #"file" → scheme ≠ #"env" →
  Resolve os (Some f) (scheme ++ colon :: payload) = Ok {| sec_value := v |} ↔
  v ≠ [] ∧ payload ≠ [] ∧ f (scheme ++ colon :: payload) = Ok v.
Proof.
  intros Hv H1 H2. unfold Resolve. split.
  - intros H. apply rbind_Ok in H as ([s p] & Hp & H). apply parseSecretRef_Ok in Hp as (Hs & Hne & Href).
    apply colon_split in Href as [<- <-]; [|by apply validSchemeName_no_colon..].
    rewrite !bool_decide_false in H by done. inv_result. bool_props. done.
  - intros (Hne & Hp & Hf). rewrite (proj2 (parseSecretRef_Ok _ scheme payload)) by done. cbn [rbind].
    rewrite !bool_decide_false by done. rewrite Hf. cbn. by rewrite bool_decide_false.
Qed.

Lemma aws_head scheme payload sub p :
  colon ∉ scheme → scheme ++ colon :: payload = #"aws:" ++ sub ++ colon :: p →
  scheme = #"aws" ∧ payload = sub ++ colon :: p.
Proof.
  intros Hs. change (#"aws:") with (#"aws" ++ [colon]). rewrite <- app_assoc. cbn [app].
  apply colon_split; [done|]. apply (bool_decide_eq_true_1 (colon ∉ #"aws")). by vm_compute.
Qed.

Lemma aws_parts sub p :
  sub = #"sm" ∨ sub = #"ssm" → p ≠ [] →
  #"aws:" ++ sub = #"aws:" ++ sub ∧ sub ≠ [] ∧ (colon ∉ sub) ∧ p ≠ []
  ∧ #"aws" ++ colon :: (sub ++ #":") ++ p = #"aws:" ++ sub ++ colon :: p.
Proof.
  intros Hsub Hp. split_and!; [done| | |done|].
  - by destruct Hsub as [->| ->].
  - destruct Hsub as [->| ->].
    + apply (bool_decide_eq_true_1 (colon ∉ #"sm")). by vm_compute.
    + apply (bool_decide_eq_true_1 (colon ∉ #"ssm")). by vm_compute.
  - change (#":") with [colon]. by rewrite <- app_assoc.
Qed.

(** ** Properties *)

(** C32: what an AWS reference resolves to, end to end.  With this resolver
    configured, a reference whose scheme is not [file:] or [env:] gives key
    material only when it is [aws:sm:<id>] or [aws:ssm:<name>] with a
    non-empty payload, and then exactly the non-empty value the matching
    client returned for that payload, a parameter being asked for decrypted;
    a missing client, an error, a nil output or an empty value gives none. *)
Theorem aws_references_resolve_exactly r os scheme payload v :
  validSchemeName scheme = true → scheme ≠ #"file" → scheme ≠ #"env" →
  Resolve os (Some (ResolveSecret r)) (scheme ++ colon :: payload) = Ok {| sec_value := v |} ↔
  scheme = #"aws" ∧ v ≠ [] ∧
  (   (∃ id sm out, payload = #"sm:" ++ id ∧ id ≠ [] ∧ rs_sm r = Some sm ∧ sm id = Ok (Some out)
         ∧ (so_SecretString out = Some v ∨ so_SecretString out = None ∧ so_SecretBinary out = Some v))
    ∨ (∃ name ssm out pa, payload = #"ssm:" ++ name ∧ name ≠ [] ∧ rs_ssm r = Some ssm
         ∧ ssm name true = Ok (Some out) ∧ po_Parameter out = Some pa ∧ pa_Value pa = Some v)).
Proof.
  intros Hv H1 H2. rewrite resolve_external by done. unfold ResolveSecret. split.
  - intros (Hne & Hpl & H). split_and!; [|done|].
    + apply rbind_Ok in H as ([s p] & Hp & _). apply parseRef_Ok in Hp as (sub & _ & _ & _ & _ & Href).
      apply aws_head in Href; [by destruct Href|by apply validSchemeName_no_colon].
    + apply rbind_Ok in H as ([s p] & Hp & H). apply parseRef_Ok in Hp as (sub & -> & Hs & _ & Hpay & Href).
      apply aws_head in Href as [-> ->]; [|by apply validSchemeName_no_colon]. case_bool_decide as E1; [left|case_bool_decide as E2; [right|done]].
      * apply (app_inv_head (#"aws:") sub (#"sm")) in E1 as ->. apply secretsManager_Ok in H as (sm & out & H).
        by exists p, sm, out.
      * apply (app_inv_head (#"aws:") sub (#"ssm")) in E2 as ->. apply ssmParameter_Ok in H as (ssm & out & pa & H).
        by exists p, ssm, out, pa.
  - intros (-> & Hne & H). split_and!; [done|by destruct H as [(? & ? & ? & -> & _)|(? & ? & ? & ? & -> & _)]|].
    destruct H as [(id & sm & out & -> & Hid & H)|(name & ssm & out & pa & -> & Hid & H)].
    + rewrite (proj2 (parseRef_Ok _ (#"aws:sm") id)); [cbn [rbind]|exists (#"sm"); apply (aws_parts (#"sm") id); auto].
      rewrite bool_decide_true by done. apply secretsManager_Ok. by exists sm, out.
    + rewrite (proj2 (parseRef_Ok _ (#"aws:ssm") name)); [cbn [rbind]|exists (#"ssm"); apply (aws_parts (#"ssm") name); auto].
      rewrite bool_decide_false by (by vm_compute). rewrite bool_decide_true by done.
      apply ssmParameter_Ok. by exists ssm, out, pa.
Qed.

End resolver.

(** ** One store *)

#[local] Instance demo_print : GoUnicode :=
  {| IsPrint r := (32 <=? r)%Z && (r <? 127)%Z; IsPrint_ascii := λ r _, eq_refl |}.

Definition demo_store : Resolver := {|
  rs_sm := Some (λ id, if bool_decide (id = #"gocloak/psk")
                       then Ok (Some {| so_SecretString := None; so_SecretBinary := Some (#"key") |})
                       else Err (errors_New (#"ResourceNotFoundException")));
  rs_ssm := None |}.

Lemma aws_references_resolve_exactly_witness :
  Resolve no_os (Some (ResolveSecret demo_store)) (#"aws:sm:gocloak/psk") = Ok {| sec_value := #"key" |}.
Proof.
  refine (proj2 (aws_references_resolve_exactly demo_store no_os (#"aws") (#"sm:gocloak/psk") (#"key") _ _ _) _);
    [by vm_compute|by vm_compute|by vm_compute|].
  split_and!; [reflexivity|by vm_compute|left].
  eexists (#"gocloak/psk"), _, {| so_SecretString := None; so_SecretBinary := Some (#"key") |}.
  split_and!; [reflexivity|by vm_compute|reflexivity|by vm_compute|by right].
Defined.

(** A reference that [%q] has to escape is not scrubbed: the comment on
    [ResolveSecret] counts on [scrubRef] to take the reference out of the
    error, but what [parseRef] put there is the quoted form, and the tail
    below is left in the text that is logged. *)
Definition quoted_ref : SecretRef := #"vault:pa" ++ dquote :: #"ss".
Theorem scrubbing_misses_quoted_references :
  match Resolve no_os (Some (ResolveSecret demo_store)) quoted_ref with
  | Err e => Contains (e_msg (scrubRef e quoted_ref)) (#"vault:pa" ++ backslash :: dquote :: #"ss") = true
  | Ok _ => False
  end.
Proof. by vm_compute. Qed.

End AwsSecrets.
