(* ===== verification/GoFlag.v ===== *)
(** * [flag] as the commands use it

    A flag set whose flags all take a value, parsed with
    [flag.ContinueOnError], and the durations among them. *)

From S2P Require Import Prelude GoStrings GoFloat GoNet.
From Stdlib Require Import QArith Qround.

(** ** [FlagSet.Parse] *)

Inductive parsed :=
  | Parsed (vals : gmap gostring gostring) (rest : list gostring)
  | Help                                   (* [flag.ErrHelp] *)
  | BadFlag (msg : gostring).

Definition dash : byte := "-"%byte.
Definition equals : byte := "="%byte.

(** The name of an argument that is a flag, with the value after the first
    [=] that is not at the start. *)
Definition flag_name (name : gostring) : gostring * option gostring :=
  match name with
  | c :: name' =>
      match IndexByte name' equals with
      | Some i => (c :: take i name', Some (drop (S i) name'))
      | None => (name, None)
      end
  | [] => ([], None)
  end.

(** [formal] has the flags that are defined, with the error their [Set]
    gives for a value; [vals] has what was set, the last one winning. *)
Fixpoint Parse `{GoUnicode} (formal : gmap gostring (gostring → option gostring)) (args : list gostring)
    (vals : gmap gostring gostring) : parsed :=
  match args with
  | [] => Parsed vals []
  | s :: args' =>
      let flag name :=
        match name with
        | [] => BadFlag (#"bad flag syntax: " ++ s)
        | c :: _ =>
            if bool_decide (c = dash) || bool_decide (c = equals) then BadFlag (#"bad flag syntax: " ++ s)
            else
            let '(name, value) := flag_name name in
            match formal !! name with
            | None =>
                if bool_decide (name = #"help") || bool_decide (name = #"h") then Help
                else BadFlag (#"flag provided but not defined: -" ++ name)
            | Some check =>
                let set v k :=
                  match check v with
                  | Some why => BadFlag (#"invalid value " ++ Quote v ++ #" for flag -" ++ name ++ #": " ++ why)
                  | None => k (<[name := v]> vals)
                  end in
                match value, args' with
                | Some v, _ => set v (Parse formal args')
                | None, v :: args'' => set v (Parse formal args'')
                | None, [] => BadFlag (#"flag needs an argument: -" ++ name)
                end
            end
        end in
      match s with
      | c1 :: c2 :: tl =>
          if negb (bool_decide (c1 = dash)) then Parsed vals args
          else if bool_decide (c2 = dash)
               then match tl with [] => Parsed vals args' | _ => flag tl end
               else flag (c2 :: tl)
      | _ => Parsed vals args
      end
  end.

(** A flag of type string accepts every value. *)
Definition any_string : gostring → option gostring := λ _, None.

(** ** [time.ParseDuration], of a flag of type duration *)

(** Leading digits as a number; [None] past 2^63. *)
Fixpoint leadingInt (x : Z) (s : gostring) : option (Z * gostring) :=
  match s with
  | c :: s' =>
      if negb (is_digit c) then Some (x, s)
      else if (2 ^ 63 / 10 <? x)%Z then None
      else let x' := (x * 10 + digit_val c)%Z in
           if (2 ^ 63 <? x')%Z then None else leadingInt x' s'
  | [] => Some (x, [])
  end.

(** Leading digits as a fraction [x/scale], digits past the precision being
    skipped; the scale is a float64. *)
Fixpoint leadingFraction (x : Z) (scale : Q) (overflow : bool) (s : gostring) : Z * Q * gostring :=
  match s with
  | c :: s' =>
      if negb (is_digit c) then (x, scale, s)
      else if overflow then leadingFraction x scale true s'
      else if ((2 ^ 63 - 1) / 10 <? x)%Z then leadingFraction x scale true s'
      else let y := (x * 10 + digit_val c)%Z in
           if (2 ^ 63 <? y)%Z then leadingFraction x scale true s'
           else leadingFraction y (fmul scale 10) false s'
  | [] => (x, scale, [])
  end.

Definition units : list (gostring * Z) := [
  (#"ns", 1); (#"us", 1000); (map byte_of_Z [194; 181; 115], 1000); (map byte_of_Z [206; 188; 115], 1000);
  (#"ms", Millisecond); (#"s", Second); (#"m", 60 * Second); (#"h", 3600 * Second)]%Z.
Definition unit_of (u : gostring) : option Z := snd <$> find (λ e, bool_decide (fst e = u)) units.

(** The bytes of a unit: up to a digit or a dot. *)
Fixpoint unit_prefix (s : gostring) : gostring * gostring :=
  match s with
  | c :: s' => if is_digit c || bool_decide (c = "."%byte) then ([], s)
               else let '(u, rest) := unit_prefix s' in (c :: u, rest)
  | [] => ([], [])
  end.

(** The loop, [d] being the sum so far. *)
Fixpoint duration_terms (fuel : nat) (d : Z) (s : gostring) : option Z :=
  match fuel, s with
  | _, [] => Some d
  | O, _ => None
  | S fuel', _ =>
      '(v, s1) ← leadingInt 0 s;
      let pre := negb (bool_decide (length s1 = length s)) in
      let '(f, scale, s2, post) :=
        match s1 with
        | c :: s1' => if bool_decide (c = "."%byte)
                      then let '(f, scale, s2) := leadingFraction 0 1 false s1' in
                           (f, scale, s2, negb (bool_decide (length s2 = length s1')))
                      else (0%Z, 1%Q, s1, false)
        | [] => (0%Z, 1%Q, s1, false)
        end in
      if negb (pre || post) then None
      else
      let '(u, s3) := unit_prefix s2 in
      unit ← unit_of u;
      if (2 ^ 63 / unit <? v)%Z then None
      else
      let v := (v * unit + (if (0 <? f)%Z then Qfloor (fmul (of_int f) (fdiv (of_int unit) scale)) else 0))%Z in
      if (2 ^ 63 <? v)%Z then None
      else if (2 ^ 63 <? d + v)%Z then None
      else duration_terms fuel' (d + v) s3
  end.

Definition ParseDuration (s : gostring) : option Z :=
  let '(neg, s) := match s with
                   | c :: s' => if bool_decide (c = dash) then (true, s')
                                else if bool_decide (c = "+"%byte) then (false, s') else (false, s)
                   | [] => (false, s)
                   end in
  if bool_decide (s = #"0") then Some 0%Z
  else if bool_decide (s = []) then None
  else d ← duration_terms (length s) 0 s;
       if neg : bool then Some (- d)%Z else if (2 ^ 63 - 1 <? d)%Z then None else Some d.

Definition a_duration : gostring → option gostring :=
  λ v, match ParseDuration v with Some _ => None | None => Some (#"parse error") end.

Example durations_parse :
  ParseDuration (#"10s") = Some (10 * Second)%Z ∧ ParseDuration (#"1h15m30.918s") = Some 4530918000000%Z
  ∧ ParseDuration (#"-.5ms") = Some (-500000)%Z ∧ ParseDuration (#"0") = Some 0%Z ∧ ParseDuration (#"5") = None
  ∧ ParseDuration (#"9223372036854775807ns") = Some (2 ^ 63 - 1)%Z
  ∧ ParseDuration (#"9223372036854775808ns") = None ∧ ParseDuration (#"1.s.") = None.
Proof. split_and!; by vm_compute. Qed.

(** ** The flags of a set, and [PrintDefaults] *)

Inductive flag_kind := StringFlag (dflt : gostring) | DurationFlag (dflt : Z).
Record flag := { fl_name : gostring; fl_kind : flag_kind; fl_usage : gostring }.

Definition flag_check (k : flag_kind) : gostring → option gostring :=
  match k with StringFlag _ => any_string | DurationFlag _ => a_duration end.
Definition formal_flags (fs : list flag) : gmap gostring (gostring → option gostring) :=
  list_to_map ((λ f, (fl_name f, flag_check (fl_kind f))) <$> fs).

(** [strings.Compare(a, b) <= 0] *)
Fixpoint string_le (a b : gostring) : bool :=
  match a, b with
  | [], _ => true
  | _, [] => false
  | x :: a', y :: b' =>
      if bool_decide (x = y) then string_le a' b' else (bval x <? bval y)%Z
  end.
(** The order of [VisitAll]: names are distinct. *)
Fixpoint insert_flag (f : flag) (fs : list flag) : list flag :=
  match fs with
  | [] => [f]
  | g :: fs' => if string_le (fl_name f) (fl_name g) then f :: fs else g :: insert_flag f fs'
  end.
Definition sort_flags (fs : list flag) : list flag := foldr insert_flag [] fs.

Definition backquote : byte := byte_of_Z 96.
(** The name of the value, quoted in the usage or else its type's, and the
    usage without the quotes. *)
Definition UnquoteUsage (f : flag) : gostring * gostring :=
  let usage := fl_usage f in
  let by_type := (match fl_kind f with StringFlag _ => #"string" | DurationFlag _ => #"duration" end, usage) in
  match IndexByte usage backquote with
  | None => by_type
  | Some i =>
      match IndexByte (drop (S i) usage) backquote with
      | None => by_type
      | Some j => let name := take j (drop (S i) usage) in
                  (name, take i usage ++ name ++ drop (S i + S j) usage)
      end
  end.

(** The default, unless it is the zero value; a string is quoted. *)
Definition default_text `{GoUnicode} (k : flag_kind) : gostring :=
  match k with
  | StringFlag d => if bool_decide (d = []) then [] else #" (default " ++ Quote d ++ #")"
  | DurationFlag d => if (d =? 0)%Z then [] else #" (default " ++ Duration_String d ++ #")"
  end.

Definition flag_line `{GoUnicode} (f : flag) : gostring :=
  let '(name, usage) := UnquoteUsage f in
  let b := #"  -" ++ fl_name f ++ (if bool_decide (name = []) then [] else #" " ++ name) in
  b ++ (if length b <=? 4 then [byte_of_Z 9] else nl :: #"    " ++ [byte_of_Z 9])
  ++ ReplaceAll usage [nl] (nl :: #"    " ++ [byte_of_Z 9]) ++ default_text (fl_kind f) ++ [nl].
Definition PrintDefaults `{GoUnicode} (fs : list flag) : gostring := concat (flag_line <$> sort_flags fs).

(** What a set of name [name] prints when its [Usage] is not set. *)
Definition defaultUsage `{GoUnicode} (name : gostring) (fs : list flag) : gostring :=
  (if bool_decide (name = []) then #"Usage:" else #"Usage of " ++ name ++ #":") ++ [nl] ++ PrintDefaults fs.

#[local] Instance ascii_print : GoUnicode :=
  {| IsPrint r := (32 <=? r)%Z && (r <? 127)%Z; IsPrint_ascii := λ r _, eq_refl |}.
Example defaults_print :
  PrintDefaults [ {| fl_name := #"wait"; fl_kind := DurationFlag Second; fl_usage := #"how long" |};
                  {| fl_name := #"d"; fl_kind := StringFlag (#"/tmp"); fl_usage := #"a " ++ backquote :: #"dir" ++ backquote :: #" to use" |} ]
  = #"  -d dir" ++ nl :: #"    " ++ byte_of_Z 9 :: #"a dir to use (default " ++ quote_byte :: #"/tmp" ++ quote_byte :: #")" ++ nl ::
    #"  -wait duration" ++ nl :: #"    " ++ byte_of_Z 9 :: #"how long (default 1s)" ++ [nl].
Proof. by vm_compute. Qed.
