(* ===== verification/CmdGocloak.v ===== *)
(** * The [gocloak] command ([cmd/gocloak/main.go])

    [keygen] over a file system (a map from paths to files) whose calls may
    fail, and [serve] as the order in which configuration, logger and server
    are made.  [curve25519.X25519] is a parameter; [crypto/rand] is a reader. *)

From S2P Require Import Prelude GoStrings GoEncoding GoNetip GoIO GoNet GoPath GoFlag Wire Secret Yaml Config Device Server.
Import Wire Secret Yaml Config Device Server.

Module CmdGocloak.

(** ** Secret files *)

Record file := { f_mode : Z; f_content : gostring }.
#[export] Instance file_eq_dec : EqDecision file.
Proof. solve_decision. Defined.
Abbreviation files := (gmap gostring file).

(** What the calls on one file return: a failing write may be partial, and
    [os.Remove] may fail. *)
Record fileIO := {
  fo_open : option error; fo_umask : Z; fo_write : option (nat * error);
  fo_sync : option error; fo_close : option error; fo_removes : bool
}.

Definition Remove (removes : bool) (path : gostring) (fs : files) : files :=
  if removes then delete path fs else fs.

Definition writeSecretFile (path content : gostring) (io : fileIO) (fs : files) : option error * files :=
  let exists_error := errors_New (path ++ #" already exists, refusing to overwrite") in
  match fs !! path, fo_open io with
  | Some _, _ => (Some exists_error, fs)              (* O_EXCL *)
  | None, Some err =>
      (Some (if errors_Is err os_ErrExist then exists_error
             else wrapf (#"write " ++ path ++ #": ") err), fs)
  | None, None =>
      let mode := Z.ldiff 384 (fo_umask io) in        (* 0o600 *)
      match fo_write io with
      | Some (n, err) =>
          (Some (wrapf (#"write " ++ path ++ #": ") err),
           Remove (fo_removes io) path (<[path := {| f_mode := mode; f_content := take n content |}]> fs))
      | None =>
          let fs' := <[path := {| f_mode := mode; f_content := content |}]> fs in
          match fo_sync io, fo_close io with
          | Some err, _ => (Some (wrapf (#"sync " ++ path ++ #": ") err), Remove (fo_removes io) path fs')
          | None, Some err => (Some (wrapf (#"close " ++ path ++ #": ") err), Remove (fo_removes io) path fs')
          | None, None => (None, fs')
          end
      end
  end.

(** ** Keys *)

Definition keyLen : nat := 32.
Definition pskLen : nat := 32.

Definition land (m : Z) (b : byte) : byte := byte_of_Z (Z.land (bval b) m).
Definition lor (m : Z) (b : byte) : byte := byte_of_Z (Z.lor (bval b) m).
Definition clampPrivateKey (priv : gostring) : gostring :=
  alter (lor 64) 31 (alter (land 127) 31 (alter (land 248) 0 priv)).

Section commands.
Context {GU : GoUnicode} (X25519_Basepoint : gostring → result gostring).

Definition generateKeypair (rand : reader) : result (gostring * gostring) * reader :=
  let '(raw, rand') := ReadFull keyLen rand in
  (let? raw := rwrap (#"generate private key: ") raw in
   let priv := clampPrivateKey raw in
   let? pub := rwrap (#"derive public key: ") (X25519_Basepoint priv) in
   Ok (priv, pub), rand').

Definition generatePSK (rand : reader) : result gostring * reader :=
  let '(raw, rand') := ReadFull pskLen rand in (rwrap (#"generate psk: ") raw, rand').

(** ** [keygen] *)

Record environment := {
  en_getwd : result gostring; en_rand : reader;
  en_key : fileIO; en_psk : fileIO; en_removes : bool
}.
Record output := { out_code : Z; out_stdout : gostring; out_stderr : gostring; out_files : files }.

Definition endl : gostring := [nl].

(** What [keygen] prints when it succeeds. *)
Definition keygen_report (name pub psk keyPath pskPath : gostring) : gostring :=
  #"peer: " ++ name ++ endl ++
  #"public_key: " ++ b64_encode pub ++ endl ++
  #"psk: " ++ b64_encode psk ++ endl ++
  #"private key written to: " ++ keyPath ++ endl ++
  #"psk written to: " ++ pskPath ++ endl.

(** [runKeygen] once the name and the directory are known. *)
Definition keygen_in (name targetDir : gostring) (en : environment) (fs : files) : output :=
  let fail err fs := {| out_code := 1; out_stdout := [];
                        out_stderr := #"gocloak: keygen: " ++ e_msg err ++ endl; out_files := fs |} in
  let '(keypair, rand) := generateKeypair (en_rand en) in
  match keypair with
  | Err err => fail err fs
  | Ok (priv, pub) =>
      match fst (generatePSK rand) with
      | Err err => fail err fs
      | Ok psk =>
          let keyPath := filepath_Join targetDir (name ++ #".key") in
          let pskPath := filepath_Join targetDir (name ++ #".psk") in
          match writeSecretFile keyPath (b64_encode priv) (en_key en) fs with
          | (Some err, fs1) => fail err fs1
          | (None, fs1) =>
              match writeSecretFile pskPath (b64_encode psk) (en_psk en) fs1 with
              | (Some err, fs2) => fail err (Remove (en_removes en) keyPath fs2)
              | (None, fs2) =>
                  {| out_code := 0; out_stdout := keygen_report name pub psk keyPath pskPath;
                     out_stderr := []; out_files := fs2 |}
              end
          end
      end
  end.

Definition keygen_flag_list : list flag :=
  [ {| fl_name := #"name"; fl_kind := StringFlag []; fl_usage := #"peer name" |};
    {| fl_name := #"dir"; fl_kind := StringFlag [];
       fl_usage := #"directory to write key files (default: current directory)" |} ].
Definition keygen_flags : gmap gostring (gostring → option gostring) := formal_flags keygen_flag_list.
Definition keygen_usage : gostring := defaultUsage (#"keygen") keygen_flag_list.

(** An exit with nothing but a message on stderr. *)
Definition quit (code : Z) (stderr : gostring) (fs : files) : output :=
  {| out_code := code; out_stdout := []; out_stderr := stderr; out_files := fs |}.

Definition runKeygen (args : list gostring) (en : environment) (fs : files) : output :=
  match Parse keygen_flags args ∅ with
  | Help => quit 0 keygen_usage fs
  | BadFlag msg => quit 2 (msg ++ endl ++ keygen_usage) fs
  | Parsed vals _ =>
      let name := default [] (vals !! #"name") in
      let dir := default [] (vals !! #"dir") in
      if bool_decide (name = []) then quit 2 (#"gocloak: keygen: --name is required" ++ endl) fs
      else if negb (ValidServiceName name) then
        quit 2 (#"gocloak: keygen: --name must match [a-z0-9][a-z0-9-]{0,62}" ++ endl) fs
      else if bool_decide (dir = []) then
        match en_getwd en with
        | Err err => quit 1 (#"gocloak: keygen: " ++ e_msg err ++ endl) fs
        | Ok wd => keygen_in name wd en fs
        end
      else keygen_in name dir en fs
  end.

End commands.

(** ** What [keygen] leaves behind *)

(** The X25519 contract on 32 bytes: the low three bits and the top bit are
    clear and the bit below the top is set. *)
Definition clamped (priv : gostring) : Prop :=
  length priv = 32 ∧ (∃ b, priv !! 0 = Some b ∧ Z.land (bval b) 7 = 0%Z)
  ∧ ∃ b, priv !! 31 = Some b ∧ (64 <= bval b < 128)%Z.

(** The two new files of a peer [name], in the directory [dir] itself. *)
Record minted (X25519 : gostring → result gostring) (en : environment) (fs : files) (o : output)
    (name dir priv pub psk keyPath pskPath : gostring) : Prop := {
  mt_name : ValidServiceName name = true;
  mt_priv : clamped priv;
  mt_pub : X25519 priv = Ok pub;
  mt_psk : length psk = 32;
  mt_keyPath : keyPath = render_path (rooted dir) (clean_elems dir ++ [name ++ #".key"]);
  mt_pskPath : pskPath = render_path (rooted dir) (clean_elems dir ++ [name ++ #".psk"]);
  mt_new : keyPath ≠ pskPath ∧ fs !! keyPath = None ∧ fs !! pskPath = None;
  mt_files : out_files o =
    <[pskPath := {| f_mode := Z.ldiff 384 (fo_umask (en_psk en)); f_content := b64_encode psk |}]>
    (<[keyPath := {| f_mode := Z.ldiff 384 (fo_umask (en_key en)); f_content := b64_encode priv |}]> fs);
  mt_stdout : out_stdout o = keygen_report name pub psk keyPath pskPath;
  mt_code : out_code o = 0%Z
}.

(** ** Lemmas *)

Lemma name_plain name ext :
  ValidServiceName name = true → ext = #".key" ∨ ext = #".psk" → plain_elem (name ++ ext).
Proof.
  intros Hn Hext. pose proof (ValidServiceName_length name Hn) as Hl. apply ValidServiceName_Forall in Hn.
  assert (length ext = 4) as He by by destruct Hext as [->| ->].
  assert (3 ≤ length (name ++ ext)) as H3 by (rewrite length_app; lia).
  split_and!; [|by intros E; rewrite E in H3; simpl in H3; lia..].
  rewrite elem_of_app. intros [Hin|Hin].
  - rewrite Forall_forall in Hn. by apply Hn, name_tail_printable in Hin as (_ & _ & Hin).
  - revert Hin. destruct Hext as [->| ->].
    + apply (bool_decide_eq_true_1 (slash ∉ #".key")). by vm_compute.
    + apply (bool_decide_eq_true_1 (slash ∉ #".psk")). by vm_compute.
Qed.

Lemma clamp_low b : Z.land (bval (land 248 b)) 7 = 0%Z.
Proof. revert b. apply (byte_forall (λ b, Z.land (bval (land 248 b)) 7 = 0%Z)). by vm_compute. Qed.
Lemma clamp_high b : (64 <= bval (lor 64 (land 127 b)) < 128)%Z.
Proof. revert b. apply (byte_forall (λ b, (64 <= bval (lor 64 (land 127 b)) < 128)%Z)). by vm_compute. Qed.

Lemma clampPrivateKey_clamped raw : length raw = 32 → clamped (clampPrivateKey raw).
Proof.
  intros Hl. unfold clampPrivateKey. split_and!.
  - by rewrite !length_alter.
  - destruct (lookup_lt_is_Some_2 raw 0) as [b Hb]; [lia|]. exists (land 248 b).
    split; [|apply clamp_low]. rewrite !list_lookup_alter_ne, list_lookup_alter_eq by done. by rewrite Hb.
  - destruct (lookup_lt_is_Some_2 raw 31) as [b Hb]; [lia|]. exists (lor 64 (land 127 b)).
    split; [|apply clamp_high]. rewrite !list_lookup_alter_eq, list_lookup_alter_ne by done. by rewrite Hb.
Qed.

Lemma private_mode umask : Z.land (Perm (Z.ldiff 384 umask)) 63 = 0%Z.
Proof.
  unfold Perm. apply Z.bits_inj'. intros n _. rewrite !Z.land_spec, Z.ldiff_spec, Z.bits_0.
  assert (Z.testbit 384 n && Z.testbit 63 n = false) as H.
  { rewrite <- Z.land_spec. change (Z.land 384 63) with 0%Z. apply Z.bits_0. }
  by destruct (Z.testbit 384 n), (Z.testbit 63 n), (Z.testbit umask n), (Z.testbit 511 n).
Qed.

Lemma writeSecretFile_spec path content io fs :
  match writeSecretFile path content io fs with
  | (None, fs') => fs !! path = None
      ∧ fs' = <[path := {| f_mode := Z.ldiff 384 (fo_umask io); f_content := content |}]> fs
  | (Some _, fs') => (∀ p, p ≠ path → fs' !! p = fs !! p) ∧ (is_Some (fs !! path) → fs' = fs)
      ∧ (fo_removes io = true → fs' = fs)
  end.
Proof.
  unfold writeSecretFile. destruct (fs !! path) as [f|] eqn:Ef; [by split_and!|].
  destruct (fo_open io); [by split_and!|].
  assert (∀ m c, (∀ p, p ≠ path → Remove (fo_removes io) path (<[path := {| f_mode := m; f_content := c |}]> fs) !! p
      = fs !! p) ∧ (is_Some (None : option file) →
        Remove (fo_removes io) path (<[path := {| f_mode := m; f_content := c |}]> fs) = fs)
      ∧ (fo_removes io = true → Remove (fo_removes io) path (<[path := {| f_mode := m; f_content := c |}]> fs) = fs))
    as Hrem.
  { intros m c. unfold Remove. split_and!.
    - intros p Hp. destruct (fo_removes io); rewrite ?lookup_delete_ne, lookup_insert_ne by done; done.
    - by intros [? ?].
    - intros ->. rewrite delete_insert_eq. by apply delete_id. }
  destruct (fo_write io) as [[n err]|]; [apply Hrem|].
  destruct (fo_sync io); [apply Hrem|]. destruct (fo_close io); [apply Hrem|]. done.
Qed.

Lemma space_not_b64 c : b64_alphabet c = true →
  forallb (λ e, match e with b :: _ => negb (bool_decide (b = c)) | [] => false end)
    (space_encodings ++ map reverse space_encodings) = true.
Proof.
  revert c. apply (byte_forall (λ c, b64_alphabet c = true → _ = true)). by vm_compute.
Qed.

Lemma strip_left_b64 fuel encs s :
  encs = space_encodings ∨ encs = map reverse space_encodings →
  Forall (λ c, b64_alphabet c = true) s → strip_left fuel encs s = s.
Proof.
  intros Hencs Hs. destruct fuel as [|fuel]; [done|]. cbn [strip_left].
  assert (strip_one encs s = None) as ->; [|done]. unfold strip_one.
  destruct (find (HasPrefix s) encs) as [e|] eqn:E; [|done]. exfalso.
  apply find_some in E as [Hin Hpre].
  assert (∀ c, b64_alphabet c = true → ∃ b e', e = b :: e' ∧ b ≠ c) as He.
  { intros c Hc. pose proof (space_not_b64 c Hc) as H. rewrite forallb_app in H.
    apply andb_prop in H as [H1 H2]. rewrite forallb_forall in H1, H2.
    assert (match e with b :: _ => negb (bool_decide (b = c)) | [] => false end = true) as He
      by (destruct Hencs; subst; auto).
    destruct e as [|b e]; [done|]. bool_props. by exists b, e. }
  destruct s as [|c s].
  - destruct (He "A"%byte) as (b & e' & -> & _); [by vm_compute|done].
  - apply Forall_cons in Hs as [Hc _]. destruct (He c Hc) as (b & e' & -> & Hne). cbn [HasPrefix] in Hpre.
    bool_props. congruence.
Qed.

Lemma TrimSpace_b64 s : Forall (λ c, b64_alphabet c = true) s → TrimSpace s = s.
Proof.
  intros Hs. unfold TrimSpace. rewrite (strip_left_b64 _ space_encodings s) by auto.
  rewrite strip_left_b64 by (auto; by apply Forall_reverse). apply reverse_involutive.
Qed.

Section keygen_facts.
Context {GU : GoUnicode} (X25519_Basepoint : gostring → result gostring).

Lemma generateKeypair_Ok rand priv pub rand' :
  generateKeypair X25519_Basepoint rand = (Ok (priv, pub), rand') →
  clamped priv ∧ X25519_Basepoint priv = Ok pub.
Proof.
  unfold generateKeypair. destruct (ReadFull keyLen rand) as [raw r'] eqn:E. intros [= H _].
  inv_result. split; [|done]. apply clampPrivateKey_clamped. by eapply ReadFull_length.
Qed.

Lemma generatePSK_Ok rand psk : fst (generatePSK rand) = Ok psk → length psk = 32.
Proof.
  unfold generatePSK. destruct (ReadFull pskLen rand) as [raw r'] eqn:E. cbn [fst]. intros H.
  inv_result. by eapply (ReadFull_length pskLen).
Qed.

(** A file that a failed run could not take back: [os.Remove], whose result
    the code drops, failed on it. *)
Definition unremoved (name dir : gostring) (en : environment) (p : gostring) : Prop :=
  (p = filepath_Join dir (name ++ #".key") ∧ (fo_removes (en_key en) = false ∨ en_removes en = false))
  ∨ (p = filepath_Join dir (name ++ #".psk") ∧ fo_removes (en_psk en) = false).

(** What a run did to the files: it minted a peer, or printed nothing and
    left no new file but one it could not remove. *)
Definition mints_or_leaves (name dir : gostring) (en : environment) (fs : files) (o : output) : Prop :=
  (∀ p f, fs !! p = Some f → out_files o !! p = Some f)
  ∧ ((∃ priv pub psk keyPath pskPath, minted X25519_Basepoint en fs o name dir priv pub psk keyPath pskPath)
     ∨ (out_stdout o = [] ∧ out_code o ≠ 0%Z
        ∧ ∀ p, out_files o !! p ≠ fs !! p → unremoved name dir en p)).

Lemma mints_or_leaves_unchanged name dir en fs o :
  out_stdout o = [] → out_code o ≠ 0%Z → out_files o = fs → mints_or_leaves name dir en fs o.
Proof. intros H1 H2 H3. split; [by rewrite H3|]. right. split_and!; [done|done|]. by intros p; rewrite H3. Qed.

Lemma keygen_in_spec name dir en fs :
  ValidServiceName name = true → dir ≠ [] →
  mints_or_leaves name dir en fs (keygen_in X25519_Basepoint name dir en fs).
Proof.
  intros Hn Hd. unfold keygen_in.
  destruct (generateKeypair X25519_Basepoint (en_rand en)) as [[[priv pub]|err] rand] eqn:Ek;
    [|by apply mints_or_leaves_unchanged].
  apply generateKeypair_Ok in Ek as [Hpriv Hpub].
  destruct (fst (generatePSK rand)) as [psk|err] eqn:Epsk; [|by apply mints_or_leaves_unchanged].
  apply generatePSK_Ok in Epsk.
  pose proof (name_plain name (#".key") Hn (or_introl eq_refl)) as Hpk.
  pose proof (name_plain name (#".psk") Hn (or_intror eq_refl)) as Hpp.
  set (keyPath := filepath_Join dir (name ++ #".key")). set (pskPath := filepath_Join dir (name ++ #".psk")).
  assert (keyPath ≠ pskPath) as Hne.
  { intros E%filepath_Join_inj; [|done..]. by apply app_inv_head in E. }
  pose proof (writeSecretFile_spec keyPath (b64_encode priv) (en_key en) fs) as Hk.
  destruct (writeSecretFile keyPath _ _ fs) as [[err|] fs1].
  { destruct Hk as (Hother & Hold & Hrem). split; cbn [out_files].
    - intros p f E. destruct (decide (p = keyPath)) as [->|Hp]; [by rewrite Hold|by rewrite Hother].
    - right. split_and!; [done|done|]. intros p Hp. left. destruct (decide (p = keyPath)) as [->|Hpk'];
        [|by rewrite Hother in Hp]. split; [done|]. left. apply not_true_is_false. intros H. by rewrite Hrem in Hp. }
  destruct Hk as [Hkn ->]. set (fs1 := <[keyPath := _]> fs).
  pose proof (writeSecretFile_spec pskPath (b64_encode psk) (en_psk en) fs1) as Hp.
  destruct (writeSecretFile pskPath _ _ fs1) as [[err|] fs2].
  - destruct Hp as (Hother & Hold & Hrem). split; cbn [out_files].
    + intros p f E. assert (p ≠ keyPath) as Hpk' by congruence.
      assert (fs2 !! p = Some f) as E2.
      { assert (fs1 !! p = Some f) as E1 by (unfold fs1; by rewrite lookup_insert_ne).
        destruct (decide (p = pskPath)) as [->|Hpp']; [|by rewrite Hother].
        rewrite Hold; [done|by rewrite E1]. }
      unfold Remove. destruct (en_removes en); [by rewrite lookup_delete_ne|done].
    + right. split_and!; [done|done|]. intros p Hp'. unfold Remove in Hp'.
      destruct (decide (p = pskPath)) as [->|Hpp'].
      { right. split; [done|]. apply not_true_is_false. intros H. rewrite (Hrem H) in Hp'. apply Hp'.
        unfold fs1. by destruct (en_removes en); rewrite ?lookup_delete_ne, lookup_insert_ne. }
      left. destruct (decide (p = keyPath)) as [->|Hpk'].
      * split; [done|]. right. destruct (en_removes en); [|done]. by rewrite lookup_delete_eq in Hp'.
      * exfalso. apply Hp'. destruct (en_removes en); rewrite ?lookup_delete_ne by done;
          rewrite Hother by done; unfold fs1; by rewrite lookup_insert_ne.
  - destruct Hp as [Hpn ->]. unfold fs1 in Hpn. rewrite lookup_insert_ne in Hpn by done. split; cbn [out_files].
    + intros p f E. assert (pskPath ≠ p ∧ keyPath ≠ p) as [? ?] by (split; intros ->; congruence).
      unfold fs1. by rewrite !lookup_insert_ne.
    + left. exists priv, pub, psk, keyPath, pskPath.
      constructor; try done; cbn [out_files]; by apply filepath_Join_plain.
Qed.

(** The name and the directory of the arguments. *)
Definition asked_for (vals : gmap gostring gostring) (en : environment) (name dir : gostring) : Prop :=
  vals !! #"name" = Some name
  ∧ (vals !! #"dir" = Some dir ∨ default [] (vals !! #"dir") = [] ∧ en_getwd en = Ok dir).

Lemma default_Some (o : option gostring) : default [] o ≠ [] → o = Some (default [] o).
Proof. by destruct o. Qed.

Lemma runKeygen_cases args en fs :
  (∀ wd, en_getwd en = Ok wd → wd ≠ []) →
  (∃ code err, runKeygen X25519_Basepoint args en fs = quit code err fs
     ∧ (code = 0%Z → Parse keygen_flags args ∅ = Help))
  ∨ ∃ vals rest name dir, Parse keygen_flags args ∅ = Parsed vals rest ∧ asked_for vals en name dir
      ∧ mints_or_leaves name dir en fs (runKeygen X25519_Basepoint args en fs).
Proof.
  intros Hwd. unfold runKeygen. destruct (Parse keygen_flags args ∅) as [vals rest| |msg] eqn:Ep;
    [|left; by eexists _, _..].
  set (name := default [] (vals !! #"name")). set (dir := default [] (vals !! #"dir")).
  case_bool_decide as Hname; [left; by eexists _, _|].
  destruct (ValidServiceName name) eqn:Hn; cbn [negb]; [|left; by eexists _, _].
  pose proof (default_Some _ Hname) as Hsome. case_bool_decide as Hd.
  - destruct (en_getwd en) as [wd|err] eqn:Ew; [|left; by eexists _, _]. right.
    exists vals, rest, name, wd. split_and!; [done| |apply keygen_in_spec; [done|by apply Hwd]]. split; [done|by right].
  - right. exists vals, rest, name, dir. split_and!; [done| |by apply keygen_in_spec].
    split; [done|]. left. by apply default_Some.
Qed.

(** The file system of a later process. *)
Definition os_of (fs : files) : osEnv := {|
  os_Open := λ p, match fs !! p with
                  | Some f => Ok {| of_mode := Ok (f_mode f); of_content := Ok (f_content f) |}
                  | None => Err (errors_New (#"open " ++ p ++ #": no such file or directory"))
                  end;
  os_LookupEnv := λ _, None |}.

Lemma file_reference path : path ≠ [] → validSecretRef (#"file:" ++ path) = None.
Proof.
  intros Hp. apply validSecretRef_None.
  by rewrite (proj2 (parseSecretRef_Ok _ (#"file") path)) by (split_and!; [by vm_compute|done|done]).
Qed.

Lemma file_resolves fs path mode content :
  path ≠ [] → fs !! path = Some {| f_mode := mode; f_content := content |} → Z.land (Perm mode) 63 = 0%Z →
  Secret.Resolve (os_of fs) None (#"file:" ++ path) = Ok {| sec_value := content |}.
Proof.
  intros Hp Hf Hm. unfold Secret.Resolve.
  rewrite (proj2 (parseSecretRef_Ok _ (#"file") path)) by (split_and!; [by vm_compute|done|done]).
  cbn [rbind]. rewrite bool_decide_true by done. unfold resolveFile, os_of. cbn [os_Open]. rewrite Hf.
  cbn [rwrap rbind of_mode of_content f_mode f_content]. by rewrite Hm.
Qed.

Lemma keyToHex_b64 key : length key = 32 → keyToHex (b64_encode key) = Ok (hex_encode key).
Proof.
  intros Hl. apply keyToHex_Ok. exists key. split_and!; [|done|done].
  rewrite TrimSpace_b64 by apply b64_encode_alphabet. apply b64_decode_encode.
Qed.

(** The two files serve as secrets, and what is printed as configuration. *)
Definition usable (fs : files) (name priv pub psk keyPath pskPath : gostring) : Prop :=
  Secret.Resolve (os_of fs) None (#"file:" ++ keyPath) = Ok {| sec_value := b64_encode priv |}
  ∧ Secret.Resolve (os_of fs) None (#"file:" ++ pskPath) = Ok {| sec_value := b64_encode psk |}
  ∧ keyToHex (b64_encode priv) = Ok (hex_encode priv) ∧ keyToHex (b64_encode psk) = Ok (hex_encode psk)
  ∧ validSecretRef (#"file:" ++ keyPath) = None ∧ validSecretRef (#"file:" ++ pskPath) = None
  ∧ validPublicKey (b64_encode pub) = None ∧ ValidServiceName name = true.

Lemma minted_usable en fs o name dir priv pub psk keyPath pskPath :
  minted X25519_Basepoint en fs o name dir priv pub psk keyPath pskPath → length pub = 32 →
  usable (out_files o) name priv pub psk keyPath pskPath.
Proof.
  intros [Hn [Hpriv _] _ Hpsk Hk Hp (Hne & _ & _) Hfs _ _] Hpub.
  assert (keyPath ≠ [] ∧ pskPath ≠ []) as [Hk0 Hp0].
  { rewrite Hk, Hp, !render_path_snoc. destruct (rooted dir), (decide _); split; try done;
      intros E; apply (f_equal length) in E; rewrite ?length_app in E; simpl in E; lia. }
  unfold usable. split_and!.
  - eapply file_resolves; [done|rewrite Hfs, lookup_insert_ne, lookup_insert_eq by done; reflexivity|apply private_mode].
  - eapply file_resolves; [done|rewrite Hfs, lookup_insert_eq; reflexivity|apply private_mode].
  - by apply keyToHex_b64.
  - by apply keyToHex_b64.
  - by apply file_reference.
  - by apply file_reference.
  - apply validPublicKey_None. unfold key_ok. exists pub. split; [apply b64_decode_encode|done].
  - done.
Qed.

(** ** Properties *)

(** C28: [keygen] mints a peer or does nothing.  Whatever fails on the way, no
    file that was there is changed; when it prints, two new files, of mode at
    most 0600 and directly in the directory asked for, hold a clamped private
    key and a 32-byte preshared key, the public key printed is the one of that
    private key, and nothing else is printed; when it fails, nothing is printed
    and every file is as it was, except one of the two it could not remove: the
    clean-up is best effort, so a key file whose [os.Remove] fails stays.
    Assumed: a working directory, when [os.Getwd] gives one, is not empty. *)
Theorem keygen_mints_or_leaves_nothing args en fs :
  (∀ wd, en_getwd en = Ok wd → wd ≠ []) →
  let o := runKeygen X25519_Basepoint args en fs in
  (∀ p f, fs !! p = Some f → out_files o !! p = Some f)
  ∧ ((∃ vals rest name dir priv pub psk keyPath pskPath,
        Parse keygen_flags args ∅ = Parsed vals rest ∧ asked_for vals en name dir
        ∧ minted X25519_Basepoint en fs o name dir priv pub psk keyPath pskPath)
     ∨ (out_stdout o = [] ∧ (out_code o = 0%Z → Parse keygen_flags args ∅ = Help)
        ∧ ∀ p, out_files o !! p ≠ fs !! p →
            ∃ vals rest name dir, Parse keygen_flags args ∅ = Parsed vals rest ∧ asked_for vals en name dir
              ∧ unremoved name dir en p)).
Proof.
  intros Hwd. destruct (runKeygen_cases args en fs Hwd) as [(code & err & -> & Hc)|(vals & rest & name & dir & Hp & Ha & H)].
  - cbn zeta. split; [done|]. right. split_and!; [done|exact Hc|done].
  - destruct H as [H1 [(priv & pub & psk & kp & pp & Hm)|(H2 & H3 & H4)]]; (split; [exact H1|]).
    + left. by exists vals, rest, name, dir, priv, pub, psk, kp, pp.
    + right. split_and!; [done|done|]. intros p Hne%H4. by exists vals, rest, name, dir.
Qed.

(** C29: what [keygen] mints, the rest of the program takes.  When a run
    prints anything, it prints the report of a peer whose two files resolve as
    [file:] references, their modes passing the 0600 check, to keys the device
    accepts as exactly a private key, the one the printed public key belongs
    to, and the preshared key printed; the references and the public key pass
    the checks of the configuration files, and the name is a peer name.
    Assumed: X25519 gives 32 bytes, and a working directory is not empty. *)
Theorem keygen_keys_are_usable args en fs :
  (∀ wd, en_getwd en = Ok wd → wd ≠ []) → (∀ k p, X25519_Basepoint k = Ok p → length p = 32) →
  let o := runKeygen X25519_Basepoint args en fs in
  out_stdout o ≠ [] →
  ∃ name priv pub psk keyPath pskPath,
    out_stdout o = keygen_report name pub psk keyPath pskPath ∧ X25519_Basepoint priv = Ok pub
    ∧ usable (out_files o) name priv pub psk keyPath pskPath.
Proof.
  intros Hwd Hlen o Hprints.
  destruct (runKeygen_cases args en fs Hwd) as [(code & err & E & _)|(vals & rest & name & dir & _ & _ & _ & H)].
  { unfold o in Hprints. by rewrite E in Hprints. }
  destruct H as [(priv & pub & psk & kp & pp & Hm)|[H _]]; [|done].
  exists name, priv, pub, psk, kp, pp.
  split_and!; [exact (mt_stdout _ _ _ _ _ _ _ _ _ _ _ Hm)|exact (mt_pub _ _ _ _ _ _ _ _ _ _ _ Hm)|].
  eapply minted_usable; [exact Hm|]. by eapply Hlen, (mt_pub _ _ _ _ _ _ _ _ _ _ _ Hm).
Qed.

End keygen_facts.
(** ** [serve] *)

Section serve.
Context {GU : GoUnicode} {RO : GoRange}.

(** A line of the log: the format of the handler that writes it, whether it
    is an error, its message and its one attribute. *)
Record logLine := { ll_format : gostring; ll_error : bool; ll_msg : gostring; ll_attr : gostring }.
Record daemon := {
  dm_code : Z; dm_stderr : gostring; dm_log : list logLine;
  dm_default : gostring;                     (* the handler [slog.Default] has *)
  dm_ran : option ServerConfig               (* what [Server.Run] was called on *)
}.

(** [newLogHandler]: the handler is its format. *)
Definition newLogHandler (format : gostring) : result gostring :=
  if bool_decide (format = #"json") then Ok (#"json")
  else if bool_decide (format = #"text") then Ok (#"text")
  else Err (errors_New (#"log_format " ++ Quote format ++ #" must be json or text")).

Definition serve_flag_list : list flag :=
  [ {| fl_name := #"config"; fl_kind := StringFlag []; fl_usage := #"path to server.yaml" |} ].
Definition serve_flags : gmap gostring (gostring → option gostring) := formal_flags serve_flag_list.
Definition serve_usage : gostring := defaultUsage (#"serve") serve_flag_list.

(** [runServe]; [Run] is what the server's own [Run] returns once it stops,
    and [handler0] the handler the process starts with. *)
Definition runServe (args : list gostring) (handler0 : gostring)
    (ReadFile : readFile) (yaml : gostring → yaml_stream serverYAML)
    (ReadPeers : readFile) (yaml_peers : gostring → yaml_stream peersYAML)
    (Run : ServerConfig → option error) : daemon :=
  let exit code stderr := {| dm_code := code; dm_stderr := stderr; dm_log := []; dm_default := handler0; dm_ran := None |} in
  match Parse serve_flags args ∅ with
  | Help => exit 0%Z serve_usage
  | BadFlag msg => exit 2%Z (msg ++ endl ++ serve_usage)
  | Parsed vals _ =>
      let configPath := default [] (vals !! #"config") in
      if bool_decide (configPath = []) then exit 2%Z (#"gocloak: serve: --config is required" ++ endl)
      else
      let line format e msg attr := {| ll_format := format; ll_error := e; ll_msg := msg; ll_attr := attr |} in
      match LoadServerConfig ReadFile yaml configPath with
      | Err err =>
          {| dm_code := 1; dm_stderr := []; dm_default := handler0; dm_ran := None;
             dm_log := [line (#"json") true (#"gocloak: serve: could not load config") (e_msg err)] |}
      | Ok fc =>
          match newLogHandler (sf_LogFormat fc) with
          | Err err =>
              {| dm_code := 1; dm_stderr := []; dm_default := handler0; dm_ran := None;
                 dm_log := [line (#"json") true (#"gocloak: serve: could not build log handler") (e_msg err)] |}
          | Ok h =>
              match NewServer ReadPeers yaml_peers (ServerConfigFrom (Some fc)) with
              | Err err =>
                  {| dm_code := 1; dm_stderr := []; dm_default := h; dm_ran := None;
                     dm_log := [line h true (#"gocloak: serve: could not construct server") (e_msg err)] |}
              | Ok cfg =>
                  let start := line h false (#"gocloak: starting") configPath in
                  match Run cfg with
                  | Some err =>
                      {| dm_code := 1; dm_stderr := []; dm_default := h; dm_ran := Some cfg;
                         dm_log := [start; line h true (#"gocloak: serve: server run failed") (e_msg err)] |}
                  | None =>
                      {| dm_code := 0; dm_stderr := []; dm_default := h; dm_ran := Some cfg;
                         dm_log := [start; line h false (#"gocloak: stopped") []] |}
                  end
              end
          end
      end
  end.

Lemma newLogHandler_loaded ReadFile yaml path fc :
  LoadServerConfig ReadFile yaml path = Ok fc → newLogHandler (sf_LogFormat fc) = Ok (sf_LogFormat fc).
Proof.
  intros (data & raw & _ & _ & _ & [])%LoadServerConfig_spec. subst fc. cbn [sf_LogFormat].
  rewrite !elem_of_cons, elem_of_nil in ss_fmt0. by destruct ss_fmt0 as [->|[->|[->|[]]]].
Qed.

(** [serve] fails closed.  A server runs only when its file loaded, its
    logger was made from the file's [log_format] and [NewServer] accepted what
    the file says; it runs with what [NewServer] returned, every line being
    logged in the file's format from then on; and the exit code is zero only
    for a server that ran and stopped without an error, or for a request for
    help. *)
Theorem serve_fails_closed args handler0 ReadFile yaml ReadPeers yaml_peers Run :
  let d := runServe args handler0 ReadFile yaml ReadPeers yaml_peers Run in
  match dm_ran d with
  | None => dm_code d = 0%Z → Parse serve_flags args ∅ = Help
  | Some cfg => ∃ vals rest path fc, Parse serve_flags args ∅ = Parsed vals rest ∧ vals !! #"config" = Some path
      ∧ LoadServerConfig ReadFile yaml path = Ok fc
      ∧ NewServer ReadPeers yaml_peers (ServerConfigFrom (Some fc)) = Ok cfg
      ∧ dm_default d = sf_LogFormat fc ∧ Forall (λ l, ll_format l = sf_LogFormat fc) (dm_log d)
      ∧ (dm_code d = 0%Z ↔ Run cfg = None)
  end.
Proof.
  cbn zeta. unfold runServe. destruct (Parse serve_flags args ∅) as [vals rest| |msg]; [|done|done].
  destruct (vals !! #"config") as [path|] eqn:Ec; cbn [default from_option id]; [|done].
  case_bool_decide; [done|]. destruct (LoadServerConfig ReadFile yaml path) as [fc|err] eqn:El; [|done].
  rewrite (newLogHandler_loaded _ _ _ _ El).
  destruct (NewServer ReadPeers yaml_peers (ServerConfigFrom (Some fc))) as [cfg|err] eqn:En; [|done].
  destruct (Run cfg) as [err|] eqn:Er; cbn [dm_ran]; exists vals, rest, path, fc; rewrite Er;
    (split_and!; [done..|by repeat constructor|done]).
Qed.

End serve.

(** ** The command line *)

Definition usage_text : gostring :=
  #"usage: gocloak <command> [flags]" ++ endl ++ #"commands:" ++ endl ++
  #"  keygen --name <peer-name> [--dir <dir>]   mint a peer keypair and PSK" ++ endl ++
  #"  serve --config <path>                     run the server" ++ endl.

(** What [run] dispatches to, with the arguments left; or an exit at once. *)
Inductive command := RunKeygen (args : list gostring) | RunServe (args : list gostring)
  | Exit (code : Z) (stdout stderr : gostring).
Definition run `{GoUnicode} (args : list gostring) : command :=
  match args with
  | [] => Exit 2 [] usage_text
  | cmd :: args' =>
      if bool_decide (cmd = #"keygen") then RunKeygen args'
      else if bool_decide (cmd = #"serve") then RunServe args'
      else if bool_decide (cmd ∈ [ #"-h"; #"-help"; #"--help" ]) then Exit 0 usage_text []
      else Exit 2 [] (#"gocloak: unknown command " ++ Quote cmd ++ endl ++ usage_text)
  end.

(** The process: [os_args] starts with the program's name. *)
Definition main `{GoUnicode} (os_args : list gostring) : command := run (tail os_args).

(** ** A minted peer *)

#[local] Instance demo_print : GoUnicode :=
  {| IsPrint r := (32 <=? r)%Z && (r <? 127)%Z; IsPrint_ascii := λ r _, eq_refl |}.

Definition demo_io : fileIO := {|
  fo_open := None; fo_umask := 18; fo_write := None; fo_sync := None; fo_close := None; fo_removes := true |}.
Definition demo_environment (psk : fileIO) : environment := {|
  en_getwd := Ok (#"/root");
  en_rand := mkReader [map (λ n, byte_of_Z (Z.of_nat n)) (seq 1 40); map (λ n, byte_of_Z (Z.of_nat n)) (seq 41 30)] EOF_error;
  en_key := demo_io; en_psk := psk; en_removes := true |}.
Definition demo_args : list gostring := [ #"--name"; #"app-01"; #"-dir=/etc/gocloak/../peers" ].
Definition demo_full : fileIO := {|
  fo_open := None; fo_umask := 18; fo_write := Some (5, errors_New (#"no space left on device"));
  fo_sync := None; fo_close := None; fo_removes := true |}.
Definition demo_files : files := {[ #"/etc/peers/app-02.key" := {| f_mode := 384; f_content := #"k" |} ]}.
Definition demo_out : output := runKeygen (λ k, Ok (reverse k)) demo_args (demo_environment demo_io) demo_files.

Example demo_out_files :
  dom (out_files demo_out) = {[ #"/etc/peers/app-01.key"; #"/etc/peers/app-01.psk"; #"/etc/peers/app-02.key" ]}.
Proof. apply (bool_decide_eq_true_1 _). by vm_compute. Qed.

Lemma keygen_mints_or_leaves_nothing_witness :
  out_files (runKeygen (λ k, Ok (reverse k)) demo_args (demo_environment demo_full) demo_files) = demo_files
  ∧ out_code demo_out = 0%Z.
Proof.
  split; [|by vm_compute].
  destruct (keygen_mints_or_leaves_nothing (λ k, Ok (reverse k)) demo_args (demo_environment demo_full) demo_files)
    as [_ [(vals & rest & name & dir & priv & pub & psk & kp & pp & _ & _ & Hm)|(_ & _ & H)]].
  - by intros wd [= <-].
  - pose proof (mt_code _ _ _ _ _ _ _ _ _ _ _ Hm) as Hc. by vm_compute in Hc.
  - apply map_eq. intros p. apply dec_stable. intros Hne%H.
    by destruct Hne as (? & ? & ? & ? & _ & _ & [[_ [? | ?]]|[_ ?]]).
Defined.

Definition demo_priv : gostring := clampPrivateKey (map (λ n, byte_of_Z (Z.of_nat n)) (seq 1 32)).
Definition demo_psk : gostring := map (λ n, byte_of_Z (Z.of_nat n)) (seq 33 32).

(** A function that gives 32 bytes, on any input, in X25519's place. *)
Definition demo_X25519 (k : gostring) : result gostring := Ok (resize 32 Byte.x00 (reverse k)).

Lemma keygen_keys_are_usable_witness :
  let o := runKeygen demo_X25519 demo_args (demo_environment demo_io) demo_files in
  out_stdout o ≠ [] ∧ ∃ name priv pub psk keyPath pskPath,
    out_stdout o = keygen_report name pub psk keyPath pskPath
    ∧ usable (out_files o) name priv pub psk keyPath pskPath.
Proof.
  assert (out_stdout (runKeygen demo_X25519 demo_args (demo_environment demo_io) demo_files) ≠ []) as Hne
    by by vm_compute.
  split; [exact Hne|].
  destruct (keygen_keys_are_usable demo_X25519 demo_args (demo_environment demo_io) demo_files)
    as (name & priv & pub & psk & kp & pp & H1 & _ & H2).
  - by intros wd [= <-].
  - intros k p [= H]. rewrite <- H. exact (length_resize (reverse k) 32 Byte.x00).
  - exact Hne.
  - by exists name, priv, pub, psk, kp, pp.
Defined.

(** The files made, and what they hold. *)
Example demo_minted :
  out_files demo_out = <[ #"/etc/peers/app-01.psk" := {| f_mode := 384; f_content := b64_encode demo_psk |} ]>
    (<[ #"/etc/peers/app-01.key" := {| f_mode := 384; f_content := b64_encode demo_priv |} ]> demo_files).
Proof. apply (bool_decide_eq_true_1 _). by vm_compute. Qed.

End CmdGocloak.
