(* ===== verification/CmdSend.v ===== *)
(** * The [gocloak-send] and [gocloak-sink] commands ([cmd/gocloak-send/main.go], [cmd/gocloak-sink/main.go])

    The flags of a send and their checks, the one message it sends through a
    client, the exit code of every failure; and the sink around [msg.Serve].
    What [Client.Dial] returns is given here; its own model is [Dial]. *)

From S2P Require Import Prelude GoStrings GoEncoding GoNetip GoIO GoNet GoFlag Wire Secret Config Device Client Dial Msg.
Import Wire Secret Config Device Client Dial.

Module CmdSend.

Definition exitOK : Z := 0.
Definition exitError : Z := 1.
Definition exitUsage : Z := 2.
Definition exitDenied : Z := 10.
Definition exitBackendUnavailable : Z := 11.
Definition exitRateLimited : Z := 12.
Definition exitHandshakeTimeout : Z := 13.
Definition exitInvalidServiceName : Z := 14.

Definition endl : gostring := [nl].
Definition say (msg : gostring) : gostring := #"gocloak-send: " ++ msg ++ endl.

(** ** Flags *)

Record sendConfig := {
  sd_endpoint : gostring; sd_serverKey : gostring; sd_keyRef : SecretRef; sd_pskRef : SecretRef;
  sd_tunnelIP : Addr; sd_service : gostring; sd_timeout : Z; sd_message : gostring
}.

Section commands.
Context {GU : GoUnicode}.
(** The text of the error [netip.ParseAddr] has for a string. *)
Context (addr_error_text : gostring → gostring).

Definition send_flag_list : list flag :=
  let str name usage := {| fl_name := name; fl_kind := StringFlag []; fl_usage := usage |} in
  [ str (#"endpoint") (#"host:port of the tunnel server, UDP");
    str (#"server-key") (#"base64 server public key, pinned");
    str (#"key") (#"SecretRef for this peer's private key, for example file:./app-01.key");
    str (#"psk") (#"SecretRef for this peer's preshared key");
    str (#"tunnel-ip") (#"this peer's address inside the tunnel, for example 10.99.0.7");
    str (#"service") (#"the service name to dial");
    {| fl_name := #"timeout"; fl_kind := DurationFlag DefaultDialTimeout; fl_usage := #"dial timeout" |} ].
Definition send_flags : gmap gostring (gostring → option gostring) := formal_flags send_flag_list.

(** What each exit code means, as the usage says. *)
Definition exit_meanings : list (Z * gostring) :=
  [(exitOK, #"   sent, ack received"); (exitError, #"   an error other than the ones below");
   (exitUsage, #"   usage error: a required flag is missing, empty, or malformed");
   (exitDenied, #"  denied: the service is not in this peer's allow map");
   (exitBackendUnavailable, #"  backend unavailable: granted, but the server could not reach it");
   (exitRateLimited, #"  rate limited: this peer exceeded its configured dial limits");
   (exitHandshakeTimeout, #"  handshake timeout: see the printed message for what that can mean");
   (exitInvalidServiceName, #"  invalid service name: rejected locally, no packet was sent")].
Definition exit_line (e : Z * gostring) : gostring := #"  " ++ itoa (fst e) ++ snd e ++ endl.
Definition send_usage : gostring :=
  #"usage: gocloak-send [flags] <message>" ++ endl ++ endl ++ PrintDefaults send_flag_list ++ endl
  ++ #"exit codes:" ++ endl ++ concat (exit_line <$> exit_meanings).

(** [parseArgs]: a configuration, or the exit code and what was printed. *)
Definition parseArgs (usage : gostring) (args : list gostring) : sendConfig + Z * gostring :=
  match Parse send_flags args ∅ with
  | Help => inr (exitOK, usage)
  | BadFlag msg => inr (exitUsage, msg ++ endl ++ usage)
  | Parsed vals rest =>
      let get name := default [] (vals !! name) in
      let timeout := default DefaultDialTimeout (vals !! #"timeout" ≫= ParseDuration) in
      let absent name (flag : gostring) := if bool_decide (get name = []) then [flag] else [] in
      let missing :=
        absent (#"endpoint") (#"--endpoint") ++ absent (#"server-key") (#"--server-key")
        ++ absent (#"key") (#"--key") ++ absent (#"psk") (#"--psk")
        ++ absent (#"tunnel-ip") (#"--tunnel-ip") ++ absent (#"service") (#"--service")
        ++ match rest with [] => [ #"message (positional argument)"] | _ => [] end in
      match missing with
      | _ :: _ => inr (exitUsage, say (#"missing required: " ++ Join missing (#", ")))
      | [] =>
          match b64_decode (get (#"server-key")) with
          | None => inr (exitUsage, say (#"--server-key is not valid base64"))
          | Some keyBytes =>
              if negb (Z.of_nat (length keyBytes) =? wgKeyLen)%Z then
                inr (exitUsage, say (#"--server-key decodes to " ++ itoa (Z.of_nat (length keyBytes))
                                     ++ #" bytes, want " ++ itoa wgKeyLen))
              else
              match ParseAddr (get (#"tunnel-ip")) with
              | None => inr (exitUsage, say (#"--tunnel-ip is not a valid address: " ++ addr_error_text (get (#"tunnel-ip"))))
              | Some tunnelIP =>
                  inl {| sd_endpoint := get (#"endpoint"); sd_serverKey := get (#"server-key");
                         sd_keyRef := get (#"key"); sd_pskRef := get (#"psk"); sd_tunnelIP := tunnelIP;
                         sd_service := get (#"service"); sd_timeout := timeout;
                         sd_message := default [] (head rest) |}
              end
          end
      end
  end.

(** ** Sending *)

Definition reportError (err : error) : Z * gostring :=
  if errors_Is err ErrHandshakeTimeout then (exitHandshakeTimeout, say (e_msg err))
  else if errors_Is err ErrDenied then
    (exitDenied, say (#"denied: this peer's allow map does not grant this service"))
  else if errors_Is err ErrBackendUnavailable then
    (exitBackendUnavailable, say (#"backend unavailable: the service is granted, but the server could not reach it"))
  else if errors_Is err ErrRateLimited then
    (exitRateLimited, say (#"rate limited: this peer exceeded its configured dial limits"))
  else if errors_Is err ErrInvalidServiceName then
    (exitInvalidServiceName, say (#"invalid service name: " ++ e_msg err))
  else (exitError, say (e_msg err)).

Context {WG : WireGuard}.

(** The world of one send: what construction needs, what [Dial] returns for a
    context budget, and the exchange on the connection. *)
Record world := {
  wd_os : osEnv; wd_names : lookup_ip; wd_tun : option error;
  wd_dial : client → Z → gostring → result (reader * writer);
  wd_now : Z; wd_setDeadline : Z → option error; wd_start : Z; wd_end : Z
}.
(** The exit, what the exchange wrote, and what was opened and closed. *)
Record sent := {
  st_code : Z; st_stdout : gostring; st_stderr : gostring; st_conn : option writer; st_resources : list resource
}.

(** The client of a send, its [DialTimeout] being the flag's value. *)
Definition clientConfig (cfg : sendConfig) : ClientConfig := {|
  cc_Endpoint := sd_endpoint cfg; cc_ServerPubKey := sd_serverKey cfg; cc_PrivateKey := sd_keyRef cfg;
  cc_PresharedKey := sd_pskRef cfg; cc_TunnelIP := sd_tunnelIP cfg; cc_MTU := 0; cc_DialTimeout := sd_timeout cfg |}.

Definition milliseconds (d : Z) : Z := Z.quot d Millisecond.

Definition sendMessage (cfg : sendConfig) (wd : world) : sent :=
  match NewClient (wd_os wd) None (wd_names wd) (wd_tun wd) (clientConfig cfg) with
  | (Err err, rs) =>
      let '(code, msg) := reportError err in
      {| st_code := code; st_stdout := []; st_stderr := msg; st_conn := None; st_resources := rs |}
  | (Ok c, rs) =>
      let done code stdout stderr conn :=
        {| st_code := code; st_stdout := stdout; st_stderr := stderr; st_conn := conn;
           st_resources := rs ++ snd (Client.Close c) |} in
      match wd_dial wd c (wrap64 (sd_timeout cfg + 5 * Second)) (sd_service cfg) with
      | Err err => let '(code, msg) := reportError err in done code [] msg None
      | Ok (conn_in, conn_out) =>
          match wd_setDeadline wd (wd_now wd + sd_timeout cfg)%Z with
          | Some err => done exitError [] (say (e_msg err)) (Some conn_out)
          | None =>
              match Msg.Send conn_in conn_out (sd_message cfg) (wd_start wd) (wd_end wd) with
              | (_, _, Some err, w) => done exitError [] (say (e_msg err)) (Some w)
              | (_, elapsed, None, w) =>
                  done exitOK (#"sent " ++ itoa (Z.of_nat (length (sd_message cfg))) ++ #" bytes, ack in "
                               ++ itoa (milliseconds elapsed) ++ #"ms" ++ endl) [] (Some w)
              end
          end
      end
  end.

(** [run] of [gocloak-send]. *)
Definition run_send (usage : gostring) (args : list gostring) (wd : world) : sent :=
  match parseArgs usage args with
  | inr (code, msg) => {| st_code := code; st_stdout := []; st_stderr := msg; st_conn := None; st_resources := [] |}
  | inl cfg => sendMessage cfg wd
  end.

(** ** The sink *)

Definition defaultListen : gostring := #"127.0.0.1:19000".
Definition sink_flag_list : list flag :=
  [ {| fl_name := #"listen"; fl_kind := StringFlag defaultListen; fl_usage := #"address to listen on" |} ].
Definition sink_flags : gmap gostring (gostring → option gostring) := formal_flags sink_flag_list.
Definition sink_usage : gostring :=
  #"gocloak-sink is a plain TCP backend service. It is NOT a goCloak" ++ endl ++
  #"peer and speaks no tunnel protocol: it is the kind of ordinary" ++ endl ++
  #"service, like the database in the README's own examples, that a" ++ endl ++
  #"gocloak server proxies to. Point a peers.yaml " ++ [backquote] ++ #"allow" ++ [backquote] ++ #" entry at its" ++ endl ++
  #"--listen address; do not dial --listen directly from gocloak-send." ++ endl ++ endl ++
  #"usage: gocloak-sink [--listen host:port]" ++ endl ++ PrintDefaults sink_flag_list.

(** [run] of [gocloak-sink]: [listen] gives the listener's address, and
    [serve] what [msg.Serve] returned and whether the context was done. *)
Definition run_sink (usage : gostring) (args : list gostring)
    (listen : gostring → result gostring) (serve : error * bool) : Z * gostring * gostring :=
  match Parse sink_flags args ∅ with
  | Help => (0%Z, [], usage)
  | BadFlag msg => (2%Z, [], msg ++ endl ++ usage)
  | Parsed vals _ =>
      match listen (default defaultListen (vals !! #"listen")) with
      | Err err => (1%Z, [], #"gocloak-sink: listen: " ++ e_msg err ++ endl)
      | Ok addr =>
          let stdout := #"gocloak-sink: listening on " ++ addr ++ #" (plain TCP, not a goCloak peer)" ++ endl in
          let '(err, canceled) := serve in
          if negb canceled then (1%Z, stdout, #"gocloak-sink: serve: " ++ e_msg err ++ endl)
          else (0%Z, stdout, [])
      end
  end.

(** The processes: [os_args] starts with the program's name. *)
Definition main_send (os_args : list gostring) (wd : world) : sent := run_send send_usage (tail os_args) wd.
Definition main_sink (os_args : list gostring) (listen : gostring → result gostring) (serve : error * bool)
    : Z * gostring * gostring := run_sink sink_usage (tail os_args) listen serve.

(** ** Lemmas *)

Lemma reportError_nonzero err : fst (reportError err) ≠ exitOK.
Proof. unfold reportError. repeat (destruct (errors_Is err _); [done|]). done. Qed.

(** An error with one sentinel. *)
Lemma reportError_one err s :
  e_chain err = [s] →
  fst (reportError err) =
    (if bool_decide (s = ErrHandshakeTimeout) then exitHandshakeTimeout
     else if bool_decide (s = ErrDenied) then exitDenied
     else if bool_decide (s = ErrBackendUnavailable) then exitBackendUnavailable
     else if bool_decide (s = ErrRateLimited) then exitRateLimited
     else if bool_decide (s = ErrInvalidServiceName) then exitInvalidServiceName
     else exitError).
Proof.
  intros Hs. unfold reportError, errors_Is. rewrite Hs.
  assert (∀ x, bool_decide (x ∈ [s]) = bool_decide (s = x)) as H.
  { intros x. apply bool_decide_ext. rewrite list_elem_of_singleton. naive_solver. }
  rewrite !H. by repeat case_bool_decide.
Qed.

(** ** Properties *)

Definition refusal_code (st : byte) : Z :=
  if bool_decide (st = statusDenied) then exitDenied
  else if bool_decide (st = statusBackendUnavailable) then exitBackendUnavailable
  else if bool_decide (st = statusRateLimited) then exitRateLimited
  else exitError.

(** A script can tell failures apart by the exit code alone: each refusal
    the server writes gives its own code, as do a handshake that timed out,
    whose message is printed in full, and a service name that never left the
    machine; a dial that was cancelled and a closed client are plain errors. *)
Theorem exit_codes_tell_failures_apart e io w svc err w' st waited :
  hello e io w svc = (Some err, w') → io_setWrite io = None → writeHelloRequest w svc = (None, w') →
  io_setRead io = None → fst (readHelloResponse (io_reader io)) = Ok st → st ≠ statusOK →
  fst (reportError err) = refusal_code st
  ∧ reportError (handshakeTimeoutError e waited)
    = (exitHandshakeTimeout, say (e_msg (handshakeTimeoutError e waited)))
  ∧ fst (reportError ErrInvalidServiceName_error) = exitInvalidServiceName
  ∧ fst (reportError (dialCanceled e)) = exitError ∧ fst (reportError ErrClientClosed_error) = exitError.
Proof.
  intros Hh H1 H2 H3 H4 Hst. split_and!; [|done|done|done|done].
  unfold hello in Hh. rewrite H1, H2, H3, H4 in Hh. unfold statusError in Hh.
  rewrite bool_decide_false in Hh by done. unfold refusal_code.
  repeat case_bool_decide; simplify_eq; try (by erewrite reportError_one); done.
Qed.

(** The exit code is zero exactly when a client was made, its dial granted
    the service, the deadline was set and the message was acknowledged; the
    report then has the length of the message and the time taken, and on every
    path the client that was made is closed. *)
Theorem send_succeeds_exactly cfg wd :
  let s := sendMessage cfg wd in
  (st_code s = exitOK ↔
   ∃ c rs cin cout ack elapsed w,
     NewClient (wd_os wd) None (wd_names wd) (wd_tun wd) (clientConfig cfg) = (Ok c, rs)
     ∧ wd_dial wd c (wrap64 (sd_timeout cfg + 5 * Second)) (sd_service cfg) = Ok (cin, cout)
     ∧ wd_setDeadline wd (wd_now wd + sd_timeout cfg)%Z = None
     ∧ Msg.Send cin cout (sd_message cfg) (wd_start wd) (wd_end wd) = (ack, elapsed, None, w)
     ∧ st_stdout s = #"sent " ++ itoa (Z.of_nat (length (sd_message cfg))) ++ #" bytes, ack in "
                     ++ itoa (milliseconds elapsed) ++ #"ms" ++ endl)
  ∧ (st_code s ≠ exitOK → st_stdout s = [])
  ∧ ∀ c rs, NewClient (wd_os wd) None (wd_names wd) (wd_tun wd) (clientConfig cfg) = (Ok c, rs) →
      st_resources s = rs ++ snd (Client.Close c).
Proof.
  cbn zeta. unfold sendMessage.
  destruct (NewClient _ _ _ _ _) as [[c|err] rs].
  2:{ pose proof (reportError_nonzero err). destruct (reportError err) as [code msg]. cbn in *.
      split_and!; [|done|done]. split; [done|]. by intros (? & ? & ? & ? & ? & ? & ? & ? & _). }
  destruct (wd_dial wd c _ _) as [[cin cout]|err] eqn:Ed.
  2:{ pose proof (reportError_nonzero err). destruct (reportError err) as [code msg]. cbn in *.
      split_and!; [|done|by intros ? ? [= <- <-]]. split; [done|].
      intros (? & ? & ? & ? & ? & ? & ? & [= <- <-] & E & _). congruence. }
  destruct (wd_setDeadline wd _) as [err|] eqn:Et.
  { cbn. split_and!; [|done|by intros ? ? [= <- <-]]. split; [done|].
    by intros (? & ? & ? & ? & ? & ? & ? & _ & _ & E & _). }
  destruct (Msg.Send cin cout _ _ _) as [[[ack elapsed] [err|]] w] eqn:Es; cbn.
  - split_and!; [|done|by intros ? ? [= <- <-]]. split; [done|].
    intros (? & ? & ? & ? & ? & ? & ? & [= <- <-] & E & _ & E2 & _). rewrite Ed in E. injection E as <- <-. congruence.
  - split_and!; [|done|by intros ? ? [= <- <-]]. split; [|done]. intros _.
    by exists c, rs, cin, cout, ack, elapsed, w.
Qed.

Lemma parseArgs_code usage args code msg : parseArgs usage args = inr (code, msg) → code = exitOK ∧ msg = usage ∨ code = exitUsage.
Proof.
  unfold parseArgs. destruct (Parse _ _ _) as [vals rest| |why]; [|intros [= <- <-]; by left|intros [= <- _]; by right].
  intros H. right. repeat (case_match; simplify_eq; try done).
Qed.

Lemma reportError_code err : fst (reportError err) ∈ fst <$> exit_meanings.
Proof. unfold reportError. repeat (destruct (errors_Is err _); [apply (bool_decide_eq_true_1 _); by vm_compute|]). apply (bool_decide_eq_true_1 _). by vm_compute. Qed.

Lemma sendMessage_code cfg wd : st_code (sendMessage cfg wd) ∈ fst <$> exit_meanings.
Proof.
  assert (exitOK ∈ fst <$> exit_meanings ∧ exitError ∈ fst <$> exit_meanings) as [H0 H1]
    by (split; apply (bool_decide_eq_true_1 _); by vm_compute).
  unfold sendMessage. destruct (NewClient _ _ _ _ _) as [[c|err] rs].
  2:{ pose proof (reportError_code err). by destruct (reportError err). }
  destruct (wd_dial wd c _ _) as [[cin cout]|err].
  2:{ pose proof (reportError_code err). by destruct (reportError err). }
  destruct (wd_setDeadline wd _); [done|]. by destruct (Msg.Send _ _ _ _ _) as [[[] []] ?].
Qed.

(** The usage text has a line for every code the process can exit with, and is
    printed in full, with code 0, when help is asked for. *)
Theorem exit_codes_are_documented os_args wd :
  (∃ meaning, (st_code (main_send os_args wd), meaning) ∈ exit_meanings)
  ∧ (∀ e, e ∈ exit_meanings → Contains send_usage (endl ++ exit_line e) = true)
  ∧ (Parse send_flags (tail os_args) ∅ = Help →
     st_code (main_send os_args wd) = exitOK ∧ st_stderr (main_send os_args wd) = send_usage).
Proof.
  split_and!.
  - assert (st_code (main_send os_args wd) ∈ fst <$> exit_meanings) as ([code m] & E & Hin)%list_elem_of_fmap;
      [|exists m; by rewrite E].
    unfold main_send, run_send. destruct (parseArgs _ _) as [cfg|[code msg]] eqn:E; [apply sendMessage_code|].
    destruct (parseArgs_code _ _ _ _ E) as [[-> _]| ->]; apply (bool_decide_eq_true_1 _); by vm_compute.
  - apply Forall_forall. apply (bool_decide_eq_true_1 _). by vm_compute.
  - intros H. unfold main_send, run_send, parseArgs. by rewrite H.
Qed.

End commands.

(** ** One refusal *)

#[local] Existing Instance demo_unicode.

Lemma exit_codes_tell_failures_apart_witness :
  fst (reportError (default canceled_error
    (fst (hello demo_endpoint (demo_helloIO [frameVersion; statusRateLimited]) (mkWriter [] None) (#"primary-db")))))
  = exitRateLimited.
Proof.
  refine (proj1 (exit_codes_tell_failures_apart demo_endpoint (demo_helloIO [frameVersion; statusRateLimited])
    (mkWriter [] None) (#"primary-db") _ (mkWriter (hello_request_frame (#"primary-db")) None) statusRateLimited 0
    _ _ _ _ _ _)); [reflexivity..|by vm_compute].
Defined.

End CmdSend.
